(* ===== verification/_CoqProject ===== *)
-Q . S2P
Prelude.v
MyString.v
JobAd.v
ArgList.v
HashTable.v
Env.v
TimerManager.v
ClassAdLog.v
CheckEvents.v
Operators.v
ClassAdLexer.v
ClassAdParser.v
ClassAdUnparse.v
ClassAdGrammar.v
ClassAdComplete.v
ClassAdScan.v
ClassAdNumbers.v
ClassAdText.v
ClassAdSyntax.v
ClassAdTotal.v
ClassAdExamples.v
CronDate.v
CronTab.v
CronSyntax.v
CronRun.v
CronJobs.v
CronExamples.v
RingBuffer.v
Stats.v
StatsPool.v
DList.v
StringList.v
MacroText.v
MacroSet.v
MacroExpand.v
MacroSpec.v
MacroInsert.v
MacroExamples.v
ConfigIf.v
ConfigCond.v
ConfigParse.v
PriorityList.v
Dag.v
DagCycle.v
DagInv.v
DagSafe.v
DagStart.v
DagRun.v
DagMain.v
DagBuild.v
DagSteps.v
DagExamples.v
