(* ===== verification/Prelude.v ===== *)
(** * Verification of the core libraries of HTCondor

    HTCondor is a batch system of cooperating daemons (master, collector,
    negotiator, schedd, startd, shadow, starter) built on common libraries.
    This development models the libraries in which the daemons keep their state
    and describe jobs, from the C++ sources under [src/src]:

    - strings: [condor_utils/MyString.cpp];
    - the arguments of a job: [condor_utils/condor_arglist.cpp];
    - the environment of a job: [condor_utils/env.cpp], kept in a hash table and
      written with the syntax of the argument lists;
    - the hash table: [condor_utils/HashTable.h], used by the environment, by the
      transactions and by the table of ads of the log;
    - the timers of a daemon: [condor_daemon_core.V6/timer_manager.cpp];
    - the persistent table of ads, for example the job queue of the schedd:
      [condor_utils/classad_log.cpp], [log.cpp], [log_transaction.cpp];
    - the values and operators of the ClassAd language, in which jobs and machines
      are described and matched: [classad/operators.cpp], [value.cpp], with its lexer,
      parser and unparser: [lexer.cpp], [source.cpp], [sink.cpp];
    - the checks of the event log of jobs: [condor_utils/check_events.cpp];
    - the cron schedules of jobs: [condor_utils/condor_crontab.cpp] with the
      calendar of [date_util.cpp], and the table of cron jobs that the schedd keeps:
      [condor_schedd.V6/schedd.cpp];
    - the statistics that the daemons publish: [condor_utils/generic_stats.h] and
      [generic_stats.cpp], and those of a daemon in
      [condor_daemon_core.V6/self_monitor.cpp];
    - lists: the linked list [condor_utils/list.h] and the lists of strings
      [condor_utils/string_list.cpp] over it;
    - the configuration: the table of macros, their expansion, conditions and
      statements in [condor_utils/config.cpp], [condor_config.cpp] and
      [param_info.cpp], with [StringList] for its arguments and lines;
    - DAGMan, which submits the nodes of a graph of jobs in its order:
      [condor_dagman/dag.cpp], [job.cpp], [scriptQ.cpp], [parse.cpp],
      [dagman_main.cpp], [throttle_by_category.cpp], with its ready queue
      [condor_utils/prioritysimplelist.h].

    ** Files

    - [Prelude] (this file): C strings, machine integers, the state-and-abort
      monad with its weakest preconditions, tactics, shared lemmas.
    - [MyString]: module [Buf] is the growing buffer ([Data], [Len],
      [capacity]; [init], [assign_str], [append_str], [append_char], [reserve],
      [reserve_at_least], [setChar], [getChar]); module [Str] the operations that read a
      string ([Substr], [EscapeChars], [FindChar], [find], [replaceString],
      [chomp], [trim], [compressSpaces], [Tokenize], [GetNextToken], [Hash]).
    - [JobAd]: the interface [JobAd] of the string attributes of a ClassAd with
      its laws [JobAdLaws] and an instance, and [built_since_version] of
      [condor_ver_info.cpp].  The clients' theorems are proved from the laws.
    - [ArgList]: the class [ArgList] and the functions [split_args],
      [join_args], [append_arg].  A Boolean result, the new state and the new
      error message are returned together; an ASSERT is [None].
    - [HashTable]: the template class, over any hash function.  Nodes have
      addresses; the cursor and the registered iterators point to them.
    - [Env]: the class [Env] over [HashTable], [ArgList] and [JobAd].
    - [TimerManager]: the class [TimerManager].  The timers are a heap of
      objects, the linked list is the list of their addresses, [clock] is the
      sequence of values that [time] gives, and a handler is the list of calls
      of the manager that it makes, which may depend on the state.  The timeslice
      computation ([condor_timeslice.cpp], floating point) is the interface
      [TimesliceOps].
    - [ClassAdLog]: the records and their text, [Transaction], the class
      [ClassAdLog].  The expressions of an ad are the interface [AdOps] with the
      laws [AdSpec]; a file is what was synced followed by what was not.
    - [CheckEvents]: the class [CheckEvents]: the counters of each job, the check
      of each event, the final check, and the flags of what is tolerated.
    - [Operators]: the values, [_doOperation] with the functions it calls, and
      the two evaluators of operator trees.  Floating-point numbers are the
      interface of what the code uses of them.
    - [ClassAdLexer]: the class [Lexer] on strings, whose cursor is the text that is left,
      and [convert_escapes].  [ClassAdParser]: the class [ClassAdParser], a function for
      each of its functions; the loops for binary operators are one function.  [ClassAdUnparse]: the class
      [ClassAdUnParser] in the syntax of new ClassAds.  [ClassAdGrammar]: the grammar
      as a relation between trees and tokens, and that the parser keeps to it;
      [ClassAdComplete]: that it accepts it.  [ClassAdScan], [ClassAdNumbers]: how the lexer reads
      what the unparser writes; [ClassAdText]: the tokens of the text of a tree.  [ClassAdSyntax]: the theorems.
      [ClassAdTotal]: the parser returns.  [ClassAdExamples]: concrete texts.
    - [CronDate]: [daysInMonth] and [dayOfWeek], a reference calendar, and the
      interface [Zone] of [localtime] and [mktime], for which nothing is assumed, with
      its instances [fixed_zone] of a fixed offset.  [CronTab]: the class [CronTab], its
      parameters, their expansion and the search for the next run time; PCRE is
      the interface [Pcre].  [CronSyntax]: the text of schedules and what it
      selects.  [CronRun]: the search.  [CronJobs]: the part of the class
      [Scheduler] about one cron job, over job ads with integers ([IntAd]).
      [CronExamples]: concrete schedules and zones.
    - [RingBuffer]: the classes [ring_buffer] and [stats_entry_recent], over any
      type with addition ([NumLaws]); the buffer holds the items that were stored,
      and reading another one fails.  [Stats]: [generic_stats_Tick], the class
      [StatisticsPool] with its objects in a heap, which belong to different classes
      ([ProbeType]: those of one of them), and [DaemonCore::Stats].
      [StatsPool]: the pool in use, and examples.
    - [DList]: the template classes [List] and [ListIterator], nodes in a heap, with the
      sequence with a position that they implement.  [StringList]: the class
      [StringList] over that sequence.
    - [MacroText]: [find_config_macro], [find_special_config_macro] and the
      grammar of references.  [MacroSet]: the table of macros and the look-ups,
      in it and in the tables of defaults, which are the argument [ParamTables].
      [MacroExpand]: [expand_self_macro], [insert], [expand_macro].
      [MacroSpec]: the reference expansion.  [MacroInsert]: assignments.
      [MacroExamples]: concrete tables, random integers.  [ConfigIf]: the class
      [ConfigIfStack].  [ConfigCond]: the conditions of [if] lines.
      [ConfigParse]: [Parse_config_string] and [read_meta_config].
    - [PriorityList]: [PrioritySimpleList] over [SimpleList], with
      [BinarySearch].
    - [Dag]: DAGMan.  The state [Dag] holds the nodes ([Job]) by their number;
      what scripts, [condor_submit] and log files answer is the record [World], and
      the settings are [DagConfig].  A handler ends ([Done]), leaves the
      process ([Exit]), fails an ASSERT or EXCEPT ([Abort]), or runs out of fuel.
      [DagCycle]: the cycle check.  [DagInv]: the invariant.  [DagSafe],
      [DagStart], [DagRun], [DagMain], [DagBuild]: the invariant through
      the handlers, from the bottom up: changes of one node, [StartNode],
      the events, scripts and submission, the parser and [Bootstrap].
      [DagSteps]: the reachable states and the theorems.  [DagExamples]: a DAG
      from its file to its end, and the runs that go wrong.

    ** What the theorems show

    - Persistence ([ClassAdLog]).  [ClassAdLog_refines]: every sequence of
      operations on well-formed records implements an abstract log of durable and
      volatile units.
      [ClassAdLog_recovers]: after a crash that keeps any prefix of the unsynced
      text, replay succeeds and gives the durable units followed by the
      volatile units that are wholly there, so transactions are atomic, ordered and
      durable.  [LogState_replays]: rotation keeps the keys, and the ads as far as the texts
      of their attributes are read as what was written.
      [AdExists_correct] and [LookupInTransaction_correct]: the look-ups in an
      open transaction predict the state after the commit.
    - Timers ([TimerManager]).  [TimerManager_safe]: no run aborts or uses a
      freed timer, whatever the handlers do, and the list keeps its invariant.
      [Timeout_spec], [after_handler_spec], [Reset_Cancel_spec],
      [InsertTimer_stable]: what each operation does on every branch.
    - Hash tables.  [insert_refines], [lookup_remove_refine]: the chained and
      resizing table implements a finite map; [iterate_visits_all],
      [remove_current_safe]: the cursor visits every entry once and survives
      removals.
    - Arguments and environments.  Round trips of every pair of a writer and a
      reader ([split_args_join_args], [V2Quoted_roundtrip],
      [V1or2Raw_roundtrip], [V1WackedOrV2Quoted_roundtrip], [Win32_roundtrip],
      [InsertArgs_AppendArgs], [V2Raw_Env_roundtrip], [V1or2Raw_Env_roundtrip],
      [InsertEnv_MergeFrom]); [Env_refines_map]: the environment is a finite map.
    - DAGMan.  [dagman_safe]: from every reachable state each handler ends or
      leaves the process, and does not abort or loop.  [dagman_counters]: no node
      is lost and no counter drifts.  [dagman_order]: parents are done first.
      [dagman_limits]: the throttles and retries.  [dagman_outcome]: a DAG in which
      nothing runs any more is done, has failed or has a cycle.
      [bootstrap_safe]: the same for the start.  [isCycle_correct]: the cycle
      check is right.  [priority_insert_spec]: the ready queue is stable.
      These theorems are about nodes with one proc; for several procs
      [two_procs_failure_lost] and [two_procs_retry_aborts] show that they fail.  The DAG
      does not have both a final node and an ABORT-DAG-ON line, and the conditions on log
      files, process IDs and clusters are [good_world].
    - Cron schedules.  [expandParameter_text]: the text of a field is expanded to
      exactly the values it names; [constructor_ranges]: any text gives ranges
      inside their fields; [nextRunTime_correct]: the search gives the first minute
      of the schedule after a time, as long as the offset of local time stays the same;
      [nextRunTime_never]: a schedule that
      never holds is searched without an end; [dayOfWeek_correct]: the formula
      for weekdays is right; [cron_job_settled]: what the schedd makes of one
      of its cron jobs.
    - Statistics.  [recent_refines]: the ring buffer of a statistic, with all its
      reallocations, is a window of slots.  [recent_window]: driven by the clock of
      the daemon, it covers the last slots of time.  [Tick_counts]: how many slots the
      clock advances.  [pool_safe]: a pool calls only statistics that exist, with the
      functions of their class.
    - Lists.  [list_refines]: the linked list is a sequence with a position.
      [StringList_roundtrip], [contains_withwildcard_spec], [StringList_sets],
      [StringList_order]: printing and parsing, searches, unions, sorting.
    - Configuration.  [macro_table_map]: the table is a map without regard to case,
      sorted or not.  [expand_macro_correct]: the expansion of a text is its
      reference expansion over that map.  [expand_loop_terminates]: it ends exactly
      when the references do not go round.  [assign_correct]: an assignment ends and
      keeps the table well-formed and without references of a macro to itself.
      [Parse_config_string_assigns]: what a text of assignments does.
      [ConfigIfStack_refines], [conditional_blocks]: the bit masks of nested
      conditions implement blocks.  [version_condition]: conditions on the version.
      [random_integer_range]: the numbers of [$RANDOM_INTEGER].
    - ClassAd operators.  [doOperation_safe]: no operation reaches an EXCEPT;
      [Evaluate_agrees]: short-circuit evaluation gives the value of full
      evaluation; [logic_laws], [comparison_laws], [shifts_spec].
    - ClassAd expressions as text.  [parser_sound], [parser_complete]: the parser implements the grammar of its
      comments, with the separators that the code lets through.  [parser_returns]: it returns on every text whose
      comments end.  [Unparse_roundtrip]: what the unparser writes is parsed to the same tree.
    - The event log.  [log_okay]: a log is accepted exactly when the events of each
      job have the right shape; [CheckAllJobs_spec], [tolerance_monotone],
      [almost_all_errors].
    - Strings.  [run_ops_refines]: the buffer implements a sequence of
      characters with no store out of bounds; [replaceString_spec],
      [tokens_join], [trim_spec].
    - Where the code departs from what its comments promise, a theorem shows
      the departure: [nondurable_failure_unnoticed],
      [LookupInTransaction_stale], [Timeout_overcounts],
      [Timeout_return_values], [list_not_sorted_past_never],
      [saved_delimiter_not_read], [CheckAllJobs_masks_error],
      [evaluators_disagree], [waiting_scripts_stuck], [fall_back_aborts],
      [missed_job_forgotten], [removed_probe_published], [GetProbe_other_class],
      [shuffle_out_of_bounds], [override_dropped], [dollar_rescanned],
      [random_integer_overflow], [two_operators], [empty_name_aborts],
      [octal_refused], [comment_unterminated], [rest_accepted], [reserved_not_quoted],
      [minus_not_separated] and the others of [ClassAdExamples].

    ** Conventions, bounds and fuel

    A C string is the list of the characters before its NUL.  Machine integers
    are [Z], reduced with [int32] or [int64] where the source can overflow.  A
    failed ASSERT, an EXCEPT and a use of a freed object abort the monad; an
    abort is not a result, and the theorems show that it does not occur.
    Loops that are not structural take fuel.  Loops over text use the length of
    the text, or one more, since each round consumes a character; [timeout_loop]
    makes at most [MAX_FIRES_PER_TIMEOUT] rounds and one more test;
    [iterate_all] takes any fuel above the number of entries.  In [Dag],
    [DFSVisit] takes one more than the number of nodes, since a visit marks one;
    [StartNode_] calls itself through a script that fails at once and a retry, at
    most as often as [start_fuel], the retries left to it and to the final node; [submit_loop],
    [discard_loop] and [run_all_loop] take an item from a queue in each round;
    [write_loop] makes as many attempts as the [World] has rounds, and the theorems ask for
    a success among the first three.  [matchFields] takes one
    level for each field and one for each year; twelve are enough, since every day
    that exists comes within eight years; [dow_loop] makes at most six rounds,
    one for each week that meets a month.  The sizes and indices of ring buffers and lists are
    numbers without a bound, as in the source below 2^30.
    [delete_loop] of a list takes one more than its items, and the scans of a
    [StringList] one more than its length.  [self_loop] and [expand_loop] may run for
    ever, so their fuel is an argument: the theorems give the number of rounds by
    the number of replacements; [dollar_loop] takes the length of the text.  A stack of
    conditions has 63 levels, and uses of meta knobs nest 20 deep, as in the source.
    The functions of the ClassAd parser take one fuel for their nesting and their loops: more than the
    number of tokens for a text of the grammar, and twice the size of any text.
    In each case the
    theorem that uses the loop shows that the result is reached within that
    fuel.

    ** Not modelled

    Debug output; allocation failures; the Windows build of [Env]; the copy
    functions of [HashTable]; the [formatstr] family and the file reader of
    [MyString]; the backup files that a failed commit leaves; the historical
    copies of a rotated log, and the ways in which creating or renaming the new
    file can fail, which are one Boolean of [TruncLog]; the flattening of
    expressions and the significant tree of the ClassAd evaluator; in DAGMan
    splices, no-op and Stork nodes, the look-up of the node of an event in the table of
    Condor IDs and the ID of a skipped node, the reading of log
    files, [condor_submit] (an argument), VARS, the rescue, status and metrics files; its
    recovery mode is executable but the theorems are about normal runs.
    Of the statistics: moving averages, histograms, [Probe], and the text of the
    publications, which is an argument; of the linked list its copies; of the
    configuration: the reading of files ([Read_config]), the iterator over the
    macros, the typed getters ([param_integer] and the like), [source.meta_id], and the
    expansion of [$$] references, which submit uses.
    Of the ClassAd library: the text of times, which is an argument of the parser and the unparser, sources other
    than strings, the unparser of old ClassAds, of XML and of PrettyPrint, and the functions of the language.
    Of the schedd only the entries of the table of cron jobs and the calculation for one
    job are modelled, not the loop over the table, in which removals can make the iteration
    pass over entries ([remove_head_of_first_chain_skips]); [holdJob] is
    recorded as a call.  The other daemons, sockets, security, file transfer and the command-line
    tools are input and output around these libraries.

    ** What could follow

    Reading of configuration files over [ConfigParse] and the typed getters over
    [MacroExpand]; moving averages over the clock of [Stats]; the recovery
    mode of DAGMan; the functions of the ClassAd language; the resource states of the
    startd. *)
From stdpp Require Import base list strings gmap.
From Stdlib Require Import ZArith Lia Ascii.

(** ** C strings

    A [char const *] is the list of the characters that precede its
    terminating NUL; a pointer that may be NULL is an [option]. *)
Abbreviation cstr := (list ascii).

(** [L s] is the C string that the literal [s] denotes. *)
Definition L (s : string) : cstr := String.list_ascii_of_string s.
Arguments L s%_string.

Declare Scope condor_scope.
Delimit Scope condor_scope with condor.
Open Scope condor_scope.

(** Character literals of the sources. *)
Abbreviation NUL := "000"%char.
Abbreviation TAB := "009"%char.
Abbreviation NL := "010"%char.
Abbreviation CR := "013"%char.
Abbreviation SP := " "%char.
Abbreviation SQ := "'"%char.
Abbreviation DQ := "034"%char.
Abbreviation BS := "\"%char.
Infix "=c" := Ascii.eqb (at level 70, no associativity) : condor_scope.

(** [isspace] of the C locale. *)
Definition isspace (c : ascii) : bool :=
  (c =c SP) || (c =c TAB) || (c =c NL) || (c =c "011"%char) ||
  (c =c "012"%char) || (c =c CR).

(** The four characters the argument and environment parsers treat as white
    space. *)
Definition is_ws (c : ascii) : bool :=
  (c =c SP) || (c =c TAB) || (c =c NL) || (c =c CR).

(** ** Outcomes *)

(** A function returns, leaves the process with EXCEPT, or is still running when the fuel is
    used up. *)
Inductive outcome (A : Type) := Ok (a : A) | Excepted | Running.
Arguments Ok {A} a.
Arguments Excepted {A}.
Arguments Running {A}.
#[export] Instance outcome_bind : MBind outcome :=
  fun A B f m => match m with Ok a => f a | Excepted => Excepted | Running => Running end.
Definition or_except {A} (o : option A) : outcome A := match o with Some a => Ok a | None => Excepted end.

(** ** Decimal numbers *)

Definition digit_char (d : Z) : ascii := ascii_of_nat (Z.to_nat (48 + d)%Z).
Definition is_digit (c : ascii) : bool :=
  (48 <=? nat_of_ascii c)%nat && (nat_of_ascii c <=? 57)%nat.
Definition digit_val (c : ascii) : Z := (Z.of_nat (nat_of_ascii c) - 48)%Z.

(** The digits of [n], least significant last; [fuel] bounds their number. *)
Fixpoint decimal_loop (fuel : nat) (n : Z) : cstr :=
  match fuel with
  | O => []
  | S fuel => if (n <? 10)%Z then [digit_char n]
              else decimal_loop fuel (n / 10)%Z ++ [digit_char (n mod 10)%Z]
  end.
(** [%d] and [%lu] of a non-negative number below [10^20]. *)
Definition decimal (n : Z) : cstr := decimal_loop 20 n.
(** [%d] of an [int]. *)
Definition int_text (n : Z) : cstr :=
  if (n <? 0)%Z then "-"%char :: decimal (- n) else decimal n.

(** *** Reading a number *)

Open Scope Z_scope.
Definition digits_value (s : cstr) : Z := foldl (fun n c => 10 * n + digit_val c) 0 s.
Fixpoint take_digits (s : cstr) : cstr :=
  match s with
  | c :: s => if is_digit c then c :: take_digits s else []
  | [] => []
  end.

(** The integer at the start of [s] with an optional sign, as [sscanf] and
    [operator>>] read it. *)
Definition parse_int (s : cstr) : option (Z * cstr) :=
  let '(neg, s) := match s with
                   | c :: s' => if c =c "-"%char then (true, s')
                                else if c =c "+"%char then (false, s') else (false, s)
                   | [] => (false, []) end in
  match take_digits s with
  | [] => None
  | d => Some ((if neg : bool then - digits_value d else digits_value d), drop (length d) s)
  end.

Close Scope Z_scope.

(** Skip the characters that satisfy [f], as in [while (isspace( *p )) p++]. *)
Fixpoint skip_while (f : ascii → bool) (s : cstr) : cstr :=
  match s with
  | c :: s' => if f c then skip_while f s' else s
  | [] => []
  end.

(** [strchr(s, c) != NULL] for a non-NUL [c]. *)
Definition has_char (c : ascii) (s : cstr) : bool := existsb (fun d => d =c c) s.

(** [strcspn(s, reject)]: length of the longest prefix free of [reject]. *)
Fixpoint strcspn (s reject : cstr) : nat :=
  match s with
  | [] => 0
  | c :: s' => if has_char c reject then 0 else S (strcspn s' reject)
  end.

(** [strncmp(s, p, strlen(p)) == 0]: [p] is a prefix of [s]. *)
Fixpoint has_prefix (p s : cstr) : bool :=
  match p, s with
  | [], _ => true
  | c :: p', d :: s' => (c =c d) && has_prefix p' s'
  | _ :: _, [] => false
  end.

(** [isalpha] and [isalnum] of the C locale. *)
Definition is_alpha (c : ascii) : bool :=
  let n := nat_of_ascii c in ((97 <=? n) && (n <=? 122) || (65 <=? n) && (n <=? 90))%nat.
Definition isalnum (c : ascii) : bool := is_alpha c || is_digit c.

(** The sign of [strcmp] and [strcasecmp]. *)
Definition tolower (c : ascii) : ascii :=
  let n := nat_of_ascii c in if (65 <=? n)%nat && (n <=? 90)%nat then ascii_of_nat (n + 32) else c.
Fixpoint strcmp (a b : cstr) : comparison :=
  match a, b with
  | [], [] => Eq
  | [], _ :: _ => Lt
  | _ :: _, [] => Gt
  | c :: a, d :: b =>
      match (nat_of_ascii c ?= nat_of_ascii d)%nat with Eq => strcmp a b | o => o end
  end.
Definition strcasecmp (a b : cstr) : comparison := strcmp (tolower <$> a) (tolower <$> b).
(** [strcasecmp(a, b) == 0]. *)
Definition strcasecmp_eq (a b : cstr) : bool := bool_decide (tolower <$> a = tolower <$> b).

(** ** Machine integers *)

(** A value of C's [int], [long long] and [unsigned int]: the result of an
    operation reduced to its width in two's complement. *)
Definition wrap (w : Z) (z : Z) : Z := ((z + 2 ^ (w - 1)) `mod` 2 ^ w - 2 ^ (w - 1))%Z.
Definition int32 (z : Z) : Z := wrap 32 z.
Definition int64 (z : Z) : Z := wrap 64 z.
Definition uint32 (z : Z) : Z := (z `mod` 2 ^ 32)%Z.
Definition in_int32 (z : Z) : Prop := (- 2 ^ 31 ≤ z < 2 ^ 31)%Z.
Definition in_int64 (z : Z) : Prop := (- 2 ^ 63 ≤ z < 2 ^ 63)%Z.

Lemma int32_id z : in_int32 z → int32 z = z.
Proof. unfold in_int32, int32, wrap. intros. rewrite Z.mod_small; lia. Qed.

Lemma int32_range z : in_int32 (int32 z).
Proof.
  unfold in_int32, int32, wrap.
  pose proof (Z.mod_pos_bound (z + 2 ^ (32 - 1)) (2 ^ 32)). lia.
Qed.

Lemma int64_id z : in_int64 z → int64 z = z.
Proof. unfold in_int64, int64, wrap. intros. rewrite Z.mod_small; lia. Qed.

Lemma int64_range z : in_int64 (int64 z).
Proof.
  unfold in_int64, int64, wrap.
  pose proof (Z.mod_pos_bound (z + 2 ^ (64 - 1)) (2 ^ 64)). lia.
Qed.

Lemma uint32_range z : (0 ≤ uint32 z < 2 ^ 32)%Z.
Proof. unfold uint32. apply Z.mod_pos_bound. lia. Qed.

(** ** Stateful code that may abort

    A computation on a state [S] that returns an [A], or [None] when the process
    stops (a failed ASSERT, an EXCEPT, a dereference of an invalid pointer). *)
Definition M (S A : Type) : Type := S → option (A * S).

Definition ret {S A} (a : A) : M S A := fun s => Some (a, s).
Definition bind {S A B} (m : M S A) (k : A → M S B) : M S B :=
  fun s => match m s with Some (a, s') => k a s' | None => None end.
Definition get {S} : M S S := fun s => Some (s, s).
Definition modify {S} (f : S → S) : M S unit := fun s => Some (tt, f s).
Definition abort {S A} : M S A := fun _ => None.
Definition of_option {S A} (o : option A) : M S A :=
  fun s => match o with Some a => Some (a, s) | None => None end.

Notation "'let!' x := m 'in' k" := (bind m (fun x => k))
  (at level 200, x pattern, m at level 100, k at level 200, right associativity) : condor_scope.
Notation "'do!' m 'in' k" := (bind m (fun _ => k))
  (at level 200, m at level 100, k at level 200, right associativity) : condor_scope.

(** [m] does not abort from [s], and its result and final state satisfy [Q]. *)
Definition wp {S A} (m : M S A) (s : S) (Q : A → S → Prop) : Prop :=
  match m s with Some (a, s') => Q a s' | None => False end.

Lemma wp_ret {S A} (a : A) (s : S) Q : Q a s → wp (ret a) s Q.
Proof. done. Qed.
Lemma wp_bind {S A B} (m : M S A) (k : A → M S B) s Q :
  wp m s (fun a s' => wp (k a) s' Q) → wp (bind m k) s Q.
Proof. unfold wp, bind. by destruct (m s) as [[??]|]. Qed.
Lemma wp_get {S} (s : S) Q : Q s s → wp get s Q.
Proof. done. Qed.
Lemma wp_modify {S} f (s : S) Q : Q tt (f s) → wp (modify f) s Q.
Proof. done. Qed.
Lemma wp_of_option {S A} (o : option A) a (s : S) Q : o = Some a → Q a s → wp (of_option o) s Q.
Proof. by intros ->. Qed.
Lemma wp_mono {S A} (m : M S A) s (Q R : A → S → Prop) :
  wp m s Q → (∀ a s', Q a s' → R a s') → wp m s R.
Proof. unfold wp. destruct (m s) as [[??]|]; auto. Qed.
Lemma wp_inv {S A} (m : M S A) s Q : wp m s Q → ∃ a s', m s = Some (a, s') ∧ Q a s'.
Proof. unfold wp. destruct (m s) as [[a s']|]; [eauto|done]. Qed.
Lemma wp_intro {S A} (m : M S A) s Q a s' : m s = Some (a, s') → Q a s' → wp m s Q.
Proof. unfold wp. by intros ->. Qed.

(** ** Records with updates

    [r <| field := v |>] and [r <| field ::= f |>] for the records that have an
    [Updatable] instance: [copy_fields] copies a record field by field, and a
    [FieldUpdate] abstracts that copy over one projection. *)
Class Updatable (R : Type) := copy_fields : R → R.
Class FieldUpdate {R T : Type} (proj : R → T) := field_update : (T → T) → R → R.
Arguments field_update {R T} proj {_} f r.
Ltac derive_update :=
  lazymatch goal with
  | |- @FieldUpdate ?R ?T ?proj =>
      let c := constr:(_ : Updatable R) in
      let c := eval hnf in c in
      let g := eval pattern proj in c in
      lazymatch g with ?g _ => exact (fun f => g (fun r => f (proj r))) end
  end.
#[export] Hint Extern 0 (FieldUpdate _) => derive_update : typeclass_instances.
Notation "r <| proj ::= f |>" := (field_update proj f r)
  (at level 12, proj at next level, f at level 99, left associativity) : condor_scope.
Notation "r <| proj := v |>" := (field_update proj (fun _ => v) r)
  (at level 12, proj at next level, v at level 99, left associativity) : condor_scope.

(** ** Tactics *)

(** Symbolic execution of a computation. *)
Ltac wp_step :=
  lazymatch goal with
  | |- wp (bind _ _) _ _ => apply wp_bind
  | |- wp (ret _) _ _ => apply wp_ret
  | |- wp get _ _ => apply wp_get
  | |- wp (modify _) _ _ => apply wp_modify
  | |- wp (of_option _) _ _ => eapply wp_of_option; [eassumption|]
  end; cbv beta.
Ltac wp_steps := repeat wp_step.

Create HintDb condor.
Create Rewrite HintDb condor.

(** Case analysis on the character tests of the goal, then of the
    hypotheses. *)
Ltac char_case_goal :=
  match goal with
  | |- context [Ascii.eqb ?x ?y] => destruct (Ascii.eqb_spec x y)
  end.
Ltac char_case_hyp :=
  match goal with
  | H : context [Ascii.eqb ?x ?y] |- _ => destruct (Ascii.eqb_spec x y)
  end.
Ltac char_cases := repeat (char_case_goal; simplify_eq; cbn); try done.

(** Split the conjunctions and the [if]s on booleans of a hypothesis. *)
Ltac split_bools :=
  repeat match goal with
  | H : _ && _ = true |- _ => apply andb_true_iff in H as [??]
  | H : _ || _ = false |- _ => apply orb_false_iff in H as [??]
  | H : negb _ = true |- _ => apply negb_true_iff in H
  | H : negb _ = false |- _ => apply negb_false_iff in H
  end.

(** ** Lists *)

Lemma skip_while_app_all f (s t : cstr) :
  forallb f s = true → skip_while f (s ++ t) = skip_while f t.
Proof. induction s; simpl; [done|]. intros; split_bools. rewrite H. auto. Qed.

Lemma skip_while_all f (s : cstr) : forallb f s = true → skip_while f s = [].
Proof. induction s; simpl; [done|]. intros; split_bools. rewrite H. auto. Qed.

Lemma skip_while_head f c (s : cstr) :
  f c = false → skip_while f (c :: s) = c :: s.
Proof. simpl. by intros ->. Qed.

Lemma skip_while_decomp f (s : cstr) :
  ∃ p, s = p ++ skip_while f s ∧ forallb f p = true.
Proof.
  induction s as [|c s (p & Hs & Hp)]; [by exists []|]; simpl.
  destruct (f c) eqn:Hc; [|by exists []].
  exists (c :: p). simpl. rewrite <- Hs, Hc. done.
Qed.

Lemma skip_while_not f (s : cstr) c t : skip_while f s = c :: t → f c = false.
Proof.
  induction s as [|d s IH]; simpl; [done|]. destruct (f d) eqn:E; [done|].
  by intros [= -> ->].
Qed.

Lemma forallb_Forall {A} (f : A → bool) l :
  forallb f l = true ↔ Forall (fun x => f x = true) l.
Proof. rewrite forallb_forall, List.Forall_forall. done. Qed.

Lemma strcspn_ge (s r : cstr) :
  length s ≤ strcspn s r ↔ forallb (fun c => negb (has_char c r)) s = true.
Proof.
  induction s as [|c s IH]; simpl; [split; [done|lia]|].
  destruct (has_char c r); simpl; [split; [lia|done]|]. rewrite <- IH. lia.
Qed.

Lemma strcspn_le (s r : cstr) : strcspn s r ≤ length s.
Proof. induction s; simpl; [lia|]. destruct (has_char a r); lia. Qed.

Lemma take_length_sub_one {A} (l : list A) x : take (length (l ++ [x]) - 1) (l ++ [x]) = l.
Proof. rewrite length_app. simpl. rewrite Nat.add_sub. apply take_app_length. Qed.

(** ** Comparison of strings *)

Lemma strcmp_antisym a : ∀ b, strcmp b a = CompOpp (strcmp a b).
Proof.
  induction a as [|c a IH]; intros [|d b]; [done..|]. simpl. rewrite Nat.compare_antisym.
  destruct (nat_of_ascii c ?= nat_of_ascii d)%nat; simpl; [apply IH|done|done].
Qed.
Lemma strcmp_eq a : ∀ b, strcmp a b = Eq ↔ a = b.
Proof.
  induction a as [|c a IH]; intros [|d b]; cbn; try done.
  destruct (Nat.compare_spec (nat_of_ascii c) (nat_of_ascii d)) as [E| |]; [|split; [done|intros [= -> ->]; lia]..].
  apply (f_equal ascii_of_nat) in E. rewrite !ascii_nat_embedding in E. subst. rewrite IH. split; [by intros ->|by intros [= ->]].
Qed.
Lemma strcasecmp_eq_iff a b : strcasecmp_eq a b = true ↔ strcasecmp a b = Eq.
Proof. unfold strcasecmp_eq, strcasecmp. by rewrite bool_decide_eq_true, strcmp_eq. Qed.
Lemma strcasecmp_eq_sym a b : strcasecmp_eq a b = strcasecmp_eq b a.
Proof. unfold strcasecmp_eq. by apply bool_decide_ext. Qed.
Lemma strcasecmp_eq_trans a b c :
  strcasecmp_eq a b = true → strcasecmp_eq a c = strcasecmp_eq b c.
Proof. unfold strcasecmp_eq. intros E%bool_decide_eq_true. by rewrite E. Qed.

(** ** Numbers as text *)

Open Scope Z_scope.
Lemma digit_char_ok d : 0 ≤ d < 10 → is_digit (digit_char d) = true ∧ digit_val (digit_char d) = d.
Proof.
  intros Hd. assert (d ∈ seqZ 0 10) as Hin by (apply elem_of_seqZ; lia).
  revert Hin. vm_compute (seqZ 0 10).
  repeat (intros [->|Hin]%elem_of_cons; [done|revert Hin]). by intros ?%elem_of_nil.
Qed.

Lemma digits_value_snoc s c : digits_value (s ++ [c]) = 10 * digits_value s + digit_val c.
Proof. unfold digits_value. by rewrite foldl_app. Qed.

Lemma decimal_loop_ok fuel : ∀ n, 0 ≤ n < 10 ^ Z.of_nat fuel →
  digits_value (decimal_loop fuel n) = n ∧ forallb is_digit (decimal_loop fuel n) = true ∧
  (fuel ≠ O → decimal_loop fuel n ≠ []).
Proof.
  induction fuel as [|fuel IH]; intros n Hn; cbn [decimal_loop].
  { simpl in Hn. assert (n = 0) as -> by lia. done. }
  destruct (Z.ltb_spec n 10) as [Hlt|Hge].
  { destruct (digit_char_ok n) as [H1 H2]; [lia|]. split_and!; [|by simpl; rewrite H1|done].
    unfold digits_value. simpl foldl. lia. }
  rewrite Nat2Z.inj_succ, Z.pow_succ_r in Hn by lia.
  destruct (IH (n / 10)) as (E1 & E2 & _).
  { split; [apply Z.div_pos; lia|apply Z.div_lt_upper_bound; lia]. }
  pose proof (Z.mod_pos_bound n 10 ltac:(lia)) as Hm.
  destruct (digit_char_ok (n mod 10) Hm) as [H1 H2]. split_and!.
  - rewrite digits_value_snoc, E1, H2. pose proof (Z.div_mod n 10 ltac:(lia)). lia.
  - rewrite forallb_app, E2. simpl. by rewrite H1.
  - intros _. by destruct (decimal_loop fuel (n / 10)).
Qed.

Lemma take_digits_all s t :
  forallb is_digit s = true → (∀ c, head t = Some c → is_digit c = false) →
  take_digits (s ++ t) = s.
Proof.
  induction s as [|c s IH]; simpl; intros Hs Ht.
  - destruct t as [|c t]; [done|]. simpl. by rewrite (Ht c eq_refl).
  - split_bools. rewrite H. f_equal. auto.
Qed.

Lemma is_digit_plain c : is_digit c = true →
  isspace c = false ∧ (c =c NUL) = false ∧ (c =c "-"%char) = false ∧ (c =c "+"%char) = false.
Proof. by destruct c as [[] [] [] [] [] [] [] []]. Qed.

Lemma parse_int_decimal n t :
  0 ≤ n < 10 ^ 20 → (∀ c, head t = Some c → is_digit c = false) →
  parse_int (decimal n ++ t) = Some (n, t).
Proof.
  intros Hn Ht. destruct (decimal_loop_ok 20 n Hn) as (E1 & E2 & E3).
  specialize (E3 ltac:(done)). fold (decimal n) in *. unfold parse_int.
  destruct (decimal n) as [|c s] eqn:E; [done|]. simpl app.
  pose proof E2 as E2'. simpl in E2'. split_bools. destruct (is_digit_plain c) as (_ & _ & -> & ->); [done|].
  change (c :: s ++ t) with ((c :: s) ++ t). rewrite take_digits_all by done.
  rewrite E1. f_equal. f_equal. apply drop_app_length.
Qed.
Close Scope Z_scope.

#[export] Hint Rewrite @take_length_sub_one @last_snoc @app_nil_r : condor.
#[export] Hint Resolve int32_range int64_range uint32_range : condor.
