(* ===== verification/MyString.v ===== *)
(** * MyString

    The string class of [condor_utils/MyString.cpp].  The first part models
    the buffer itself (the pointer [Data], the length [Len], the [capacity]),
    with every store bounds-checked, so that a store outside the allocation is
    the value [None]; its theorems show that no operation ever produces it and
    that the buffer implements a sequence of characters.  The second part
    models the operations that only read the string, on that sequence. *)
From stdpp Require Import base list strings gmap.
From Stdlib Require Import ZArith Lia Ascii.
From S2P Require Import Prelude.

Open Scope Z_scope.

(** ** The buffer *)

Module Buf.

(** [Data] is the allocation, of [capacity + 1] bytes, or NULL. *)
Record MyString := mkMyString {
  Data : option (list ascii);
  Len : Z;
  capacity : Z;
}.

Definition init : MyString := mkMyString None 0 0.

(** A store of [bs] at offset [pos] of an allocation. *)
Definition store (mem : list ascii) (pos : Z) (bs : list ascii) : option (list ascii) :=
  if (0 <=? pos) && (pos + Z.of_nat (length bs) <=? Z.of_nat (length mem))
  then Some (take (Z.to_nat pos) mem ++ bs
             ++ drop (Z.to_nat pos + length bs) mem)
  else None.

(** The C string an allocation holds. *)
Fixpoint strz (mem : list ascii) : cstr :=
  match mem with
  | c :: m => if c =c NUL then [] else c :: strz m
  | [] => []
  end.

(** [strcpy(mem + pos, s)] and [strncpy(mem, s, n)]: the latter pads with NUL
    up to [n] characters. *)
Definition strcpy (mem : list ascii) (pos : Z) (s : cstr) : option (list ascii) :=
  store mem pos (s ++ [NUL]).
Definition strncpy (mem : list ascii) (s : cstr) (n : Z) : option (list ascii) :=
  store mem 0 (take (Z.to_nat n) (s ++ replicate (Z.to_nat n - length s) NUL)).

Section Ops.
(** What a fresh [new char[n]] holds is not specified; [n] has wrapped around, and a
    negative one gives no memory. *)
Variable junk : ascii.

Definition new_char (n : Z) : list ascii := replicate (Z.to_nat n) junk.

Definition reserve (m : MyString) (sz : Z) : option (bool * MyString) :=
  if sz <? 0 then Some (false, m) else
  let buf := new_char (int32 (sz + 1)) in
  buf ← store buf 0 [NUL];
  match Data m with
  | Some d =>
      let newlen := Z.min sz (Len m) in
      buf ← strncpy buf (strz d) newlen;
      buf ← store buf newlen [NUL];
      Some (true, mkMyString (Some buf) newlen sz)
  | None => Some (true, mkMyString (Some buf) (Len m) sz)
  end.

Definition reserve_at_least (m : MyString) (sz : Z) : option (bool * MyString) :=
  let twice_as_much := int32 (2 * capacity m) in
  if twice_as_much >? sz then
    '(success, m) ← reserve m twice_as_much;
    if (success : bool) then Some (true, m) else reserve m sz
  else reserve m sz.

Definition assign_str (m : MyString) (s : cstr) (s_len : Z) : option MyString :=
  if s_len <? 1 then
    match Data m with
    | Some d => d ← store d 0 [NUL]; Some (mkMyString (Some d) 0 (capacity m))
    | None => Some m
    end
  else
    let '(d, cap) :=
      if s_len >? capacity m then (Some (new_char (int32 (s_len + 1))), s_len)
      else (Data m, capacity m) in
    d ← d;
    d ← strcpy d 0 s;
    Some (mkMyString (Some d) s_len cap).

(** The string to append: one that is not part of the buffer, or [Data] itself,
    which is copied first. *)
Inductive source := Text (s : cstr) | Own.
Definition append_str (m : MyString) (s : source) (s_len : Z) : option MyString :=
  s ← match s with
      | Text s => Some s
      | Own => d ← Data m; pCopy ← strcpy (new_char (int32 (s_len + 1))) 0 (strz d); Some (strz pCopy)
      end;
  '(_, m) ← (if (s_len + Len m >? capacity m) || bool_decide (Data m = None)
             then reserve_at_least m (int32 (Len m + s_len)) else Some (true, m));
  d ← Data m;
  d ← strcpy d (Len m) s;
  Some (mkMyString (Some d) (Len m + s_len) (capacity m)).

(** [operator=( const char *s )]; [None] is a NULL pointer.  [strlen] is converted to
    an [int]. *)
Definition assign_cstr (m : MyString) (s : option cstr) : option MyString :=
  match s with
  | Some s => assign_str m s (int32 (Z.of_nat (length s)))
  | None => assign_str m [] 0
  end.

(** [operator+=(const char *s)] *)
Definition append_cstr (m : MyString) (s : option cstr) : option MyString :=
  match s with
  | None | Some [] => Some m
  | Some s => append_str m (Text s) (int32 (Z.of_nat (length s)))
  end.

(** [operator+=(const MyString& S)]; [None] is the string itself.  [Value] of a string
    without a buffer is not its [Data]. *)
Definition append_MyString (m : MyString) (other : option MyString) : option MyString :=
  match other with
  | Some m' => append_str m (Text (match Data m' with Some d => strz d | None => [] end)) (Len m')
  | None => append_str m (match Data m with Some _ => Own | None => Text [] end) (Len m)
  end.

(** [operator+=(const char c)] *)
Definition append_char (m : MyString) (c : ascii) : option MyString :=
  '(_, m) ← (if (Len m + 1 >? capacity m) || bool_decide (Data m = None)
             then reserve_at_least m (int32 (Len m + 1)) else Some (true, m));
  d ← Data m;
  d ← store d (Len m) [c];
  d ← store d (Len m + 1) [NUL];
  Some (mkMyString (Some d) (Len m + 1) (capacity m)).

Definition setChar (m : MyString) (pos : Z) (value : ascii) : option MyString :=
  if (0 <=? pos) && (pos <? Len m) then
    d ← Data m;
    d ← store d pos [value];
    Some (mkMyString (Some d) (if value =c NUL then pos else Len m) (capacity m))
  else Some m.

(** [operator[]]: out of range reads give NUL. *)
Definition getChar (m : MyString) (pos : Z) : option ascii :=
  if (pos >=? Len m) || (pos <? 0) then Some NUL
  else d ← Data m; d !! Z.to_nat pos.

(** [Value()] *)
Definition Value (m : MyString) : cstr :=
  match Data m with Some d => strz d | None => [] end.

End Ops.

(** *** The invariant *)

(** The representation invariant: the allocation has [capacity + 1] bytes and
    starts with the [Len] non-NUL characters of the string and a NUL. *)
Definition wf (m : MyString) : Prop :=
  match Data m with
  | None => Len m = 0 ∧ capacity m = 0
  | Some d => ∃ s rest,
      d = s ++ NUL :: rest ∧ NUL ∉ s ∧
      Len m = Z.of_nat (length s) ∧
      Z.of_nat (length d) = capacity m + 1
  end.

Lemma strz_split s rest : NUL ∉ s → strz (s ++ NUL :: rest) = s.
Proof.
  induction s as [|c s IH]; simpl; [done|]. intros Hn.
  destruct (Ascii.eqb_spec c NUL); [set_solver|]. rewrite IH; set_solver.
Qed.

Lemma wf_Value m : wf m → Len m = Z.of_nat (length (Value m)) ∧ NUL ∉ Value m.
Proof.
  unfold wf, Value. destruct (Data m) as [d|]; [|simpl; set_solver].
  intros (s & rest & -> & Hn & -> & _). by rewrite strz_split.
Qed.

(** A string over a fresh or an old allocation. *)
Lemma wf_intro s rest cap :
  NUL ∉ s → Z.of_nat (length (s ++ NUL :: rest)) = cap + 1 →
  wf (mkMyString (Some (s ++ NUL :: rest)) (Z.of_nat (length s)) cap).
Proof. intros. unfold wf; simpl. eauto 10. Qed.

Lemma Value_intro s rest l cap :
  NUL ∉ s → Value (mkMyString (Some (s ++ NUL :: rest)) l cap) = s.
Proof. apply strz_split. Qed.

Lemma store_ok mem pos bs :
  0 ≤ pos → pos + Z.of_nat (length bs) ≤ Z.of_nat (length mem) →
  store mem pos bs =
    Some (take (Z.to_nat pos) mem ++ bs ++ drop (Z.to_nat pos + length bs) mem).
Proof. intros. unfold store. by rewrite !(proj2 (Z.leb_le _ _)). Qed.

(** A store that starts where a known prefix ends. *)
Lemma store_prefix s t bs :
  (length bs ≤ length t)%nat →
  store (s ++ t) (Z.of_nat (length s)) bs = Some (s ++ bs ++ drop (length bs) t).
Proof.
  intros. rewrite store_ok; rewrite ?length_app, ?Nat2Z.id; [|lia..].
  by rewrite take_app_length, drop_app_add'.
Qed.

(** A store at the start of an allocation. *)
Lemma store_start mem bs :
  (length bs ≤ length mem)%nat → store mem 0 bs = Some (bs ++ drop (length bs) mem).
Proof. intros. exact (store_prefix [] mem bs H). Qed.

Section Proofs.
Variable junk : ascii.
Local Abbreviation reserve := (reserve junk).
Local Abbreviation reserve_at_least := (reserve_at_least junk).
Local Abbreviation append_str := (append_str junk).
Local Abbreviation append_char := (append_char junk).
Local Abbreviation assign_str := (assign_str junk).

Lemma length_new_char n : length (new_char junk n) = Z.to_nat n.
Proof. apply length_replicate. Qed.

Lemma NUL_take n s : NUL ∉ s → NUL ∉ take n s.
Proof. rewrite <- (take_drop n s) at 1. set_solver. Qed.

Lemma NUL_drop n s : NUL ∉ s → NUL ∉ drop n s.
Proof. rewrite <- (take_drop n s) at 1. set_solver. Qed.

(** The buffer [reserve] builds for a string [s] shortened to [n] characters. *)
Lemma strncpy_take buf s n :
  (n ≤ length s)%nat → (n < length buf)%nat →
  ∃ rest, strncpy buf s (Z.of_nat n) = Some (take n s ++ rest) ∧
          length rest = (length buf - n)%nat.
Proof.
  intros Hn Hb. unfold strncpy. rewrite Nat2Z.id.
  rewrite take_app_le by lia.
  exists (drop n buf). rewrite length_drop. split; [|done].
  rewrite store_start by (rewrite length_take; lia).
  by rewrite length_take, Nat.min_l by lia.
Qed.

Lemma reserve_spec m sz :
  wf m → 0 ≤ sz < 2 ^ 31 - 1 →
  ∃ m', reserve m sz = Some (true, m') ∧ wf m' ∧ Data m' ≠ None ∧
        Value m' = take (Z.to_nat sz) (Value m) ∧ capacity m' = sz.
Proof.
  intros Hwf Hsz. unfold reserve, Buf.reserve.
  destruct (Z.ltb_spec sz 0); [lia|]. rewrite (int32_id (sz + 1)) by (unfold in_int32; lia).
  rewrite store_start by (rewrite length_new_char; simpl; lia).
  assert (Hl : Z.of_nat (length (NUL :: drop 1 (new_char junk (sz + 1)))) = sz + 1).
  { simpl. rewrite length_drop, length_new_char. lia. }
  revert Hl. simpl app. generalize (drop 1 (new_char junk (sz + 1))). intros fresh Hl.
  change (length [NUL]) with 1%nat. cbn [mbind option_bind].
  unfold wf in Hwf. unfold Value at 2. destruct (Data m) as [d|] eqn:E.
  - destruct Hwf as (s & rest & -> & Hn & Hlen & Hcap).
    rewrite strz_split by done.
    set (n := Z.to_nat (Z.min sz (Len m))).
    assert (Z.min sz (Len m) = Z.of_nat n) as -> by (unfold n; lia).
    assert (n ≤ length s)%nat by (unfold n; lia).
    destruct (strncpy_take (NUL :: fresh) s n) as (tl & -> & Htl); [lia..|].
    destruct tl as [|c tl]; [simpl in *; lia|].
    cbn [mbind option_bind].
    assert (length (take n s) = n) as Htn by (rewrite length_take; lia).
    pose proof (store_prefix (take n s) (c :: tl) [NUL]) as Hst.
    rewrite Htn in Hst. rewrite Hst by (simpl; lia).
    cbn [mbind option_bind]. eexists; split; [done|]. simpl.
    assert (take n s = take (Z.to_nat sz) s) as Ht.
    { unfold n. destruct (Z.le_gt_cases sz (Len m)); [f_equal; lia|].
      rewrite !take_ge by lia. done. }
    split; [|split; [done|split; [|done]]].
    + pose proof (wf_intro (take n s) tl sz) as Hw. rewrite Htn in Hw.
      apply Hw; [by apply NUL_take|]. rewrite length_app, Htn. simpl in *. lia.
    + rewrite <- Ht. apply Value_intro. by apply NUL_take.
  - destruct Hwf as [Hlen Hcap]. rewrite Hlen. eexists; split; [done|].
    split; [|split; [done|split; [|done]]].
    + apply (wf_intro [] fresh sz); [set_solver|]. simpl in *. lia.
    + rewrite take_nil. apply (Value_intro []). set_solver.
Qed.

(** Whatever [2 * capacity] wraps to, [reserve_at_least] makes room for the
    request and keeps a string that fits in it. *)
Lemma reserve_at_least_spec m sz :
  wf m → Len m ≤ sz < 2 ^ 31 - 1 →
  ∃ m', reserve_at_least m sz = Some (true, m') ∧ wf m' ∧ Data m' ≠ None ∧
        Value m' = Value m ∧ sz ≤ capacity m'.
Proof.
  intros Hwf Hsz. pose proof (wf_Value m Hwf) as [HL _].
  unfold Buf.reserve_at_least. assert (int32 (2 * capacity m) < 2 ^ 31 - 1) as Heven.
  { pose proof (int32_range (2 * capacity m)) as Hr. unfold in_int32, int32, wrap in *.
    change (2 ^ (32 - 1)) with 2147483648 in *. change (2 ^ 32) with 4294967296 in *. change (2 ^ 31) with 2147483648 in *.
    pose proof (Z.div_mod (2 * capacity m + 2147483648) 4294967296 ltac:(done)) as Hd. lia. }
  set (t := int32 (2 * capacity m)) in *.
  assert (Hfit : ∀ z, sz ≤ z < 2 ^ 31 - 1 → ∃ m', reserve m z = Some (true, m') ∧ wf m' ∧
            Data m' ≠ None ∧ Value m' = Value m ∧ sz ≤ capacity m').
  { intros z Hz. destruct (reserve_spec m z) as (m' & -> & ? & ? & HV & Hc); [done|lia|].
    exists m'. rewrite HV, Hc. rewrite take_ge by lia. split_and!; [done..|lia]. }
  rewrite Z.gtb_ltb. destruct (Z.ltb_spec sz t).
  - destruct (Hfit t) as (m' & -> & Hm'); [lia|]. simpl. eauto.
  - apply Hfit. lia.
Qed.

(** The allocation once there is room for [n] more characters. *)
Lemma room m n :
  wf m → 0 ≤ n → Len m + n < 2 ^ 31 - 1 →
  ∃ m', (if (n + Len m >? capacity m) || bool_decide (Data m = None)
         then reserve_at_least m (int32 (Len m + n)) else Some (true, m)) = Some (true, m') ∧
        wf m' ∧ Data m' ≠ None ∧ Value m' = Value m ∧ Len m' + n ≤ capacity m'.
Proof.
  intros Hwf Hn Hi. pose proof (wf_Value m Hwf) as [HL0 _]. rewrite int32_id by (unfold in_int32; lia).
  destruct (_ || _) eqn:E.
  - destruct (reserve_at_least_spec m (Len m + n)) as (m' & -> & Hm' & ? & HV & ?); [done|lia|].
    exists m'. pose proof (wf_Value _ Hwf) as [? _]. pose proof (wf_Value _ Hm') as [? _].
    rewrite HV in *. repeat split; [done..|lia].
  - apply orb_false_iff in E as [E1 E2]. exists m. rewrite Z.gtb_ltb in E1.
    apply Z.ltb_ge in E1. apply bool_decide_eq_false in E2. repeat split; [done..|lia].
Qed.

(** Writing [s] and a NUL after the string, when there is room. *)
Lemma append_in_place m d s :
  wf m → Data m = Some d → NUL ∉ s → Len m + Z.of_nat (length s) ≤ capacity m →
  ∃ d', store d (Len m) (s ++ [NUL]) = Some d' ∧
        wf (mkMyString (Some d') (Len m + Z.of_nat (length s)) (capacity m)) ∧
        strz d' = Value m ++ s.
Proof.
  intros Hwf Hd Hs Hroom. unfold wf in Hwf. unfold Value. rewrite Hd in *.
  destruct Hwf as (v & rest & -> & Hv & Hlen & Hcap).
  rewrite length_app in Hcap. simpl in Hcap.
  rewrite Hlen, store_prefix by (rewrite length_app; simpl; lia).
  eexists; split; [done|]. rewrite strz_split by done.
  rewrite <- app_assoc, (app_assoc v). simpl app.
  assert (NUL ∉ v ++ s) by set_solver. split; [|by apply strz_split].
  rewrite <- Nat2Z.inj_add, <- length_app. apply wf_intro; [done|].
  rewrite length_app, length_cons, length_drop, !length_app. simpl. lia.
Qed.

Lemma append_str_spec m src s :
  wf m → NUL ∉ s → Len m + Z.of_nat (length s) < 2 ^ 31 - 1 →
  match src with Text t => t = s | Own => Data m ≠ None ∧ Value m = s end →
  ∃ m', append_str m src (Z.of_nat (length s)) = Some m' ∧ wf m' ∧
        Value m' = Value m ++ s.
Proof.
  intros Hwf Hs Hi Hsrc. unfold Buf.append_str.
  match goal with |- ∃ m', (?o ≫= _) = _ ∧ _ => assert (o = Some s) as -> end.
  { destruct src as [t|]; [by rewrite Hsrc|]. destruct Hsrc as [Hd HV]. unfold Value in HV.
    destruct (Data m) as [d|]; [|done]. cbn [mbind option_bind]. rewrite HV. unfold strcpy.
    pose proof (wf_Value m Hwf) as [HL0 _].
    rewrite int32_id by (unfold in_int32; lia).
    rewrite store_start by (rewrite length_app, length_new_char; simpl; lia).
    cbn [mbind option_bind]. rewrite <- app_assoc. simpl app. by rewrite strz_split. }
  cbn [mbind option_bind].
  destruct (room m (Z.of_nat (length s))) as (m' & -> & Hm' & Hd & HV & Hc); [done|lia|done|].
  cbn [mbind option_bind]. destruct (Data m') as [d|] eqn:E; [|done].
  destruct (append_in_place m' d s) as (d' & Hst & Hw & Hz); [done..|].
  cbn [mbind option_bind]. unfold strcpy. rewrite Hst. cbn [mbind option_bind].
  eexists; split; [done|]. split; [done|]. unfold Value at 1. simpl. by rewrite Hz, HV.
Qed.

(** Two consecutive one-byte stores are one two-byte store. *)
Lemma store_store d p c e d' :
  store d p [c; e] = Some d' →
  (d1 ← store d p [c]; store d1 (p + 1) [e]) = Some d'.
Proof.
  unfold store at 1. destruct (0 <=? p) eqn:Hp; [|done]. apply Z.leb_le in Hp.
  destruct (_ <=? _) eqn:Hb; [|done]. apply Z.leb_le in Hb. simpl in Hb. intros [= <-].
  rewrite store_ok by (simpl; lia). cbn [mbind option_bind].
  rewrite app_assoc.
  assert (p + 1 = Z.of_nat (length (take (Z.to_nat p) d ++ [c]))) as ->.
  { rewrite length_app, length_take. simpl. lia. }
  rewrite store_prefix by (rewrite length_drop; simpl; lia).
  by rewrite drop_drop, <- app_assoc, <- Nat.add_assoc.
Qed.

Lemma append_char_spec m c :
  wf m → c ≠ NUL → Len m + 1 < 2 ^ 31 - 1 →
  ∃ m', append_char m c = Some m' ∧ wf m' ∧ Value m' = Value m ++ [c].
Proof.
  intros Hwf Hc Hi. unfold Buf.append_char.
  destruct (room m 1) as (m' & Hr & Hm' & Hd & HV & Hcap); [done|lia|done|].
  replace (Len m + 1 >? capacity m) with (1 + Len m >? capacity m)
    by (by rewrite (Z.add_comm 1)).
  rewrite Hr.
  cbn [mbind option_bind]. destruct (Data m') as [d|] eqn:E; [|done].
  destruct (append_in_place m' d [c]) as (d' & Hst & Hw & Hz); [done..|set_solver|simpl; lia|].
  apply store_store in Hst. cbn [mbind option_bind].
  destruct (store d (Len m') [c]) as [d1|]; [|done]. cbn [mbind option_bind] in *.
  rewrite Hst. eexists; split; [done|]. split; [done|].
  unfold Value at 1. simpl. by rewrite Hz, HV.
Qed.

Lemma assign_str_spec m s :
  wf m → NUL ∉ s → Z.of_nat (length s) < 2 ^ 31 - 1 →
  ∃ m', assign_str m s (Z.of_nat (length s)) = Some m' ∧ wf m' ∧ Value m' = s.
Proof.
  intros Hwf Hs Hl. unfold Buf.assign_str. unfold wf in Hwf. rewrite (int32_id (_ + 1)) by (unfold in_int32; lia).
  destruct (Z.ltb_spec (Z.of_nat (length s)) 1).
  - destruct s; [|simpl in *; lia]. destruct (Data m) as [d|] eqn:E.
    + destruct Hwf as (v & rest & -> & Hv & _ & Hcap).
      rewrite store_start by (rewrite length_app; simpl; lia).
      cbn [mbind option_bind]. eexists; split; [done|].
      split; [|by apply (Value_intro [])]. apply (wf_intro []); [set_solver|].
      rewrite !length_app in *. rewrite length_cons, length_drop, length_app. simpl in *. lia.
    + exists m. unfold wf, Value. rewrite E. auto.
  - rewrite Z.gtb_ltb. set (cap := if capacity m <? Z.of_nat (length s) then _ else _).
    assert (∃ d c, cap = (Some d, c) ∧ Z.of_nat (length d) = c + 1 ∧
                   Z.of_nat (length s) ≤ c) as (d & c & -> & Hd & Hc).
    { unfold cap. destruct (Z.ltb_spec (capacity m) (Z.of_nat (length s))).
      - do 2 eexists; split; [done|]. rewrite length_new_char. lia.
      - destruct (Data m) as [d|] eqn:E; [|lia].
        destruct Hwf as (v & rest & -> & _ & _ & Hcap). eauto 10 with lia. }
    cbn [mbind option_bind]. unfold strcpy.
    rewrite store_start by (rewrite length_app; simpl; lia).
    cbn [mbind option_bind]. rewrite <- app_assoc. simpl app.
    eexists; split; [done|]. split; [|by apply Value_intro].
    apply wf_intro; [done|]. rewrite length_app, length_cons, length_drop, length_app.
    simpl. lia.
Qed.

(** A character written inside the string; a NUL truncates it there. *)
Lemma setChar_spec m pos c :
  wf m →
  ∃ m', setChar m pos c = Some m' ∧ wf m' ∧
        Value m' = if (0 <=? pos) && (pos <? Len m) then
                     if c =c NUL then take (Z.to_nat pos) (Value m)
                     else <[Z.to_nat pos := c]> (Value m)
                   else Value m.
Proof.
  intros Hwf. unfold setChar. destruct (_ && _) eqn:E; [|eauto]. split_bools.
  apply Z.leb_le in H. apply Z.ltb_lt in H0.
  assert (∃ n, pos = Z.of_nat n) as [n ->] by (exists (Z.to_nat pos); lia).
  unfold wf in Hwf. unfold Value at 2 3. destruct (Data m) as [d|]; [|lia].
  destruct Hwf as (v & rest & -> & Hv & Hlen & Hcap). rewrite strz_split by done.
  rewrite length_app in Hcap. simpl in Hcap. cbn [mbind option_bind].
  rewrite store_ok by (rewrite ?length_app; simpl; lia). rewrite Nat2Z.id.
  rewrite take_app_le, drop_app_le by (simpl; lia).
  cbn [mbind option_bind]. eexists; split; [done|]. simpl app.
  pose proof (NUL_take n v Hv) as Hv1. pose proof (NUL_drop (S n) v Hv) as Hv2.
  change (length [c]) with 1%nat. rewrite Nat.add_1_r.
  destruct (Ascii.eqb_spec c NUL) as [->|Hc].
  - split; [|by apply Value_intro].
    pose proof (wf_intro (take n v) (drop (S n) v ++ NUL :: rest) (capacity m) Hv1) as Hw.
    rewrite length_take, Nat.min_l in Hw by lia. apply Hw.
    rewrite length_app, length_cons, length_app, length_take, length_drop. simpl. lia.
  - rewrite insert_take_drop by lia.
    assert (NUL ∉ take n v ++ c :: drop (S n) v) as Hn by set_solver.
    change (c :: drop (S n) v ++ NUL :: rest) with ((c :: drop (S n) v) ++ NUL :: rest).
    rewrite app_assoc. split; [|by apply Value_intro].
    pose proof (wf_intro _ rest (capacity m) Hn) as Hw.
    rewrite !length_app, !length_cons, length_take, length_drop in Hw.
    replace (Len m) with (Z.of_nat (n `min` length v + S (length v - S n))) by lia.
    apply Hw. lia.
Qed.
End Proofs.

(** *** Any sequence of operations *)

Inductive op :=
  | op_assign (s : cstr)          (* operator=(const char * ) *)
  | op_append (s : cstr)          (* operator+=(const char * ) *)
  | op_append_self                (* operator+=(const MyString& ), with the string itself *)
  | op_append_char (c : ascii)    (* operator+=(char) *)
  | op_setChar (pos : Z) (c : ascii).

Definition run_op (junk : ascii) (m : MyString) (o : op) : option MyString :=
  match o with
  | op_assign s => assign_cstr junk m (Some s)
  | op_append s => append_cstr junk m (Some s)
  | op_append_self => append_MyString junk m None
  | op_append_char c => append_char junk m c
  | op_setChar pos c => setChar m pos c
  end.

(** What the operation does to the sequence of characters. *)
Definition spec_op (s : cstr) (o : op) : cstr :=
  match o with
  | op_assign t => t
  | op_append t => s ++ t
  | op_append_self => s ++ s
  | op_append_char c => s ++ [c]
  | op_setChar pos c =>
      if (0 <=? pos) && (pos <? Z.of_nat (length s)) then
        if c =c NUL then take (Z.to_nat pos) s else <[Z.to_nat pos := c]> s
      else s
  end.

(** The operands have no NUL, and the string and its NUL stay within an [int]. *)
Definition op_ok (s : cstr) (o : op) : Prop :=
  match o with
  | op_assign t => NUL ∉ t ∧ Z.of_nat (length t) < 2 ^ 31 - 1
  | op_append t => NUL ∉ t ∧ Z.of_nat (length (s ++ t)) < 2 ^ 31 - 1
  | op_append_self => Z.of_nat (length (s ++ s)) < 2 ^ 31 - 1
  | op_append_char c => c ≠ NUL ∧ Z.of_nat (length (s ++ [c])) < 2 ^ 31 - 1
  | op_setChar _ _ => True
  end.

Fixpoint ops_ok (s : cstr) (os : list op) : Prop :=
  match os with
  | [] => True
  | o :: os => op_ok s o ∧ ops_ok (spec_op s o) os
  end.

Definition run_ops (junk : ascii) (m : MyString) (os : list op) : option MyString :=
  foldl (fun acc o => m ← acc; run_op junk m o) (Some m) os.

Lemma run_op_spec junk m o :
  wf m → op_ok (Value m) o →
  ∃ m', run_op junk m o = Some m' ∧ wf m' ∧ Value m' = spec_op (Value m) o.
Proof.
  intros Hwf Hok. pose proof (wf_Value m Hwf) as [HL _].
  destruct o as [t|t| |c|pos c]; simpl in *; rewrite ?length_app, ?Nat2Z.inj_add in Hok.
  - destruct Hok as [Ht Hi]. rewrite int32_id by (unfold in_int32; lia). by apply assign_str_spec.
  - destruct Hok as [Ht Hi]. destruct t as [|c t]; [rewrite app_nil_r; eauto|].
    rewrite int32_id by (unfold in_int32; lia). apply append_str_spec; [done|done|lia|done].
  - unfold append_MyString. pose proof (wf_Value m Hwf) as [_ HN]. rewrite HL.
    apply append_str_spec; [done..|lia|]. unfold Value. by destruct (Data m).
  - destruct Hok as [Ht Hi]. simpl in Hi. apply append_char_spec; [done..|lia].
  - destruct (setChar_spec m pos c Hwf) as (m' & ? & ? & ?). rewrite <- HL. eauto.
Qed.

Lemma run_ops_from junk os : ∀ m,
  wf m → ops_ok (Value m) os →
  ∃ m', run_ops junk m os = Some m' ∧ wf m' ∧ Value m' = foldl spec_op (Value m) os.
Proof.
  induction os as [|o os IH]; intros m Hwf Hok; simpl in *; [eauto|].
  destruct Hok as [Ho Hos]. destruct (run_op_spec junk m o) as (m' & E & Hm' & HV); [done..|].
  rewrite <- HV in *. unfold run_ops. simpl. rewrite E. by apply IH.
Qed.
End Buf.

(** ** Operations that read the string *)

Module Str.

(** The number of leading characters that satisfy [f]. *)
Fixpoint count_while (f : ascii → bool) (s : cstr) : nat :=
  match s with c :: s' => if f c then S (count_while f s') else 0 | [] => 0 end.

Definition Substr (s : cstr) (pos1 pos2 : Z) : cstr :=
  let Len := Z.of_nat (length s) in
  if Len <=? 0 then [] else
  let pos2 := if pos2 >=? Len then Len - 1 else pos2 in
  let pos1 := if pos1 <? 0 then 0 else pos1 in
  if pos1 >? pos2 then [] else
  take (Z.to_nat (pos2 - pos1 + 1)) (drop (Z.to_nat pos1) s).

(** [strchr(s, c) - s], or [None] for NULL; the terminating NUL is found. *)
Fixpoint strchr (s : cstr) (c : ascii) : option nat :=
  match s with
  | [] => if c =c NUL then Some 0%nat else None
  | d :: s' => if d =c c then Some 0%nat else S <$> strchr s' c
  end.

Definition FindChar (s : cstr) (c : ascii) (FirstPos : Z) : Z :=
  if (FirstPos >=? Z.of_nat (length s)) || (FirstPos <? 0) then -1
  else match strchr (drop (Z.to_nat FirstPos) s) c with
       | None => -1
       | Some i => FirstPos + Z.of_nat i
       end.

Fixpoint EscapeChars (s Q : cstr) (escape : ascii) : cstr :=
  match s with
  | [] => []
  | c :: s' =>
      (if FindChar Q c 0 >=? 0 then [escape] else []) ++ c :: EscapeChars s' Q escape
  end.

Definition Hash (s : cstr) : Z :=
  foldl (fun result c =>
           uint32 (uint32 (Z.shiftl result 5) + result + Z.of_nat (nat_of_ascii c))) 0 s.

(** [strstr(s, p) - s], or [None] for NULL. *)
Fixpoint strstr (s p : cstr) : option nat :=
  if has_prefix p s then Some 0%nat
  else match s with [] => None | _ :: s' => S <$> strstr s' p end.

Definition find (s needle : cstr) (iStartPos : Z) : Z :=
  match needle with
  | [] => 0
  | _ =>
      if (iStartPos >=? Z.of_nat (length s)) || (iStartPos <? 0) then -1
      else match strstr (drop (Z.to_nat iStartPos) s) needle with
           | None => -1
           | Some i => iStartPos + Z.of_nat i
           end
  end.

(** The first loop of [replaceString], which collects the matches. *)
Fixpoint replace_matches (fuel : nat) (s p : cstr) (from : Z) : list Z :=
  match fuel with
  | O => []
  | S fuel =>
      if from <=? Z.of_nat (length s) then
        let from := find s p from in
        if from =? -1 then []
        else from :: replace_matches fuel s p (from + Z.of_nat (length p))
      else []
  end.

(** The second loop, which copies the pieces between the matches. *)
Fixpoint replace_copy (s : cstr) (plen : Z) (w : cstr) (prev : Z) (ms : list Z) : cstr :=
  match ms with
  | [] => drop (Z.to_nat prev) s
  | m :: ms =>
      take (Z.to_nat (m - prev)) (drop (Z.to_nat prev) s) ++ w
      ++ replace_copy s plen w (m + plen) ms
  end.

Definition replaceString (s p w : cstr) (from : Z) : bool * cstr :=
  match p with
  | [] => (false, s)
  | _ =>
      match replace_matches (S (length s)) s p from with
      | [] => (false, s)
      | ms => (true, replace_copy s (Z.of_nat (length p)) w 0 ms)
      end
  end.

Definition append_to_list (s : cstr) (str : option cstr) (delim : cstr) : cstr :=
  match str with
  | None | Some [] => s
  | Some t => (if (length s =? 0)%nat then s else s ++ delim) ++ t
  end.

Definition chomp (s : cstr) : bool * cstr :=
  match last s with
  | Some c =>
      if c =c NL then
        let s := take (length s - 1) s in
        match last s with
        | Some d => (true, if d =c CR then take (length s - 1) s else s)
        | None => (true, s)
        end
      else (false, s)
  | None => (false, s)
  end.

Definition trim (s : cstr) : cstr :=
  let Len := Z.of_nat (length s) in
  if Len =? 0 then s else
  let begin := Z.of_nat (count_while isspace s) in
  let end_ := Len - 1 - Z.of_nat (count_while isspace (reverse s)) in
  if negb (begin =? 0) || negb (end_ =? Len - 1) then Substr s begin end_ else s.

(** [compressSpaces]: the loop reads one character past each white-space
    character and stores what it reads there. *)
Fixpoint compressSpaces (s : cstr) : cstr :=
  match s with
  | [] => []
  | c :: s' =>
      if isspace c then
        match s' with [] => [] | d :: s'' => d :: compressSpaces s'' end
      else c :: compressSpaces s'
  end.

(** The tokenizer: [nextToken] is the rest of the buffer, or NULL. *)
Definition Tokenize (s : cstr) : option cstr :=
  match s with [] => None | _ => Some s end.

(** One scan of [GetNextToken]: the token, and the next [nextToken]. *)
Fixpoint next_token (delim s : cstr) : cstr * option cstr :=
  match s with
  | [] => ([], None)
  | c :: s' =>
      if has_char c delim then ([], Some s')
      else let '(t, rest) := next_token delim s' in (c :: t, rest)
  end.

(** [GetNextToken]: the result and the new [nextToken].  With
    [skipBlankTokens] the function calls itself on the rest of the buffer,
    which is shorter; [fuel] is its length plus one. *)
Fixpoint GetNextToken_loop (fuel : nat) (delim : cstr) (skipBlankTokens : bool)
    (nextToken : option cstr) : option cstr * option cstr :=
  match fuel, nextToken with
  | S fuel, Some s =>
      if (length delim =? 0)%nat then (None, nextToken) else
      let '(t, rest) := next_token delim s in
      if skipBlankTokens && (length t =? 0)%nat
      then GetNextToken_loop fuel delim skipBlankTokens rest
      else (Some t, rest)
  | _, _ => (None, nextToken)
  end.

Definition GetNextToken (delim : cstr) (skipBlankTokens : bool) (nextToken : option cstr) :=
  GetNextToken_loop (S (match nextToken with Some s => length s | None => 0%nat end))
    delim skipBlankTokens nextToken.

(** A client's loop: call [GetNextToken] until it returns NULL. *)
Fixpoint all_tokens (fuel : nat) (delim : cstr) (skip : bool) (nextToken : option cstr)
    : list cstr :=
  match fuel with
  | O => []
  | S fuel =>
      match GetNextToken delim skip nextToken with
      | (Some t, rest) => t :: all_tokens fuel delim skip rest
      | (None, _) => []
      end
  end.

(** *** trim *)

Lemma count_while_le f s : (count_while f s ≤ length s)%nat.
Proof. induction s; simpl; [lia|]. destruct (f a); lia. Qed.

Lemma count_while_all f s : forallb f (take (count_while f s) s) = true.
Proof. induction s as [|c s IH]; simpl; [done|]. destruct (f c) eqn:E; simpl; [by rewrite E|done]. Qed.

Lemma count_while_stop f s c : s !! count_while f s = Some c → f c = false.
Proof.
  induction s as [|d s IH]; simpl; [done|]. destruct (f d) eqn:E; simpl; [done|].
  by intros [= ->].
Qed.

Lemma count_while_length f s : count_while f s = length s ↔ forallb f s = true.
Proof.
  induction s as [|c s IH]; simpl; [done|]. destruct (f c); simpl; [|done].
  rewrite <- IH. lia.
Qed.

(** [Substr] inside the string. *)
Lemma Substr_in s b e :
  0 ≤ b → e < Z.of_nat (length s) →
  Substr s b e = if b >? e then [] else take (Z.to_nat (e - b + 1)) (drop (Z.to_nat b) s).
Proof.
  intros Hb He. unfold Substr. destruct (Z.leb_spec (Z.of_nat (length s)) 0).
  { destruct s; [|simpl in *; lia]. rewrite drop_nil, take_nil. by destruct (b >? e). }
  rewrite Z.geb_leb. destruct (Z.leb_spec (Z.of_nat (length s)) e); [lia|].
  destruct (Z.ltb_spec b 0); [lia|]. done.
Qed.

Lemma Substr_all s : Substr s 0 (Z.of_nat (length s) - 1) = s.
Proof.
  rewrite Substr_in by lia. rewrite Z.gtb_ltb. destruct (Z.ltb_spec (Z.of_nat (length s) - 1) 0).
  { destruct s; [done|simpl in *; lia]. }
  rewrite take_ge; [done|]. rewrite length_drop. lia.
Qed.

(** [trim] is one [Substr], whichever branch it takes. *)
Lemma trim_Substr s :
  trim s = Substr s (Z.of_nat (count_while isspace s))
             (Z.of_nat (length s) - 1 - Z.of_nat (count_while isspace (reverse s))).
Proof.
  unfold trim. destruct (Z.eqb_spec (Z.of_nat (length s)) 0) as [Hl|Hl].
  { destruct s; [done|simpl in Hl; lia]. }
  set (b := Z.of_nat (count_while isspace s)).
  set (e := _ - 1 - _). destruct (negb (b =? 0)) eqn:Hb; [done|].
  destruct (negb (e =? _)) eqn:He; [done|]. split_bools. simpl.
  apply Z.eqb_eq in Hb as ->. apply Z.eqb_eq in He as ->. by rewrite Substr_all.
Qed.

Lemma trim_index s :
  forallb isspace s = false →
  let b := count_while isspace s in
  let e := (length s - count_while isspace (reverse s))%nat in
  (b < e ≤ length s)%nat ∧ trim s = take (e - b) (drop b s).
Proof.
  intros Hs b e.
  assert (b < length s)%nat as Hb.
  { pose proof (count_while_le isspace s). destruct (Nat.eq_dec b (length s)) as [E|]; [|lia].
    apply count_while_length in E. congruence. }
  assert (Hbe : (b < e)%nat).
  { destruct (lookup_lt_is_Some_2 s b Hb) as [c Hc].
    pose proof (count_while_stop _ _ _ Hc) as Hns.
    destruct (Nat.lt_ge_cases b e); [done|exfalso].
    assert (Hlt : (length s - 1 - b < count_while isspace (reverse s))%nat) by lia.
    pose proof (count_while_all isspace (reverse s)) as Hall.
    apply forallb_Forall in Hall. rewrite Forall_lookup in Hall.
    specialize (Hall (length s - 1 - b)%nat c). rewrite lookup_take_lt in Hall by done.
    rewrite reverse_lookup in Hall by lia.
    replace (length s - S (length s - 1 - b))%nat with b in Hall by lia.
    rewrite Hall in Hns; done. }
  split; [lia|].
  pose proof (count_while_le isspace (reverse s)) as Hr. rewrite length_reverse in Hr.
  rewrite trim_Substr, Substr_in by lia. fold b. rewrite Z.gtb_ltb.
  destruct (Z.ltb_spec (Z.of_nat (length s) - 1 - Z.of_nat (count_while isspace (reverse s)))
              (Z.of_nat b)); [lia|].
  rewrite Nat2Z.id. f_equal. lia.
Qed.

Lemma trim_all_space s : forallb isspace s = true → trim s = [].
Proof.
  intros Hs. rewrite trim_Substr. apply count_while_length in Hs as Hc. rewrite Hc.
  rewrite Substr_in by lia. rewrite Z.gtb_ltb.
  destruct (Z.ltb_spec (Z.of_nat (length s) - 1 - Z.of_nat (count_while isspace (reverse s)))
              (Z.of_nat (length s))); [done|lia].
Qed.

(** *** replaceString *)

(** Reference definition: left to right, without overlaps. *)
Fixpoint replace_ref (fuel : nat) (s p w : cstr) : cstr :=
  match fuel with
  | O => s
  | S fuel =>
      match s with
      | [] => []
      | c :: s' =>
          if has_prefix p s then w ++ replace_ref fuel (drop (length p) s) p w
          else c :: replace_ref fuel s' p w
      end
  end.

Lemma has_prefix_spec p s : has_prefix p s = true ↔ ∃ t, s = p ++ t.
Proof.
  revert s. induction p as [|c p IH]; intros s; simpl.
  { split; [by exists s|done]. }
  destruct s as [|d s]; [split; [done|by intros [? ?]]|].
  rewrite andb_true_iff, Ascii.eqb_eq, IH. split.
  - intros (-> & t & ->). by exists t.
  - intros [t [= -> ->]]. eauto.
Qed.

(** Enough fuel: more of it changes nothing. *)
Lemma replace_ref_fuel n : ∀ m s p w,
  p ≠ [] → (length s ≤ n)%nat → (length s ≤ m)%nat → replace_ref n s p w = replace_ref m s p w.
Proof.
  induction n as [|n IH]; intros m s p w Hp Hn Hm.
  - destruct s; [|simpl in *; lia]. by destruct m.
  - destruct m as [|m]; [destruct s; [done|simpl in *; lia]|].
    simpl. destruct s as [|c s]; [done|].
    assert (length (drop (length p) (c :: s)) ≤ length s)%nat.
    { rewrite length_drop. destruct p; [done|]. simpl. lia. }
    simpl in *. destruct (has_prefix p (c :: s)); f_equal; apply IH; (done || lia).
Qed.

(** What [strstr] finds is where the reference makes its next replacement. *)
Lemma replace_ref_strstr s p w m :
  p ≠ [] → (length s ≤ m)%nat →
  replace_ref (length s) s p w =
    match strstr s p with
    | None => s
    | Some i => take i s ++ w ++ replace_ref m (drop (i + length p) s) p w
    end.
Proof.
  intros Hp. induction s as [|c s IH]; intros Hm; [by destruct p|].
  cbn [length replace_ref strstr] in *. destruct (has_prefix p (c :: s)) eqn:E.
  { simpl take. rewrite app_nil_l. f_equal.
    apply replace_ref_fuel; [done| |]; rewrite length_drop; destruct p; simpl; (done || lia). }
  rewrite IH by lia. by destruct (strstr s p) as [i|].
Qed.

Lemma strstr_Some s p i :
  strstr s p = Some i → (i + length p ≤ length s)%nat.
Proof.
  revert i. induction s as [|c s IH]; intros i; simpl; destruct (has_prefix p _) eqn:E.
  - apply has_prefix_spec in E as [t E]. destruct p; [|done]. by intros [= <-].
  - done.
  - apply has_prefix_spec in E as [t E]. intros [= <-]. simpl.
    apply (f_equal length) in E. rewrite length_app in E. simpl in E. lia.
  - destruct (strstr s p) as [j|]; [|done]. intros [= <-]. specialize (IH j eq_refl). lia.
Qed.

Lemma find_from s p n :
  p ≠ [] → (n ≤ length s)%nat →
  find s p (Z.of_nat n) =
    match strstr (drop n s) p with None => -1 | Some i => Z.of_nat (n + i) end.
Proof.
  intros Hp Hn. unfold find. destruct p as [|c p]; [done|].
  rewrite Z.geb_leb. destruct (Z.leb_spec (Z.of_nat (length s)) (Z.of_nat n)); simpl.
  - rewrite drop_ge by lia. done.
  - destruct (Z.ltb_spec (Z.of_nat n) 0); [lia|]. rewrite Nat2Z.id.
    destruct (strstr (drop n s) (c :: p)); [|done]. lia.
Qed.

(** The two loops of [replaceString] together compute the reference. *)
Lemma replace_loops s p w : p ≠ [] → ∀ fuel n,
  (n ≤ length s)%nat → (length s - n < fuel)%nat →
  replace_copy s (Z.of_nat (length p)) w (Z.of_nat n)
    (replace_matches fuel s p (Z.of_nat n))
  = replace_ref (length s - n) (drop n s) p w.
Proof.
  intros Hp. induction fuel as [|fuel IH]; intros n Hn Hf; [lia|].
  cbn [replace_matches]. destruct (Z.leb_spec (Z.of_nat n) (Z.of_nat (length s))); [|lia].
  rewrite find_from by done.
  pose proof (replace_ref_strstr (drop n s) p w (length s) Hp) as Href.
  rewrite length_drop in Href. rewrite Href by lia.
  destruct (strstr (drop n s) p) as [i|] eqn:E.
  - apply strstr_Some in E. rewrite length_drop in E.
    destruct (Z.eqb_spec (Z.of_nat (n + i)) (-1)); [lia|].
    cbn [replace_copy]. rewrite Nat2Z.id.
    replace (Z.to_nat (Z.of_nat (n + i) - Z.of_nat n)) with i by lia.
    do 2 f_equal. rewrite <- Nat2Z.inj_add.
    assert (0 < length p)%nat by (destruct p; [done|simpl; lia]).
    rewrite IH by lia. rewrite drop_drop.
    replace (n + i + length p)%nat with (n + (i + length p))%nat by lia.
    apply replace_ref_fuel; [done| |]; rewrite length_drop; lia.
  - simpl. by rewrite Nat2Z.id.
Qed.

(** *** Tokens *)

(** The first token and what follows it. *)
Lemma next_token_spec d s :
  let '(t, rest) := next_token [d] s in
  d ∉ t ∧ s = t ++ (match rest with None => [] | Some r => d :: r end).
Proof.
  induction s as [|c s IH]; simpl; [set_solver|].
  rewrite orb_false_r. destruct (Ascii.eqb_spec d c) as [->|Hc]; [set_solver|].
  destruct (next_token [d] s) as [t rest]. destruct IH as [Ht ->]. set_solver.
Qed.

Lemma next_token_shorter delim s t r :
  next_token delim s = (t, Some r) → (length r < length s)%nat.
Proof.
  revert t. induction s as [|c s IH]; simpl; intros t; [done|].
  destruct (has_char c delim); [intros [= <- <-]; lia|].
  destruct (next_token delim s) as [t' [r'|]]; [|done]. intros [= <- <-].
  specialize (IH t' eq_refl). lia.
Qed.

Lemma GetNextToken_noskip delim s :
  delim ≠ [] → GetNextToken delim false (Some s) =
    let '(t, rest) := next_token delim s in (Some t, rest).
Proof.
  intros Hd. unfold GetNextToken. cbn [GetNextToken_loop].
  destruct delim; [done|]. simpl (length _ =? 0)%nat. cbn iota.
  by destruct (next_token _ s).
Qed.

Fixpoint join (d : ascii) (ts : list cstr) : cstr :=
  match ts with
  | [] => []
  | [t] => t
  | t :: ts => t ++ d :: join d ts
  end.

Lemma all_tokens_join d n : ∀ s,
  (length s < n)%nat →
  join d (all_tokens n [d] false (Some s)) = s ∧
  Forall (fun t => d ∉ t) (all_tokens n [d] false (Some s)) ∧
  all_tokens n [d] false (Some s) ≠ [].
Proof.
  induction n as [|n IH]; intros s Hn; [lia|]. cbn [all_tokens].
  rewrite GetNextToken_noskip by done.
  pose proof (next_token_spec d s) as Hs.
  destruct (next_token [d] s) as [t [r|]] eqn:E.
  - destruct Hs as [Ht ->]. apply next_token_shorter in E.
    destruct (IH r) as (IH1 & IH2 & IH3); [lia|].
    destruct (all_tokens n [d] false (Some r)) as [|u us] eqn:Eu; [done|].
    cbn [join] in *. rewrite IH1. auto.
  - rewrite app_nil_r in Hs. destruct Hs as [Ht ->].
    replace (all_tokens n [d] false None) with (@nil cstr) by (by destruct n). simpl. auto.
Qed.
End Str.

(** ** Properties *)

(** C39. Whatever sequence of [operator=(const char * )], [operator+=(const char * )],
    [operator+=(const MyString&)] with the string itself, [operator+=(char)] and
    [setChar] is applied to a fresh [MyString], no store leaves the allocation, the
    representation invariant holds at the end and the string holds the sequence the
    operations specify; a wrap-around of [2 * capacity] in [reserve_at_least] does not
    matter.  The texts and characters that are assigned or appended have no NUL
    ([setChar] may write one, which ends the string there), and every text that is
    assigned and every string that results is shorter than [INT_MAX]. *)
Theorem run_ops_refines junk os :
  Buf.ops_ok [] os →
  ∃ m, Buf.run_ops junk Buf.init os = Some m ∧ Buf.wf m ∧
       Buf.Value m = foldl Buf.spec_op [] os.
Proof. intros Hok. apply (Buf.run_ops_from junk os Buf.init); done. Qed.

Lemma run_ops_refines_witness :
  let os := [Buf.op_assign (L "abc"); Buf.op_append (L "de"); Buf.op_setChar 4 NUL;
             Buf.op_append_char "x"%char; Buf.op_append_self] in
  ∃ m, Buf.run_ops "z"%char Buf.init os = Some m ∧ Buf.wf m ∧ Buf.Value m = L "abcdxabcdx".
Proof.
  apply (run_ops_refines "z"%char
    [Buf.op_assign (L "abc"); Buf.op_append (L "de"); Buf.op_setChar 4 NUL;
     Buf.op_append_char "x"%char; Buf.op_append_self]).
  cbv -[elem_of]. repeat split; try set_solver; try discriminate.
Defined.

(** [trim] removes exactly the leading and the trailing white space: the
    string is white space, the result, white space; and the result neither
    starts nor ends with a white-space character. *)
Theorem trim_spec s :
  ∃ l r, s = l ++ Str.trim s ++ r ∧ forallb isspace l = true ∧ forallb isspace r = true ∧
    (∀ c, head (Str.trim s) = Some c → isspace c = false) ∧
    (∀ c, last (Str.trim s) = Some c → isspace c = false).
Proof.
  destruct (forallb isspace s) eqn:Hs.
  { exists s, []. rewrite (Str.trim_all_space s Hs). rewrite app_nil_r. done. }
  destruct (Str.trim_index s Hs) as [Hbe ->].
  set (b := Str.count_while isspace s) in *.
  set (k := Str.count_while isspace (reverse s)) in *. set (e := (length s - k)%nat) in *.
  exists (take b s), (drop e s). repeat split.
  - rewrite <- (take_drop b s) at 1. f_equal.
    rewrite <- (take_drop (e - b) (drop b s)) at 1. f_equal. rewrite drop_drop. f_equal. lia.
  - apply Str.count_while_all.
  - pose proof (Str.count_while_all isspace (reverse s)) as Hk. fold k in Hk.
    rewrite take_reverse in Hk. rewrite forallb_Forall, Forall_reverse in Hk.
    by rewrite forallb_Forall.
  - intros c. rewrite head_lookup, lookup_take_lt, lookup_drop, Nat.add_0_r by lia.
    apply Str.count_while_stop.
  - intros c. rewrite last_lookup, length_take, length_drop.
    rewrite Nat.min_l by lia. rewrite lookup_take_lt, lookup_drop by lia.
    intros Hc. apply (Str.count_while_stop isspace (reverse s)). fold k.
    rewrite reverse_lookup by lia. rewrite <- Hc. f_equal. lia.
Qed.

(** [replaceString], which first collects the positions of the matches
    and then copies the pieces between them, replaces every non-overlapping
    occurrence from left to right, and reports whether there was one. *)
Theorem replaceString_spec s p w :
  p ≠ [] →
  Str.replaceString s p w 0 =
    (bool_decide (is_Some (Str.strstr s p)), Str.replace_ref (length s) s p w).
Proof.
  intros Hp. pose proof (Str.replace_loops s p w Hp (S (length s)) 0 ltac:(lia) ltac:(lia)) as H.
  rewrite Nat.sub_0_r in H. change (drop 0 s) with s in H.
  pose proof (Str.replace_ref_strstr s p w (length s) Hp ltac:(lia)) as Href.
  unfold Str.replaceString. destruct p as [|c p]; [done|].
  change (Z.of_nat 0) with 0 in H.
  destruct (Str.replace_matches _ s (c :: p) 0) as [|m ms] eqn:E;
    pose proof (Str.find_from s (c :: p) 0 Hp ltac:(lia)) as Hf;
    cbn [Str.replace_matches] in E; change (drop 0 s) with s in Hf;
    change (Z.of_nat 0) with 0 in Hf;
    destruct (Z.leb_spec 0 (Z.of_nat (length s))); try lia; rewrite Hf in E;
    destruct (Str.strstr s (c :: p)) as [i|]; simpl in E.
  - destruct (Z.eqb_spec (Z.of_nat i) (-1)); [lia|done].
  - by rewrite Href.
  - rewrite <- H. done.
  - done.
Qed.

Lemma replaceString_spec_witness :
  Str.replaceString (L "a.b..c") (L ".") (L "--") 0 = (true, L "a--b----c").
Proof. rewrite (replaceString_spec (L "a.b..c") (L ".") (L "--")); [|discriminate]. reflexivity. Defined.

(** [Tokenize] and repeated calls of [GetNextToken] on a one-character
    delimiter split a non-empty string into delimiter-free tokens whose join is
    the string, so no character is lost; the loop ends after at most one call
    more than the string has characters. *)
Theorem tokens_join d s n :
  s ≠ [] → (length s < n)%nat →
  let ts := Str.all_tokens n [d] false (Str.Tokenize s) in
  Str.join d ts = s ∧ Forall (fun t => d ∉ t) ts.
Proof.
  intros Hs Hn. destruct s as [|c s]; [done|].
  destruct (Str.all_tokens_join d n (c :: s) Hn) as (? & ? & _). done.
Qed.

Lemma tokens_join_witness :
  Str.join "," (Str.all_tokens 9 (L ",") false (Str.Tokenize (L "a,,bc,"))) = L "a,,bc,".
Proof. refine (proj1 (tokens_join "," (L "a,,bc,") 9 _ _)); [discriminate|simpl; lia]. Defined.

(** The header says of [compressSpaces] that it removes all the white space;
    of two adjacent white-space characters it keeps the second. *)
Theorem compressSpaces_keeps_space :
  Str.compressSpaces (L "a  b") = L "a b" ∧ Str.compressSpaces (L "a b") = L "ab".
Proof. split; reflexivity. Qed.
