(* ===== verification/JobAd.v ===== *)
(** * Job ads and version numbers

    What [ArgList] and [Env] need of their collaborators: the string
    attributes of a [ClassAd] (an interface with its laws, and an instance) and
    the version arithmetic of [condor_utils/condor_ver_info.cpp]. *)
From stdpp Require Import base list strings gmap.
From Stdlib Require Import ZArith Lia Ascii.
From S2P Require Import Prelude.

Definition ATTR_JOB_ARGUMENTS1 : cstr := L "Args".
Definition ATTR_JOB_ARGUMENTS2 : cstr := L "Arguments".
Definition ATTR_JOB_ENVIRONMENT1 : cstr := L "Env".
Definition ATTR_JOB_ENVIRONMENT1_DELIM : cstr := L "EnvDelim".
Definition ATTR_JOB_ENVIRONMENT2 : cstr := L "Environment".

(** ** The interface of an ad *)

(** [LookupString] succeeds on an attribute whose value is a string,
    [LookupExpr] on any attribute that is present. *)
Class JobAd (ad : Type) := {
  LookupString : ad → cstr → option cstr;
  LookupExpr : ad → cstr → bool;
  Assign : ad → cstr → cstr → ad;
  Delete : ad → cstr → ad;
}.

Class JobAdLaws (ad : Type) `{JobAd ad} : Prop := {
  LookupString_absent (a : ad) k : LookupExpr a k = false → LookupString a k = None;
  LookupString_Assign (a : ad) k v : LookupString (Assign a k v) k = Some v;
  LookupString_Assign_ne (a : ad) k k' v :
    k ≠ k' → LookupString (Assign a k v) k' = LookupString a k';
  LookupExpr_Assign (a : ad) k v : LookupExpr (Assign a k v) k = true;
  LookupExpr_Assign_ne (a : ad) k k' v :
    k ≠ k' → LookupExpr (Assign a k v) k' = LookupExpr a k';
  LookupExpr_Delete (a : ad) k : LookupExpr (Delete a k) k = false;
  LookupString_Delete_ne (a : ad) k k' :
    k ≠ k' → LookupString (Delete a k) k' = LookupString a k';
  LookupExpr_Delete_ne (a : ad) k k' :
    k ≠ k' → LookupExpr (Delete a k) k' = LookupExpr a k';
}.

Lemma LookupString_Delete `{JobAdLaws ad} (a : ad) k : LookupString (Delete a k) k = None.
Proof. apply LookupString_absent, LookupExpr_Delete. Qed.

(** An instance: a finite map to string values ([inl]) and other
    expressions ([inr]). *)
Abbreviation map_ad := (gmap cstr (cstr + unit)).

#[export] Instance map_ad_JobAd : JobAd map_ad := {
  LookupString a k := match a !! k with Some (inl s) => Some s | _ => None end;
  LookupExpr a k := bool_decide (is_Some (a !! k));
  Assign a k v := <[k := inl v]> a;
  Delete a k := delete k a;
}.

#[export] Instance map_ad_laws : JobAdLaws map_ad.
Proof.
  split; simpl; intros; rewrite ?lookup_insert_eq, ?lookup_delete_eq,
    ?lookup_insert_ne, ?lookup_delete_ne by done; try done.
  case_bool_decide as Hs; [done|]. destruct (a !! k); [|done]. contradict Hs; eauto.
Qed.

(** The attributes the clients use are distinct. *)
Ltac attr_ne := solve [vm_compute; discriminate].

(** Simplify the lookups of an ad under the laws. *)
Ltac ad_simpl :=
  repeat first
    [ rewrite LookupString_Assign | rewrite LookupString_Delete
    | rewrite LookupExpr_Assign | rewrite LookupExpr_Delete
    | rewrite LookupString_Assign_ne by attr_ne | rewrite LookupExpr_Assign_ne by attr_ne
    | rewrite LookupString_Delete_ne by attr_ne | rewrite LookupExpr_Delete_ne by attr_ne ].

(** ** Version numbers *)

Record VersionData := mkVersionData {
  MajorVer : Z; MinorVer : Z; SubMinorVer : Z; Scalar : Z;
}.

Definition version_scalar (major minor subminor : Z) : Z :=
  int32 (int32 (int32 (major * 1000000) + int32 (minor * 1000)) + subminor).

Definition built_since_version (v : VersionData) (major minor subminor : Z) : bool :=
  (Scalar v >=? version_scalar major minor subminor)%Z.

(** [CondorVersionRequiresV1] of [ArgList] and of [Env]: earlier than 6.7.15. *)
Definition CondorVersionRequiresV1 (v : VersionData) : bool :=
  negb (built_since_version v 6 7 15).
