(* ===== verification/ArgList.v ===== *)
(** * ArgList

    The argument lists of [condor_utils/condor_arglist.cpp]: the V1 syntaxes
    (Unix, Windows and "wacked"), the V2 raw and quoted syntaxes, and the
    choice between them for a job ad.  A [MyString *error_msg] is an
    [option cstr], [None] being NULL; [true] and [false] results are kept, with
    the state and the message that the call leaves behind. *)
From stdpp Require Import base list strings gmap.
From Stdlib Require Import ZArith Lia Ascii.
From S2P Require Import Prelude MyString JobAd.

(** ** V2 raw syntax *)

(** The loop of [append_arg] over the characters of the argument. *)
Fixpoint append_arg_loop (arg result : cstr) : cstr :=
  match arg with
  | [] => result
  | c :: arg =>
      if is_ws c || (c =c SQ) then
        let result :=
          if bool_decide (last result = Some SQ)
          then take (length result - 1) result else result ++ [SQ] in
        let result := if c =c SQ then result ++ [SQ] else result in
        append_arg_loop arg (result ++ [c] ++ [SQ])
      else append_arg_loop arg (result ++ [c])
  end.

Definition append_arg (arg result : cstr) : cstr :=
  let result := if (length result =? 0)%nat then result else result ++ [SP] in
  let result := if (length arg =? 0)%nat then result ++ [SQ; SQ] else result in
  append_arg_loop arg result.

Fixpoint join_args_loop (args : list cstr) (result : cstr) (start_arg i : Z) : cstr :=
  match args with
  | [] => result
  | a :: args =>
      join_args_loop args (if (i <? start_arg)%Z then result else append_arg a result)
        start_arg (i + 1)%Z
  end.

Definition join_args (args_list : list cstr) (result : cstr) (start_arg : Z) : cstr :=
  join_args_loop args_list result start_arg 0.

(** [split_args].  [quote = Some q] is the state of the inner loop, inside the
    quoted section that starts at [q]; [None] is the outer loop. *)
Fixpoint split_args_loop (args buf : cstr) (parsed_token : bool) (quote : option cstr)
    (args_list : list cstr) (error_msg : option cstr) : bool * list cstr * option cstr :=
  match quote, args with
  | Some q, [] =>
      (false, args_list, (fun _ => L "Unbalanced quote starting here: " ++ q) <$> error_msg)
  | Some q, c :: args' =>
      if c =c SQ then
        match args' with
        | d :: args'' =>
            if d =c SQ then split_args_loop args'' (buf ++ [c]) true (Some q) args_list error_msg
            else split_args_loop args' buf true None args_list error_msg
        | [] => split_args_loop args' buf true None args_list error_msg
        end
      else split_args_loop args' (buf ++ [c]) true (Some q) args_list error_msg
  | None, [] => (true, if parsed_token then args_list ++ [buf] else args_list, error_msg)
  | None, c :: args' =>
      if c =c SQ then split_args_loop args' buf true (Some args) args_list error_msg
      else if is_ws c then
        if parsed_token
        then split_args_loop args' [] false None (args_list ++ [buf]) error_msg
        else split_args_loop args' buf false None args_list error_msg
      else split_args_loop args' (buf ++ [c]) true None args_list error_msg
  end.

Definition split_args (args : option cstr) (args_list : list cstr) (error_msg : option cstr)
    : bool * list cstr * option cstr :=
  match args with
  | None => (true, args_list, error_msg)
  | Some args => split_args_loop args [] false None args_list error_msg
  end.

(** ** The class *)

Inductive ArgV1Syntax := UNKNOWN_ARGV1_SYNTAX | WIN32_ARGV1_SYNTAX | UNIX_ARGV1_SYNTAX.

Record ArgList := mkArgList {
  args_list : list cstr;
  input_was_unknown_platform_v1 : bool;
  v1_syntax : ArgV1Syntax;
}.

Definition set_args (a : ArgList) (l : list cstr) : ArgList :=
  mkArgList l (input_was_unknown_platform_v1 a) (v1_syntax a).

Definition ArgList_new : ArgList := mkArgList [] false UNKNOWN_ARGV1_SYNTAX.
Definition Count (a : ArgList) : Z := Z.of_nat (length (args_list a)).
Definition Clear (a : ArgList) : ArgList := mkArgList [] false (v1_syntax a).
Definition SetArgV1Syntax (a : ArgList) (v : ArgV1Syntax) : ArgList :=
  mkArgList (args_list a) (input_was_unknown_platform_v1 a) v.

Fixpoint GetArg_loop (l : list cstr) (i n : Z) : option cstr :=
  match l with
  | [] => None
  | a :: l => if (i =? n)%Z then Some a else GetArg_loop l (i + 1)%Z n
  end.
Definition GetArg (a : ArgList) (n : Z) : option cstr := GetArg_loop (args_list a) 0 n.

Definition AppendArg (a : ArgList) (arg : cstr) : ArgList := set_args a (args_list a ++ [arg]).

(** [RemoveArg] and [InsertArg] are [None] when their ASSERT fails. *)
Definition RemoveArg (a : ArgList) (pos : Z) : option ArgList :=
  if (0 <=? pos)%Z && (pos <? Count a)%Z then
    Some (set_args a (take (Z.to_nat pos) (args_list a) ++ drop (S (Z.to_nat pos)) (args_list a)))
  else None.

Fixpoint InsertArg_loop (args_array : list cstr) (arg : cstr) (pos i : Z) (out : list cstr)
    : list cstr :=
  match args_array with
  | [] => if (i =? pos)%Z then out ++ [arg] else out
  | a :: rest =>
      let out := if (i =? pos)%Z then out ++ [arg] else out in
      InsertArg_loop rest arg pos (i + 1)%Z (out ++ [a])
  end.

Definition InsertArg (a : ArgList) (arg : cstr) (pos : Z) : option ArgList :=
  if (0 <=? pos)%Z && (pos <=? Count a)%Z
  then Some (set_args a (InsertArg_loop (args_list a) arg pos 0 []))
  else None.

Definition AddErrorMessage (msg : cstr) (error_buf : option cstr) : option cstr :=
  (fun b => (if (length b =? 0)%nat then b else b ++ [NL]) ++ msg) <$> error_buf.

(** ** V1 syntaxes *)

(** Unix: the arguments are the white-space separated words. *)
Fixpoint v1_unix_loop (args buf : cstr) (parsed_token : bool) (out : list cstr) : list cstr :=
  match args with
  | [] => if parsed_token then out ++ [buf] else out
  | c :: args =>
      if is_ws c then
        if parsed_token then v1_unix_loop args [] false (out ++ [buf])
        else v1_unix_loop args buf false out
      else v1_unix_loop args (buf ++ [c]) true out
  end.

Definition AppendArgsV1Raw_unix (a : ArgList) (args : cstr) (error_msg : option cstr)
    : bool * ArgList * option cstr :=
  (true, set_args a (v1_unix_loop args [] false (args_list a)), error_msg).

(** Windows: where the three nested loops of the parser stand. *)
Inductive win32_state :=
  | W_skip                       (* between arguments *)
  | W_arg (buf : cstr)           (* inside an argument, outside quotes *)
  | W_quote (begin_quote buf : cstr) (backslashes : nat).  (* inside quotes *)

Fixpoint v1_win32_loop (args : cstr) (st : win32_state) (out : list cstr)
    (error_msg : option cstr) : bool * list cstr * option cstr :=
  match st, args with
  | W_skip, [] => (true, out, error_msg)
  | W_arg buf, [] => (true, out ++ [buf], error_msg)
  | W_quote q _ _, [] =>
      (false, out, AddErrorMessage
         (L "Unterminated quote in windows argument string starting here: " ++ q) error_msg)
  | W_skip, c :: args' =>
      if is_ws c then v1_win32_loop args' W_skip out error_msg
      else if c =c DQ then v1_win32_loop args' (W_quote args [] 0) out error_msg
      else v1_win32_loop args' (W_arg [c]) out error_msg
  | W_arg buf, c :: args' =>
      if is_ws c then v1_win32_loop args' W_skip (out ++ [buf]) error_msg
      else if c =c DQ then v1_win32_loop args' (W_quote args buf 0) out error_msg
      else v1_win32_loop args' (W_arg (buf ++ [c])) out error_msg
  | W_quote q buf n, c :: args' =>
      if c =c BS then v1_win32_loop args' (W_quote q buf (S n)) out error_msg
      else if c =c DQ then
        let buf := buf ++ replicate (Nat.div2 n) BS in
        if Nat.odd n then v1_win32_loop args' (W_quote q (buf ++ [c]) 0) out error_msg
        else v1_win32_loop args' (W_arg buf) out error_msg
      else v1_win32_loop args' (W_quote q (buf ++ replicate n BS ++ [c]) 0) out error_msg
  end.

Definition AppendArgsV1Raw_win32 (a : ArgList) (args : cstr) (error_msg : option cstr)
    : bool * ArgList * option cstr :=
  let '(ok, l, e) := v1_win32_loop args W_skip (args_list a) error_msg in
  (ok, set_args a l, e).

Definition AppendArgsV1Raw (a : ArgList) (args : option cstr) (error_msg : option cstr)
    : bool * ArgList * option cstr :=
  match args with
  | None => (true, a, error_msg)
  | Some args =>
      match v1_syntax a with
      | WIN32_ARGV1_SYNTAX => AppendArgsV1Raw_win32 a args error_msg
      | UNIX_ARGV1_SYNTAX => AppendArgsV1Raw_unix a args error_msg
      | UNKNOWN_ARGV1_SYNTAX =>
          AppendArgsV1Raw_unix (mkArgList (args_list a) true (v1_syntax a)) args error_msg
      end
  end.

Definition AppendArgsV2Raw (a : ArgList) (args : option cstr) (error_msg : option cstr)
    : bool * ArgList * option cstr :=
  let '(ok, l, e) := split_args args (args_list a) error_msg in (ok, set_args a l, e).

Definition RAW_V2_ARGS_MARKER : ascii := SP.

Definition AppendArgsV1or2Raw (a : ArgList) (args : option cstr) (error_msg : option cstr)
    : bool * ArgList * option cstr :=
  match args with
  | None => (true, a, error_msg)
  | Some (c :: args') =>
      if c =c RAW_V2_ARGS_MARKER then AppendArgsV2Raw a (Some args') error_msg
      else AppendArgsV1Raw a args error_msg
  | Some [] => AppendArgsV1Raw a args error_msg
  end.

Definition AppendArgsFromArgList (a b : ArgList) : ArgList :=
  mkArgList (args_list a ++ args_list b) (input_was_unknown_platform_v1 b) (v1_syntax a).

(** ** Quoting *)

Definition IsV2QuotedString (str : option cstr) : bool :=
  match str with
  | None => false
  | Some s => match skip_while isspace s with c :: _ => c =c DQ | [] => false end
  end.

(** The loop of [V2QuotedToV2Raw] after the opening quote: the text read, and
    the rest from the terminating quote on ([None]: no such quote). *)
Fixpoint v2_unquote (s out : cstr) : cstr * option cstr :=
  match s with
  | [] => (out, None)
  | c :: s' =>
      if c =c DQ then
        match s' with
        | d :: s'' => if d =c DQ then v2_unquote s'' (out ++ [d]) else (out, Some s)
        | [] => (out, Some s)
        end
      else v2_unquote s' (out ++ [c])
  end.

(** [None]: one of the two ASSERTs on the opening quote fails. *)
Definition V2QuotedToV2Raw (v1_input : option cstr) (v2_raw : cstr) (errmsg : option cstr)
    : option (bool * cstr * option cstr) :=
  match v1_input with
  | None => Some (true, v2_raw, errmsg)
  | Some s =>
      match skip_while isspace s with
      | c :: s' =>
          if c =c DQ then Some
            (let '(raw, term) := v2_unquote s' v2_raw in
             match term with
             | None => (false, raw, AddErrorMessage (L "Unterminated double-quote.") errmsg)
             | Some q =>
                 match skip_while isspace (drop 1 q) with
                 | [] => (true, raw, errmsg)
                 | _ => (false, raw, AddErrorMessage
                     (L "Unexpected characters following double-quote.  Did you forget to escape the double-quote by repeating it?  Here is the quote and trailing characters: "
                      ++ q ++ [NL]) errmsg)
                 end
             end)
          else None
      | [] => None
      end
  end.

Fixpoint v1_unwack (s out : cstr) (errmsg : option cstr) : bool * cstr * option cstr :=
  match s with
  | [] => (true, out, errmsg)
  | c :: s' =>
      if c =c DQ then
        (false, out, AddErrorMessage (L "Found illegal unescaped double-quote: " ++ s) errmsg)
      else match s' with
           | d :: s'' =>
               if (c =c BS) && (d =c DQ) then v1_unwack s'' (out ++ [d]) errmsg
               else v1_unwack s' (out ++ [c]) errmsg
           | [] => v1_unwack s' (out ++ [c]) errmsg
           end
  end.

(** [None]: the ASSERT that the input is not a V2 quoted string fails. *)
Definition V1WackedToV1Raw (v1_input : option cstr) (v1_raw : cstr) (errmsg : option cstr)
    : option (bool * cstr * option cstr) :=
  match v1_input with
  | None => Some (true, v1_raw, errmsg)
  | Some s => if IsV2QuotedString (Some s) then None else Some (v1_unwack s v1_raw errmsg)
  end.

Definition V2RawToV2Quoted (v2_raw result : cstr) : cstr :=
  result ++ [DQ] ++ Str.EscapeChars v2_raw [DQ] DQ ++ [DQ].

Definition V1RawToV1Wacked (v1_raw result : cstr) : cstr :=
  result ++ Str.EscapeChars v1_raw [DQ] BS.

Definition AppendArgsV2Quoted (a : ArgList) (args : option cstr) (error_msg : option cstr)
    : option (bool * ArgList * option cstr) :=
  if IsV2QuotedString args then
    '(ok, v2, e) ← V2QuotedToV2Raw args [] error_msg;
    if (ok : bool) then Some (AppendArgsV2Raw a (Some v2) e) else Some (false, a, e)
  else Some (false, a,
    AddErrorMessage (L "Expecting double-quoted input string (V2 format).") error_msg).

Definition AppendArgsV1RawOrV2Quoted (a : ArgList) (args : option cstr) (error_msg : option cstr)
    : option (bool * ArgList * option cstr) :=
  if IsV2QuotedString args then
    '(ok, v2, e) ← V2QuotedToV2Raw args [] error_msg;
    if (ok : bool) then Some (AppendArgsV2Raw a (Some v2) e) else Some (false, a, e)
  else Some (AppendArgsV1Raw a args error_msg).

Definition AppendArgsV1WackedOrV2Quoted (a : ArgList) (args : option cstr) (error_msg : option cstr)
    : option (bool * ArgList * option cstr) :=
  if IsV2QuotedString args then
    '(ok, v2, e) ← V2QuotedToV2Raw args [] error_msg;
    if (ok : bool) then Some (AppendArgsV2Raw a (Some v2) e) else Some (false, a, e)
  else
    '(ok, v1, e) ← V1WackedToV1Raw args [] error_msg;
    if (ok : bool) then Some (AppendArgsV1Raw a (Some v1) e) else Some (false, a, e).

(** ** Output *)

Definition IsSafeArgV1Value (str : option cstr) : bool :=
  match str with
  | None => false
  | Some s => (length s <=? strcspn s [SP; TAB; CR; NL])%nat
  end.

Arguments IsSafeArgV1Value : simpl never.

Fixpoint GetArgsStringV1Raw_loop (l : list cstr) (result : cstr) (error_msg : option cstr)
    : bool * cstr * option cstr :=
  match l with
  | [] => (true, result, error_msg)
  | arg :: l =>
      if IsSafeArgV1Value (Some arg) then
        GetArgsStringV1Raw_loop l
          ((if (length result =? 0)%nat then result else result ++ [SP]) ++ arg) error_msg
      else (false, result,
            (fun _ => L "Cannot represent '" ++ arg ++ L "' in V1 arguments syntax.") <$> error_msg)
  end.

Definition GetArgsStringV1Raw (a : ArgList) (result : cstr) (error_msg : option cstr)
    : bool * cstr * option cstr := GetArgsStringV1Raw_loop (args_list a) result error_msg.

Definition GetArgsStringV2Raw (a : ArgList) (result : cstr) (start_arg : Z) : bool * cstr :=
  (true, join_args (args_list a) result start_arg).

Definition GetArgsStringV2Quoted (a : ArgList) (result : cstr) : bool * cstr :=
  let '(ok, v2_raw) := GetArgsStringV2Raw a [] 0 in
  if (ok : bool) then (true, V2RawToV2Quoted v2_raw result) else (false, result).

Definition GetArgsStringV1WackedOrV2Quoted (a : ArgList) (result : cstr) : bool * cstr :=
  let '(ok, v1_raw, _) := GetArgsStringV1Raw a [] None in
  if (ok : bool) then (true, V1RawToV1Wacked v1_raw result)
  else GetArgsStringV2Quoted a result.

Definition GetArgsStringV1or2Raw (a : ArgList) (result : cstr) : bool * cstr :=
  let old_len := length result in
  let '(ok, result, _) := GetArgsStringV1Raw a result None in
  if (ok : bool) then (true, result) else
  let result := if (old_len <? length result)%nat then take old_len result else result in
  GetArgsStringV2Raw a (result ++ [RAW_V2_ARGS_MARKER]) 0.

(** The quoting loop of [GetArgsStringWin32]; [n] counts the backslashes of
    the run that has just been copied. *)
Fixpoint win32_quote (s : cstr) (n : nat) : cstr :=
  match s with
  | [] => replicate n BS
  | c :: s =>
      if c =c BS then BS :: win32_quote s (S n)
      else if c =c DQ then replicate n BS ++ [BS; DQ] ++ win32_quote s 0
      else c :: win32_quote s 0
  end.

Definition win32_arg (unknown_v1 : bool) (arg : cstr) : cstr :=
  if unknown_v1 then arg
  else if (length arg <=? strcspn arg [SP; TAB; DQ])%nat then arg
  else [DQ] ++ win32_quote arg 0 ++ [DQ].

Arguments win32_arg : simpl never.

Fixpoint GetArgsStringWin32_loop (unknown_v1 : bool) (l : list cstr) (result : cstr)
    (skip_args i : Z) : cstr :=
  match l with
  | [] => result
  | arg :: l =>
      let result :=
        if (i <? skip_args)%Z then result
        else (if (length result =? 0)%nat then result else result ++ [SP])
             ++ win32_arg unknown_v1 arg in
      GetArgsStringWin32_loop unknown_v1 l result skip_args (i + 1)%Z
  end.

Definition GetArgsStringWin32 (a : ArgList) (result : cstr) (skip_args : Z) : bool * cstr :=
  (true, GetArgsStringWin32_loop (input_was_unknown_platform_v1 a) (args_list a) result skip_args 0).

(** [GetArgsStringSystem] on Unix: each argument in double quotes, with the
    characters the shell interprets there escaped. *)
Fixpoint GetArgsStringSystem_loop (l : list cstr) (result : cstr) (skip_args i : Z) : cstr :=
  match l with
  | [] => result
  | arg :: l =>
      let result :=
        if (i <? skip_args)%Z then result
        else result ++ (if (length result =? 0)%nat then [] else [SP])
             ++ [DQ] ++ Str.EscapeChars arg [DQ; BS; "$"%char; "`"%char] BS ++ [DQ] in
      GetArgsStringSystem_loop l result skip_args (i + 1)%Z
  end.

Definition GetArgsStringSystem (a : ArgList) (result : cstr) (skip_args : Z) : bool * cstr :=
  (true, GetArgsStringSystem_loop (args_list a) result skip_args 0).

(** ** Job ads *)

Section WithAd.
Context {ad : Type} `{JobAd ad}.

Definition AppendArgsFromClassAd (a : ArgList) (cad : ad) (error_msg : option cstr)
    : bool * ArgList * option cstr :=
  match LookupString cad ATTR_JOB_ARGUMENTS2 with
  | Some args2 => AppendArgsV2Raw a (Some args2) error_msg
  | None =>
      match LookupString cad ATTR_JOB_ARGUMENTS1 with
      | Some args1 => AppendArgsV1Raw a (Some args1) error_msg
      | None => (true, a, error_msg)
      end
  end.

Definition InsertArgsIntoClassAd (a : ArgList) (cad : ad) (condor_version : option VersionData)
    (error_msg : option cstr) : bool * ad * option cstr :=
  let has_args1 := LookupExpr cad ATTR_JOB_ARGUMENTS1 in
  let has_args2 := LookupExpr cad ATTR_JOB_ARGUMENTS2 in
  let requires_v1 :=
    match condor_version with
    | Some v => CondorVersionRequiresV1 v
    | None => input_was_unknown_platform_v1 a
    end in
  let condor_version_requires_v1 := bool_decide (is_Some condor_version) in
  let cad :=
    if negb requires_v1 then
      let '(_, args2) := GetArgsStringV2Raw a [] 0 in Assign cad ATTR_JOB_ARGUMENTS2 args2
    else if has_args2 then Delete cad ATTR_JOB_ARGUMENTS2 else cad in
  if requires_v1 then
    let '(ok, args1, error_msg) := GetArgsStringV1Raw a [] error_msg in
    if (ok : bool) then (true, Assign cad ATTR_JOB_ARGUMENTS1 args1, error_msg)
    else if condor_version_requires_v1 && negb (input_was_unknown_platform_v1 a) then
      (true, Delete (Delete cad ATTR_JOB_ARGUMENTS1) ATTR_JOB_ARGUMENTS2, error_msg)
    else (false, cad,
          AddErrorMessage (L "Failed to convert arguments to V1 syntax.") error_msg)
  else
    (true, if has_args1 then Delete cad ATTR_JOB_ARGUMENTS1 else cad, error_msg).

(** The overload that first reads the ad. *)
Definition GetArgsStringV1or2Raw_ad (a : ArgList) (cad : ad) (result : cstr)
    (error_msg : option cstr) : bool * ArgList * cstr * option cstr :=
  let '(ok, a, error_msg) := AppendArgsFromClassAd a cad error_msg in
  if (ok : bool) then
    let '(ok, result) := GetArgsStringV1or2Raw a result in (ok, a, result, error_msg)
  else (false, a, result, error_msg).

(** The static [GetArgsStringForDisplay]. *)
Definition GetArgsStringForDisplay_ad (cad : ad) (result : cstr) : cstr :=
  match LookupString cad ATTR_JOB_ARGUMENTS2 with
  | Some args2 => args2
  | None => match LookupString cad ATTR_JOB_ARGUMENTS1 with Some args1 => args1 | None => result end
  end.
End WithAd.

(** ** V2 raw: join and split *)

Section Split.
Variable out0 : list cstr.

(** After reading [result] the parser stands in the given state; where the
    current quoted section began depends on the rest of the input. *)
Definition reads (result buf : cstr) (parsed inq : bool) (out : list cstr) :=
  ∀ rest em, ∃ q, split_args_loop (result ++ rest) [] false None out0 em
    = split_args_loop rest buf parsed (if inq then Some q else None) out em.

(** [append_arg_loop] has written a part of the argument, [buf]: either the
    output stands outside quotes, or it ends with a closing quote that the next
    special character may take back. *)
Definition at_pos (result buf : cstr) (parsed : bool) (out : list cstr) :=
  (last result ≠ Some SQ ∧ reads result buf parsed false out) ∨
  (∃ r, result = r ++ [SQ] ∧ reads r buf true true out).

(** A complete list [out] of arguments has been written. *)
Definition boundary (result : cstr) (out : list cstr) :=
  at_pos (if (length result =? 0)%nat then result else result ++ [SP]) [] false out ∧
  ∀ em, split_args_loop result [] false None out0 em = (true, out, em).

Lemma reads_step result buf parsed (inq : bool) out s buf' parsed' (inq' : bool) out' :
  reads result buf parsed inq out →
  (∀ q rest em, ∃ q', split_args_loop (s ++ rest) buf parsed (if inq then Some q else None) out em
     = split_args_loop rest buf' parsed' (if inq' then Some q' else None) out' em) →
  reads (result ++ s) buf' parsed' inq' out'.
Proof.
  intros Hr Hs rest em. rewrite <- app_assoc. destruct (Hr (s ++ rest) em) as [q ->]. apply Hs.
Qed.

Lemma at_pos_plain result buf parsed out c :
  is_ws c || (c =c SQ) = false → at_pos result buf parsed out →
  at_pos (result ++ [c]) (buf ++ [c]) true out.
Proof.
  intros Hc Hp. apply orb_false_iff in Hc as [Hw Hq].
  assert (last (result ++ [c]) ≠ Some SQ) by (rewrite last_snoc; intros [= ->]; done).
  left. split; [done|]. destruct Hp as [[_ Hr]|(r & -> & Hr)].
  - eapply reads_step; [exact Hr|]. intros. exists (@nil ascii). simpl. by rewrite Hq, Hw.
  - rewrite <- app_assoc. eapply reads_step; [exact Hr|]. intros. exists (@nil ascii). simpl.
    by rewrite Hq, Hw.
Qed.

(** A special character re-opens the last quoted section or opens a new one. *)
Lemma at_pos_open result buf parsed out :
  at_pos result buf parsed out →
  reads (if bool_decide (last result = Some SQ)
         then take (length result - 1) result else result ++ [SQ]) buf true true out.
Proof.
  intros [[Hl Hr]|(r & -> & Hr)].
  - rewrite bool_decide_false by done. eapply reads_step; [exact Hr|].
    intros. by eexists.
  - by rewrite bool_decide_true, take_length_sub_one by apply last_snoc.
Qed.

Lemma at_pos_special result buf parsed out c :
  at_pos result buf parsed out →
  let result := if bool_decide (last result = Some SQ)
                then take (length result - 1) result else result ++ [SQ] in
  at_pos ((if c =c SQ then result ++ [SQ] else result) ++ [c] ++ [SQ]) (buf ++ [c]) true out.
Proof.
  intros Hp%at_pos_open r. fold r in Hp. right.
  exists ((if c =c SQ then r ++ [SQ] else r) ++ [c]). split; [by rewrite app_assoc|].
  destruct (Ascii.eqb_spec c SQ) as [->|Hc].
  - rewrite <- app_assoc. eapply reads_step; [exact Hp|]. intros. by eexists.
  - eapply reads_step; [exact Hp|]. intros q rest em. exists q. simpl.
    by destruct (Ascii.eqb_spec c SQ).
Qed.

Lemma at_pos_loop arg : ∀ result buf parsed out,
  at_pos result buf parsed out →
  at_pos (append_arg_loop arg result) (buf ++ arg)
    (if (length arg =? 0)%nat then parsed else true) out.
Proof.
  induction arg as [|c arg IH]; intros result buf parsed out Hp; [by rewrite app_nil_r|].
  change (length (c :: arg) =? 0)%nat with false.
  replace (buf ++ c :: arg) with ((buf ++ [c]) ++ arg) by (by rewrite <- app_assoc).
  replace true with (if (length arg =? 0)%nat then true else true) by (by destruct arg).
  cbn [append_arg_loop]. destruct (is_ws c || (c =c SQ)) eqn:Hc.
  - apply IH. by apply at_pos_special with parsed.
  - apply IH. by apply at_pos_plain with parsed.
Qed.

(** What follows a written argument: the end, or a separator. *)
Lemma at_pos_end result buf out :
  at_pos result buf true out → result ≠ [] → boundary result (out ++ [buf]).
Proof.
  intros Hp Hne. split.
  - destruct (Nat.eqb_spec (length result) 0) as [E|_]; [destruct result; [done|discriminate]|].
    left. rewrite last_snoc. split; [done|]. destruct Hp as [[_ Hr]|(r & -> & Hr)].
    + eapply reads_step; [exact Hr|]. intros. by exists (@nil ascii).
    + rewrite <- app_assoc. eapply reads_step; [exact Hr|]. intros. by exists (@nil ascii).
  - intros em. destruct Hp as [[_ Hr]|(r & -> & Hr)].
    + destruct (Hr [] em) as [q Hq]. by rewrite app_nil_r in Hq.
    + destruct (Hr [SQ] em) as [q Hq]. by rewrite Hq.
Qed.

Lemma append_arg_loop_length arg : ∀ result,
  (length result ≤ length (append_arg_loop arg result))%nat ∧
  (arg ≠ [] → append_arg_loop arg result ≠ []).
Proof.
  assert (H : ∀ arg r, (length r ≤ length (append_arg_loop arg r))%nat).
  { clear arg. induction arg as [|c arg IH]; intros r; simpl; [done|].
    destruct (is_ws c || (c =c SQ)); (etrans; [|apply IH]);
      rewrite ?length_app; [|lia]. destruct (bool_decide _), (c =c SQ);
      rewrite ?length_app, ?length_take; simpl; lia. }
  intros result. split; [apply H|]. destruct arg as [|c arg]; [done|]. intros _ E.
  apply (f_equal length) in E. revert E. simpl.
  destruct (is_ws c || (c =c SQ));
    match goal with |- length (append_arg_loop _ ?r) = 0%nat → _ => pose proof (H arg r) end;
    rewrite !length_app in *; simpl in *; lia.
Qed.

Lemma boundary_append result out arg :
  boundary result out → boundary (append_arg arg result) (out ++ [arg]).
Proof.
  intros [Hp _]. unfold append_arg.
  set (r := if (length result =? 0)%nat then result else result ++ [SP]) in *.
  destruct arg as [|c arg].
  - simpl. apply at_pos_end; [|by destruct r]. right. exists (r ++ [SQ]).
    rewrite <- app_assoc. split; [done|].
    destruct Hp as [[_ Hr]|(r' & E & _)].
    + eapply reads_step; [exact Hr|]. intros. by eexists.
    + exfalso. apply (f_equal last) in E. rewrite last_snoc in E. revert E. unfold r.
      destruct (Nat.eqb_spec (length result) 0) as [E|_]; [by destruct result|by rewrite last_snoc].
  - change (length (c :: arg) =? 0)%nat with false. cbn iota.
    apply at_pos_end; [|by apply append_arg_loop_length].
    apply (at_pos_loop (c :: arg) r [] false out Hp).
Qed.

Lemma boundary_join args : ∀ result out start i,
  (start ≤ i)%Z → boundary result out →
  boundary (join_args_loop args result start i) (out ++ args).
Proof.
  induction args as [|a args IH]; intros result out start i Hi Hb; simpl; [by rewrite app_nil_r|].
  destruct (Z.ltb_spec i start); [lia|].
  replace (out ++ a :: args) with ((out ++ [a]) ++ args) by (by rewrite <- app_assoc).
  apply IH; [lia|by apply boundary_append].
Qed.

Lemma boundary_nil : boundary [] out0.
Proof. split; [|done]. left. split; [done|]. intros rest em. by exists (@nil ascii). Qed.

(** A lone space (the V2 marker) is also a boundary. *)
Lemma boundary_space : boundary [SP] out0.
Proof. split; [|done]. left. split; [done|]. intros rest em. by exists (@nil ascii). Qed.
End Split.

Lemma split_join_from args out result em :
  boundary out result out →
  split_args_loop (join_args args result 0) [] false None out em = (true, out ++ args, em).
Proof. intros Hb. apply (boundary_join out args result out 0 0); [lia|done]. Qed.

Lemma split_join args out em :
  split_args (Some (join_args args [] 0)) out em = (true, out ++ args, em).
Proof. apply split_join_from, boundary_nil. Qed.

(** ** Quoting and unquoting *)

Lemma FindChar_single q c :
  c ≠ NUL → (Str.FindChar [q] c 0 >=? 0)%Z = (c =c q).
Proof.
  intros Hc. unfold Str.FindChar. simpl.
  rewrite (proj2 (Ascii.eqb_neq c NUL) Hc), (Ascii.eqb_sym c q).
  by destruct (Ascii.eqb q c).
Qed.

Lemma EscapeChars_single c s q e :
  NUL ∉ c :: s →
  Str.EscapeChars (c :: s) [q] e =
    (if c =c q then [e] else []) ++ c :: Str.EscapeChars s [q] e.
Proof. intros Hn. cbn [Str.EscapeChars]. rewrite FindChar_single; set_solver. Qed.

(** Characters that satisfy a predicate, through the writers. *)
Lemma append_arg_loop_chars (P : ascii → Prop) arg : P SQ → ∀ result,
  Forall P arg → Forall P result → Forall P (append_arg_loop arg result).
Proof.
  intros HQ. induction arg as [|c arg IH]; intros result Ha Hr; simpl; [done|].
  apply Forall_cons in Ha as [Hc Ha].
  destruct (is_ws c || (c =c SQ)); apply IH; [done| |done|]; [|by apply Forall_app; auto].
  assert (Forall P (if bool_decide (last result = Some SQ)
            then take (length result - 1) result else result ++ [SQ])).
  { destruct (bool_decide _); [by apply Forall_take|apply Forall_app; auto]. }
  destruct (c =c SQ); rewrite !Forall_app; auto.
Qed.

Lemma join_args_chars (P : ascii → Prop) args : P SQ → P SP → ∀ result start i,
  Forall (Forall P) args → Forall P result → Forall P (join_args_loop args result start i).
Proof.
  intros HQ HS. induction args as [|a args IH]; intros result start i Ha Hr; simpl; [done|].
  apply Forall_cons in Ha as [Ha Has]. apply IH; [done|].
  destruct (i <? start)%Z; [done|]. unfold append_arg. apply append_arg_loop_chars; [done..|].
  assert (Forall P (if (length result =? 0)%nat then result else result ++ [SP]))
    by (destruct (_ =? _)%nat; rewrite ?Forall_app; auto).
  destruct (length a =? 0)%nat; rewrite ?Forall_app; auto.
Qed.

Lemma NUL_Forall s : NUL ∉ s ↔ Forall (fun c => c ≠ NUL) s.
Proof. rewrite Forall_forall. split; [intros H x Hx ->; done|intros H Hx; by apply (H _ Hx)]. Qed.

Lemma join_args_NUL args : Forall (fun a => NUL ∉ a) args → NUL ∉ join_args args [] 0.
Proof.
  intros Ha. apply NUL_Forall. apply join_args_chars; [done..| |done].
  eapply Forall_impl; [exact Ha|]. intros a. simpl. by rewrite NUL_Forall.
Qed.

Lemma v2_unquote_escaped s : ∀ out rest,
  NUL ∉ s → head rest ≠ Some DQ →
  v2_unquote (Str.EscapeChars s [DQ] DQ ++ DQ :: rest) out = (out ++ s, Some (DQ :: rest)).
Proof.
  induction s as [|c s IH]; intros out rest Hn Hr.
  - simpl. rewrite app_nil_r. destruct rest as [|d rest]; [done|].
    destruct (Ascii.eqb_spec d DQ) as [->|]; [done|done].
  - rewrite EscapeChars_single by done.
    replace (out ++ c :: s) with ((out ++ [c]) ++ s) by (by rewrite <- app_assoc).
    rewrite <- (IH (out ++ [c]) rest) by set_solver.
    destruct (Ascii.eqb_spec c DQ) as [->|Hc]; [done|]. simpl.
    by destruct (Ascii.eqb_spec c DQ).
Qed.

(** Unquoting what [V2RawToV2Quoted] writes, white space around it allowed. *)
Lemma V2Quoted_raw raw pre post em :
  NUL ∉ raw → forallb isspace pre = true → forallb isspace post = true →
  IsV2QuotedString (Some (pre ++ V2RawToV2Quoted raw [] ++ post)) = true ∧
  V2QuotedToV2Raw (Some (pre ++ V2RawToV2Quoted raw [] ++ post)) [] em = Some (true, raw, em).
Proof.
  intros Hn Hpre Hpost. unfold IsV2QuotedString, V2QuotedToV2Raw, V2RawToV2Quoted.
  rewrite skip_while_app_all by done. simpl. split; [done|].
  rewrite <- app_assoc. simpl app. rewrite v2_unquote_escaped; [|done|].
  - change (drop 1 (DQ :: post)) with post. by rewrite skip_while_all.
  - destruct post as [|d post]; [done|]. simpl. intros [= ->]. done.
Qed.

Lemma v1_unwack_escaped s : ∀ out em,
  NUL ∉ s → v1_unwack (Str.EscapeChars s [DQ] BS) out em = (true, out ++ s, em).
Proof.
  induction s as [|c s IH]; intros out em Hn; [by rewrite app_nil_r|].
  rewrite EscapeChars_single by done.
  replace (out ++ c :: s) with ((out ++ [c]) ++ s) by (by rewrite <- app_assoc).
  rewrite <- IH by set_solver.
  destruct (Ascii.eqb_spec c DQ) as [->|Hc]; [done|]. simpl app. cbn [v1_unwack].
  destruct (Ascii.eqb_spec c DQ); [done|].
  (* the next character is never an unescaped double quote *)
  destruct s as [|d s]; [done|]. rewrite EscapeChars_single by set_solver.
  destruct (Ascii.eqb_spec d DQ) as [->|Hd]; simpl app.
  - by destruct (c =c BS).
  - cbn iota. by rewrite (proj2 (Ascii.eqb_neq d DQ) Hd), andb_false_r.
Qed.

Lemma wacked_not_quoted s :
  NUL ∉ s → IsV2QuotedString (Some (Str.EscapeChars s [DQ] BS)) = false.
Proof.
  unfold IsV2QuotedString. induction s as [|c s IH]; intros Hn; [done|].
  rewrite EscapeChars_single by done.
  destruct (Ascii.eqb_spec c DQ) as [->|Hc]; [done|]. simpl.
  destruct (isspace c); [apply IH; set_solver|]. by destruct (Ascii.eqb_spec c DQ).
Qed.

(** ** V1 Unix syntax *)

Definition nonempty (s : cstr) : bool := negb (length s =? 0)%nat.
Definition safe_args (l : list cstr) : bool := forallb (fun a => IsSafeArgV1Value (Some a)) l.

Lemma IsSafe_chars s :
  IsSafeArgV1Value (Some s) = true ↔ forallb (fun c => negb (is_ws c)) s = true.
Proof.
  unfold IsSafeArgV1Value. rewrite Nat.leb_le, strcspn_ge.
  assert (∀ c, has_char c [SP; TAB; CR; NL] = is_ws c) as Hws.
  { intros c. unfold has_char, is_ws. cbn [existsb].
    rewrite !(Ascii.eqb_sym c), orb_false_r.
    by destruct (SP =c c), (TAB =c c), (CR =c c), (NL =c c). }
  induction s as [|c s IH]; cbn [forallb]; [done|]. by rewrite !andb_true_iff, Hws, IH.
Qed.

Lemma v1_unix_word s : ∀ rest buf p out,
  forallb (fun c => negb (is_ws c)) s = true →
  v1_unix_loop (s ++ rest) buf p out = v1_unix_loop rest (buf ++ s) (p || nonempty s) out.
Proof.
  induction s as [|c s IH]; intros rest buf p out Hs; simpl.
  - by rewrite app_nil_r, orb_false_r.
  - simpl in Hs. split_bools. rewrite H, IH by done. rewrite <- app_assoc.
    unfold nonempty. simpl. by rewrite orb_true_r.
Qed.

(** [r] is a V1 string whose words are [out] (after [out0]). *)
Definition v1_words (out0 : list cstr) (r : cstr) (out : list cstr) : Prop :=
  v1_unix_loop r [] false out0 = out ∧
  (∀ rest, v1_unix_loop (r ++ SP :: rest) [] false out0 = v1_unix_loop rest [] false out) ∧
  head r ≠ Some SP.

Lemma v1_words_append out0 r out a :
  v1_words out0 r out → IsSafeArgV1Value (Some a) = true →
  v1_words out0 ((if (length r =? 0)%nat then r else r ++ [SP]) ++ a)
    (out ++ (if nonempty a then [a] else [])).
Proof.
  intros (H1 & H2 & H3) Ha%IsSafe_chars.
  set (r' := if (length r =? 0)%nat then r else r ++ [SP]).
  assert (Hr' : ∀ rest, v1_unix_loop (r' ++ rest) [] false out0
                        = v1_unix_loop rest [] false out).
  { intros rest. unfold r'. destruct (Nat.eqb_spec (length r) 0) as [E|_].
    - destruct r; [|done]. simpl in *. by rewrite H1.
    - rewrite <- app_assoc. apply H2. }
  repeat split.
  - rewrite Hr'. rewrite <- (app_nil_r a) at 1. rewrite v1_unix_word by done. simpl.
    destruct (nonempty a); [done|by rewrite app_nil_r].
  - intros rest. rewrite <- app_assoc, Hr', v1_unix_word by done. simpl.
    destruct (nonempty a) eqn:E; [done|]. rewrite app_nil_r. destruct a; [done|discriminate].
  - unfold r'. destruct (Nat.eqb_spec (length r) 0) as [E|E].
    + destruct r; [|done]. destruct a as [|c a]; [done|]. simpl in *. intros [= ->]. done.
    + destruct r; done.
Qed.

Lemma GetArgsStringV1Raw_safe l em out0 : ∀ r out,
  v1_words out0 r out → safe_args l = true →
  ∃ s, GetArgsStringV1Raw_loop l r em = (true, s, em) ∧
       v1_words out0 s (out ++ List.filter nonempty l).
Proof.
  induction l as [|a l IH]; intros r out Hr Hl; simpl in *.
  { exists r. by rewrite app_nil_r. }
  apply andb_true_iff in Hl as [Ha Hl]. rewrite Ha.
  destruct (IH _ _ (v1_words_append _ _ _ _ Hr Ha) Hl) as (s & -> & Hs).
  exists s. split; [done|]. rewrite <- app_assoc in Hs.
  by destruct (nonempty a).
Qed.

Lemma GetArgsStringV1Raw_unsafe l em : ∀ r,
  safe_args l = false →
  ∃ s em', GetArgsStringV1Raw_loop l r em = (false, s, em') ∧ prefix r s.
Proof.
  induction l as [|a l IH]; intros r Hl; simpl in *; [done|].
  destruct (IsSafeArgV1Value (Some a)); simpl in Hl.
  - destruct (IH ((if (length r =? 0)%nat then r else r ++ [SP]) ++ a) Hl)
      as (s & em' & -> & Hs).
    exists s, em'. split; [done|]. etrans; [|exact Hs].
    destruct (length r =? 0)%nat; [by eexists|]. rewrite <- app_assoc. by eexists.
  - by exists r, ((fun _ => L "Cannot represent '" ++ a ++ L "' in V1 arguments syntax.") <$> em).
Qed.

Lemma v1_words_nil out0 : v1_words out0 [] out0.
Proof. repeat split; done. Qed.

(** ** Windows syntax *)

Lemma replicate_S_tail {A} n (x : A) l : replicate n x ++ x :: l = x :: replicate n x ++ l.
Proof. induction n; simpl; congruence. Qed.

Lemma win32_backslashes k : ∀ rest q buf n out em,
  v1_win32_loop (replicate k BS ++ rest) (W_quote q buf n) out em
  = v1_win32_loop rest (W_quote q buf (k + n)) out em.
Proof.
  induction k as [|k IH]; intros; [done|]. simpl. rewrite IH. by rewrite Nat.add_succ_r.
Qed.

(** The reader inside quotes undoes the writer, [n] backslashes into a run. *)
Lemma win32_unquote s : ∀ q buf n rest out em,
  v1_win32_loop (win32_quote s n ++ DQ :: rest) (W_quote q buf n) out em
  = v1_win32_loop rest (W_arg (buf ++ replicate n BS ++ s)) out em.
Proof.
  induction s as [|c s IH]; intros q buf n rest out em; cbn [win32_quote].
  - rewrite win32_backslashes. replace (n + n)%nat with (2 * n)%nat by lia.
    cbn [v1_win32_loop]. change (DQ =c BS) with false. change (DQ =c DQ) with true.
    cbn iota zeta. by rewrite Nat.odd_even, Nat.div2_double, app_nil_r.
  - destruct (Ascii.eqb_spec c BS) as [->|Hb].
    { simpl. rewrite IH. simpl. by rewrite replicate_S_tail. }
    destruct (Ascii.eqb_spec c DQ) as [->|Hd].
    + rewrite <- app_assoc, win32_backslashes. simpl app. cbn [v1_win32_loop].
      change (BS =c BS) with true. change (DQ =c BS) with false. change (DQ =c DQ) with true.
      replace (S (n + n)) with (S (2 * n))%nat by lia. cbn iota zeta.
      rewrite Nat.div2_succ_double, <- Nat.add_1_r, Nat.odd_odd, IH.
      simpl. by rewrite <- !app_assoc.
    + simpl. rewrite (proj2 (Ascii.eqb_neq c BS)), (proj2 (Ascii.eqb_neq c DQ)) by done.
      rewrite IH. simpl. by rewrite <- !app_assoc.
Qed.

(** The arguments the Windows writer can express: not empty, and quoted when
    they contain a line break. *)
Definition win32_expressible (a : cstr) : bool :=
  nonempty a &&
  (forallb (fun c => negb (is_ws c)) a || (strcspn a [SP; TAB; DQ] <? length a)%nat).

Lemma win32_plain s : ∀ rest buf out em,
  forallb (fun c => negb (is_ws c)) s = true → DQ ∉ s →
  v1_win32_loop (s ++ rest) (W_arg buf) out em = v1_win32_loop rest (W_arg (buf ++ s)) out em.
Proof.
  induction s as [|c s IH]; intros rest buf out em Hs Hq; simpl; [by rewrite app_nil_r|].
  simpl in Hs. split_bools. rewrite H.
  rewrite (proj2 (Ascii.eqb_neq c DQ)) by set_solver.
  rewrite IH by set_solver. by rewrite <- app_assoc.
Qed.

Lemma win32_arg_read a rest out em :
  win32_expressible a = true →
  v1_win32_loop (win32_arg false a ++ rest) W_skip out em
  = v1_win32_loop rest (W_arg a) out em.
Proof.
  unfold win32_expressible, win32_arg. intros [Hne Hor]%andb_true_iff.
  destruct (Nat.leb_spec (length a) (strcspn a [SP; TAB; DQ])) as [Hle|Hlt].
  - rewrite (proj2 (Nat.ltb_ge _ _)), orb_false_r in Hor by lia.
    apply strcspn_ge in Hle.
    assert (DQ ∉ a) as Hq.
    { rewrite forallb_Forall, Forall_forall in Hle. intros Hin. by apply Hle in Hin. }
    destruct a as [|c a]; [done|]. simpl in Hor. split_bools. simpl. rewrite H.
    rewrite (proj2 (Ascii.eqb_neq c DQ)) by set_solver.
    rewrite win32_plain by set_solver. done.
  - simpl app. cbn [v1_win32_loop]. simpl. rewrite <- app_assoc. simpl app.
    by rewrite win32_unquote.
Qed.

Lemma win32_loop_read l em out0 : ∀ r out i,
  (i >= 0)%Z →
  (∀ rest, v1_win32_loop ((if (length r =? 0)%nat then r else r ++ [SP]) ++ rest) W_skip out0 em
           = v1_win32_loop rest W_skip out em) →
  v1_win32_loop r W_skip out0 em = (true, out, em) →
  forallb win32_expressible l = true →
  v1_win32_loop (GetArgsStringWin32_loop false l r 0 i) W_skip out0 em = (true, out ++ l, em).
Proof.
  induction l as [|a l IH]; intros r out i Hi Hsep Hend Hl; simpl; [by rewrite app_nil_r|].
  simpl in Hl. apply andb_true_iff in Hl as [Ha Hl].
  destruct (Z.ltb_spec i 0); [lia|].
  replace (out ++ a :: l) with ((out ++ [a]) ++ l) by (by rewrite <- app_assoc).
  assert (nonempty (win32_arg false a) = true) as Hne.
  { apply andb_true_iff in Ha as [Ha _]. unfold win32_arg. by destruct (_ <=? _)%nat. }
  apply IH; [lia| | |done].
  - intros rest. rewrite (proj2 (Nat.eqb_neq (length (_ ++ win32_arg false a)) 0)).
    + by rewrite <- !app_assoc, Hsep, win32_arg_read.
    + rewrite length_app. destruct (win32_arg false a); [done|simpl; lia].
  - rewrite Hsep. rewrite <- (app_nil_r (win32_arg false a)), win32_arg_read by done. done.
Qed.

(** ** Positions *)

Lemma InsertArg_loop_spec arg l : ∀ pos i out,
  (i ≤ pos)%Z → (pos - i ≤ Z.of_nat (length l))%Z →
  InsertArg_loop l arg pos i out
  = out ++ take (Z.to_nat (pos - i)) l ++ [arg] ++ drop (Z.to_nat (pos - i)) l.
Proof.
  assert (Hpast : ∀ l pos i out, (pos < i)%Z → InsertArg_loop l arg pos i out = out ++ l).
  { clear l. induction l as [|a l IH]; intros pos i out Hi; simpl;
      destruct (Z.eqb_spec i pos); try lia; [by rewrite app_nil_r|].
    rewrite IH by lia. by rewrite <- app_assoc. }
  induction l as [|a l IH]; intros pos i out Hi Hl; simpl;
    destruct (Z.eqb_spec i pos) as [->|Hne].
  - by rewrite Z.sub_diag.
  - simpl in Hl. lia.
  - rewrite Z.sub_diag, Hpast by lia. simpl. by rewrite <- !app_assoc.
  - simpl in Hl. rewrite IH by lia.
    replace (Z.to_nat (pos - i)) with (S (Z.to_nat (pos - (i + 1)))) by lia.
    simpl. by rewrite <- app_assoc.
Qed.

Lemma GetArg_loop_spec l : ∀ i n,
  (i ≤ n)%Z → GetArg_loop l i n = l !! Z.to_nat (n - i).
Proof.
  induction l as [|a l IH]; intros i n Hi; simpl; [done|].
  destruct (Z.eqb_spec i n) as [->|]; [by rewrite Z.sub_diag|].
  rewrite IH by lia. by replace (Z.to_nat (n - i)) with (S (Z.to_nat (n - (i + 1)))) by lia.
Qed.

(** ** Composite operations *)

(** The list a reader recovers from V1 text. *)
Definition v1_recovered (l : list cstr) : list cstr :=
  if safe_args l then List.filter nonempty l else l.

Definition unixlike (a : ArgList) : Prop := v1_syntax a ≠ WIN32_ARGV1_SYNTAX.

(** [AppendArgsV1Raw] on V1 text, for a list whose syntax is not Windows. *)
Lemma AppendArgsV1Raw_words b s out em :
  unixlike b → v1_words (args_list b) s out →
  ∃ b', AppendArgsV1Raw b (Some s) em = (true, b', em) ∧ args_list b' = out.
Proof.
  unfold unixlike, AppendArgsV1Raw, AppendArgsV1Raw_unix. intros Hb (Hs & _ & _).
  destruct (v1_syntax b); [|done|]; eexists; split; done.
Qed.

Lemma AppendArgsV2Raw_join b l em :
  AppendArgsV2Raw b (Some (join_args l [] 0)) em = (true, set_args b (args_list b ++ l), em).
Proof. unfold AppendArgsV2Raw. by rewrite split_join. Qed.

Lemma V2Quoted_read b a pre post em :
  Forall (fun x => NUL ∉ x) (args_list a) →
  forallb isspace pre = true → forallb isspace post = true →
  let text := Some (pre ++ snd (GetArgsStringV2Quoted a []) ++ post) in
  IsV2QuotedString text = true ∧
  (r ← V2QuotedToV2Raw text [] em;
   let '(ok, v2, e) := r : bool * cstr * option cstr in
   if ok then Some (AppendArgsV2Raw b (Some v2) e) else Some (false, b, e))
  = Some (true, set_args b (args_list b ++ args_list a), em).
Proof.
  intros Hn Hpre Hpost text.
  assert (text = Some (pre ++ V2RawToV2Quoted (join_args (args_list a) [] 0) [] ++ post))
    as -> by done.
  destruct (V2Quoted_raw (join_args (args_list a) [] 0) pre post em) as [Hq Hr];
    [by apply join_args_NUL|done..|].
  rewrite Hr. split; [exact Hq|]. cbn [mbind option_bind]. by rewrite AppendArgsV2Raw_join.
Qed.

(** Text that starts with the marker keeps it. *)
Lemma append_arg_loop_marker arg : ∀ r, ∃ t, append_arg_loop arg (SP :: r) = SP :: t.
Proof.
  induction arg as [|c arg IH]; intros r; cbn [append_arg_loop]; [by eexists|].
  destruct (is_ws c || (c =c SQ)); [|apply (IH (r ++ [c]))].
  case_bool_decide as Hl.
  - destruct r as [|d r]; [done|].
    replace (take (length (SP :: d :: r) - 1) (SP :: d :: r)) with (SP :: take (length r) (d :: r))
      by reflexivity.
    destruct (c =c SQ); apply IH.
  - destruct (c =c SQ); apply IH.
Qed.

Lemma join_args_marker args : ∃ t, join_args args [SP] 0 = SP :: t.
Proof.
  unfold join_args.
  assert (∀ i r, ∃ t, join_args_loop args (SP :: r) 0 i = SP :: t) as H; [|apply H].
  induction args as [|a args IH]; intros i r; simpl; [by eexists|].
  destruct (i <? 0)%Z; [apply IH|]. unfold append_arg. simpl (_ =? 0)%nat. cbn iota.
  destruct (length a =? 0)%nat.
  - destruct (append_arg_loop_marker a ((r ++ [SP]) ++ [SQ; SQ])) as [t Ht].
    simpl app in *. rewrite Ht. apply IH.
  - destruct (append_arg_loop_marker a (r ++ [SP])) as [t Ht].
    simpl app in *. rewrite Ht. apply IH.
Qed.

Lemma GetArgsStringV1Raw_chars (P : ascii → Prop) l : ∀ r em,
  P SP → Forall (Forall P) l → Forall P r →
  Forall P (snd (fst (GetArgsStringV1Raw_loop l r em))).
Proof.
  induction l as [|a l IH]; intros r em HS Hl Hr; simpl; [done|].
  apply Forall_cons in Hl as [Ha Hl].
  destruct (IsSafeArgV1Value (Some a)); [|done]. apply IH; [done..|].
  destruct (length r =? 0)%nat; rewrite ?Forall_app; auto.
Qed.

(** ** Properties *)

(** C16. V2 raw round trip: splitting the string that [join_args] writes gives
    back the arguments, whatever characters they hold (quotes, white space, the
    empty argument), appended to the list that was there, and leaves the error
    message alone. *)
Theorem split_args_join_args args out em :
  split_args (Some (join_args args [] 0)) out em = (true, out ++ args, em).
Proof. apply split_join. Qed.

(** V2 quoted round trip: the text [GetArgsStringV2Quoted] produces, with
    any white space around it, is recognised as V2 by each of the three readers
    and gives back the arguments exactly. *)
Theorem V2Quoted_roundtrip a b pre post em :
  Forall (fun x => NUL ∉ x) (args_list a) →
  forallb isspace pre = true → forallb isspace post = true →
  let text := Some (pre ++ snd (GetArgsStringV2Quoted a []) ++ post) in
  let res := Some (true, set_args b (args_list b ++ args_list a), em) in
  AppendArgsV2Quoted b text em = res ∧
  AppendArgsV1RawOrV2Quoted b text em = res ∧
  AppendArgsV1WackedOrV2Quoted b text em = res.
Proof.
  intros Hn Hpre Hpost text res.
  destruct (V2Quoted_read b a pre post em) as [Hq Hr]; [done..|].
  unfold AppendArgsV2Quoted, AppendArgsV1RawOrV2Quoted, AppendArgsV1WackedOrV2Quoted.
  fold text in Hq, Hr. rewrite Hq. split_and!; exact Hr.
Qed.

Lemma V2Quoted_roundtrip_witness :
  let a := mkArgList [L "one"; L "two and"; []; L "it's"; [DQ]] false UNIX_ARGV1_SYNTAX in
  AppendArgsV2Quoted ArgList_new (Some (L "  " ++ snd (GetArgsStringV2Quoted a []) ++ L " ")) None
  = Some (true, set_args ArgList_new (args_list a), None).
Proof.
  apply (V2Quoted_roundtrip
    (mkArgList [L "one"; L "two and"; []; L "it's"; [DQ]] false UNIX_ARGV1_SYNTAX)
    ArgList_new (L "  ") (L " ") None); [|reflexivity..].
  cbv -[elem_of]. repeat constructor; set_solver.
Defined.

(** The "V1 or V2" text that goes from shadow to starter: reading it back
    gives the arguments exactly when one of them contains white space (the V2
    branch, marked by a leading space), and otherwise the non-empty ones (the
    V1 branch). *)
Theorem V1or2Raw_roundtrip a b em :
  unixlike b →
  ∃ s b', GetArgsStringV1or2Raw a [] = (true, s) ∧
    AppendArgsV1or2Raw b (Some s) em = (true, b', em) ∧
    args_list b' = args_list b ++ v1_recovered (args_list a).
Proof.
  intros Hb. unfold GetArgsStringV1or2Raw, GetArgsStringV1Raw, v1_recovered.
  destruct (safe_args (args_list a)) eqn:Hs.
  - destruct (GetArgsStringV1Raw_safe (args_list a) None (args_list b) [] (args_list b))
      as (s & -> & Hw); [apply v1_words_nil|done|].
    destruct (AppendArgsV1Raw_words b s _ em Hb Hw) as (b' & E & Hb').
    exists s, b'. split; [done|]. split; [|done].
    destruct Hw as (_ & _ & Hh). destruct s as [|c s]; [done|]. simpl in *.
    destruct (Ascii.eqb_spec c RAW_V2_ARGS_MARKER) as [->|]; done.
  - destruct (GetArgsStringV1Raw_unsafe (args_list a) None [] Hs) as (s & em' & -> & _).
    unfold GetArgsStringV2Raw. rewrite take_0.
    assert ((if (length (@nil ascii) <? length s)%nat then [] else s) = []) as ->
      by (destruct s; reflexivity).
    destruct (join_args_marker (args_list a)) as (t & Ht).
    exists (SP :: t), (set_args b (args_list b ++ args_list a)).
    change ([] ++ [RAW_V2_ARGS_MARKER]) with [SP]. rewrite Ht. split; [done|].
    change (AppendArgsV1or2Raw b (Some (SP :: t)) em) with (AppendArgsV2Raw b (Some t) em).
    unfold AppendArgsV2Raw, split_args.
    pose proof (split_join_from (args_list a) (args_list b) [SP] em (boundary_space _)) as Hj.
    rewrite Ht in Hj. change (split_args_loop t [] false None (args_list b) em
                              = (true, args_list b ++ args_list a, em)) in Hj.
    by rewrite Hj.
Qed.

Lemma V1or2Raw_roundtrip_witness :
  let a := mkArgList [L "one"; L "two and"; []] false UNIX_ARGV1_SYNTAX in
  ∃ s b', GetArgsStringV1or2Raw a [] = (true, s) ∧
    AppendArgsV1or2Raw ArgList_new (Some s) None = (true, b', None) ∧
    args_list b' = [L "one"; L "two and"; []].
Proof.
  apply (V1or2Raw_roundtrip (mkArgList [L "one"; L "two and"; []] false UNIX_ARGV1_SYNTAX)
           ArgList_new None).
  discriminate.
Defined.

(** The V1 branch loses empty arguments: two arguments written, one read. *)
Theorem V1or2Raw_drops_empty :
  let a := mkArgList [L "x"; []] false UNIX_ARGV1_SYNTAX in
  snd (GetArgsStringV1or2Raw a []) = L "x " ∧
  args_list (snd (fst (AppendArgsV1or2Raw ArgList_new (Some (L "x ")) None))) = [L "x"].
Proof. split; reflexivity. Qed.

(** The submit-file text: [GetArgsStringV1WackedOrV2Quoted] chooses V1 with
    backslash-escaped double quotes, or V2 quoted; the submit-file reader takes
    the same branch and recovers what that syntax can express. *)
Theorem V1WackedOrV2Quoted_roundtrip a b em :
  unixlike b → Forall (fun x => NUL ∉ x) (args_list a) →
  ∃ s b', GetArgsStringV1WackedOrV2Quoted a [] = (true, s) ∧
    AppendArgsV1WackedOrV2Quoted b (Some s) em = Some (true, b', em) ∧
    args_list b' = args_list b ++ v1_recovered (args_list a).
Proof.
  intros Hb Hn. unfold GetArgsStringV1WackedOrV2Quoted, GetArgsStringV1Raw, v1_recovered.
  destruct (safe_args (args_list a)) eqn:Hs.
  - destruct (GetArgsStringV1Raw_safe (args_list a) None (args_list b) [] (args_list b))
      as (s & E & Hw); [apply v1_words_nil|done|].
    assert (NUL ∉ s) as Hns.
    { pose proof (GetArgsStringV1Raw_chars (fun c => c ≠ NUL) (args_list a) [] None
        ltac:(done)) as Hc. rewrite E in Hc. apply NUL_Forall, Hc; [|done].
      eapply Forall_impl; [exact Hn|]. intros x. simpl. by rewrite NUL_Forall. }
    rewrite E. destruct (AppendArgsV1Raw_words b s _ em Hb Hw) as (b' & E' & Hb').
    exists (V1RawToV1Wacked s []), b'. split; [done|]. split; [|done].
    unfold AppendArgsV1WackedOrV2Quoted, V1WackedToV1Raw, V1RawToV1Wacked.
    simpl app. rewrite wacked_not_quoted by done.
    rewrite v1_unwack_escaped by done. cbn [mbind option_bind]. simpl ([] ++ s). by rewrite E'.
  - destruct (GetArgsStringV1Raw_unsafe (args_list a) None [] Hs) as (s & em' & -> & _).
    exists (snd (GetArgsStringV2Quoted a [])), (set_args b (args_list b ++ args_list a)).
    split; [done|]. split; [|done].
    destruct (V2Quoted_read b a [] [] em Hn eq_refl eq_refl) as [Hq Hr].
    rewrite app_nil_r, app_nil_l in Hq, Hr.
    unfold AppendArgsV1WackedOrV2Quoted. rewrite Hq. exact Hr.
Qed.

Lemma V1WackedOrV2Quoted_roundtrip_witness :
  let a := mkArgList [L "one"; [BS; DQ; DQ]; L "it's"] false UNIX_ARGV1_SYNTAX in
  ∃ s b', GetArgsStringV1WackedOrV2Quoted a [] = (true, s) ∧
    AppendArgsV1WackedOrV2Quoted ArgList_new (Some s) None = Some (true, b', None) ∧
    args_list b' = args_list a.
Proof.
  apply (V1WackedOrV2Quoted_roundtrip
    (mkArgList [L "one"; [BS; DQ; DQ]; L "it's"] false UNIX_ARGV1_SYNTAX) ArgList_new None).
  - discriminate.
  - cbv -[elem_of]. repeat constructor; set_solver.
Defined.

(** Windows command lines: the parser of the [CommandLineToArgv] format
    recovers every list of arguments that the writer can express (none empty,
    none with a line break outside a quoted argument), with any mixture of
    backslashes and quotes. *)
Theorem Win32_roundtrip a b em :
  input_was_unknown_platform_v1 a = false →
  forallb win32_expressible (args_list a) = true →
  AppendArgsV1Raw_win32 b (snd (GetArgsStringWin32 a [] 0)) em
  = (true, set_args b (args_list b ++ args_list a), em).
Proof.
  intros Hu Hl. unfold AppendArgsV1Raw_win32, GetArgsStringWin32. cbn [snd]. rewrite Hu.
  rewrite (win32_loop_read (args_list a) em (args_list b) [] (args_list b)); done.
Qed.

Lemma Win32_roundtrip_witness :
  let a := mkArgList [L "a b"; [BS; BS; DQ; SP; BS]; L "c"] false WIN32_ARGV1_SYNTAX in
  AppendArgsV1Raw_win32 ArgList_new (snd (GetArgsStringWin32 a [] 0)) None
  = (true, set_args ArgList_new (args_list a), None).
Proof.
  apply (Win32_roundtrip (mkArgList [L "a b"; [BS; BS; DQ; SP; BS]; L "c"] false WIN32_ARGV1_SYNTAX)
    ArgList_new None); reflexivity.
Defined.

(** The Windows writer also loses empty arguments. *)
Theorem Win32_drops_empty :
  let a := mkArgList [L "x"; []; L "y"] false WIN32_ARGV1_SYNTAX in
  args_list (snd (fst (AppendArgsV1Raw_win32 ArgList_new (snd (GetArgsStringWin32 a [] 0)) None)))
  = [L "x"; L "y"].
Proof. reflexivity. Qed.

(** A job ad: when [InsertArgsIntoClassAd] succeeds, [AppendArgsFromClassAd]
    reads from the new ad exactly the arguments if the V2 attribute was
    written; what V1 can express if the reader's version requires V1 and it can
    be expressed; and no arguments if the attributes were removed because it
    cannot.  It fails only when V1 is required, V1 cannot express the
    arguments, and the list came from V1 text of an unknown platform. *)
Theorem InsertArgs_AppendArgs `{JobAdLaws ad} a b (cad : ad) ver em em2 :
  unixlike b →
  let requires_v1 := match ver with
    | Some v => CondorVersionRequiresV1 v | None => input_was_unknown_platform_v1 a end in
  let '(ok, cad', _) := InsertArgsIntoClassAd a cad ver em in
  ok = negb (requires_v1 && negb (safe_args (args_list a)) && input_was_unknown_platform_v1 a) ∧
  (ok = true → ∃ b', AppendArgsFromClassAd b cad' em2 = (true, b', em2) ∧
     args_list b' = args_list b ++
       if requires_v1 then
         if safe_args (args_list a) then List.filter nonempty (args_list a) else []
       else args_list a).
Proof.
  intros Hb requires_v1. unfold InsertArgsIntoClassAd. fold requires_v1.
  unfold AppendArgsFromClassAd.
  destruct requires_v1 eqn:Hreq; cbn [negb andb].
  - assert (Hdel : LookupString (if LookupExpr cad ATTR_JOB_ARGUMENTS2
              then Delete cad ATTR_JOB_ARGUMENTS2 else cad) ATTR_JOB_ARGUMENTS2 = None).
    { destruct (LookupExpr cad ATTR_JOB_ARGUMENTS2) eqn:E; [by ad_simpl|].
      by apply LookupString_absent. }
    unfold GetArgsStringV1Raw. destruct (safe_args (args_list a)) eqn:Hs; cbn [negb andb].
    + destruct (GetArgsStringV1Raw_safe (args_list a) em (args_list b) [] (args_list b))
        as (s & -> & Hw); [apply v1_words_nil|done|].
      split; [done|]. intros _. rewrite LookupString_Assign_ne by attr_ne. rewrite Hdel.
      ad_simpl. by apply AppendArgsV1Raw_words.
    + destruct (GetArgsStringV1Raw_unsafe (args_list a) em [] Hs) as (s & em' & -> & _).
      destruct (input_was_unknown_platform_v1 a) eqn:Hu; rewrite ?andb_false_r, ?andb_true_r.
      { by split. }
      destruct ver as [v|]; [|unfold requires_v1 in Hreq; congruence].
      split; [done|]. intros _. ad_simpl. exists b. by rewrite app_nil_r.
  - split; [done|]. intros _. exists (set_args b (args_list b ++ args_list a)). split; [|done].
    assert (∀ c : ad, LookupString (if LookupExpr cad ATTR_JOB_ARGUMENTS1
              then Delete c ATTR_JOB_ARGUMENTS1 else c) ATTR_JOB_ARGUMENTS2
              = LookupString c ATTR_JOB_ARGUMENTS2) as Hx.
    { intros c. destruct (LookupExpr cad ATTR_JOB_ARGUMENTS1); by ad_simpl. }
    rewrite Hx. unfold GetArgsStringV2Raw. ad_simpl. apply AppendArgsV2Raw_join.
Qed.

Lemma InsertArgs_AppendArgs_witness :
  let a := mkArgList [L "one"; L "two and"] false UNIX_ARGV1_SYNTAX in
  let '(ok, cad', _) := InsertArgsIntoClassAd a (∅ : map_ad) None None in
  ok = true ∧
  (ok = true → ∃ b', AppendArgsFromClassAd ArgList_new cad' None = (true, b', None) ∧
     args_list b' = args_list a).
Proof.
  apply (InsertArgs_AppendArgs (mkArgList [L "one"; L "two and"] false UNIX_ARGV1_SYNTAX)
           ArgList_new (∅ : map_ad) None None None).
  discriminate.
Defined.

(** [InsertArg] at a position in range puts the argument there and shifts
    the rest, [GetArg] reads it back, and [RemoveArg] at the same position
    restores the list; out of range the ASSERT fires. *)
Theorem InsertArg_RemoveArg a arg pos :
  (if (0 <=? pos)%Z && (pos <=? Count a)%Z then
     ∃ b, InsertArg a arg pos = Some b ∧ Count b = (Count a + 1)%Z ∧
       (∀ n, GetArg b n = if (n <? pos)%Z then GetArg a n
                          else if (n =? pos)%Z then Some arg else GetArg a (n - 1)) ∧
       RemoveArg b pos = Some a
   else InsertArg a arg pos = None).
Proof.
  unfold InsertArg. destruct (_ && _) eqn:E; [|done]. split_bools.
  apply Z.leb_le in H, H0. unfold Count in H0.
  rewrite InsertArg_loop_spec, Z.sub_0_r by lia.
  set (n0 := Z.to_nat pos). set (l := args_list a) in *.
  assert (n0 ≤ length l)%nat by lia. simpl app.
  eexists; split; [done|]. unfold Count. cbn [args_list set_args].
  assert (Hlen : length (take n0 l ++ arg :: drop n0 l) = S (length l)).
  { rewrite length_app, length_cons, length_take, length_drop. lia. }
  split; [rewrite Hlen; fold l; lia|]. split.
  - intros n. unfold GetArg. cbn [args_list set_args]. fold l.
    destruct (Z.lt_ge_cases n 0) as [Hn|Hn].
    { assert (∀ k i, (n < i)%Z → GetArg_loop k i n = None) as Hneg.
      { induction k as [|x k IHk]; intros i Hi; simpl; [done|].
        destruct (Z.eqb_spec i n); [lia|]. apply IHk. lia. }
      rewrite !Hneg by lia. by destruct (Z.ltb_spec n pos); [|lia]. }
    rewrite !GetArg_loop_spec, !Z.sub_0_r by lia.
    destruct (Z.ltb_spec n pos).
    { rewrite lookup_app_l by (rewrite length_take; lia). by rewrite lookup_take_lt by lia. }
    rewrite lookup_app_r by (rewrite length_take; lia).
    rewrite length_take, Nat.min_l by lia.
    destruct (Z.eqb_spec n pos) as [->|].
    { by replace (Z.to_nat pos - n0)%nat with 0%nat by lia. }
    rewrite GetArg_loop_spec, Z.sub_0_r by lia.
    replace (Z.to_nat n - n0)%nat with (S (Z.to_nat (n - 1) - n0)) by lia. simpl.
    rewrite lookup_drop. f_equal. lia.
  - unfold RemoveArg, Count. cbn [args_list set_args]. rewrite Hlen.
    rewrite (proj2 (Z.leb_le 0 pos)), (proj2 (Z.ltb_lt pos _)) by lia. simpl. fold n0.
    rewrite take_app_le by (rewrite length_take; lia).
    rewrite take_take, Nat.min_id.
    rewrite drop_app_ge by (rewrite length_take; lia).
    rewrite length_take, Nat.min_l by lia.
    replace (S n0 - n0)%nat with 1%nat by lia.
    change (drop 1 (arg :: drop n0 l)) with (drop n0 l). rewrite take_drop.
    unfold set_args. by destruct a.
Qed.

