(* ===== verification/HashTable.v ===== *)
(** * HashTable

    The chained hash table of [condor_utils/HashTable.h], with the iteration
    cursor ([currentBucket], [currentItem]) and the registered iterator
    objects.  A bucket node has an address, so that the cursor and the iterators
    are pointers into the chains, as in the source, and stay valid when other
    nodes are inserted or removed.  The hash function is a parameter, as it is
    for the class. *)
From stdpp Require Import base list strings gmap.
From Stdlib Require Import ZArith Lia Ascii.
From S2P Require Import Prelude.

Inductive duplicateKeyBehavior_t := allowDuplicateKeys | rejectDuplicateKeys | updateDuplicateKeys.

#[export] Instance duplicateKeyBehavior_eq_dec : EqDecision duplicateKeyBehavior_t.
Proof. solve_decision. Defined.

Section HashTable.
Context {K V : Type} `{Countable K}.
Variable hashfcn : K → Z.

(** A node; [addr] stands for its address. *)
Record HashBucket := mkBucket { addr : nat; index : K; value : V }.

(** A registered [HashIterator]: its identity, [m_idx] and [m_cur]. *)
Record HashIterator := mkIter { it_id : nat; m_idx : Z; m_cur : option nat }.

(** [next_addr] is the allocator: every node gets a fresh address. *)
Record HashTable := mkHT {
  tableSize : nat;
  numElems : Z;
  ht : list (list HashBucket);
  duplicateKeyBehavior : duplicateKeyBehavior_t;
  currentBucket : Z;
  currentItem : option nat;
  activeIterators : list HashIterator;
  next_addr : nat;
}.

Definition initialize (behavior : duplicateKeyBehavior_t) : HashTable :=
  mkHT 7 0 (replicate 7 []) behavior (-1) None [] 0.

(** [(int)(hashfcn(index) % tableSize)] *)
Definition slot (size : nat) (k : K) : nat := Z.to_nat (hashfcn k `mod` Z.of_nat size).

(** The chain walk of [lookup], [exists] and [insert]. *)
Fixpoint chain_find (k : K) (c : list HashBucket) : option HashBucket :=
  match c with
  | [] => None
  | b :: c => if decide (index b = k) then Some b else chain_find k c
  end.

(** The bucket array at an index. *)
Definition chain (t : HashTable) (i : nat) : list HashBucket := default [] (ht t !! i).

Definition ht_lookup (t : HashTable) (k : K) : option V :=
  if (numElems t =? 0)%Z then None
  else value <$> chain_find k (chain t (slot (tableSize t) k)).

Definition ht_exists (t : HashTable) (k : K) : Z :=
  if (numElems t =? 0)%Z then (-1)%Z
  else match chain_find k (chain t (slot (tableSize t) k)) with Some _ => 0%Z | None => (-1)%Z end.

(** [maxLoadFactor] is 0.8.  The quotient of two [int]s is at least the double
    0.8 exactly when it is at least 4/5: it is correctly rounded, and otherwise
    differs from 4/5 by more than 2{^-34}. *)
Definition needs_resizing (t : HashTable) : bool :=
  if (length (activeIterators t) =? 0)%nat
  then (4 * Z.of_nat (tableSize t) <=? 5 * numElems t)%Z
  else false.

(** Move one node to the front of its chain in the new array. *)
Definition rehash (newsize : nat) (htcopy : list (list HashBucket)) (b : HashBucket) :=
  alter (cons b) (slot newsize (index b)) htcopy.

Definition resize_hash_table (t : HashTable) (newsize : Z) : HashTable :=
  let newsize := if (newsize <=? 0)%Z then ((tableSize t + 1) * 2 - 1)%nat else Z.to_nat newsize in
  mkHT newsize (numElems t)
    (foldl (rehash newsize) (replicate newsize []) (concat (ht t)))
    (duplicateKeyBehavior t) (-1) None (activeIterators t) (next_addr t).

Definition addItem (t : HashTable) (k : K) (v : V) : HashTable :=
  let t := mkHT (tableSize t) (numElems t + 1)
    (alter (cons (mkBucket (next_addr t) k v)) (slot (tableSize t) k) (ht t))
    (duplicateKeyBehavior t) (currentBucket t) (currentItem t) (activeIterators t)
    (S (next_addr t)) in
  if needs_resizing t then resize_hash_table t (-1) else t.

Fixpoint chain_update (k : K) (v : V) (c : list HashBucket) : list HashBucket :=
  match c with
  | [] => []
  | b :: c => if decide (index b = k) then mkBucket (addr b) (index b) v :: c
              else b :: chain_update k v c
  end.

Definition ht_insert (t : HashTable) (k : K) (v : V) : Z * HashTable :=
  let idx := slot (tableSize t) k in
  match duplicateKeyBehavior t, chain_find k (chain t idx) with
  | rejectDuplicateKeys, Some _ => ((-1)%Z, t)
  | updateDuplicateKeys, Some _ =>
      (0%Z, mkHT (tableSize t) (numElems t) (alter (chain_update k v) idx (ht t))
              (duplicateKeyBehavior t) (currentBucket t) (currentItem t)
              (activeIterators t) (next_addr t))
  | _, _ => (0%Z, addItem t k v)
  end.

(** The first node at or after bucket [i] of [bs], with its bucket. *)
Fixpoint first_from (bs : list (list HashBucket)) (i : Z) : option (Z * HashBucket) :=
  match bs with
  | [] => None
  | (b :: _) :: _ => Some (i, b)
  | [] :: bs => first_from bs (i + 1)
  end.

(** [m_cur->next]: the node after address [a] in its chain. *)
Fixpoint next_in_chain (a : nat) (c : list HashBucket) : option HashBucket :=
  match c with
  | b :: c => if (addr b =? a)%nat then head c else next_in_chain a c
  | [] => None
  end.

Definition next_of (bs : list (list HashBucket)) (a : nat) : option HashBucket :=
  head (omap (next_in_chain a) bs).

(** [HashIterator::advance], given what [m_cur->next] is. *)
Definition advance_to (bs : list (list HashBucket)) (it : HashIterator)
    (next : option HashBucket) : HashIterator :=
  if (m_idx it =? -1)%Z then it else
  match next with
  | Some b => mkIter (it_id it) (m_idx it) (Some (addr b))
  | None =>
      match first_from (drop (Z.to_nat (m_idx it + 1)) bs) (m_idx it + 1) with
      | Some (i, b) => mkIter (it_id it) i (Some (addr b))
      | None => mkIter (it_id it) (-1) None
      end
  end.

Definition advance (t : HashTable) (it : HashIterator) : HashIterator :=
  advance_to (ht t) it (m_cur it ≫= next_of (ht t)).

(** Split a chain at the first node with the key. *)
Fixpoint chain_split (k : K) (c : list HashBucket)
    : option (list HashBucket * HashBucket * list HashBucket) :=
  match c with
  | [] => None
  | b :: c =>
      if decide (index b = k) then Some ([], b, c)
      else '(p, x, r) ← chain_split k c; Some (b :: p, x, r)
  end.

Definition ht_remove (t : HashTable) (k : K) : Z * HashTable :=
  let idx := slot (tableSize t) k in
  match chain_split k (chain t idx) with
  | None => ((-1)%Z, t)
  | Some (before, bucket, after) =>
      let ht' := <[idx := before ++ after]> (ht t) in
      let is_current := bool_decide (currentItem t = Some (addr bucket)) in
      let '(cb, ci) :=
        match last before with
        | None =>  (* bucket == ht[idx] *)
            if is_current
            then ((if currentBucket t - 1 <? 0 then 0 else currentBucket t - 1)%Z, None)
            else (currentBucket t, currentItem t)
        | Some prevBuc =>
            if is_current then (currentBucket t, Some (addr prevBuc))
            else (currentBucket t, currentItem t)
        end in
      let its := (fun it => if bool_decide (m_cur it = Some (addr bucket))
                            then advance_to ht' it (head after) else it)
                 <$> activeIterators t in
      (0%Z, mkHT (tableSize t) (numElems t - 1) ht' (duplicateKeyBehavior t) cb ci its (next_addr t))
  end.

Definition ht_clear (t : HashTable) : HashTable :=
  mkHT (tableSize t) 0 (replicate (length (ht t)) []) (duplicateKeyBehavior t)
    (currentBucket t) (currentItem t)
    ((fun it => mkIter (it_id it) (-1) None) <$> activeIterators t) (next_addr t).

(** ** The cursor *)

Definition set_cursor (t : HashTable) (cb : Z) (ci : option nat) : HashTable :=
  mkHT (tableSize t) (numElems t) (ht t) (duplicateKeyBehavior t) cb ci
    (activeIterators t) (next_addr t).

Definition startIterations (t : HashTable) : HashTable := set_cursor t (-1) None.

(** The node an address points to. *)
Definition node_at (bs : list (list HashBucket)) (a : nat) : option HashBucket :=
  List.find (fun b => addr b =? a)%nat (concat bs).

Definition getCurrentKey (t : HashTable) : option K :=
  index <$> (currentItem t ≫= node_at (ht t)).

(** [iterate(index, v)]: [None] is the return value 0. *)
Definition iterate (t : HashTable) : option (K * V) * HashTable :=
  match currentItem t ≫= next_of (ht t) with
  | Some b => (Some (index b, value b), set_cursor t (currentBucket t) (Some (addr b)))
  | None =>
      match first_from (drop (Z.to_nat (currentBucket t + 1)) (ht t)) (currentBucket t + 1) with
      | Some (i, b) => (Some (index b, value b), set_cursor t i (Some (addr b)))
      | None => (None, set_cursor t (-1) None)
      end
  end.

(** A client's loop [startIterations(); while (iterate(k, v)) ...]. *)
Fixpoint iterate_all (fuel : nat) (t : HashTable) : list (K * V) * HashTable :=
  match fuel with
  | O => ([], t)
  | S fuel =>
      match iterate t with
      | (None, t) => ([], t)
      | (Some kv, t) => let '(l, t) := iterate_all fuel t in (kv :: l, t)
      end
  end.

(** [walk]: stops at the first value for which the function returns 0. *)
Fixpoint walk_list (f : V → Z) (l : list HashBucket) : Z :=
  match l with
  | [] => 1%Z
  | b :: l => if (f (value b) =? 0)%Z then 0%Z else walk_list f l
  end.
Definition walk (t : HashTable) (f : V → Z) : Z := walk_list f (concat (ht t)).

(** ** Iterator objects *)

Definition set_iterators (t : HashTable) (its : list HashIterator) : HashTable :=
  mkHT (tableSize t) (numElems t) (ht t) (duplicateKeyBehavior t) (currentBucket t)
    (currentItem t) its (next_addr t).

Definition register_iterator (t : HashTable) (it : HashIterator) : HashTable :=
  set_iterators t (activeIterators t ++ [it]).

(** [begin()]: the constructor with [idx = 0]. *)
Definition begin_ (t : HashTable) (id : nat) : HashIterator * HashTable :=
  let it := match first_from (ht t) 0 with
            | Some (i, b) => mkIter id i (Some (addr b))
            | None => mkIter id (-1) None
            end in
  (it, register_iterator t it).

(** The destructor. *)
Fixpoint erase_iterator (id : nat) (l : list HashIterator) : list HashIterator :=
  match l with
  | [] => []
  | it :: l => if (it_id it =? id)%nat then l else it :: erase_iterator id l
  end.
Definition remove_iterator (t : HashTable) (id : nat) : HashTable :=
  let t := set_iterators t (erase_iterator id (activeIterators t)) in
  if needs_resizing t then resize_hash_table t (-1) else t.

(** ** Abstraction and invariant *)

Definition entry (b : HashBucket) : K * V := (index b, value b).

(** The entries in the order of the array, and the map they denote: of two
    entries with one key, the first in its chain counts. *)
Definition entries (t : HashTable) : list (K * V) := entry <$> concat (ht t).
Definition to_map (t : HashTable) : gmap K V := list_to_map (entries t).

Record wf (t : HashTable) : Prop := mkwf {
  wf_length : length (ht t) = tableSize t;
  wf_size : 0 < tableSize t;
  wf_num : numElems t = Z.of_nat (length (concat (ht t)));
  wf_slot : ∀ i c b, ht t !! i = Some c → b ∈ c → slot (tableSize t) (index b) = i;
  wf_addr : NoDup (addr <$> concat (ht t));
  wf_next : ∀ b, b ∈ concat (ht t) → addr b < next_addr t;
  wf_keys : duplicateKeyBehavior t ≠ allowDuplicateKeys → NoDup (index <$> concat (ht t));
}.

Lemma slot_lt size k : 0 < size → slot size k < size.
Proof.
  intros Hs. unfold slot. pose proof (Z.mod_pos_bound (hashfcn k) (Z.of_nat size)). lia.
Qed.

Lemma wf_chain t i : wf t → i < tableSize t → ht t !! i = Some (chain t i).
Proof.
  intros Hwf Hi. unfold chain. destruct (ht t !! i) eqn:E; [done|].
  apply lookup_ge_None in E. rewrite (wf_length t Hwf) in E. lia.
Qed.

(** An array is what precedes a bucket, the bucket, and what follows. *)
Lemma concat_split {A} (l : list (list A)) i c :
  l !! i = Some c → concat l = concat (take i l) ++ c ++ concat (drop (S i) l).
Proof.
  intros Hc. rewrite <- (take_drop_middle l i c Hc) at 1. by rewrite concat_app.
Qed.

Lemma concat_insert {A} (l : list (list A)) i c :
  i < length l → concat (<[i := c]> l) = concat (take i l) ++ c ++ concat (drop (S i) l).
Proof. intros Hi. rewrite insert_take_drop by done. by rewrite concat_app. Qed.

Lemma alter_insert {A} (f : A → A) (l : list A) i c :
  l !! i = Some c → alter f i l = <[i := f c]> l.
Proof.
  intros Hc. apply list_eq. intros j. destruct (decide (i = j)) as [->|Hne].
  - rewrite list_lookup_alter_eq, Hc, list_lookup_insert_eq; [done|].
    by apply lookup_lt_Some in Hc.
  - by rewrite list_lookup_alter_ne, list_lookup_insert_ne by done.
Qed.

Lemma concat_alter_cons {A} (l : list (list A)) i (b : A) :
  i < length l → concat (alter (cons b) i l) ≡ₚ b :: concat l.
Proof.
  intros Hi. destruct (lookup_lt_is_Some_2 l i Hi) as [c Hc].
  rewrite (alter_insert (cons b) l i c Hc), concat_insert by done.
  rewrite (concat_split l i c Hc). simpl. by rewrite <- Permutation_middle.
Qed.

(** ** Lookup *)

Lemma chain_find_app k c d :
  chain_find k (c ++ d) = match chain_find k c with Some b => Some b | None => chain_find k d end.
Proof. induction c; simpl; [done|]. by case_decide. Qed.

Lemma chain_find_None k c : chain_find k c = None ↔ k ∉ index <$> c.
Proof.
  induction c as [|b c IH]; simpl; [set_solver|]. case_decide; set_solver.
Qed.

Lemma chain_find_Some k c b : chain_find k c = Some b → b ∈ c ∧ index b = k.
Proof.
  induction c as [|b' c IH]; simpl; [done|]. case_decide; [intros [= <-]; set_solver|].
  intros ?%IH. set_solver.
Qed.

Lemma list_to_map_find (c : list HashBucket) k :
  (list_to_map (entry <$> c) : gmap K V) !! k = value <$> chain_find k c.
Proof.
  induction c as [|b c IH]; simpl; [apply lookup_empty|].
  rewrite lookup_insert. case_decide; [done|]. exact IH.
Qed.

Lemma other_chains (l : list (list HashBucket)) k :
  (∀ c, c ∈ l → k ∉ index <$> c) → chain_find k (concat l) = None.
Proof.
  induction l as [|c l IH]; intros Hl; simpl; [done|].
  rewrite chain_find_app, (proj2 (chain_find_None k c)) by set_solver. apply IH. set_solver.
Qed.

(** A key is only in the chain of its slot. *)
Lemma chain_find_concat t k :
  wf t → chain_find k (concat (ht t)) = chain_find k (chain t (slot (tableSize t) k)).
Proof.
  intros Hwf. set (i := slot (tableSize t) k).
  assert (Hi : i < tableSize t) by (apply slot_lt, Hwf).
  pose proof (wf_chain t i Hwf Hi) as Hc.
  assert (Hother : ∀ j c, ht t !! j = Some c → j ≠ i → k ∉ index <$> c).
  { intros j c Hj Hne (b & -> & Hb)%list_elem_of_fmap. apply Hne.
    symmetry. by apply (wf_slot t Hwf j c b). }
  rewrite (concat_split _ _ _ Hc), !chain_find_app.
  rewrite other_chains.
  - destruct (chain_find k (chain t i)); [done|]. apply other_chains.
    intros c (j & Hj)%list_elem_of_lookup. rewrite lookup_drop in Hj.
    eapply Hother; [exact Hj|lia].
  - intros c (j & Hj)%list_elem_of_lookup. apply lookup_take_Some in Hj as [Hj ?].
    eapply Hother; [exact Hj|lia].
Qed.

Lemma to_map_find t k : to_map t !! k = value <$> chain_find k (concat (ht t)).
Proof. apply list_to_map_find. Qed.

Lemma ht_lookup_to_map t k : wf t → ht_lookup t k = to_map t !! k.
Proof.
  intros Hwf. rewrite to_map_find, chain_find_concat by done. unfold ht_lookup.
  destruct (Z.eqb_spec (numElems t) 0) as [E|]; [|done].
  rewrite (wf_num t Hwf) in E. destruct (concat (ht t)) as [|] eqn:Ec; [|simpl in E; lia].
  by rewrite <- chain_find_concat, Ec.
Qed.

(** Tables with the same entries up to order, and distinct keys, denote the
    same map. *)
Lemma to_map_perm t t' :
  NoDup (index <$> concat (ht t)) → concat (ht t') ≡ₚ concat (ht t) → to_map t' = to_map t.
Proof.
  intros Hnd Hp. unfold to_map, entries. apply list_to_map_proper.
  - rewrite <- list_fmap_compose. change (fst ∘ entry) with index. by rewrite Hp.
  - by rewrite Hp.
Qed.

(** ** Resizing *)

Lemma rehash_all newsize l : ∀ h,
  length h = newsize → 0 < newsize →
  (∀ i c b, h !! i = Some c → b ∈ c → slot newsize (index b) = i) →
  let h' := foldl (rehash newsize) h l in
  length h' = newsize ∧ concat h' ≡ₚ l ++ concat h ∧
  (∀ i c b, h' !! i = Some c → b ∈ c → slot newsize (index b) = i).
Proof.
  induction l as [|b l IH]; intros h Hl Hn Hs; simpl; [done|].
  pose proof (slot_lt newsize (index b) Hn) as Hi.
  destruct (IH (rehash newsize h b)) as (IH1 & IH2 & IH3).
  - unfold rehash. by rewrite length_alter.
  - done.
  - unfold rehash. intros i c b' Hc Hb'.
    destruct (decide (slot newsize (index b) = i)) as [<-|Hne].
    + rewrite list_lookup_alter_eq in Hc. apply fmap_Some in Hc as (c' & Hc' & ->).
      apply elem_of_cons in Hb' as [->|Hb']; [done|]. by apply (Hs _ c').
    + rewrite list_lookup_alter_ne in Hc by done. by apply (Hs i c).
  - split; [done|]. split; [|done]. rewrite IH2. unfold rehash.
    rewrite concat_alter_cons by lia. by rewrite Permutation_middle.
Qed.

Lemma concat_replicate_nil {A} n : concat (replicate n (@nil A)) = [].
Proof. by induction n. Qed.

Lemma resize_spec t newsize :
  wf t → wf (resize_hash_table t newsize) ∧
         concat (ht (resize_hash_table t newsize)) ≡ₚ concat (ht t).
Proof.
  intros Hwf. unfold resize_hash_table.
  set (n := if (newsize <=? 0)%Z then _ else _).
  assert (Hn : 0 < n).
  { unfold n. destruct (Z.leb_spec newsize 0); lia. }
  destruct (rehash_all n (concat (ht t)) (replicate n [])) as (H1 & H2 & H3).
  - apply length_replicate.
  - done.
  - intros i c b Hc Hb. apply lookup_replicate in Hc as [-> _]. set_solver.
  - rewrite concat_replicate_nil, app_nil_r in H2. split; [|done].
    destruct Hwf. split; simpl; try done.
    + by rewrite H2.
    + by rewrite H2.
    + intros b. rewrite H2. auto.
    + intros Hd. rewrite H2. auto.
Qed.

Lemma resize_to_map t newsize :
  wf t → NoDup (index <$> concat (ht t)) → to_map (resize_hash_table t newsize) = to_map t.
Proof. intros Hwf Hnd. by apply to_map_perm, resize_spec. Qed.

(** ** Insertion *)

(** The table with the node added, before the load factor is looked at. *)
Definition add_node (t : HashTable) (k : K) (v : V) : HashTable :=
  mkHT (tableSize t) (numElems t + 1)
    (alter (cons (mkBucket (next_addr t) k v)) (slot (tableSize t) k) (ht t))
    (duplicateKeyBehavior t) (currentBucket t) (currentItem t) (activeIterators t)
    (S (next_addr t)).

Lemma add_node_perm t k v :
  wf t → concat (ht (add_node t k v)) ≡ₚ mkBucket (next_addr t) k v :: concat (ht t).
Proof.
  intros Hwf. apply concat_alter_cons. rewrite (wf_length t Hwf). apply slot_lt, Hwf.
Qed.

Lemma add_node_wf t k v :
  wf t → (duplicateKeyBehavior t ≠ allowDuplicateKeys → k ∉ index <$> concat (ht t)) →
  wf (add_node t k v).
Proof.
  intros Hwf Hk. pose proof (add_node_perm t k v Hwf) as Hp.
  destruct Hwf as [Hl Hs Hn Hsl Ha Hx Hkeys]. split; cbn [ht tableSize numElems add_node
    duplicateKeyBehavior next_addr] in *; fold (add_node t k v) in *.
  - by rewrite length_alter.
  - done.
  - rewrite (Permutation_length Hp). simpl. lia.
  - intros i c b Hc Hb. destruct (decide (slot (tableSize t) k = i)) as [<-|Hne].
    + rewrite list_lookup_alter_eq in Hc. apply fmap_Some in Hc as (c' & Hc' & ->).
      apply elem_of_cons in Hb as [->|Hb]; [done|]. by apply (Hsl _ c').
    + rewrite list_lookup_alter_ne in Hc by done. by apply (Hsl i c).
  - rewrite Hp. simpl. apply NoDup_cons. split; [|done].
    intros (b & Hb & ?%Hx)%list_elem_of_fmap. lia.
  - intros b. rewrite Hp. intros [->|Hb%Hx]%elem_of_cons; simpl; lia.
  - intros Hd. rewrite Hp. simpl. apply NoDup_cons. auto.
Qed.

Lemma add_node_to_map t k v :
  wf t → NoDup (index <$> concat (ht t)) → k ∉ index <$> concat (ht t) →
  to_map (add_node t k v) = <[k := v]> (to_map t).
Proof.
  intros Hwf Hnd Hk. unfold to_map, entries.
  transitivity (list_to_map (entry <$> mkBucket (next_addr t) k v :: concat (ht t)) : gmap K V).
  - pose proof (add_node_perm t k v Hwf) as Hp. apply list_to_map_proper.
    + rewrite <- list_fmap_compose. change (fst ∘ entry) with index. rewrite Hp.
      simpl. apply NoDup_cons. auto.
    + by rewrite Hp.
  - done.
Qed.

Lemma addItem_spec t k v :
  wf t → k ∉ index <$> concat (ht t) → NoDup (index <$> concat (ht t)) →
  wf (addItem t k v) ∧ to_map (addItem t k v) = <[k := v]> (to_map t).
Proof.
  intros Hwf Hk Hnd. unfold addItem. fold (add_node t k v).
  assert (Hw : wf (add_node t k v)) by (apply add_node_wf; auto).
  destruct (needs_resizing (add_node t k v)); [|split; [done|by apply add_node_to_map]].
  split; [by apply resize_spec|]. rewrite resize_to_map; [by apply add_node_to_map|done|].
  rewrite (add_node_perm t k v Hwf). simpl. by apply NoDup_cons.
Qed.

Lemma chain_update_index k v c : index <$> chain_update k v c = index <$> c.
Proof. induction c as [|b c IH]; csimpl; [done|]. case_decide; csimpl; [done|by rewrite IH]. Qed.

Lemma chain_update_addr k v c : addr <$> chain_update k v c = addr <$> c.
Proof. induction c as [|b c IH]; csimpl; [done|]. case_decide; csimpl; [done|by rewrite IH]. Qed.

Lemma chain_update_find k v c k' :
  is_Some (chain_find k c) →
  value <$> chain_find k' (chain_update k v c)
  = if decide (k = k') then Some v else value <$> chain_find k' c.
Proof.
  induction c as [|b c IH]; simpl; [by intros [? ?]|].
  intros Hs. destruct (decide (index b = k)) as [E|E], (decide (k = k')), (decide (index b = k'));
    try congruence; cbn [chain_find]; rewrite ?decide_True, ?decide_False by done; auto.
Qed.

Definition update_node (t : HashTable) (k : K) (v : V) : HashTable :=
  mkHT (tableSize t) (numElems t) (alter (chain_update k v) (slot (tableSize t) k) (ht t))
    (duplicateKeyBehavior t) (currentBucket t) (currentItem t) (activeIterators t) (next_addr t).

Lemma update_node_fmap {A} (f : HashBucket → A) t k v :
  wf t → (∀ c, f <$> chain_update k v c = f <$> c) →
  f <$> concat (ht (update_node t k v)) = f <$> concat (ht t).
Proof.
  intros Hwf Hf. pose proof (slot_lt (tableSize t) k (wf_size t Hwf)) as Hi.
  pose proof (wf_chain t _ Hwf Hi) as Hc. simpl.
  rewrite (alter_insert _ _ _ _ Hc), concat_insert by (by rewrite (wf_length t Hwf)).
  rewrite (concat_split _ _ _ Hc). by rewrite !fmap_app, Hf.
Qed.

Lemma update_node_wf t k v : wf t → wf (update_node t k v).
Proof.
  intros Hwf. pose proof (update_node_fmap index t k v Hwf (chain_update_index k v)) as HI.
  pose proof (update_node_fmap addr t k v Hwf (chain_update_addr k v)) as HA.
  destruct Hwf as [Hl Hs Hn Hsl Ha Hx Hkeys].
  split; cbn [tableSize numElems duplicateKeyBehavior next_addr update_node] in *;
    fold (update_node t k v).
  - simpl. by rewrite length_alter.
  - done.
  - rewrite Hn. f_equal. rewrite <- (length_fmap index (concat (ht t))), <- HI. by rewrite length_fmap.
  - intros i c b Hc Hb. destruct (decide (slot (tableSize t) k = i)) as [<-|Hne].
    + simpl in Hc. rewrite list_lookup_alter_eq in Hc. apply fmap_Some in Hc as (c' & Hc' & ->).
      assert (index b ∈ index <$> c') as (b' & -> & Hb')%list_elem_of_fmap.
      { rewrite <- (chain_update_index k v c'). apply list_elem_of_fmap. eauto. }
      by apply (Hsl _ c').
    + simpl in Hc. rewrite list_lookup_alter_ne in Hc by done. by apply (Hsl i c).
  - by rewrite HA.
  - intros b Hb.
    assert (addr b ∈ addr <$> concat (ht t)) as (b' & -> & Hb')%list_elem_of_fmap; [|auto].
    rewrite <- HA. apply list_elem_of_fmap. eauto.
  - intros Hd. rewrite HI. auto.
Qed.

Lemma update_node_to_map t k v :
  wf t → is_Some (chain_find k (chain t (slot (tableSize t) k))) →
  to_map (update_node t k v) = <[k := v]> (to_map t).
Proof.
  intros Hwf Hs. apply map_eq. intros k'.
  rewrite lookup_insert, !to_map_find.
  rewrite !chain_find_concat by auto using update_node_wf.
  pose proof (slot_lt (tableSize t) k (wf_size t Hwf)) as Hi.
  pose proof (wf_chain t _ Hwf Hi) as Hc.
  unfold chain at 1. simpl. destruct (decide (slot (tableSize t) k = slot (tableSize t) k')) as [E|E].
  - rewrite <- E. rewrite list_lookup_alter_eq, Hc. simpl. by apply chain_update_find.
  - rewrite list_lookup_alter_ne by done. rewrite decide_False by congruence. done.
Qed.

(** ** Removal *)

Lemma chain_split_Some k c p b r :
  chain_split k c = Some (p, b, r) → c = p ++ b :: r ∧ index b = k.
Proof.
  revert p. induction c as [|b' c IH]; simpl; intros p; [done|].
  case_decide; [by intros [= <- <- <-]|].
  destruct (chain_split k c) as [[[p' x] r']|]; [|done]. simpl.
  intros [= <- <- <-]. by destruct (IH p' eq_refl) as [-> ?].
Qed.

Lemma chain_split_None k c : chain_split k c = None ↔ chain_find k c = None.
Proof.
  induction c as [|b c IH]; simpl; [done|]. case_decide; [done|].
  rewrite <- IH. by destruct (chain_split k c) as [[[??]?]|].
Qed.

(** What [ht_remove] leaves when it finds the key. *)
Lemma ht_remove_found t k p b r :
  wf t → chain_split k (chain t (slot (tableSize t) k)) = Some (p, b, r) →
  let t' := snd (ht_remove t k) in
  fst (ht_remove t k) = 0%Z ∧ wf t' ∧ concat (ht t) ≡ₚ b :: concat (ht t') ∧ index b = k.
Proof.
  intros Hwf E. pose proof (slot_lt (tableSize t) k (wf_size t Hwf)) as Hi.
  pose proof (wf_chain t _ Hwf Hi) as Hc.
  destruct (chain_split_Some _ _ _ _ _ E) as [Ec Hk]. set (i := slot (tableSize t) k) in *.
  assert (Hp : concat (ht t) ≡ₚ b :: concat (<[i := p ++ r]> (ht t))).
  { rewrite (concat_split _ _ _ Hc), concat_insert by (by rewrite (wf_length t Hwf)).
    rewrite Ec. rewrite <- !app_assoc. simpl. by rewrite <- !Permutation_middle. }
  unfold ht_remove. fold i. rewrite E. simpl.
  destruct (match last p with Some _ => _ | None => _ end) as [cb ci]. simpl.
  split; [done|]. split; [|done].
  destruct Hwf as [Hl Hs Hn Hsl Ha Hx Hkeys]. split; simpl.
  - by rewrite length_insert.
  - done.
  - rewrite Hn, (Permutation_length Hp). simpl. lia.
  - intros j c x Hj Hx'. destruct (decide (i = j)) as [<-|Hne].
    + rewrite list_lookup_insert_eq in Hj by (by rewrite Hl). injection Hj as <-.
      apply (Hsl i (chain t i)); [done|]. rewrite Ec. set_solver.
    + rewrite list_lookup_insert_ne in Hj by done. by apply (Hsl j c).
  - rewrite Hp in Ha. simpl in Ha. by apply NoDup_cons in Ha as [_ Ha].
  - intros x Hx'. apply Hx. rewrite Hp. set_solver.
  - intros Hd%Hkeys. rewrite Hp in Hd. simpl in Hd. by apply NoDup_cons in Hd as [_ Hd].
Qed.

Lemma ht_clear_wf t : wf t → wf (ht_clear t) ∧ to_map (ht_clear t) = ∅.
Proof.
  intros [Hl Hs Hn Hsl Ha Hx Hkeys]. unfold ht_clear, to_map, entries.
  split; [split|]; simpl; rewrite ?concat_replicate_nil, ?length_replicate; try done.
  - intros i c b Hc Hb. apply lookup_replicate in Hc as [-> _]. set_solver.
  - constructor.
  - set_solver.
  - constructor.
Qed.

Lemma initialize_wf b : wf (initialize b).
Proof.
  split; simpl; try done; try lia; try (by constructor).
  - intros i c x Hc Hb. change [[]; []; []; []; []; []; []] with (replicate 7 (@nil HashBucket)) in Hc.
    apply lookup_replicate in Hc as [-> _]. set_solver.
  - set_solver.
Qed.

(** ** Iteration *)

(** The nodes the cursor has still to visit. *)
Definition remaining (t : HashTable) (l : list HashBucket) : Prop :=
  (currentItem t = None ∧ (-1 ≤ currentBucket t)%Z ∧
   l = concat (drop (Z.to_nat (currentBucket t + 1)) (ht t))) ∨
  (∃ i p b r, currentItem t = Some (addr b) ∧ currentBucket t = Z.of_nat i ∧
     ht t !! i = Some (p ++ b :: r) ∧ l = r ++ concat (drop (S i) (ht t))).

Lemma next_in_chain_notin a c : a ∉ addr <$> c → next_in_chain a c = None.
Proof.
  induction c as [|b c IH]; intros Ha; [done|].
  cbn [next_in_chain]. destruct (Nat.eqb_spec (addr b) a); [set_solver|]. apply IH. set_solver.
Qed.

Lemma next_in_chain_at p b r :
  addr b ∉ addr <$> p → next_in_chain (addr b) (p ++ b :: r) = head r.
Proof.
  induction p as [|x p IH]; intros Ha.
  - simpl. by rewrite Nat.eqb_refl.
  - simpl app. cbn [next_in_chain].
    destruct (Nat.eqb_spec (addr x) (addr b)); [set_solver|]. apply IH. set_solver.
Qed.

Lemma omap_next_None a (bs : list (list HashBucket)) :
  a ∉ addr <$> concat bs → omap (next_in_chain a) bs = [].
Proof.
  induction bs as [|c bs IH]; intros Ha; csimpl; [done|]. simpl in Ha.
  rewrite fmap_app in Ha. rewrite next_in_chain_notin by set_solver. apply IH. set_solver.
Qed.

Lemma next_of_at bs i p b r :
  NoDup (addr <$> concat bs) → bs !! i = Some (p ++ b :: r) → next_of bs (addr b) = head r.
Proof.
  intros Hnd Hi. rewrite (concat_split _ _ _ Hi) in Hnd. unfold next_of.
  rewrite <- (take_drop_middle bs i _ Hi), omap_app. csimpl.
  rewrite !fmap_app, fmap_cons in Hnd.
  rewrite !NoDup_app, NoDup_cons in Hnd. rewrite omap_next_None by set_solver.
  rewrite next_in_chain_at by set_solver. simpl.
  destruct r as [|x r]; [|done]. simpl. rewrite omap_next_None; [done|set_solver].
Qed.

Lemma first_from_spec (bs : list (list HashBucket)) i :
  match first_from bs i with
  | None => concat bs = []
  | Some (i', b) => ∃ j r, i' = (i + Z.of_nat j)%Z ∧ bs !! j = Some (b :: r) ∧
      concat bs = b :: r ++ concat (drop (S j) bs)
  end.
Proof.
  revert i. induction bs as [|[|b c] bs IH]; intros i; simpl; [done| |].
  - specialize (IH (i + 1)%Z). destruct (first_from bs (i + 1)) as [[i' b]|]; [|done].
    destruct IH as (j & r & -> & Hj & ->). exists (S j), r. split; [lia|done].
  - exists 0, c. rewrite Z.add_0_r. done.
Qed.

(** One [iterate] visits the first of the remaining nodes. *)
Lemma iterate_step t l :
  wf t → remaining t l →
  match l with
  | [] => iterate t = (None, set_cursor t (-1) None)
  | b :: r => ∃ cb, iterate t = (Some (entry b), set_cursor t cb (Some (addr b))) ∧
                    remaining (set_cursor t cb (Some (addr b))) r
  end.
Proof.
  intros Hwf Hr.
  assert (Hscan : ∀ cb, (-1 ≤ cb)%Z → currentBucket t = cb →
    currentItem t ≫= next_of (ht t) = None →
    l = concat (drop (Z.to_nat (cb + 1)) (ht t)) →
    match l with
    | [] => iterate t = (None, set_cursor t (-1) None)
    | b :: r => ∃ cb, iterate t = (Some (entry b), set_cursor t cb (Some (addr b))) ∧
                      remaining (set_cursor t cb (Some (addr b))) r
    end).
  { intros cb Hcb Ecb En El. unfold iterate. rewrite En, Ecb.
    pose proof (first_from_spec (drop (Z.to_nat (cb + 1)) (ht t)) (cb + 1)%Z) as Hf.
    destruct (first_from _ _) as [[i' b]|]; [|rewrite El, Hf; done].
    destruct Hf as (j & r & -> & Hj & Hc). rewrite El, Hc.
    eexists; split; [done|]. right. rewrite lookup_drop in Hj. rewrite drop_drop in *.
    exists (Z.to_nat (cb + 1) + j), [], b, r. simpl. split; [done|]. split; [lia|].
    split; [done|]. do 2 f_equal. f_equal. lia. }
  destruct Hr as [(Ec & Hb & El)|(i & p & b & r & Ec & Eb & Hi & El)].
  - apply (Hscan (currentBucket t)); [done..| |done]. by rewrite Ec.
  - assert (En : currentItem t ≫= next_of (ht t) = head r).
    { rewrite Ec. simpl. apply next_of_at with i p; [apply Hwf|done]. }
    destruct r as [|x r].
    + apply (Hscan (Z.of_nat i)); [lia|done|done|]. rewrite El. simpl. do 2 f_equal. lia.
    + subst l. simpl. unfold iterate. rewrite En. simpl.
      eexists; split; [done|]. right. exists i, (p ++ [b]), x, r. simpl.
      by rewrite <- app_assoc.
Qed.

Lemma iterate_all_remaining fuel : ∀ t l,
  wf t → remaining t l → length l < fuel →
  iterate_all fuel t = (entry <$> l, set_cursor t (-1) None).
Proof.
  induction fuel as [|fuel IH]; intros t l Hwf Hr Hf; [lia|].
  pose proof (iterate_step t l Hwf Hr) as Hs. cbn [iterate_all]. destruct l as [|b r].
  - by rewrite Hs.
  - destruct Hs as (cb & -> & Hr'). simpl in Hf.
    rewrite (IH _ r); [done| |done|lia]. by destruct Hwf; split.
Qed.

Lemma startIterations_remaining t : remaining (startIterations t) (concat (ht t)).
Proof. left. simpl. done. Qed.

(** Two decompositions of a list around the same fresh element agree. *)
Lemma app_cons_inj {A} (p p' : list A) b r r' :
  b ∉ p → b ∉ p' → p ++ b :: r = p' ++ b :: r' → p' = p ∧ r' = r.
Proof.
  revert p'. induction p as [|x p IH]; intros [|x' p'] Hp Hp' E; simplify_eq/=;
    [done|set_solver|set_solver|].
  destruct (IH p') as [-> ->]; [set_solver|set_solver|done|done].
Qed.

Lemma addr_prefix t i p b r :
  wf t → ht t !! i = Some (p ++ b :: r) → addr b ∉ addr <$> p.
Proof.
  intros Hwf Hi. pose proof (wf_addr t Hwf) as Hnd.
  rewrite (concat_split _ _ _ Hi), !fmap_app, !NoDup_app, fmap_cons in Hnd. set_solver.
Qed.

(** An address occurs at one position only. *)
Lemma addr_position t i j p p' b b' r r' :
  wf t → ht t !! i = Some (p ++ b :: r) → ht t !! j = Some (p' ++ b' :: r') →
  addr b = addr b' → b' = b ∧ p' = p ∧ r' = r ∧ j = i.
Proof.
  intros Hwf Hi Hj Ea. pose proof (wf_addr t Hwf) as Hnd.
  assert (Hb : b ∈ concat (ht t)) by (rewrite (concat_split _ _ _ Hi); set_solver).
  assert (Hb' : b' ∈ concat (ht t)) by (rewrite (concat_split _ _ _ Hj); set_solver).
  assert (b' = b) as ->.
  { apply list_elem_of_lookup in Hb as [x Hx]. apply list_elem_of_lookup in Hb' as [y Hy].
    assert (x = y) as ->; [|congruence].
    eapply (NoDup_lookup (addr <$> concat (ht t))); [done| |];
      rewrite list_lookup_fmap, ?Hx, ?Hy; simpl; by rewrite ?Ea. }
  assert (j = i) as ->.
  { rewrite <- (wf_slot t Hwf i _ b Hi), <- (wf_slot t Hwf j _ b Hj); set_solver. }
  assert (Heq : p ++ b :: r = p' ++ b :: r') by congruence.
  pose proof (addr_prefix t i p b r Hwf Hi) as Hp.
  pose proof (addr_prefix t i p' b r' Hwf Hj) as Hp'.
  assert (b ∉ p) by (intros Hin; apply Hp, list_elem_of_fmap; eauto).
  assert (b ∉ p') by (intros Hin; apply Hp', list_elem_of_fmap; eauto).
  destruct (app_cons_inj p p' b r r') as [-> ->]; done.
Qed.

(** Removing the node the cursor stands on keeps what remains, except for the
    head of the first chain. *)
Lemma ht_remove_current t l i p b r :
  wf t → remaining t l →
  chain_split (index b) (chain t (slot (tableSize t) (index b))) = Some (p, b, r) →
  slot (tableSize t) (index b) = i → currentItem t = Some (addr b) →
  (i ≠ 0 ∨ p ≠ []) →
  remaining (snd (ht_remove t (index b))) l.
Proof.
  intros Hwf Hr E Ei Ec Hcase.
  pose proof (slot_lt (tableSize t) (index b) (wf_size t Hwf)) as Hlt.
  pose proof (wf_chain t _ Hwf Hlt) as Hch. rewrite Ei in *.
  destruct (chain_split_Some _ _ _ _ _ E) as [Ech _]. rewrite Ech in Hch.
  (* the cursor's bucket is this chain *)
  assert (currentBucket t = Z.of_nat i ∧ l = r ++ concat (drop (S i) (ht t))) as [Ecb El].
  { destruct Hr as [(Ec' & _)|(j & p' & b' & r' & Ec' & Eb & Hj & El)]; [congruence|].
    assert (b' = b ∧ p' = p ∧ r' = r ∧ j = i) as (-> & -> & -> & ->); [|done].
    rewrite Ec in Ec'. injection Ec' as Ea. by apply (addr_position t i j p p' b b' r r'). }
  unfold ht_remove. rewrite Ei, E. rewrite bool_decide_true by done. simpl.
  assert (Hd : drop (S i) (<[i := p ++ r]> (ht t)) = drop (S i) (ht t))
    by (apply drop_insert_lt; lia).
  destruct (last p) as [prev|] eqn:El'.
  - apply last_Some in El' as [q ->]. right. exists i, q, prev, r. simpl.
    rewrite list_lookup_insert_eq by (rewrite (wf_length t Hwf); lia).
    rewrite Hd, <- app_assoc. done.
  - apply last_None in El' as ->. destruct Hcase as [Hi|]; [|done].
    left. simpl. rewrite Ecb. destruct (Z.ltb_spec (Z.of_nat i - 1) 0); [lia|].
    split; [done|]. split; [lia|].
    replace (Z.to_nat (Z.of_nat i - 1 + 1)) with i by lia.
    rewrite (drop_S _ r) by (rewrite list_lookup_insert_eq; [done|rewrite (wf_length t Hwf); lia]).
    simpl in *. by rewrite Hd.
Qed.
End HashTable.
Arguments HashTable : clear implicits.
Arguments HashBucket : clear implicits.

(** ** Hash functions of the sources *)

Definition hashFuncInt (n : Z) : Z := if (n <? 0)%Z then uint32 (int32 (0 - n)) else uint32 n.
Definition hashFuncChars (key : option cstr) : Z :=
  match key with
  | None => 0%Z
  | Some s => foldl (fun i c => uint32 (i + Z.of_nat (nat_of_ascii c))) 0%Z s
  end.

(** ** Properties *)

(** [insert] on a table without duplicate keys. *)
Lemma insert_spec {K V} `{Countable K} (hashfcn : K → Z) (t : HashTable K V) k v :
  wf hashfcn t → duplicateKeyBehavior t ≠ allowDuplicateKeys →
  let '(ret, t') := ht_insert hashfcn t k v in
  wf hashfcn t' ∧
  if decide (duplicateKeyBehavior t = rejectDuplicateKeys ∧ is_Some (to_map t !! k))
  then ret = (-1)%Z ∧ t' = t
  else ret = 0%Z ∧ to_map t' = <[k := v]> (to_map t).
Proof.
  intros Hwf Hd. pose proof (wf_keys _ _ Hwf Hd) as Hnd.
  pose proof (to_map_find t k) as Hf. rewrite (chain_find_concat hashfcn) in Hf by done.
  unfold ht_insert. destruct (chain_find k _) as [b|] eqn:E.
  - destruct (duplicateKeyBehavior t) eqn:Eb; [done| |].
    + split; [done|]. rewrite decide_True; [done|]. rewrite Hf. simpl. eauto.
    + rewrite <- Eb at 1. fold (update_node hashfcn t k v). split; [by apply update_node_wf|].
      rewrite decide_False by (by intros [? _]). split; [done|].
      apply update_node_to_map; [done|]. rewrite E. eauto.
  - assert (Hk : k ∉ index <$> concat (ht t)).
    { apply (proj1 (chain_find_None hashfcn k _)). by rewrite (chain_find_concat hashfcn t k Hwf). }
    destruct (addItem_spec hashfcn t k v Hwf Hk Hnd) as [Hw Hm].
    destruct (duplicateKeyBehavior t); (split; [exact Hw|]);
      (rewrite decide_False; [done|rewrite Hf; by intros [_ [? [=]]]]).
Qed.

(** C32. [insert] on a table that rejects or updates duplicate keys: the
    invariant (nodes in the chain of their hash, the element count, unique
    addresses and keys) is preserved, through the resizing that the load factor
    triggers; a rejected insert returns -1 and changes nothing; otherwise it
    returns 0 and the table denotes the updated map. *)
Theorem insert_refines {K V} `{Countable K} (hashfcn : K → Z) (t : HashTable K V) k v :
  wf hashfcn t → duplicateKeyBehavior t ≠ allowDuplicateKeys →
  let '(ret, t') := ht_insert hashfcn t k v in
  wf hashfcn t' ∧
  if decide (duplicateKeyBehavior t = rejectDuplicateKeys ∧ is_Some (to_map t !! k))
  then ret = (-1)%Z ∧ t' = t
  else ret = 0%Z ∧ to_map t' = <[k := v]> (to_map t).
Proof. apply insert_spec. Qed.

Lemma insert_refines_witness :
  let '(ret, t') := ht_insert hashFuncInt (initialize rejectDuplicateKeys) 5%Z true in
  wf hashFuncInt t' ∧ ret = 0%Z ∧ to_map t' = <[5%Z := true]> ∅.
Proof.
  apply (insert_refines hashFuncInt (initialize rejectDuplicateKeys) 5%Z true);
    [apply initialize_wf|discriminate].
Defined.

(** A table in which no key occurs twice, whatever its behavior. *)
Definition nodup_keys {K V} (t : HashTable K V) : Prop := NoDup (index <$> concat (ht t)).

Lemma remove_nodup_spec {K V} `{Countable K} (hashfcn : K → Z) (t : HashTable K V) k :
  wf hashfcn t → nodup_keys t →
  let t' := snd (ht_remove hashfcn t k) in
  wf hashfcn t' ∧ nodup_keys t' ∧ to_map t' = delete k (to_map t) ∧
  fst (ht_remove hashfcn t k) = (if decide (is_Some (to_map t !! k)) then 0 else -1)%Z.
Proof.
  intros Hwf Hnd. pose proof (to_map_find t k) as Hf. rewrite (chain_find_concat hashfcn) in Hf by done.
  destruct (chain_split k (chain t (slot hashfcn (tableSize t) k))) as [[[p b] r]|] eqn:E.
  - destruct (ht_remove_found hashfcn t k p b r Hwf E) as (Hret & Hw & Hp & Hk).
    destruct (ht_remove hashfcn t k) as [ret t']. simpl in *. split; [done|].
    assert (to_map t = <[k := value b]> (to_map t')) as ->.
    { rewrite <- Hk. unfold to_map at 1, entries.
      rewrite (list_to_map_proper _ (entry <$> b :: concat (ht t'))); [done| |by rewrite Hp].
      rewrite <- list_fmap_compose. exact Hnd. }
    unfold nodup_keys in *. rewrite Hp, fmap_cons, NoDup_cons, Hk in Hnd.
    rewrite lookup_insert_eq, decide_True by eauto. split; [apply Hnd|]. split; [|done].
    rewrite delete_insert_id; [done|]. rewrite to_map_find.
    by rewrite (proj2 (chain_find_None hashfcn k _)) by apply Hnd.
  - unfold ht_remove. rewrite E. apply chain_split_None in E. rewrite E in Hf. simpl in Hf.
    split; [done|]. split; [done|]. rewrite Hf. rewrite decide_False by (intros [? [=]]).
    split; [|done]. by rewrite delete_id.
Qed.

(** [insert] of a new key. *)
Lemma insert_new_spec {K V} `{Countable K} (hashfcn : K → Z) (t : HashTable K V) k v :
  wf hashfcn t → nodup_keys t → to_map t !! k = None →
  let t' := snd (ht_insert hashfcn t k v) in
  fst (ht_insert hashfcn t k v) = 0%Z ∧
  wf hashfcn t' ∧ nodup_keys t' ∧ to_map t' = <[k := v]> (to_map t).
Proof.
  intros Hwf Hnd Hk. rewrite to_map_find in Hk.
  destruct (chain_find k (concat (ht t))) eqn:E; [done|].
  assert (k ∉ index <$> concat (ht t)) as Hkn by (by apply (chain_find_None hashfcn)).
  rewrite (chain_find_concat hashfcn) in E by done.
  assert (ht_insert hashfcn t k v = (0%Z, addItem hashfcn t k v)) as ->.
  { unfold ht_insert. rewrite E. by destruct (duplicateKeyBehavior t). }
  destruct (addItem_spec hashfcn t k v Hwf Hkn Hnd) as [Hw Hm]. split_and!; [done|done| |done].
  unfold nodup_keys. assert (index <$> concat (ht (addItem hashfcn t k v)) ≡ₚ k :: (index <$> concat (ht t))) as ->.
  { unfold addItem. fold (add_node hashfcn t k v).
    pose proof (add_node_perm hashfcn t k v Hwf) as Hp.
    assert (wf hashfcn (add_node hashfcn t k v)) as Hwa by (by apply add_node_wf).
    destruct (needs_resizing (add_node hashfcn t k v));
      [rewrite (proj2 (resize_spec hashfcn _ (-1) Hwa))|]; by rewrite Hp. }
  by apply NoDup_cons.
Qed.

(** A change of the value of a key in place. *)
Lemma update_node_spec {K V} `{Countable K} (hashfcn : K → Z) (t : HashTable K V) k v :
  wf hashfcn t → nodup_keys t → is_Some (to_map t !! k) →
  wf hashfcn (update_node hashfcn t k v) ∧ nodup_keys (update_node hashfcn t k v) ∧
  to_map (update_node hashfcn t k v) = <[k := v]> (to_map t).
Proof.
  intros Hwf Hnd Hs. split; [by apply update_node_wf|]. split.
  - unfold nodup_keys. rewrite update_node_fmap; [done|done|]. intros c. apply chain_update_index.
  - apply update_node_to_map; [done|]. rewrite to_map_find, (chain_find_concat hashfcn) in Hs by done.
    by destruct (chain_find k _); [eauto|destruct Hs].
Qed.

(** [lookup], [exists] and [remove] on the map. *)
Lemma lookup_remove_spec {K V} `{Countable K} (hashfcn : K → Z) (t : HashTable K V) k :
  wf hashfcn t →
  ht_lookup hashfcn t k = to_map t !! k ∧
  ht_exists hashfcn t k = (if decide (is_Some (to_map t !! k)) then 0 else -1)%Z ∧
  (duplicateKeyBehavior t ≠ allowDuplicateKeys →
   let '(ret, t') := ht_remove hashfcn t k in
   wf hashfcn t' ∧ to_map t' = delete k (to_map t) ∧
   ret = (if decide (is_Some (to_map t !! k)) then 0 else -1)%Z).
Proof.
  intros Hwf. pose proof (ht_lookup_to_map hashfcn t k Hwf) as Hl. split; [done|].
  pose proof (to_map_find t k) as Hf. rewrite (chain_find_concat hashfcn) in Hf by done.
  split.
  - rewrite <- Hl. unfold ht_exists, ht_lookup. destruct (_ =? _)%Z.
    { case_decide as Hx; [by destruct Hx as [? [=]]|done]. }
    destruct (chain_find k _); case_decide as Hx; try done.
    + contradict Hx. simpl. eauto.
    + by destruct Hx as [? [=]].
  - intros Hd. destruct (remove_nodup_spec hashfcn t k Hwf (wf_keys _ _ Hwf Hd)) as (? & _ & ? & ?).
    by destruct (ht_remove hashfcn t k).
Qed.

(** [lookup] and [exists] find exactly the keys of the map, and [remove]
    deletes the key (returning 0) or reports its absence (-1) leaving the table
    as it was; the invariant is preserved. *)
Theorem lookup_remove_refine {K V} `{Countable K} (hashfcn : K → Z) (t : HashTable K V) k :
  wf hashfcn t →
  ht_lookup hashfcn t k = to_map t !! k ∧
  ht_exists hashfcn t k = (if decide (is_Some (to_map t !! k)) then 0 else -1)%Z ∧
  (duplicateKeyBehavior t ≠ allowDuplicateKeys →
   let '(ret, t') := ht_remove hashfcn t k in
   wf hashfcn t' ∧ to_map t' = delete k (to_map t) ∧
   ret = (if decide (is_Some (to_map t !! k)) then 0 else -1)%Z).
Proof. apply lookup_remove_spec. Qed.

Lemma lookup_remove_refine_witness :
  let t := snd (ht_insert hashFuncInt (initialize rejectDuplicateKeys) 5%Z true) in
  ht_lookup hashFuncInt t 5%Z = Some true ∧ fst (ht_remove hashFuncInt t 5%Z) = 0%Z.
Proof.
  intros t.
  assert (Hw : wf hashFuncInt t) by exact (proj1 (insert_spec hashFuncInt
    (initialize rejectDuplicateKeys) 5%Z true (initialize_wf _ _) ltac:(discriminate))).
  destruct (lookup_remove_refine hashFuncInt t 5%Z Hw) as (H1 & _ & H3).
  split; [rewrite H1; reflexivity|].
  specialize (H3 ltac:(discriminate)).
  destruct (ht_remove hashFuncInt t 5%Z) as [ret t']. destruct H3 as (_ & _ & ->). reflexivity.
Defined.

(** A full iteration, and its order up to permutation. *)
Lemma iterate_all_entries {K V} `{Countable K} (hashfcn : K → Z) (t : HashTable K V) fuel :
  wf hashfcn t → length (entries t) < fuel →
  iterate_all fuel (startIterations t) = (entries t, startIterations t).
Proof.
  intros Hwf Hf. apply (iterate_all_remaining hashfcn fuel (startIterations t) (concat (ht t))).
  - by destruct Hwf; split.
  - apply startIterations_remaining.
  - unfold entries in Hf. by rewrite length_fmap in Hf.
Qed.

Lemma entries_perm {K V} `{Countable K} (hashfcn : K → Z) (t : HashTable K V) :
  wf hashfcn t → duplicateKeyBehavior t ≠ allowDuplicateKeys →
  NoDup (entries t).*1 ∧ entries t ≡ₚ map_to_list (to_map t).
Proof.
  intros Hwf Hd. assert (NoDup (entries t).*1) as Hnd.
  { unfold entries. rewrite <- list_fmap_compose. apply (wf_keys _ _ Hwf Hd). }
  split; [done|]. unfold to_map. by rewrite map_to_list_to_map.
Qed.

Lemma ht_insert_behavior {K V} `{Countable K} (hashfcn : K → Z) (t : HashTable K V) k v :
  duplicateKeyBehavior (snd (ht_insert hashfcn t k v)) = duplicateKeyBehavior t.
Proof.
  unfold ht_insert, addItem. repeat (case_match; simplify_eq/=); congruence.
Qed.

Lemma ht_remove_behavior {K V} `{Countable K} (hashfcn : K → Z) (t : HashTable K V) k :
  duplicateKeyBehavior (snd (ht_remove hashfcn t k)) = duplicateKeyBehavior t.
Proof. unfold ht_remove. repeat case_match; simplify_eq/=; done. Qed.

(** A full iteration ([startIterations], then [iterate] until it returns 0)
    visits every entry exactly once, in the order of the array, ends, and
    leaves the table as it was with the cursor reset. *)
Theorem iterate_visits_all {K V} `{Countable K} (hashfcn : K → Z) (t : HashTable K V) fuel :
  wf hashfcn t → length (entries t) < fuel →
  iterate_all fuel (startIterations t) = (entries t, startIterations t) ∧
  (duplicateKeyBehavior t ≠ allowDuplicateKeys → entries t ≡ₚ map_to_list (to_map t)).
Proof.
  intros Hwf Hf. split; [by apply (iterate_all_entries hashfcn)|].
  intros Hd. by apply (entries_perm hashfcn).
Qed.

Lemma iterate_visits_all_witness :
  let t := snd (ht_insert hashFuncInt
             (snd (ht_insert hashFuncInt (initialize rejectDuplicateKeys) 5%Z true)) 12%Z false) in
  fst (iterate_all 3 (startIterations t)) = [(12%Z, false); (5%Z, true)].
Proof.
  pose proof (insert_spec hashFuncInt (initialize rejectDuplicateKeys) 5%Z true
    (initialize_wf _ _) ltac:(discriminate)) as [Hw _].
  pose proof (insert_spec hashFuncInt _ 12%Z false Hw ltac:(discriminate)) as [Hw2 _].
  pose proof (iterate_visits_all hashFuncInt _ 3 Hw2 ltac:(vm_compute; lia)) as [H1 _].
  exact (f_equal fst H1).
Defined.

(** Deleting the entry the cursor stands on, as clients do while they
    iterate, does not disturb the iteration: what remains to be visited is
    unchanged.  The one exception, excluded here, is the head of the first
    chain. *)
Theorem remove_current_safe {K V} `{Countable K} (hashfcn : K → Z) (t : HashTable K V) l k a :
  wf hashfcn t → remaining t l → currentItem t = Some a →
  (∃ p b r, chain_split k (chain t (slot hashfcn (tableSize t) k)) = Some (p, b, r) ∧
            addr b = a ∧ (slot hashfcn (tableSize t) k ≠ 0 ∨ p ≠ [])) →
  remaining (snd (ht_remove hashfcn t k)) l.
Proof.
  intros Hwf Hr Hc (p & b & r & E & <- & Hcase).
  destruct (chain_split_Some _ _ _ _ _ E) as [_ <-].
  by apply (ht_remove_current hashfcn t l (slot hashfcn (tableSize t) (index b)) p b r).
Qed.

Lemma remove_current_safe_witness :
  let t := snd (iterate (startIterations (snd (ht_insert hashFuncInt
             (snd (ht_insert hashFuncInt (initialize rejectDuplicateKeys) 5%Z true)) 12%Z false)))) in
  remaining (snd (ht_remove hashFuncInt t 12%Z)) [mkBucket 0 5%Z true].
Proof.
  pose proof (insert_spec hashFuncInt (initialize rejectDuplicateKeys) 5%Z true
    (initialize_wf _ _) ltac:(discriminate)) as [Hw _].
  pose proof (insert_spec hashFuncInt _ 12%Z false Hw ltac:(discriminate)) as [Hw2 _].
  apply (remove_current_safe hashFuncInt _ [mkBucket 0 5%Z true] 12%Z 1).
  - destruct Hw2; by split.
  - right. exists 5, [], (mkBucket 1 12%Z false), [mkBucket 0 5%Z true]. repeat split.
  - reflexivity.
  - exists [], (mkBucket 1 12%Z false), [mkBucket 0 5%Z true].
    repeat split. left. vm_compute. discriminate.
Defined.

(** The exception: keys 0 and 7 share the first chain; the loop deletes the
    first entry it visits and never reaches the other one. *)
Theorem remove_head_of_first_chain_skips :
  let t := snd (ht_insert hashFuncInt
             (snd (ht_insert hashFuncInt (initialize rejectDuplicateKeys) 0%Z false)) 7%Z true) in
  let '(first, t1) := iterate (startIterations t) in
  let t2 := snd (ht_remove hashFuncInt t1 7%Z) in
  first = Some (7%Z, true) ∧ entries t2 = [(0%Z, false)] ∧ fst (iterate t2) = None.
Proof. vm_compute. done. Qed.

(** With [allowDuplicateKeys] the rehash reverses the order of equal keys: the
    sixth insert resizes the table and [lookup] goes back to the older value. *)
Theorem resize_reverses_duplicates :
  let ins k v t := snd (ht_insert hashFuncInt t k v) in
  let t := ins 3%Z true (ins 2%Z true (ins 1%Z true
             (ins 9%Z true (ins 9%Z false (initialize allowDuplicateKeys))))) in
  ht_lookup hashFuncInt t 9%Z = Some true ∧
  ht_lookup hashFuncInt (ins 4%Z true t) 9%Z = Some false.
Proof. vm_compute. done. Qed.
