(* ===== verification/Env.v ===== *)
(** * Env

    The environment of a job, [condor_utils/env.cpp] (the Unix build): a hash
    table of variables that updates duplicate keys, read from and written to
    the V1 and V2 syntaxes and to job ads.  The readers and writers are those of
    [ArgList] for V2. *)
From stdpp Require Import base list strings gmap.
From Stdlib Require Import ZArith Lia Ascii.
From S2P Require Import Prelude MyString JobAd ArgList HashTable.

Definition unix_env_delim : ascii := ";"%char.
Definition windows_env_delim : ascii := "|"%char.
Definition env_delimiter : ascii := ";"%char.

(** The value that marks a variable without value (an unexpanded [$$()]). *)
Definition NO_ENVIRONMENT_VALUE : cstr :=
  ["001"; "002"; "003"; "004"; "005"; "006"]%char.

Record Env := mkEnv {
  envTable : HashTable cstr cstr;
  input_was_v1 : bool;
}.

Definition MyStringHash : cstr → Z := Str.Hash.

Definition Env_new : Env := mkEnv (initialize updateDuplicateKeys) false.
Definition Env_Count (e : Env) : Z := numElems (envTable e).
Definition Env_Clear (e : Env) : Env := mkEnv (ht_clear (envTable e)) (input_was_v1 e).

(** The loop [startIterations(); while (iterate(var, val))]. *)
Definition env_entries (e : Env) : list (cstr * cstr) :=
  fst (iterate_all (S (Z.to_nat (numElems (envTable e)))) (startIterations (envTable e))).

Definition SetEnv (e : Env) (var val : cstr) : bool * Env :=
  if (length var =? 0)%nat then (false, e)
  else (true, mkEnv (snd (ht_insert MyStringHash (envTable e) var val)) (input_was_v1 e)).

Definition DeleteEnv (e : Env) (name : cstr) : bool * Env :=
  if (length name =? 0)%nat then (false, e)
  else let '(ret, t) := ht_remove MyStringHash (envTable e) name in
       ((ret =? 0)%Z, mkEnv t (input_was_v1 e)).

Definition GetEnv (e : Env) (var : cstr) : option cstr :=
  ht_lookup MyStringHash (envTable e) var.

(** Split at the first [=]: [None] when there is none. *)
Fixpoint split_eq (s : cstr) : option (cstr * cstr) :=
  match s with
  | [] => None
  | c :: s =>
      if c =c "="%char then Some ([], s)
      else '(var, val) ← split_eq s; Some (c :: var, val)
  end.

Definition SetEnvWithErrorMessage (e : Env) (nameValueExpr : option cstr)
    (error_msg : option cstr) : bool * Env * option cstr :=
  match nameValueExpr with
  | None | Some [] => (false, e, error_msg)
  | Some expr =>
      match split_eq expr with
      | None =>
          if bool_decide (is_Some (Str.strstr expr (L "$$")))
          then (true, snd (SetEnv e expr NO_ENVIRONMENT_VALUE), error_msg)
          else (false, e, AddErrorMessage
                  (L "ERROR: Missing '=' after environment variable '" ++ expr ++ L "'.") error_msg)
      | Some ([], _) =>
          (false, e, AddErrorMessage (L "ERROR: missing variable in '" ++ expr ++ L "'.") error_msg)
      | Some (var, val) => let '(ok, e) := SetEnv e var val in (ok, e, error_msg)
      end
  end.

(** ** Merging *)

(** The array overload: stops at the first empty string, keeps going on
    errors. *)
Fixpoint MergeFrom_array (e : Env) (strings : list cstr) (all_ok : bool) : bool * Env :=
  match strings with
  | [] | [] :: _ => (all_ok, e)
  | s :: strings =>
      let '(ok, e, _) := SetEnvWithErrorMessage e (Some s) None in
      MergeFrom_array e strings (all_ok && ok)
  end.

(** The NUL-delimited block overload: errors are ignored. *)
Fixpoint MergeFrom_block (e : Env) (strings : list cstr) : bool * Env :=
  match strings with
  | [] | [] :: _ => (true, e)
  | s :: strings =>
      let '(_, e, _) := SetEnvWithErrorMessage e (Some s) None in MergeFrom_block e strings
  end.

(** [None] when the ASSERT on [SetEnv] fails. *)
Definition MergeFrom_env (e src : Env) : option Env :=
  foldl (fun acc '(var, val) =>
    e ← acc; let '(ok, e) := SetEnv e var val in if (ok : bool) then Some e else None)
    (Some e) (env_entries src).

Fixpoint set_all (e : Env) (entries : list cstr) (error_msg : option cstr)
    : bool * Env * option cstr :=
  match entries with
  | [] => (true, e, error_msg)
  | s :: entries =>
      let '(ok, e, error_msg) := SetEnvWithErrorMessage e (Some s) error_msg in
      if (ok : bool) then set_all e entries error_msg else (false, e, error_msg)
  end.

Definition MergeFromV2Raw (e : Env) (s : option cstr) (error_msg : option cstr)
    : bool * Env * option cstr :=
  match s with
  | None => (true, e, error_msg)
  | Some _ =>
      let '(ok, env_list, error_msg) := split_args s [] error_msg in
      if (ok : bool) then set_all e env_list error_msg else (false, e, error_msg)
  end.

(** [ReadFromDelimitedString] after the leading white space: the entry and the
    rest of the input. *)
Fixpoint read_entry (input : cstr) : cstr * cstr :=
  match input with
  | [] => ([], [])
  | c :: input =>
      if (c =c NL) || (c =c env_delimiter) then ([], input)
      else let '(out, rest) := read_entry input in (c :: out, rest)
  end.
Definition ReadFromDelimitedString (input : cstr) : cstr * cstr :=
  read_entry (skip_while is_ws input).

(** Each round consumes at least one character of a non-empty input; [fuel] is
    the length of the input. *)
Fixpoint v1_loop (fuel : nat) (e : Env) (input : cstr) (error_msg : option cstr)
    : bool * Env * option cstr :=
  match fuel, input with
  | S fuel, _ :: _ =>
      let '(output, input) := ReadFromDelimitedString input in
      match output with
      | [] => v1_loop fuel e input error_msg
      | _ =>
          let '(ok, e, error_msg) := SetEnvWithErrorMessage e (Some output) error_msg in
          if (ok : bool) then v1_loop fuel e input error_msg else (false, e, error_msg)
      end
  | _, _ => (true, e, error_msg)
  end.

Definition MergeFromV1Raw (e : Env) (s : option cstr) (error_msg : option cstr)
    : bool * Env * option cstr :=
  let e := mkEnv (envTable e) true in
  match s with
  | None => (true, e, error_msg)
  | Some s => v1_loop (length s) e s error_msg
  end.

Definition RAW_V2_ENV_MARKER : ascii := SP.

Definition MergeFromV1or2Raw (e : Env) (s : option cstr) (error_msg : option cstr)
    : bool * Env * option cstr :=
  match s with
  | None => (true, e, error_msg)
  | Some (c :: _) =>
      if c =c RAW_V2_ENV_MARKER then MergeFromV2Raw e s error_msg else MergeFromV1Raw e s error_msg
  | Some [] => MergeFromV1Raw e s error_msg
  end.

Definition MergeFromV2Quoted (e : Env) (s : option cstr) (error_msg : option cstr)
    : option (bool * Env * option cstr) :=
  match s with
  | None => Some (true, e, error_msg)
  | Some _ =>
      if IsV2QuotedString s then
        '(ok, v2, em) ← V2QuotedToV2Raw s [] error_msg;
        if (ok : bool) then Some (MergeFromV2Raw e (Some v2) em) else Some (false, e, em)
      else Some (false, e,
        AddErrorMessage (L "Expecting a double-quoted environment string (V2 format).") error_msg)
  end.

Definition MergeFromV1RawOrV2Quoted (e : Env) (s : option cstr) (error_msg : option cstr)
    : option (bool * Env * option cstr) :=
  match s with
  | None => Some (true, e, error_msg)
  | Some _ =>
      if IsV2QuotedString s then
        '(ok, v2, em) ← V2QuotedToV2Raw s [] error_msg;
        if (ok : bool) then Some (MergeFromV2Raw e (Some v2) em) else Some (false, e, em)
      else Some (MergeFromV1Raw e s error_msg)
  end.

(** [Import], with the filter of the base class; [environ] is the process
    environment. *)
Definition Import (e : Env) (environ : list cstr) : Env :=
  foldl (fun e p =>
    match split_eq p with
    | None => e
    | Some ([], _) => e
    | Some (varname, value) => snd (SetEnv e varname value)
    end) e environ.

(** ** Output *)

Definition IsSafeEnvV1Value (str : cstr) (delim : ascii) : bool :=
  let delim := if delim =c NUL then env_delimiter else delim in
  (length str <=? strcspn str [delim; NL])%nat.
Arguments IsSafeEnvV1Value : simpl never.

Definition IsSafeEnvV2Value (str : cstr) : bool := (length str <=? strcspn str [NL])%nat.

(** One entry as text. *)
Definition env_text (kv : cstr * cstr) : cstr :=
  if bool_decide (snd kv = NO_ENVIRONMENT_VALUE) then fst kv
  else fst kv ++ "="%char :: snd kv.

Definition getDelimitedStringV2Raw (e : Env) (result : cstr) (mark_v2 : bool) : bool * cstr :=
  let result := if mark_v2 then result ++ [RAW_V2_ENV_MARKER] else result in
  (true, join_args (env_text <$> env_entries e) result 0).

Definition getDelimitedStringV2Quoted (e : Env) (result : cstr) : bool * cstr :=
  let '(ok, v2_raw) := getDelimitedStringV2Raw e [] false in
  if (ok : bool) then (true, V2RawToV2Quoted v2_raw result) else (false, result).

Fixpoint v1_write (delim : ascii) (l : list (cstr * cstr)) (emptyString : bool) (result : cstr)
    (error_msg : option cstr) : bool * cstr * option cstr :=
  match l with
  | [] => (true, result, error_msg)
  | (var, val) :: l =>
      if IsSafeEnvV1Value var delim && IsSafeEnvV1Value val delim then
        v1_write delim l false
          ((if emptyString then result else result ++ [delim]) ++ env_text (var, val)) error_msg
      else (false, result, AddErrorMessage
        (L "Environment entry is not compatible with V1 syntax: " ++ var ++ L "=" ++ val) error_msg)
  end.

Definition getDelimitedStringV1Raw (e : Env) (result : cstr) (error_msg : option cstr)
    (delim : ascii) : bool * cstr * option cstr :=
  let delim := if delim =c NUL then env_delimiter else delim in
  v1_write delim (env_entries e) true result error_msg.

Definition getDelimitedStringV1or2Raw (e : Env) (result : cstr) (v1_delim : ascii) : bool * cstr :=
  let old_len := length result in
  let '(ok, result, _) := getDelimitedStringV1Raw e result None v1_delim in
  if (ok : bool) then (true, result) else
  let result := if (old_len <? length result)%nat then take old_len result else result in
  getDelimitedStringV2Raw e result true.

Definition getDelimitedStringV1RawOrV2Quoted (e : Env) (result : cstr) : bool * cstr :=
  let '(ok, result, _) := getDelimitedStringV1Raw e result None NUL in
  if (ok : bool) then (true, result) else
  let result := if (0 <? length result)%nat then take 0 result else result in
  getDelimitedStringV2Quoted e result.

Definition GetEnvV1Delimiter (opsys : option cstr) : ascii :=
  match opsys with
  | None => env_delimiter
  | Some s => if has_prefix (L "WIN") s then windows_env_delim else unix_env_delim
  end.

(** [getStringArray]: [None] when an ASSERT fails. *)
Definition getStringArray (e : Env) : option (list cstr) :=
  let l := env_entries e in
  if (Z.of_nat (length l) <=? numElems (envTable e))%Z &&
     forallb (fun kv => negb (length (fst kv) =? 0)%nat) l
  then Some (env_text <$> l) else None.

(** ** Job ads *)

Section WithAd.
Context {ad : Type} `{JobAd ad}.

Definition MergeFrom_ad (e : Env) (cad : option ad) (error_msg : option cstr)
    : bool * Env * option cstr :=
  match cad with
  | None => (true, e, error_msg)
  | Some cad =>
      match LookupString cad ATTR_JOB_ENVIRONMENT2 with
      | Some env2 => MergeFromV2Raw e (Some env2) error_msg
      | None =>
          match LookupString cad ATTR_JOB_ENVIRONMENT1 with
          | Some env1 =>
              let '(ok, e, error_msg) := MergeFromV1Raw e (Some env1) error_msg in
              (ok, mkEnv (envTable e) true, error_msg)
          | None => (true, e, error_msg)
          end
      end
  end.

Definition InsertEnvIntoClassAd (e : Env) (cad : ad) (error_msg : option cstr)
    (opsys : option cstr) (condor_version : option VersionData) : bool * ad * option cstr :=
  let has_env1 := LookupExpr cad ATTR_JOB_ENVIRONMENT1 in
  let has_env2 := LookupExpr cad ATTR_JOB_ENVIRONMENT2 in
  let requires_env1 := match condor_version with
                       | Some v => CondorVersionRequiresV1 v | None => false end in
  let cad := if requires_env1 && has_env2 then Delete cad ATTR_JOB_ENVIRONMENT2 else cad in
  let cad :=
    if (has_env2 || negb has_env1) && negb requires_env1 then
      let '(_, env2) := getDelimitedStringV2Raw e [] false in
      Assign cad ATTR_JOB_ENVIRONMENT2 env2
    else cad in
  if has_env1 || requires_env1 then
    let lookup_delim := match opsys with
                        | Some _ => None
                        | None => LookupString cad ATTR_JOB_ENVIRONMENT1_DELIM end in
    let delim := match opsys, lookup_delim with
                 | Some o, _ => GetEnvV1Delimiter (Some o)
                 | None, Some d => default NUL (head d)
                 | None, None => env_delimiter
                 end in
    let cad := match lookup_delim with
               | None => Assign cad ATTR_JOB_ENVIRONMENT1_DELIM
                           (if delim =c NUL then [] else [delim])
               | Some _ => cad end in
    let '(env1_success, env1, error_msg) := getDelimitedStringV1Raw e [] error_msg delim in
    if (env1_success : bool) then (true, Assign cad ATTR_JOB_ENVIRONMENT1 env1, error_msg)
    else if has_env2 then
      (true, Assign cad ATTR_JOB_ENVIRONMENT1 (L "ENVIRONMENT_CONVERSION_ERROR"), error_msg)
    else (false, cad,
          AddErrorMessage (L "Failed to convert to target environment syntax.") error_msg)
  else (true, cad, error_msg).

(** The overload that sets the object to the environment of the ad. *)
Definition getDelimitedStringV1or2Raw_ad (e : Env) (cad : ad) (result : cstr)
    (error_msg : option cstr) : bool * Env * cstr * option cstr :=
  let e := Env_Clear e in
  let '(ok, e, error_msg) := MergeFrom_ad e (Some cad) error_msg in
  if (ok : bool) then
    let delim := match LookupString cad ATTR_JOB_ENVIRONMENT1_DELIM with
                 | Some d => default NUL (head d) | None => env_delimiter end in
    let '(ok, result) := getDelimitedStringV1or2Raw e result delim in (ok, e, result, error_msg)
  else (false, e, result, error_msg).
End WithAd.

(** ** The map an environment denotes *)

Definition env_map (e : Env) : gmap cstr cstr := to_map (envTable e).

(** The table is well formed, updates duplicate keys and has no empty name. *)
Record env_wf (e : Env) : Prop := mkenv_wf {
  env_table_wf : wf MyStringHash (envTable e);
  env_behavior : duplicateKeyBehavior (envTable e) = updateDuplicateKeys;
  env_keys : map_Forall (fun k _ => k ≠ []) (env_map e);
}.

Lemma Env_new_wf : env_wf Env_new.
Proof. split; [apply initialize_wf|done|]. apply map_Forall_empty. Qed.

Lemma SetEnv_spec e var val :
  env_wf e → var ≠ [] →
  ∃ e', SetEnv e var val = (true, e') ∧ env_wf e' ∧
        env_map e' = <[var := val]> (env_map e) ∧ input_was_v1 e' = input_was_v1 e.
Proof.
  intros [Hwf Hb Hne] Hv. unfold SetEnv. destruct var as [|c var]; [done|].
  simpl (_ =? 0)%nat. cbn iota. eexists; split; [done|].
  pose proof (insert_spec MyStringHash (envTable e) (c :: var) val Hwf) as Hi.
  rewrite Hb in Hi. specialize (Hi ltac:(done)).
  pose proof (ht_insert_behavior MyStringHash (envTable e) (c :: var) val) as Hd.
  destruct (ht_insert _ _ _ _) as [ret t']. simpl in *. destruct Hi as [Hw [_ Hi]].
  split; [split|split]; simpl; [done|congruence| |done..].
  unfold env_map. simpl. rewrite Hi. by apply map_Forall_insert_2.
Qed.

Lemma DeleteEnv_spec e var :
  env_wf e → var ≠ [] →
  ∃ e', DeleteEnv e var = (bool_decide (is_Some (env_map e !! var)), e') ∧ env_wf e' ∧
        env_map e' = delete var (env_map e).
Proof.
  intros [Hwf Hb Hne] Hv. unfold DeleteEnv. destruct var as [|c var]; [done|].
  simpl (_ =? 0)%nat. cbn iota.
  destruct (lookup_remove_spec MyStringHash (envTable e) (c :: var) Hwf) as (_ & _ & Hr).
  specialize (Hr ltac:(by rewrite Hb)).
  pose proof (ht_remove_behavior MyStringHash (envTable e) (c :: var)) as Hd.
  destruct (ht_remove _ _ _) as [ret t']. destruct Hr as (Hw & Hm & ->).
  eexists; split; [f_equal; unfold env_map; by case_decide; case_bool_decide|].
  split; [split; simpl in *|done]; [done|congruence|].
  unfold env_map; simpl. rewrite Hm. by apply map_Forall_delete.
Qed.

Lemma env_entries_spec e :
  env_wf e → NoDup (env_entries e).*1 ∧ env_entries e ≡ₚ map_to_list (env_map e) ∧
             env_entries e = entries (envTable e).
Proof.
  intros [Hwf Hb _].
  assert (env_entries e = entries (envTable e)) as ->.
  { unfold env_entries. rewrite (iterate_all_entries MyStringHash); [done..|].
    rewrite (wf_num _ _ Hwf), Nat2Z.id. unfold entries. rewrite length_fmap. lia. }
  destruct (entries_perm MyStringHash (envTable e) Hwf) as [H1 H2]; [by rewrite Hb|]. done.
Qed.

(** The list of assignments [l], one after the other. *)
Definition set_list (e : Env) (l : list (cstr * cstr)) : Env :=
  foldl (fun e '(var, val) => snd (SetEnv e var val)) e l.

Lemma foldl_insert_union (l : list (cstr * cstr)) : ∀ m : gmap cstr cstr,
  NoDup l.*1 → foldl (fun m kv => <[fst kv := snd kv]> m) m l = list_to_map l ∪ m.
Proof.
  induction l as [|[k v] l IH]; intros m Hnd; cbn [foldl]; [symmetry; apply (map_empty_union m)|].
  apply NoDup_cons in Hnd as [Hk Hnd]. rewrite IH by done. simpl.
  rewrite <- insert_union_l. rewrite insert_union_r; [done|]. by apply not_elem_of_list_to_map.
Qed.

Lemma set_list_spec l : ∀ e,
  env_wf e → Forall (fun kv => fst kv ≠ []) l →
  env_wf (set_list e l) ∧ input_was_v1 (set_list e l) = input_was_v1 e ∧
  env_map (set_list e l) = foldl (fun m kv => <[fst kv := snd kv]> m) (env_map e) l.
Proof.
  induction l as [|[k v] l IH]; intros e Hwf Hl; simpl; [done|].
  apply Forall_cons in Hl as [Hk Hl].
  destruct (SetEnv_spec e k v Hwf Hk) as (e' & -> & He' & Hm & Hv). simpl.
  destruct (IH e' He' Hl) as (? & ? & ?). rewrite <- Hm, <- Hv. done.
Qed.

(** Assigning the entries of one environment to another. *)
Lemma set_entries_union e e0 :
  env_wf e → env_wf e0 →
  env_wf (set_list e0 (env_entries e)) ∧
  env_map (set_list e0 (env_entries e)) = env_map e ∪ env_map e0.
Proof.
  intros He He0. destruct (env_entries_spec e He) as (Hnd & Hp & Hent).
  destruct (set_list_spec (env_entries e) e0 He0) as (Hw & _ & Hm).
  { rewrite Hp. pose proof (env_keys e He) as Hk. apply map_Forall_to_list in Hk. eapply Forall_impl; [exact Hk|].
    by intros [??]. }
  split; [done|]. rewrite Hm, foldl_insert_union by done. by rewrite Hent.
Qed.

(** ** Entries as text *)

(** What a name and a value must satisfy for the entry to be read back: no [=]
    in the name, and no value only for an unexpanded macro. *)
Definition entry_ok (kv : cstr * cstr) : Prop :=
  fst kv ≠ [] ∧ "="%char ∉ fst kv ∧
  (snd kv = NO_ENVIRONMENT_VALUE → is_Some (Str.strstr (fst kv) (L "$$"))).

Lemma split_eq_app var val : "="%char ∉ var → split_eq (var ++ "="%char :: val) = Some (var, val).
Proof.
  induction var as [|c var IH]; intros Hv; simpl; [done|].
  destruct (Ascii.eqb_spec c "="); [set_solver|]. by rewrite IH by set_solver.
Qed.

Lemma split_eq_None s : "="%char ∉ s → split_eq s = None.
Proof.
  induction s as [|c s IH]; intros Hs; simpl; [done|].
  destruct (Ascii.eqb_spec c "="); [set_solver|]. by rewrite IH by set_solver.
Qed.

Lemma SetEnv_text e kv em :
  entry_ok kv →
  SetEnvWithErrorMessage e (Some (env_text kv)) em = (true, snd (SetEnv e (fst kv) (snd kv)), em).
Proof.
  destruct kv as [var val]. intros (Hne & Heq & Hno). unfold env_text, SetEnvWithErrorMessage.
  cbn [fst snd] in *. destruct var as [|c var]; [done|]. case_bool_decide as E.
  - rewrite split_eq_None by done. rewrite bool_decide_true by auto. by rewrite E.
  - simpl app. change (c :: var ++ "="%char :: val) with ((c :: var) ++ "="%char :: val).
    by rewrite split_eq_app.
Qed.

Lemma set_all_text l em : ∀ e,
  Forall entry_ok l → set_all e (env_text <$> l) em = (true, set_list e l, em).
Proof.
  induction l as [|[k v] l IH]; intros e Hl; [done|].
  apply Forall_cons in Hl as [Hk Hl]. rewrite fmap_cons. cbn [set_all].
  rewrite SetEnv_text by done. by rewrite IH.
Qed.

Lemma env_entries_Forall e (P : cstr * cstr → Prop) :
  env_wf e → map_Forall (fun k v => P (k, v)) (env_map e) → Forall P (env_entries e).
Proof.
  intros He Hm. destruct (env_entries_spec e He) as (_ & Hp & _). rewrite Hp.
  apply map_Forall_to_list in Hm. eapply Forall_impl; [exact Hm|]. by intros [??].
Qed.

(** ** V1 text *)

Definition v1_entry_ok (kv : cstr * cstr) : Prop :=
  entry_ok kv ∧ ∀ c, head (fst kv) = Some c → is_ws c = false.

Definition v1_safe (kv : cstr * cstr) : bool :=
  IsSafeEnvV1Value (fst kv) env_delimiter && IsSafeEnvV1Value (snd kv) env_delimiter.

(** The text of a list of entries. *)
Fixpoint v1_text (l : list (cstr * cstr)) : cstr :=
  match l with
  | [] => []
  | [kv] => env_text kv
  | kv :: l => env_text kv ++ env_delimiter :: v1_text l
  end.

Lemma v1_write_more l : ∀ kv r em,
  Forall (fun kv => v1_safe kv = true) l →
  v1_write env_delimiter l false (r ++ env_text kv) em = (true, r ++ v1_text (kv :: l), em).
Proof.
  induction l as [|[k v] l IH]; intros kv r em Hl; [done|].
  apply Forall_cons in Hl as [Hk Hl]. unfold v1_safe in Hk. cbn [fst snd] in Hk.
  cbn [v1_write]. rewrite Hk.
  replace (((r ++ env_text kv) ++ [env_delimiter]) ++ env_text (k, v))
    with ((r ++ env_text kv ++ [env_delimiter]) ++ env_text (k, v)) by (by rewrite <- !app_assoc).
  rewrite IH by done. rewrite <- !app_assoc. done.
Qed.

Lemma v1_write_text l em :
  Forall (fun kv => v1_safe kv = true) l →
  v1_write env_delimiter l true [] em = (true, v1_text l, em).
Proof.
  destruct l as [|[k v] l]; intros Hl; [done|]. apply Forall_cons in Hl as [Hk Hl].
  unfold v1_safe in Hk. cbn [fst snd] in Hk. cbn [v1_write]. rewrite Hk. by apply (v1_write_more l (k, v) []).
Qed.

Lemma v1_write_unsafe l em : ∀ b r,
  ¬ Forall (fun kv => v1_safe kv = true) l →
  ∃ s em', v1_write env_delimiter l b r em = (false, s, em') ∧ prefix r s.
Proof.
  induction l as [|[k v] l IH]; intros b r Hl; [by contradict Hl|]. cbn [v1_write].
  destruct (IsSafeEnvV1Value k _ && IsSafeEnvV1Value v _) eqn:E; [|eauto].
  destruct (IH false ((if b then r else r ++ [env_delimiter]) ++ env_text (k, v))) as (s & em' & -> & Hs).
  { contradict Hl. by apply Forall_cons. }
  do 2 eexists; split; [done|]. etrans; [|exact Hs].
  destruct b; rewrite <- ?app_assoc; by eexists.
Qed.

Lemma IsSafeEnvV1_chars s :
  IsSafeEnvV1Value s env_delimiter = true ↔ Forall (fun c => c ≠ NL ∧ c ≠ env_delimiter) s.
Proof.
  unfold IsSafeEnvV1Value. change (env_delimiter =c NUL) with false. cbn iota.
  rewrite Nat.leb_le, strcspn_ge, forallb_Forall. apply Forall_proper; [|done].
  intros c. unfold has_char. cbn [existsb]. rewrite orb_false_r, negb_orb, andb_true_iff.
  rewrite !negb_true_iff, !Ascii.eqb_neq. split; intros [? ?]; split; congruence.
Qed.

Lemma env_text_safe kv :
  v1_safe kv = true → Forall (fun c => c ≠ NL ∧ c ≠ env_delimiter) (env_text kv).
Proof.
  unfold v1_safe. intros [Hk Hv]%andb_true_iff. apply IsSafeEnvV1_chars in Hk, Hv.
  unfold env_text. case_bool_decide; [done|]. apply Forall_app. split; [done|].
  constructor; [done|]. done.
Qed.

Lemma read_entry_word s : ∀ rest,
  Forall (fun c => c ≠ NL ∧ c ≠ env_delimiter) s →
  read_entry (s ++ env_delimiter :: rest) = (s, rest) ∧ read_entry s = (s, []).
Proof.
  induction s as [|c s IH]; intros rest Hs; [done|].
  apply Forall_cons in Hs as [[H1 H2] Hs]. destruct (IH rest Hs) as [E1 E2]. simpl.
  rewrite (proj2 (Ascii.eqb_neq c NL) H1), (proj2 (Ascii.eqb_neq c env_delimiter) H2).
  simpl. by rewrite E1, E2.
Qed.

(** The text of an acceptable entry, as the reader sees it. *)
Lemma env_text_cons kv :
  v1_entry_ok kv → ∃ c t, env_text kv = c :: t ∧ is_ws c = false.
Proof.
  destruct kv as [[|c var] val]; intros [(Hne & _) Hws]; [done|].
  unfold env_text. cbn [fst snd] in *. specialize (Hws c eq_refl).
  case_bool_decide; simpl; eauto.
Qed.

Lemma v1_loop_text l em : ∀ e fuel,
  Forall v1_entry_ok l → Forall (fun kv => v1_safe kv = true) l →
  (length (v1_text l) ≤ fuel)%nat →
  v1_loop fuel e (v1_text l) em = (true, set_list e l, em).
Proof.
  induction l as [|kv l IH]; intros e fuel Hok Hsafe Hf.
  { simpl. by destruct fuel. }
  apply Forall_cons in Hok as [Hkv Hok]. apply Forall_cons in Hsafe as [Hs Hsafe].
  destruct (env_text_cons kv Hkv) as (c & t & Et & Hc).
  pose proof (env_text_safe kv Hs) as Hsc.
  set (rest := match l with [] => [] | _ => env_delimiter :: v1_text l end).
  assert (Htext : v1_text (kv :: l) = env_text kv ++ rest).
  { destruct l; simpl; [by rewrite app_nil_r|done]. }
  assert (Hread : ReadFromDelimitedString (env_text kv ++ rest) = (env_text kv, v1_text l)).
  { unfold ReadFromDelimitedString. rewrite Et in *. simpl app. rewrite skip_while_head by done.
    destruct (read_entry_word (c :: t) (v1_text l) Hsc) as [E1 E2].
    unfold rest. destruct l; [rewrite app_nil_r; exact E2|exact E1]. }
  rewrite Htext in *. destruct fuel as [|fuel]; [rewrite length_app, Et in Hf; simpl in Hf; lia|].
  assert (∃ d u, env_text kv ++ rest = d :: u) as (d & u & Ed) by (rewrite Et; simpl; eauto).
  cbn [v1_loop]. rewrite Ed. rewrite <- Ed, Hread. rewrite Et at 1. cbn iota.
  rewrite SetEnv_text by apply Hkv. rewrite IH; [|done..|].
  - by destruct kv.
  - rewrite length_app, Et in Hf. simpl in Hf. unfold rest in Hf. destruct l; simpl in *; lia.
Qed.

(** ** Copies through text *)

(** Merging the V2 text of an environment. *)
Lemma MergeFromV2Raw_text e e0 mark em :
  env_wf e → env_wf e0 → map_Forall (fun k v => entry_ok (k, v)) (env_map e) →
  MergeFromV2Raw e0 (Some (snd (getDelimitedStringV2Raw e [] mark))) em
  = (true, set_list e0 (env_entries e), em).
Proof.
  intros He He0 Hok. unfold MergeFromV2Raw, getDelimitedStringV2Raw. cbn [snd].
  assert (boundary [] (if mark then [] ++ [RAW_V2_ENV_MARKER] else []) []) as Hb.
  { destruct mark; [apply boundary_space|apply boundary_nil]. }
  unfold split_args. rewrite (split_join_from _ _ _ _ Hb). simpl app.
  apply set_all_text. by apply env_entries_Forall.
Qed.

(** Merging the V1 text of an environment whose entries V1 can express. *)
Lemma MergeFromV1Raw_text e e0 em :
  env_wf e → env_wf e0 → map_Forall (fun k v => v1_entry_ok (k, v)) (env_map e) →
  Forall (fun kv => v1_safe kv = true) (env_entries e) →
  MergeFromV1Raw e0 (Some (v1_text (env_entries e))) em
  = (true, set_list (mkEnv (envTable e0) true) (env_entries e), em).
Proof. intros He He0 Hok Hs. apply v1_loop_text; [by apply env_entries_Forall|done|done]. Qed.

Lemma set_flag_wf e b : env_wf e → env_wf (mkEnv (envTable e) b).
Proof. by intros [???]. Qed.

(** C33. [Env] is a finite map from non-empty names to values: [SetEnv] inserts
    (and refuses the empty name), [DeleteEnv] removes and reports whether the
    name was there, [GetEnv] looks up, [Clear] empties, [Count] is the number of
    names, and each keeps the invariant of the table. *)
Theorem Env_refines_map e var val :
  env_wf e →
  (let '(ok, e') := SetEnv e var val in
   env_wf e' ∧ ok = bool_decide (var ≠ []) ∧
   env_map e' = if ok then <[var := val]> (env_map e) else env_map e) ∧
  (let '(ok, e') := DeleteEnv e var in
   env_wf e' ∧ ok = bool_decide (is_Some (env_map e !! var)) ∧
   env_map e' = delete var (env_map e)) ∧
  GetEnv e var = env_map e !! var ∧
  (env_wf (Env_Clear e) ∧ env_map (Env_Clear e) = ∅) ∧
  Env_Count e = Z.of_nat (size (env_map e)).
Proof.
  intros He. pose proof He as [Hwf Hb Hne]. split_and!.
  - destruct var as [|c var]; [done|].
    destruct (SetEnv_spec e (c :: var) val He) as (e' & -> & ? & ? & _); done.
  - destruct var as [|c var].
    + simpl. assert (env_map e !! [] = None) as Hn.
      { destruct (env_map e !! []) eqn:E; [|done]. by apply Hne in E. }
      rewrite Hn, delete_id by done. done.
    + destruct (DeleteEnv_spec e (c :: var) He) as (e' & -> & ? & ?); done.
  - apply (lookup_remove_spec MyStringHash (envTable e) var Hwf).
  - destruct (ht_clear_wf MyStringHash (envTable e) Hwf) as [? Hm].
    split; [done|done|]. unfold env_map. simpl. rewrite Hm. apply map_Forall_empty.
  - apply (ht_clear_wf MyStringHash (envTable e) Hwf).
  - destruct (env_entries_spec e He) as (_ & Hp & Hent). unfold Env_Count.
    rewrite (wf_num _ _ Hwf). f_equal. rewrite <- length_map_to_list, <- Hp, Hent.
    unfold entries. by rewrite length_fmap.
Qed.

Lemma Env_refines_map_witness :
  let e := snd (SetEnv Env_new (L "PATH") (L "/bin")) in
  env_wf e ∧ GetEnv (snd (SetEnv e (L "PATH") (L "/usr/bin"))) (L "PATH") = Some (L "/usr/bin").
Proof.
  destruct (SetEnv_spec Env_new (L "PATH") (L "/bin") Env_new_wf ltac:(done)) as (e & E & He & _).
  rewrite E. cbn [snd]. split; [done|].
  destruct (Env_refines_map e (L "PATH") (L "/usr/bin") He) as (Hs & _).
  destruct (SetEnv e (L "PATH") (L "/usr/bin")) as [ok e']. destruct Hs as (Hw & -> & Hm).
  cbn [snd]. destruct (Env_refines_map e' (L "PATH") [] Hw) as (_ & _ & -> & _).
  rewrite Hm, bool_decide_true by done. apply lookup_insert_eq.
Defined.

(** C40. V2 text: merging into [e0] what [getDelimitedStringV2Raw] wrote for
    [e], marked or not, succeeds and gives the entries of [e] over those of [e0], for every
    value whatsoever (quotes, white space, newlines, delimiters).  The tables satisfy the
    invariant, the names are not empty and have no [=], and the no-value mark is only on
    names with an unexpanded macro. *)
Theorem V2Raw_Env_roundtrip e e0 mark em :
  env_wf e → env_wf e0 → map_Forall (fun k v => entry_ok (k, v)) (env_map e) →
  ∃ e', MergeFromV2Raw e0 (Some (snd (getDelimitedStringV2Raw e [] mark))) em = (true, e', em) ∧
        env_wf e' ∧ env_map e' = env_map e ∪ env_map e0.
Proof.
  intros He He0 Hok. eexists. split; [by apply MergeFromV2Raw_text|]. by apply set_entries_union.
Qed.

(** [getDelimitedStringV1or2Raw] picks V1 exactly when every entry is
    safe, and either way [MergeFromV1or2Raw] tells the two apart and reads the
    entries back. *)
Theorem V1or2Raw_Env_roundtrip e e0 em :
  env_wf e → env_wf e0 → map_Forall (fun k v => v1_entry_ok (k, v)) (env_map e) →
  ∃ text e', getDelimitedStringV1or2Raw e [] NUL = (true, text) ∧
    MergeFromV1or2Raw e0 (Some text) em = (true, e', em) ∧
    env_wf e' ∧ env_map e' = env_map e ∪ env_map e0 ∧
    (Forall (fun kv => v1_safe kv = true) (env_entries e) → input_was_v1 e' = true) ∧
    (¬ Forall (fun kv => v1_safe kv = true) (env_entries e) → head text = Some RAW_V2_ENV_MARKER).
Proof.
  intros He He0 Hok. unfold getDelimitedStringV1or2Raw, getDelimitedStringV1Raw.
  change (NUL =c NUL) with true. cbn iota.
  pose proof (set_entries_union e (mkEnv (envTable e0) true) He (set_flag_wf e0 true He0)) as [Hw1 Hm1].
  destruct (decide (Forall (fun kv => v1_safe kv = true) (env_entries e))) as [Hs|Hs].
  - rewrite v1_write_text by done. do 2 eexists. split; [done|].
    pose proof (MergeFromV1Raw_text e e0 em He He0 Hok Hs) as Hm.
    pose proof (env_entries_Forall e v1_entry_ok He Hok) as Hf.
    assert (MergeFromV1or2Raw e0 (Some (v1_text (env_entries e))) em
            = MergeFromV1Raw e0 (Some (v1_text (env_entries e))) em) as ->.
    { destruct (env_entries e) as [|kv l]; [done|]. apply Forall_cons in Hf as [Hkv _].
      destruct (env_text_cons kv Hkv) as (c & t & Et & Hc).
      assert (∃ u, v1_text (kv :: l) = c :: u) as [u Eu].
      { destruct l; simpl; rewrite Et; simpl; eauto. }
      unfold MergeFromV1or2Raw. rewrite Eu. destruct (Ascii.eqb_spec c RAW_V2_ENV_MARKER); [|done].
      by subst. }
    split; [exact Hm|]. split; [done|]. split; [done|]. split; [|done]. intros _.
    destruct (set_list_spec (env_entries e) (mkEnv (envTable e0) true)) as (_ & -> & _);
      [by apply set_flag_wf| |done].
    eapply Forall_impl; [exact Hf|]. intros kv Hkv. apply Hkv.
  - destruct (v1_write_unsafe (env_entries e) None true [] Hs) as (s & em' & -> & _).
    cbn iota. change (length (@nil ascii)) with 0%nat.
    replace (if (0 <? length s)%nat then take 0 s else s) with (@nil ascii) by (by destruct s).
    assert (map_Forall (fun k v => entry_ok (k, v)) (env_map e)) as Hok2.
    { intros k v Hkv. by apply Hok in Hkv as [? _]. }
    pose proof (MergeFromV2Raw_text e e0 true em He He0 Hok2) as Hm.
    pose proof (set_entries_union e e0 He He0) as [Hw2 Hm2].
    destruct (join_args_marker (env_text <$> env_entries e)) as [u Hu].
    unfold getDelimitedStringV2Raw in *. change ([] ++ [RAW_V2_ENV_MARKER]) with [SP] in *. cbn [snd] in Hm.
    do 2 eexists. split; [done|].
    unfold MergeFromV1or2Raw. rewrite Hu in Hm |- *. change (SP =c RAW_V2_ENV_MARKER) with true. cbn iota.
    split; [exact Hm|]. done.
Qed.

(** Environments built by assignments. *)
Lemma set_list_new (P : cstr * cstr → Prop) l :
  Forall (fun kv => fst kv ≠ []) l → Forall P l →
  env_wf (set_list Env_new l) ∧ map_Forall (fun k v => P (k, v)) (env_map (set_list Env_new l)).
Proof.
  intros Hl HP. destruct (set_list_spec l Env_new Env_new_wf Hl) as (Hw & _ & Hm).
  split; [done|]. rewrite Hm. change (env_map Env_new) with (∅ : gmap cstr cstr).
  assert (∀ m : gmap cstr cstr, map_Forall (fun k v => P (k, v)) m →
    map_Forall (fun k v => P (k, v)) (foldl (fun m kv => <[fst kv := snd kv]> m) m l)) as H.
  { clear Hl Hw Hm. induction HP as [|[k v] l Hk _ IH]; intros m Hm; [done|].
    apply IH. by apply map_Forall_insert_2. }
  apply H, map_Forall_empty.
Qed.

Definition sample_entries : list (cstr * cstr) :=
  [(L "PATH", L "/bin:/usr/bin"); (L "MSG", L "it's; a 'test'"); (L "$$(X)", NO_ENVIRONMENT_VALUE)].

Lemma sample_ok : Forall v1_entry_ok sample_entries.
Proof.
  repeat constructor; cbn [fst snd]; try done; try set_solver;
    try (intros c [= <-]; reflexivity); vm_compute; eauto.
Qed.

Lemma sample_wf : env_wf (set_list Env_new sample_entries) ∧
  map_Forall (fun k v => v1_entry_ok (k, v)) (env_map (set_list Env_new sample_entries)).
Proof. apply set_list_new; [by repeat constructor|apply sample_ok]. Qed.

Lemma V2Raw_Env_roundtrip_witness :
  let e := set_list Env_new sample_entries in
  ∃ e', MergeFromV2Raw Env_new (Some (snd (getDelimitedStringV2Raw e [] true))) None
        = (true, e', None) ∧
        env_wf e' ∧ env_map e' = env_map e ∪ env_map Env_new.
Proof.
  destruct sample_wf as [Hw Hok].
  apply (V2Raw_Env_roundtrip (set_list Env_new sample_entries) Env_new true None Hw Env_new_wf).
  intros k v Hkv. by apply Hok in Hkv as [? _].
Defined.

Lemma V1or2Raw_Env_roundtrip_witness :
  let e := set_list Env_new sample_entries in
  ∃ text e', getDelimitedStringV1or2Raw e [] NUL = (true, text) ∧
    MergeFromV1or2Raw Env_new (Some text) None = (true, e', None) ∧
    env_map e' = env_map e ∪ env_map Env_new ∧ head text = Some SP.
Proof.
  destruct sample_wf as [Hw Hok].
  destruct (V1or2Raw_Env_roundtrip (set_list Env_new sample_entries) Env_new None
              Hw Env_new_wf Hok) as (text & e' & H1 & H2 & H3 & H4 & _ & H5).
  exists text, e'. split_and!; [done..|]. apply H5.
  intros Hs. rewrite List.Forall_forall in Hs.
  assert (v1_safe (L "MSG", L "it's; a 'test'") = true) as Hx.
  { apply Hs. vm_compute. repeat first [left; reflexivity | right]. }
  vm_compute in Hx. discriminate.
Defined.

(** ** Copies without text *)

Lemma MergeFrom_env_set_list l : ∀ e,
  env_wf e → Forall (fun kv => fst kv ≠ []) l →
  foldl (fun acc '(var, val) =>
    e ← acc; let '(ok, e) := SetEnv e var val in if (ok : bool) then Some e else None)
    (Some e) l = Some (set_list e l).
Proof.
  induction l as [|[k v] l IH]; intros e He Hl; [done|].
  apply Forall_cons in Hl as [Hk Hl]. cbn [foldl]. simpl (Some e ≫= _).
  destruct (SetEnv_spec e k v He Hk) as (e' & Es & He' & _). rewrite Es.
  rewrite IH by done. unfold set_list. simpl. by rewrite Es.
Qed.

Lemma MergeFrom_array_text l : ∀ e b,
  Forall entry_ok l → MergeFrom_array e (env_text <$> l) b = (b, set_list e l).
Proof.
  induction l as [|kv l IH]; intros e b Hl; [done|].
  apply Forall_cons in Hl as [Hk Hl]. rewrite fmap_cons. cbn [MergeFrom_array].
  rewrite SetEnv_text by done. rewrite andb_true_r, IH by done.
  destruct kv as [[|c k] v]; [by destruct Hk|]. unfold env_text. case_bool_decide; done.
Qed.

Lemma env_names_nonempty e : env_wf e → Forall (fun kv => fst kv ≠ []) (env_entries e).
Proof. intros He. apply env_entries_Forall; [done|]. apply (env_keys e He). Qed.

(** Handing an environment over in memory: [getStringArray] never fails its
    ASSERTs and gives one [NAME=value] string per entry; merging that array, or
    merging the environment itself (whose ASSERT does not fire either), puts
    the entries of [e] over those of [e0]. *)
Theorem getStringArray_MergeFrom e e0 :
  env_wf e → env_wf e0 → map_Forall (fun k v => entry_ok (k, v)) (env_map e) →
  ∃ strings e', getStringArray e = Some strings ∧ Z.of_nat (length strings) = Env_Count e ∧
    MergeFrom_array e0 strings true = (true, e') ∧ MergeFrom_env e0 e = Some e' ∧
    env_wf e' ∧ env_map e' = env_map e ∪ env_map e0.
Proof.
  intros He He0 Hok. pose proof (env_names_nonempty e He) as Hne.
  pose proof (env_entries_Forall e entry_ok He Hok) as Hf.
  destruct (env_entries_spec e He) as (_ & _ & Hent).
  assert (Z.of_nat (length (env_entries e)) = numElems (envTable e)) as Hlen.
  { rewrite Hent, (wf_num _ _ (env_table_wf e He)). unfold entries. by rewrite length_fmap. }
  exists (env_text <$> env_entries e), (set_list e0 (env_entries e)). split_and!.
  - unfold getStringArray. rewrite Hlen, Z.leb_refl. cbn [andb].
    replace (forallb _ _) with true; [done|]. symmetry. apply forallb_Forall.
    eapply Forall_impl; [exact Hne|]. intros [[|??] ?]; [done|done].
  - unfold Env_Count. by rewrite length_fmap.
  - by apply MergeFrom_array_text.
  - by apply MergeFrom_env_set_list.
  - by apply set_entries_union.
  - by apply set_entries_union.
Qed.

Lemma getStringArray_MergeFrom_witness :
  let e := set_list Env_new sample_entries in
  ∃ strings e', getStringArray e = Some strings ∧ Z.of_nat (length strings) = Env_Count e ∧
    MergeFrom_array Env_new strings true = (true, e') ∧ MergeFrom_env Env_new e = Some e' ∧
    env_wf e' ∧ env_map e' = env_map e ∪ env_map Env_new.
Proof.
  destruct sample_wf as [Hw Hok].
  apply (getStringArray_MergeFrom (set_list Env_new sample_entries) Env_new Hw Env_new_wf).
  intros k v Hkv. by apply Hok in Hkv as [? _].
Defined.

(** ** Job ads *)

(** The V1 delimiter that [InsertEnvIntoClassAd] uses is the one of this
    platform. *)
Definition native_delim `{JobAd ad} (cad : ad) (opsys : option cstr) : Prop :=
  match opsys with
  | Some o => has_prefix (L "WIN") o = false
  | None => ∀ d, LookupString cad ATTR_JOB_ENVIRONMENT1_DELIM = Some d →
                 default env_delimiter (head d) = env_delimiter
  end.

Lemma getDelimitedStringV1Raw_cases e em delim :
  delim = NUL ∨ delim = env_delimiter →
  if forallb v1_safe (env_entries e)
  then getDelimitedStringV1Raw e [] em delim = (true, v1_text (env_entries e), em)
  else ∃ s em', getDelimitedStringV1Raw e [] em delim = (false, s, em').
Proof.
  intros Hd. assert (getDelimitedStringV1Raw e [] em delim
    = v1_write env_delimiter (env_entries e) true [] em) as ->.
  { by destruct Hd as [-> | ->]. }
  destruct (forallb v1_safe (env_entries e)) eqn:E.
  - apply v1_write_text. by apply forallb_Forall.
  - destruct (v1_write_unsafe (env_entries e) em true []) as (s & em' & -> & _); [|eauto].
    intros Hs. apply forallb_Forall in Hs. congruence.
Qed.

(** What [InsertEnvIntoClassAd] leaves in the ad. *)
Lemma InsertEnv_ad `{JobAdLaws ad} e (cad : ad) em opsys ver :
  native_delim cad opsys →
  let has1 := LookupExpr cad ATTR_JOB_ENVIRONMENT1 in
  let has2 := LookupExpr cad ATTR_JOB_ENVIRONMENT2 in
  let requires1 := match ver with Some v => CondorVersionRequiresV1 v | None => false end in
  let writes2 := (has2 || negb has1) && negb requires1 in
  let safe := forallb v1_safe (env_entries e) in
  let '(ok, cad', _) := InsertEnvIntoClassAd e cad em opsys ver in
  ok = writes2 || safe || has2 ∧
  (ok = true →
   LookupString cad' ATTR_JOB_ENVIRONMENT2
   = (if writes2 then Some (snd (getDelimitedStringV2Raw e [] false)) else None) ∧
   (writes2 = false → LookupString cad' ATTR_JOB_ENVIRONMENT1
     = Some (if safe then v1_text (env_entries e) else L "ENVIRONMENT_CONVERSION_ERROR"))).
Proof.
  intros Hd has1 has2 requires1 writes2 safe. unfold InsertEnvIntoClassAd.
  fold has1 has2 requires1. fold writes2.
  set (cad1 := if requires1 && has2 then Delete cad ATTR_JOB_ENVIRONMENT2 else cad).
  unfold getDelimitedStringV2Raw. cbn iota beta.
  set (text2 := join_args _ _ _).
  set (cad2 := if writes2 then Assign cad1 ATTR_JOB_ENVIRONMENT2 text2 else cad1).
  assert (H2 : LookupString cad2 ATTR_JOB_ENVIRONMENT2 = if writes2 then Some text2 else None).
  { unfold cad2. destruct writes2 eqn:Ew; [by ad_simpl|]. unfold cad1.
    destruct requires1, has2 eqn:Eh, has1 eqn:Eh1; try discriminate Ew; simpl;
      ad_simpl; try done; by apply LookupString_absent. }
  assert (Hdl : LookupString cad2 ATTR_JOB_ENVIRONMENT1_DELIM
              = LookupString cad ATTR_JOB_ENVIRONMENT1_DELIM).
  { unfold cad2, cad1. destruct writes2, (requires1 && has2); by ad_simpl. }
  destruct (has1 || requires1) eqn:E1.
  - rewrite Hdl. set (lookup_delim := match opsys with Some _ => None | None => _ end).
    set (delim := match opsys, lookup_delim with Some o, _ => _ | None, Some d => _ | None, None => _ end).
    set (cad3 := match lookup_delim with None => Assign cad2 _ _ | Some _ => cad2 end).
    assert (Hdelim : delim = NUL ∨ delim = env_delimiter).
    { unfold delim, lookup_delim. unfold native_delim in Hd. destruct opsys as [o|].
      - unfold GetEnvV1Delimiter. rewrite Hd. by right.
      - destruct (LookupString cad ATTR_JOB_ENVIRONMENT1_DELIM) as [[|c d]|] eqn:E;
          [by left| |by right]. right. by specialize (Hd _ eq_refl). }
    assert (H3 : LookupString cad3 ATTR_JOB_ENVIRONMENT2 = LookupString cad2 ATTR_JOB_ENVIRONMENT2).
    { unfold cad3. destruct lookup_delim; [done|]. by ad_simpl. }
    pose proof (getDelimitedStringV1Raw_cases e em delim Hdelim) as Hc. fold safe in Hc.
    destruct safe.
    + rewrite Hc. cbn iota. split; [by rewrite orb_true_r|]. intros _. ad_simpl. by rewrite H3, H2.
    + destruct Hc as (s & em' & ->). cbn iota. destruct has2 eqn:Eh2.
      * split; [by rewrite !orb_true_r|]. intros _. ad_simpl. by rewrite H3, H2.
      * split; [|done]. unfold writes2. destruct has1, requires1; done.
  - assert (writes2 = true) as ->.
    { unfold writes2. destruct has1, requires1, has2; done. }
    split; [done|]. intros _. by rewrite H2.
Qed.

(** A job ad: [InsertEnvIntoClassAd] (for a reader of this platform) fails
    exactly when V1 is to be written, cannot express the environment and the ad
    did not hold V2.  When it succeeds and V2 was written, or V1 can express the
    environment, [MergeFrom] reads back exactly the entries; when the
    reader's version requires V1, V1 cannot express them and the ad held V2,
    [MergeFrom] fails on the attribute left there for that purpose. *)
Theorem InsertEnv_MergeFrom `{JobAdLaws ad} e e0 (cad : ad) em em2 opsys ver :
  env_wf e → env_wf e0 → map_Forall (fun k v => v1_entry_ok (k, v)) (env_map e) →
  native_delim cad opsys →
  let has1 := LookupExpr cad ATTR_JOB_ENVIRONMENT1 in
  let has2 := LookupExpr cad ATTR_JOB_ENVIRONMENT2 in
  let requires1 := match ver with Some v => CondorVersionRequiresV1 v | None => false end in
  let writes2 := (has2 || negb has1) && negb requires1 in
  let safe := forallb v1_safe (env_entries e) in
  let '(ok, cad', _) := InsertEnvIntoClassAd e cad em opsys ver in
  ok = writes2 || safe || has2 ∧
  (ok = true →
   if writes2 || safe then
     ∃ e', MergeFrom_ad e0 (Some cad') em2 = (true, e', em2) ∧ env_wf e' ∧
           env_map e' = env_map e ∪ env_map e0
   else fst (fst (MergeFrom_ad e0 (Some cad') em2)) = false).
Proof.
  intros He He0 Hok Hd. pose proof (InsertEnv_ad e cad em opsys ver Hd) as Hi. cbv zeta in *.
  destruct (InsertEnvIntoClassAd e cad em opsys ver) as [[ok cad'] em']. destruct Hi as [Hret Hi].
  split; [done|]. intros Htrue. specialize (Hi Htrue) as [H2 H1]. unfold MergeFrom_ad. rewrite H2.
  destruct ((_ || _) && _); cbn [orb].
  - eexists. split; [apply MergeFromV2Raw_text; [done..|]|by apply set_entries_union].
    intros k v Hkv. by apply Hok in Hkv as [? _].
  - rewrite H1 by done. destruct (forallb v1_safe (env_entries e)) eqn:Es; [|done].
    rewrite MergeFromV1Raw_text; [|done..|by apply forallb_Forall].
    eexists. split; [done|].
    destruct (set_entries_union e (mkEnv (envTable e0) true) He (set_flag_wf e0 true He0)) as [Hw Hm].
    split; [by apply set_flag_wf|exact Hm].
Qed.

Lemma InsertEnv_MergeFrom_witness :
  let e := set_list Env_new sample_entries in
  let cad : map_ad := <[ATTR_JOB_ENVIRONMENT1 := inl (L "A=B")]>
                     (<[ATTR_JOB_ENVIRONMENT2 := inl (L "A=B")]> ∅) in
  let '(ok, cad', _) := InsertEnvIntoClassAd e cad None None None in
  ok = true ∧
  (ok = true →
   ∃ e', MergeFrom_ad Env_new (Some cad') None = (true, e', None) ∧ env_wf e' ∧
         env_map e' = env_map e ∪ env_map Env_new).
Proof.
  destruct sample_wf as [Hw Hok]. revert Hw Hok.
  generalize (set_list Env_new sample_entries) as e. intros e Hw Hok e1 cad. subst e1.
  assert (native_delim cad None) as Hd.
  { intros d Hl. change (LookupString cad ATTR_JOB_ENVIRONMENT1_DELIM) with (@None cstr) in Hl. discriminate. }
  pose proof (InsertEnv_MergeFrom e Env_new cad None None None None Hw Env_new_wf Hok Hd) as Hi.
  replace (LookupExpr cad ATTR_JOB_ENVIRONMENT2) with true in Hi by (vm_compute; reflexivity).
  exact Hi.
Defined.

(** The delimiter saved in the ad is not used by the reader: an environment
    written for a Windows target is read back as one variable. *)
Theorem saved_delimiter_not_read :
  let e := set_list Env_new [(L "A", L "1"); (L "B", L "2")] in
  let cad : map_ad := <[ATTR_JOB_ENVIRONMENT1 := inl []]> ∅ in
  let '(_, cad', _) := InsertEnvIntoClassAd e cad None (Some (L "WINDOWS")) None in
  let '(ok, e', _) := MergeFrom_ad Env_new (Some cad') None in
  LookupString cad' ATTR_JOB_ENVIRONMENT1_DELIM = Some (L "|") ∧ ok = true ∧
  length (env_entries e') = 1%nat.
Proof. vm_compute. auto. Qed.
