(* ===== verification/TimerManager.v ===== *)
(** * TimerManager

    The timers of a daemon, [condor_daemon_core.V6/timer_manager.cpp]: a list
    of heap-allocated timers ordered by their next call, mutated by the handlers
    that [Timeout] calls.  Timers live in a heap from addresses to objects;
    [timer_list] is the list of the addresses in the order of the [next]
    pointers.  A dereference of an address that is not in the heap, an ASSERT
    and an EXCEPT abort the computation. *)
From stdpp Require Import base list strings gmap sorting.
From Stdlib Require Import ZArith Lia.
From S2P Require Import Prelude.
Open Scope Z_scope.

Definition MAX_FIRES_PER_TIMEOUT : Z := 3.
Definition TIMER_NEVER : Z := 0xffffffff.
Definition TIME_T_NEVER : Z := 0x7fffffff.

(** What the timers use of a [Timeslice]; the last arguments are samples of the
    clock. *)
Class TimesliceOps (Timeslice : Type) := {
  getNextStartTime : Timeslice → Z;
  setStartTimeNow : Timeslice → Z → Timeslice;
  setFinishTimeNow : Timeslice → Z → Timeslice;
}.

Record Timer {Timeslice : Type} := mkTimer {
  when : Z;
  period_started : Z;
  period : Z;
  tid : Z;
  handler : nat;
  timeslice : option Timeslice;
}.
Arguments Timer : clear implicits.
Arguments mkTimer {_}.

(** [next_addr] allocates, [freed] lists the addresses [DeleteTimer] was called
    on, [fired] the handler calls (address, time the timer was due, [now]),
    [ticks] counts the readings of the clock. *)
Record TimerManager {Timeslice : Type} := mkTM {
  heap : gmap nat (Timer Timeslice);
  timer_list : list nat;
  list_tail : option nat;
  timer_ids : Z;
  in_timeout : option nat;
  did_reset : bool;
  did_cancel : bool;
  next_addr : nat;
  freed : list nat;
  fired : list (nat * Z * Z);
  ticks : nat;
}.
Arguments TimerManager : clear implicits.
Arguments mkTM {_}.

Section Model.
Context {Timeslice : Type} `{TimesliceOps Timeslice}.
(** The [n]-th reading of the clock. *)
Variable clock : nat → Z.

Abbreviation Timer := (Timer Timeslice).
Abbreviation TM := (TimerManager Timeslice).

Definition TimerManager_new : TM := mkTM ∅ [] None 0 None false false 0%nat [] [] 0%nat.

(** *** Field updates *)
Definition set_heap (h : gmap nat Timer) (s : TM) : TM := mkTM h (timer_list s) (list_tail s) (timer_ids s) (in_timeout s)
  (did_reset s) (did_cancel s) (next_addr s) (freed s) (fired s) (ticks s).
Definition set_list (l : list nat) (tl : option nat) (s : TM) : TM := mkTM (heap s) l tl (timer_ids s) (in_timeout s)
  (did_reset s) (did_cancel s) (next_addr s) (freed s) (fired s) (ticks s).
Definition set_in_timeout (p : option nat) (s : TM) : TM := mkTM (heap s) (timer_list s) (list_tail s) (timer_ids s) p
  (did_reset s) (did_cancel s) (next_addr s) (freed s) (fired s) (ticks s).
Definition set_flags (r c : bool) (s : TM) : TM := mkTM (heap s) (timer_list s) (list_tail s) (timer_ids s) (in_timeout s)
  r c (next_addr s) (freed s) (fired s) (ticks s).
Definition set_fired (f : list (nat * Z * Z)) (s : TM) : TM := mkTM (heap s) (timer_list s) (list_tail s) (timer_ids s) (in_timeout s)
  (did_reset s) (did_cancel s) (next_addr s) (freed s) f (ticks s).

(** *** Primitive steps *)

Definition time : M TM Z := fun s =>
  Some (clock (ticks s), mkTM (heap s) (timer_list s) (list_tail s) (timer_ids s) (in_timeout s)
    (did_reset s) (did_cancel s) (next_addr s) (freed s) (fired s) (S (ticks s))).

Definition deref (a : nat) : M TM Timer := fun s =>
  match heap s !! a with Some t => Some (t, s) | None => None end.
Definition store (a : nat) (t : Timer) : M TM unit := fun s =>
  match heap s !! a with Some _ => Some (tt, set_heap (<[a := t]> (heap s)) s) | None => None end.

(** [new Timer], with [timer_ids++]. *)
Definition alloc (mk : Z → Timer) : M TM (nat * Z) := fun s =>
  let id := timer_ids s in
  Some ((next_addr s, id), mkTM (<[next_addr s := mk id]> (heap s)) (timer_list s) (list_tail s)
    (int32 (id + 1)) (in_timeout s) (did_reset s) (did_cancel s) (S (next_addr s))
    (freed s) (fired s) (ticks s)).

(** *** Operations *)

Definition DeleteTimer (a : nat) : M TM unit :=
  do! deref a in
  modify (fun s => mkTM (delete a (heap s)) (timer_list s) (list_tail s) (timer_ids s)
    (in_timeout s) (did_reset s) (did_cancel s) (next_addr s) (a :: freed s) (fired s) (ticks s)).

(** The walk of [GetTimer], [ResetTimer] and [CancelTimer]: the timer with the
    id and its predecessor. *)
Fixpoint find_timer (id : Z) (l : list nat) (prev : option nat) : M TM (option nat * option nat) :=
  match l with
  | [] => ret (None, prev)
  | a :: l => let! t := deref a in
              if tid t =? id then ret (Some a, prev) else find_timer id l (Some a)
  end.
Definition GetTimer (id : Z) : M TM (option nat * option nat) :=
  let! s := get in find_timer id (timer_list s) None.

(** [prev->next] *)
Fixpoint next_of (a : nat) (l : list nat) : option nat :=
  match l with
  | [] => None
  | b :: l => if (b =? a)%nat then head l else next_of a l
  end.
(** Unlink [b] after [a]. *)
Fixpoint unlink_after (a : nat) (l : list nat) : list nat :=
  match l with
  | [] => []
  | b :: l => if (b =? a)%nat then b :: tail l else b :: unlink_after a l
  end.

Definition RemoveTimer (a : nat) (prev : option nat) : M TM unit :=
  let! s := get in
  if match prev with
     | Some p => negb (bool_decide (next_of p (timer_list s) = Some a))
     | None => negb (bool_decide (head (timer_list s) = Some a))
     end
  then abort
  else
    let l := if bool_decide (head (timer_list s) = Some a) then tail (timer_list s)
             else timer_list s in
    let tl := if bool_decide (list_tail s = Some a) then prev else list_tail s in
    modify (set_list (match prev with Some p => unlink_after p l | None => l end) tl).

(** [x->next = b; b->next = y] for the successor [y] of [x]. *)
Fixpoint link_after (a b : nat) (l : list nat) : list nat :=
  match l with
  | [] => []
  | c :: l => if (c =? a)%nat then c :: b :: l else c :: link_after a b l
  end.
(** [b->next = NULL; x->next = b]: what followed [x] is cut off. *)
Fixpoint link_last (a b : nat) (l : list nat) : list nat :=
  match l with
  | [] => []
  | c :: l => if (c =? a)%nat then [c; b] else c :: link_last a b l
  end.

(** The last timer before the first one that is due later. *)
Fixpoint find_trail (w : Z) (l : list nat) (trail : option nat) : M TM (option nat) :=
  match l with
  | [] => ret trail
  | a :: l => let! t := deref a in
              if w <? when t then ret trail else find_trail w l (Some a)
  end.

Definition InsertTimer (a : nat) : M TM unit :=
  let! s := get in
  let! new_timer := deref a in
  match timer_list s with
  | [] => modify (set_list [a] (Some a))
  | first :: _ =>
      let! ft := deref first in
      if when new_timer <? when ft then modify (set_list (a :: timer_list s) (list_tail s))
      else if when new_timer =? TIME_T_NEVER then
        let! tl := of_option (list_tail s) in
        modify (set_list (link_last tl a (timer_list s)) (Some a))
      else
        let! trail := find_trail (when new_timer) (timer_list s) None in
        let! trail := of_option trail in
        modify (set_list (link_after trail a (timer_list s))
                  (if bool_decide (Some trail = list_tail s) then Some a else list_tail s))
  end.

(** [Timeslice::getTimeToNextRun]. *)
Definition getTimeToNextRun (ts : Timeslice) : M TM Z :=
  let! now := time in
  let delta := int32 (int64 (getNextStartTime ts - now)) in
  ret (if delta <? 0 then 0 else delta).

Definition NewTimer (deltawhen : Z) (h : nat) (p : Z) (ts : option Timeslice) : M TM Z :=
  let! deltawhen := match ts with Some ts => getTimeToNextRun ts | None => ret deltawhen end in
  let! now := time in
  let w := if deltawhen =? TIMER_NEVER then TIME_T_NEVER else int64 (deltawhen + now) in
  let! (a, id) := alloc (fun id => mkTimer w now p id h ts) in
  do! InsertTimer a in
  ret id.

Definition set_when (t : Timer) (w : Z) : Timer := mkTimer w (period_started t) (period t) (tid t) (handler t) (timeslice t).
Definition set_started (t : Timer) (b : Z) : Timer := mkTimer (when t) b (period t) (tid t) (handler t) (timeslice t).
Definition set_period (t : Timer) (p : Z) : Timer := mkTimer (when t) (period_started t) p (tid t) (handler t) (timeslice t).
Definition set_slice (t : Timer) (ts : option Timeslice) : Timer := mkTimer (when t) (period_started t) (period t) (tid t) (handler t) ts.

(** The end of [ResetTimer]: the new fields [t], then the new place. *)
Definition finish_reset (a : nat) (prev : option nat) (t : Timer) (p : Z) : M TM Z :=
  do! store a (set_period t p) in
  do! RemoveTimer a prev in
  do! InsertTimer a in
  let! s := get in
  do! (if bool_decide (in_timeout s = Some a) then modify (set_flags true (did_cancel s))
       else ret tt) in
  ret 0.

Definition ResetTimer (id w p : Z) (recompute_when : bool) (new_timeslice : option Timeslice)
    : M TM Z :=
  let! s := get in
  match timer_list s with
  | [] => ret (-1)
  | _ =>
    let! (found, prev) := find_timer id (timer_list s) None in
    match found with
    | None => ret (-1)
    | Some a =>
      let! t := deref a in
      match new_timeslice, timeslice t with
      | Some ts, _ => finish_reset a prev (set_when (set_slice t (Some ts)) (getNextStartTime ts)) p
      | None, Some _ => ret 0
      | None, None =>
        if recompute_when then
          let w := int64 (period_started t + p) in
          let! now := time in
          let wait_time := int32 (int32 w - int32 now) in
          if p <? wait_time then
            let! now := time in
            finish_reset a prev (set_when (set_started t now) (int64 (now + p))) p
          else finish_reset a prev (set_when t w) p
        else
          let! now := time in
          let w := if w =? TIMER_NEVER then TIME_T_NEVER else int64 (w + now) in
          finish_reset a prev (set_when (set_started t now) w) p
      end
    end
  end.

Definition ResetTimerPeriod (id p : Z) : M TM Z := ResetTimer id 0 p true None.
Definition ResetTimerTimeslice (id : Z) (ts : Timeslice) : M TM bool :=
  let! r := ResetTimer id 0 0 false (Some ts) in ret (r =? 0).
Definition GetTimerTimeslice (id : Z) : M TM (option Timeslice) :=
  let! (found, _) := GetTimer id in
  match found with
  | None => ret None
  | Some a => let! t := deref a in ret (timeslice t)
  end.

Definition CancelTimer (id : Z) : M TM Z :=
  let! s := get in
  match timer_list s with
  | [] => ret (-1)
  | _ =>
    let! (found, prev) := find_timer id (timer_list s) None in
    match found with
    | None => ret (-1)
    | Some a =>
      do! RemoveTimer a prev in
      do! (if bool_decide (in_timeout s = Some a)
           then modify (fun s => set_flags (did_reset s) true s) else DeleteTimer a) in
      ret 0
    end
  end.

Fixpoint cancel_loop (l : list nat) : M TM unit :=
  match l with
  | [] => ret tt
  | a :: l =>
    do! modify (fun s => set_list l (list_tail s) s) in
    let! s := get in
    do! (if bool_decide (in_timeout s = Some a)
         then modify (fun s => set_flags (did_reset s) true s) else DeleteTimer a) in
    cancel_loop l
  end.
Definition CancelAllTimers : M TM unit :=
  let! s := get in
  do! cancel_loop (timer_list s) in
  modify (set_list [] None).

(** *** Timeout *)

(** Seconds until the first timer, truncated to an [int] and at least 0. *)
Definition time_to_next (a : nat) : M TM Z :=
  let! t := deref a in
  let! now := time in
  let result := int32 (int64 (when t - now)) in
  ret (if result <? 0 then 0 else result).

(** A call of [Timeout] from a handler. *)
Definition Timeout_busy : M TM Z :=
  let! s := get in
  match timer_list s with
  | [] => ret 0
  | a :: _ => time_to_next a
  end.

(** The calls a handler makes; what it does besides is not seen by the
    manager. *)
Inductive call :=
| CNew (deltawhen : Z) (h : nat) (p : Z) (ts : option Timeslice)
| CReset (id w p : Z) (recompute_when : bool) (ts : option Timeslice)
| CCancel (id : Z)
| CCancelAll
| CTimeout.

Definition run_call (c : call) : M TM unit :=
  match c with
  | CNew d h p ts => do! NewTimer d h p ts in ret tt
  | CReset id w p r ts => do! ResetTimer id w p r ts in ret tt
  | CCancel id => do! CancelTimer id in ret tt
  | CCancelAll => CancelAllTimers
  | CTimeout => do! Timeout_busy in ret tt
  end.
Fixpoint run_calls (l : list call) : M TM unit :=
  match l with
  | [] => ret tt
  | c :: l => do! run_call c in run_calls l
  end.

(** [handler_calls h s]: what handler [h] does when called in state [s]. *)
Variable handler_calls : nat → TM → list call.

(** After the handler of [a] returned. *)
Definition after_handler (a : nat) : M TM unit :=
  let! s := get in
  if did_cancel s then DeleteTimer a
  else if did_reset s then ret tt
  else
    let! t := deref a in
    let! (found, prev) := GetTimer (tid t) in
    if bool_decide (found = Some a) then
      do! RemoveTimer a prev in
      if (0 <? period t) || bool_decide (is_Some (timeslice t)) then
        let! now := time in
        let! d := match timeslice t with Some ts => getTimeToNextRun ts | None => ret (period t) end in
        do! store a (set_when (set_started t now) (int64 (now + d))) in
        InsertTimer a
      else DeleteTimer a
    else abort.

(** Apply [f] to the timeslice of a timer, if it has one. *)
Definition touch_slice (f : Timeslice → Z → Timeslice) (a : nat) : M TM unit :=
  let! t := deref a in
  match timeslice t with
  | None => ret tt
  | Some ts => let! now := time in store a (set_slice t (Some (f ts now)))
  end.

(** One round: the timer at the head of the list. *)
Definition fire (a : nat) (now : Z) : M TM unit :=
  do! modify (set_in_timeout (Some a)) in
  do! modify (set_flags false false) in
  do! touch_slice setStartTimeNow a in
  let! t := deref a in
  let! s := get in
  do! modify (set_fired ((a, when t, now) :: fired s)) in
  let! s := get in
  do! run_calls (handler_calls (handler t) s) in
  do! touch_slice setFinishTimeNow a in
  after_handler a.

(** Every tenth round, [now] is brought back to the clock. *)
Definition check_skew (cntr now : Z) : M TM (Z * Z) :=
  let cntr := cntr + 1 in
  if 10 <? cntr then
    let! time_sample := time in ret (0, if time_sample <? now then time_sample else now)
  else ret (cntr, now).

(** The loop leaves the last value of [num_fires]; it makes at most
    [MAX_FIRES_PER_TIMEOUT] rounds and one more test. *)
Fixpoint timeout_loop (fuel : nat) (cntr now num_fires : Z) : M TM Z :=
  match fuel with
  | O => abort
  | S fuel =>
    let! s := get in
    match timer_list s with
    | [] => ret num_fires
    | a :: _ =>
      let! t := deref a in
      if when t <=? now then
        if num_fires <? MAX_FIRES_PER_TIMEOUT then
          let! (cntr, now) := check_skew cntr now in
          do! fire a now in
          timeout_loop fuel cntr now (num_fires + 1)
        else ret (num_fires + 1)
      else ret num_fires
    end
  end.

(** [Timeout]: the result and [*pNumFired]. *)
Definition Timeout : M TM (Z * Z) :=
  let! s := get in
  match in_timeout s with
  | Some _ => let! r := Timeout_busy in ret (r, 0)
  | None =>
    let! now := time in
    let! num_fires := timeout_loop 4 0 now 0 in
    let! s := get in
    let! result := match timer_list s with [] => ret (-1) | a :: _ => time_to_next a end in
    do! modify (set_in_timeout None) in
    ret (result, num_fires)
  end.
End Model.

(** ** Lists of addresses *)

Lemma next_of_app (p a : nat) l1 l2 :
  p ∉ l1 → next_of p (l1 ++ p :: a :: l2) = Some a.
Proof.
  induction l1 as [|b l1 IH]; simpl; [by rewrite Nat.eqb_refl|].
  intros Hp. destruct (Nat.eqb_spec b p); [set_solver|]. apply IH. set_solver.
Qed.

Lemma unlink_after_app (p a : nat) l1 l2 :
  p ∉ l1 → unlink_after p (l1 ++ p :: a :: l2) = l1 ++ p :: l2.
Proof.
  induction l1 as [|b l1 IH]; simpl; [by rewrite Nat.eqb_refl|].
  intros Hp. destruct (Nat.eqb_spec b p); [set_solver|]. f_equal. apply IH. set_solver.
Qed.

Lemma link_after_app (p a : nat) l1 l2 :
  p ∉ l1 → link_after p a (l1 ++ p :: l2) = l1 ++ p :: a :: l2.
Proof.
  induction l1 as [|b l1 IH]; simpl; [by rewrite Nat.eqb_refl|].
  intros Hp. destruct (Nat.eqb_spec b p); [set_solver|]. f_equal. apply IH. set_solver.
Qed.

Lemma link_last_app (p a : nat) l : p ∉ l → link_last p a (l ++ [p]) = l ++ [p; a].
Proof.
  induction l as [|b l IH]; simpl; [by rewrite Nat.eqb_refl|].
  intros Hp. destruct (Nat.eqb_spec b p); [set_solver|]. f_equal. apply IH. set_solver.
Qed.

Lemma last_app_cons {A} (l1 : list A) x l2 : last (l1 ++ x :: l2) = last (x :: l2).
Proof. rewrite last_app. destruct (last (x :: l2)) eqn:E; [done|]. by apply last_None in E. Qed.

Lemma last_Some_app {A} (l : list A) x : last l = Some x → ∃ l', l = l' ++ [x].
Proof. apply last_Some. Qed.

(** ** The invariant *)

Section Invariant.
Context {Timeslice : Type} `{TimesliceOps Timeslice}.
Abbreviation Timer := (Timer Timeslice).
Abbreviation TM := (TimerManager Timeslice).
Abbreviation sorted := (StronglySorted Z.le).

(** Timers due at or after [TIME_T_NEVER] are not told apart: [InsertTimer] puts
    those due exactly then at the back whatever is there. *)
Definition clamp (t : Timer) : Z := Z.min (when t) TIME_T_NEVER.
Definition key (h : gmap nat Timer) (a : nat) : Z := from_option clamp 0 (h !! a).

(** [X] are the timers that are allocated and not in the list. *)
Record inv (X : gset nat) (s : TM) : Prop := mkinv {
  inv_nodup : NoDup (timer_list s);
  inv_dom : ∀ a, is_Some (heap s !! a) ↔ a ∈ timer_list s ∨ a ∈ X;
  inv_disj : ∀ a, a ∈ X → a ∉ timer_list s;
  inv_tail : list_tail s = last (timer_list s);
  inv_sorted : sorted (key (heap s) <$> timer_list s);
  inv_addr : ∀ a t, heap s !! a = Some t → (a < next_addr s)%nat ∧ tid t = int32 (Z.of_nat a);
  inv_ids : timer_ids s = int32 (Z.of_nat (next_addr s));
  inv_freed : NoDup (freed s) ∧
              ∀ a, a ∈ freed s ↔ (a < next_addr s)%nat ∧ heap s !! a = None;
}.

(** The timer being served once its handler cancelled it. *)
Definition pending (s : TM) : gset nat :=
  match in_timeout s with
  | Some b => if did_cancel s then {[b]} else ∅
  | None => ∅
  end.

(** The invariant between calls.  Inside a handler, the timer being served is
    in the list, or allocated and out of it once it was cancelled. *)
Definition api_inv (s : TM) : Prop :=
  inv (pending s) s ∧ ∀ b, in_timeout s = Some b → b ∈ timer_list s ∨ did_cancel s = true.

Lemma TimerManager_new_inv : api_inv TimerManager_new.
Proof.
  split; [|done]. split; simpl.
  - constructor.
  - intros a. rewrite lookup_empty. split; [by intros [? ?]|set_solver].
  - set_solver.
  - done.
  - constructor.
  - intros a t. by rewrite lookup_empty.
  - done.
  - split; [constructor|]. intros a. split; [set_solver|]. intros [? _]. lia.
Qed.

Lemma key_insert_ne h a t (l : list nat) : a ∉ l → key (<[a := t]> h) <$> l = key h <$> l.
Proof.
  intros Ha. apply list_fmap_ext. intros i b Hb. unfold key.
  rewrite lookup_insert_ne; [done|]. intros ->. by apply Ha, list_elem_of_lookup_2 with i.
Qed.

Lemma key_delete_ne h a (l : list nat) : a ∉ l → key (delete a h) <$> l = key h <$> l.
Proof.
  intros Ha. apply list_fmap_ext. intros i b Hb. unfold key.
  rewrite lookup_delete_ne; [done|]. intros ->. by apply Ha, list_elem_of_lookup_2 with i.
Qed.

Lemma sorted_split h (l1 l2 : list nat) :
  sorted (key h <$> l1 ++ l2) ↔
  sorted (key h <$> l1) ∧ sorted (key h <$> l2) ∧
  ∀ a b, a ∈ l1 → b ∈ l2 → key h a ≤ key h b.
Proof.
  rewrite fmap_app. split.
  - intros Hs. split_and!.
    + by eapply StronglySorted_app_1_l.
    + by eapply StronglySorted_app_1_r.
    + intros a b Ha Hb. eapply StronglySorted_app_1_elem_of; [done|set_solver..].
  - intros (H1 & H2 & H3). apply StronglySorted_app_2; [|done..].
    intros x y (a & -> & Ha)%list_elem_of_fmap (b & -> & Hb)%list_elem_of_fmap. auto.
Qed.

(** *** Unlinking *)

(** The state with [a] unlinked and its object replaced. *)
Definition taken (a : nat) (t : Timer) (l : list nat) (s : TM) : TM :=
  set_list l (last l) (set_heap (<[a := t]> (heap s)) s).

Lemma inv_taken X s l1 a l2 t t' :
  inv X s → timer_list s = l1 ++ a :: l2 → heap s !! a = Some t → tid t' = tid t →
  inv ({[a]} ∪ X) (taken a t' (l1 ++ l2) s).
Proof.
  intros [Hnd Hdom Hdisj Htl Hs Haddr Hids [Hf1 Hf2]] El Ha Htid.
  rewrite El in *. apply NoDup_app in Hnd as (Hn1 & Hn12 & Hn2).
  apply NoDup_cons in Hn2 as [Hn2a Hn2].
  assert (a ∉ l1 ++ l2) as Hal.
  { rewrite elem_of_app. intros [Hx|Hx]; [|done]. by apply (Hn12 a Hx), list_elem_of_here. }
  split; simpl.
  - apply NoDup_app. split_and!; [done| |done]. intros x Hx Hx2. apply (Hn12 x Hx). set_solver.
  - intros b. destruct (decide (b = a)) as [->|Hne].
    + rewrite lookup_insert_eq. split; [set_solver|eauto].
    + rewrite lookup_insert_ne by done. rewrite Hdom. set_solver.
  - intros b [Hb%elem_of_singleton|Hb]%elem_of_union; [by subst|].
    specialize (Hdisj b Hb). set_solver.
  - done.
  - rewrite key_insert_ne by done. apply sorted_split in Hs as (H1 & H2 & H3).
    apply sorted_split. split_and!; [done|by inversion H2|]. intros x y Hx Hy. apply H3; set_solver.
  - intros b tb. destruct (decide (b = a)) as [->|Hne].
    + rewrite lookup_insert_eq. intros [= <-]. rewrite Htid. by apply Haddr.
    + rewrite lookup_insert_ne by done. apply Haddr.
  - done.
  - split; [done|]. intros b. rewrite Hf2. destruct (decide (b = a)) as [->|Hne].
    + rewrite lookup_insert_eq, Ha. naive_solver.
    + by rewrite lookup_insert_ne.
Qed.

Lemma RemoveTimer_wp (s : TM) l1 a l2 (Q : unit → TM → Prop) :
  NoDup (timer_list s) → timer_list s = l1 ++ a :: l2 → list_tail s = last (timer_list s) →
  Q tt (set_list (l1 ++ l2) (last (l1 ++ l2)) s) → wp (RemoveTimer a (last l1)) s Q.
Proof.
  intros Hnd El Htl HQ. unfold RemoveTimer. wp_steps. rewrite Htl.
  rewrite El in Hnd |- *. apply NoDup_app in Hnd as (Hn1 & Hn12 & Hn2).
  apply NoDup_cons in Hn2 as [Hn2a Hn2].
  assert (a ∉ l1) as Hal1 by (intros Hx; by apply (Hn12 a Hx), list_elem_of_here).
  assert (Htail : (if bool_decide (last (l1 ++ a :: l2) = Some a) then last l1
                   else last (l1 ++ a :: l2)) = last (l1 ++ l2)).
  { rewrite last_app_cons. destruct l2 as [|b l2].
    - rewrite bool_decide_true by done. by rewrite app_nil_r.
    - rewrite last_app_cons. rewrite bool_decide_false; [done|].
      change (last (a :: b :: l2)) with (last (b :: l2)). by intros ?%last_Some_elem_of. }
  destruct (last l1) as [p|] eqn:Ep.
  - apply last_Some in Ep as [l0 ->]. apply NoDup_app in Hn1 as (Hn0 & Hn0p & _).
    assert (p ∉ l0) as Hp by (intros Hx; by apply (Hn0p p Hx), list_elem_of_here).
    rewrite <- !app_assoc. simpl app. rewrite next_of_app by done.
    rewrite bool_decide_true by done. cbn [negb]. wp_steps.
    rewrite (bool_decide_false (head _ = Some a)).
    2:{ destruct l0; simpl; intros [= ->]; set_solver. }
    rewrite unlink_after_app by done. repeat rewrite <- app_assoc in Htail. rewrite <- !app_assoc in HQ.
    simpl app in Htail, HQ. by rewrite Htail.
  - apply last_None in Ep as ->. simpl app in *. simpl head.
    rewrite bool_decide_true by done. cbn [negb]. wp_steps. simpl in *.
    by rewrite Htail.
Qed.

Lemma wp_deref (s : TM) a t (Q : Timer → TM → Prop) :
  heap s !! a = Some t → Q t s → wp (deref a) s Q.
Proof. intros Ha HQ. unfold wp, deref. by rewrite Ha. Qed.

Lemma wp_store (s : TM) a t t' (Q : unit → TM → Prop) :
  heap s !! a = Some t → Q tt (set_heap (<[a := t']> (heap s)) s) → wp (store a t') s Q.
Proof. intros Ha HQ. unfold wp, store. by rewrite Ha. Qed.

Definition tick (s : TM) : TM := mkTM (heap s) (timer_list s) (list_tail s) (timer_ids s)
  (in_timeout s) (did_reset s) (did_cancel s) (next_addr s) (freed s) (fired s) (S (ticks s)).

(** *** The walk *)

(** What the walk finds in [l]. *)
Definition found_spec (s : TM) (id : Z) (l : list nat) (r : option nat * option nat) : Prop :=
  match r with
  | (Some a, prev) => ∃ l1 l2 t, l = l1 ++ a :: l2 ∧ prev = last l1 ∧
                        heap s !! a = Some t ∧ tid t = id ∧
                        ∀ b tb, b ∈ l1 → heap s !! b = Some tb → tid tb ≠ id
  | (None, _) => ∀ b tb, b ∈ l → heap s !! b = Some tb → tid tb ≠ id
  end.

Lemma find_timer_wp (s : TM) id l : ∀ l0,
  (∀ a, a ∈ l → is_Some (heap s !! a)) →
  (∀ b tb, b ∈ l0 → heap s !! b = Some tb → tid tb ≠ id) →
  wp (find_timer id l (last l0)) s (fun r s' => s' = s ∧ found_spec s id (l0 ++ l) r).
Proof.
  induction l as [|a l IH]; intros l0 Hl H0; cbn [find_timer].
  { wp_steps. split; [done|]. simpl. by rewrite app_nil_r. }
  destruct (Hl a) as [t Ht]; [set_solver|]. wp_step. eapply wp_deref; [done|].
  destruct (Z.eqb_spec (tid t) id) as [E|E].
  - wp_steps. split; [done|]. by exists l0, l, t.
  - replace (Some a) with (last (l0 ++ [a])) by (by rewrite last_snoc).
    replace (l0 ++ a :: l) with ((l0 ++ [a]) ++ l) by (by rewrite <- app_assoc).
    apply IH; [set_solver|]. intros b tb Hx. apply elem_of_app in Hx as [?| ->%list_elem_of_singleton]; [eauto|].
    intros Hb. by simplify_eq.
Qed.

Lemma find_timer_inv X (s : TM) id :
  inv X s → wp (find_timer id (timer_list s) None) s
              (fun r s' => s' = s ∧ found_spec s id (timer_list s) r).
Proof.
  intros Hi. apply (find_timer_wp s id (timer_list s) []); [|set_solver].
  intros a Ha. apply (inv_dom _ _ Hi). by left.
Qed.

(** *** Inserting *)

(** Where [InsertTimer] puts a timer due at [w] in the list [l]. *)
Definition insert_place (h : gmap nat Timer) (w : Z) (l l1 l2 : list nat) : Prop :=
  l = l1 ++ l2 ∧
  (w = TIME_T_NEVER ∧ l2 = [] ∨
   (∀ b tb, b ∈ l1 → h !! b = Some tb → when tb ≤ w) ∧
   (∀ b tb, head l2 = Some b → h !! b = Some tb → w < when tb)).

Lemma find_trail_wp (s : TM) w l : ∀ l0 (Q : option nat → TM → Prop),
  (∀ a, a ∈ l → is_Some (heap s !! a)) →
  (∀ b tb, b ∈ l0 → heap s !! b = Some tb → when tb ≤ w) →
  (∀ l1 l2, l = l1 ++ l2 →
     (∀ b tb, b ∈ l0 ++ l1 → heap s !! b = Some tb → when tb ≤ w) →
     (∀ b tb, head l2 = Some b → heap s !! b = Some tb → w < when tb) →
     Q (last (l0 ++ l1)) s) →
  wp (find_trail w l (last l0)) s Q.
Proof.
  induction l as [|a l IH]; intros l0 Q Hl H0 HQ; cbn [find_trail].
  { wp_steps. rewrite <- (app_nil_r l0). apply (HQ [] []); [done| |done]. by rewrite app_nil_r. }
  destruct (Hl a) as [t Ht]; [set_solver|]. wp_step. eapply wp_deref; [done|].
  destruct (Z.ltb_spec w (when t)).
  - wp_steps. rewrite <- (app_nil_r l0). apply (HQ [] (a :: l)); [done| |].
    + by rewrite app_nil_r.
    + intros b tb [= <-] Hb. by simplify_eq.
  - replace (Some a) with (last (l0 ++ [a])) by (by rewrite last_snoc).
    apply IH; [set_solver| |].
    + intros b tb Hx. apply elem_of_app in Hx as [?| ->%list_elem_of_singleton]; [eauto|]. intros Hb. by simplify_eq.
    + intros l1 l2 -> Hl1 Hl2. rewrite <- app_assoc in *. by apply (HQ (a :: l1) l2).
Qed.

Lemma InsertTimer_wp X (s : TM) a t (Q : unit → TM → Prop) :
  inv X s → a ∈ X → heap s !! a = Some t →
  (∀ l1 l2, insert_place (heap s) (when t) (timer_list s) l1 l2 →
            Q tt (set_list (l1 ++ a :: l2) (last (l1 ++ a :: l2)) s)) →
  wp (InsertTimer a) s Q.
Proof.
  intros Hi HaX Ha HQ. unfold InsertTimer. wp_steps. eapply wp_deref; [done|].
  pose proof (inv_tail _ _ Hi) as Htl. pose proof (inv_nodup _ _ Hi) as Hnd.
  assert (∀ b, b ∈ timer_list s → is_Some (heap s !! b)) as Hheap.
  { intros b Hb. apply (inv_dom _ _ Hi). by left. }
  destruct (timer_list s) as [|first l] eqn:El.
  { wp_steps. apply (HQ [] []). split; [done|]. right. set_solver. }
  destruct (Hheap first) as [ft Hft]; [set_solver|]. wp_step. eapply wp_deref; [done|].
  destruct (Z.ltb_spec (when t) (when ft)) as [Hlt|Hge].
  { wp_steps. rewrite Htl. apply (HQ [] (first :: l)). split; [done|]. right. split; [set_solver|].
    intros b tb [= <-] ?. by simplify_eq. }
  destruct (last (first :: l)) as [p|] eqn:Ep; [|by apply last_None in Ep].
  destruct (Z.eqb_spec (when t) TIME_T_NEVER) as [Ew|Ew].
  - rewrite Htl. wp_steps. eapply wp_of_option; [done|]. wp_steps.
    apply last_Some in Ep as [l0 E0]. rewrite E0 in *. apply NoDup_app in Hnd as (_ & Hn & _).
    rewrite link_last_app by (intros Hx; by apply (Hn p Hx), list_elem_of_here).
    replace (l0 ++ [p; a]) with ((l0 ++ [p]) ++ [a]) by (by rewrite <- app_assoc).
    replace (Some a) with (last ((l0 ++ [p]) ++ [a])) by (by rewrite last_snoc).
    apply HQ. split; [by rewrite app_nil_r|by left].
  - wp_steps. apply (find_trail_wp s (when t) (first :: l) []); [done|set_solver|].
    intros l1 l2 E12 H1 H2. simpl app in *.
    assert (l1 ≠ []) as Hne.
    { intros ->. simpl in E12. subst l2. specialize (H2 first ft eq_refl Hft). lia. }
    destruct (last l1) as [tr|] eqn:Etr; [|by apply last_None in Etr]. wp_steps.
    eapply wp_of_option; [done|]. wp_steps.
    specialize (HQ l1 l2). rewrite E12 in *.
    assert (insert_place (heap s) (when t) (l1 ++ l2) l1 l2) as Hp by (split; [done|by right]).
    specialize (HQ Hp). apply last_Some in Etr as [l0 ->].
    rewrite <- !app_assoc in *. simpl app in *.
    apply NoDup_app in Hnd as (_ & Hn & Hnp).
    rewrite link_after_app by (intros Hx; by apply (Hn tr Hx), list_elem_of_here).
    rewrite Htl. replace (if bool_decide (Some tr = Some p) then Some a else Some p)
      with (last (l0 ++ tr :: a :: l2)); [done|].
    rewrite last_app_cons in Ep. rewrite last_app_cons. destruct l2 as [|c l2].
    + simpl in Ep. by rewrite bool_decide_true by congruence.
    + change (last (tr :: a :: c :: l2)) with (last (c :: l2)).
      change (last (tr :: c :: l2)) with (last (c :: l2)) in Ep. rewrite Ep.
      rewrite bool_decide_false; [done|]. intros [= ->]. apply last_Some_elem_of in Ep.
      apply NoDup_cons in Hnp as [? _]. done.
Qed.

Lemma key_le_never h a : key h a ≤ TIME_T_NEVER.
Proof. unfold key, clamp. destruct (h !! a); simpl; [|done]. lia. Qed.

Lemma inv_linked X (s : TM) a t l1 l2 :
  inv X s → a ∈ X → heap s !! a = Some t →
  insert_place (heap s) (when t) (timer_list s) l1 l2 →
  inv (X ∖ {[a]}) (set_list (l1 ++ a :: l2) (last (l1 ++ a :: l2)) s).
Proof.
  intros [Hnd Hdom Hdisj Htl Hs Haddr Hids Hf] HaX Ha [El Hpl].
  pose proof (Hdisj a HaX) as Hal. rewrite El in *.
  split; simpl; [| | |done| |done..].
  - rewrite <- Permutation_middle. by apply NoDup_cons.
  - intros b. rewrite Hdom. destruct (decide (b = a)); set_solver.
  - intros b Hb. specialize (Hdisj b). set_solver.
  - apply sorted_split in Hs as (Hs1 & Hs2 & Hs12).
    assert (key (heap s) a = clamp t) as Hka by (unfold key; by rewrite Ha).
    assert (∀ b, b ∈ l1 → key (heap s) b ≤ clamp t) as H1.
    { intros b Hb. destruct Hpl as [[Ew _]|[Hle _]].
      - unfold clamp. rewrite Ew, Z.min_id. apply key_le_never.
      - destruct (Hdom b) as [_ [tb Htb]]; [set_solver|].
        specialize (Hle b tb Hb Htb). unfold key. rewrite Htb. simpl. unfold clamp. lia. }
    assert (∀ b, b ∈ l2 → clamp t ≤ key (heap s) b) as H2.
    { intros b Hb. destruct Hpl as [[_ ->]|[_ Hgt]]; [set_solver|].
      destruct l2 as [|c l2]; [set_solver|].
      destruct (Hdom c) as [_ [tc Htc]]; [set_solver|].
      specialize (Hgt c tc eq_refl Htc).
      assert (clamp t ≤ key (heap s) c) as Hc
        by (unfold key; rewrite Htc; simpl; unfold clamp; lia).
      apply elem_of_cons in Hb as [->|Hb]; [done|].
      rewrite fmap_cons in Hs2. apply StronglySorted_inv in Hs2 as [_ Hs2].
      rewrite Forall_forall in Hs2. etrans; [exact Hc|]. apply Hs2. set_solver. }
    apply sorted_split. split_and!; [done| |].
    + rewrite fmap_cons. constructor; [done|]. rewrite Forall_forall. rewrite Hka.
      intros x (b & -> & Hb)%list_elem_of_fmap. auto.
    + intros x y Hx [->|Hy]%elem_of_cons; [rewrite Hka; auto|auto].
Qed.

Lemma inv_deleted X (s : TM) a :
  inv X s → a ∈ X →
  inv (X ∖ {[a]}) (mkTM (delete a (heap s)) (timer_list s) (list_tail s) (timer_ids s)
    (in_timeout s) (did_reset s) (did_cancel s) (next_addr s) (a :: freed s) (fired s) (ticks s)).
Proof.
  intros [Hnd Hdom Hdisj Htl Hs Haddr Hids [Hf1 Hf2]] HaX. pose proof (Hdisj a HaX) as Hal.
  destruct (proj2 (Hdom a) (or_intror HaX)) as [t Ht].
  split; simpl; [done| | |done| | |done|].
  - intros b. destruct (decide (b = a)) as [->|Hne].
    + rewrite lookup_delete_eq. split; [by intros [? ?]|set_solver].
    + rewrite lookup_delete_ne by done. rewrite Hdom. set_solver.
  - intros b Hb. apply Hdisj. set_solver.
  - by rewrite key_delete_ne.
  - intros b tb Hb. apply lookup_delete_Some in Hb as [_ Hb]. by apply Haddr.
  - split.
    + apply NoDup_cons. split; [|done]. rewrite Hf2. rewrite Ht. naive_solver.
    + intros b. rewrite elem_of_cons, Hf2. destruct (decide (b = a)) as [->|Hne].
      * rewrite lookup_delete_eq. apply Haddr in Ht. naive_solver.
      * rewrite lookup_delete_ne by done. naive_solver.
Qed.

Lemma DeleteTimer_wp X (s : TM) a :
  inv X s → a ∈ X →
  wp (DeleteTimer a) s (fun _ s' =>
    inv (X ∖ {[a]}) s' ∧ heap s' = delete a (heap s) ∧ timer_list s' = timer_list s ∧
    freed s' = a :: freed s ∧ in_timeout s' = in_timeout s ∧ did_cancel s' = did_cancel s ∧
    fired s' = fired s ∧ next_addr s' = next_addr s).
Proof.
  intros Hi Ha. destruct (proj2 (inv_dom _ _ Hi a) (or_intror Ha)) as [t Ht].
  unfold DeleteTimer. wp_steps. eapply wp_deref; [done|]. wp_steps.
  split; [by apply inv_deleted|done].
Qed.

Lemma inv_alloc X (s : TM) (mk : Z → Timer) :
  (∀ id, tid (mk id) = id) → inv X s →
  inv ({[next_addr s]} ∪ X)
    (mkTM (<[next_addr s := mk (timer_ids s)]> (heap s)) (timer_list s) (list_tail s)
      (int32 (timer_ids s + 1)) (in_timeout s) (did_reset s) (did_cancel s) (S (next_addr s))
      (freed s) (fired s) (ticks s)).
Proof.
  intros Hmk [Hnd Hdom Hdisj Htl Hs Haddr Hids [Hf1 Hf2]].
  assert (heap s !! next_addr s = None) as Hnew.
  { destruct (heap s !! next_addr s) eqn:E; [|done]. apply Haddr in E. lia. }
  assert (next_addr s ∉ timer_list s) as Hnl.
  { intros Hx. destruct (proj2 (Hdom _) (or_introl Hx)) as [? ?]. congruence. }
  split; simpl; [done| | |done| | | |].
  - intros b. destruct (decide (b = next_addr s)) as [->|Hne].
    + rewrite lookup_insert_eq. split; [set_solver|eauto].
    + rewrite lookup_insert_ne by done. rewrite Hdom. set_solver.
  - intros b [Hb%elem_of_singleton|Hb]%elem_of_union; [by subst|auto].
  - by rewrite key_insert_ne.
  - intros b tb. destruct (decide (b = next_addr s)) as [->|Hne].
    + rewrite lookup_insert_eq. intros [= <-]. rewrite Hmk, Hids. split; [lia|done].
    + rewrite lookup_insert_ne by done. intros Hb. apply Haddr in Hb as [? ?]. split; [lia|done].
  - rewrite Hids. unfold int32, wrap. rewrite Nat2Z.inj_succ. f_equal.
    set (n := Z.of_nat (next_addr s)).
    replace (Z.succ n + 2 ^ (32 - 1)) with ((n + 2 ^ (32 - 1)) + 1) by lia.
    rewrite <- (Zplus_mod_idemp_l (n + 2 ^ (32 - 1)) 1). f_equal. lia.
  - split; [done|]. intros b. rewrite Hf2. destruct (decide (b = next_addr s)) as [->|Hne].
    + rewrite lookup_insert_eq. naive_solver lia.
    + rewrite lookup_insert_ne by done. naive_solver lia.
Qed.

(** ** The calls *)

(** What a call leaves alone; it creates at most [n] timers. *)
Definition frame (n : nat) (s s' : TM) : Prop :=
  in_timeout s' = in_timeout s ∧ fired s' = fired s ∧
  (next_addr s ≤ next_addr s' ≤ n + next_addr s)%nat.

Lemma inv_ext X (s s' : TM) :
  inv X s → heap s' = heap s → timer_list s' = timer_list s → list_tail s' = list_tail s →
  timer_ids s' = timer_ids s → next_addr s' = next_addr s → freed s' = freed s → inv X s'.
Proof. intros [] E1 E2 E3 E4 E5 E6. split; by rewrite ?E1, ?E2, ?E3, ?E4, ?E5, ?E6. Qed.

Lemma api_inv_tick (s : TM) : api_inv s → api_inv (tick s).
Proof. intros [Hi Hb]. split; [|done]. by apply (inv_ext _ _ (tick s) Hi). Qed.

Lemma InsertTimer_api (s0 : TM) X a t (Q : unit → TM → Prop) :
  inv ({[a]} ∪ X) s0 → a ∉ X → heap s0 !! a = Some t →
  (∀ l1 l2, let s' := set_list (l1 ++ a :: l2) (last (l1 ++ a :: l2)) s0 in
     insert_place (heap s0) (when t) (timer_list s0) l1 l2 → inv X s' → Q tt s') →
  wp (InsertTimer a) s0 Q.
Proof.
  intros Hi Ha Ht HQ. eapply InsertTimer_wp; [exact Hi|set_solver|exact Ht|].
  intros l1 l2 Hp. apply HQ; [done|].
  replace X with (({[a]} ∪ X) ∖ {[a]}) by set_solver. by eapply inv_linked; [|set_solver|..].
Qed.

(** The clock. *)
Variable clock : nat → Z.

Lemma wp_time (s : TM) (Q : Z → TM → Prop) : Q (clock (ticks s)) (tick s) → wp (time clock) s Q.
Proof. done. Qed.

Lemma getTimeToNextRun_wp ts (s : TM) (Q : Z → TM → Prop) :
  (∀ d, Q d (tick s)) → wp (getTimeToNextRun clock ts) s Q.
Proof. intros HQ. unfold getTimeToNextRun. wp_steps. apply wp_time. wp_steps. apply HQ. Qed.

Lemma slice_delay_wp (o : option Timeslice) d (s : TM) (Q : Z → TM → Prop) :
  (∀ d s', s' = s ∨ s' = tick s → Q d s') →
  wp (match o with Some ts => getTimeToNextRun clock ts | None => ret d end) s Q.
Proof.
  intros HQ. destruct o; [apply getTimeToNextRun_wp; intros d'|wp_steps]; apply HQ; auto.
Qed.

Lemma NewTimer_wp d h p ts (s : TM) :
  api_inv s → wp (NewTimer clock d h p ts) s (fun id s' =>
    api_inv s' ∧ frame 1 s s' ∧ id = timer_ids s ∧
    did_reset s' = did_reset s ∧ did_cancel s' = did_cancel s ∧
    ∃ t, heap s' = <[next_addr s := t]> (heap s) ∧ tid t = id ∧ handler t = h ∧
         period t = p ∧ timeslice t = ts ∧
         ∃ l1 l2, insert_place (heap s') (when t) (timer_list s) l1 l2 ∧
                  timer_list s' = l1 ++ next_addr s :: l2).
Proof.
  intros [Hi Hb]. unfold NewTimer. wp_steps. apply slice_delay_wp. intros d' s1 Hs1.
  wp_steps. apply wp_time. set (s2 := tick s1). wp_steps.
  set (w := if d' =? TIMER_NEVER then _ else _).
  assert (inv (pending s) s2) as Hi2.
  { apply (inv_ext _ _ s2 Hi); destruct Hs1 as [-> | ->]; done. }
  assert (next_addr s2 = next_addr s ∧ in_timeout s2 = in_timeout s ∧ heap s2 = heap s ∧
          timer_list s2 = timer_list s ∧ did_reset s2 = did_reset s ∧
          did_cancel s2 = did_cancel s ∧ timer_ids s2 = timer_ids s ∧ fired s2 = fired s)
    as (En & Et & Eh & El & Er & Ec & Ei & Ef) by (destruct Hs1 as [-> | ->]; done).
  set (now := clock (ticks s1)). clearbody s2 now w.
  unfold alloc. eapply wp_intro; [reflexivity|]. cbv beta iota.
  pose proof (inv_alloc (pending s) s2 (fun id => mkTimer w now p id h ts)
                (fun _ => eq_refl) Hi2) as Ha.
  wp_steps. rewrite <- En. eapply InsertTimer_api; [exact Ha| |simpl; apply lookup_insert_eq|].
  { intros Hx. destruct (proj2 (inv_dom _ _ Hi2 _) (or_intror Hx)) as [tx Hx'].
    apply (inv_addr _ _ Hi2) in Hx'. lia. }
  intros l1 l2 s' Hp Hi'. wp_steps. split_and!.
  - split; [|].
    + replace (pending s') with (pending s); [done|]. unfold pending, s'. simpl. by rewrite Et, Ec.
    + unfold s'. simpl. rewrite Et, Ec. intros b Hb'. destruct (Hb b Hb') as [Hin|]; [left|by right].
      destruct Hp as [E _]. simpl in E. rewrite El in E. rewrite E in Hin. set_solver.
  - unfold frame, s'. simpl. rewrite Et, Ef, En. split_and!; [done..|lia|lia].
  - done.
  - done.
  - done.
  - eexists. unfold s'. simpl. rewrite Eh. split; [done|]. do 4 (split; [done|]).
    exists l1, l2. simpl in Hp. rewrite Eh, El in Hp. done.
Qed.

Lemma finish_reset_wp (s : TM) l1 a l2 t t' p :
  api_inv s → timer_list s = l1 ++ a :: l2 → heap s !! a = Some t → tid t' = tid t →
  wp (finish_reset a (last l1) t' p) s (fun r s' =>
    r = 0 ∧ api_inv s' ∧ frame 0 s s' ∧ heap s' = <[a := set_period t' p]> (heap s) ∧
    did_cancel s' = did_cancel s ∧
    did_reset s' = (bool_decide (in_timeout s = Some a) || did_reset s) ∧
    ∃ l1' l2', insert_place (heap s') (when t') (l1 ++ l2) l1' l2' ∧ timer_list s' = l1' ++ a :: l2').
Proof.
  intros [Hi Hb] El Ht Htid. unfold finish_reset. wp_steps. eapply wp_store; [done|].
  wp_steps. apply (RemoveTimer_wp _ l1 a l2);
    [apply (inv_nodup _ _ Hi)|exact El|apply (inv_tail _ _ Hi)|].
  wp_steps.
  pose proof (inv_taken _ s l1 a l2 t (set_period t' p) Hi El Ht Htid) as Hi1.
  fold (taken a (set_period t' p) (l1 ++ l2) s).
  set (s1 := taken a (set_period t' p) (l1 ++ l2) s) in *.
  eapply InsertTimer_api; [exact Hi1| |unfold s1; simpl; apply lookup_insert_eq|].
  { intros Hx. apply (inv_disj _ _ Hi a Hx). rewrite El. set_solver. }
  intros l1' l2' s2 Hp Hi2. wp_steps.
  assert (∀ r, api_inv (set_flags r (did_cancel s) s2)) as Hapi.
  { intros r. split.
    - apply (inv_ext _ s2); [|done..]. exact Hi2.
    - simpl. intros b Hb'. destruct (Hb b Hb') as [Hin|]; [left|by right].
      destruct Hp as [E _]. simpl in E. rewrite El in Hin.
      assert (b = a ∨ b ∈ l1' ++ l2') as [->|] by (rewrite <- E; set_solver); set_solver. }
  change (in_timeout s2) with (in_timeout s). case_bool_decide as Eb; wp_steps.
  - split_and!; [done|apply Hapi|unfold frame; simpl; split_and!; [done..|lia]|done|done|done|].
    by exists l1', l2'.
  - split_and!; [done|exact (Hapi (did_reset s))|unfold frame; simpl; split_and!; [done..|lia]
                |done|done|done|].
    by exists l1', l2'.
Qed.

Lemma inv_unlinked X (s : TM) l1 a l2 :
  inv X s → timer_list s = l1 ++ a :: l2 →
  inv ({[a]} ∪ X) (set_list (l1 ++ l2) (last (l1 ++ l2)) s).
Proof.
  intros Hi El. destruct (proj2 (inv_dom _ _ Hi a)) as [t Ht]; [left; rewrite El; set_solver|].
  pose proof (inv_taken X s l1 a l2 t t Hi El Ht eq_refl) as Hx. unfold taken in Hx.
  rewrite insert_id in Hx by done. exact Hx.
Qed.

Lemma not_pending (s : TM) a : inv (pending s) s → a ∈ timer_list s → a ∉ pending s.
Proof. intros Hi Ha Hx. by apply (inv_disj _ _ Hi a Hx). Qed.

(** The state in which [ResetTimer] changed timer [a] into [t]. *)
Definition reset_to (s s' : TM) (a : nat) (l1 l2 : list nat) (t : Timer) : Prop :=
  heap s' = <[a := t]> (heap s) ∧
  did_reset s' = (bool_decide (in_timeout s = Some a) || did_reset s) ∧
  ∃ l1' l2', insert_place (heap s') (when t) (l1 ++ l2) l1' l2' ∧ timer_list s' = l1' ++ a :: l2'.

(** The new fields of the timer; [now] and [now'] are the readings of the clock. *)
Definition reset_fields (t : Timer) (w p : Z) (recompute_when : bool)
    (new_timeslice : option Timeslice) (now now' : Z) : option Timer :=
  match new_timeslice, timeslice t with
  | Some ts, _ => Some (mkTimer (getNextStartTime ts) (period_started t) p (tid t) (handler t) (Some ts))
  | None, Some _ => None
  | None, None => Some
      (if recompute_when then
         let w := int64 (period_started t + p) in
         if p <? int32 (int32 w - int32 now)
         then mkTimer (int64 (now' + p)) now' p (tid t) (handler t) None
         else mkTimer w (period_started t) p (tid t) (handler t) None
       else mkTimer (if w =? TIMER_NEVER then TIME_T_NEVER else int64 (w + now)) now p
              (tid t) (handler t) None)
  end.

(** What [ResetTimer] ensures. *)
Definition reset_post (id w p : Z) (rw : bool) (ts : option Timeslice) (s : TM) (r : Z) (s' : TM)
    : Prop :=
  api_inv s' ∧ frame 0 s s' ∧ did_cancel s' = did_cancel s ∧
  ((r = -1 ∧ s' = s ∧ ∀ b tb, b ∈ timer_list s → heap s !! b = Some tb → tid tb ≠ id) ∨
   (r = 0 ∧ ∃ l1 a l2 t, timer_list s = l1 ++ a :: l2 ∧ heap s !! a = Some t ∧ tid t = id ∧
      match reset_fields t w p rw ts (clock (ticks s)) (clock (S (ticks s))) with
      | None => s' = s
      | Some t' => reset_to s s' a l1 l2 t'
      end)).

Lemma frame_refl (s : TM) : frame 0 s s.
Proof. unfold frame. split_and!; [done..|lia]. Qed.

Lemma reset_go id w p rw ts (s s1 : TM) l1 a l2 t t' :
  api_inv s → timer_list s = l1 ++ a :: l2 → heap s !! a = Some t → tid t = id →
  s1 = s ∨ s1 = tick s ∨ s1 = tick (tick s) → tid t' = tid t →
  reset_fields t w p rw ts (clock (ticks s)) (clock (S (ticks s))) = Some (set_period t' p) →
  wp (finish_reset a (last l1) t' p) s1 (reset_post id w p rw ts s).
Proof.
  intros Hapi El Ht Hid Hs1 Htid Hrf. eapply wp_mono.
  - apply (finish_reset_wp s1 l1 a l2 t t' p); [|destruct Hs1 as [->|[->| ->]]; done..].
    destruct Hs1 as [->|[->| ->]]; auto using api_inv_tick.
  - intros r s' (-> & Hai & Hfr & Hh & Hdc & Hdr & l1' & l2' & Hp & El').
    assert (frame 0 s s' ∧ did_cancel s' = did_cancel s ∧
            reset_to s s' a l1 l2 (set_period t' p)) as (? & ? & ?).
    { unfold reset_to. destruct Hs1 as [->|[->| ->]];
        (split; [exact Hfr|split; [exact Hdc|split; [exact Hh|split; [exact Hdr|]]]]);
        by exists l1', l2'. }
    split_and!; [done..|]. right. split; [done|]. exists l1, a, l2, t. rewrite Hrf. done.
Qed.

Lemma ResetTimer_wp id w p rw ts (s : TM) :
  api_inv s → wp (ResetTimer clock id w p rw ts) s (reset_post id w p rw ts s).
Proof.
  intros Hapi. pose proof Hapi as [Hi Hb]. pose proof (frame_refl s) as Hf.
  unfold ResetTimer. wp_steps. destruct (timer_list s) as [|x l] eqn:El0.
  { wp_steps. split_and!; [done..|]. left. split_and!; [done..|]. rewrite El0. set_solver. }
  wp_steps. pose proof (find_timer_inv _ s id Hi) as Hfind. rewrite El0 in Hfind.
  apply (wp_mono _ _ _ _ Hfind). rewrite <- El0.
  intros [[a|] prev] s1 [-> Hfs]; cbn [found_spec] in Hfs; wp_steps.
  2:{ split_and!; [done..|]. by left. }
  destruct Hfs as (l1 & l2 & t & El & -> & Ht & Hid & Hfirst).
  eapply wp_deref; [done|].
  assert (∀ s1 t', s1 = s ∨ s1 = tick s ∨ s1 = tick (tick s) → tid t' = tid t →
    reset_fields t w p rw ts (clock (ticks s)) (clock (S (ticks s))) = Some (set_period t' p) →
    wp (finish_reset a (last l1) t' p) s1 (reset_post id w p rw ts s)) as Hgo
    by (intros; by eapply reset_go).
  destruct t as [tw tps tp tt th [tts|]], ts as [ts|], rw; cbn in *;
    try (wp_steps; split_and!; [done..|]; right; split; [done|];
         exists l1, a, l2; eexists; split_and!; [done..|]; simpl; done);
    try (apply Hgo; [by left|done|done]); wp_steps; apply wp_time.
  - destruct (p <? int32 (int32 (int64 (tps + p)) - int32 (clock (ticks s)))) eqn:Ewait.
    + wp_steps. apply wp_time. apply Hgo; [auto|done|done].
    + apply Hgo; [auto|done|done].
  - apply Hgo; [auto|done|done].
Qed.

(** *** Cancelling *)

Definition cancel_post (id : Z) (s : TM) (r : Z) (s' : TM) : Prop :=
  api_inv s' ∧ frame 0 s s' ∧
  ((r = -1 ∧ s' = s ∧ ∀ b tb, b ∈ timer_list s → heap s !! b = Some tb → tid tb ≠ id) ∨
   (r = 0 ∧ ∃ l1 a l2 t, timer_list s = l1 ++ a :: l2 ∧ heap s !! a = Some t ∧ tid t = id ∧
      timer_list s' = l1 ++ l2 ∧
      if bool_decide (in_timeout s = Some a)
      then did_cancel s' = true ∧ heap s' = heap s ∧ freed s' = freed s
      else did_cancel s' = did_cancel s ∧ heap s' = delete a (heap s) ∧ freed s' = a :: freed s)).

Lemma pending_busy (s : TM) b : in_timeout s = Some b → inv (pending s) s → b ∈ timer_list s →
  pending s = ∅ ∧ did_cancel s = false.
Proof.
  intros Hb Hi Hin. pose proof (not_pending s b Hi Hin) as Hp. unfold pending in *.
  rewrite Hb in *. destruct (did_cancel s); [set_solver|done].
Qed.

Lemma CancelTimer_wp id (s : TM) :
  api_inv s → wp (CancelTimer id) s (cancel_post id s).
Proof.
  intros Hapi. pose proof Hapi as [Hi Hb]. pose proof (frame_refl s) as Hf.
  unfold CancelTimer. wp_steps. destruct (timer_list s) as [|x l] eqn:El0.
  { wp_steps. split_and!; [done..|]. left. split_and!; [done..|]. rewrite El0. set_solver. }
  wp_steps. pose proof (find_timer_inv _ s id Hi) as Hfind. rewrite El0 in Hfind.
  apply (wp_mono _ _ _ _ Hfind). rewrite <- El0.
  intros [[a|] prev] s1 [-> Hfs]; cbn [found_spec] in Hfs; wp_steps.
  2:{ split_and!; [done..|]. by left. }
  destruct Hfs as (l1 & l2 & t & El & -> & Ht & Hid & Hfirst).
  apply (RemoveTimer_wp _ l1 a l2);
    [apply (inv_nodup _ _ Hi)|exact El|apply (inv_tail _ _ Hi)|].
  pose proof (inv_unlinked _ s l1 a l2 Hi El) as Hi1.
  set (s1 := set_list (l1 ++ l2) (last (l1 ++ l2)) s) in *. wp_steps.
  assert (a ∈ timer_list s) as Hin by (rewrite El; set_solver).
  case_bool_decide as Eb; wp_steps.
  - destruct (pending_busy s a Eb Hi Hin) as [Hp Hdc]. rewrite Hp in Hi1.
    split_and!.
    + rewrite (right_id_L ∅ (∪)) in Hi1. split; [|simpl; auto].
      unfold pending, s1. simpl. rewrite Eb. by apply (inv_ext _ s1).
    + exact Hf.
    + right. split; [done|]. exists l1, a, l2, t. split_and!; [done..|].
      rewrite bool_decide_true by done. done.
  - pose proof (not_pending s a Hi Hin) as Hnp.
    eapply wp_mono; [apply (DeleteTimer_wp _ s1 a Hi1); set_solver|].
    intros [] s' (Hi' & Hh & El' & Hfr & Hto & Hdc & Hfi & Hna). wp_steps.
    replace (({[a]} ∪ pending s) ∖ {[a]}) with (pending s) in Hi' by set_solver.
    unfold s1 in *. simpl in *. split_and!.
    + split; [unfold pending in *; by rewrite Hto, Hdc|].
      rewrite Hto, Hdc, El'. intros b Hb'. destruct (Hb b Hb') as [Hx|]; [left|by right].
      rewrite <- El0, El in Hx. assert (b ≠ a) by congruence. set_solver.
    + unfold frame. rewrite Hto, Hfi, Hna. split_and!; [done..|lia].
    + right. split; [done|]. exists l1, a, l2, t. split_and!; [done..|].
      rewrite bool_decide_false by done. done.
Qed.

(** The loop of [CancelAllTimers] does not maintain [list_tail]. *)
Lemma cancel_loop_wp l : ∀ s : TM,
  inv (pending s) (set_list l (last l) s) →
  (∀ b, in_timeout s = Some b → b ∈ l ∨ did_cancel s = true) →
  wp (cancel_loop l) s (fun _ s' =>
    inv (pending s') (set_list [] None s') ∧ frame 0 s s' ∧
    (∀ b, in_timeout s' = Some b → did_cancel s' = true)).
Proof.
  induction l as [|a l IH]; intros s Hi Hb; cbn [cancel_loop].
  { wp_steps. split_and!; [exact Hi|apply frame_refl|].
    intros b Hb'. destruct (Hb b Hb') as [Hx|]; [by apply elem_of_nil in Hx|done]. }
  pose proof (inv_unlinked _ _ [] a l Hi eq_refl) as Hi1. simpl app in Hi1.
  assert (a ∉ pending s) as Hnp.
  { intros Hx. apply (inv_disj _ _ Hi a Hx). simpl. set_solver. }
  wp_steps. simpl in_timeout. case_bool_decide as Eb; wp_steps.
  - assert (pending s = ∅) as Hp.
    { unfold pending in *. rewrite Eb in *. destruct (did_cancel s); [set_solver|done]. }
    rewrite Hp, (right_id_L ∅ (∪)) in Hi1. eapply wp_mono; [apply IH|].
    + unfold pending. simpl. rewrite Eb. by apply (inv_ext _ _ _ Hi1).
    + simpl. auto.
    + intros [] s' (? & ? & ?). done.
  - assert (is_Some (heap s !! a)) as [t Ht].
    { apply (inv_dom _ _ Hi). left. simpl. set_solver. }
    unfold DeleteTimer. wp_steps. eapply wp_deref; [exact Ht|]. wp_steps.
    pose proof (inv_deleted _ _ a Hi1) as Hi2. specialize (Hi2 ltac:(set_solver)).
    replace (({[a]} ∪ pending s) ∖ {[a]}) with (pending s) in Hi2 by set_solver.
    eapply wp_mono; [apply IH|].
    + by apply (inv_ext _ _ _ Hi2).
    + simpl. intros b Hb'. destruct (Hb b Hb') as [Hx|]; [left|by right].
      apply elem_of_cons in Hx as [->|]; [congruence|done].
    + intros [] s' (? & ? & ?). done.
Qed.

Lemma CancelAllTimers_wp (s : TM) :
  api_inv s → wp CancelAllTimers s (fun _ s' => api_inv s' ∧ frame 0 s s' ∧ timer_list s' = []).
Proof.
  intros [Hi Hb]. unfold CancelAllTimers. wp_steps. eapply wp_mono; [apply cancel_loop_wp|].
  - apply (inv_ext _ s); [done..| |done|done|done]. simpl. symmetry. apply (inv_tail _ _ Hi).
  - exact Hb.
  - intros [] s' (Hi' & Hf & Hc). wp_steps. split_and!; [|exact Hf|done].
    split; [exact Hi'|]. intros b Hb'. right. by apply (Hc b).
Qed.

(** ** Handlers *)

Lemma frame_trans n m (s1 s2 s3 : TM) : frame n s1 s2 → frame m s2 s3 → frame (n + m) s1 s3.
Proof.
  intros (E1 & E2 & E3) (F1 & F2 & F3). unfold frame. rewrite F1, F2, E1, E2. split_and!; [done..|lia|lia].
Qed.

Lemma time_to_next_wp a (s : TM) (Q : Z → TM → Prop) :
  is_Some (heap s !! a) →
  (∀ t, heap s !! a = Some t →
    Q (Z.max 0 (int32 (int64 (when t - clock (ticks s))))) (tick s)) →
  wp (time_to_next clock a) s Q.
Proof.
  intros [t Ht] HQ. unfold time_to_next. wp_steps. eapply wp_deref; [done|]. wp_steps.
  apply wp_time. wp_steps. specialize (HQ t Ht).
  destruct (Z.ltb_spec (int32 (int64 (when t - clock (ticks s)))) 0);
    [rewrite Z.max_l in HQ by lia|rewrite Z.max_r in HQ by lia]; done.
Qed.

Lemma head_in_heap X (s : TM) a l : inv X s → timer_list s = a :: l → is_Some (heap s !! a).
Proof. intros Hi El. apply (inv_dom _ _ Hi). left. rewrite El. set_solver. Qed.

Lemma Timeout_busy_wp (s : TM) :
  api_inv s → wp (Timeout_busy clock) s (fun _ s' => api_inv s' ∧ frame 0 s s').
Proof.
  intros Hapi. pose proof Hapi as [Hi _]. unfold Timeout_busy. wp_steps.
  destruct (timer_list s) as [|a l] eqn:El; wp_steps; [split; [done|apply frame_refl]|].
  apply time_to_next_wp; [by eapply head_in_heap|]. intros t Ht.
  split; [by apply api_inv_tick|exact (frame_refl s)].
Qed.

(** The number of timers created by a list of calls. *)
Fixpoint news (l : list (call (Timeslice := Timeslice))) : nat :=
  match l with
  | [] => 0
  | CNew _ _ _ _ :: l => S (news l)
  | _ :: l => news l
  end.

Lemma run_call_wp c (s : TM) :
  api_inv s → wp (run_call clock c) s (fun _ s' => api_inv s' ∧ frame (news [c]) s s').
Proof.
  intros Hi. destruct c; cbn [run_call]; wp_steps.
  - eapply wp_mono; [by apply NewTimer_wp|]. intros id s' (? & ? & _). by wp_steps.
  - eapply wp_mono; [by apply ResetTimer_wp|]. intros r s' (? & ? & _). by wp_steps.
  - eapply wp_mono; [by apply CancelTimer_wp|]. intros r s' (? & ? & _). by wp_steps.
  - eapply wp_mono; [by apply CancelAllTimers_wp|]. intros r s' (? & ? & _). done.
  - eapply wp_mono; [by apply Timeout_busy_wp|]. intros r s' [? ?]. by wp_steps.
Qed.

Lemma run_calls_wp l : ∀ s : TM,
  api_inv s → wp (run_calls clock l) s (fun _ s' => api_inv s' ∧ frame (news l) s s').
Proof.
  induction l as [|c l IH]; intros s Hi; cbn [run_calls]; wp_steps.
  { split; [done|apply frame_refl]. }
  eapply wp_mono; [by apply run_call_wp|]. intros [] s1 [Hi1 Hf1].
  eapply wp_mono; [by apply IH|]. intros [] s2 [Hi2 Hf2]. split; [done|].
  replace (news (c :: l)) with (news [c] + news l)%nat by (by destruct c).
  by eapply frame_trans.
Qed.

(** *** Changes that keep the order *)

Lemma inv_store_same X (s : TM) a t t' :
  inv X s → heap s !! a = Some t → when t' = when t → tid t' = tid t →
  inv X (set_heap (<[a := t']> (heap s)) s).
Proof.
  intros [Hnd Hdom Hdisj Htl Hs Haddr Hids [Hf1 Hf2]] Ha Hw Hid.
  assert (∀ b, is_Some (<[a := t']> (heap s) !! b) ↔ is_Some (heap s !! b)) as Hsome.
  { intros b. destruct (decide (b = a)) as [->|].
    - rewrite lookup_insert_eq, Ha. split; eauto.
    - by rewrite lookup_insert_ne. }
  split; simpl; [done| |done|done| | |done|split; [done|]].
  - intros b. by rewrite Hsome.
  - replace (key (<[a := t']> (heap s)) <$> timer_list s) with (key (heap s) <$> timer_list s); [done|].
    apply list_fmap_ext. intros i b _. unfold key. destruct (decide (b = a)) as [->|].
    + rewrite lookup_insert_eq, Ha. simpl. unfold clamp. by rewrite Hw.
    + by rewrite lookup_insert_ne.
  - intros b tb. destruct (decide (b = a)) as [->|].
    + rewrite lookup_insert_eq. intros [= <-]. rewrite Hid. by apply Haddr.
    + rewrite lookup_insert_ne by done. apply Haddr.
  - intros b. rewrite Hf2. specialize (Hsome b). rewrite !eq_None_not_Some. tauto.
Qed.

Lemma touch_slice_wp f a (s : TM) t :
  api_inv s → heap s !! a = Some t →
  wp (touch_slice clock f a) s (fun _ s' =>
    api_inv s' ∧ frame 0 s s' ∧ did_reset s' = did_reset s ∧ did_cancel s' = did_cancel s ∧
    timer_list s' = timer_list s ∧ freed s' = freed s ∧
    (∀ b, b ≠ a → heap s' !! b = heap s !! b) ∧
    ∃ ts, heap s' !! a = Some (set_slice t ts) ∧ (is_Some ts ↔ is_Some (timeslice t))).
Proof.
  intros Hapi Ht. unfold touch_slice. wp_steps. eapply wp_deref; [done|].
  destruct (timeslice t) as [ts|] eqn:Ets.
  - wp_steps. apply wp_time. eapply wp_store; [exact Ht|]. destruct Hapi as [Hi Hb].
    split; [split|split_and!]; [|exact Hb|exact (frame_refl s)|done..| |].
    + apply (inv_store_same _ (tick s) a t); [by apply (inv_ext _ s)|exact Ht|done|done].
    + intros b Hne. simpl. by rewrite lookup_insert_ne.
    + eexists. simpl. rewrite lookup_insert_eq. split; [done|]. split; eauto.
  - wp_steps. split_and!; [done|apply frame_refl|done..|]. exists None.
    split; [|by rewrite <- Ets]. rewrite Ht. f_equal. by destruct t; simpl in *; subst.
Qed.

(** *** After the handler *)

Lemma tid_inj X (s : TM) a b ta tb :
  inv X s → Z.of_nat (next_addr s) ≤ 2 ^ 31 →
  heap s !! a = Some ta → heap s !! b = Some tb → tid ta = tid tb → a = b.
Proof.
  intros Hi Hn Ha Hb E. apply (inv_addr _ _ Hi) in Ha as [Ha Ia]. apply (inv_addr _ _ Hi) in Hb as [Hb Ib].
  rewrite Ia, Ib in E. rewrite !int32_id in E; [lia|split; lia..].
Qed.

(** What becomes of the timer [a], whose object is [t] when its handler is done. *)
Definition after_post (a : nat) (t : Timer) (s s' : TM) : Prop :=
  if did_cancel s then
    heap s' = delete a (heap s) ∧ freed s' = a :: freed s ∧ timer_list s' = timer_list s
  else if did_reset s then s' = s
  else if (0 <? period t) || bool_decide (is_Some (timeslice t)) then
    freed s' = freed s ∧ a ∈ timer_list s' ∧
    ∃ d, heap s' = <[a := set_when (set_started t (clock (ticks s)))
                           (int64 (clock (ticks s) + d))]> (heap s) ∧
         (timeslice t = None → d = period t)
  else heap s' = delete a (heap s) ∧ freed s' = a :: freed s ∧ a ∉ timer_list s'.

Lemma after_handler_wp a t (s : TM) :
  api_inv s → in_timeout s = Some a → heap s !! a = Some t → Z.of_nat (next_addr s) ≤ 2 ^ 31 →
  wp (after_handler clock a) s (fun _ s' => inv ∅ s' ∧ frame 0 s s' ∧ after_post a t s s').
Proof.
  intros [Hi Hb] Hbusy Ht Hn. unfold after_handler, after_post. wp_steps.
  destruct (did_cancel s) eqn:Edc.
  { assert (pending s = {[a]}) as Hp by (unfold pending; by rewrite Hbusy, Edc).
    rewrite Hp in Hi. eapply wp_mono; [apply (DeleteTimer_wp _ s a Hi); set_solver|].
    intros [] s' (Hi' & Hh & El & Hfr & Hto & Hdc & Hfi & Hna).
    rewrite difference_diag_L in Hi'. split_and!; [done| |done..].
    unfold frame. rewrite Hto, Hfi, Hna. split_and!; [done..|lia]. }
  assert (pending s = ∅) as Hp by (unfold pending; by rewrite Hbusy, Edc). rewrite Hp in Hi.
  destruct (did_reset s) eqn:Edr.
  { wp_steps. split_and!; [done|apply frame_refl|done]. }
  destruct (Hb a Hbusy) as [Hin|]; [|done].
  wp_steps. eapply wp_deref; [done|]. unfold GetTimer. wp_steps.
  eapply wp_mono; [apply (find_timer_inv _ s (tid t) Hi)|].
  intros [found prev] s1 [-> Hfs]. cbn [found_spec] in Hfs.
  destruct found as [a'|]; [|by destruct (Hfs a t Hin Ht)].
  destruct Hfs as (l1 & l2 & t' & El & -> & Ht' & Hid & _).
  assert (a' = a) as -> by (by eapply (tid_inj _ s)). clear t' Ht' Hid.
  rewrite bool_decide_true by done. wp_steps.
  apply (RemoveTimer_wp _ l1 a l2);
    [apply (inv_nodup _ _ Hi)|exact El|apply (inv_tail _ _ Hi)|].
  assert (a ∉ l1 ++ l2) as Hnl.
  { pose proof (inv_nodup _ _ Hi) as Hnd. rewrite El, <- Permutation_middle in Hnd.
    by apply NoDup_cons in Hnd as [? _]. }
  destruct ((0 <? period t) || bool_decide (is_Some (timeslice t))) eqn:Eper.
  - wp_steps. apply wp_time. wp_steps.
    apply (wp_mono _ _ (fun d s1 => (timeslice t = None → d = period t) ∧
      ∀ X, inv X (set_list (l1 ++ l2) (last (l1 ++ l2))
             (set_heap (<[a := set_when (set_started t (clock (ticks s))) (int64 (clock (ticks s) + d))]>
                (heap s)) s)) →
        inv X (set_heap (<[a := set_when (set_started t (clock (ticks s))) (int64 (clock (ticks s) + d))]>
                (heap s)) s1) ∧
        heap s1 = heap s ∧ freed s1 = freed s ∧ frame 0 s s1)).
    { destruct (timeslice t) as [ts|]; [apply getTimeToNextRun_wp; intros d|wp_steps].
      - split; [done|]. intros X HX. split_and!; [by apply (inv_ext _ _ _ HX)|done|done|exact (frame_refl s)].
      - split; [done|]. intros X HX. split_and!; [by apply (inv_ext _ _ _ HX)|done|done|exact (frame_refl s)]. }
    intros d s1 [Hd Hs1]. set (t' := set_when _ _) in *.
    pose proof (inv_taken _ s l1 a l2 t t' Hi El Ht eq_refl) as Hi1.
    apply Hs1 in Hi1 as (Hi1 & Eh & Efr & Hf). wp_steps. rewrite <- Eh in Ht.
    eapply wp_store; [exact Ht|]. rewrite Eh.
    eapply InsertTimer_api; [exact Hi1|set_solver|simpl; apply lookup_insert_eq|].
    intros l1' l2' s' Hpl Hi'. split_and!; [exact Hi'|exact Hf|exact Efr|set_solver|].
    exists d. done.
  - pose proof (inv_unlinked _ s l1 a l2 Hi El) as Hi1.
    eapply wp_mono; [apply (DeleteTimer_wp _ _ a Hi1); set_solver|].
    intros [] s' (Hi' & Hh & El' & Hfr & Hto & Hdc & Hfi & Hna). simpl in *.
    replace (({[a]} ∪ ∅) ∖ {[a]}) with (∅ : gset nat) in Hi' by set_solver.
    split_and!; [done| |done|done|by rewrite El'].
    unfold frame. rewrite Hto, Hfi, Hna. split_and!; [done..|lia].
Qed.

(** ** Timeout *)

Variable handler_calls : nat → TM → list (call (Timeslice := Timeslice)).
Variable budget : nat.
(** A handler creates at most [budget] timers per call. *)
Hypothesis handler_budget : ∀ h s, (news (handler_calls h s) ≤ budget)%nat.

Lemma fire_wp a now (s : TM) t :
  inv ∅ s → a ∈ timer_list s → heap s !! a = Some t →
  Z.of_nat (budget + next_addr s) ≤ 2 ^ 31 →
  wp (fire clock handler_calls a now) s (fun _ s' =>
    inv ∅ s' ∧ fired s' = (a, when t, now) :: fired s ∧
    (next_addr s ≤ next_addr s' ≤ budget + next_addr s)%nat).
Proof.
  intros Hi Hin Ht Hn. unfold fire. wp_steps.
  set (s1 := set_flags false false (set_in_timeout (Some a) s)).
  assert (api_inv s1) as Hi1.
  { split; [by apply (inv_ext _ s)|]. intros b [= <-]. by left. }
  eapply wp_mono; [apply (touch_slice_wp _ a s1 t Hi1 Ht)|].
  intros [] s2 (Hi2 & Hf2 & _ & Hdc2 & El2 & _ & _ & ts & Ht2 & _).
  wp_steps. eapply wp_deref; [exact Ht2|]. wp_steps.
  set (s3 := set_fired _ s2).
  assert (api_inv s3) as Hi3 by (destruct Hi2 as [Hx Hy]; split; [by apply (inv_ext _ s2)|done]).
  eapply wp_mono; [by apply run_calls_wp|]. intros [] s4 [Hi4 Hf4].
  pose proof (handler_budget (handler (set_slice t ts)) s3) as Hbud.
  destruct Hf2 as (Hto2 & Hfi2 & Hn2), Hf4 as (Hto4 & Hfi4 & Hn4). simpl in *.
  assert (in_timeout s4 = Some a) as Hto by (by rewrite Hto4, Hto2).
  assert (is_Some (heap s4 !! a)) as [t4 Ht4].
  { pose proof Hi4 as [Hx Hy]. apply (inv_dom _ _ Hx). unfold pending. rewrite Hto.
    destruct (Hy a Hto) as [?| ->]; [by left|right; set_solver]. }
  wp_steps. eapply wp_mono; [apply (touch_slice_wp _ a s4 t4 Hi4 Ht4)|].
  intros [] s5 (Hi5 & (Hto5 & Hfi5 & Hn5) & _ & _ & _ & _ & _ & ts5 & Ht5 & _).
  eapply wp_mono; [apply (after_handler_wp a (set_slice t4 ts5) s5 Hi5); [congruence|exact Ht5|lia]|].
  intros [] s6 (Hi6 & (Hto6 & Hfi6 & Hn6) & _). split_and!; [done| |lia|lia].
  rewrite Hfi6, Hfi5, Hfi4. simpl. by rewrite Hfi2.
Qed.

(** No timer of the list is due. *)
Definition none_due (s : TM) (now : Z) : Prop :=
  ∀ a t, a ∈ timer_list s → heap s !! a = Some t → now < when t.

Lemma head_not_due X (s : TM) a l t now :
  inv X s → timer_list s = a :: l → heap s !! a = Some t → now < when t → now < TIME_T_NEVER →
  none_due s now.
Proof.
  intros Hi El Ht Hnow Hnev b tb Hb Htb. pose proof (inv_sorted _ _ Hi) as Hs.
  rewrite El in *. rewrite fmap_cons in Hs. apply StronglySorted_inv in Hs as [_ Hs].
  apply elem_of_cons in Hb as [->|Hb]; [by simplify_eq|]. rewrite Forall_forall in Hs.
  assert (key (heap s) a ≤ key (heap s) b) as Hk by (apply Hs, list_elem_of_fmap; eauto).
  unfold key in Hk. rewrite Ht, Htb in Hk. simpl in Hk. unfold clamp in Hk. lia.
Qed.

(** What the loop does from [num_fires] on. *)
Definition loop_post (now num_fires : Z) (s : TM) (n : Z) (s' : TM) : Prop :=
  inv ∅ s' ∧
  Z.of_nat (next_addr s')
    ≤ (MAX_FIRES_PER_TIMEOUT - num_fires) * Z.of_nat budget + Z.of_nat (next_addr s) ∧
  ∃ calls, fired s' = calls ++ fired s ∧
    Forall (fun '(_, due, at_) => due ≤ now ∧ at_ = now) calls ∧
    num_fires + Z.of_nat (length calls) ≤ MAX_FIRES_PER_TIMEOUT ∧
    ((n = num_fires + Z.of_nat (length calls) ∧ (now < TIME_T_NEVER → none_due s' now)) ∨
     (n = MAX_FIRES_PER_TIMEOUT + 1 ∧ num_fires + Z.of_nat (length calls) = MAX_FIRES_PER_TIMEOUT ∧
      ¬ none_due s' now)).

Lemma timeout_loop_wp now fuel : ∀ num_fires (s : TM),
  inv ∅ s → 0 ≤ num_fires ≤ MAX_FIRES_PER_TIMEOUT →
  MAX_FIRES_PER_TIMEOUT - num_fires < Z.of_nat fuel →
  (MAX_FIRES_PER_TIMEOUT - num_fires) * Z.of_nat budget + Z.of_nat (next_addr s) ≤ 2 ^ 31 →
  wp (timeout_loop clock handler_calls fuel num_fires now num_fires) s (loop_post now num_fires s).
Proof.
  induction fuel as [|fuel IH]; intros nf s Hi Hnf Hfuel Hn; [lia|].
  cbn [timeout_loop]. wp_steps. destruct (timer_list s) as [|a l] eqn:El.
  { wp_steps. split; [done|]. split; [nia|]. exists []. split_and!; [done|done|simpl; lia|].
    left. split; [simpl; lia|]. intros _ b tb Hb. rewrite El in Hb. set_solver. }
  destruct (head_in_heap _ s a l Hi El) as [t Ht]. wp_steps. eapply wp_deref; [done|].
  assert (a ∈ timer_list s) as Hin by (rewrite El; set_solver).
  destruct (Z.leb_spec (when t) now) as [Hdue|Hnot].
  2:{ wp_steps. split; [done|]. split; [nia|]. exists []. split_and!; [done|done|simpl; lia|]. left.
      split; [simpl; lia|]. intros. by eapply head_not_due. }
  destruct (Z.ltb_spec nf MAX_FIRES_PER_TIMEOUT) as [Hlt|Hge].
  2:{ wp_steps. split; [done|]. split; [nia|]. exists []. split_and!; [done|done|simpl; lia|]. right.
      split_and!; [lia|simpl; lia|]. intros Hno. specialize (Hno a t Hin Ht). lia. }
  wp_steps. unfold check_skew.
  destruct (Z.ltb_spec 10 (nf + 1)); [unfold MAX_FIRES_PER_TIMEOUT in *; lia|]. wp_steps.
  eapply wp_mono; [apply (fire_wp a now s t Hi Hin Ht); nia|].
  intros [] s1 (Hi1 & Hfi1 & Hn1). eapply wp_mono; [apply IH; [done|lia|lia|nia]|].
  intros n s' (Hi' & Hna & calls & Hc & Hall & Hlen & Hend). split; [done|]. split; [nia|].
  exists (calls ++ [(a, when t, now)]). rewrite length_app. simpl length.
  split_and!.
  - rewrite Hc, Hfi1. by rewrite <- app_assoc.
  - apply Forall_app. split; [done|]. by repeat constructor.
  - lia.
  - destruct Hend as [[-> Hd]|(-> & Hx & Hd)]; [left|right]; split_and!; try done; lia.
Qed.

(** What a call of [Timeout] outside a handler does. *)
Definition timeout_post (s : TM) (r : Z * Z) (s' : TM) : Prop :=
  let now := clock (ticks s) in
  api_inv s' ∧ in_timeout s' = None ∧ (next_addr s' ≤ 3 * budget + next_addr s)%nat ∧
  (∃ calls, fired s' = calls ++ fired s ∧
     Forall (fun '(_, due, at_) => due ≤ now ∧ at_ = now) calls ∧
     Z.of_nat (length calls) ≤ MAX_FIRES_PER_TIMEOUT ∧
     ((snd r = Z.of_nat (length calls) ∧ (now < TIME_T_NEVER → none_due s' now)) ∨
      (snd r = MAX_FIRES_PER_TIMEOUT + 1 ∧ Z.of_nat (length calls) = MAX_FIRES_PER_TIMEOUT ∧
       ¬ none_due s' now))) ∧
  match timer_list s' with
  | [] => fst r = -1
  | a :: _ => ∃ t now', heap s' !! a = Some t ∧ fst r = Z.max 0 (int32 (int64 (when t - now')))
  end.

Lemma Timeout_wp (s : TM) :
  api_inv s → in_timeout s = None →
  MAX_FIRES_PER_TIMEOUT * Z.of_nat budget + Z.of_nat (next_addr s) ≤ 2 ^ 31 →
  wp (Timeout clock handler_calls) s (timeout_post s).
Proof.
  intros Hapi Hidle Hn. unfold Timeout. wp_steps. rewrite Hidle. wp_steps. apply wp_time.
  assert (inv ∅ (tick s)) as Hi.
  { destruct Hapi as [Hi _]. unfold pending in Hi. rewrite Hidle in Hi. by apply (inv_ext _ s). }
  wp_steps. eapply wp_mono; [apply (timeout_loop_wp (clock (ticks s)) 4 0 (tick s) Hi);
    [unfold MAX_FIRES_PER_TIMEOUT; lia..|rewrite Z.sub_0_r; exact Hn]|].
  intros n s1 (Hi1 & Hna & calls & Hc & Hall & Hlen & Hend). simpl in Hc. wp_steps.
  destruct (timer_list s1) as [|a l] eqn:El.
  - wp_steps. unfold timeout_post. cbn [fst snd]. split_and!.
    + split; [|done]. by apply (inv_ext _ s1).
    + done.
    + unfold MAX_FIRES_PER_TIMEOUT in Hna. simpl in *. lia.
    + exists calls. done.
    + simpl. by rewrite El.
  - apply time_to_next_wp; [by eapply head_in_heap|]. intros t Ht. wp_steps.
    unfold timeout_post. cbn [fst snd]. split_and!.
    + split; [|done]. by apply (inv_ext _ s1).
    + done.
    + unfold MAX_FIRES_PER_TIMEOUT in Hna. simpl in *. lia.
    + exists calls. done.
    + simpl. rewrite El. by exists t, (clock (ticks s1)).
Qed.
End Invariant.

(** ** Runs of a daemon *)

Section Runs.
Context {Timeslice : Type} `{TimesliceOps Timeslice}.
Variable clock : nat → Z.
Variable handler_calls : nat → TimerManager Timeslice → list (call (Timeslice := Timeslice)).

(** What the main loop of a daemon does with its timers: calls from other
    handlers, and [Timeout]. *)
Inductive event := ECall (c : call (Timeslice := Timeslice)) | ETimeout.

Definition run_event (e : event) : M (TimerManager Timeslice) unit :=
  match e with
  | ECall c => run_call clock c
  | ETimeout => do! Timeout clock handler_calls in ret tt
  end.
Fixpoint run_events (l : list event) : M (TimerManager Timeslice) unit :=
  match l with
  | [] => ret tt
  | e :: l => do! run_event e in run_events l
  end.

(** How many timers a run can create when a handler creates at most [budget]. *)
Definition created (budget : nat) (e : event) : nat :=
  match e with ECall c => news [c] | ETimeout => 3 * budget end.
Definition total_created (budget : nat) (l : list event) : nat :=
  sum_list (created budget <$> l).
End Runs.
Arguments event : clear implicits.

(** A timeslice with a fixed interval: (next start, interval). *)
#[export] Instance fixed_slice : TimesliceOps (Z * Z) := {
  getNextStartTime ts := fst ts;
  setStartTimeNow ts _ := ts;
  setFinishTimeNow ts now := (now + snd ts, snd ts);
}.

Lemma run_event_wp `{TimesliceOps Timeslice} clock handler_calls budget e (s : TimerManager Timeslice) :
  (∀ h s, (news (handler_calls h s) ≤ budget)%nat) →
  api_inv s → in_timeout s = None → Z.of_nat (created budget e + next_addr s) ≤ 2 ^ 31 →
  wp (run_event clock handler_calls e) s (fun _ s' =>
    api_inv s' ∧ in_timeout s' = None ∧ (next_addr s' ≤ created budget e + next_addr s)%nat).
Proof.
  intros Hbud Hi Hidle Hn. destruct e as [c|]; cbn [run_event created] in *.
  - eapply wp_mono; [by apply run_call_wp|]. intros [] s' (Hi' & Hto & _ & Hna).
    split_and!; [done|congruence|lia].
  - assert (MAX_FIRES_PER_TIMEOUT * Z.of_nat budget + Z.of_nat (next_addr s) ≤ 2 ^ 31) as Hn'
      by (unfold MAX_FIRES_PER_TIMEOUT; lia).
    wp_steps. destruct (wp_inv _ _ _ (Timeout_wp clock handler_calls budget Hbud s Hi Hidle Hn'))
      as ([r n] & s' & E & Hi' & Hto' & Hna & _).
    eapply wp_intro; [exact E|]. by wp_steps.
Qed.

Lemma run_events_wp `{TimesliceOps Timeslice} clock handler_calls budget l :
  (∀ h s, (news (handler_calls h s) ≤ budget)%nat) →
  ∀ s : TimerManager Timeslice,
  api_inv s → in_timeout s = None → Z.of_nat (total_created budget l + next_addr s) ≤ 2 ^ 31 →
  wp (run_events clock handler_calls l) s (fun _ s' => api_inv s' ∧ in_timeout s' = None).
Proof.
  intros Hbud. induction l as [|e l IH]; intros s Hi Hidle Hn; cbn [run_events]; wp_steps; [done|].
  unfold total_created in *. rewrite fmap_cons in Hn. simpl in Hn.
  eapply wp_mono; [apply (run_event_wp clock handler_calls budget e s Hbud Hi Hidle); lia|].
  intros [] s' (Hi' & Hto' & Hn'). apply IH; [done..|lia].
Qed.

(** C14. Whatever the handlers do (create, reset and cancel timers, the one being
    served included, or call [Timeout] again), no run of a daemon's timers
    aborts: no ASSERT or EXCEPT fires and no freed timer is used.  At every point
    between events the list holds exactly the allocated timers, each once, in
    the order of their times (those at or past [TIME_T_NEVER] at the back),
    [list_tail] is its last element, and every timer no longer allocated was
    deleted exactly once.  The bound keeps the [int] ids distinct. *)
Theorem TimerManager_safe `{TimesliceOps Timeslice} clock handler_calls budget
    (l : list (event Timeslice)) :
  (∀ h s, (news (handler_calls h s) ≤ budget)%nat) →
  Z.of_nat (total_created budget l) ≤ 2 ^ 31 →
  wp (run_events clock handler_calls l) TimerManager_new (fun _ s =>
    (∀ a, is_Some (heap s !! a) ↔ a ∈ timer_list s) ∧ NoDup (timer_list s) ∧
    StronglySorted Z.le (key (heap s) <$> timer_list s) ∧ list_tail s = last (timer_list s) ∧
    NoDup (freed s) ∧ (∀ a, a ∈ freed s ↔ (a < next_addr s)%nat ∧ heap s !! a = None)).
Proof.
  intros Hbud Hn. eapply wp_mono.
  - apply (run_events_wp clock handler_calls budget l Hbud TimerManager_new TimerManager_new_inv);
      [done|]. simpl. lia.
  - intros [] s [[Hi _] Hidle]. unfold pending in Hi. rewrite Hidle in Hi.
    destruct Hi as [Hnd Hdom _ Htl Hs _ _ [Hf1 Hf2]]. split_and!; try done.
    intros a. rewrite Hdom. set_solver.
Qed.

(** A handler that cancels and recreates timers, and calls back. *)
Definition busy_handler (h : nat) (s : TimerManager (Z * Z)) : list (call (Timeslice := Z * Z)) :=
  [CNew 5 h 0 None; CCancel 0; CTimeout; CReset 1 0 7 true None; CCancel 2].

Lemma TimerManager_safe_witness :
  wp (run_events (fun n => Z.of_nat n) busy_handler
        [ECall (CNew 1 0 0 None); ECall (CNew 0 1 9 None); ECall (CNew 3 2 0 (Some (4, 2)));
         ETimeout; ECall (CNew TIMER_NEVER 3 0 None); ETimeout; ECall CCancelAll])
     TimerManager_new (fun _ s =>
    (∀ a, is_Some (heap s !! a) ↔ a ∈ timer_list s) ∧ NoDup (timer_list s) ∧
    StronglySorted Z.le (key (heap s) <$> timer_list s) ∧ list_tail s = last (timer_list s) ∧
    NoDup (freed s) ∧ (∀ a, a ∈ freed s ↔ (a < next_addr s)%nat ∧ heap s !! a = None)).
Proof. apply (TimerManager_safe _ _ 1); [by intros h s; simpl|vm_compute; discriminate]. Defined.

(** C15. A call of [Timeout] outside a handler, when the handlers create so few timers that ids
    stay below 2^31, keeps the invariant and calls at most
    [MAX_FIRES_PER_TIMEOUT] handlers, each for a timer that was due when the call
    began.  If the clock is below [TIME_T_NEVER] and [*pNumFired] is the number of
    calls, no timer of the list is due any more; otherwise three handlers were
    called, a timer is still due and [*pNumFired] is 4.  The result is -1 when no timer is left, and
    otherwise the seconds until the first timer, as an [int] and at least 0.  The comment of
    [Timeout] says something else: 0 when there are no more events, and -1 for a call
    from a handler, whose result is in fact the time to the next timer or 0
    ([Timeout_return_values]). *)
Theorem Timeout_spec `{TimesliceOps Timeslice} clock handler_calls budget
    (s : TimerManager Timeslice) :
  (∀ h s, (news (handler_calls h s) ≤ budget)%nat) →
  api_inv s → in_timeout s = None →
  MAX_FIRES_PER_TIMEOUT * Z.of_nat budget + Z.of_nat (next_addr s) ≤ 2 ^ 31 →
  wp (Timeout clock handler_calls) s (timeout_post clock budget s).
Proof. intros Hb Hi Hidle Hn. by apply Timeout_wp. Qed.

(** A manager with a timer that is due and a later one. *)
Definition two_timers : TimerManager (Z * Z) :=
  match run_events (Timeslice := Z * Z) (fun _ => 100) (fun _ _ => [])
          [ECall (CNew 0 1 0 None); ECall (CNew 50 2 10 None)] TimerManager_new with
  | Some (_, s) => s
  | None => TimerManager_new
  end.

Lemma two_timers_inv : api_inv two_timers ∧ in_timeout two_timers = None.
Proof.
  pose proof (run_events_wp (Timeslice := Z * Z) (fun _ => 100) (fun _ _ => []) 0
    [ECall (CNew 0 1 0 None); ECall (CNew 50 2 10 None)] (fun _ _ => le_n 0) TimerManager_new
    TimerManager_new_inv eq_refl ltac:(vm_compute; discriminate)) as Hw.
  destruct (wp_inv _ _ _ Hw) as ([] & s & E & Hs). unfold two_timers. by rewrite E.
Qed.

Lemma Timeout_spec_witness :
  wp (Timeout (fun _ => 100) (fun _ _ => [])) two_timers (timeout_post (fun _ => 100) 0 two_timers) ∧
  fst <$> Timeout (fun _ => 100) (fun _ _ => []) two_timers = Some (50, 1).
Proof.
  split; [|reflexivity]. destruct two_timers_inv as [Hi Hidle].
  apply (Timeout_spec (fun _ => 100) (fun _ _ => []) 0 two_timers (fun _ _ => le_n 0) Hi Hidle).
  vm_compute. discriminate.
Defined.

Lemma whens_sorted `{TimesliceOps Timeslice} X (s : TimerManager Timeslice) :
  inv X s → (∀ b t, b ∈ timer_list s → heap s !! b = Some t → when t ≤ TIME_T_NEVER) →
  ∀ l1 a l2 b ta tb, timer_list s = l1 ++ a :: l2 → b ∈ l2 →
  heap s !! a = Some ta → heap s !! b = Some tb → when ta ≤ when tb.
Proof.
  intros Hi Hle l1 a l2 b ta tb El Hb Ha Htb. pose proof (inv_sorted _ _ Hi) as Hs.
  rewrite El in *. apply sorted_split in Hs as (_ & Hs & _). rewrite fmap_cons in Hs.
  apply StronglySorted_inv in Hs as [_ Hs]. rewrite Forall_forall in Hs.
  assert (key (heap s) a ≤ key (heap s) b) as Hk by (apply Hs, list_elem_of_fmap; eauto).
  unfold key in Hk. rewrite Ha, Htb in Hk. simpl in Hk. unfold clamp in Hk.
  assert (when ta ≤ TIME_T_NEVER) by (apply (Hle a); [set_solver|done]).
  assert (when tb ≤ TIME_T_NEVER) by (apply (Hle b); [set_solver|done]). lia.
Qed.

(** [InsertTimer] is a stable insertion: when no timer is past
    [TIME_T_NEVER], the new timer goes after every timer due no later than it
    (those due at the same time included, so that timers that keep resetting
    themselves to 0 take turns) and before every timer due later; the order of
    the others does not change. *)
Theorem InsertTimer_stable `{TimesliceOps Timeslice} X (s : TimerManager Timeslice) a t :
  inv X s → a ∈ X → heap s !! a = Some t → when t ≤ TIME_T_NEVER →
  (∀ b tb, b ∈ timer_list s → heap s !! b = Some tb → when tb ≤ TIME_T_NEVER) →
  wp (InsertTimer a) s (fun _ s' =>
    inv (X ∖ {[a]}) s' ∧ heap s' = heap s ∧
    ∃ l1 l2, timer_list s = l1 ++ l2 ∧ timer_list s' = l1 ++ a :: l2 ∧
      (∀ b tb, b ∈ l1 → heap s !! b = Some tb → when tb ≤ when t) ∧
      (∀ b tb, b ∈ l2 → heap s !! b = Some tb → when t < when tb)).
Proof.
  intros Hi Ha Ht Hw Hall. eapply InsertTimer_wp; [done..|]. intros l1 l2 Hp.
  split; [by eapply inv_linked|]. split; [done|]. exists l1, l2. destruct Hp as [El Hp].
  split; [done|]. split; [done|]. destruct Hp as [[Ew ->]|[H1 H2]].
  - split; [|set_solver]. intros b tb Hb Htb. rewrite Ew. apply (Hall b); [|done].
    rewrite El. set_solver.
  - split; [done|]. intros b tb Hb Htb. destruct l2 as [|c l2]; [set_solver|].
    assert (is_Some (heap s !! c)) as [tc Htc].
    { apply (inv_dom _ _ Hi). left. rewrite El. set_solver. }
    specialize (H2 c tc eq_refl Htc). apply elem_of_cons in Hb as [->|Hb]; [by simplify_eq|].
    pose proof (whens_sorted X s Hi Hall l1 c l2 b tc tb El Hb Htc Htb). lia.
Qed.

(** The state in which [two_timers] got a third timer, not linked yet. *)
Definition third_timer : TimerManager (Z * Z) :=
  mkTM (<[next_addr two_timers := mkTimer 150 100 0 (timer_ids two_timers) 7 None]> (heap two_timers))
    (timer_list two_timers) (list_tail two_timers) (int32 (timer_ids two_timers + 1))
    (in_timeout two_timers) (did_reset two_timers) (did_cancel two_timers)
    (S (next_addr two_timers)) (freed two_timers) (fired two_timers) (ticks two_timers).

Lemma InsertTimer_stable_witness :
  wp (InsertTimer 2) third_timer (fun _ s' =>
    inv ({[2%nat]} ∖ {[2%nat]}) s' ∧ heap s' = heap third_timer ∧
    ∃ l1 l2, timer_list third_timer = l1 ++ l2 ∧ timer_list s' = l1 ++ 2%nat :: l2 ∧
      (∀ b tb, b ∈ l1 → heap third_timer !! b = Some tb → when tb ≤ 150) ∧
      (∀ b tb, b ∈ l2 → heap third_timer !! b = Some tb → 150 < when tb)).
Proof.
  apply (InsertTimer_stable {[2%nat]} third_timer 2%nat (mkTimer 150 100 0 2 7 None)).
  - destruct two_timers_inv as [[Hi _] Hidle]. unfold pending in Hi. rewrite Hidle in Hi.
    replace {[2%nat]} with ({[next_addr two_timers]} ∪ ∅ : gset nat) by (vm_compute; reflexivity).
    apply (inv_alloc ∅ two_timers (fun id => mkTimer 150 100 0 id 7 None)); done.
  - set_solver.
  - vm_compute. reflexivity.
  - vm_compute. discriminate.
  - intros b tb Hb Htb. vm_compute in Hb.
    repeat (apply elem_of_cons in Hb as [->|Hb]; [vm_compute in Htb; injection Htb as <-; vm_compute; discriminate|]).
    by apply elem_of_nil in Hb.
Defined.

(** [ResetTimer] and [CancelTimer] on every branch: an unknown id gives -1
    and no change; [ResetTimer] on a timeslice timer without a new timeslice gives 0 and no
    change; otherwise it gives the timer the time and period of [reset_fields],
    moves it to its place and, inside its own handler, records that it was
    reset.  [CancelTimer] takes the timer out of the list and deletes it, or, inside
    its own handler, leaves the deletion to [Timeout].  Both keep the
    invariant. *)
Theorem Reset_Cancel_spec `{TimesliceOps Timeslice} clock id w p recompute_when ts
    (s : TimerManager Timeslice) :
  api_inv s →
  wp (ResetTimer clock id w p recompute_when ts) s
    (reset_post clock id w p recompute_when ts s) ∧
  wp (CancelTimer id) s (cancel_post id s).
Proof. intros Hi. split; [by apply ResetTimer_wp|by apply CancelTimer_wp]. Qed.

Lemma Reset_Cancel_spec_witness :
  wp (ResetTimer (fun _ => 100) 1 5 0 false None) two_timers
    (reset_post (fun _ => 100) 1 5 0 false None two_timers) ∧
  wp (CancelTimer 1) two_timers (cancel_post 1 two_timers).
Proof. apply (Reset_Cancel_spec (fun _ => 100) 1 5 0 false None). apply two_timers_inv. Defined.

(** When a handler returns, [Timeout] deletes its timer if the handler
    cancelled it, leaves it alone if the handler reset it, puts it back one period
    (or the delay of its timeslice) after the present time if it is periodic, and
    deletes it if it was a one-time event; the ASSERT that finds it does not
    fail. *)
Theorem after_handler_spec `{TimesliceOps Timeslice} clock a t (s : TimerManager Timeslice) :
  api_inv s → in_timeout s = Some a → heap s !! a = Some t → Z.of_nat (next_addr s) ≤ 2 ^ 31 →
  wp (after_handler clock a) s (fun _ s' =>
    inv ∅ s' ∧ frame 0 s s' ∧ after_post clock a t s s').
Proof. intros Hi Hb Ht Hn. by apply after_handler_wp. Qed.

(** [two_timers] while the handler of its second timer runs. *)
Definition serving : TimerManager (Z * Z) := set_in_timeout (Some 1%nat) two_timers.

Lemma after_handler_spec_witness :
  wp (after_handler (fun _ => 200) 1) serving (fun _ s' =>
    inv ∅ s' ∧ frame 0 serving s' ∧
    after_post (fun _ => 200) 1 (mkTimer 150 100 10 1 2 None) serving s') ∧
  (s' ← snd <$> after_handler (fun _ => 200) 1 serving; when <$> heap s' !! 1%nat) = Some 210.
Proof.
  split; [|reflexivity]. destruct two_timers_inv as [[Hi _] Hidle].
  unfold pending in Hi. rewrite Hidle in Hi.
  apply (after_handler_spec (fun _ => 200) 1 (mkTimer 150 100 10 1 2 None) serving);
    [|reflexivity|vm_compute; reflexivity|vm_compute; discriminate].
  split; [by apply (inv_ext _ two_timers)|]. intros b [= <-]. left. vm_compute.
  right. left.
Defined.

(** With four timers due, [Timeout] calls three handlers and reports four. *)
Theorem Timeout_overcounts :
  match run_events (Timeslice := Z * Z) (fun _ => 100) (fun _ _ => [])
          [ECall (CNew 0 0 0 None); ECall (CNew 0 0 0 None); ECall (CNew 0 0 0 None);
           ECall (CNew 0 0 0 None)] TimerManager_new with
  | Some (_, s) =>
      match Timeout (fun _ => 100) (fun _ _ => []) s with
      | Some ((_, num_fired), s') => num_fired = 4 ∧ length (fired s') = 3%nat
      | None => False
      end
  | None => False
  end.
Proof. vm_compute. auto. Qed.

(** Without timers [Timeout] returns -1; from a handler it returns the time to
    the next timer. *)
Theorem Timeout_return_values :
  fst <$> Timeout (Timeslice := Z * Z) (fun _ => 100) (fun _ _ => []) TimerManager_new = Some (-1, 0) ∧
  fst <$> Timeout (fun _ => 60) (fun _ _ => []) serving = Some (40, 0).
Proof. vm_compute. auto. Qed.

(** A period that leads past [TIME_T_NEVER] leaves the list out of order. *)
Theorem list_not_sorted_past_never :
  match run_events (Timeslice := Z * Z) (fun _ => 100) (fun _ _ => [])
          [ECall (CNew (TIMER_NEVER - 1) 0 0 None); ECall (CNew 0 0 0 None);
           ECall (CNew TIMER_NEVER 0 0 None)] TimerManager_new with
  | Some (_, s) => (fun a => from_option when 0 (heap s !! a)) <$> timer_list s
                   = [100; 4294967394; TIME_T_NEVER]
  | None => False
  end.
Proof. vm_compute. reflexivity. Qed.
