(* ===== verification/ClassAdLog.v ===== *)
(** * ClassAdLog

    The persistent table of ads of the schedd and other daemons:
    [condor_utils/classad_log.cpp], [log.cpp] and [log_transaction.cpp].  A log
    file of text records is replayed at start; changes are appended to it, alone or
    as transactions, and applied to a hash table of ads.  The file is what reached
    the disk ([log_disk]) followed by what is still in buffers ([log_buf]). *)
From stdpp Require Import base list strings gmap.
From Stdlib Require Import ZArith Lia Ascii.
From S2P Require Import Prelude HashTable.
Open Scope Z_scope.

(** ** What the log uses of an ad

    [ad_set] parses the text of an expression and inserts it; [ad_attrs] is the
    list of the names and unparsed expressions in the order of
    [NextNameOriginal]. *)
Class AdOps (ad : Type) := {
  ad_new : cstr → cstr → ad;
  ad_set : ad → cstr → cstr → ad;
  ad_delete : ad → cstr → ad;
  ad_mytype : ad → cstr;
  ad_targettype : ad → cstr;
  ad_attrs : ad → list (cstr * cstr);
  valid_expr : cstr → bool;
}.

(** ** Reading decimal numbers *)

(** [lex_cast<int>] of a word: all of it, and in range. *)
Definition lex_cast_int (s : cstr) : option Z :=
  match parse_int s with
  | Some (n, []) => if (- 2 ^ 31 <=? n) && (n <? 2 ^ 31) then Some n else None
  | _ => None
  end.
(** [sscanf(line, "%d ", &op) == 1] *)
Definition sscanf_int (s : cstr) : option Z := fst <$> parse_int (skip_while isspace s).
(** [sscanf(buf, "%lu", &n)] into a variable that holds [n]. *)
Definition sscanf_ulong (s : cstr) (n : Z) : Z :=
  match parse_int (skip_while isspace s) with
  | Some (m, _) => if 2 ^ 64 <=? Z.abs m then 2 ^ 64 - 1 else m mod 2 ^ 64
  | None => n
  end.

(** ** Records *)

Definition CondorLogOp_NewClassAd : Z := 101.
Definition CondorLogOp_DestroyClassAd : Z := 102.
Definition CondorLogOp_SetAttribute : Z := 103.
Definition CondorLogOp_DeleteAttribute : Z := 104.
Definition CondorLogOp_BeginTransaction : Z := 105.
Definition CondorLogOp_EndTransaction : Z := 106.
Definition CondorLogOp_LogHistoricalSequenceNumber : Z := 107.
Definition CondorLogOp_Error : Z := 999.

Definition valid_record_optype (optype : Z) : bool :=
  existsb (Z.eqb optype)
    [CondorLogOp_NewClassAd; CondorLogOp_DestroyClassAd; CondorLogOp_SetAttribute;
     CondorLogOp_DeleteAttribute; CondorLogOp_BeginTransaction; CondorLogOp_EndTransaction;
     CondorLogOp_LogHistoricalSequenceNumber].

Inductive LogRecord :=
| LogNewClassAd (key mytype targettype : cstr)
| LogDestroyClassAd (key : cstr)
| LogSetAttribute (key name value : cstr)
| LogDeleteAttribute (key name : cstr)
| LogBeginTransaction
| LogEndTransaction
| LogHistoricalSequenceNumber (historical_sequence_number timestamp : Z)
| LogRecordError (body : cstr).

Definition get_op_type (r : LogRecord) : Z :=
  match r with
  | LogNewClassAd _ _ _ => CondorLogOp_NewClassAd
  | LogDestroyClassAd _ => CondorLogOp_DestroyClassAd
  | LogSetAttribute _ _ _ => CondorLogOp_SetAttribute
  | LogDeleteAttribute _ _ => CondorLogOp_DeleteAttribute
  | LogBeginTransaction => CondorLogOp_BeginTransaction
  | LogEndTransaction => CondorLogOp_EndTransaction
  | LogHistoricalSequenceNumber _ _ => CondorLogOp_LogHistoricalSequenceNumber
  | LogRecordError _ => CondorLogOp_Error
  end.

Definition get_key (r : LogRecord) : option cstr :=
  match r with
  | LogNewClassAd k _ _ | LogDestroyClassAd k | LogSetAttribute k _ _
  | LogDeleteAttribute k _ => Some k
  | _ => None
  end.

Definition blankline (s : cstr) : bool :=
  match skip_while isspace s with [] => true | _ => false end.

(** The constructor of [LogSetAttribute]: text that is not an expression becomes
    [UNDEFINED]. *)
Definition new_LogSetAttribute `{AdOps ad} (k n : cstr) (val : option cstr) : LogRecord :=
  LogSetAttribute k n
    match val with
    | Some v => if negb (length v =? 0)%nat && negb (blankline v) && valid_expr v then v
                else L "UNDEFINED"
    | None => L "UNDEFINED"
    end.

(** *** Writing *)

Definition EMPTY_CLASSAD_TYPE_NAME : cstr := L "(empty)".
Definition type_text (s : cstr) : cstr := match s with [] => EMPTY_CLASSAD_TYPE_NAME | _ => s end.

(** [WriteBody] of each record: [None] when it refuses to write. *)
Definition LogNewClassAd_WriteBody (k m t : cstr) : option cstr :=
  Some (k ++ SP :: type_text m ++ SP :: type_text t).
Definition LogDestroyClassAd_WriteBody (k : cstr) : option cstr := Some k.
Definition LogSetAttribute_WriteBody (k n v : cstr) : option cstr :=
  if has_char NL k || has_char NL n || has_char NL v then None
  else Some (k ++ SP :: n ++ SP :: v).
Definition LogDeleteAttribute_WriteBody (k n : cstr) : option cstr := Some (k ++ SP :: n).
Definition LogHistoricalSequenceNumber_WriteBody (n t : Z) : option cstr :=
  Some (decimal n ++ L " CreationTimestamp " ++ decimal t).

Definition WriteBody (r : LogRecord) : option cstr :=
  match r with
  | LogNewClassAd k m t => LogNewClassAd_WriteBody k m t
  | LogDestroyClassAd k => LogDestroyClassAd_WriteBody k
  | LogSetAttribute k n v => LogSetAttribute_WriteBody k n v
  | LogDeleteAttribute k n => LogDeleteAttribute_WriteBody k n
  | LogBeginTransaction | LogEndTransaction | LogRecordError _ => Some []
  | LogHistoricalSequenceNumber n t => LogHistoricalSequenceNumber_WriteBody n t
  end.

(** [Write]: whether it succeeded, and what it wrote. *)
Definition Write (r : LogRecord) : bool * cstr :=
  let header := decimal (get_op_type r) ++ [SP] in
  match WriteBody r with
  | Some body => (true, header ++ body ++ [NL])
  | None => (false, header)
  end.

(** *** Reading *)

(** [readword] and [readline]: the result ([None] is -1) and the rest of the
    input. *)
Fixpoint word_rest (acc s : cstr) : option cstr * cstr :=
  match s with
  | [] => (None, [])
  | c :: s => if c =c NUL then (None, s)
              else if isspace c then (Some acc, s) else word_rest (acc ++ [c]) s
  end.
Fixpoint readword (s : cstr) : option cstr * cstr :=
  match s with
  | [] => (None, [])
  | c :: s => if c =c NUL then (None, s)
              else if c =c NL then (None, s)
              else if isspace c then readword s else word_rest [c] s
  end.

Fixpoint line_rest (acc s : cstr) : option cstr * cstr :=
  match s with
  | [] => (None, [])
  | c :: s => if c =c NUL then (None, s)
              else if c =c NL then (Some acc, s) else line_rest (acc ++ [c]) s
  end.
Definition readline (s : cstr) : option cstr * cstr :=
  match s with
  | [] => (None, [])
  | c :: s => if c =c NUL then (None, s)
              else if c =c NL then (None, s) else line_rest [c] s
  end.

Definition type_of_text (s : cstr) : cstr :=
  if bool_decide (s = EMPTY_CLASSAD_TYPE_NAME) then [] else s.

Section Reading.
Context {ad : Type} `{AdOps ad}.
(** [CLASSAD_LOG_STRICT_PARSING] *)
Variable strict : bool.

(** [ReadBody] of each record: [None] is a negative result. *)
Definition LogNewClassAd_ReadBody (s : cstr) : option LogRecord * cstr :=
  match readword s with
  | (Some key, s) =>
      match readword s with
      | (Some my, s) =>
          match readword s with
          | (Some tgt, s) => (Some (LogNewClassAd key (type_of_text my) (type_of_text tgt)), s)
          | (None, s) => (None, s)
          end
      | (None, s) => (None, s)
      end
  | (None, s) => (None, s)
  end.

Definition LogDestroyClassAd_ReadBody (s : cstr) : option LogRecord * cstr :=
  let '(key, s) := readword s in (LogDestroyClassAd <$> key, s).

Definition LogSetAttribute_ReadBody (s : cstr) : option LogRecord * cstr :=
  match readword s with
  | (Some key, s) =>
      match readword s with
      | (Some name, s) =>
          match readline s with
          | (Some value, s) =>
              if negb (valid_expr value) && strict then (None, s)
              else (Some (LogSetAttribute key name value), s)
          | (None, s) => (None, s)
          end
      | (None, s) => (None, s)
      end
  | (None, s) => (None, s)
  end.

Definition LogDeleteAttribute_ReadBody (s : cstr) : option LogRecord * cstr :=
  match readword s with
  | (Some key, s) => let '(name, s) := readword s in (LogDeleteAttribute key <$> name, s)
  | (None, s) => (None, s)
  end.

(** [LogBeginTransaction] and [LogEndTransaction]: one newline. *)
Definition mark_ReadBody (r : LogRecord) (s : cstr) : option LogRecord * cstr :=
  match s with
  | c :: s => if c =c NL then (Some r, s) else (None, s)
  | [] => (None, [])
  end.

Definition LogHistoricalSequenceNumber_ReadBody (s : cstr) : option LogRecord * cstr :=
  match readword s with
  | (Some n, s) =>
      match readword s with
      | (Some _, s) =>
          let '(t, s) := readword s in
          ((fun t => LogHistoricalSequenceNumber (sscanf_ulong n 0) (sscanf_ulong t 0)) <$> t, s)
      | (None, s) => (None, s)
      end
  | (None, s) => (None, s)
  end.

Definition LogRecordError_ReadBody (s : cstr) : option LogRecord * cstr :=
  let '(body, s) := readline s in (Some (LogRecordError (default [] body)), s).

(** The record that [InstantiateLogEntry] creates for the operation reads its
    body. *)
Definition ReadBody (op : Z) (s : cstr) : option LogRecord * cstr :=
  if op =? CondorLogOp_NewClassAd then LogNewClassAd_ReadBody s
  else if op =? CondorLogOp_DestroyClassAd then LogDestroyClassAd_ReadBody s
  else if op =? CondorLogOp_SetAttribute then LogSetAttribute_ReadBody s
  else if op =? CondorLogOp_DeleteAttribute then LogDeleteAttribute_ReadBody s
  else if op =? CondorLogOp_BeginTransaction then mark_ReadBody LogBeginTransaction s
  else if op =? CondorLogOp_EndTransaction then mark_ReadBody LogEndTransaction s
  else if op =? CondorLogOp_LogHistoricalSequenceNumber then LogHistoricalSequenceNumber_ReadBody s
  else LogRecordError_ReadBody s.

(** [fgets(line, n, fp)]: at most [n - 1] characters, to the end of the line. *)
Fixpoint fgets (n : nat) (s : cstr) : cstr * cstr :=
  match n, s with
  | S (S n as n'), c :: s => if c =c NL then ([c], s) else let '(l, s) := fgets n' s in (c :: l, s)
  | _, _ => ([], s)
  end.

(** The search for an [EndTransaction] after a corrupt record: whether one was
    found.  Each line consumes a character; [fuel] is the length of the input. *)
Fixpoint end_follows (fuel : nat) (s : cstr) : bool :=
  match fuel, s with
  | S fuel, _ :: _ =>
      let '(line, s) := fgets 10304 s in
      bool_decide (sscanf_int line = Some CondorLogOp_EndTransaction) || end_follows fuel s
  | _, _ => false
  end.

Inductive entry :=
| EntryNone               (** NULL: the end, or a record to ignore *)
| EntryExcept             (** EXCEPT *)
| Entry (r : LogRecord) (rest : cstr).

Definition InstantiateLogEntry (op : Z) (s : cstr) : entry :=
  match ReadBody op s with
  | (Some r, rest) =>
      if get_op_type r =? CondorLogOp_Error
      then if end_follows (length rest) rest then EntryExcept else EntryNone
      else Entry r rest
  | (None, rest) => if end_follows (length rest) rest then EntryExcept else EntryNone
  end.

Definition ReadLogEntry (s : cstr) : entry :=
  match readword s with
  | (None, _) => EntryNone
  | (Some opword, s) =>
      let op := match lex_cast_int opword with
                | Some op => if valid_record_optype op then op else CondorLogOp_Error
                | None => CondorLogOp_Error end in
      InstantiateLogEntry op s
  end.
End Reading.

(** ** The table *)

Section Table.
Context {ad : Type} `{AdOps ad}.
Variable hashFunction : cstr → Z.

Abbreviation Table := (HashTable cstr ad).

(** [Play] of each record on the table: its result and the new table.  The ad
    found is changed in place. *)
Definition LogNewClassAd_Play (k m tgt : cstr) (t : Table) : Z * Table :=
  ht_insert hashFunction t k (ad_new m tgt).

Definition LogDestroyClassAd_Play (k : cstr) (t : Table) : Z * Table :=
  match ht_lookup hashFunction t k with
  | None => (-1, t)
  | Some _ => ht_remove hashFunction t k
  end.

Definition LogSetAttribute_Play (k n v : cstr) (t : Table) : Z * Table :=
  match ht_lookup hashFunction t k with
  | None => (-1, t)
  | Some a => if valid_expr v then (1, update_node hashFunction t k (ad_set a n v)) else (0, t)
  end.

Definition LogDeleteAttribute_Play (k n : cstr) (t : Table) : Z * Table :=
  match ht_lookup hashFunction t k with
  | None => (-1, t)
  | Some a => (1, update_node hashFunction t k (ad_delete a n))
  end.

Definition Play (r : LogRecord) (t : Table) : Z * Table :=
  match r with
  | LogNewClassAd k m tgt => LogNewClassAd_Play k m tgt t
  | LogDestroyClassAd k => LogDestroyClassAd_Play k t
  | LogSetAttribute k n v => LogSetAttribute_Play k n v t
  | LogDeleteAttribute k n => LogDeleteAttribute_Play k n t
  | LogBeginTransaction | LogEndTransaction | LogHistoricalSequenceNumber _ _ => (1, t)
  | LogRecordError _ => (0, t)
  end.

Definition play (t : Table) (r : LogRecord) : Table := snd (Play r t).
Definition play_all (t : Table) (l : list LogRecord) : Table := foldl play t l.

(** ** Transactions *)

(** [op_log] indexes the records by key ("" for those without). *)
Record Transaction := mkTransaction {
  op_log : gmap cstr (list LogRecord);
  ordered_op_log : list LogRecord;
  m_EmptyTransaction : bool;
}.
Definition Transaction_new : Transaction := mkTransaction ∅ [] true.

Definition Transaction_AppendLog (x : Transaction) (r : LogRecord) : Transaction :=
  let key := default [] (get_key r) in
  mkTransaction (<[key := default [] (op_log x !! key) ++ [r]]> (op_log x))
    (ordered_op_log x ++ [r]) false.

(** [FirstEntry], then [NextEntry] until it returns NULL. *)
Definition entries_of (x : Transaction) (key : cstr) : list LogRecord :=
  default [] (op_log x !! key).

(** The writes of [Commit] to the log: they stop at the first that fails. *)
Fixpoint write_all (l : list LogRecord) : bool * cstr :=
  match l with
  | [] => (true, [])
  | r :: l => match Write r with
              | (true, text) => let '(ok, rest) := write_all l in (ok, text ++ rest)
              | (false, text) => (false, text)
              end
  end.

(** ** The log *)

Record ClassAdLog := mkLog {
  table : Table;
  active_transaction : option Transaction;
  log_disk : cstr;
  log_buf : cstr;
  m_nondurable_level : Z;
  historical_sequence_number : Z;
  m_original_log_birthdate : Z;
}.

Definition set_table t s := mkLog t (active_transaction s) (log_disk s) (log_buf s)
  (m_nondurable_level s) (historical_sequence_number s) (m_original_log_birthdate s).
Definition set_active x s := mkLog (table s) x (log_disk s) (log_buf s)
  (m_nondurable_level s) (historical_sequence_number s) (m_original_log_birthdate s).
Definition set_file d b s := mkLog (table s) (active_transaction s) d b
  (m_nondurable_level s) (historical_sequence_number s) (m_original_log_birthdate s).
Definition set_level n s := mkLog (table s) (active_transaction s) (log_disk s) (log_buf s)
  n (historical_sequence_number s) (m_original_log_birthdate s).
Definition set_seq n b s := mkLog (table s) (active_transaction s) (log_disk s) (log_buf s)
  (m_nondurable_level s) n b.

(** Text appended to the stream; flush and sync. *)
Definition append_text (text : cstr) : M ClassAdLog unit :=
  modify (fun s => set_file (log_disk s) (log_buf s ++ text) s).
Definition ForceLog : M ClassAdLog unit :=
  modify (fun s => set_file (log_disk s ++ log_buf s) [] s).

(** [Commit] with [fp] the log: the records are played as they are written, and
    a failed write stops the process only when the commit is durable. *)
Definition Commit (x : Transaction) (nondurable : bool) : M ClassAdLog unit :=
  let '(ok, text) := write_all (ordered_op_log x) in
  do! append_text text in
  do! modify (fun s => set_table (play_all (table s) (ordered_op_log x)) s) in
  if nondurable then ret tt
  else if ok then ForceLog else abort.

Definition AppendLog (r : LogRecord) : M ClassAdLog unit :=
  let! s := get in
  match active_transaction s with
  | Some x =>
      let x := if m_EmptyTransaction x then Transaction_AppendLog x LogBeginTransaction else x in
      modify (set_active (Some (Transaction_AppendLog x r)))
  | None =>
      let '(ok, text) := Write r in
      do! append_text text in
      if ok then
        do! (if m_nondurable_level s =? 0 then ForceLog else ret tt) in
        modify (fun s => set_table (play (table s) r) s)
      else abort
  end.

Definition BeginTransaction : M ClassAdLog unit :=
  let! s := get in
  match active_transaction s with
  | None => modify (set_active (Some Transaction_new))
  | Some _ => abort
  end.

Definition AbortTransaction : M ClassAdLog bool :=
  let! s := get in
  match active_transaction s with
  | Some _ => do! modify (set_active None) in ret true
  | None => ret false
  end.

Definition CommitTransaction : M ClassAdLog unit :=
  let! s := get in
  match active_transaction s with
  | None => ret tt
  | Some x =>
      do! (if m_EmptyTransaction x then ret tt
           else Commit (Transaction_AppendLog x LogEndTransaction) (0 <? m_nondurable_level s)) in
      modify (set_active None)
  end.

Definition IncNondurableCommitLevel : M ClassAdLog Z :=
  let! s := get in
  do! modify (set_level (m_nondurable_level s + 1)) in
  ret (m_nondurable_level s).
Definition DecNondurableCommitLevel (old_level : Z) : M ClassAdLog unit :=
  do! modify (fun s => set_level (m_nondurable_level s - 1) s) in
  let! s := get in
  if m_nondurable_level s =? old_level then ret tt else abort.
Definition CommitNondurableTransaction : M ClassAdLog unit :=
  let! old_level := IncNondurableCommitLevel in
  do! CommitTransaction in
  DecNondurableCommitLevel old_level.

Definition getActiveTransaction : M ClassAdLog (option Transaction) :=
  let! s := get in
  do! modify (set_active None) in ret (active_transaction s).
Definition setActiveTransaction (x : option Transaction) : M ClassAdLog bool :=
  let! s := get in
  match active_transaction s with
  | Some _ => ret false
  | None => do! modify (set_active x) in ret true
  end.

(** *** Questions about the active transaction *)

(** [AdExistsInTableOrTransaction] *)
Definition exists_step (adexists : bool) (r : LogRecord) : bool :=
  match r with
  | LogNewClassAd _ _ _ => true
  | LogDestroyClassAd _ => false
  | _ => adexists
  end.
Definition AdExistsInTableOrTransaction (s : ClassAdLog) (key : cstr) : bool :=
  let adexists := bool_decide (is_Some (ht_lookup hashFunction (table s) key)) in
  match active_transaction s with
  | None => adexists
  | Some x => foldl exists_step adexists (entries_of x key)
  end.

(** [ExamineTransaction] with a name: ad deleted, value deleted, value found. *)
Definition examine_step (name : cstr) (st : bool * bool * option cstr) (r : LogRecord)
    : bool * bool * option cstr :=
  let '(AdDeleted, ValDeleted, ValFound) := st in
  match r with
  | LogNewClassAd _ _ _ => (false, ValDeleted, ValFound)
  | LogDestroyClassAd _ => (true, ValDeleted, ValFound)
  | LogSetAttribute _ lname v =>
      if strcasecmp_eq lname name then (AdDeleted, false, Some v) else st
  | LogDeleteAttribute _ lname =>
      if strcasecmp_eq lname name then (AdDeleted, true, None) else st
  | _ => st
  end.

(** The result and the value. *)
Definition LookupInTransaction (s : ClassAdLog) (key name : cstr) : Z * option cstr :=
  match active_transaction s with
  | None => (0, None)
  | Some x =>
      let '(AdDeleted, ValDeleted, ValFound) :=
        foldl (examine_step name) (false, false, None) (entries_of x key) in
      if (AdDeleted : bool) || ValDeleted then (-1, ValFound)
      else match ValFound with Some v => (1, Some v) | None => (0, None) end
  end.

Definition ListNewAdsInTransaction (s : ClassAdLog) : list cstr :=
  match active_transaction s with
  | None => []
  | Some x => omap (fun r => match r with LogNewClassAd k _ _ => Some k | _ => None end)
                (ordered_op_log x)
  end.

(** *** Opening *)

(** The loop of the constructor: the table and transaction so far, whether the
    log was cleanly closed, the number of records, the sequence number and the
    birthdate; [None] is an EXCEPT, and the last component is what was not read.
    Each record consumes a character; [fuel] is the length of the input. *)
Variable strict : bool.

Record open_state := mkOpen {
  o_table : Table;
  o_active : option Transaction;
  o_clean : bool;
  o_count : nat;
  o_seq : Z;
  o_birth : Z;
}.

Definition open_step (o : open_state) (r : LogRecord) : open_state :=
  let count := S (o_count o) in
  match r with
  | LogBeginTransaction =>
      mkOpen (o_table o)
        (match o_active o with Some x => Some x | None => Some Transaction_new end)
        false count (o_seq o) (o_birth o)
  | LogEndTransaction =>
      match o_active o with
      | None => mkOpen (o_table o) None (o_clean o) count (o_seq o) (o_birth o)
      | Some x => mkOpen (play_all (o_table o) (ordered_op_log x)) None (o_clean o) count
                    (o_seq o) (o_birth o)
      end
  | LogHistoricalSequenceNumber n b => mkOpen (o_table o) (o_active o) (o_clean o) count n b
  | _ =>
      match o_active o with
      | Some x => mkOpen (o_table o) (Some (Transaction_AppendLog x r)) (o_clean o) count
                    (o_seq o) (o_birth o)
      | None => mkOpen (play (o_table o) r) None (o_clean o) count (o_seq o) (o_birth o)
      end
  end.

Fixpoint open_loop (fuel : nat) (o : open_state) (s : cstr) : option (open_state * cstr) :=
  match fuel with
  | O => Some (o, s)
  | S fuel =>
      match ReadLogEntry strict s with
      | EntryNone => Some (o, s)
      | EntryExcept => None
      | Entry r rest => open_loop fuel (open_step o r) rest
      end
  end.

(** *** Rotation *)

Definition ad_records (key : cstr) (a : ad) : list LogRecord :=
  LogNewClassAd key (ad_mytype a) (ad_targettype a)
  :: ((fun nv => new_LogSetAttribute key (fst nv) (Some (snd nv))) <$> ad_attrs a).

(** The records that [LogState] writes. *)
Definition state_records (s : ClassAdLog) : list LogRecord :=
  LogHistoricalSequenceNumber (historical_sequence_number s) (m_original_log_birthdate s)
  :: concat ((fun '(k, a) => ad_records k a) <$>
       fst (iterate_all (S (Z.to_nat (numElems (table s)))) (startIterations (table s)))).

(** [TruncLog] without historical logs; [rotated] is whether the new file
    took the place of the old one. *)
Definition TruncLog (rotated : bool) : M ClassAdLog bool :=
  let! s := get in
  let seq := historical_sequence_number s + 1 in
  let '(ok, text) := write_all (state_records (set_seq seq (m_original_log_birthdate s) s)) in
  if ok then
    if rotated then
      do! modify (fun s => set_file text [] (set_seq seq (m_original_log_birthdate s) s)) in ret true
    else do! ForceLog in ret false
  else abort.

(** The constructor on a log file that holds [file]; [now] is the time. *)
Definition ClassAdLog_open (file : cstr) (now : Z) (rotated : bool) : option ClassAdLog :=
  '(o, rest) ← open_loop (length file)
     (mkOpen (initialize allowDuplicateKeys) None true 0 1 now) file;
  let requires_successful_cleaning :=
    negb (length rest =? 0)%nat || bool_decide (is_Some (o_active o)) in
  let buf := if (o_count o =? 0)%nat
             then snd (Write (LogHistoricalSequenceNumber (o_seq o) (o_birth o))) else [] in
  let s := mkLog (o_table o) None file buf 0 (o_seq o) (o_birth o) in
  if negb (o_clean o) || requires_successful_cleaning then
    '(ok, s) ← TruncLog rotated s;
    if negb ok && requires_successful_cleaning then None else Some s
  else Some s.
End Table.

(** ** Words and lines *)

Definition plain (c : ascii) : bool := negb (isspace c) && negb (c =c NUL).
(** A field that [readword] reads back. *)
Definition word (s : cstr) : Prop := s ≠ [] ∧ forallb plain s = true.
Definition word_b (s : cstr) : bool := negb (length s =? 0)%nat && forallb plain s.

Lemma word_b_spec s : word_b s = true ↔ word s.
Proof.
  unfold word_b, word. rewrite andb_true_iff, negb_true_iff, Nat.eqb_neq. destruct s; naive_solver.
Qed.

Lemma word_rest_app s : ∀ acc c t, forallb plain s = true → isspace c = true →
  word_rest acc (s ++ c :: t) = (Some (acc ++ s), t).
Proof.
  induction s as [|d s IH]; intros acc c t Hs Hc; simpl.
  - destruct (Ascii.eqb_spec c NUL) as [->|]; [done|]. rewrite Hc. by rewrite app_nil_r.
  - simpl in Hs. unfold plain in Hs at 1. split_bools. rewrite H1, H.
    rewrite IH by done. by rewrite <- app_assoc.
Qed.

Lemma readword_word s c t : word s → isspace c = true → readword (s ++ c :: t) = (Some s, t).
Proof.
  intros [Hne Hs] Hc. destruct s as [|d s]; [done|]. simpl in Hs. unfold plain in Hs at 1.
  split_bools. simpl. rewrite H1.
  destruct (Ascii.eqb_spec d NL) as [->|]; [done|]. rewrite H. by rewrite word_rest_app.
Qed.

Lemma line_rest_app s : ∀ acc t,
  has_char NL s = false → has_char NUL s = false → line_rest acc (s ++ NL :: t) = (Some (acc ++ s), t).
Proof.
  induction s as [|d s IH]; intros acc t H1 H2; simpl in *; [by rewrite app_nil_r|].
  apply orb_false_iff in H1 as [E1 H1], H2 as [E2 H2]. rewrite E2, E1.
  rewrite IH by done. by rewrite <- app_assoc.
Qed.

Lemma readline_line s t :
  s ≠ [] → has_char NL s = false → has_char NUL s = false → readline (s ++ NL :: t) = (Some s, t).
Proof.
  intros Hne H1 H2. destruct s as [|d s]; [done|]. simpl in *.
  apply orb_false_iff in H1 as [E1 H1], H2 as [E2 H2]. rewrite E2, E1.
  by rewrite line_rest_app.
Qed.

(** How much white space is left. *)
Definition spaces (s : cstr) : nat := length (List.filter isspace s).
(** Neither a newline nor a NUL. *)
Definition inline (s : cstr) : Prop := has_char NL s = false ∧ has_char NUL s = false.

Lemma word_rest_inline s : ∀ acc, inline s →
  word_rest acc s = (None, []) ∨
  ∃ w t, word_rest acc s = (Some w, t) ∧ inline t ∧ (spaces t < spaces s)%nat.
Proof.
  induction s as [|c s IH]; intros acc [H1 H2]; simpl in *; [by left|].
  apply orb_false_iff in H1 as [E1 H1], H2 as [E2 H2].
  rewrite E2. unfold spaces in *. simpl. destruct (isspace c) eqn:E.
  - right. exists acc, s. split_and!; [done|by split|simpl; lia].
  - apply IH. by split.
Qed.

Lemma readword_inline s : inline s →
  readword s = (None, []) ∨
  ∃ w t, readword s = (Some w, t) ∧ inline t ∧ (spaces t < spaces s)%nat.
Proof.
  induction s as [|c s IH]; intros [H1 H2]; simpl in *; [by left|].
  apply orb_false_iff in H1 as [E1 H1], H2 as [E2 H2].
  rewrite E2, E1. unfold spaces in *. simpl. destruct (isspace c) eqn:E.
  - destruct IH as [?|(w & t & ? & ? & ?)]; [by split|by left|right].
    exists w, t. split_and!; [done..|]. simpl. lia.
  - by apply word_rest_inline.
Qed.

Lemma readline_inline s : inline s → readline s = (None, []).
Proof.
  assert (∀ acc s, inline s → line_rest acc s = (None, [])) as Hl.
  { intros acc t. revert acc. induction t as [|c t IH]; intros acc [H1 H2]; simpl in *; [done|].
    apply orb_false_iff in H1 as [E1 H1], H2 as [E2 H2]. rewrite E2, E1. apply IH. by split. }
  intros [H1 H2]. destruct s as [|c s]; simpl in *; [done|].
  apply orb_false_iff in H1 as [E1 H1], H2 as [E2 H2]. rewrite E2, E1.
  apply Hl. by split.
Qed.

Lemma inline_app s t : inline (s ++ t) ↔ inline s ∧ inline t.
Proof.
  unfold inline, has_char. rewrite !existsb_app, !orb_false_iff. tauto.
Qed.
Lemma spaces_app s t : spaces (s ++ t) = (spaces s + spaces t)%nat.
Proof. unfold spaces. by rewrite List.filter_app, length_app. Qed.

Lemma plain_inline s : forallb plain s = true → inline s ∧ spaces s = 0%nat.
Proof.
  unfold inline, spaces. induction s as [|c s IH]; simpl; [done|]. unfold plain at 1. intros Hs.
  split_bools. destruct (IH H0) as [[I1 I2] I3]. rewrite H1, I1, I2, H.
  destruct (Ascii.eqb_spec c NL) as [->|]; [done|]. done.
Qed.

(** ** Records as text *)

Definition type_ok (m : cstr) : Prop := m = [] ∨ (word m ∧ m ≠ EMPTY_CLASSAD_TYPE_NAME).

(** What the fields of a record must satisfy to be read back. *)
Definition record_ok `{AdOps ad} (r : LogRecord) : Prop :=
  match r with
  | LogNewClassAd k m t => word k ∧ type_ok m ∧ type_ok t
  | LogDestroyClassAd k => word k
  | LogSetAttribute k n v => word k ∧ word n ∧ v ≠ [] ∧ inline v ∧ valid_expr v = true
  | LogDeleteAttribute k n => word k ∧ word n
  | LogBeginTransaction | LogEndTransaction => True
  | LogHistoricalSequenceNumber n t => 0 ≤ n < 2 ^ 64 ∧ 0 ≤ t < 2 ^ 64
  | LogRecordError _ => False
  end.

Lemma type_text_word m : type_ok m → word (type_text m) ∧ type_of_text (type_text m) = m.
Proof.
  intros [->|[[Hne Hw] Hx]]; [done|]. destruct m as [|c m]; [done|]. split; [by split|].
  unfold type_of_text. simpl type_text. by rewrite bool_decide_false.
Qed.

Lemma word_plain w : word w → forallb plain w = true.
Proof. by intros [_ ?]. Qed.

Lemma word_inline w : word w → inline w ∧ spaces w = 0%nat.
Proof. intros Hw. by apply plain_inline, word_plain. Qed.

Lemma digits_plain s : forallb is_digit s = true → forallb plain s = true.
Proof.
  induction s as [|c s IH]; simpl; [done|]. intros; split_bools. rewrite IH by done.
  unfold plain. destruct (is_digit_plain c) as (-> & -> & _); done.
Qed.

Lemma decimal_word n : 0 ≤ n < 2 ^ 64 → word (decimal n) ∧ sscanf_ulong (decimal n) 0 = n.
Proof.
  intros Hn. assert (0 ≤ n < 10 ^ 20) as Hn' by lia.
  destruct (decimal_loop_ok 20 n Hn') as (E1 & E2 & E3). fold (decimal n) in *.
  assert (word (decimal n)) as Hw by (split; [by apply E3|by apply digits_plain]).
  split; [done|]. unfold sscanf_ulong. rewrite <- (app_nil_r (decimal n)).
  assert (skip_while isspace (decimal n ++ []) = decimal n ++ []) as ->.
  { destruct (decimal n) as [|c s] eqn:E; [done|]. simpl app. apply skip_while_head.
    simpl in E2. split_bools. by apply is_digit_plain. }
  rewrite parse_int_decimal by done. rewrite (proj2 (Z.leb_gt _ _)) by lia. rewrite Z.mod_small; lia.
Qed.

(** The text of a record: its code, and a body with neither newline nor NUL and
    one space fewer than the reader expects fields. *)
Definition body_spaces (r : LogRecord) : nat :=
  match r with
  | LogNewClassAd _ _ _ => 2
  | LogDeleteAttribute _ _ => 1
  | LogHistoricalSequenceNumber _ _ => 2
  | _ => 0
  end.

Ltac unfold_record :=
  unfold LogNewClassAd_WriteBody, LogDestroyClassAd_WriteBody, LogSetAttribute_WriteBody,
    LogDeleteAttribute_WriteBody, LogHistoricalSequenceNumber_WriteBody.
(** Select the reader of the record. *)
Ltac unfold_reader :=
  unfold ReadBody; simpl;
  unfold LogNewClassAd_ReadBody, LogDestroyClassAd_ReadBody, LogSetAttribute_ReadBody,
    LogDeleteAttribute_ReadBody, LogHistoricalSequenceNumber_ReadBody.

Lemma has_char_inline s : inline s → has_char NL s = false.
Proof. by intros [? _]. Qed.

Lemma WriteBody_ok `{AdOps ad} r :
  record_ok r → ∃ body, WriteBody r = Some body ∧ inline body ∧
    (match r with LogSetAttribute _ _ _ => True | _ => spaces body = body_spaces r end).
Proof.
  assert (inline [SP] ∧ spaces [SP] = 1%nat) as [Hi1 Hs1] by done.
  destruct r; cbn [record_ok WriteBody body_spaces]; unfold_record; intros Hr.
  - destruct Hr as (Hk & Hm & Ht). apply type_text_word in Hm as [Hm _], Ht as [Ht _].
    apply word_inline in Hk as [Hk Sk], Hm as [Hm Sm], Ht as [Ht St].
    eexists; split; [done|]. change (SP :: type_text mytype ++ SP :: type_text targettype) with
      ([SP] ++ type_text mytype ++ [SP] ++ type_text targettype).
    rewrite !inline_app, !spaces_app, Sk, Sm, St, Hs1. done.
  - apply word_inline in Hr as [? ?]. eauto.
  - destruct Hr as (Hk & Hn & Hv & Hi & _).
    apply word_inline in Hk as [Hk Sk], Hn as [Hn Sn].
    rewrite !has_char_inline by done. eexists; split; [done|].
    change (SP :: name ++ SP :: value) with ([SP] ++ name ++ [SP] ++ value).
    rewrite !inline_app. done.
  - destruct Hr as [Hk Hn]. apply word_inline in Hk as [Hk Sk], Hn as [Hn Sn].
    eexists; split; [done|]. change (SP :: name) with ([SP] ++ name).
    rewrite !inline_app, !spaces_app, Sk, Sn, Hs1. done.
  - eexists; split; done.
  - eexists; split; done.
  - destruct Hr as [Hn Ht]. apply decimal_word in Hn as [Hn _], Ht as [Ht _].
    apply word_inline in Hn as [Hn Sn], Ht as [Ht St]. eexists; split; [done|].
    rewrite !inline_app, !spaces_app, Sn, St. done.
  - done.
Qed.

Lemma header_word `{AdOps ad} r : record_ok r →
  word (decimal (get_op_type r)) ∧ lex_cast_int (decimal (get_op_type r)) = Some (get_op_type r) ∧
  valid_record_optype (get_op_type r) = true.
Proof.
  intros Hr. destruct r; try done; split_and!;
    first [apply word_b_spec; vm_compute; reflexivity | vm_compute; reflexivity].
Qed.

Lemma ReadBody_WriteBody `{AdOps ad} strict r body rest :
  record_ok r → WriteBody r = Some body →
  ReadBody strict (get_op_type r) (body ++ NL :: rest) = (Some r, rest).
Proof.
  destruct r; cbn [record_ok WriteBody]; unfold_record; intros Hr Hb.
  - destruct Hr as (Hk & Hm & Ht). apply type_text_word in Hm as [Hm Em], Ht as [Ht Et].
    injection Hb as <-. unfold_reader. rewrite <- app_assoc. simpl.
    rewrite readword_word by done. rewrite <- app_assoc. simpl. rewrite !readword_word by done.
    by rewrite Em, Et.
  - injection Hb as <-. unfold_reader. by rewrite readword_word.
  - destruct Hr as (Hk & Hn & Hv & Hi & Hval).
    rewrite !has_char_inline in Hb by (done || by apply word_inline). injection Hb as <-.
    unfold_reader. rewrite <- app_assoc. simpl. rewrite readword_word by done.
    rewrite <- app_assoc. simpl. rewrite readword_word by done. destruct Hi.
    rewrite readline_line by done. by rewrite Hval.
  - destruct Hr as [Hk Hn]. injection Hb as <-. unfold_reader. rewrite <- app_assoc. simpl.
    by rewrite !readword_word.
  - by injection Hb as <-.
  - by injection Hb as <-.
  - destruct Hr as [Hn Ht]. apply decimal_word in Hn as [Hn En], Ht as [Ht Et].
    injection Hb as <-. unfold_reader. rewrite <- app_assoc.
    change (L " CreationTimestamp " ++ decimal timestamp)
      with (SP :: L "CreationTimestamp" ++ SP :: decimal timestamp).
    simpl app. rewrite readword_word by done.
    change ("C"%char :: "r"%char :: "e"%char :: "a"%char :: "t"%char :: "i"%char :: "o"%char ::
      "n"%char :: "T"%char :: "i"%char :: "m"%char :: "e"%char :: "s"%char :: "t"%char :: "a"%char ::
      "m"%char :: "p"%char :: SP :: decimal timestamp ++ NL :: rest)
      with (L "CreationTimestamp" ++ SP :: decimal timestamp ++ NL :: rest).
    rewrite readword_word by (done || by apply word_b_spec; vm_compute).
    rewrite readword_word by done. simpl. by rewrite En, Et.
  - done.
Qed.

(** Reading back one record. *)
Lemma ReadLogEntry_Write `{AdOps ad} strict r rest :
  record_ok r → fst (Write r) = true ∧ ReadLogEntry strict (snd (Write r) ++ rest) = Entry r rest.
Proof.
  intros Hr. destruct (WriteBody_ok r Hr) as (body & Hb & Hin & _).
  destruct (header_word r Hr) as (Hw & Hlex & Hv). unfold Write. rewrite Hb. split; [done|].
  cbn [snd]. rewrite <- !app_assoc. simpl. unfold ReadLogEntry.
  rewrite readword_word by done. rewrite Hlex, Hv. unfold InstantiateLogEntry.
  rewrite (ReadBody_WriteBody strict r body rest Hr Hb). by destruct r.
Qed.

(** *** A record cut short *)

(** Reading from a line that ends too early: [readword] fails at the end of the
    input, or leaves less white space. *)
Ltac read_short s :=
  let Hr := fresh "Hrd" in
  destruct (readword_inline s ltac:(done)) as [Hr|(? & ? & Hr & ? & ?)]; rewrite Hr; [done|].

Lemma ReadBody_truncated `{AdOps ad} strict r body p q :
  record_ok r → WriteBody r = Some body → body = p ++ q →
  ReadBody strict (get_op_type r) p = (None, []).
Proof.
  intros Hr Hb ->. destruct (WriteBody_ok r Hr) as (body & Hb' & Hin & Hsp).
  rewrite Hb in Hb'. injection Hb' as <-. apply inline_app in Hin as [Hin _].
  rewrite spaces_app in Hsp.
  destruct r; cbn [body_spaces] in Hsp; unfold_reader.
  - read_short p. read_short x0. read_short x2. lia.
  - read_short p. lia.
  - read_short p. read_short x0. by rewrite readline_inline.
  - read_short p. read_short x0. lia.
  - simpl in Hb. injection Hb as E. symmetry in E. by apply app_eq_nil in E as [-> _].
  - simpl in Hb. injection Hb as E. symmetry in E. by apply app_eq_nil in E as [-> _].
  - read_short p. read_short x0. read_short x2. lia.
  - done.
Qed.

(** A proper prefix of a record is ignored. *)
Lemma ReadLogEntry_truncated `{AdOps ad} strict r p q :
  record_ok r → snd (Write r) = p ++ q → q ≠ [] → ReadLogEntry strict p = EntryNone.
Proof.
  intros Hr Hpq Hq. destruct (WriteBody_ok r Hr) as (body & Hb & Hin & _).
  destruct (header_word r Hr) as (Hw & Hlex & Hv). unfold Write in Hpq. rewrite Hb in Hpq.
  cbn [snd] in Hpq. rewrite <- app_assoc in Hpq. simpl in Hpq.
  unfold ReadLogEntry.
  assert (∀ k, decimal (get_op_type r) = p ++ k → readword p = (None, [])) as Hshort.
  { intros k E. pose proof (word_plain _ Hw) as Hp. rewrite E, forallb_app in Hp. split_bools.
    destruct (plain_inline p) as [Hi Hs]; [done|].
    destruct (readword_inline p Hi) as [?|(? & ? & _ & _ & ?)]; [done|lia]. }
  apply app_eq_inv in Hpq as [(k & E & _)|(k & -> & E)]; [by rewrite (Hshort k E)|].
  destruct k as [|c k]; [by rewrite app_nil_r in *; rewrite (Hshort [] ltac:(by rewrite app_nil_r))|].
  simpl in E. injection E as <- E. rewrite readword_word by done. rewrite Hlex, Hv.
  assert (∃ q', body = k ++ q') as [q' Eb].
  { apply app_eq_inv in E as [(j & Ej & _)|(j & Ej & Ej2)]; [eauto|].
    destruct j as [|d j]; [exists []; by rewrite Ej, !app_nil_r|].
    simpl in Ej2. injection Ej2 as _ Ej2. symmetry in Ej2. by apply app_eq_nil in Ej2 as [_ ->]. }
  unfold InstantiateLogEntry. by rewrite (ReadBody_truncated strict r body k q' Hr Hb Eb).
Qed.

(** ** What the log holds *)

Section Recovery.
Context {ad : Type} `{AdOps ad}.
Variable hashFunction : cstr → Z.
Variable strict : bool.

(** The log is a sequence of single records and transactions. *)
Inductive log_unit := URecord (r : LogRecord) | UTransaction (l : list LogRecord).

Definition unit_records (u : log_unit) : list LogRecord :=
  match u with
  | URecord r => [r]
  | UTransaction l => LogBeginTransaction :: l ++ [LogEndTransaction]
  end.
Definition text_of (l : list LogRecord) : cstr := concat ((fun r => snd (Write r)) <$> l).
Definition units_text (us : list log_unit) : cstr := text_of (concat (unit_records <$> us)).

Definition apply_unit (t : HashTable cstr ad) (u : log_unit) : HashTable cstr ad :=
  match u with
  | URecord r => play hashFunction t r
  | UTransaction l => play_all hashFunction t l
  end.
Definition apply_units (us : list log_unit) : HashTable cstr ad :=
  foldl apply_unit (initialize allowDuplicateKeys) us.

(** A record that is not a transaction mark. *)
Definition data_record (r : LogRecord) : Prop :=
  record_ok r ∧ r ≠ LogBeginTransaction ∧ r ≠ LogEndTransaction.
Definition unit_ok (u : log_unit) : Prop :=
  match u with
  | URecord r => data_record r
  | UTransaction l => Forall data_record l ∧
      Forall (fun r => match r with LogHistoricalSequenceNumber _ _ => False | _ => True end) l
  end.

Lemma unit_records_ok u : unit_ok u → Forall record_ok (unit_records u).
Proof.
  destruct u as [r|l]; simpl.
  - intros [? _]. by repeat constructor.
  - intros [Hl _]. constructor; [done|]. apply Forall_app. split; [|by repeat constructor].
    eapply Forall_impl; [exact Hl|]. by intros r [? _].
Qed.

Lemma Write_nonempty r : snd (Write r) ≠ [].
Proof.
  unfold Write. destruct (WriteBody r); cbn [snd]; intros E%(f_equal length);
    rewrite !length_app in E; cbn [length] in E; lia.
Qed.

(** Reading whole records. *)
Lemma open_loop_records l : ∀ fuel o rest,
  Forall record_ok l → (length l ≤ fuel)%nat →
  open_loop hashFunction strict fuel o (text_of l ++ rest)
  = open_loop hashFunction strict (fuel - length l) (foldl (open_step hashFunction) o l) rest.
Proof.
  induction l as [|r l IH]; intros fuel o rest Hl Hf; simpl in *.
  { by rewrite Nat.sub_0_r. }
  apply Forall_cons in Hl as [Hr Hl]. destruct fuel as [|fuel]; [lia|]. cbn [open_loop].
  unfold text_of. rewrite fmap_cons. simpl concat. rewrite <- app_assoc.
  destruct (ReadLogEntry_Write strict r (text_of l ++ rest) Hr) as [_ E].
  unfold text_of in E. rewrite E. simpl. apply IH; [done|lia].
Qed.

Lemma text_of_length l : (length l ≤ length (text_of l))%nat.
Proof.
  induction l as [|r l IH]; [done|]. unfold text_of in *. rewrite fmap_cons. simpl.
  rewrite length_app. pose proof (Write_nonempty r). destruct (snd (Write r)); [done|]. simpl. lia.
Qed.

Lemma text_of_app l1 l2 : text_of (l1 ++ l2) = text_of l1 ++ text_of l2.
Proof. unfold text_of. by rewrite fmap_app, concat_app. Qed.
Lemma text_of_cons r l : text_of (r :: l) = snd (Write r) ++ text_of l.
Proof. done. Qed.

(** A prefix of the text: some whole records, and a part that reads as nothing. *)
Lemma text_prefix l : ∀ p q,
  Forall record_ok l → text_of l = p ++ q →
  ∃ l1 l2 tail, l = l1 ++ l2 ∧ p = text_of l1 ++ tail ∧ ReadLogEntry strict tail = EntryNone ∧
    match l2 with [] => tail = [] | r :: _ => (length tail < length (snd (Write r)))%nat end.
Proof.
  induction l as [|r l IH]; intros p q Hl E.
  { unfold text_of in E. simpl in E. symmetry in E. apply app_eq_nil in E as [-> _].
    by exists [], [], []. }
  apply Forall_cons in Hl as [Hr Hl]. rewrite text_of_cons in E.
  apply app_eq_inv in E as [(k & E & Ek)|(k & -> & E)].
  - destruct k as [|c k].
    + rewrite app_nil_r in E. subst p. destruct (IH [] (text_of l) Hl eq_refl) as (l1 & l2 & tl & -> & E0 & Hn & Hm).
      symmetry in E0. apply app_eq_nil in E0 as [E1 ->].
      assert (l1 = []) as ->.
      { pose proof (text_of_length l1) as Hlen. rewrite E1 in Hlen. by destruct l1; simpl in *; [|lia]. }
      exists [r], l2, []. rewrite app_nil_r. split_and!; [done|by rewrite text_of_cons, app_nil_r|done|].
      destruct l2; [done|]. simpl. pose proof (Write_nonempty l). by destruct (snd (Write l)); simpl; [|lia].
    + exists [], (r :: l), p. split_and!; [done|done| |].
      * by eapply ReadLogEntry_truncated.
      * rewrite E, length_app. simpl. lia.
  - destruct (IH k q Hl E) as (l1 & l2 & tl & -> & -> & Hn & Hm).
    exists (r :: l1), l2, tl. split_and!; [done| |done|done].
    by rewrite text_of_cons, <- app_assoc.
Qed.

Lemma open_loop_prefix l p q o :
  Forall record_ok l → text_of l = p ++ q →
  ∃ l1 l2 tail, l = l1 ++ l2 ∧ p = text_of l1 ++ tail ∧
    open_loop hashFunction strict (length p) o p
    = Some (foldl (open_step hashFunction) o l1, tail) ∧
    match l2 with [] => tail = [] | r :: _ => (length tail < length (snd (Write r)))%nat end.
Proof.
  intros Hl E. destruct (text_prefix l p q Hl E) as (l1 & l2 & tl & -> & -> & Hn & Hm).
  exists l1, l2, tl. split_and!; [done|done| |done].
  apply Forall_app in Hl as [Hl1 _]. pose proof (text_of_length l1).
  rewrite length_app, open_loop_records by (done || lia).
  destruct (_ - _)%nat; cbn [open_loop]; [done|]. by rewrite Hn.
Qed.

(** *** Replaying units *)

Lemma play_mark t r : r = LogBeginTransaction ∨ r = LogEndTransaction →
  play hashFunction t r = t.
Proof. by intros [-> | ->]. Qed.

Lemma open_step_data o r : data_record r → o_active o = None →
  o_table (open_step hashFunction o r) = play hashFunction (o_table o) r ∧
  o_active (open_step hashFunction o r) = None.
Proof. intros (_ & H1 & H2) Ha. destruct r; simpl; rewrite ?Ha; done. Qed.

Definition plain_record (r : LogRecord) : Prop :=
  data_record r ∧ match r with LogHistoricalSequenceNumber _ _ => False | _ => True end.

Lemma open_steps_active l : ∀ o x,
  Forall plain_record l → o_active o = Some x →
  ∃ x', o_active (foldl (open_step hashFunction) o l) = Some x' ∧
        ordered_op_log x' = ordered_op_log x ++ l ∧
        o_table (foldl (open_step hashFunction) o l) = o_table o.
Proof.
  induction l as [|r l IH]; intros o x Hl Ha; simpl.
  { exists x. by rewrite app_nil_r. }
  apply Forall_cons in Hl as [[(Hok & Hr1 & Hr2) Hh] Hl].
  destruct (IH (open_step hashFunction o r) (Transaction_AppendLog x r) Hl) as (x' & E1 & E2 & E3).
  { destruct r; simpl; rewrite ?Ha; done. }
  exists x'. split_and!; [done| |].
  - rewrite E2. simpl. by rewrite <- app_assoc.
  - rewrite E3. destruct r; simpl; rewrite ?Ha; done.
Qed.

Lemma unit_plain l : unit_ok (UTransaction l) → Forall plain_record l.
Proof. intros [H1 H2]. apply Forall_and. done. Qed.

Lemma open_unit o u : unit_ok u → o_active o = None →
  o_table (foldl (open_step hashFunction) o (unit_records u)) = apply_unit (o_table o) u ∧
  o_active (foldl (open_step hashFunction) o (unit_records u)) = None.
Proof.
  destruct u as [r|l]; intros Hu Ha; [by apply open_step_data|].
  cbn [unit_records]. simpl foldl. rewrite foldl_app.
  set (o1 := mkOpen _ _ _ _ _ _).
  destruct (open_steps_active l o1 Transaction_new) as (x' & E1 & E2 & E3);
    [by apply unit_plain|unfold o1; simpl; by rewrite Ha|].
  simpl. rewrite E1. simpl. by rewrite E2, E3.
Qed.

Lemma open_units us : ∀ o, Forall unit_ok us → o_active o = None →
  o_table (foldl (open_step hashFunction) o (concat (unit_records <$> us)))
    = foldl apply_unit (o_table o) us ∧
  o_active (foldl (open_step hashFunction) o (concat (unit_records <$> us))) = None.
Proof.
  induction us as [|u us IH]; intros o Hus Ha; [done|].
  apply Forall_cons in Hus as [Hu Hus]. rewrite fmap_cons. simpl. rewrite foldl_app.
  destruct (open_unit o u Hu Ha) as [E1 E2]. destruct (IH _ Hus E2) as [F1 F2].
  by rewrite F1, F2, E1.
Qed.

(** A proper part of a unit changes nothing. *)
Lemma open_partial_unit o u l1 r l2 :
  unit_ok u → o_active o = None → unit_records u = l1 ++ r :: l2 →
  o_table (foldl (open_step hashFunction) o l1) = o_table o.
Proof.
  intros Hu Ha E. destruct u as [r'|l]; cbn [unit_records] in E.
  - destruct l1 as [|? [|??]]; simplify_eq/=; done.
  - destruct l1 as [|b l1]; [done|]. injection E as <- E. simpl foldl.
    set (o1 := mkOpen _ _ _ _ _ _). apply unit_plain in Hu.
    assert (Forall plain_record l1) as Hl1.
    { apply app_eq_inv in E as [(k & -> & _)|(k & -> & Ek)]; [by apply Forall_app in Hu as [? _]|].
      destruct k as [|? k]; [by rewrite app_nil_r|]. simpl in Ek. injection Ek as _ Ek.
      symmetry in Ek. by apply app_eq_nil in Ek as [_ ?]. }
    destruct (open_steps_active l1 o1 Transaction_new) as (x' & _ & _ & E3); [done| |done].
    unfold o1. simpl. by rewrite Ha.
Qed.

Lemma split_units us : ∀ l1 l2,
  concat (unit_records <$> us) = l1 ++ l2 →
  ∃ us1 us2 m1, us = us1 ++ us2 ∧ l1 = concat (unit_records <$> us1) ++ m1 ∧
    match us2 with
    | [] => m1 = [] ∧ l2 = []
    | u :: _ => ∃ r m2, unit_records u = m1 ++ r :: m2 ∧ head l2 = Some r
    end.
Proof.
  induction us as [|u us IH]; intros l1 l2 E.
  { simpl in E. symmetry in E. apply app_eq_nil in E as [-> ->]. by exists [], [], []. }
  rewrite fmap_cons in E. simpl in E. apply app_eq_inv in E as [(k & E & ->)|(k & -> & E)].
  - destruct k as [|r m2].
    + rewrite app_nil_r in E. subst l1. simpl app.
      destruct us as [|u' us].
      * exists [u], [], []. simpl. by rewrite !app_nil_r.
      * exists [u], (u' :: us), []. simpl. rewrite !app_nil_r. split_and!; [done..|].
        destruct u' as [r|l]; simpl; eauto.
    + exists [], (u :: us), l1. split_and!; [done..|]. exists r, m2. done.
  - destruct (IH k l2 E) as (us1 & us2 & m1 & -> & -> & Hm).
    exists (u :: us1), us2, m1. split_and!; [done| |done]. rewrite fmap_cons. simpl. by rewrite app_assoc.
Qed.

Lemma units_records_ok us : Forall unit_ok us → Forall record_ok (concat (unit_records <$> us)).
Proof.
  induction 1 as [|u us Hu _ IH]; [constructor|]. rewrite fmap_cons. simpl. apply Forall_app.
  split; [by apply unit_records_ok|done].
Qed.

(** Reading any prefix of a log replays exactly the units that are wholly in
    it. *)
Lemma open_loop_units us p q o :
  Forall unit_ok us → units_text us = p ++ q → o_active o = None →
  ∃ us1 us2 o' tail, us = us1 ++ us2 ∧
    open_loop hashFunction strict (length p) o p = Some (o', tail) ∧
    o_table o' = foldl apply_unit (o_table o) us1 ∧
    (∃ part, p = units_text us1 ++ part) ∧
    match us2 with
    | [] => tail = [] ∧ o_active o' = None
    | u :: _ => (length p < length (units_text (us1 ++ [u])))%nat
    end.
Proof.
  intros Hus E Ha. unfold units_text in *.
  destruct (open_loop_prefix _ p q o (units_records_ok us Hus) E)
    as (l1 & l2 & tl & El & Ep & Eo & Htl).
  destruct (split_units us l1 l2 El) as (us1 & us2 & m1 & -> & El1 & Hm).
  apply Forall_app in Hus as [Hus1 Hus2].
  destruct (open_units us1 o Hus1 Ha) as [Et Eact].
  exists us1, us2. eexists _, tl. split; [done|]. split; [exact Eo|].
  rewrite El1, foldl_app. rewrite El1, text_of_app in Ep.
  destruct us2 as [|u us2].
  - destruct Hm as [-> ->]. simpl. split_and!; [done| |done|done].
    exists tl. by rewrite Ep, app_nil_r.
  - destruct Hm as (r & m2 & Eu & Hh). destruct l2 as [|r' l2]; simplify_eq/=.
    apply Forall_cons in Hus2 as [Hu _]. split_and!.
    + rewrite <- Et. by eapply open_partial_unit.
    + exists (text_of m1 ++ tl). by rewrite app_assoc.
    + rewrite fmap_app, concat_app, text_of_app. simpl. rewrite app_nil_r, Eu.
      rewrite text_of_app, text_of_cons, !length_app. lia.
Qed.

(** ** The specification: durable and volatile units *)

Inductive log_op :=
| OpAppend (r : LogRecord)
| OpBegin
| OpAbort
| OpCommit
| OpCommitNondurable
| OpForce.

Definition run_log_op (op : log_op) : M (ClassAdLog (ad := ad)) unit :=
  match op with
  | OpAppend r => AppendLog hashFunction r
  | OpBegin => BeginTransaction
  | OpAbort => do! AbortTransaction in ret tt
  | OpCommit => CommitTransaction hashFunction
  | OpCommitNondurable => CommitNondurableTransaction hashFunction
  | OpForce => ForceLog
  end.
Fixpoint run_log_ops (ops : list log_op) : M (ClassAdLog (ad := ad)) unit :=
  match ops with
  | [] => ret tt
  | op :: ops => do! run_log_op op in run_log_ops ops
  end.

(** What is on disk, what may be lost, and the open transaction. *)
Record log_spec := mkSpec {
  durable : list log_unit;
  volatile : list log_unit;
  open_tx : option (list LogRecord);
}.

Definition commit_units (l : list LogRecord) : list log_unit :=
  match l with [] => [] | _ => [UTransaction l] end.

(** An empty commit writes and syncs nothing. *)
Definition spec_op (σ : log_spec) (op : log_op) : option log_spec :=
  match op, open_tx σ with
  | OpAppend r, Some l => Some (mkSpec (durable σ) (volatile σ) (Some (l ++ [r])))
  | OpAppend r, None => Some (mkSpec (durable σ ++ volatile σ ++ [URecord r]) [] None)
  | OpBegin, None => Some (mkSpec (durable σ) (volatile σ) (Some []))
  | OpBegin, Some _ => None
  | OpAbort, _ => Some (mkSpec (durable σ) (volatile σ) None)
  | OpCommit, Some [] | OpCommit, None => Some (mkSpec (durable σ) (volatile σ) None)
  | OpCommit, Some l => Some (mkSpec (durable σ ++ volatile σ ++ [UTransaction l]) [] None)
  | OpCommitNondurable, Some l =>
      Some (mkSpec (durable σ) (volatile σ ++ commit_units l) None)
  | OpCommitNondurable, None => Some σ
  | OpForce, _ => Some (mkSpec (durable σ ++ volatile σ) [] (open_tx σ))
  end.
Fixpoint spec_ops (σ : log_spec) (ops : list log_op) : option log_spec :=
  match ops with
  | [] => Some σ
  | op :: ops => σ ← spec_op σ op; spec_ops σ ops
  end.

Definition tx_rel (x : option Transaction) (tx : option (list LogRecord)) : Prop :=
  match x, tx with
  | None, None => True
  | Some x, Some [] => m_EmptyTransaction x = true ∧ ordered_op_log x = []
  | Some x, Some l => m_EmptyTransaction x = false ∧ ordered_op_log x = LogBeginTransaction :: l
  | _, _ => False
  end.

(** The log [s] implements the abstract state [σ]. *)
Record refines (s : ClassAdLog (ad := ad)) (σ : log_spec) : Prop := mkrefines {
  r_disk : log_disk s = units_text (durable σ);
  r_buf : log_buf s = units_text (volatile σ);
  r_table : table s = apply_units (durable σ ++ volatile σ);
  r_tx : tx_rel (active_transaction s) (open_tx σ);
  r_level : m_nondurable_level s = 0;
  r_units : Forall unit_ok (durable σ ++ volatile σ);
  r_open : from_option (Forall plain_record) True (open_tx σ);
}.

Lemma write_all_ok l : Forall record_ok l → write_all l = (true, text_of l).
Proof.
  induction 1 as [|r l Hr _ IH]; [done|]. cbn [write_all]. rewrite IH.
  destruct (ReadLogEntry_Write strict r [] Hr) as [Hw _].
  destruct (Write r) as [ok text] eqn:E. simpl in Hw. subst ok. by rewrite text_of_cons, E.
Qed.

Lemma units_text_app us vs : units_text (us ++ vs) = units_text us ++ units_text vs.
Proof. unfold units_text. by rewrite fmap_app, concat_app, text_of_app. Qed.

Lemma apply_units_app us vs : apply_units (us ++ vs) = foldl apply_unit (apply_units us) vs.
Proof. unfold apply_units. by rewrite foldl_app. Qed.

Lemma plain_unit_ok l : Forall plain_record l → unit_ok (UTransaction l).
Proof. intros Hl. simpl. by apply Forall_and. Qed.

(** The records of a committed transaction, and their effect. *)
Lemma tx_play t l :
  play_all hashFunction t (LogBeginTransaction :: l ++ [LogEndTransaction])
  = play_all hashFunction t l.
Proof. unfold play_all. simpl. rewrite foldl_app. done. Qed.

Lemma tx_text l : Forall plain_record l →
  write_all (LogBeginTransaction :: l ++ [LogEndTransaction])
  = (true, units_text [UTransaction l]).
Proof.
  intros Hl. pose proof (unit_records_ok _ (plain_unit_ok l Hl)) as Hok.
  cbn [unit_records] in Hok. rewrite (write_all_ok _ Hok). unfold units_text. simpl concat.
  by rewrite app_nil_r.
Qed.

Lemma refines_op s σ op :
  refines s σ →
  match op with OpAppend r => plain_record r | _ => True end →
  match spec_op σ op with
  | Some σ' => ∃ s', run_log_op op s = Some (tt, s') ∧ refines s' σ'
  | None => run_log_op op s = None
  end.
Proof.
  intros [Hd Hb Ht Htx Hl Hus Hop] Hok.
  destruct s as [t x disk buf lvl seq birth]; simpl in *. subst lvl.
  destruct op as [r| | | | |]; cbn [run_log_op spec_op].
  - unfold AppendLog, bind, get. simpl. destruct x as [x|], (open_tx σ) as [l|]; try done; simpl in *.
    + eexists; split; [reflexivity|]. split; simpl; try done.
      * destruct l as [|r0 l]; destruct Htx as [-> E]; simpl; rewrite E; done.
      * apply Forall_app. split; [done|]. by apply Forall_singleton.
    + destruct Hok as [(Hr & H1 & H2) Hh].
      destruct (ReadLogEntry_Write strict r [] Hr) as [Hw _].
      destruct (Write r) as [ok text] eqn:E. simpl in Hw. subst ok. unfold append_text, modify. simpl.
      assert (units_text [URecord r] = text) as Etext.
      { unfold units_text, text_of. simpl. by rewrite E, !app_nil_r. }
      eexists; split; [reflexivity|]. split; simpl; try done.
      * by rewrite app_assoc, !units_text_app, Hd, Hb, Etext, <- app_assoc.
      * rewrite app_nil_r, app_assoc, apply_units_app, <- Ht. done.
      * rewrite app_nil_r, app_assoc. apply Forall_app. split; [done|]. by apply Forall_singleton.
  - unfold BeginTransaction, bind, get. simpl.
    destruct x as [x|], (open_tx σ) as [l|]; try done; simpl in *.
    eexists; split; [reflexivity|]. split; simpl; try done.
  - unfold AbortTransaction, bind, get. simpl.
    destruct x as [x|]; eexists; (split; [reflexivity|]); by split.
  - unfold CommitTransaction, bind, get. simpl.
    destruct x as [x|], (open_tx σ) as [l|]; try done; simpl in *.
    2:{ eexists; split; [reflexivity|]. by split. }
    destruct l as [|r l]; destruct Htx as [-> Ho].
    { eexists; split; [reflexivity|]. by split. }
    unfold Commit, Transaction_AppendLog. simpl. rewrite Ho.
    change ((LogBeginTransaction :: r :: l) ++ [LogEndTransaction])
      with (LogBeginTransaction :: (r :: l) ++ [LogEndTransaction]).
    rewrite (tx_text (r :: l) Hop).
    unfold bind, append_text, ForceLog, modify. simpl. eexists; split; [reflexivity|].
    split; simpl; try done.
    + by rewrite app_assoc, !units_text_app, Hd, Hb, <- app_assoc.
    + rewrite app_nil_r, app_assoc, apply_units_app, <- Ht. simpl.
      exact (tx_play t (r :: l)).
    + rewrite app_nil_r, app_assoc. apply Forall_app. split; [done|].
      apply Forall_singleton. by apply (plain_unit_ok (r :: l)).
  - unfold CommitNondurableTransaction, CommitTransaction, IncNondurableCommitLevel,
      DecNondurableCommitLevel, bind, get, modify. simpl.
    destruct x as [x|], (open_tx σ) as [l|] eqn:Eop; try done; simpl in *.
    2:{ eexists; split; [reflexivity|]. split; simpl; rewrite ?Eop; done. }
    destruct l as [|r l]; destruct Htx as [-> Ho].
    { eexists; split; [reflexivity|]. split; simpl; rewrite ?app_nil_r; done. }
    unfold Commit, Transaction_AppendLog. simpl. rewrite Ho.
    change ((LogBeginTransaction :: r :: l) ++ [LogEndTransaction])
      with (LogBeginTransaction :: (r :: l) ++ [LogEndTransaction]).
    rewrite (tx_text (r :: l) Hop).
    unfold bind, append_text, ForceLog, modify, ret. simpl. eexists; split; [reflexivity|].
    split; simpl; try done.
    + by rewrite units_text_app, Hb.
    + rewrite app_assoc, apply_units_app, <- Ht. simpl. exact (tx_play t (r :: l)).
    + rewrite app_assoc. apply Forall_app. split; [done|].
      apply Forall_singleton. by apply (plain_unit_ok (r :: l)).
  - eexists; split; [reflexivity|]. split; simpl; rewrite ?app_nil_r; try done.
    by rewrite units_text_app, Hd, Hb.
Qed.
End Recovery.

Definition op_ok `{AdOps ad} (op : log_op) : Prop :=
  match op with OpAppend r => plain_record r | _ => True end.

Lemma refines_ops `{AdOps ad} hashFunction (strict : bool) ops : ∀ s σ,
  refines hashFunction s σ → Forall op_ok ops →
  match spec_ops σ ops with
  | Some σ' => ∃ s', run_log_ops hashFunction ops s = Some (tt, s') ∧ refines hashFunction s' σ'
  | None => run_log_ops hashFunction ops s = None
  end.
Proof.
  induction ops as [|op ops IH]; intros s σ Hr Hok; [by exists s|].
  apply Forall_cons in Hok as [Hop Hok]. cbn [spec_ops run_log_ops].
  pose proof (refines_op hashFunction strict s σ op Hr Hop) as H1.
  destruct (spec_op σ op) as [σ1|]; simpl.
  - destruct H1 as (s1 & E & Hr1). specialize (IH s1 σ1 Hr1 Hok).
    unfold bind. rewrite E. exact IH.
  - unfold bind. by rewrite H1.
Qed.

(** The state of a new log: its first record is not on disk yet. *)
Definition spec_new (now : Z) : log_spec :=
  mkSpec [] [URecord (LogHistoricalSequenceNumber 1 now)] None.

Lemma ClassAdLog_open_empty `{AdOps ad} hashFunction strict now rotated :
  0 ≤ now < 2 ^ 64 →
  ∃ s, ClassAdLog_open hashFunction strict [] now rotated = Some s ∧
       refines hashFunction s (spec_new now).
Proof.
  intros Hn. eexists; split; [reflexivity|]. split; simpl; try done.
  - unfold units_text, text_of. simpl. by rewrite !app_nil_r.
  - apply Forall_singleton. split; [|done]. simpl. lia.
Qed.

(** C3. The log refines its specification, for well-formed records.  The appended
    records create, destroy, set or delete (they are no transaction marks), their keys
    and attribute names are single words, their types empty or single words other than
    (empty), and a value is the text of an expression, not empty, without NUL and on one
    line; the clock is a number of 64 bits.  From a new log, every
    sequence of operations (appends of such records, begin, abort, commit, nondurable
    commit, sync) stops the process exactly when a transaction is begun inside
    another, where the specification has no step, and otherwise leaves on disk exactly the
    text of the durable units, in the buffers that of the volatile ones, and in
    memory the table that results from applying them all in order; what an open
    or aborted transaction holds is in none of them.  A record that is not well formed
    stops the process too, or is lost ([nondurable_failure_unnoticed]). *)
Theorem ClassAdLog_refines `{AdOps ad} hashFunction strict now rotated ops :
  0 ≤ now < 2 ^ 64 → Forall op_ok ops →
  ∃ s0, ClassAdLog_open hashFunction strict [] now rotated = Some s0 ∧
  match spec_ops (spec_new now) ops with
  | Some σ => ∃ s, run_log_ops hashFunction ops s0 = Some (tt, s) ∧
                   log_disk s = units_text (durable σ) ∧ log_buf s = units_text (volatile σ) ∧
                   table s = apply_units hashFunction (durable σ ++ volatile σ)
  | None => run_log_ops hashFunction ops s0 = None
  end.
Proof.
  intros Hn Hok. destruct (ClassAdLog_open_empty hashFunction strict now rotated Hn) as (s0 & E & Hr).
  exists s0. split; [done|]. pose proof (refines_ops hashFunction strict ops s0 _ Hr Hok) as Hx.
  destruct (spec_ops (spec_new now) ops) as [σ|]; [|done].
  destruct Hx as (s & Es & []). by exists s.
Qed.

(** C2. Crash recovery, for the records of C3: after any run of appends of well-formed
    records, begin, abort, commit, nondurable commit and sync that did not stop, let the
    process stop when what reached the file is its synced text followed by a prefix [p] of the
    buffered text, cut anywhere (nothing synced is lost, and the buffer is
    written from its beginning).  Reading the file back does not stop on an EXCEPT,
    and gives the table that results from all the durable units followed by the
    volatile units that lie wholly in [p]: a transaction is recovered completely or not
    at all, in commit order, and none that was durable is lost.  If everything was
    written, the table is the one that was in memory. *)
Theorem ClassAdLog_recovers `{AdOps ad} hashFunction strict now now' ops σ s (p q : cstr) :
  0 ≤ now < 2 ^ 64 → Forall op_ok ops →
  spec_ops (spec_new now) ops = Some σ →
  (s0 ← ClassAdLog_open hashFunction strict [] now true; run_log_ops hashFunction ops s0)
    = Some (tt, s) →
  log_buf s = p ++ q →
  ∃ kept lost o tail, volatile σ = kept ++ lost ∧
    open_loop hashFunction strict (length (log_disk s ++ p))
      (mkOpen (initialize allowDuplicateKeys) None true 0 1 now') (log_disk s ++ p) = Some (o, tail) ∧
    o_table o = apply_units hashFunction (durable σ ++ kept) ∧
    (∃ part, p = units_text kept ++ part) ∧
    match lost with u :: _ => (length p < length (units_text (kept ++ [u])))%nat | [] => True end ∧
    (q = [] → o_table o = table s).
Proof.
  intros Hn Hok Hspec Hrun Hpq.
  destruct (ClassAdLog_open_empty hashFunction strict now true Hn) as (s0 & E & Hr).
  rewrite E in Hrun. simpl in Hrun.
  pose proof (refines_ops hashFunction strict ops s0 _ Hr Hok) as Hx. rewrite Hspec in Hx.
  destruct Hx as (s' & Es & [Hd Hb Ht _ _ Hus _]). rewrite Hrun in Es. injection Es as <-.
  set (o := mkOpen _ _ _ _ _ _).
  destruct (open_loop_units hashFunction strict (durable σ ++ volatile σ) (log_disk s ++ p) q o Hus)
    as (us1 & us2 & o' & tail & Eus & Eo & Etab & (part & Epart) & Hend).
  { by rewrite units_text_app, <- Hd, <- Hb, Hpq, app_assoc. }
  { done. }
  (* the durable units are wholly in the file *)
  assert (∃ kept, us1 = durable σ ++ kept ∧ volatile σ = kept ++ us2) as (kept & -> & Ev).
  { apply app_eq_inv in Eus as [(k & E1 & E2)|(k & E1 & E2)]; [|by exists k].
    destruct k as [|u k]; [exists []; by rewrite E1, !app_nil_r|].
    rewrite E2 in Hend. simpl in Hend. rewrite Hd, E1, length_app in Hend.
    change (us1 ++ u :: k) with (us1 ++ [u] ++ k) in Hend. rewrite app_assoc, units_text_app in Hend.
    rewrite length_app in Hend. lia. }
  exists kept, us2, o', tail. split_and!; [done|done| | | |].
  - by rewrite Etab.
  - exists part. rewrite units_text_app, Hd, <- app_assoc in Epart. by apply app_inv_head in Epart.
  - destruct us2 as [|u us2]; [done|]. rewrite <- app_assoc, units_text_app, !length_app, Hd in Hend. lia.
  - intros ->. rewrite app_nil_r in Hpq. rewrite Etab, Ht, Ev.
    destruct us2 as [|u us2]; [by rewrite app_nil_r|].
    assert (length p = length (units_text kept) + length (units_text [u]) + length (units_text us2))%nat
      as Hp.
    { rewrite <- Hpq, Hb, Ev. change (u :: us2) with ([u] ++ us2).
      rewrite !units_text_app, !length_app. lia. }
    rewrite Hd, !units_text_app, !length_app in Hend. lia.
Qed.

(** ** The table as a map of ads

    What the ads promise: the expressions of their attributes, as unparsed text, of
    which [unparse v] is the one that the text [v] becomes. *)
Class AdSpec (ad : Type) `{AdOps ad} := {
  ad_lookup : ad → cstr → option cstr;
  unparse : cstr → cstr;
  ad_lookup_set a n v n' : valid_expr v = true →
    ad_lookup (ad_set a n v) n' = if strcasecmp_eq n n' then Some (unparse v) else ad_lookup a n';
  ad_lookup_delete a n n' :
    ad_lookup (ad_delete a n) n' = if strcasecmp_eq n n' then None else ad_lookup a n';
}.

(** The ads that the log can write. *)
Definition ad_ok `{AdOps ad} (a : ad) : Prop :=
  type_ok (ad_mytype a) ∧ type_ok (ad_targettype a) ∧
  ∀ n v, (n, v) ∈ ad_attrs a → word n ∧ v ≠ [] ∧ inline v ∧ blankline v = false ∧ valid_expr v = true.
(** The ad that is rebuilt from the text of the attributes of [a].  It need not be [a]:
    a real, for example, is printed with 16 digits. *)
Definition rewritten `{AdOps ad} (a : ad) : ad :=
  foldl (fun b nv => ad_set b (fst nv) (snd nv)) (ad_new (ad_mytype a) (ad_targettype a)) (ad_attrs a).

Section Semantics.
Context {ad : Type} `{AdSpec ad}.
Variable hashFunction : cstr → Z.
Abbreviation Table := (HashTable cstr ad).

Definition play_map (m : gmap cstr ad) (r : LogRecord) : gmap cstr ad :=
  match r with
  | LogNewClassAd k my tgt => <[k := ad_new my tgt]> m
  | LogDestroyClassAd k => delete k m
  | LogSetAttribute k n v => if valid_expr v then alter (fun a => ad_set a n v) k m else m
  | LogDeleteAttribute k n => alter (fun a => ad_delete a n) k m
  | _ => m
  end.

(** No ad is created under a key in use. *)
Fixpoint new_ok (m : gmap cstr ad) (l : list LogRecord) : Prop :=
  match l with
  | [] => True
  | r :: l => match r with LogNewClassAd k _ _ => m !! k = None | _ => True end ∧
              new_ok (play_map m r) l
  end.

Definition table_wf (t : Table) : Prop := wf hashFunction t ∧ nodup_keys t.

Lemma alter_some {A} (f : A → A) (m : gmap cstr A) k a : m !! k = Some a → alter f k m = <[k := f a]> m.
Proof.
  intros Hk. apply map_eq. intros j. destruct (decide (j = k)) as [->|].
  - by rewrite lookup_alter_eq, lookup_insert_eq, Hk.
  - by rewrite lookup_alter_ne, lookup_insert_ne.
Qed.

Lemma alter_none {A} (f : A → A) (m : gmap cstr A) k : m !! k = None → alter f k m = m.
Proof.
  intros Hk. apply map_eq. intros j. destruct (decide (j = k)) as [->|].
  - by rewrite lookup_alter_eq, Hk.
  - by rewrite lookup_alter_ne.
Qed.

Lemma play_refines t r :
  table_wf t → match r with LogNewClassAd k _ _ => to_map t !! k = None | _ => True end →
  table_wf (play hashFunction t r) ∧ to_map (play hashFunction t r) = play_map (to_map t) r.
Proof.
  intros [Hw Hn] Hk. unfold play.
  assert (∀ k, ht_lookup hashFunction t k = to_map t !! k) as Hl
    by (intros; by apply (lookup_remove_spec hashFunction t)).
  destruct r; cbn [Play play_map];
    unfold LogNewClassAd_Play, LogDestroyClassAd_Play, LogSetAttribute_Play, LogDeleteAttribute_Play;
    rewrite ?Hl; try done.
  - destruct (insert_new_spec hashFunction t key (ad_new mytype targettype) Hw Hn Hk)
      as (_ & ? & ? & ?). done.
  - destruct (to_map t !! key) eqn:E; [|by rewrite delete_id].
    destruct (remove_nodup_spec hashFunction t key Hw Hn) as (? & ? & ? & _). done.
  - destruct (to_map t !! key) as [a|] eqn:E; [|rewrite alter_none by done; by destruct (valid_expr value)].
    destruct (valid_expr value); [|done].
    destruct (update_node_spec hashFunction t key (ad_set a name value) Hw Hn ltac:(by rewrite E; eauto))
      as (? & ? & Hm). simpl. rewrite Hm. by rewrite (alter_some _ _ _ a).
  - destruct (to_map t !! key) as [a|] eqn:E; [|by rewrite alter_none].
    destruct (update_node_spec hashFunction t key (ad_delete a name) Hw Hn ltac:(by rewrite E; eauto))
      as (? & ? & Hm). simpl. rewrite Hm. by rewrite (alter_some _ _ _ a).
Qed.

Lemma play_all_refines l : ∀ t,
  table_wf t → new_ok (to_map t) l →
  table_wf (play_all hashFunction t l) ∧ to_map (play_all hashFunction t l) = foldl play_map (to_map t) l.
Proof.
  induction l as [|r l IH]; intros t Hw Hok; [done|]. destruct Hok as [Hr Hok].
  destruct (play_refines t r Hw Hr) as [Hw' Hm]. rewrite <- Hm in Hok.
  change (play_all hashFunction t (r :: l)) with (play_all hashFunction (play hashFunction t r) l).
  cbn [foldl]. destruct (IH _ Hw' Hok) as [? ->]. by rewrite Hm.
Qed.

(** *** Transactions and their index *)

Definition key_of (r : LogRecord) : cstr := default [] (get_key r).
Definition tx_indexed (x : Transaction) : Prop :=
  ∀ k, entries_of x k = filter (fun r => key_of r = k) (ordered_op_log x).

Lemma tx_indexed_new : tx_indexed Transaction_new.
Proof. intros k. done. Qed.

Lemma tx_indexed_append x r : tx_indexed x → tx_indexed (Transaction_AppendLog x r).
Proof.
  intros Hx k. unfold entries_of. simpl. fold (key_of r).
  rewrite filter_app, filter_cons, filter_nil, <- Hx. unfold entries_of.
  case_decide as E; [subst k|].
  - by rewrite lookup_insert_eq.
  - rewrite lookup_insert_ne by done. by rewrite app_nil_r.
Qed.

Lemma lookup_play_map_ne m r k : key_of r ≠ k → play_map m r !! k = m !! k.
Proof.
  unfold key_of. destruct r; simpl; intros Hne; try done.
  - by rewrite lookup_insert_ne.
  - by rewrite lookup_delete_ne.
  - destruct (valid_expr value); [by rewrite lookup_alter_ne|done].
  - by rewrite lookup_alter_ne.
Qed.

(** What a key denotes afterwards depends on its own records only. *)
Lemma lookup_foldl_play_map l k : ∀ m,
  foldl play_map m l !! k = foldl play_map m (filter (fun r => key_of r = k) l) !! k.
Proof.
  assert (∀ l m m', m !! k = m' !! k →
    foldl play_map m (filter (fun r => key_of r = k) l) !! k
    = foldl play_map m' (filter (fun r => key_of r = k) l) !! k) as Hext.
  { clear l. induction l as [|r l IH]; intros m m' E; [done|].
    rewrite filter_cons. case_decide as Hk; [|by apply IH]. cbn [foldl]. apply IH.
    destruct r; simpl in *; unfold key_of in Hk; simpl in Hk; subst; try done.
    - by rewrite !lookup_insert_eq.
    - by rewrite !lookup_delete_eq.
    - destruct (valid_expr value); [by rewrite !lookup_alter_eq, E|done].
    - by rewrite !lookup_alter_eq, E. }
  induction l as [|r l IH]; intros m; [done|]. cbn [foldl]. rewrite IH. rewrite filter_cons.
  case_decide as Hk; [done|]. apply Hext. by apply lookup_play_map_ne.
Qed.

Lemma exists_foldl l k : ∀ m b,
  k ≠ [] → Forall (fun r => key_of r = k) l → b = bool_decide (is_Some (m !! k)) →
  foldl exists_step b l = bool_decide (is_Some (foldl play_map m l !! k)).
Proof.
  induction l as [|r l IH]; intros m b Hk Hl Hb; [done|].
  apply Forall_cons in Hl as [Hr Hl]. simpl. apply IH; [done..|]. subst b.
  unfold key_of in Hr. destruct r; simpl in *; subst; try done.
  - by rewrite lookup_insert_eq.
  - by rewrite lookup_delete_eq.
  - destruct (valid_expr value); [|done]. rewrite lookup_alter_eq. by destruct (m !! k).
  - rewrite lookup_alter_eq. by destruct (m !! k).
Qed.

(** Records that only edit attributes. *)
Definition edits (r : LogRecord) : Prop :=
  match r with
  | LogSetAttribute _ _ v => valid_expr v = true
  | LogDeleteAttribute _ _ => True
  | _ => False
  end.

(** What [ExamineTransaction] found so far about attribute [name], and what the
    edits made of the ad [a]. *)
Definition examined (name : cstr) (st : bool * bool * option cstr) (a a' : ad) : Prop :=
  let '(AdDeleted, ValDeleted, ValFound) := st in
  AdDeleted = false ∧
  ad_lookup a' name = match ValFound with
                      | Some v => Some (unparse v)
                      | None => if ValDeleted : bool then None else ad_lookup a name
                      end ∧
  (ValDeleted = true → ValFound = None).

Lemma examine_foldl name k l : ∀ m st (a a1 : ad),
  Forall (fun r => key_of r = k ∧ edits r) l → m !! k = Some a1 → examined name st a a1 →
  ∃ a', foldl play_map m l !! k = Some a' ∧ examined name (foldl (examine_step name) st l) a a'.
Proof.
  induction l as [|r l IH]; intros m [[AdD ValD] ValF] a a1 Hl Hm (-> & Hx & Hdel).
  { exists a1. by split. }
  apply Forall_cons in Hl as [[Hk Hr] Hl]. cbn [foldl].
  destruct r as [| |k' n v|k' n| | | |]; try done; unfold key_of in Hk; simpl in Hk, Hr; subst k'.
  - apply (IH _ _ a (ad_set a1 n v) Hl).
    + simpl. rewrite Hr, lookup_alter_eq, Hm. done.
    + simpl. destruct (strcasecmp_eq n name) eqn:E; (split; [done|]); rewrite ad_lookup_set, E by done; done.
  - apply (IH _ _ a (ad_delete a1 n) Hl).
    + simpl. rewrite lookup_alter_eq, Hm. done.
    + simpl. destruct (strcasecmp_eq n name) eqn:E; (split; [done|]); rewrite ad_lookup_delete, E; done.
Qed.

Lemma record_table_entries (s : ClassAdLog (ad := ad)) :
  wf hashFunction (table s) →
  state_records s = LogHistoricalSequenceNumber (historical_sequence_number s) (m_original_log_birthdate s)
    :: concat ((fun '(k, a) => ad_records k a) <$> entries (table s)).
Proof.
  intros Hw. unfold state_records. rewrite (iterate_all_entries hashFunction); [done..|].
  rewrite (wf_num _ _ Hw), Nat2Z.id. unfold entries. rewrite length_fmap. lia.
Qed.

(** The records written for one ad rebuild it from its text. *)
Lemma play_ad_records m k (a : ad) :
  ad_ok a → word k → m !! k = None →
  foldl play_map m (ad_records k a) = <[k := rewritten a]> m ∧ new_ok m (ad_records k a) ∧
  Forall data_record (ad_records k a).
Proof.
  intros Ha Hk Hm. unfold ad_records.
  assert (Hset : ∀ l b, (∀ n v, (n, v) ∈ l → word n ∧ v ≠ [] ∧ inline v ∧ blankline v = false ∧
                                             valid_expr v = true) →
    let recs := (fun nv => new_LogSetAttribute k (fst nv) (Some (snd nv))) <$> l in
    foldl play_map (<[k := b]> m) recs
      = <[k := foldl (fun b nv => ad_set b (fst nv) (snd nv)) b l]> m ∧
    (∀ m', new_ok m' recs) ∧ Forall data_record recs).
  { induction l as [|[n v] l IH]; intros b Hl; [done|].
    destruct (Hl n v) as (Hn & Hv & Hi & Hbl & Hval); [by apply list_elem_of_here|].
    assert (new_LogSetAttribute k n (Some v) = LogSetAttribute k n v) as En.
    { unfold new_LogSetAttribute. rewrite Hbl, Hval. by destruct v. }
    destruct (IH (ad_set b n v)) as (E1 & E2 & E3).
    { intros n' v' Hin. by apply Hl, list_elem_of_further. }
    cbv zeta. rewrite fmap_cons.
    cbn [fst snd foldl]. rewrite En. cbn [play_map]. rewrite Hval.
    rewrite (alter_some _ _ _ b) by apply lookup_insert_eq. rewrite insert_insert_eq.
    split; [exact E1|]. split.
    - intros m'. split; [done|]. apply E2.
    - constructor; [|exact E3]. done. }
  destruct (Hset (ad_attrs a) (ad_new (ad_mytype a) (ad_targettype a))) as (E1 & E2 & E3).
  { intros n v Hnv. by apply Ha. }
  cbn [foldl play_map]. rewrite E1. split; [done|]. split; [by split|].
  constructor; [|exact E3]. by destruct Ha as (? & ? & _).
Qed.

Lemma play_table_records l : ∀ m,
  Forall (fun ka => word (fst ka) ∧ ad_ok (snd ka)) l → NoDup l.*1 →
  (∀ k, k ∈ l.*1 → m !! k = None) →
  let recs := concat ((fun '(k, a) => ad_records k a) <$> l) in
  foldl play_map m recs = (rewritten <$> list_to_map l) ∪ m ∧ new_ok m recs ∧ Forall data_record recs.
Proof.
  induction l as [|[k a] l IH]; intros m Hl Hnd Hm; cbv zeta.
  { simpl. rewrite fmap_empty. split; [symmetry; apply (map_empty_union m)|done]. }
  apply Forall_cons in Hl as [[Hk Ha] Hl]. apply NoDup_cons in Hnd as [Hkl Hnd].
  rewrite fmap_cons. cbn [concat].
  destruct (play_ad_records m k a Ha Hk) as (E1 & E2 & E3); [apply Hm; simpl; set_solver|].
  destruct (IH (<[k := rewritten a]> m) Hl Hnd) as (F1 & F2 & F3).
  { intros k' Hk'. rewrite lookup_insert_ne by (intros ->; done). apply Hm. simpl. set_solver. }
  rewrite foldl_app, E1, F1. split_and!.
  - rewrite list_to_map_cons, fmap_insert, <- insert_union_l, insert_union_r; [done|].
    rewrite lookup_fmap, fmap_None. by apply not_elem_of_list_to_map.
  - assert (∀ l1 l2 m, new_ok m l1 → new_ok (foldl play_map m l1) l2 → new_ok m (l1 ++ l2)) as Happ.
    { clear. induction l1 as [|r l1 IH]; intros l2 m H1 H2; [done|]. destruct H1 as [H1 H1'].
      split; [done|]. by apply IH. }
    apply Happ; [done|]. by rewrite E1.
  - by apply Forall_app.
Qed.
End Semantics.

(** ** Ads as lists of attributes: an instance *)

Record text_ad := mkTextAd {
  ta_mytype : cstr;
  ta_targettype : cstr;
  ta_attrs : list (cstr * cstr);
}.

Fixpoint attr_set (n v : cstr) (l : list (cstr * cstr)) : list (cstr * cstr) :=
  match l with
  | [] => [(n, v)]
  | (n', v') :: l => if strcasecmp_eq n' n then (n', v) :: l else (n', v') :: attr_set n v l
  end.
Fixpoint attr_get (n : cstr) (l : list (cstr * cstr)) : option cstr :=
  match l with
  | [] => None
  | (n', v) :: l => if strcasecmp_eq n' n then Some v else attr_get n l
  end.

#[export] Instance text_ad_ops : AdOps text_ad := {
  ad_new m t := mkTextAd m t [];
  ad_set a n v := mkTextAd (ta_mytype a) (ta_targettype a) (attr_set n v (ta_attrs a));
  ad_delete a n := mkTextAd (ta_mytype a) (ta_targettype a)
                     (List.filter (fun nv => negb (strcasecmp_eq (fst nv) n)) (ta_attrs a));
  ad_mytype := ta_mytype;
  ad_targettype := ta_targettype;
  ad_attrs := ta_attrs;
  valid_expr v := negb (blankline v);
}.

Definition attr_ok (nv : cstr * cstr) : Prop :=
  word (fst nv) ∧ snd nv ≠ [] ∧ inline (snd nv) ∧ blankline (snd nv) = false.
(** No two names are equal up to case. *)
Definition names_ok (l : list (cstr * cstr)) : Prop :=
  ∀ l1 nv l2 nv', l = l1 ++ nv :: l2 → nv' ∈ l1 → strcasecmp_eq (fst nv') (fst nv) = false.
Definition text_ad_ok (a : text_ad) : Prop :=
  type_ok (ta_mytype a) ∧ type_ok (ta_targettype a) ∧ Forall attr_ok (ta_attrs a) ∧
  names_ok (ta_attrs a).

Lemma names_ok_cons nv l :
  names_ok (nv :: l) ↔ (∀ nv', nv' ∈ l → strcasecmp_eq (fst nv) (fst nv') = false) ∧ names_ok l.
Proof.
  split.
  - intros Hn. split.
    + intros nv' (l1 & l2 & ->)%list_elem_of_split. apply (Hn (nv :: l1) nv' l2); [done|set_solver].
    + intros l1 x l2 y -> Hy. apply (Hn (nv :: l1) x l2); [done|set_solver].
  - intros [H1 H2] [|z l1] x l2 y E Hy; [set_solver|]. simplify_eq/=.
    apply elem_of_cons in Hy as [->|Hy]; [apply H1; set_solver|by eapply H2].
Qed.

Lemma attr_set_names n v l x :
  x ∈ attr_set n v l → x ∈ l ∨ fst x = n ∨ ∃ v', (fst x, v') ∈ l.
Proof.
  induction l as [|[n' v'] l IH]; simpl.
  - intros ->%list_elem_of_singleton. auto.
  - destruct (strcasecmp_eq n' n).
    + intros [->|?]%elem_of_cons; [|set_solver]. right. right. exists v'. set_solver.
    + intros [->|Hx]%elem_of_cons; [set_solver|]. destruct (IH Hx) as [?|[?|(v0 & ?)]]; [set_solver|auto|].
      right. right. exists v0. set_solver.
Qed.

Lemma attr_set_ok n v l :
  word n → attr_ok (n, v) → Forall attr_ok l → names_ok l →
  Forall attr_ok (attr_set n v l) ∧ names_ok (attr_set n v l).
Proof.
  intros Hn Hv. induction l as [|[n' v'] l IH]; simpl; intros Hl Hnm.
  - split; [by constructor|]. apply names_ok_cons. split; [set_solver|done].
  - apply Forall_cons in Hl as [Hx Hl]. apply names_ok_cons in Hnm as [Hd Hnm].
    destruct (strcasecmp_eq n' n) eqn:E.
    + split; [|by apply names_ok_cons]. constructor; [|done]. destruct Hx as [Hx _], Hv as [_ Hv]. done.
    + destruct (IH Hl Hnm) as [H1 H2]. split; [by constructor|]. apply names_ok_cons. split; [|done].
      intros x Hx'. destruct (attr_set_names _ _ _ _ Hx') as [?|[->|(v0 & Hv0)]]; [auto|done|].
      apply (Hd _ Hv0).
Qed.

Lemma attr_set_rebuild l : ∀ m t acc,
  names_ok (acc ++ l) →
  foldl (fun b nv => ad_set b (fst nv) (snd nv)) (mkTextAd m t acc) l = mkTextAd m t (acc ++ l).
Proof.
  induction l as [|[n v] l IH]; intros m t acc Hn; simpl; [by rewrite app_nil_r|].
  assert (attr_set n v acc = acc ++ [(n, v)]) as ->.
  { assert (∀ nv', nv' ∈ acc → strcasecmp_eq (fst nv') n = false) as Hd
      by (intros nv' Hin; by apply (Hn acc (n, v) l)).
    clear Hn IH. induction acc as [|[n' v'] acc IH]; simpl; [done|].
    pose proof (Hd (n', v') ltac:(set_solver)) as E. simpl in E. rewrite E. f_equal. apply IH. set_solver. }
  rewrite IH; rewrite <- app_assoc; done.
Qed.

Lemma attr_get_set n v l n' :
  attr_get n' (attr_set n v l) = if strcasecmp_eq n n' then Some v else attr_get n' l.
Proof.
  induction l as [|[m w] l IH]; simpl; [done|]. destruct (strcasecmp_eq m n) eqn:E; simpl.
  - rewrite (strcasecmp_eq_trans m n n' E). by destruct (strcasecmp_eq n n').
  - rewrite IH. destruct (strcasecmp_eq m n') eqn:E1, (strcasecmp_eq n n') eqn:E2; try done.
    rewrite (strcasecmp_eq_sym n n') in E2. rewrite (strcasecmp_eq_sym m n') in E1.
    rewrite (strcasecmp_eq_sym m n) in E. by rewrite <- (strcasecmp_eq_trans n' n m E2), E1 in E.
Qed.

Lemma attr_get_delete n l n' :
  attr_get n' (List.filter (fun nv => negb (strcasecmp_eq (fst nv) n)) l)
  = if strcasecmp_eq n n' then None else attr_get n' l.
Proof.
  induction l as [|[m w] l IH]; simpl; [by destruct (strcasecmp_eq n n')|].
  destruct (strcasecmp_eq m n) eqn:E; simpl; rewrite IH.
  - rewrite (strcasecmp_eq_trans m n n' E). by destruct (strcasecmp_eq n n').
  - destruct (strcasecmp_eq n n') eqn:E2; [|done].
    rewrite (strcasecmp_eq_sym m n'). rewrite (strcasecmp_eq_sym m n) in E.
    by rewrite <- (strcasecmp_eq_trans n n' m E2), E.
Qed.

#[export] Program Instance text_ad_spec : AdSpec text_ad := {
  ad_lookup a n := attr_get n (ta_attrs a);
  unparse v := v;
}.
Next Obligation. intros a n v n' _. apply attr_get_set. Qed.
Next Obligation. intros a n n'. apply attr_get_delete. Qed.
Lemma text_ad_ok_ok (a : text_ad) : text_ad_ok a → ad_ok a.
Proof.
  intros (? & ? & Hl & _). split_and!; [done..|]. intros n v Hnv. rewrite Forall_forall in Hl.
  destruct (Hl _ Hnv) as (? & ? & ? & Hb). simpl in *. by rewrite Hb.
Qed.
Lemma text_ad_rewritten (a : text_ad) : text_ad_ok a → rewritten a = a.
Proof. destruct a as [m t l]. intros (_ & _ & _ & Hn). exact (attr_set_rebuild l m t [] Hn). Qed.

(** ** Properties *)

(** Looking through an open transaction, for ads: when no ad is created under a
    key in use, [AdExistsInTableOrTransaction] tells exactly whether the ad will
    exist once the transaction is committed. *)
Theorem AdExists_correct `{AdSpec ad} hashFunction (s : ClassAdLog (ad := ad)) x k :
  table_wf hashFunction (table s) → active_transaction s = Some x → tx_indexed x → k ≠ [] →
  new_ok (to_map (table s)) (ordered_op_log x) →
  AdExistsInTableOrTransaction hashFunction s k
  = bool_decide (is_Some (to_map (play_all hashFunction (table s) (ordered_op_log x)) !! k)).
Proof.
  intros Hw Hx Hidx Hk Hok. unfold AdExistsInTableOrTransaction. rewrite Hx, Hidx.
  destruct (play_all_refines hashFunction _ _ Hw Hok) as [_ ->].
  rewrite lookup_foldl_play_map. apply exists_foldl; [done| |].
  - apply Forall_forall. by intros r [? _]%list_elem_of_filter.
  - destruct Hw as [Hw _]. by rewrite (proj1 (lookup_remove_spec hashFunction (table s) k Hw)).
Qed.

(** The sum of the characters, as a hash function. *)
Definition sum_hash (s : cstr) : Z := foldl (fun n c => n + Z.of_nat (nat_of_ascii c)) 0 s.

(** A log with the ad 1.0 and an open transaction. *)
Definition sample_records : list LogRecord :=
  [LogNewClassAd (L "1.0") (L "Job") (L "Machine"); LogSetAttribute (L "1.0") (L "Foo") (L "1 + 2")].
Definition sample_tx (l : list LogRecord) : Transaction :=
  foldl Transaction_AppendLog Transaction_new (LogBeginTransaction :: l).
Definition sample_log (l : list LogRecord) : ClassAdLog (ad := text_ad) :=
  mkLog (play_all sum_hash (initialize allowDuplicateKeys) sample_records) (Some (sample_tx l)) [] [] 0 1 7.

Lemma sample_log_wf l :
  table_wf sum_hash (table (sample_log l)) ∧ tx_indexed (sample_tx l) ∧
  to_map (table (sample_log l))
  = <[L "1.0" := mkTextAd (L "Job") (L "Machine") [(L "Foo", L "1 + 2")]]> ∅.
Proof.
  assert (table_wf (ad := text_ad) sum_hash (initialize allowDuplicateKeys)) as Hw.
  { split; [apply initialize_wf|]. apply NoDup_nil_2. }
  destruct (play_all_refines sum_hash sample_records _ Hw) as [Hw' Hm]; [done|].
  split; [done|]. split; [|vm_compute; reflexivity].
  unfold sample_tx. generalize (LogBeginTransaction :: l) as l'.
  assert (∀ l' x, tx_indexed x → tx_indexed (foldl Transaction_AppendLog x l')) as Hx.
  { induction l' as [|r l' IH]; intros x Hx; [done|]. by apply IH, tx_indexed_append. }
  intros l'. apply Hx, tx_indexed_new.
Qed.

Lemma AdExists_correct_witness :
  let s := sample_log [LogDestroyClassAd (L "1.0"); LogNewClassAd (L "1.1") [] []] in
  AdExistsInTableOrTransaction sum_hash s (L "1.0") = false ∧
  AdExistsInTableOrTransaction sum_hash s (L "1.1")
  = bool_decide (is_Some (to_map (play_all sum_hash (table s)
      [LogBeginTransaction; LogDestroyClassAd (L "1.0"); LogNewClassAd (L "1.1") [] []]) !! L "1.1")).
Proof.
  intros s. split; [vm_compute; reflexivity|].
  destruct (sample_log_wf [LogDestroyClassAd (L "1.0"); LogNewClassAd (L "1.1") [] []]) as (Hw & Hx & Hm).
  refine (AdExists_correct sum_hash s _ (L "1.1") Hw eq_refl Hx _ _); [done|].
  unfold s. rewrite Hm. by vm_compute.
Defined.

(** Looking through an open transaction, for attributes: when the transaction
    only edits the attributes of the ad, [LookupInTransaction] gives 1 and the
    expression the attribute will have once the transaction is committed, -1 if
    it will have none because of the transaction, and 0 if the transaction does
    not change it. *)
Theorem LookupInTransaction_correct `{AdSpec ad} hashFunction (s : ClassAdLog (ad := ad)) x k name a :
  table_wf hashFunction (table s) → active_transaction s = Some x → tx_indexed x →
  new_ok (to_map (table s)) (ordered_op_log x) → to_map (table s) !! k = Some a →
  Forall edits (entries_of x k) →
  ∃ a', to_map (play_all hashFunction (table s) (ordered_op_log x)) !! k = Some a' ∧
    match LookupInTransaction s k name with
    | (1, Some v) => ad_lookup a' name = Some (unparse v)
    | (-1, _) => ad_lookup a' name = None
    | (0, _) => ad_lookup a' name = ad_lookup a name
    | _ => False
    end.
Proof.
  intros Hw Hx Hidx Hok Ha Hed. unfold LookupInTransaction. rewrite Hx.
  destruct (play_all_refines hashFunction _ _ Hw Hok) as [_ ->].
  rewrite lookup_foldl_play_map, <- Hidx.
  destruct (examine_foldl name k (entries_of x k) (to_map (table s)) (false, false, None) a a)
    as (a' & Ha' & Hex); [|done|done|].
  { apply Forall_forall. intros r Hr. rewrite Forall_forall in Hed. split; [|by apply Hed].
    rewrite Hidx in Hr. by apply list_elem_of_filter in Hr as [? _]. }
  exists a'. split; [done|].
  destruct (foldl (examine_step name) (false, false, None) (entries_of x k)) as [[AdD ValD] ValF].
  destruct Hex as (-> & Hl & Hd). simpl. destruct ValD; [by rewrite Hd in Hl|]. by destruct ValF.
Qed.

Lemma LookupInTransaction_correct_witness :
  let s := sample_log [LogSetAttribute (L "1.0") (L "FOO") (L "3"); LogDeleteAttribute (L "1.0") (L "Bar")] in
  LookupInTransaction s (L "1.0") (L "foo") = (1, Some (L "3")) ∧
  ∃ a', to_map (play_all sum_hash (table s) (ordered_op_log (sample_tx
          [LogSetAttribute (L "1.0") (L "FOO") (L "3"); LogDeleteAttribute (L "1.0") (L "Bar")])))
          !! L "1.0" = Some a' ∧ ad_lookup a' (L "foo") = Some (L "3").
Proof.
  intros s. split; [vm_compute; reflexivity|].
  destruct (sample_log_wf [LogSetAttribute (L "1.0") (L "FOO") (L "3"); LogDeleteAttribute (L "1.0") (L "Bar")])
    as (Hw & Hx & Hm).
  destruct (LookupInTransaction_correct sum_hash s _ (L "1.0") (L "foo")
    (mkTextAd (L "Job") (L "Machine") [(L "Foo", L "1 + 2")]) Hw eq_refl Hx) as (a' & E & Hl).
  - unfold s. rewrite Hm. by vm_compute.
  - unfold s. rewrite Hm. apply lookup_insert_eq.
  - vm_compute. repeat constructor.
  - exists a'. split; [exact E|]. vm_compute in Hl. exact Hl.
Defined.

(** In a transaction that destroys an ad and creates it again, an attribute of the
    old ad is reported as not changed, or with the value it had before the ad was
    destroyed, although the new ad does not have it. *)
Theorem LookupInTransaction_stale :
  let l1 := [LogDestroyClassAd (L "1.0"); LogNewClassAd (L "1.0") (L "Job") (L "Machine")] in
  let l2 := LogSetAttribute (L "1.0") (L "Foo") (L "9") :: l1 in
  LookupInTransaction (sample_log l1) (L "1.0") (L "Foo") = (0, None) ∧
  LookupInTransaction (sample_log l2) (L "1.0") (L "Foo") = (1, Some (L "9")) ∧
  (a ← ht_lookup sum_hash (play_all sum_hash (table (sample_log l1)) l1) (L "1.0"); ad_lookup a (L "Foo")) = None ∧
  (a ← ht_lookup sum_hash (play_all sum_hash (table (sample_log l2)) l2) (L "1.0"); ad_lookup a (L "Foo")) = None.
Proof. vm_compute. auto. Qed.

(** Records that are not transaction marks are played one by one. *)
Lemma open_steps_data `{AdOps ad} hashFunction l : ∀ o : open_state (ad := ad),
  Forall data_record l → o_active o = None →
  o_table (foldl (open_step hashFunction) o l) = play_all hashFunction (o_table o) l ∧
  o_active (foldl (open_step hashFunction) o l) = None ∧
  o_clean (foldl (open_step hashFunction) o l) = o_clean o.
Proof.
  induction l as [|r l IH]; intros o Hl Ha; [done|]. apply Forall_cons in Hl as [Hr Hl].
  destruct (open_step_data hashFunction o r Hr Ha) as [F1 F2]. cbn [foldl].
  destruct (IH (open_step hashFunction o r) Hl F2) as (-> & -> & ->). rewrite F1. split_and!; [done..|].
  destruct Hr as (_ & ? & ?), r; simpl; rewrite ?Ha; done.
Qed.

(** C37. Rotation: when the keys of the table are single words and differ, its ads can
    be written (type names, attribute names that are single words, texts of
    expressions that are not blank, stand on one line and are parsed) and the sequence
    number and the birth date are numbers of 64 bits, then the text that [LogState]
    writes is accepted by [Write] record by record, and reading it back, in a new
    process, gives the same keys with the ads that are rebuilt from the text of their
    attributes, and no open transaction.  An ad whose attributes are not what their text is
    read as, such as one with a real of more than 16 digits, comes back as its text. *)
Theorem LogState_replays `{AdOps ad} hashFunction strict (s : ClassAdLog (ad := ad)) now :
  table_wf hashFunction (table s) →
  map_Forall (fun k a => word k ∧ ad_ok a) (to_map (table s)) →
  0 ≤ historical_sequence_number s < 2 ^ 64 → 0 ≤ m_original_log_birthdate s < 2 ^ 64 →
  ∃ text o, write_all (state_records s) = (true, text) ∧
    open_loop hashFunction strict (length text)
      (mkOpen (initialize allowDuplicateKeys) None true 0 1 now) text = Some (o, []) ∧
    to_map (o_table o) = rewritten <$> to_map (table s) ∧ o_active o = None ∧ o_clean o = true ∧
    table_wf hashFunction (o_table o).
Proof.
  intros [Hw Hnd] Hads Hseq Hbirth. rewrite (record_table_entries hashFunction s Hw).
  assert (NoDup (entries (table s)).*1) as Hk.
  { unfold entries. rewrite <- list_fmap_compose. exact Hnd. }
  assert (Forall (fun ka => word (fst ka) ∧ ad_ok (snd ka)) (entries (table s))) as Hok.
  { apply Forall_forall. intros [k a] Hka. apply (Hads k a). unfold to_map.
    by apply elem_of_list_to_map_1. }
  destruct (play_table_records hashFunction (entries (table s)) ∅ Hok Hk) as (E1 & E2 & E3); [done|].
  set (recs := concat _) in *. set (hist := LogHistoricalSequenceNumber _ _).
  assert (Forall data_record (hist :: recs)) as Hdata by (constructor; [done|exact E3]).
  assert (Forall record_ok (hist :: recs)) as Hrec
    by (eapply Forall_impl; [exact Hdata|]; by intros r [? _]).
  exists (text_of (hist :: recs)). eexists. split; [by apply (write_all_ok strict)|].
  split.
  { rewrite <- (app_nil_r (text_of (hist :: recs))) at 2.
    pose proof (text_of_length (hist :: recs)).
    rewrite open_loop_records by (done || lia). by destruct (_ - _)%nat. }
  destruct (open_steps_data hashFunction (hist :: recs)
    (mkOpen (initialize allowDuplicateKeys) None true 0 1 now) Hdata eq_refl) as (-> & -> & ->).
  assert (table_wf (ad := ad) hashFunction (initialize allowDuplicateKeys)) as Hi.
  { split; [apply initialize_wf|]. apply NoDup_nil_2. }
  destruct (play_all_refines hashFunction (hist :: recs) _ Hi) as [Hw' Hm]; [by split|].
  cbn [o_table o_clean]. rewrite Hm. split_and!; [|done..].
  change (to_map (initialize allowDuplicateKeys)) with (∅ : gmap cstr ad).
  cbn [foldl]. change (play_map (∅ : gmap cstr ad) hist) with (∅ : gmap cstr ad).
  rewrite E1. apply map_union_empty.
Qed.

Lemma LogState_replays_witness :
  ∃ text o, write_all (state_records (sample_log [])) = (true, text) ∧
    open_loop sum_hash true (length text)
      (mkOpen (initialize allowDuplicateKeys) None true 0 1 0) text = Some (o, []) ∧
    to_map (o_table o) = rewritten <$> to_map (table (sample_log [])) ∧ o_active o = None ∧ o_clean o = true ∧
    table_wf sum_hash (o_table o).
Proof.
  destruct (sample_log_wf []) as (Hw & _ & Hm).
  apply (LogState_replays sum_hash true (sample_log []) 0 Hw); [|done|done].
  rewrite Hm. apply map_Forall_insert_2; [|apply map_Forall_empty].
  split; [by apply word_b_spec|]. apply text_ad_ok_ok. split_and!.
  - right. split; [by apply word_b_spec|done].
  - right. split; [by apply word_b_spec|done].
  - apply Forall_singleton. split_and!; [by apply word_b_spec|done|done|done].
  - apply names_ok_cons. split; [set_solver|]. intros [] ? ? ? E; discriminate E.
Defined.

(** A run with a durable and a nondurable transaction. *)
Definition sample_ops : list log_op :=
  [OpBegin; OpAppend (LogNewClassAd (L "1.0") (L "Job") []);
   OpAppend (LogSetAttribute (L "1.0") (L "Owner") (L "me")); OpCommit;
   OpBegin; OpAppend (LogSetAttribute (L "1.0") (L "Owner") (L "you")); OpCommitNondurable].

Definition run_sample (ops : list log_op) : option (unit * ClassAdLog (ad := text_ad)) :=
  s0 ← ClassAdLog_open sum_hash true [] 7 true; run_log_ops sum_hash ops s0.
Definition sample_state : ClassAdLog (ad := text_ad) :=
  from_option snd (sample_log []) (run_sample sample_ops).
Definition sample_spec : log_spec := default (mkSpec [] [] None) (spec_ops (spec_new 7) sample_ops).

Lemma sample_ops_ok : Forall (op_ok (ad := text_ad)) sample_ops.
Proof.
  assert (∀ s, word_b s = true → word s) as Hw by (intros s; apply word_b_spec).
  repeat (apply Forall_cons; split); try done; simpl; (split; [|done]); (split; [|done]); simpl;
    split_and!; try (by apply Hw); try done; [right; split; [by apply Hw|done]|by left].
Qed.

Lemma ClassAdLog_refines_witness :
  ∃ s0, ClassAdLog_open (ad := text_ad) sum_hash true [] 7 true = Some s0 ∧
  match spec_ops (spec_new 7) sample_ops with
  | Some σ => ∃ s, run_log_ops sum_hash sample_ops s0 = Some (tt, s) ∧
                   log_disk s = units_text (durable σ) ∧ log_buf s = units_text (volatile σ) ∧
                   table s = apply_units sum_hash (durable σ ++ volatile σ)
  | None => run_log_ops sum_hash sample_ops s0 = None
  end.
Proof. apply (ClassAdLog_refines sum_hash true 7 true sample_ops); [done|apply sample_ops_ok]. Defined.

(** The nondurable transaction is lost when its last character is. *)
Lemma ClassAdLog_recovers_witness :
  let p := take (length (log_buf sample_state) - 1) (log_buf sample_state) in
  ∃ kept lost o tail, volatile sample_spec = kept ++ lost ∧
    open_loop sum_hash true (length (log_disk sample_state ++ p))
      (mkOpen (initialize allowDuplicateKeys) None true 0 1 9) (log_disk sample_state ++ p) = Some (o, tail) ∧
    o_table o = apply_units sum_hash (durable sample_spec ++ kept) ∧
    (∃ part, p = units_text kept ++ part).
Proof.
  intros p.
  destruct (ClassAdLog_recovers (ad := text_ad) sum_hash true 7 9 sample_ops sample_spec sample_state p
    (drop (length (log_buf sample_state) - 1) (log_buf sample_state)))
    as (kept & lost & o & tail & H1 & H2 & H3 & H4 & _).
  - done.
  - apply sample_ops_ok.
  - vm_compute. reflexivity.
  - vm_compute. reflexivity.
  - symmetry. apply take_drop.
  - exists kept, lost, o, tail. exact (conj H1 (conj H2 (conj H3 H4))).
Defined.

(** A value with a newline is refused by [Write].  In a nondurable commit the
    failure is not noticed: the change is made in memory, and the log that a later
    durable commit extends cannot be read again. *)
Theorem nondurable_failure_unnoticed :
  match run_sample
    [OpAppend (LogNewClassAd (L "1.0") (L "Job") []); OpBegin;
     OpAppend (LogSetAttribute (L "1.0") (L "Foo") (L "1 +" ++ NL :: L "2")); OpCommitNondurable;
     OpBegin; OpAppend (LogSetAttribute (L "1.0") (L "Bar") (L "3")); OpCommit] with
  | Some (_, s) => (a ← ht_lookup sum_hash (table s) (L "1.0"); ad_lookup a (L "Bar")) = Some (L "3") ∧
                   ClassAdLog_open (ad := text_ad) sum_hash true (log_disk s) 9 true = None
  | None => False
  end.
Proof. vm_compute. auto. Qed.
