(* ===== verification/CheckEvents.v ===== *)
(** * CheckEvents

    The consistency checks of DAGMan on the events of a user log,
    [condor_utils/check_events.cpp]: a hash table from job ids to counters, a
    check after each event and one of all jobs at the end.  A check sets the
    message and the result only when something is wrong; both are threaded
    through as a pair.  A [JobInfo *] of the table is owned by its entry, so that
    a change through the pointer is a change of the value of the entry. *)
From stdpp Require Import base list strings gmap.
From Stdlib Require Import ZArith Lia.
From S2P Require Import Prelude HashTable.
Open Scope Z_scope.

(** ** Data *)

Record CondorID := mkID { _cluster : Z; _proc : Z; _subproc : Z }.
#[export] Instance CondorID_eq : EqDecision CondorID.
Proof. solve_decision. Defined.
#[export] Instance CondorID_countable : Countable CondorID.
Proof.
  refine (inj_countable' (fun i => (_cluster i, _proc i, _subproc i))
    (fun '(c, p, s) => mkID c p s) _). by intros [].
Defined.

(** [hashFuncJobID] *)
Definition hashFuncJobID (key : CondorID) : Z :=
  let result := Z.lxor (Z.lxor (int32 (_cluster key * 29)) (int32 (_proc key * 7))) (_subproc key) in
  uint32 (if result <? 0 then - result else result).

Definition ULOG_SUBMIT : Z := 0.
Definition ULOG_EXECUTE : Z := 1.
Definition ULOG_EXECUTABLE_ERROR : Z := 2.
Definition ULOG_JOB_TERMINATED : Z := 5.
Definition ULOG_JOB_ABORTED : Z := 9.
Definition ULOG_POST_SCRIPT_TERMINATED : Z := 16.

Record ULogEvent := mkEvent { eventNumber : Z; cluster : Z; proc : Z; subproc : Z }.

Record JobInfo := mkInfo {
  submitCount : Z;
  errorCount : Z;
  abortCount : Z;
  termCount : Z;
  postScriptCount : Z;
}.
Definition JobInfo_new : JobInfo := mkInfo 0 0 0 0 0.
Definition TotalEndCount (i : JobInfo) : Z := int32 (abortCount i + termCount i).

Definition count_submit i := mkInfo (int32 (submitCount i + 1)) (errorCount i) (abortCount i) (termCount i) (postScriptCount i).
Definition count_error i := mkInfo (submitCount i) (int32 (errorCount i + 1)) (abortCount i) (termCount i) (postScriptCount i).
Definition count_abort i := mkInfo (submitCount i) (errorCount i) (int32 (abortCount i + 1)) (termCount i) (postScriptCount i).
Definition count_term i := mkInfo (submitCount i) (errorCount i) (abortCount i) (int32 (termCount i + 1)) (postScriptCount i).
Definition count_post i := mkInfo (submitCount i) (errorCount i) (abortCount i) (termCount i) (int32 (postScriptCount i + 1)).

Inductive check_event_result_t := EVENT_OKAY | EVENT_BAD_EVENT | EVENT_ERROR | EVENT_WARNING.
#[export] Instance result_eq : EqDecision check_event_result_t.
Proof. solve_decision. Defined.

Definition ALLOW_NONE : Z := 0.
Definition ALLOW_ALMOST_ALL : Z := Z.shiftl 1 0.
Definition ALLOW_TERM_ABORT : Z := Z.shiftl 1 1.
Definition ALLOW_RUN_AFTER_TERM : Z := Z.shiftl 1 2.
Definition ALLOW_GARBAGE : Z := Z.shiftl 1 3.
Definition ALLOW_EXEC_BEFORE_SUBMIT : Z := Z.shiftl 1 4.
Definition ALLOW_DOUBLE_TERMINATE : Z := Z.shiftl 1 5.
Definition ALLOW_DUPLICATE_EVENTS : Z := Z.shiftl 1 6.

Record CheckEvents := mkCheck {
  jobHash : HashTable CondorID JobInfo;
  allowEvents : Z;
}.
Definition CheckEvents_new (allowEventsSetting : Z) : CheckEvents :=
  mkCheck (initialize rejectDuplicateKeys) allowEventsSetting.
Definition SetAllowEvents (c : CheckEvents) (newAllowEvents : Z) : CheckEvents :=
  mkCheck (jobHash c) newAllowEvents.
Definition noSubmitId : CondorID := mkID (-1) 0 0.

(** ** What is tolerated *)

(** [allowEvents & flag] as a Boolean. *)
Definition allows (a flag : Z) : bool := negb (Z.land a flag =? 0).
Definition AllowAlmostAll (a : Z) : bool := allows a ALLOW_ALMOST_ALL.
Definition AllowExtraAborts (a : Z) : bool := allows a ALLOW_ALMOST_ALL || allows a ALLOW_TERM_ABORT.
Definition AllowExtraRuns (a : Z) : bool := allows a ALLOW_RUN_AFTER_TERM.
Definition AllowGarbage (a : Z) : bool := allows a ALLOW_ALMOST_ALL || allows a ALLOW_GARBAGE.
Definition AllowExecSubmit (a : Z) : bool :=
  allows a ALLOW_ALMOST_ALL || allows a ALLOW_EXEC_BEFORE_SUBMIT.
Definition AllowDoubleTerm (a : Z) : bool :=
  allows a ALLOW_ALMOST_ALL || allows a ALLOW_DOUBLE_TERMINATE.
Definition AllowDuplicates (a : Z) : bool :=
  allows a ALLOW_ALMOST_ALL || allows a ALLOW_DUPLICATE_EVENTS.

(** ** Checks *)

Abbreviation report := (cstr * check_event_result_t)%type.

(** [errorMsg = idStr + what + MyString(n) + ")"] *)
Definition message (idStr : cstr) (what : string) (n : Z) : cstr :=
  idStr ++ L what ++ int_text n ++ L ")".
Definition tolerated (b : bool) (r : check_event_result_t) : check_event_result_t :=
  if b then r else EVENT_ERROR.

Section Checks.
Variables (a : Z) (idStr : cstr) (info : JobInfo).

Definition CheckJobSubmit (st : report) : report :=
  let st :=
    if negb (submitCount info =? 1) then
      (message idStr " submitted, submit count != 1 (" (submitCount info),
       tolerated (AllowDuplicates a) EVENT_BAD_EVENT)
    else st in
  if negb (TotalEndCount info =? 0) then
    (message idStr " submitted, total end count != 0 (" (TotalEndCount info),
     tolerated (AllowExecSubmit a) EVENT_BAD_EVENT)
  else st.

Definition CheckJobExecute (st : report) : report :=
  let st :=
    if submitCount info <? 1 then
      (message idStr " executing, submit count < 1 (" (submitCount info),
       tolerated (AllowExecSubmit a || AllowGarbage a) EVENT_WARNING)
    else st in
  if negb (TotalEndCount info =? 0) then
    (message idStr " executing, total end count != 0 (" (TotalEndCount info),
     tolerated (AllowExtraRuns a) EVENT_BAD_EVENT)
  else st.

Definition CheckJobEnd (st : report) : report :=
  let st :=
    if submitCount info <? 1 then
      (message idStr " ended, submit count < 1 (" (submitCount info),
       tolerated (AllowExecSubmit a || (AllowGarbage a && (submitCount info <=? 1))) EVENT_WARNING)
    else st in
  let st :=
    if negb (TotalEndCount info =? 1) then
      (message idStr " ended, total end count != 1 (" (TotalEndCount info),
       if AllowExtraAborts a && (abortCount info =? 1) && (termCount info =? 1) then EVENT_BAD_EVENT
       else if AllowDoubleTerm a && (termCount info =? 2) then EVENT_BAD_EVENT
       else if AllowExtraRuns a then EVENT_BAD_EVENT
       else if AllowDuplicates a then EVENT_BAD_EVENT
       else EVENT_ERROR)
    else st in
  if negb (postScriptCount info =? 0) then
    (message idStr " ended, post script count != 0 (" (postScriptCount info),
     tolerated (AllowDuplicates a) EVENT_BAD_EVENT)
  else st.

(** A POST script that ran although every submit attempt failed. *)
Definition post_without_submit (id : CondorID) : bool :=
  bool_decide (noSubmitId = id) && (submitCount info =? 0) && (termCount info =? 0) &&
  (1 <=? postScriptCount info).

Definition CheckPostTerm (id : CondorID) (st : report) : report :=
  if post_without_submit id then st else
  let st :=
    if submitCount info <? 1 then
      (message idStr " post script ended, submit count < 1 (" (submitCount info),
       tolerated (AllowDuplicates a || (AllowGarbage a && (submitCount info <=? 1))) EVENT_BAD_EVENT)
    else st in
  let st :=
    if TotalEndCount info <? 1 then
      (message idStr " post script ended, total end count < 1 (" (TotalEndCount info),
       tolerated (AllowAlmostAll a) EVENT_BAD_EVENT)
    else st in
  if 1 <? postScriptCount info then
    (message idStr " post script ended, post script count > 1 (" (postScriptCount info),
     tolerated (AllowDuplicates a || AllowGarbage a) EVENT_BAD_EVENT)
  else st.

Definition CheckJobFinal (id : CondorID) (st : report) : report :=
  if post_without_submit id then st
  else if negb (_subproc id =? 0) then st
  else
  let st :=
    if negb (submitCount info =? 1) then
      (message idStr " ended, submit count != 1 (" (submitCount info),
       tolerated (AllowAlmostAll a || (AllowGarbage a && (submitCount info <=? 1))) EVENT_BAD_EVENT)
    else st in
  let st :=
    if negb (TotalEndCount info =? 1) then
      (message idStr " ended, total end count != 1 (" (TotalEndCount info),
       if AllowExtraAborts a && (abortCount info =? 1) && (termCount info =? 1) then EVENT_BAD_EVENT
       else if AllowDoubleTerm a && (termCount info =? 2) then EVENT_BAD_EVENT
       else if AllowExtraRuns a then EVENT_BAD_EVENT
       else if AllowGarbage a && (TotalEndCount info =? 0) then EVENT_BAD_EVENT
       else if AllowDuplicates a then EVENT_BAD_EVENT
       else EVENT_ERROR)
    else st in
  if 1 <? postScriptCount info then
    (message idStr " ended, post script count > 1 (" (postScriptCount info),
     tolerated (AllowDuplicates a || AllowGarbage a) EVENT_BAD_EVENT)
  else st.
End Checks.

(** ** Events *)

Definition event_id (ev : ULogEvent) : CondorID := mkID (cluster ev) (proc ev) (subproc ev).
Definition id_text (id : CondorID) : cstr :=
  L "BAD EVENT: job (" ++ int_text (_cluster id) ++ L "." ++ int_text (_proc id) ++ L "." ++
  int_text (_subproc id) ++ L ")".

(** The [switch] of [CheckAnEvent]: the new counters and the report. *)
Definition event_switch (a : Z) (id : CondorID) (number : Z) (info : JobInfo) : JobInfo * report :=
  let ok := ([], EVENT_OKAY) in
  let idStr := id_text id in
  if number =? ULOG_SUBMIT then
    let info := count_submit info in (info, CheckJobSubmit a idStr info ok)
  else if number =? ULOG_EXECUTE then (info, CheckJobExecute a idStr info ok)
  else if number =? ULOG_EXECUTABLE_ERROR then (count_error info, ok)
  else if number =? ULOG_JOB_ABORTED then
    let info := count_abort info in (info, CheckJobEnd a idStr info ok)
  else if number =? ULOG_JOB_TERMINATED then
    let info := count_term info in (info, CheckJobEnd a idStr info ok)
  else if number =? ULOG_POST_SCRIPT_TERMINATED then
    let info := count_post info in (info, CheckPostTerm a idStr info id ok)
  else (info, ok).

Definition CheckAnEvent (c : CheckEvents) (ev : ULogEvent) : report * CheckEvents :=
  let id := event_id ev in
  let '(failed, table, info) :=
    match ht_lookup hashFuncJobID (jobHash c) id with
    | Some info => (false, jobHash c, info)
    | None =>
        let '(ret, table) := ht_insert hashFuncJobID (jobHash c) id JobInfo_new in
        (negb (ret =? 0), table, JobInfo_new)
    end in
  if failed then
    ((L "EVENT ERROR: hash table insert error", EVENT_ERROR), mkCheck table (allowEvents c))
  else
    let '(info, st) := event_switch (allowEvents c) id (eventNumber ev) info in
    (st, mkCheck (update_node hashFuncJobID table id info) (allowEvents c)).

(** ** The final check *)

Definition MAX_MSG_LEN : Z := 1024.

(** One round of the loop: the message, [msgFull], the result. *)
Definition final_step (a : Z) (st : cstr * bool * check_event_result_t) (e : CondorID * JobInfo)
    : cstr * bool * check_event_result_t :=
  let '(errorMsg, msgFull, result) := st in
  let '(id, info) := e in
  let '(errorMsg, msgFull) :=
    if negb msgFull && (MAX_MSG_LEN <? Z.of_nat (length errorMsg))
    then (errorMsg ++ L " ...", true) else (errorMsg, msgFull) in
  let '(tmpMsg, result) := CheckJobFinal a (id_text id) info id ([], result) in
  let errorMsg :=
    if negb (length tmpMsg =? 0)%nat && negb msgFull
    then (if negb (length errorMsg =? 0)%nat then errorMsg ++ L "; " else errorMsg) ++ tmpMsg
    else errorMsg in
  (errorMsg, msgFull, result).

Definition CheckAllJobs (c : CheckEvents) : report * CheckEvents :=
  let '(l, table) :=
    iterate_all (S (Z.to_nat (numElems (jobHash c)))) (startIterations (jobHash c)) in
  let '(errorMsg, _, result) := foldl (final_step (allowEvents c)) ([], false, EVENT_OKAY) l in
  ((errorMsg, result), mkCheck table (allowEvents c)).

Definition ResultToString (r : check_event_result_t) : cstr :=
  match r with
  | EVENT_OKAY => L "EVENT_OKAY"
  | EVENT_BAD_EVENT => L "EVENT_BAD_EVENT"
  | EVENT_ERROR => L "EVENT_ERROR"
  | EVENT_WARNING => L "Bad result value!!!!"
  end.

(** A log: the reports of its events and the final state. *)
Fixpoint check_log (c : CheckEvents) (l : list ULogEvent) : list report * CheckEvents :=
  match l with
  | [] => ([], c)
  | ev :: l => let '(r, c) := CheckAnEvent c ev in
               let '(rs, c) := check_log c l in (r :: rs, c)
  end.

(** ** The table as a map *)

Definition check_wf (c : CheckEvents) : Prop :=
  wf hashFuncJobID (jobHash c) ∧ nodup_keys (jobHash c).
Definition infos (c : CheckEvents) : gmap CondorID JobInfo := to_map (jobHash c).
Definition info_of (c : CheckEvents) (id : CondorID) : JobInfo := default JobInfo_new (infos c !! id).

Lemma CheckEvents_new_wf a : check_wf (CheckEvents_new a).
Proof. split; [apply initialize_wf|]. constructor. Qed.

(** An event changes the counters of its job, and its report depends on them
    only. *)
Lemma CheckAnEvent_switch c ev :
  check_wf c →
  let '(info, st) := event_switch (allowEvents c) (event_id ev) (eventNumber ev)
                       (info_of c (event_id ev)) in
  ∃ c', CheckAnEvent c ev = (st, c') ∧ check_wf c' ∧ allowEvents c' = allowEvents c ∧
        infos c' = <[event_id ev := info]> (infos c).
Proof.
  intros [Hwf Hnd]. unfold CheckAnEvent, info_of, infos, check_wf.
  rewrite (ht_lookup_to_map _ _ _ Hwf).
  destruct (to_map (jobHash c) !! event_id ev) as [info|] eqn:E; simpl.
  - destruct (event_switch _ _ _ _) as [info' st]. eexists. split; [done|]. simpl.
    destruct (update_node_spec hashFuncJobID _ (event_id ev) info' Hwf Hnd) as (? & ? & ?); eauto.
  - pose proof (insert_new_spec hashFuncJobID _ _ JobInfo_new Hwf Hnd E) as Hi.
    destruct (ht_insert _ _ _ _) as [r t]. simpl in Hi. destruct Hi as (-> & Hw & Hn & Hm). simpl.
    destruct (event_switch _ _ _ _) as [info' st]. eexists. split; [done|]. simpl.
    destruct (update_node_spec hashFuncJobID t (event_id ev) info' Hw Hn) as (? & ? & Hu).
    { rewrite Hm, lookup_insert_eq. eauto. }
    by rewrite Hu, Hm, insert_insert_eq.
Qed.

(** The counters after an event. *)
Definition count_event (number : Z) (i : JobInfo) : JobInfo :=
  if number =? ULOG_SUBMIT then count_submit i
  else if number =? ULOG_EXECUTABLE_ERROR then count_error i
  else if number =? ULOG_JOB_ABORTED then count_abort i
  else if number =? ULOG_JOB_TERMINATED then count_term i
  else if number =? ULOG_POST_SCRIPT_TERMINATED then count_post i
  else i.

Lemma event_switch_counts a id n info : fst (event_switch a id n info) = count_event n info.
Proof.
  unfold event_switch, count_event, ULOG_SUBMIT, ULOG_EXECUTE, ULOG_EXECUTABLE_ERROR,
    ULOG_JOB_ABORTED, ULOG_JOB_TERMINATED, ULOG_POST_SCRIPT_TERMINATED.
  repeat case_match; simpl; lia || done.
Qed.

(** ** The life of a job

    With [ALLOW_NONE] the checks accept what follows these steps.  The last two
    phases concern only the id of POST scripts whose node was never submitted. *)

Inductive kind := KSubmit | KExecute | KEnd | KPost.
Inductive phase := Unseen | Queued | Ended | PostDone | NoSubmit | Stuck.

Definition kind_of (number : Z) : option kind :=
  if number =? ULOG_SUBMIT then Some KSubmit
  else if number =? ULOG_EXECUTE then Some KExecute
  else if (number =? ULOG_JOB_ABORTED) || (number =? ULOG_JOB_TERMINATED) then Some KEnd
  else if number =? ULOG_POST_SCRIPT_TERMINATED then Some KPost
  else None.

(** [nosub]: the job has the id [noSubmitId]. *)
Inductive life (nosub : Prop) : phase → kind → phase → Prop :=
| life_submit : life nosub Unseen KSubmit Queued
| life_execute : life nosub Queued KExecute Queued
| life_end : life nosub Queued KEnd Ended
| life_post : life nosub Ended KPost PostDone
| life_nosubmit p : nosub → p = Unseen ∨ p = NoSubmit → life nosub p KPost NoSubmit
| life_late : nosub → life nosub NoSubmit KSubmit Stuck
| life_stuck : nosub → life nosub Stuck KExecute Stuck.

Inductive lives (nosub : Prop) : phase → list kind → phase → Prop :=
| lives_nil p : lives nosub p [] p
| lives_cons p k p' ks p'' :
    life nosub p k p' → lives nosub p' ks p'' → lives nosub p (k :: ks) p''.

(** The counters of a job in each phase; [m] bounds the POST scripts. *)
Definition counters (i : JobInfo) (s a t : Z) : Prop :=
  submitCount i = s ∧ abortCount i = a ∧ termCount i = t.
Definition represents (nosub : Prop) (m : Z) (p : phase) (i : JobInfo) : Prop :=
  match p with
  | Unseen => counters i 0 0 0 ∧ postScriptCount i = 0
  | Queued => counters i 1 0 0 ∧ postScriptCount i = 0
  | Ended => (counters i 1 1 0 ∨ counters i 1 0 1) ∧ postScriptCount i = 0
  | PostDone => (counters i 1 1 0 ∨ counters i 1 0 1) ∧ postScriptCount i = 1
  | NoSubmit => nosub ∧ counters i 0 0 0 ∧ 1 ≤ postScriptCount i ≤ m
  | Stuck => nosub ∧ counters i 1 0 0 ∧ 1 ≤ postScriptCount i ≤ m
  end.

Lemma represents_mono nosub m m' p i :
  m ≤ m' → represents nosub m p i → represents nosub m' p i.
Proof. destruct p; simpl; intuition lia. Qed.

Lemma kind_of_cases n k :
  kind_of n = Some k →
  (n = 0 ∧ k = KSubmit) ∨ (n = 1 ∧ k = KExecute) ∨ (n = 9 ∧ k = KEnd) ∨ (n = 5 ∧ k = KEnd) ∨
  (n = 16 ∧ k = KPost).
Proof.
  unfold kind_of, ULOG_SUBMIT, ULOG_EXECUTE, ULOG_JOB_ABORTED, ULOG_JOB_TERMINATED,
    ULOG_POST_SCRIPT_TERMINATED.
  destruct (Z.eqb_spec n 0), (Z.eqb_spec n 1), (Z.eqb_spec n 9), (Z.eqb_spec n 5), (Z.eqb_spec n 16);
    simpl; intros [= <-]; tauto.
Qed.

(** *** When a check has nothing to say, whatever is tolerated *)

Lemma tolerated_not_ok b r : r ≠ EVENT_OKAY → tolerated b r ≠ EVENT_OKAY.
Proof. by destruct b. Qed.

Ltac check_ok :=
  simpl; repeat case_match; simpl in *; rewrite ?negb_true_iff, ?negb_false_iff in *;
  split; intros Hok;
  first [done | lia | exfalso; revert Hok; by apply tolerated_not_ok | exfalso; lia].

Lemma CheckJobSubmit_ok a s i m :
  snd (CheckJobSubmit a s i (m, EVENT_OKAY)) = EVENT_OKAY ↔
  submitCount i = 1 ∧ TotalEndCount i = 0.
Proof. unfold CheckJobSubmit. check_ok. Qed.

Lemma CheckJobExecute_ok a s i m :
  snd (CheckJobExecute a s i (m, EVENT_OKAY)) = EVENT_OKAY ↔
  1 ≤ submitCount i ∧ TotalEndCount i = 0.
Proof. unfold CheckJobExecute. check_ok. Qed.

Lemma CheckJobEnd_ok a s i m :
  snd (CheckJobEnd a s i (m, EVENT_OKAY)) = EVENT_OKAY ↔
  1 ≤ submitCount i ∧ TotalEndCount i = 1 ∧ postScriptCount i = 0.
Proof. unfold CheckJobEnd. check_ok. Qed.

Lemma CheckPostTerm_ok a s i id m :
  snd (CheckPostTerm a s i id (m, EVENT_OKAY)) = EVENT_OKAY ↔
  post_without_submit i id = true ∨
  (1 ≤ submitCount i ∧ 1 ≤ TotalEndCount i ∧ postScriptCount i ≤ 1).
Proof. unfold CheckPostTerm. destruct (post_without_submit i id); [tauto|]. check_ok. Qed.

Lemma CheckJobFinal_ok a s i id m :
  snd (CheckJobFinal a s i id (m, EVENT_OKAY)) = EVENT_OKAY ↔
  post_without_submit i id = true ∨ _subproc id ≠ 0 ∨
  (submitCount i = 1 ∧ TotalEndCount i = 1 ∧ postScriptCount i ≤ 1).
Proof. unfold CheckJobFinal. destruct (post_without_submit i id); [tauto|]. check_ok. Qed.

(** Split a state into its counters, then into the cases of the test
    [post_without_submit]. *)
Ltac split_counters :=
  repeat match goal with
  | i : JobInfo |- _ => destruct i; simpl in *
  | H : _ ∧ _ |- _ => destruct H
  | H : _ ∨ _ |- _ => destruct H
  end; subst.

(** What an event of each kind needs of the counters after it. *)
Definition accepts (id : CondorID) (k : kind) (i : JobInfo) : Prop :=
  match k with
  | KSubmit => submitCount i = 1 ∧ TotalEndCount i = 0
  | KExecute => 1 ≤ submitCount i ∧ TotalEndCount i = 0
  | KEnd => 1 ≤ submitCount i ∧ TotalEndCount i = 1 ∧ postScriptCount i = 0
  | KPost => post_without_submit i id = true ∨
             (1 ≤ submitCount i ∧ 1 ≤ TotalEndCount i ∧ postScriptCount i ≤ 1)
  end.

Lemma switch_accepts a id n k info :
  kind_of n = Some k →
  snd (snd (event_switch a id n info)) = EVENT_OKAY ↔ accepts id k (count_event n info).
Proof.
  intros Hk. destruct (kind_of_cases n k Hk) as [[-> ->]|[[-> ->]|[[-> ->]|[[-> ->]|[-> ->]]]]];
    first [exact (CheckJobSubmit_ok _ _ _ _)|exact (CheckJobExecute_ok _ _ _ _)
          |exact (CheckJobEnd_ok _ _ _ _)|exact (CheckPostTerm_ok _ _ _ _ _)].
Qed.

Lemma switch_other a id n info :
  kind_of n = None →
  snd (snd (event_switch a id n info)) = EVENT_OKAY ∧
  ∀ nosub m p, represents nosub m p info → represents nosub m p (count_event n info).
Proof.
  intros Hk. rewrite <- (event_switch_counts a id). revert Hk.
  unfold kind_of, event_switch. repeat case_match; simplify_eq/=; try done.
  all: intros _; split; [done|]; intros nosub m p; by destruct info, p.
Qed.

(** Evaluate [int32] on numerals. *)
Ltac eval_int32 :=
  repeat match goal with
  | |- context [int32 ?x] => let y := eval vm_compute in (int32 x) in
      match y with Z0 => idtac | Zpos _ => idtac end; change (int32 x) with y
  end.

Lemma life_accepts m p id n k info :
  0 ≤ m < 2 ^ 31 - 1 → represents (noSubmitId = id) m p info → kind_of n = Some k →
  (∀ p', life (noSubmitId = id) p k p' →
         accepts id k (count_event n info) ∧
         represents (noSubmitId = id) (m + 1) p' (count_event n info)) ∧
  (accepts id k (count_event n info) → ∃ p', life (noSubmitId = id) p k p').
Proof.
  intros Hm Hr Hk.
  assert (int32 (postScriptCount info + 1) = postScriptCount info + 1) as Hi.
  { apply int32_id. unfold in_int32. destruct p; simpl in Hr; lia. }
  apply kind_of_cases in Hk.
  destruct p; unfold represents, counters in Hr; split_counters;
    unfold accepts, post_without_submit, TotalEndCount, represents, counters; cbn -[int32 Z.add];
    rewrite ?Hi; eval_int32; clear Hi;
    (split; [intros p' Hl; inversion Hl; subst; destruct_or?; try discriminate;
             rewrite ?bool_decide_eq_true_2 by done; cbn -[Z.leb]; intuition lia|]);
    intros Ha; try (exfalso; lia); try (eexists; by econstructor);
    try (exists NoSubmit; apply life_nosubmit; by auto).
  destruct (decide (noSubmitId = id)); [exists NoSubmit; apply life_nosubmit; auto|].
  rewrite ?bool_decide_eq_false_2 in Ha by done; exfalso; cbn -[Z.leb] in Ha; intuition lia.
Qed.

Lemma life_det nosub p k p1 p2 : life nosub p k p1 → life nosub p k p2 → p1 = p2.
Proof. intros H1 H2. destruct H1; inversion H2; subst; destruct_or?; done. Qed.

Lemma lives_det nosub p ks : ∀ p1 p2, lives nosub p ks p1 → lives nosub p ks p2 → p1 = p2.
Proof.
  revert p. induction ks as [|k ks IH]; intros p p1 p2 H1 H2;
    inversion H1 as [|? ? q1 ? ? Hl1 Hr1]; inversion H2 as [|? ? q2 ? ? Hl2 Hr2]; subst; [done|].
  rewrite (life_det _ _ _ _ _ Hl2 Hl1) in Hr2. eauto.
Qed.

(** ** Logs *)

(** The events of a job that count, in their order. *)
Definition job_events (id : CondorID) (l : list ULogEvent) : list kind :=
  omap (fun ev => if bool_decide (event_id ev = id) then kind_of (eventNumber ev) else None) l.

Definition all_okay (rs : list report) : Prop := Forall (fun r => snd r = EVENT_OKAY) rs.

(** The state of the checks in which each job is in the phase [phi]. *)
Definition in_phases (m : Z) (c : CheckEvents) (phi : CondorID → phase) : Prop :=
  check_wf c ∧ ∀ id, represents (noSubmitId = id) m (phi id) (info_of c id).

Lemma in_phases_new a : in_phases 0 (CheckEvents_new a) (fun _ => Unseen).
Proof. split; [apply CheckEvents_new_wf|]. intros id. done. Qed.

(** One event. *)
Lemma CheckAnEvent_in_phases m c phi ev :
  0 ≤ m < 2 ^ 31 - 1 → in_phases m c phi →
  let id := event_id ev in
  let '(r, c') := CheckAnEvent c ev in
  match kind_of (eventNumber ev) with
  | None => snd r = EVENT_OKAY ∧ in_phases (m + 1) c' phi
  | Some k =>
      (∀ p', life (noSubmitId = id) (phi id) k p' →
             snd r = EVENT_OKAY ∧ in_phases (m + 1) c' (fun i => if decide (i = id) then p' else phi i)) ∧
      (snd r = EVENT_OKAY → ∃ p', life (noSubmitId = id) (phi id) k p')
  end.
Proof.
  intros Hm [Hwf Hr] id. pose proof (CheckAnEvent_switch c ev Hwf) as Hs.
  pose proof (event_switch_counts (allowEvents c) id (eventNumber ev) (info_of c id)) as Hc.
  pose proof (switch_accepts (allowEvents c) id (eventNumber ev)) as Ha.
  pose proof (switch_other (allowEvents c) id (eventNumber ev) (info_of c id)) as Ho.
  specialize (fun k => Ha k (info_of c id)). fold id in Hs.
  destruct (event_switch _ _ _ _) as [info st]. simpl in *. subst info.
  destruct Hs as (c' & -> & Hwf' & Hal & Hinf).
  assert (∀ p', represents (noSubmitId = id) (m + 1) p' (count_event (eventNumber ev) (info_of c id)) →
     in_phases (m + 1) c' (fun i => if decide (i = id) then p' else phi i)) as Hnew.
  { intros p' Hp'. split; [done|]. intros i. unfold info_of. rewrite Hinf. case_decide as Hi.
    - subst i. by rewrite lookup_insert_eq.
    - rewrite lookup_insert_ne by done. apply (represents_mono _ m); [lia|]. apply Hr. }
  destruct (kind_of (eventNumber ev)) as [k|] eqn:Hk.
  - destruct (life_accepts m (phi id) id _ k _ Hm (Hr id) Hk) as [Hl1 Hl2].
    specialize (Ha k eq_refl). split; [|intros Hok; by apply Hl2, Ha].
    intros p' Hp'. destruct (Hl1 p' Hp'). split; [by apply Ha|by apply Hnew].
  - destruct (Ho eq_refl) as [Hok Hrep]. split; [done|]. split; [done|].
    intros i. destruct (decide (i = id)) as [->|Hi].
    + apply (represents_mono _ m); [lia|]. unfold info_of at 1. rewrite Hinf, lookup_insert_eq. simpl.
      apply Hrep, Hr.
    + apply (represents_mono _ m); [lia|]. unfold info_of. rewrite Hinf, lookup_insert_ne by done.
      apply Hr.
Qed.

(** The kind of an event as an event of the job [id]. *)
Definition kind_for (id : CondorID) (ev : ULogEvent) : option kind :=
  if bool_decide (event_id ev = id) then kind_of (eventNumber ev) else None.

(** The phases move as [life] says. *)
Definition phases_move (ev : ULogEvent) (phi phi' : CondorID → phase) : Prop :=
  ∀ id, match kind_for id ev with
        | Some k => life (noSubmitId = id) (phi id) k (phi' id)
        | None => phi' id = phi id
        end.

Lemma CheckAnEvent_moves m c phi ev :
  0 ≤ m < 2 ^ 31 - 1 → in_phases m c phi →
  let '(r, c') := CheckAnEvent c ev in
  (snd r = EVENT_OKAY → ∃ phi', in_phases (m + 1) c' phi' ∧ phases_move ev phi phi') ∧
  ((∀ id k, kind_for id ev = Some k → ∃ p, life (noSubmitId = id) (phi id) k p) →
   snd r = EVENT_OKAY).
Proof.
  intros Hm Hph. pose proof (CheckAnEvent_in_phases m c phi ev Hm Hph) as Hev.
  destruct (CheckAnEvent c ev) as [r c1]. unfold phases_move, kind_for.
  destruct (kind_of (eventNumber ev)) as [k|].
  - destruct Hev as [Hev1 Hev2]. split.
    + intros Hok. destruct (Hev2 Hok) as [p' Hp']. destruct (Hev1 p' Hp') as [_ Hin].
      eexists. split; [exact Hin|]. intros id. simpl.
      case_bool_decide as Hid; [subst; by rewrite decide_True|by rewrite decide_False].
    + intros Hall. destruct (Hall (event_id ev) k) as [p' Hp']; [by rewrite bool_decide_eq_true_2|].
      by destruct (Hev1 p' Hp').
  - destruct Hev as [Hok Hin]. split; [|done]. intros _. exists phi. split; [done|].
    intros id. by case_bool_decide.
Qed.

Lemma job_events_cons id ev l :
  job_events id (ev :: l) =
  match kind_for id ev with Some k => k :: job_events id l | None => job_events id l end.
Proof. done. Qed.

Lemma job_events_nil id l : id ∉ event_id <$> l → job_events id l = [].
Proof.
  induction l as [|ev l IH]; [done|]. intros Hn. rewrite job_events_cons. unfold kind_for.
  rewrite bool_decide_eq_false_2 by set_solver. apply IH. set_solver.
Qed.

Lemma lives_move ev phi phi' id l p :
  phases_move ev phi phi' →
  lives (noSubmitId = id) (phi id) (job_events id (ev :: l)) p ↔
  lives (noSubmitId = id) (phi' id) (job_events id l) p.
Proof.
  intros Hmv. specialize (Hmv id). rewrite job_events_cons.
  destruct (kind_for id ev) as [k|]; [|by rewrite Hmv]. split.
  - intros Hl. inversion Hl as [|? ? p1 ? ? Hl1 Hl2]; subst.
    by rewrite (life_det _ _ _ _ _ Hmv Hl1).
  - intros Hl. by econstructor.
Qed.

Lemma check_log_infos l : ∀ c,
  check_wf c →
  let c' := snd (check_log c l) in
  check_wf c' ∧ allowEvents c' = allowEvents c ∧
  ∀ id, id ∈ dom (infos c') ↔ id ∈ dom (infos c) ∨ id ∈ event_id <$> l.
Proof.
  induction l as [|ev l IH]; intros c Hwf; [simpl; set_solver|]. cbn [check_log].
  pose proof (CheckAnEvent_switch c ev Hwf) as Hs. destruct (event_switch _ _ _ _) as [info st].
  destruct Hs as (c1 & -> & Hwf1 & Hal & Hinf). specialize (IH c1 Hwf1).
  destruct (check_log c1 l) as [rs c2]. simpl in *. destruct IH as (? & ? & Hdom).
  split; [done|]. split; [congruence|]. intros id. rewrite Hdom, Hinf, dom_insert. set_solver.
Qed.

(** A log: every event is okay exactly when every job goes through the steps
    of its life, and then the counters show the phases reached. *)
Lemma check_log_lives l : ∀ m c phi,
  0 ≤ m → m + Z.of_nat (length l) < 2 ^ 31 → in_phases m c phi →
  let '(rs, c') := check_log c l in
  (all_okay rs →
   ∃ phi', (∀ id, lives (noSubmitId = id) (phi id) (job_events id l) (phi' id)) ∧
           in_phases (m + Z.of_nat (length l)) c' phi') ∧
  ((∀ id, ∃ p, lives (noSubmitId = id) (phi id) (job_events id l) p) → all_okay rs).
Proof.
  induction l as [|ev l IH]; intros m c phi Hm Hlen Hph.
  { simpl. split; [|constructor]. intros _. exists phi. split; [constructor|by rewrite Z.add_0_r]. }
  cbn [check_log]. pose proof (CheckAnEvent_moves m c phi ev ltac:(simpl in Hlen; lia) Hph) as Hev.
  destruct (CheckAnEvent c ev) as [r c1]. destruct Hev as [Hok1 Hok2].
  assert ((∀ id, ∃ p, lives (noSubmitId = id) (phi id) (job_events id (ev :: l)) p) →
          snd r = EVENT_OKAY) as Hfirst.
  { intros Hall. apply Hok2. intros id k Hk. destruct (Hall id) as [p Hp].
    rewrite job_events_cons, Hk in Hp. inversion Hp; eauto. }
  destruct (decide (snd r = EVENT_OKAY)) as [Hr|Hr]; last first.
  { destruct (check_log c1 l) as [rs c2]. split; [|tauto]. intros H. by inversion H. }
  destruct (Hok1 Hr) as (phi1 & Hin & Hmv).
  specialize (IH (m + 1) c1 phi1 ltac:(lia) ltac:(simpl in Hlen; lia) Hin).
  destruct (check_log c1 l) as [rs c2]. destruct IH as [IH1 IH2].
  replace (m + Z.of_nat (length (ev :: l))) with (m + 1 + Z.of_nat (length l)) by (simpl; lia).
  setoid_rewrite (lives_move ev phi phi1 _ l _ Hmv). split.
  - intros Hall. apply IH1. by inversion Hall.
  - intros Hall. constructor; [done|by apply IH2].
Qed.

(** ** Lives as words *)

(** One submit, any number of executions, one end, at most one POST script. *)
Definition complete_life (ks : list kind) : Prop :=
  ∃ n post, ks = KSubmit :: replicate n KExecute ++ KEnd :: post ∧ (post = [] ∨ post = [KPost]).

Lemma lives_PostDone nosub ks p : lives nosub PostDone ks p ↔ ks = [] ∧ p = PostDone.
Proof.
  split; [|intros [-> ->]; constructor]. intros H. inversion H as [|? ? ? ? ? Hl]; subst; [done|].
  inversion Hl; naive_solver.
Qed.

Lemma lives_Ended nosub ks p :
  lives nosub Ended ks p ↔ (ks = [] ∧ p = Ended) ∨ (ks = [KPost] ∧ p = PostDone).
Proof.
  split.
  - intros H. inversion H as [|? ? ? ? ? Hl Hr]; subst; [by left|].
    inversion Hl; subst; [|naive_solver]. apply lives_PostDone in Hr as [-> ->]. by right.
  - intros [[-> ->]|[-> ->]]; repeat econstructor.
Qed.

Lemma lives_Queued nosub ks p :
  lives nosub Queued ks p ↔
  ∃ n, (ks = replicate n KExecute ∧ p = Queued) ∨
       ∃ post, ks = replicate n KExecute ++ KEnd :: post ∧ lives nosub Ended post p.
Proof.
  split.
  - revert p. induction ks as [|k ks IH]; intros p H;
      inversion H as [|? ? p' ? ? Hl Hr]; subst; [exists 0%nat; by left|].
    inversion Hl; subst; [|exists 0%nat; right; eauto|naive_solver].
    destruct (IH _ Hr) as [n [[-> ->]|(post & -> & Hp)]]; exists (S n); [by left|right; eauto].
  - intros [n [[-> ->]|(post & -> & Hp)]].
    + induction n; simpl; econstructor; [constructor|done].
    + induction n; simpl; econstructor; try done; constructor.
Qed.

Lemma lives_Stuck nosub ks p : lives nosub Stuck ks p → p = Stuck.
Proof.
  intros H. remember Stuck as q eqn:Hq. induction H as [|? ? ? ? ? Hl _ IH]; [done|].
  subst. assert (p' = Stuck) as -> by (inversion Hl; naive_solver). auto.
Qed.

Lemma lives_NoSubmit nosub ks p :
  lives nosub NoSubmit ks p → p = Stuck ∨ (∃ n, ks = replicate n KPost) ∧ p = NoSubmit.
Proof.
  revert p. induction ks as [|k ks IH]; intros p H;
    inversion H as [|? ? p' ? ? Hl Hr]; subst; [right; split; [by exists 0%nat|done]|].
  inversion Hl; subst; [|left; by eapply lives_Stuck].
  destruct (IH _ Hr) as [?|[[n ->] ->]]; [by left|]. right. split; [by exists (S n)|done].
Qed.

Lemma lives_Unseen nosub ks p :
  lives nosub Unseen ks p →
  (ks = [] ∧ p = Unseen) ∨ (∃ ks', ks = KSubmit :: ks' ∧ lives nosub Queued ks' p) ∨
  (nosub ∧ ∃ ks', ks = KPost :: ks' ∧ lives nosub NoSubmit ks' p).
Proof.
  intros H. inversion H as [|? ? ? ? ? Hl Hr]; subst; [by left|].
  inversion Hl; subst; [right; left; eauto|right; right; eauto].
Qed.

(** The phases in which the final check is content. *)
Lemma complete_life_lives nosub ks :
  complete_life ks ↔ ∃ p, lives nosub Unseen ks p ∧ (p = Ended ∨ p = PostDone).
Proof.
  split.
  - intros (n & post & -> & Hpost). exists (match post with [] => Ended | _ => PostDone end).
    split; [|destruct post; auto]. econstructor; [constructor|]. apply lives_Queued.
    exists n. right. eexists. split; [done|]. apply lives_Ended. destruct Hpost as [->| ->]; auto.
  - intros (p & Hl & Hp). apply lives_Unseen in Hl as [[-> ->]|[(ks' & -> & Hl)|(_ & ks' & -> & Hl)]].
    + naive_solver.
    + apply lives_Queued in Hl as [n [[-> ->]|(post & -> & Hl)]]; [naive_solver|].
      apply lives_Ended in Hl. exists n, post. naive_solver.
    + apply lives_NoSubmit in Hl. naive_solver.
Qed.

Lemma nosubmit_lives nosub ks :
  nosub → (∃ n, ks = replicate (S n) KPost) ↔ lives nosub Unseen ks NoSubmit.
Proof.
  intros Hn. split.
  - intros [n ->]. simpl. econstructor; [apply life_nosubmit; auto|].
    induction n; simpl; econstructor; [apply life_nosubmit; auto|done].
  - intros Hl. apply lives_Unseen in Hl as [[-> [=]]|[(ks' & -> & Hl)|(_ & ks' & -> & Hl)]].
    + apply lives_Queued in Hl as [n [[-> [=]]|(post & -> & Hl)]]. apply lives_Ended in Hl. naive_solver.
    + apply lives_NoSubmit in Hl as [[=]|[[n ->] _]]. by exists n.
Qed.

Lemma prefix_lives (nosub : Prop) ks :
  ¬ nosub → (∃ rest, complete_life (ks ++ rest)) ↔ ∃ p, lives nosub Unseen ks p.
Proof.
  intros Hn. split.
  - intros [rest Hc]. apply (complete_life_lives nosub) in Hc as (p & Hl & _). revert p Hl.
    generalize Unseen. induction ks as [|k ks IH]; intros q p Hl; [exists q; constructor|].
    inversion Hl as [|? ? q' ? ? H1 H2]; subst. destruct (IH _ _ H2) as [p' Hp'].
    exists p'. by econstructor.
  - intros [p Hl]. apply lives_Unseen in Hl as [[-> ->]|[(ks' & -> & Hl)|[? _]]]; [| |done].
    + exists [KSubmit; KEnd]. exists 0%nat, []. auto.
    + apply lives_Queued in Hl as [n [[-> ->]|(post & -> & Hl)]].
      * exists [KEnd], n, []. auto.
      * apply lives_Ended in Hl. exists [], n, post. rewrite app_nil_r. naive_solver.
Qed.

(** ** The final check *)

(** A verdict does not depend on the earlier ones, except that silence keeps
    them. *)
Definition final_verdict (a : Z) (e : CondorID * JobInfo) : check_event_result_t :=
  snd (CheckJobFinal a (id_text (fst e)) (snd e) (fst e) ([], EVENT_OKAY)).

Lemma CheckJobFinal_verdict a id info m r :
  snd (CheckJobFinal a (id_text id) info id (m, r)) =
  if decide (final_verdict a (id, info) = EVENT_OKAY) then r else final_verdict a (id, info).
Proof.
  unfold final_verdict. simpl. pose proof (CheckJobFinal_ok a (id_text id) info id []) as Hok.
  case_decide as Hd.
  - apply Hok in Hd. unfold CheckJobFinal. destruct (post_without_submit info id); [done|].
    repeat case_match; simpl in *; rewrite ?negb_true_iff, ?negb_false_iff in *; done || lia.
  - clear Hok. revert Hd. unfold CheckJobFinal. destruct (post_without_submit info id); [done|].
    by repeat case_match.
Qed.

Lemma CheckAllJobs_fold c :
  check_wf c →
  CheckAllJobs c =
    (let '(m, _, r) := foldl (final_step (allowEvents c)) ([], false, EVENT_OKAY) (entries (jobHash c)) in
     (m, r), mkCheck (startIterations (jobHash c)) (allowEvents c)).
Proof.
  intros [Hwf _]. unfold CheckAllJobs.
  rewrite (iterate_all_entries hashFuncJobID) by (done || (rewrite (wf_num _ _ Hwf); unfold entries; rewrite length_fmap; lia)).
  by destruct (foldl _ _ _) as [[??] ?].
Qed.

(** The result is the last verdict that is not okay. *)
Lemma final_fold_result a l : ∀ st,
  snd (foldl (final_step a) st l) =
  default (snd st) (last (filter (fun r => r ≠ EVENT_OKAY) (final_verdict a <$> l))).
Proof.
  induction l as [|[id info] l IH] using rev_ind; intros st; [done|].
  rewrite foldl_app, fmap_app, filter_app. simpl.
  specialize (IH st). destruct (foldl (final_step a) st l) as [[m full] r]. simpl in IH.
  unfold final_step. simpl.
  destruct (if negb full && _ then _ else _) as [m1 full1].
  pose proof (CheckJobFinal_verdict a id info [] r) as Hv.
  destruct (CheckJobFinal a (id_text id) info id ([], r)) as [tmp r']. simpl in *. subst r'.
  rewrite filter_cons. case_decide as Hd; case_decide as Hd'; try done.
  - by rewrite filter_nil, app_nil_r.
  - by rewrite filter_nil, last_snoc.
Qed.

Lemma infos_entries c id info :
  check_wf c → (id, info) ∈ entries (jobHash c) ↔ infos c !! id = Some info.
Proof.
  intros [_ Hnd]. apply elem_of_list_to_map. unfold entries. by rewrite <- list_fmap_compose.
Qed.

Lemma CheckAllJobs_okay c :
  check_wf c →
  snd (fst (CheckAllJobs c)) = EVENT_OKAY ↔
  ∀ id info, infos c !! id = Some info → final_verdict (allowEvents c) (id, info) = EVENT_OKAY.
Proof.
  intros Hwf. rewrite CheckAllJobs_fold by done.
  pose proof (final_fold_result (allowEvents c) (entries (jobHash c)) ([], false, EVENT_OKAY)) as Hf.
  destruct (foldl _ _ _) as [[m full] r]. simpl in *. subst r.
  setoid_rewrite <- (infos_entries c _ _ Hwf). split.
  - intros Hr id info Hin. destruct (decide (final_verdict (allowEvents c) (id, info) = EVENT_OKAY)); [done|].
    exfalso. destruct (last _) as [r|] eqn:Hl; simpl in Hr.
    + apply last_Some_elem_of in Hl. subst. by apply list_elem_of_filter in Hl as [? _].
    + apply last_None in Hl. apply (filter_nil_not_elem_of _ _ _ Hl n), list_elem_of_fmap. eauto.
  - intros Hall. destruct (last _) as [r|] eqn:Hl; [|done]. simpl.
    apply last_Some_elem_of in Hl. apply list_elem_of_filter in Hl as [? Hl].
    apply list_elem_of_fmap in Hl as ([id info] & -> & Hin). auto.
Qed.

Lemma final_verdict_phase a m p id info :
  represents (noSubmitId = id) m p info →
  final_verdict a (id, info) = EVENT_OKAY ↔
  _subproc id ≠ 0 ∨ p = Ended ∨ p = PostDone ∨ p = NoSubmit.
Proof.
  intros Hr. unfold final_verdict. rewrite CheckJobFinal_ok.
  destruct p; unfold represents, counters in Hr; split_counters;
    unfold post_without_submit, TotalEndCount; cbn -[int32 Z.add];
    eval_int32; rewrite ?andb_false_r; cbn -[Z.leb Z.add]; try solve [intuition (discriminate || lia)].
  rewrite bool_decide_eq_true_2 by done. split; [auto|left; simpl; lia].
Qed.

(** ** Theorems *)

(** What the checks expect of the events of a job in a log. *)
Definition job_okay (id : CondorID) (ks : list kind) : Prop :=
  if decide (_subproc id = 0)
  then complete_life ks ∨ (id = noSubmitId ∧ ∃ n, ks = replicate (S n) KPost)
  else ∃ rest, complete_life (ks ++ rest).

Lemma job_okay_lives id ks :
  job_okay id ks ↔
  ∃ p, lives (noSubmitId = id) Unseen ks p ∧
       (_subproc id ≠ 0 ∨ p = Ended ∨ p = PostDone ∨ p = NoSubmit).
Proof.
  unfold job_okay. case_decide as Hs.
  - rewrite (complete_life_lives (noSubmitId = id)). split.
    + intros [(p & ? & ?)|[-> Hn]]; [exists p; tauto|].
      exists NoSubmit. split; [by apply nosubmit_lives|auto].
    + intros (p & Hl & [?|[->|[->| ->]]]); [done|left; eauto|left; eauto|right].
      assert (noSubmitId = id) as Hid.
      { apply lives_Unseen in Hl as [[_ [=]]|[(ks' & -> & Hl)|[? _]]]; [|done].
        apply lives_Queued in Hl as [n [[_ [=]]|(post & _ & Hl)]]. apply lives_Ended in Hl. naive_solver. }
      split; [done|]. by apply (nosubmit_lives (noSubmitId = id)).
  - rewrite (prefix_lives (noSubmitId = id)) by (intros <-; done). naive_solver.
Qed.

(** C34. Whatever is tolerated, a log (of fewer than 2{^31} events) passes without
    a complaint, the final check included, exactly when the events of each job
    that appears in it are one submit, any number of executions, one
    termination or abort and at most one POST script, in this order, other events
    not counted; a node of
    a parallel job may stop early, and the id of POST scripts whose node was
    never submitted may have any positive number of them instead.  An executable
    error is one of the events that do not count: a job with a submit event and an
    executable error only is refused, although the comment of [CheckAllJobs]
    names such an error among the ends of a job. *)
Theorem log_okay a l :
  Z.of_nat (length l) < 2 ^ 31 →
  let '(rs, c) := check_log (CheckEvents_new a) l in
  all_okay rs ∧ snd (fst (CheckAllJobs c)) = EVENT_OKAY ↔
  ∀ id, id ∈ event_id <$> l → job_okay id (job_events id l).
Proof.
  intros Hlen.
  pose proof (check_log_lives l 0 (CheckEvents_new a) _ ltac:(lia) Hlen (in_phases_new a)) as Hlv.
  pose proof (check_log_infos l (CheckEvents_new a) (CheckEvents_new_wf a)) as Hinf.
  destruct (check_log (CheckEvents_new a) l) as [rs c]. destruct Hlv as [Hlv1 Hlv2].
  simpl in Hinf. destruct Hinf as (Hwf & Hal & Hdom). rewrite (CheckAllJobs_okay c Hwf).
  assert (∀ id, id ∈ event_id <$> l ↔ ∃ info, infos c !! id = Some info) as Hids.
  { intros id. change (id ∈ event_id <$> l ↔ is_Some (infos c !! id)).
    rewrite <- (elem_of_dom (infos c)), Hdom. set_solver. }
  setoid_rewrite job_okay_lives. split.
  - intros [Hok Hfin] id [info Hin]%Hids. destruct (Hlv1 Hok) as (phi & Hphi & _ & Hrep).
    exists (phi id). split; [done|]. specialize (Hrep id). unfold info_of in Hrep. rewrite Hin in Hrep.
    apply (final_verdict_phase (allowEvents c) _ _ _ _ Hrep). auto.
  - intros Hall. assert (all_okay rs) as Hok.
    { apply Hlv2. intros id. destruct (decide (id ∈ event_id <$> l)) as [Hin|Hnin].
      - destruct (Hall id Hin) as (p & Hp & _). eauto.
      - exists Unseen. rewrite job_events_nil by done. constructor. }
    split; [done|]. intros id info Hin. destruct (Hlv1 Hok) as (phi & Hphi & _ & Hrep).
    destruct (Hall id) as (p & Hp & Hfin); [by apply Hids; eauto|].
    specialize (Hrep id). unfold info_of in Hrep. rewrite Hin in Hrep.
    apply (final_verdict_phase (allowEvents c) _ _ _ _ Hrep).
    by rewrite <- (lives_det _ _ _ _ _ Hp (Hphi id)).
Qed.

Definition sample_log : list ULogEvent :=
  [mkEvent ULOG_SUBMIT 7 0 0; mkEvent ULOG_SUBMIT 7 1 0; mkEvent ULOG_EXECUTE 7 0 0;
   mkEvent ULOG_EXECUTE 7 1 0; mkEvent ULOG_JOB_TERMINATED 7 0 0; mkEvent ULOG_JOB_ABORTED 7 1 0;
   mkEvent ULOG_POST_SCRIPT_TERMINATED 7 0 0].

Lemma log_okay_witness :
  let '(rs, c) := check_log (CheckEvents_new ALLOW_NONE) sample_log in
  all_okay rs ∧ snd (fst (CheckAllJobs c)) = EVENT_OKAY.
Proof.
  pose proof (log_okay ALLOW_NONE sample_log ltac:(vm_compute; reflexivity)) as Hw.
  destruct (check_log (CheckEvents_new ALLOW_NONE) sample_log) as [rs c]. apply Hw. clear Hw.
  intros id Hid. assert (id = mkID 7 0 0 ∨ id = mkID 7 1 0) as [->| ->].
  { unfold sample_log, event_id in Hid. simpl in Hid. set_solver. }
  - left. exists 1%nat, [KPost]. auto.
  - left. exists 1%nat, []. auto.
Defined.

(** *** What is tolerated *)

(** The same message, and the same result unless an error is now tolerated. *)
Definition softer (st st' : report) : Prop :=
  fst st = fst st' ∧ (snd st = snd st' ∨ (snd st = EVENT_ERROR ∧ snd st' ≠ EVENT_OKAY)).

Lemma softer_refl st : softer st st.
Proof. split; auto. Qed.

Section Tolerance.
Variables a b : Z.
Hypothesis more : Z.land a b = a.

Lemma allows_more f : allows a f = true → allows b f = true.
Proof.
  unfold allows. rewrite !negb_true_iff, !Z.eqb_neq. intros Ha Hb. apply Ha.
  by rewrite <- more, <- Z.land_assoc, Hb, Z.land_0_r.
Qed.

Lemma softer_tolerated m r p q :
  r ≠ EVENT_OKAY → (p = true → q = true) → softer (m, tolerated p r) (m, tolerated q r).
Proof.
  intros Hr Hpq. split; [done|]. destruct p; [rewrite Hpq by done; by left|].
  right. split; [done|]. by apply tolerated_not_ok.
Qed.

Lemma softer_if (c : bool) st1 st1' st2 st2' :
  softer st1 st1' → softer st2 st2' → softer (if c then st1 else st2) (if c then st1' else st2').
Proof. by destruct c. Qed.

(** The chains of tolerated cases of [CheckJobEnd] and [CheckJobFinal]. *)
Lemma softer_chain m (p q : bool) r r' :
  r = EVENT_BAD_EVENT ∨ r = EVENT_ERROR → (p = true → q = true) → softer (m, r) (m, r') →
  softer (m, if p then EVENT_BAD_EVENT else r) (m, if q then EVENT_BAD_EVENT else r').
Proof.
  intros Hr Hpq [_ Hs]. split; [done|]. simpl in *. destruct p; [rewrite Hpq by done; by left|].
  destruct q; [|done]. destruct Hr as [->| ->]; auto.
Qed.

Ltac soft :=
  repeat first
    [ apply softer_if
    | apply softer_tolerated; [done|]
    | apply softer_chain; [by repeat case_match; auto| |]
    | apply softer_refl
    | assumption ];
  unfold AllowAlmostAll, AllowExtraAborts, AllowExtraRuns, AllowGarbage, AllowExecSubmit,
    AllowDoubleTerm, AllowDuplicates;
  rewrite ?orb_true_iff, ?andb_true_iff, ?orb_true_iff; intros;
  repeat match goal with H : _ ∨ _ |- _ => destruct H | H : _ ∧ _ |- _ => destruct H
         | H : allows a _ = true |- _ => apply allows_more in H end; tauto.

Lemma event_switch_softer id n info :
  let '(i, st) := event_switch a id n info in
  let '(i', st') := event_switch b id n info in i = i' ∧ softer st st'.
Proof.
  unfold event_switch. repeat match goal with |- context [n =? ?x] => destruct (n =? x) end.
  all: split; [done|].
  all: unfold CheckJobSubmit, CheckJobExecute, CheckJobEnd, CheckPostTerm; soft.
Qed.

Lemma CheckJobFinal_softer s info id st st' :
  softer st st' → softer (CheckJobFinal a s info id st) (CheckJobFinal b s info id st').
Proof. intros Hs. unfold CheckJobFinal. soft. Qed.
End Tolerance.

(** A run of the final loop keeps the messages equal. *)
Lemma final_fold_softer a b l : Z.land a b = a → ∀ m full r r',
  softer (m, r) (m, r') →
  let '(m1, _, r1) := foldl (final_step a) (m, full, r) l in
  let '(m2, _, r2) := foldl (final_step b) (m, full, r') l in softer (m1, r1) (m2, r2).
Proof.
  intros Hab. induction l as [|[id info] l IH]; intros m full r r' Hs; [done|]. simpl.
  destruct (if negb full && _ then _ else _) as [m1 full1].
  pose proof (CheckJobFinal_softer a b Hab (id_text id) info id ([], r) ([], r')) as Hf.
  destruct (CheckJobFinal a _ _ _ _) as [tmp r1], (CheckJobFinal b _ _ _ _) as [tmp' r1'].
  destruct Hf as [Ht Hr]; [split; [done|apply Hs]|]. simpl in Ht. subst tmp'. by apply IH.
Qed.

(** Tolerating more never makes the checks stricter: with more flags set
    the state changes and the message are the same, a result that was okay
    stays okay, and a result changes only from an error to a tolerated one. *)
Theorem tolerance_monotone c b ev :
  Z.land (allowEvents c) b = allowEvents c → check_wf c →
  let '(st, c1) := CheckAnEvent c ev in
  let '(st', c1') := CheckAnEvent (SetAllowEvents c b) ev in
  softer st st' ∧ jobHash c1' = jobHash c1 ∧
  softer (fst (CheckAllJobs c)) (fst (CheckAllJobs (SetAllowEvents c b))).
Proof.
  intros Hab Hwf. pose proof Hwf as Hwf'. change (check_wf (SetAllowEvents c b)) in Hwf'.
  pose proof (event_switch_softer _ _ Hab (event_id ev) (eventNumber ev)) as Hs.
  pose proof (final_fold_softer _ _ (entries (jobHash c)) Hab [] false _ _ (softer_refl ([], EVENT_OKAY))) as Hf.
  rewrite (CheckAllJobs_fold c Hwf), (CheckAllJobs_fold _ Hwf'). simpl.
  unfold CheckAnEvent. simpl.
  destruct (match ht_lookup _ _ _ with Some _ => _ | None => _ end) as [[failed t] info].
  specialize (Hs info). destruct (event_switch (allowEvents c) _ _ _), (event_switch b _ _ _).
  destruct Hs as [-> Hs].
  destruct (foldl (final_step (allowEvents c)) _ _) as [[??]?], (foldl (final_step b) _ _) as [[??]?].
  destruct failed; split_and!; auto using softer_refl.
Qed.

Lemma tolerance_monotone_witness :
  let c := CheckEvents_new ALLOW_GARBAGE in
  let ev := mkEvent ULOG_EXECUTE 7 0 0 in
  softer (fst (CheckAnEvent c ev))
    (fst (CheckAnEvent (SetAllowEvents c (Z.lor ALLOW_GARBAGE ALLOW_ALMOST_ALL)) ev)).
Proof.
  intros c ev.
  pose proof (tolerance_monotone c (Z.lor ALLOW_GARBAGE ALLOW_ALMOST_ALL) ev eq_refl
    (CheckEvents_new_wf _)) as Hw.
  destruct (CheckAnEvent c ev), (CheckAnEvent (SetAllowEvents c _) ev). apply Hw.
Defined.

(** [ALLOW_ALMOST_ALL] stands for every flag but [ALLOW_RUN_AFTER_TERM]. *)
Ltac almost_all H :=
  unfold AllowAlmostAll, AllowExtraRuns, AllowExtraAborts, AllowGarbage, AllowExecSubmit,
    AllowDoubleTerm, AllowDuplicates in *; rewrite H in *; simpl.

Lemma almost_all_switch a id n info :
  AllowAlmostAll a = true → AllowExtraRuns a = false →
  snd (snd (event_switch a id n info)) = EVENT_ERROR ↔ n = ULOG_EXECUTE ∧ TotalEndCount info ≠ 0.
Proof.
  intros Ha Hr. unfold event_switch.
  destruct (Z.eqb_spec n ULOG_SUBMIT) as [->|Hn]; [|destruct (Z.eqb_spec n ULOG_EXECUTE) as [->|Hn']].
  - split; [|by intros [[=] _]]. unfold CheckJobSubmit. almost_all Ha. by repeat case_match.
  - unfold CheckJobExecute. almost_all Ha. rewrite Hr.
    repeat case_match; simpl in *; rewrite ?negb_true_iff, ?negb_false_iff in *;
      (split; [intros He; first [discriminate He|split; [done|lia]]|intros [_ ?]; done || lia]).
  - split; [|by intros [? _]].
    repeat match goal with |- context [n =? ?x] => destruct (n =? x) end; try done;
      unfold CheckJobEnd, CheckPostTerm; almost_all Ha; by repeat case_match.
Qed.

Lemma almost_all_final a e : AllowAlmostAll a = true → final_verdict a e ≠ EVENT_ERROR.
Proof.
  intros Ha. unfold final_verdict, CheckJobFinal. almost_all Ha. by repeat case_match.
Qed.

(** With [ALLOW_ALMOST_ALL] and without [ALLOW_RUN_AFTER_TERM], the only
    error is an execution after the end of the job, as the header promises:
    no other event and no final check gives one. *)
Theorem almost_all_errors c ev :
  check_wf c → AllowAlmostAll (allowEvents c) = true → AllowExtraRuns (allowEvents c) = false →
  (snd (fst (CheckAnEvent c ev)) = EVENT_ERROR ↔
   eventNumber ev = ULOG_EXECUTE ∧ TotalEndCount (info_of c (event_id ev)) ≠ 0) ∧
  snd (fst (CheckAllJobs c)) ≠ EVENT_ERROR.
Proof.
  intros Hwf Ha Hr. split.
  - pose proof (CheckAnEvent_switch c ev Hwf) as Hs.
    pose proof (almost_all_switch _ (event_id ev) (eventNumber ev) (info_of c (event_id ev)) Ha Hr) as He.
    destruct (event_switch _ _ _ _) as [info st]. destruct Hs as (c' & -> & _). exact He.
  - rewrite CheckAllJobs_fold by done.
    pose proof (final_fold_result (allowEvents c) (entries (jobHash c)) ([], false, EVENT_OKAY)) as Hf.
    destruct (foldl _ _ _) as [[m full] r]. simpl in *. subst r.
    destruct (last _) as [r|] eqn:Hl; [|done]. simpl. apply last_Some_elem_of in Hl.
    apply list_elem_of_filter in Hl as [_ Hl]. apply list_elem_of_fmap in Hl as (e & -> & _).
    by apply almost_all_final.
Qed.

Lemma almost_all_errors_witness :
  let c := snd (check_log (CheckEvents_new ALLOW_ALMOST_ALL)
             [mkEvent ULOG_SUBMIT 7 0 0; mkEvent ULOG_JOB_TERMINATED 7 0 0]) in
  snd (fst (CheckAnEvent c (mkEvent ULOG_EXECUTE 7 0 0))) = EVENT_ERROR ∧
  snd (fst (CheckAllJobs c)) ≠ EVENT_ERROR.
Proof.
  intros c. assert (check_wf c) as Hwf by exact (proj1 (check_log_infos _ _ (CheckEvents_new_wf _))).
  destruct (almost_all_errors c (mkEvent ULOG_EXECUTE 7 0 0) Hwf eq_refl eq_refl) as [H1 H2].
  split; [apply H1; split; [reflexivity|vm_compute; discriminate]|exact H2].
Defined.

(** *** The message of the final check *)

(** What [CheckJobFinal] reports of a job. *)
Definition final_message (a : Z) (e : CondorID * JobInfo) : cstr :=
  fst (CheckJobFinal a (id_text (fst e)) (snd e) (fst e) ([], EVENT_OKAY)).

Lemma CheckJobFinal_message a id info r :
  fst (CheckJobFinal a (id_text id) info id ([], r)) = final_message a (id, info).
Proof. unfold final_message, CheckJobFinal. simpl. by repeat case_match. Qed.

Lemma final_message_nil a e : final_message a e = [] ↔ final_verdict a e = EVENT_OKAY.
Proof.
  unfold final_message, final_verdict. rewrite CheckJobFinal_ok. unfold CheckJobFinal.
  destruct (post_without_submit (snd e) (fst e)); [tauto|].
  repeat case_match; simpl; rewrite ?negb_true_iff, ?negb_false_iff in *;
    (split; intros Hm; [first [done|lia]|first [done|exfalso; lia]]).
Qed.

(** The loop keeps the message bounded and empty as long as nothing is wrong. *)
Definition final_inv (n : nat) (st : cstr * bool * check_event_result_t) : Prop :=
  let '(m, full, r) := st in
  (m = [] ↔ r = EVENT_OKAY) ∧ Z.of_nat (length m) ≤ 1026 + Z.of_nat n + (if full : bool then 4 else 0) ∧
  (full = true → m ≠ []).

Lemma final_step_inv a n st e :
  (length (final_message a e) ≤ n)%nat → final_inv n st → final_inv n (final_step a st e).
Proof.
  destruct st as [[m full] r], e as [id info]. intros Hn (Hnil & Hlen & Hfull). unfold final_step.
  pose proof (CheckJobFinal_message a id info r) as Hm.
  pose proof (CheckJobFinal_verdict a id info [] r) as Hv.
  pose proof (final_message_nil a (id, info)) as Hmv.
  destruct (CheckJobFinal a (id_text id) info id ([], r)) as [tmp r']. simpl in Hm, Hv. subst tmp r'.
  destruct full; simpl.
  - rewrite andb_false_r. split; [|done]. rewrite Hnil. case_decide; [done|].
    specialize (Hfull eq_refl). tauto.
  - destruct (Z.ltb_spec MAX_MSG_LEN (Z.of_nat (length m))) as [Hl|Hl]; simpl.
    + rewrite andb_false_r, length_app. simpl. unfold MAX_MSG_LEN in Hl.
      assert (m ≠ []) by (by destruct m). split; [|split; [lia|by destruct m]].
      split; [by destruct m|]. case_decide; tauto.
    + rewrite andb_true_r. unfold MAX_MSG_LEN in Hl.
      destruct (final_message a (id, info)) as [|ch tmp] eqn:Et; simpl.
      * rewrite decide_True by (by apply Hmv). done.
      * rewrite decide_False by (by intros ?%Hmv). split; [|split; [|done]].
        -- split; [by destruct m|]. intros ?%Hmv. done.
        -- destruct m; simpl in *; rewrite ?length_app in *; simpl in *; lia.
Qed.

(** The final check leaves the counters alone; it is okay exactly when no
    job is reported, and then, and only then, the message is empty; otherwise
    its result is that of the last job reported.  The message stays within 1030
    characters plus the longest report of a single job. *)
Theorem CheckAllJobs_spec c n :
  check_wf c →
  (∀ id info, infos c !! id = Some info → length (final_message (allowEvents c) (id, info)) ≤ n)%nat →
  let '((msg, result), c') := CheckAllJobs c in
  check_wf c' ∧ infos c' = infos c ∧ allowEvents c' = allowEvents c ∧
  (result = EVENT_OKAY ↔
   ∀ id info, infos c !! id = Some info → final_verdict (allowEvents c) (id, info) = EVENT_OKAY) ∧
  (msg = [] ↔ result = EVENT_OKAY) ∧
  result = default EVENT_OKAY (last (filter (fun r => r ≠ EVENT_OKAY)
             (final_verdict (allowEvents c) <$> entries (jobHash c)))) ∧
  Z.of_nat (length msg) ≤ 1030 + Z.of_nat n.
Proof.
  intros Hwf Hn. pose proof (CheckAllJobs_okay c Hwf) as Hok. rewrite CheckAllJobs_fold in * by done.
  pose proof (final_fold_result (allowEvents c) (entries (jobHash c)) ([], false, EVENT_OKAY)) as Hf.
  assert (final_inv n (foldl (final_step (allowEvents c)) ([], false, EVENT_OKAY) (entries (jobHash c)))) as Hinv.
  { assert (∀ e, e ∈ entries (jobHash c) → (length (final_message (allowEvents c) e) ≤ n)%nat) as Hall.
    { intros [id info] Hin. apply Hn. by apply infos_entries. }
    revert Hall. generalize (entries (jobHash c)). intros l Hall.
    assert (final_inv n ([], false, EVENT_OKAY)) as H0 by (split; [done|split; [simpl; lia|done]]).
    revert H0. generalize ([] : cstr, false, EVENT_OKAY).
    induction l as [|e l IH]; intros st Hst; [done|]. simpl. apply IH; [set_solver|].
    apply final_step_inv; [set_solver|done]. }
  destruct (foldl _ _ _) as [[m full] r]. simpl in *. destruct Hinv as (Hnil & Hlen & _).
  split; [destruct Hwf as [[] ?]; by repeat split|]. split_and!; try done. destruct full; lia.
Qed.

Lemma CheckAllJobs_spec_witness :
  let c := snd (check_log (CheckEvents_new ALLOW_NONE) sample_log) in
  snd (fst (CheckAllJobs c)) = EVENT_OKAY ∧ infos (snd (CheckAllJobs c)) = infos c.
Proof.
  intros c. assert (check_wf c) as Hwf by exact (proj1 (check_log_infos _ _ (CheckEvents_new_wf _))).
  pose proof (CheckAllJobs_spec c 0 Hwf) as Hs.
  change (allowEvents c) with ALLOW_NONE in Hs.
  assert (∀ id info, infos c !! id = Some info →
            final_verdict ALLOW_NONE (id, info) = EVENT_OKAY) as Hv.
  { intros id info Hin. apply (infos_entries c id info Hwf) in Hin. revert Hin.
    assert (entries (jobHash c) = [(mkID 7 0 0, mkInfo 1 0 0 1 1); (mkID 7 1 0, mkInfo 1 0 1 0 0)]
            ∨ entries (jobHash c) = [(mkID 7 1 0, mkInfo 1 0 1 0 0); (mkID 7 0 0, mkInfo 1 0 0 1 1)])
      as [->| ->] by (vm_compute; auto);
    rewrite !elem_of_cons, elem_of_nil; intros [[= -> ->]|[[= -> ->]|[]]]; reflexivity. }
  destruct (CheckAllJobs c) as [[msg r] c'].
  destruct Hs as (_ & Hi & _ & Hok & _).
  { intros id info Hin. rewrite (proj2 (final_message_nil _ _) (Hv id info Hin)). apply le_n. }
  split; [by apply Hok|done].
Defined.

(** A later job hides the error of an earlier one: job 1.0 was submitted and
    never ended, which is an error, and job 2.0 has the terminated and aborted
    events that [ALLOW_TERM_ABORT] tolerates; the final check returns
    [EVENT_BAD_EVENT], which the caller does not treat as an error. *)
Theorem CheckAllJobs_masks_error :
  let log := [mkEvent ULOG_SUBMIT 1 0 0; mkEvent ULOG_SUBMIT 2 0 0;
              mkEvent ULOG_JOB_TERMINATED 2 0 0; mkEvent ULOG_JOB_ABORTED 2 0 0] in
  let '(rs, c) := check_log (CheckEvents_new ALLOW_TERM_ABORT) log in
  snd <$> rs = [EVENT_OKAY; EVENT_OKAY; EVENT_OKAY; EVENT_BAD_EVENT] ∧
  final_verdict ALLOW_TERM_ABORT (mkID 1 0 0, info_of c (mkID 1 0 0)) = EVENT_ERROR ∧
  snd (fst (CheckAllJobs c)) = EVENT_BAD_EVENT.
Proof. vm_compute. auto. Qed.
