(* ===== verification/Operators.v ===== *)
(** * Operators

    The values and operators of the ClassAd language: [classad/value.cpp] and
    [classad/operators.cpp].  Every expression that a daemon evaluates, the
    requirements of a match among them, goes through [_doOperation].

    A result is the value and the set of significant children.  [None] stands for
    CLASSAD_EXCEPT and for what the C++ language leaves undefined and the
    hardware may trap on: the quotient of the least integer by -1, a shift by a
    count outside the width, a cast of a double outside the range of [int].
    Doubles are IEEE binary64 numbers. *)
From stdpp Require Import base list strings.
From Stdlib Require Import ZArith Lia Ascii SpecFloat.
From S2P Require Import Prelude.
Open Scope Z_scope.

(** ** Doubles *)

Abbreviation double := spec_float.
Definition real_of_int (z : Z) : double := binary_normalize 53 1024 z 0 false.
Definition real_add : double → double → double := SFadd 53 1024.
Definition real_sub : double → double → double := SFsub 53 1024.
Definition real_mul : double → double → double := SFmul 53 1024.
Definition real_div : double → double → double := SFdiv 53 1024.
(** [r ? true : false] *)
Definition real_truth (r : double) : bool := negb (SFeqb r (S754_zero false)).
(** [(int) r] *)
Definition real_to_int (r : double) : option Z :=
  match r with
  | S754_zero _ => Some 0
  | S754_finite s m e =>
      let n := Z.shiftl (Zpos m) e in
      let n := if s : bool then - n else n in
      if (- 2 ^ 31 <=? n) && (n <? 2 ^ 31) then Some n else None
  | _ => None
  end.

(** ** Values *)

Inductive ValueType :=
| ERROR_VALUE | UNDEFINED_VALUE | BOOLEAN_VALUE | INTEGER_VALUE | REAL_VALUE
| RELATIVE_TIME_VALUE | ABSOLUTE_TIME_VALUE | STRING_VALUE | CLASSAD_VALUE | LIST_VALUE | SLIST_VALUE.
#[export] Instance ValueType_eq : EqDecision ValueType.
Proof. solve_decision. Defined.

Inductive OpKind :=
| NO_OP
| LESS_THAN_OP | LESS_OR_EQUAL_OP | NOT_EQUAL_OP | EQUAL_OP | GREATER_OR_EQUAL_OP | GREATER_THAN_OP
| META_EQUAL_OP | META_NOT_EQUAL_OP
| UNARY_PLUS_OP | UNARY_MINUS_OP | ADDITION_OP | SUBTRACTION_OP | MULTIPLICATION_OP | DIVISION_OP
| MODULUS_OP
| LOGICAL_NOT_OP | LOGICAL_OR_OP | LOGICAL_AND_OP
| BITWISE_NOT_OP | BITWISE_OR_OP | BITWISE_XOR_OP | BITWISE_AND_OP | LEFT_SHIFT_OP | RIGHT_SHIFT_OP
| URIGHT_SHIFT_OP
| PARENTHESES_OP | SUBSCRIPT_OP | TERNARY_OP.
#[export] Instance OpKind_eq : EqDecision OpKind.
Proof. solve_decision. Defined.

Definition SIG_NONE : Z := 0.
Definition SIG_CHLD1 : Z := 1.
Definition SIG_CHLD2 : Z := 2.
Definition SIG_CHLD3 : Z := 4.
Definition SIG_BOTH : Z := Z.lor SIG_CHLD1 SIG_CHLD2.

Definition IsStrictOperator (op : OpKind) : bool :=
  match op with
  | META_EQUAL_OP | META_NOT_EQUAL_OP | LOGICAL_AND_OP | LOGICAL_OR_OP | TERNARY_OP => false
  | _ => true
  end.

Definition is_comparison (op : OpKind) : bool :=
  match op with
  | LESS_THAN_OP | LESS_OR_EQUAL_OP | NOT_EQUAL_OP | EQUAL_OP | GREATER_OR_EQUAL_OP
  | GREATER_THAN_OP | META_EQUAL_OP | META_NOT_EQUAL_OP => true
  | _ => false
  end.
Definition is_arithmetic (op : OpKind) : bool :=
  match op with
  | UNARY_PLUS_OP | UNARY_MINUS_OP | ADDITION_OP | SUBTRACTION_OP | MULTIPLICATION_OP
  | DIVISION_OP | MODULUS_OP => true
  | _ => false
  end.
Definition is_logic (op : OpKind) : bool :=
  match op with LOGICAL_NOT_OP | LOGICAL_OR_OP | LOGICAL_AND_OP => true | _ => false end.
Definition is_bitwise (op : OpKind) : bool :=
  match op with
  | BITWISE_NOT_OP | BITWISE_OR_OP | BITWISE_XOR_OP | BITWISE_AND_OP | LEFT_SHIFT_OP
  | RIGHT_SHIFT_OP | URIGHT_SHIFT_OP => true
  | _ => false
  end.

Section Operators.
(** Nested ads and lists are seen only through [SUBSCRIPT_OP]. *)
Context {ad elist : Type}.

Inductive Value :=
| ERROR
| UNDEFINED
| BOOLEAN (b : bool)
| INTEGER (i : Z)
| REAL (r : double)
| RELATIVE_TIME (secs : double)
| ABSOLUTE_TIME (secs offset : Z)
| STRING (s : cstr)
| CLASSAD (a : ad)
| LIST (l : elist)
| SLIST (l : elist).

Definition GetType (v : Value) : ValueType :=
  match v with
  | ERROR => ERROR_VALUE | UNDEFINED => UNDEFINED_VALUE | BOOLEAN _ => BOOLEAN_VALUE
  | INTEGER _ => INTEGER_VALUE | REAL _ => REAL_VALUE | RELATIVE_TIME _ => RELATIVE_TIME_VALUE
  | ABSOLUTE_TIME _ _ => ABSOLUTE_TIME_VALUE | STRING _ => STRING_VALUE
  | CLASSAD _ => CLASSAD_VALUE | LIST _ => LIST_VALUE | SLIST _ => SLIST_VALUE
  end.
Definition has_type (v : Value) (t : ValueType) : bool := bool_decide (GetType v = t).
Definition IsListValue (v : Value) : bool := has_type v LIST_VALUE || has_type v SLIST_VALUE.
Definition IsExceptional (v : Value) : bool := has_type v UNDEFINED_VALUE || has_type v ERROR_VALUE.

(** [_useOldClassAdSemantics] *)
Variable old : bool.

Definition IsBooleanValueEquiv (v : Value) : option bool :=
  match v with
  | BOOLEAN b => Some b
  | INTEGER i => if old then Some (negb (i =? 0)) else None
  | REAL r => if old then Some (real_truth r) else None
  | _ => None
  end.

(** What [SUBSCRIPT_OP] needs: an attribute of an ad ([Lookup], then
    [EvaluateAttr]), and an element of a list ([ToNth], [CurrentValue]); the
    element may fail to evaluate. *)
Variable EvaluateAttr : ad → cstr → option Value.
Variable CurrentValue : elist → Z → option (option Value).

(** The children that matter and the value. *)
Abbreviation outcome := (option (Value * Z)).
Definition done_ (v : Value) (sig : Z) : outcome := Some (v, sig).

(** ** Promotion *)

(** Booleans count as 0 and 1. *)
Definition promote (v : Value) : Value :=
  match v with BOOLEAN b => INTEGER (if b then 1 else 0) | _ => v end.

Definition coerceToNumber (v1 v2 : Value) : ValueType * Value * Value :=
  let either t := has_type v1 t || has_type v2 t in
  if either CLASSAD_VALUE then (CLASSAD_VALUE, v1, v2)
  else if IsListValue v1 || IsListValue v2 then (LIST_VALUE, v1, v2)
  else if either STRING_VALUE then (STRING_VALUE, v1, v2)
  else if either UNDEFINED_VALUE then (UNDEFINED_VALUE, v1, v2)
  else if either ERROR_VALUE then (ERROR_VALUE, v1, v2)
  else if either ABSOLUTE_TIME_VALUE then (ABSOLUTE_TIME_VALUE, v1, v2)
  else if either RELATIVE_TIME_VALUE then (RELATIVE_TIME_VALUE, v1, v2)
  else
    match promote v1, promote v2 with
    | INTEGER i1, INTEGER i2 => (INTEGER_VALUE, INTEGER i1, INTEGER i2)
    | INTEGER i, REAL r => (REAL_VALUE, REAL (real_of_int i), REAL r)
    | REAL r, INTEGER i => (REAL_VALUE, REAL r, REAL (real_of_int i))
    | v1, v2 => (REAL_VALUE, v1, v2)
    end.

(** ** Comparison *)

(** The [switch] that the comparisons of ordered types share. *)
Definition compare_switch (op : OpKind) (lt le eq gt ge : bool) : option Value :=
  match op with
  | LESS_THAN_OP => Some (BOOLEAN lt)
  | LESS_OR_EQUAL_OP => Some (BOOLEAN le)
  | EQUAL_OP => Some (BOOLEAN eq)
  | NOT_EQUAL_OP => Some (BOOLEAN (negb eq))
  | GREATER_THAN_OP => Some (BOOLEAN gt)
  | GREATER_OR_EQUAL_OP => Some (BOOLEAN ge)
  | _ => None
  end.

Definition compareStrings (op : OpKind) (s1 s2 : cstr) (exact : bool) : Value :=
  match (if exact then strcmp s1 s2 else strcasecmp s1 s2), op with
  | Lt, (LESS_THAN_OP | LESS_OR_EQUAL_OP | NOT_EQUAL_OP) => BOOLEAN true
  | Eq, (LESS_OR_EQUAL_OP | EQUAL_OP | GREATER_OR_EQUAL_OP) => BOOLEAN true
  | Gt, (GREATER_THAN_OP | GREATER_OR_EQUAL_OP | NOT_EQUAL_OP) => BOOLEAN true
  | _, _ => BOOLEAN false
  end.

Definition compareIntegers (op : OpKind) (i1 i2 : Z) : option Value :=
  compare_switch op (i1 <? i2) (i1 <=? i2) (i1 =? i2) (i2 <? i1) (i2 <=? i1).
Definition compareReals (op : OpKind) (r1 r2 : double) : option Value :=
  compare_switch op (SFltb r1 r2) (SFleb r1 r2) (SFeqb r1 r2) (SFltb r2 r1) (SFleb r2 r1).
Definition compareRelativeTimes := compareReals.
Definition compareAbsoluteTimes (op : OpKind) (secs1 secs2 : Z) : option Value :=
  compareIntegers op secs1 secs2.
Definition compareBools (op : OpKind) (b1 b2 : bool) : option Value :=
  compareIntegers op (Z.b2z b1) (Z.b2z b2).

(** The comparison after the promotions; [exact] is set for [=?=] and [=!=]. *)
Definition compare_values (op : OpKind) (t : ValueType) (v1 v2 : Value) (exact : bool) : outcome :=
  match t with
  | STRING_VALUE =>
      match v1, v2 with
      | STRING s1, STRING s2 => done_ (compareStrings op s1 s2 exact) SIG_BOTH
      | _, _ => done_ ERROR SIG_BOTH
      end
  | INTEGER_VALUE =>
      match v1, v2 with
      | INTEGER i1, INTEGER i2 => v ← compareIntegers op i1 i2; done_ v SIG_BOTH
      | _, _ => None
      end
  | REAL_VALUE =>
      match v1, v2 with
      | REAL r1, REAL r2 => v ← compareReals op r1 r2; done_ v SIG_BOTH
      | _, _ => None
      end
  | BOOLEAN_VALUE =>
      match v1, v2 with
      | BOOLEAN b1, BOOLEAN b2 => v ← compareBools op b1 b2; done_ v SIG_BOTH
      | _, _ => done_ ERROR SIG_BOTH
      end
  | LIST_VALUE | SLIST_VALUE | CLASSAD_VALUE => done_ ERROR SIG_BOTH
  | ABSOLUTE_TIME_VALUE =>
      match v1, v2 with
      | ABSOLUTE_TIME s1 _, ABSOLUTE_TIME s2 _ =>
          v ← compareAbsoluteTimes op s1 s2; done_ v SIG_BOTH
      | _, _ => done_ ERROR SIG_BOTH
      end
  | RELATIVE_TIME_VALUE =>
      match v1, v2 with
      | RELATIVE_TIME s1, RELATIVE_TIME s2 =>
          v ← compareRelativeTimes op s1 s2; done_ v SIG_BOTH
      | _, _ => done_ ERROR SIG_BOTH
      end
  | UNDEFINED_VALUE | ERROR_VALUE => None
  end.

Definition doComparison (op : OpKind) (v1 v2 : Value) : outcome :=
  let '(coerceResult, v1, v2) := coerceToNumber v1 v2 in
  match op with
  | META_EQUAL_OP =>
      if bool_decide (GetType v1 ≠ GetType v2) then done_ (BOOLEAN false) SIG_BOTH
      else if IsExceptional v1 then done_ (BOOLEAN true) SIG_BOTH
      else compare_values EQUAL_OP coerceResult v1 v2 true
  | META_NOT_EQUAL_OP =>
      if bool_decide (GetType v1 ≠ GetType v2) then done_ (BOOLEAN true) SIG_BOTH
      else if IsExceptional v1 || IsExceptional v2 then done_ (BOOLEAN false) SIG_BOTH
      else compare_values NOT_EQUAL_OP coerceResult v1 v2 true
  | _ => compare_values op coerceResult v1 v2 false
  end.

(** ** Arithmetic *)

Definition IsArithmetic (v : Value) : bool :=
  match v with
  | INTEGER _ | REAL _ | ABSOLUTE_TIME _ _ | RELATIVE_TIME _ | BOOLEAN _ => true
  | _ => false
  end.

(** [i1 / i2] and [i1 % i2] for a divisor other than 0. *)
Definition int_div (i1 i2 : Z) : option Z :=
  if (i1 =? - 2 ^ 63) && (i2 =? -1) then None else Some (Z.quot i1 i2).
Definition int_mod (i1 i2 : Z) : option Z :=
  if (i1 =? - 2 ^ 63) && (i2 =? -1) then None else Some (Z.rem i1 i2).

Definition int_arithmetic (op : OpKind) (i1 i2 : Z) : outcome :=
  match op with
  | ADDITION_OP => done_ (INTEGER (int64 (i1 + i2))) SIG_BOTH
  | SUBTRACTION_OP => done_ (INTEGER (int64 (i1 - i2))) SIG_BOTH
  | MULTIPLICATION_OP => done_ (INTEGER (int64 (i1 * i2))) SIG_BOTH
  | DIVISION_OP =>
      if negb (i2 =? 0) then i ← int_div i1 i2; done_ (INTEGER i) SIG_BOTH else done_ ERROR SIG_BOTH
  | MODULUS_OP =>
      if negb (i2 =? 0) then i ← int_mod i1 i2; done_ (INTEGER i) SIG_BOTH else done_ ERROR SIG_BOTH
  | _ => None
  end.

(** The result is an error when it is [HUGE_VAL], the positive infinity. *)
Definition real_result (comp : double) : Value :=
  if SFeqb comp (S754_infinity false) then ERROR else REAL comp.
Definition doRealArithmetic (op : OpKind) (r1 r2 : double) : outcome :=
  match op with
  | ADDITION_OP => done_ (real_result (real_add r1 r2)) SIG_BOTH
  | SUBTRACTION_OP => done_ (real_result (real_sub r1 r2)) SIG_BOTH
  | MULTIPLICATION_OP => done_ (real_result (real_mul r1 r2)) SIG_BOTH
  | DIVISION_OP => done_ (real_result (real_div r1 r2)) SIG_BOTH
  | MODULUS_OP => done_ ERROR SIG_BOTH
  | _ => None
  end.

(** In the product of a real by a time each accessor reads the [double] of the
    union that the value holds. *)
Definition doTimeArithmetic (op : OpKind) (v1 v2 : Value) : outcome :=
  match op, v1, v2 with
  | ADDITION_OP, ABSOLUTE_TIME a o, RELATIVE_TIME r
  | ADDITION_OP, RELATIVE_TIME r, ABSOLUTE_TIME a o =>
      i ← real_to_int r; done_ (ABSOLUTE_TIME (int64 (a + i)) o) SIG_BOTH
  | ADDITION_OP, RELATIVE_TIME r1, RELATIVE_TIME r2 =>
      done_ (RELATIVE_TIME (real_add r1 r2)) SIG_BOTH
  | SUBTRACTION_OP, ABSOLUTE_TIME a1 _, ABSOLUTE_TIME a2 _ =>
      done_ (RELATIVE_TIME (real_of_int (int64 (a1 - a2)))) SIG_BOTH
  | SUBTRACTION_OP, ABSOLUTE_TIME a o, RELATIVE_TIME r =>
      i ← real_to_int r; done_ (ABSOLUTE_TIME (int64 (a - i)) o) SIG_BOTH
  | SUBTRACTION_OP, RELATIVE_TIME r1, RELATIVE_TIME r2 =>
      done_ (RELATIVE_TIME (real_sub r1 r2)) SIG_BOTH
  | MULTIPLICATION_OP, RELATIVE_TIME r, INTEGER num =>
      done_ (RELATIVE_TIME (real_mul r (real_of_int num))) SIG_BOTH
  | DIVISION_OP, RELATIVE_TIME r, INTEGER num =>
      done_ (RELATIVE_TIME (real_div r (real_of_int num))) SIG_BOTH
  | MULTIPLICATION_OP, RELATIVE_TIME r, REAL num => done_ (RELATIVE_TIME (real_mul r num)) SIG_BOTH
  | DIVISION_OP, RELATIVE_TIME r, REAL num => done_ (RELATIVE_TIME (real_div r num)) SIG_BOTH
  | MULTIPLICATION_OP, INTEGER num, RELATIVE_TIME r =>
      done_ (RELATIVE_TIME (real_mul (real_of_int num) r)) SIG_BOTH
  | MULTIPLICATION_OP, REAL num, RELATIVE_TIME r => done_ (RELATIVE_TIME (real_mul num r)) SIG_BOTH
  | _, _, _ => done_ ERROR SIG_BOTH
  end.

Definition doArithmetic (op : OpKind) (v1 v2 : Value) : outcome :=
  if negb (IsArithmetic v1) || (bool_decide (op ≠ UNARY_MINUS_OP) && negb (IsArithmetic v2))
  then done_ ERROR SIG_BOTH
  else if bool_decide (op = UNARY_MINUS_OP) then
    match v1 with
    | INTEGER i => done_ (INTEGER (int64 (- i))) SIG_CHLD1
    | REAL r => done_ (REAL (SFopp r)) SIG_CHLD1
    | RELATIVE_TIME t => done_ (RELATIVE_TIME (SFopp t)) SIG_CHLD1
    | _ => done_ ERROR SIG_CHLD1
    end
  else
    match coerceToNumber v1 v2 with
    | (INTEGER_VALUE, INTEGER i1, INTEGER i2) => int_arithmetic op i1 i2
    | (REAL_VALUE, REAL r1, REAL r2) => doRealArithmetic op r1 r2
    | (ABSOLUTE_TIME_VALUE, v1, v2) | (RELATIVE_TIME_VALUE, v1, v2) => doTimeArithmetic op v1 v2
    | _ => None
    end.

(** ** Logic *)

Definition to_boolean (v : Value) : Value :=
  match IsBooleanValueEquiv v with Some b => BOOLEAN b | None => v end.
Definition is_logical (v : Value) : bool :=
  match v with BOOLEAN _ | UNDEFINED | ERROR => true | _ => false end.

Definition doLogical (op : OpKind) (v1 v2 : Value) : outcome :=
  let v1 := to_boolean v1 in
  let v2 := to_boolean v2 in
  if negb (is_logical v1) then done_ ERROR SIG_CHLD1
  else if negb (is_logical v2) then done_ ERROR SIG_CHLD2
  else
    match op with
    | LOGICAL_NOT_OP =>
        match v1 with
        | BOOLEAN b1 => done_ (BOOLEAN (negb b1)) SIG_CHLD1
        | _ => done_ v1 SIG_CHLD1
        end
    | LOGICAL_OR_OP =>
        match v1, v2 with
        | BOOLEAN true, _ => done_ (BOOLEAN true) SIG_CHLD1
        | ERROR, _ => done_ ERROR SIG_CHLD1
        | BOOLEAN false, _ => done_ v2 SIG_BOTH
        | _, BOOLEAN true => done_ (BOOLEAN true) SIG_BOTH
        | _, BOOLEAN false => done_ UNDEFINED SIG_BOTH
        | _, _ => done_ v2 SIG_BOTH
        end
    | LOGICAL_AND_OP =>
        match v1, v2 with
        | BOOLEAN false, _ => done_ (BOOLEAN false) SIG_CHLD1
        | ERROR, _ => done_ ERROR SIG_CHLD1
        | BOOLEAN true, _ => done_ v2 SIG_BOTH
        | _, BOOLEAN false => done_ (BOOLEAN false) SIG_BOTH
        | _, BOOLEAN true => done_ UNDEFINED SIG_BOTH
        | _, _ => done_ v2 SIG_BOTH
        end
    | _ => None
    end.

(** ** Bits *)

Definition signMask : Z := - 2 ^ 63.
(** [i << n] and [i >> n], defined for counts below the width. *)
Definition shift_left (i n : Z) : option Z :=
  if (0 <=? n) && (n <? 64) then Some (int64 (Z.shiftl i n)) else None.
Definition shift_right (i n : Z) : option Z :=
  if (0 <=? n) && (n <? 64) then Some (Z.shiftr i n) else None.
(** One round of the loop of [RIGHT_SHIFT_OP] on a negative number. *)
Definition sign_shift (val : Z) : Z := Z.lor (Z.shiftr val 1) signMask.

Definition doBitwise (op : OpKind) (v1 v2 : Value) : outcome :=
  match op, v1, v2 with
  | BITWISE_NOT_OP, INTEGER i1, _ => done_ (INTEGER (Z.lnot i1)) SIG_CHLD1
  | BITWISE_NOT_OP, _, _ => done_ ERROR SIG_CHLD1
  | _, INTEGER i1, INTEGER i2 =>
      i ← match op with
          | BITWISE_OR_OP => Some (Z.lor i1 i2)
          | BITWISE_AND_OP => Some (Z.land i1 i2)
          | BITWISE_XOR_OP => Some (Z.lxor i1 i2)
          | LEFT_SHIFT_OP => shift_left i1 i2
          | URIGHT_SHIFT_OP =>
              if 0 <=? i1 then shift_right i1 i2
              else shift_right (Z.land (Z.shiftr i1 1) (Z.lnot signMask)) (int64 (i2 - 1))
          | RIGHT_SHIFT_OP =>
              if 0 <=? i1 then shift_right i1 i2 else Some (Z.iter i2 sign_shift i1)
          | _ => None
          end;
      done_ (INTEGER i) SIG_BOTH
  | _, _, _ => done_ ERROR SIG_BOTH
  end.

(** ** Operations *)

Definition _doOperation (op : OpKind) (val1 val2 val3 : Value) (valid1 valid2 valid3 : bool)
    : outcome :=
  match op with
  | NO_OP | PARENTHESES_OP => done_ val1 SIG_CHLD1
  | UNARY_PLUS_OP =>
      match val1 with
      | BOOLEAN _ | STRING _ | LIST _ | SLIST _ | CLASSAD _ | ABSOLUTE_TIME _ _ => done_ ERROR SIG_CHLD1
      | _ => done_ val1 SIG_CHLD1
      end
  | _ =>
    let strict := IsStrictOperator op in
    if strict && has_type val1 ERROR_VALUE then done_ ERROR SIG_CHLD1
    else if strict && valid2 && has_type val2 ERROR_VALUE then done_ ERROR SIG_CHLD2
    else if strict && valid3 && has_type val3 ERROR_VALUE then done_ ERROR SIG_CHLD3
    else if strict && valid1 && has_type val1 UNDEFINED_VALUE then done_ UNDEFINED SIG_CHLD1
    else if strict && valid2 && has_type val2 UNDEFINED_VALUE then done_ UNDEFINED SIG_CHLD2
    else if strict && valid3 && has_type val3 UNDEFINED_VALUE then done_ UNDEFINED SIG_CHLD3
    else if is_comparison op then doComparison op val1 val2
    else if is_arithmetic op then doArithmetic op val1 val2
    else if is_logic op then doLogical op val1 val2
    else if is_bitwise op then doBitwise op val1 val2
    else
      match op with
      | TERNARY_OP =>
          if has_type val1 UNDEFINED_VALUE then done_ UNDEFINED SIG_CHLD1
          else match IsBooleanValueEquiv val1 with
               | None => done_ ERROR SIG_CHLD1
               | Some true => done_ val2 SIG_CHLD2
               | Some false => done_ val3 SIG_CHLD3
               end
      | SUBSCRIPT_OP =>
          match val1, val2 with
          | CLASSAD classad, STRING index =>
              match EvaluateAttr classad index with
              | None => done_ ERROR SIG_CHLD2
              | Some v => done_ v SIG_BOTH
              end
          | (LIST l | SLIST l), INTEGER i =>
              let index := int32 i in
              if index <? 0 then done_ ERROR SIG_CHLD2
              else match CurrentValue l index with
                   | None => done_ ERROR SIG_CHLD2
                   | Some v => done_ (default ERROR v) SIG_BOTH
                   end
          | _, _ => done_ ERROR SIG_BOTH
          end
      | _ => None
      end
  end.

(** ** Expressions *)

(** The leaves are the nodes of other kinds; [eval_leaf] evaluates them, and
    its Boolean is [false] when the evaluation failed. *)
Context {leaf : Type}.
Variable eval_leaf : leaf → bool * Value.

Inductive ExprTree :=
| Leaf (l : leaf)
| OperationParens (child1 : ExprTree)
| Operation1 (operation : OpKind) (child1 : ExprTree)
| Operation2 (operation : OpKind) (child1 child2 : ExprTree)
| Operation3 (child1 child2 child3 : ExprTree).

(** The end of [_Evaluate]. *)
Definition finish (r : outcome) : option (bool * Value) :=
  '(v, sig) ← r; Some (negb (sig =? SIG_NONE), v).

(** [shortCircuit] for the binary operators. *)
Definition shortCircuit (op : OpKind) (arg1 : Value) : option Value :=
  match op, IsBooleanValueEquiv arg1 with
  | LOGICAL_OR_OP, Some true => Some (BOOLEAN true)
  | LOGICAL_AND_OP, Some false => Some (BOOLEAN false)
  | _, _ => None
  end.

Fixpoint Evaluate (e : ExprTree) : option (bool * Value) :=
  match e with
  | Leaf l => Some (eval_leaf l)
  | OperationParens c =>
      '(ok, v1) ← Evaluate c;
      if (ok : bool) then finish (_doOperation PARENTHESES_OP v1 UNDEFINED UNDEFINED true false false)
      else Some (false, ERROR)
  | Operation1 op c =>
      '(ok, v1) ← Evaluate c;
      if (ok : bool) then finish (_doOperation op v1 UNDEFINED UNDEFINED true false false)
      else Some (false, ERROR)
  | Operation2 op c1 c2 =>
      '(ok, v1) ← Evaluate c1;
      if negb ok then Some (false, ERROR) else
      match shortCircuit op v1 with
      | Some v => Some (true, v)
      | None =>
          '(ok, v2) ← Evaluate c2;
          if negb ok then Some (false, ERROR)
          else finish (_doOperation op v1 v2 UNDEFINED true true false)
      end
  | Operation3 c1 c2 c3 =>
      '(ok, v1) ← Evaluate c1;
      if negb ok then Some (false, ERROR) else
      let rest :=
        '(ok, v2) ← Evaluate c2;
        if negb ok then Some (false, ERROR) else
        '(ok, v3) ← Evaluate c3;
        if negb ok then Some (false, ERROR)
        else finish (_doOperation TERNARY_OP v1 v2 v3 true true true) in
      match IsBooleanValueEquiv v1 with
      | Some b =>
          '(ok, v) ← Evaluate (if b then c2 else c3);
          if (ok : bool) then Some (true, v) else rest
      | None => rest
      end
  end.
End Operators.
Arguments Value : clear implicits.
Arguments ExprTree : clear implicits.

(** ** 64-bit integers *)

Lemma int_div_ok i1 i2 : in_int64 i1 → int_div i1 i2 = None ∧ i1 = - 2 ^ 63 ∧ i2 = -1 ∨
  ∃ q, int_div i1 i2 = Some q ∧ (i2 ≠ 0 → in_int64 q).
Proof.
  intros Hi. unfold int_div, in_int64 in *.
  destruct ((i1 =? - 2 ^ 63) && (i2 =? -1)) eqn:E; [left; split; [done|lia]|right].
  eexists. split; [reflexivity|]. intros Hz. pose proof (Z.quot_abs i1 i2 Hz) as Ha.
  destruct (decide (i2 = 1)) as [->|H1]; [by rewrite Z.quot_1_r|].
  destruct (decide (i2 = -1)) as [->|H2].
  { apply andb_false_iff in E as [E|E]; apply Z.eqb_neq in E; [|done].
    change (-1) with (- (1)). rewrite Z.quot_opp_r, Z.quot_1_r by done. lia. }
  destruct (decide (i1 = 0)) as [->|H0]; [rewrite Z.quot_0_l by done; lia|].
  pose proof (Z.quot_lt (Z.abs i1) (Z.abs i2)). lia.
Qed.

Lemma int_mod_ok i1 i2 : in_int64 i1 → int_mod i1 i2 = None ∧ i1 = - 2 ^ 63 ∧ i2 = -1 ∨
  ∃ q, int_mod i1 i2 = Some q ∧ (i2 ≠ 0 → in_int64 q).
Proof.
  intros Hi. unfold int_mod, in_int64 in *.
  destruct ((i1 =? - 2 ^ 63) && (i2 =? -1)) eqn:E; [left; split; [done|lia]|right].
  eexists. split; [reflexivity|]. intros Hz. pose proof (Z.rem_abs i1 i2 Hz).
  pose proof (Z.rem_le (Z.abs i1) (Z.abs i2)).
  pose proof (Z.rem_nonneg i1 i2 Hz). pose proof (Z.rem_nonpos i1 i2 Hz). lia.
Qed.

Lemma in_int64_shiftr z : in_int64 z ↔ Z.shiftr z 63 = 0 ∨ Z.shiftr z 63 = -1.
Proof. unfold in_int64. rewrite Z.shiftr_div_pow2 by lia. Z.div_mod_to_equations. lia. Qed.

Lemma lor_int64 a b : in_int64 a → in_int64 b → in_int64 (Z.lor a b).
Proof. rewrite !in_int64_shiftr, Z.shiftr_lor. intros [->| ->] [->| ->]; auto. Qed.
Lemma land_int64 a b : in_int64 a → in_int64 b → in_int64 (Z.land a b).
Proof. rewrite !in_int64_shiftr, Z.shiftr_land. intros [->| ->] [->| ->]; auto. Qed.
Lemma lxor_int64 a b : in_int64 a → in_int64 b → in_int64 (Z.lxor a b).
Proof. rewrite !in_int64_shiftr, Z.shiftr_lxor. intros [->| ->] [->| ->]; auto. Qed.
Lemma lnot_int64 a : in_int64 a → in_int64 (Z.lnot a).
Proof. unfold in_int64, Z.lnot. lia. Qed.

Lemma shiftr_int64 a n : 0 ≤ n → in_int64 a → in_int64 (Z.shiftr a n).
Proof.
  intros Hn. unfold in_int64. rewrite Z.shiftr_div_pow2 by done. intros Ha.
  pose proof (Z.pow_pos_nonneg 2 n). split.
  - apply Z.div_le_lower_bound; nia.
  - apply Z.div_lt_upper_bound; nia.
Qed.

(** Negative numbers have all the bits of [signMask]. *)
Lemma lor_signMask z : - 2 ^ 63 ≤ z < 0 → Z.lor z signMask = z.
Proof.
  intros Hz. assert (Z.shiftr z 63 = -1) as Hs.
  { rewrite Z.shiftr_div_pow2 by lia. Z.div_mod_to_equations. lia. }
  change signMask with (Z.shiftl (-1) 63). apply Z.bits_inj'. intros n Hn.
  rewrite Z.lor_spec, Z.shiftl_spec by done. destruct (Z.lt_ge_cases n 63) as [Hl|Hl].
  - rewrite (Z.testbit_neg_r (-1)) by lia. apply orb_false_r.
  - replace n with (n - 63 + 63) by lia. rewrite <- Z.shiftr_spec, Hs, Z.add_simpl_r by lia.
    by rewrite Z.bits_m1 by lia.
Qed.

Lemma shiftr_neg z n : 0 ≤ n → - 2 ^ 63 ≤ z < 0 → - 2 ^ 63 ≤ Z.shiftr z n < 0.
Proof.
  intros Hn Hz. pose proof (shiftr_int64 z n Hn ltac:(unfold in_int64; lia)) as Hi.
  unfold in_int64 in Hi. split; [lia|]. apply Z.shiftr_neg. lia.
Qed.

(** The loop of [RIGHT_SHIFT_OP]. *)
Lemma sign_shift_iter z n : 0 ≤ n → - 2 ^ 63 ≤ z < 0 → Z.iter n sign_shift z = Z.shiftr z n.
Proof.
  intros Hn Hz. destruct n as [|p|p]; [by rewrite Z.shiftr_0_r| |lia]. clear Hn. simpl.
  induction p as [|p IH] using Pos.peano_ind.
  - change (Pos.iter sign_shift z 1) with (sign_shift z). unfold sign_shift.
    apply lor_signMask, shiftr_neg; lia.
  - rewrite Pos.iter_succ, IH. unfold sign_shift. rewrite Z.shiftr_shiftr by lia.
    rewrite lor_signMask by (apply shiftr_neg; lia). f_equal. lia.
Qed.

Lemma shift_right_ok z n :
  in_int64 z → shift_right z n = None ∧ ¬ (0 ≤ n < 64) ∨
               (∃ q, shift_right z n = Some q ∧ in_int64 q).
Proof.
  intros Hz. unfold shift_right. destruct ((0 <=? n) && (n <? 64)) eqn:E; [right|left; split; [done|lia]].
  eexists. split; [reflexivity|]. apply shiftr_int64; [lia|done].
Qed.

Lemma ushift_operand z : in_int64 z → in_int64 (Z.land (Z.shiftr z 1) (Z.lnot signMask)).
Proof. intros Hz. apply land_int64; [by apply shiftr_int64|]. by vm_compute. Qed.

(** ** Well-formed values *)

Section WithContainers.
Context {ad elist : Type}.
Variable old : bool.
Variable EvaluateAttr : ad → cstr → option (Value ad elist).
Variable CurrentValue : elist → Z → option (option (Value ad elist)).

(** Integers and seconds fit 64 bits. *)
Definition value_ok (v : Value ad elist) : Prop :=
  match v with
  | INTEGER i => in_int64 i
  | ABSOLUTE_TIME s _ => in_int64 s
  | _ => True
  end.

(** The operations on which the hardware may trap. *)
Definition may_trap (op : OpKind) (v1 v2 : Value ad elist) : Prop :=
  match op with
  | DIVISION_OP | MODULUS_OP => v1 = INTEGER (- 2 ^ 63) ∧ v2 = INTEGER (-1)
  | LEFT_SHIFT_OP | RIGHT_SHIFT_OP | URIGHT_SHIFT_OP =>
      ∃ i n, v1 = INTEGER i ∧ v2 = INTEGER n ∧ ¬ (1 ≤ n < 64)
  | ADDITION_OP | SUBTRACTION_OP =>
      ∃ r, (v1 = RELATIVE_TIME r ∨ v2 = RELATIVE_TIME r) ∧ real_to_int r = None
  | _ => False
  end.

(** What an operation may give. *)
Definition outcome_ok (op : OpKind) (v1 v2 : Value ad elist) (r : option (Value ad elist * Z)) : Prop :=
  match r with
  | None => may_trap op v1 v2
  | Some (v, sig) => value_ok v ∧ sig ≠ SIG_NONE
  end.

Lemma coerce_cases (v1 v2 : Value ad elist) :
  IsExceptional v1 = false → IsExceptional v2 = false →
  let '(t, w1, w2) := coerceToNumber v1 v2 in
  match t with
  | CLASSAD_VALUE | LIST_VALUE | STRING_VALUE | ABSOLUTE_TIME_VALUE | RELATIVE_TIME_VALUE =>
      w1 = v1 ∧ w2 = v2
  | INTEGER_VALUE => ∃ i1 i2, w1 = INTEGER i1 ∧ w2 = INTEGER i2 ∧ promote v1 = INTEGER i1 ∧ promote v2 = INTEGER i2
  | REAL_VALUE => ∃ r1 r2, w1 = REAL r1 ∧ w2 = REAL r2
  | _ => False
  end.
Proof. destruct v1, v2; try discriminate; intros _ _; simpl; eauto 6. Qed.

Lemma coerce_exceptional (v1 v2 : Value ad elist) :
  IsExceptional v1 = true ∨ IsExceptional v2 = true →
  coerceToNumber v1 v2 = (fst (fst (coerceToNumber v1 v2)), v1, v2).
Proof. intros []; destruct v1, v2; done. Qed.

(** The six operators that remain after [=?=] and [=!=] were replaced. *)
Definition is_order (op : OpKind) : bool :=
  is_comparison op && bool_decide (op ≠ META_EQUAL_OP) && bool_decide (op ≠ META_NOT_EQUAL_OP).

Lemma compare_switch_bool op lt le eq gt ge :
  is_order op = true → ∃ b, compare_switch (ad:=ad) (elist:=elist) op lt le eq gt ge = Some (BOOLEAN b).
Proof. destruct op; try done; simpl; eauto. Qed.

Lemma compareStrings_bool op s1 s2 exact :
  ∃ b, compareStrings (ad:=ad) (elist:=elist) op s1 s2 exact = BOOLEAN b.
Proof. unfold compareStrings. destruct (if exact then _ else _), op; eauto. Qed.

Definition bool_or_error (v : Value ad elist) : Prop := v = ERROR ∨ ∃ b, v = BOOLEAN b.

Lemma compare_values_ok op (v1 v2 w1 w2 : Value ad elist) t exact :
  coerceToNumber v1 v2 = (t, w1, w2) → IsExceptional v1 = false → IsExceptional v2 = false →
  is_order op = true →
  ∃ v, compare_values op t w1 w2 exact = Some (v, SIG_BOTH) ∧ bool_or_error v.
Proof.
  intros Hc H1 H2 Hop. pose proof (coerce_cases v1 v2 H1 H2) as Hk. rewrite Hc in Hk.
  assert (∀ lt le eq gt ge, ∃ v, (v ← compare_switch op lt le eq gt ge; done_ v SIG_BOTH) =
            Some (v, SIG_BOTH) ∧ bool_or_error v) as Hsw.
  { intros lt le eq gt ge. destruct (compare_switch_bool op lt le eq gt ge Hop) as [b ->].
    exists (BOOLEAN b). split; [done|right; eauto]. }
  destruct t; try done.
  - destruct Hk as (i1 & i2 & -> & -> & _). apply Hsw.
  - destruct Hk as (r1 & r2 & -> & ->). apply Hsw.
  - destruct Hk as [-> ->]. destruct v1, v2; try (eexists; split; [reflexivity|by left]). apply Hsw.
  - destruct Hk as [-> ->]. destruct v1, v2; try (eexists; split; [reflexivity|by left]). apply Hsw.
  - destruct Hk as [-> ->]. destruct v1, v2; try (eexists; split; [reflexivity|by left]).
    eexists. split; [reflexivity|]. right. apply compareStrings_bool.
  - eexists. split; [reflexivity|by left].
  - eexists. split; [reflexivity|by left].
Qed.

(** A comparison gives a Boolean or an error. *)
Lemma doComparison_ok op (v1 v2 : Value ad elist) :
  is_comparison op = true →
  (is_order op = true → IsExceptional v1 = false ∧ IsExceptional v2 = false) →
  ∃ v, doComparison op v1 v2 = Some (v, SIG_BOTH) ∧ bool_or_error v.
Proof.
  intros Hop Hex. unfold doComparison. destruct (coerceToNumber v1 v2) as [[t w1] w2] eqn:Hc.
  destruct (is_order op) eqn:Ho.
  - destruct (Hex eq_refl) as [H1 H2]. destruct op; try done; by apply (compare_values_ok _ v1 v2).
  - assert (IsExceptional v1 = true ∨ IsExceptional v2 = true →
            GetType w1 ≠ GetType w2 ∨ (IsExceptional w1 = true)) as Hx.
    { intros Hx. rewrite (coerce_exceptional v1 v2 Hx) in Hc. injection Hc as _ <- <-.
      destruct v1, v2; destruct Hx; try discriminate; (left; discriminate) || (right; reflexivity). }
    assert (∀ b, ∃ v, done_ (ad:=ad) (elist:=elist) (BOOLEAN b) SIG_BOTH = Some (v, SIG_BOTH) ∧ bool_or_error v) as Hb.
    { intros b. eexists. split; [reflexivity|right; eauto]. }
    destruct (IsExceptional v1) eqn:E1; [|destruct (IsExceptional v2) eqn:E2].
    3: destruct op; try done; repeat case_match; try apply Hb; by apply (compare_values_ok _ v1 v2).
    all: destruct op; try done; case_bool_decide; try apply Hb; destruct Hx as [?|Hx]; auto; try done;
      rewrite Hx; apply Hb.
Qed.

Definition binary_arithmetic (op : OpKind) : Prop :=
  is_arithmetic op = true ∧ op ≠ UNARY_PLUS_OP ∧ op ≠ UNARY_MINUS_OP.

Lemma int_arithmetic_ok op i1 i2 :
  in_int64 i1 → binary_arithmetic op →
  match int_arithmetic (ad:=ad) (elist:=elist) op i1 i2 with
  | None => (op = DIVISION_OP ∨ op = MODULUS_OP) ∧ i1 = - 2 ^ 63 ∧ i2 = -1
  | Some (v, sig) => value_ok v ∧ sig ≠ SIG_NONE
  end.
Proof.
  intros Hi (Hop & Hp & Hm). destruct op; try done; simpl; try (split; [apply int64_range|done]).
  - destruct (Z.eqb_spec i2 0) as [->|Hz]; [done|]. simpl.
    destruct (int_div_ok i1 i2 Hi) as [(-> & ? & ?)|(q & -> & Hq)]; simpl; [auto|].
    split; [by apply Hq|done].
  - destruct (Z.eqb_spec i2 0) as [->|Hz]; [done|]. simpl.
    destruct (int_mod_ok i1 i2 Hi) as [(-> & ? & ?)|(q & -> & Hq)]; simpl; [auto|].
    split; [by apply Hq|done].
Qed.

Lemma doRealArithmetic_ok op r1 r2 (v1 v2 : Value ad elist) :
  binary_arithmetic op → outcome_ok op v1 v2 (doRealArithmetic op r1 r2).
Proof.
  intros (Hop & Hp & Hm). destruct op; try done; simpl; unfold real_result; by case_match.
Qed.

Lemma doTimeArithmetic_ok op (v1 v2 : Value ad elist) : outcome_ok op v1 v2 (doTimeArithmetic op v1 v2).
Proof.
  destruct op; try done; destruct v1, v2; try done; simpl;
    try (destruct (real_to_int _) eqn:E; simpl; [split; [apply int64_range|done]|eauto]).
Qed.

Lemma doArithmetic_ok op (v1 v2 : Value ad elist) :
  value_ok v1 → value_ok v2 → is_arithmetic op = true → op ≠ UNARY_PLUS_OP →
  outcome_ok op v1 v2 (doArithmetic op v1 v2).
Proof.
  intros Hv1 Hv2 Hop Hn. unfold doArithmetic.
  destruct (IsArithmetic v1) eqn:E1; simpl; [|done].
  destruct (decide (op = UNARY_MINUS_OP)) as [->|Hm]; simpl.
  { destruct v1; simpl; split; try done. apply int64_range. }
  rewrite bool_decide_eq_true_2, bool_decide_eq_false_2 by done. simpl.
  destruct (IsArithmetic v2) eqn:E2; simpl; [|done].
  assert (binary_arithmetic op) as Hb by done.
  assert (∀ i1 i2, in_int64 i1 → (i1 = - 2 ^ 63 → i2 = -1 → v1 = INTEGER i1 ∧ v2 = INTEGER i2) →
            outcome_ok op v1 v2 (int_arithmetic op i1 i2)) as Hint.
  { intros i1 i2 Hi Heq. pose proof (int_arithmetic_ok op i1 i2 Hi Hb) as Ha.
    destruct (int_arithmetic op i1 i2) as [[]|]; [done|]. destruct Ha as (Hd & -> & ->).
    destruct (Heq eq_refl eq_refl). by destruct Hd as [->| ->]. }
  assert (∀ b : bool, in_int64 (if b then 1 else 0)) as Hbool by (intros []; unfold in_int64; lia).
  destruct v1 as [| |[]| | | | | | | |], v2 as [| |[]| | | | | | | |]; try discriminate; simpl;
    first [apply doRealArithmetic_ok; done | apply doTimeArithmetic_ok
          | apply Hint; [first [exact Hv1|apply (Hbool true)|apply (Hbool false)]|intros; done || lia]].
Qed.

Lemma doLogical_ok op (v1 v2 : Value ad elist) :
  is_logic op = true → outcome_ok op v1 v2 (doLogical old op v1 v2).
Proof.
  intros Hop. unfold doLogical. destruct (to_boolean old v1) as [| |[]| | | | | | | |];
    simpl; try done; destruct (to_boolean old v2) as [| |[]| | | | | | | |]; simpl; try done; by destruct op.
Qed.

Lemma doBitwise_int op i1 i2 :
  in_int64 i1 → in_int64 i2 → is_bitwise op = true →
  outcome_ok op (INTEGER i1) (INTEGER i2) (doBitwise op (INTEGER i1) (INTEGER i2)).
Proof.
  intros H1 H2 Hop. unfold in_int64 in H2.
  assert (∀ q, in_int64 q → value_ok (INTEGER q : Value ad elist) ∧ SIG_BOTH ≠ SIG_NONE) as Hq by done.
  assert (∀ z, z = i2 ∨ z = int64 (i2 - 1) → ¬ (0 ≤ z < 64) → ¬ (1 ≤ i2 < 64)) as Ht.
  { intros z [->| ->] Hz; [lia|]. intros Hi. rewrite int64_id in Hz by (unfold in_int64; lia). lia. }
  destruct op; try done; simpl; try (apply Hq; auto using lor_int64, land_int64, lxor_int64, lnot_int64).
  - split; [by apply lnot_int64|done].
  - unfold shift_left. destruct ((0 <=? i2) && (i2 <? 64)) eqn:E; simpl; [apply Hq, int64_range|].
    exists i1, i2. split_and!; [done|done|lia].
  - destruct (Z.leb_spec 0 i1); simpl.
    + destruct (shift_right_ok i1 i2 H1) as [[-> Hn]|(q & -> & Hr)]; simpl; [|auto].
      exists i1, i2. split_and!; [done|done|eauto].
    + apply Hq. destruct (Z.lt_ge_cases i2 0) as [Hn|Hn]; [by destruct i2|].
      unfold in_int64 in H1. rewrite sign_shift_iter by lia. by apply shiftr_int64.
  - destruct (Z.leb_spec 0 i1).
    + destruct (shift_right_ok i1 i2 H1) as [[-> Hn]|(q & -> & Hr)]; simpl; [|auto].
      exists i1, i2. split_and!; [done|done|eauto].
    + destruct (shift_right_ok _ (int64 (i2 - 1)) (ushift_operand i1 H1)) as [[-> Hn]|(q & -> & Hr)];
        simpl; [|auto]. exists i1, i2. split_and!; [done|done|eauto].
Qed.

Lemma doBitwise_ok op (v1 v2 : Value ad elist) :
  value_ok v1 → value_ok v2 → is_bitwise op = true → outcome_ok op v1 v2 (doBitwise op v1 v2).
Proof.
  intros Hv1 Hv2 Hop. destruct v1; try (by destruct op); destruct v2; try (by apply doBitwise_int).
  all: destruct op; try done; simpl; split; [by apply lnot_int64|done].
Qed.

(** *** Operations *)

Definition is_unary (op : OpKind) : bool :=
  match op with
  | NO_OP | PARENTHESES_OP | UNARY_PLUS_OP | UNARY_MINUS_OP | LOGICAL_NOT_OP | BITWISE_NOT_OP => true
  | _ => false
  end.
Definition is_ternary (op : OpKind) : bool := bool_decide (op = TERNARY_OP).

(** An operation on as many children as its operator has. *)
Definition operate (op : OpKind) (v1 v2 v3 : Value ad elist) : option (Value ad elist * Z) :=
  _doOperation old EvaluateAttr CurrentValue op v1 v2 v3 true (negb (is_unary op)) (is_ternary op).

(** Ads and lists give well-formed values. *)
Definition containers_ok : Prop :=
  (∀ a s v, EvaluateAttr a s = Some v → value_ok v) ∧
  (∀ l i v, CurrentValue l i = Some (Some v) → value_ok v).

Lemma outcome_bool op v1 v2 r :
  (∃ v, r = Some (v, SIG_BOTH) ∧ bool_or_error v) → outcome_ok op v1 v2 r.
Proof. intros (v & -> & [->|[b ->]]); done. Qed.

(** Skip the tests for exceptional operands, each of which ends the operation. *)
Ltac past_exceptional :=
  cbn -[doComparison doArithmetic doLogical doBitwise];
  repeat match goal with |- context [has_type ?v ?t] =>
    destruct (has_type v t) eqn:?; cbn -[doComparison doArithmetic doLogical doBitwise]; [done|] end.

Lemma operate_ok op v1 v2 v3 :
  containers_ok → value_ok v1 → value_ok v2 → value_ok v3 →
  outcome_ok op v1 v2 (operate op v1 v2 v3).
Proof.
  intros [Ha Hl] H1 H2 H3. unfold operate.
  destruct (is_comparison op) eqn:Hc.
  { destruct op; try discriminate; past_exceptional.
    all: apply outcome_bool, doComparison_ok; [done|]; intros Ho; try discriminate Ho.
    all: unfold IsExceptional.
    all: repeat match goal with H : has_type _ _ = false |- _ => rewrite H; clear H end; done. }
  destruct (is_arithmetic op) eqn:Har.
  { destruct op; try discriminate; [by destruct v1|..]; past_exceptional; by apply doArithmetic_ok. }
  destruct (is_logic op) eqn:Hlo.
  { destruct op; try discriminate; past_exceptional; by apply doLogical_ok. }
  destruct (is_bitwise op) eqn:Hb.
  { destruct op; try discriminate; past_exceptional; by apply doBitwise_ok. }
  destruct op; try discriminate; try done; past_exceptional.
  - destruct v1, v2; try done; simpl.
    + destruct (EvaluateAttr _ _) eqn:E; simpl; [split; [by eapply Ha|done]|done].
    + case_match; [done|]. destruct (CurrentValue _ _) as [[v|]|] eqn:E; simpl; [split; [by eapply Hl|done]|done|done].
    + case_match; [done|]. destruct (CurrentValue _ _) as [[v|]|] eqn:E; simpl; [split; [by eapply Hl|done]|done|done].
  - by destruct (IsBooleanValueEquiv old v1) as [[]|].
Qed.
End WithContainers.

(** ** Theorems *)

(** C35. The code is total and safe: an operation on well-formed values with the
    operands its operator needs never reaches a [CLASSAD_EXCEPT], gives a
    well-formed value and a significant child; the only operations without a
    result are those the C++ language leaves undefined: the least integer
    divided by -1, a shift by a count outside 1..63 or a time offset outside
    the range of [int]. *)
Theorem doOperation_safe {ad elist} old (EvaluateAttr : ad → cstr → option (Value ad elist))
    (CurrentValue : elist → Z → option (option (Value ad elist))) op v1 v2 v3 :
  containers_ok EvaluateAttr CurrentValue → value_ok v1 → value_ok v2 → value_ok v3 →
  match _doOperation old EvaluateAttr CurrentValue op v1 v2 v3
          true (negb (is_unary op)) (is_ternary op) with
  | None => may_trap op v1 v2
  | Some (v, sig) => value_ok v ∧ sig ≠ SIG_NONE
  end.
Proof. apply operate_ok. Qed.

Lemma doOperation_safe_witness :
  match _doOperation (ad:=unit) (elist:=unit) false (fun _ _ => None) (fun _ _ => None)
          MULTIPLICATION_OP (INTEGER (2 ^ 62)) (INTEGER 2) UNDEFINED true true false with
  | None => False
  | Some (v, _) => value_ok v
  end.
Proof.
  assert (containers_ok (ad:=unit) (elist:=unit) (fun _ _ => None) (fun _ _ => None)) as Hc.
  { split; intros ? ? ? [=]. }
  pose proof (doOperation_safe false _ _ MULTIPLICATION_OP (INTEGER (2 ^ 62)) (INTEGER 2) UNDEFINED Hc
    ltac:(vm_compute; split; congruence) ltac:(vm_compute; split; congruence) I) as Hs.
  simpl in Hs. apply Hs.
Defined.

(** *** Logic *)

Section Logic.
Context {ad elist : Type}.
Variable old : bool.
Definition logic (op : OpKind) (v1 v2 : Value ad elist) : Value ad elist :=
  default ERROR (fst <$> doLogical old op v1 v2).
Definition logical_operand (v : Value ad elist) : Prop := is_logical (to_boolean old v) = true.

(** The four truth values and their connectives. *)
Inductive truth := TT | FF | UU | EE.
Definition truth_op (op : OpKind) (a b : truth) : truth :=
  match op, a, b with
  | LOGICAL_NOT_OP, TT, _ => FF
  | LOGICAL_NOT_OP, FF, _ => TT
  | LOGICAL_NOT_OP, _, _ => a
  | LOGICAL_AND_OP, (FF | EE), _ => a
  | LOGICAL_AND_OP, UU, TT => UU
  | LOGICAL_OR_OP, (TT | EE), _ => a
  | LOGICAL_OR_OP, UU, FF => UU
  | _, _, _ => b
  end.
Definition val (t : truth) : Value ad elist :=
  match t with TT => BOOLEAN true | FF => BOOLEAN false | UU => UNDEFINED | EE => ERROR end.
Definition truth_of (v : Value ad elist) : truth :=
  match to_boolean old v with
  | BOOLEAN true => TT | BOOLEAN false => FF | UNDEFINED => UU | _ => EE
  end.

Lemma truth_of_val t : truth_of (val t) = t.
Proof. by destruct t. Qed.
Lemma val_logical t : logical_operand (val t).
Proof. by destruct t. Qed.
Lemma val_truth_of v : logical_operand v → val (truth_of v) = to_boolean old v.
Proof. unfold logical_operand, truth_of. by destruct (to_boolean old v) as [| |[]| | | | | | | |]. Qed.
Lemma truth_of_error v : logical_operand v → v ≠ ERROR → truth_of v ≠ EE.
Proof. unfold logical_operand, truth_of, to_boolean. by destruct v as [| |[]| | | | | | | |], old; simpl; try case_match. Qed.

Lemma logic_truth op v1 v2 :
  is_logic op = true → logical_operand v1 → logical_operand v2 →
  logic op v1 v2 = val (truth_op op (truth_of v1) (truth_of v2)).
Proof.
  unfold logic, doLogical, truth_of, logical_operand. intros Hop H1 H2.
  destruct (to_boolean old v1) as [| |[]| | | | | | | |]; try discriminate;
    destruct (to_boolean old v2) as [| |[]| | | | | | | |]; try discriminate; by destruct op.
Qed.

Lemma logic_logical op v1 v2 :
  is_logic op = true → logical_operand v1 → logical_operand v2 → logical_operand (logic op v1 v2).
Proof. intros. rewrite logic_truth by done. apply val_logical. Qed.
End Logic.

(** On Boolean, undefined and error operands (numbers too, with the old
    semantics) the connectives obey the laws that rewriting relies on: De
    Morgan, associativity and double negation always; commutativity,
    distributivity and absorption when no operand is an error.  False decides
    a conjunction and true a disjunction from either side of undefined, and an
    error on the left is the result. *)
Theorem logic_laws {ad elist} old (v1 v2 v3 : Value ad elist) :
  logical_operand old v1 → logical_operand old v2 → logical_operand old v3 →
  let not v := logic old LOGICAL_NOT_OP v UNDEFINED in
  let and := logic old LOGICAL_AND_OP in
  let or := logic old LOGICAL_OR_OP in
  not (and v1 v2) = or (not v1) (not v2) ∧ not (or v1 v2) = and (not v1) (not v2) ∧
  and v1 (and v2 v3) = and (and v1 v2) v3 ∧ or v1 (or v2 v3) = or (or v1 v2) v3 ∧
  not (not v1) = to_boolean old v1 ∧
  and UNDEFINED (BOOLEAN false) = BOOLEAN false ∧ or UNDEFINED (BOOLEAN true) = BOOLEAN true ∧
  and ERROR v1 = ERROR ∧ or ERROR v1 = ERROR ∧
  (v1 ≠ ERROR → v2 ≠ ERROR → v3 ≠ ERROR →
   and v1 v2 = and v2 v1 ∧ or v1 v2 = or v2 v1 ∧
   and v1 (or v2 v3) = or (and v1 v2) (and v1 v3) ∧
   or v1 (and v2 v3) = and (or v1 v2) (or v1 v3) ∧
   and v1 (or v1 v2) = to_boolean old v1 ∧ or v1 (and v1 v2) = to_boolean old v1).
Proof.
  intros H1 H2 H3. cbv zeta.
  assert (logical_operand old (UNDEFINED : Value ad elist)) as HU by done.
  assert (logical_operand old (ERROR : Value ad elist)) as HE by done.
  assert (∀ b, logical_operand old (BOOLEAN b : Value ad elist)) as HB by done.
  rewrite <- !val_truth_of by done. rewrite !logic_truth by auto 6 using val_logical, logic_logical.
  rewrite !truth_of_val.
  pose proof (truth_of_error old v1 H1). pose proof (truth_of_error old v2 H2).
  pose proof (truth_of_error old v3 H3).
  destruct (truth_of old v1), (truth_of old v2), (truth_of old v3); split_and!; try done;
    intros He1 He2 He3; specialize (H He1); specialize (H0 He2); specialize (H4 He3); split_and!; done.
Qed.

Lemma logic_laws_witness :
  logic (ad:=unit) (elist:=unit) true LOGICAL_AND_OP (INTEGER 0) (logic true LOGICAL_AND_OP UNDEFINED ERROR)
  = logic true LOGICAL_AND_OP (logic true LOGICAL_AND_OP (INTEGER 0) UNDEFINED) ERROR.
Proof.
  exact (proj1 (proj2 (proj2 (logic_laws (ad:=unit) (elist:=unit) true (INTEGER 0) UNDEFINED ERROR
    eq_refl eq_refl eq_refl)))).
Defined.

(** *** Two evaluators *)

Section Evaluators.
Context {ad elist leaf : Type}.
Variable old : bool.
Variable EvaluateAttr : ad → cstr → option (Value ad elist).
Variable CurrentValue : elist → Z → option (option (Value ad elist)).
Variable eval_leaf : leaf → bool * Value ad elist.

(** The value that the evaluation with a significant tree gives: it evaluates
    all the children first. *)
Fixpoint EvaluateSig (e : ExprTree leaf) : option (bool * Value ad elist) :=
  let op1 op c :=
    '(ok, v1) ← EvaluateSig c;
    if negb ok then Some (false, ERROR)
    else finish (_doOperation old EvaluateAttr CurrentValue op v1 UNDEFINED UNDEFINED true false false) in
  match e with
  | Leaf l => Some (eval_leaf l)
  | OperationParens c => op1 PARENTHESES_OP c
  | Operation1 op c => op1 op c
  | Operation2 op c1 c2 =>
      '(ok, v1) ← EvaluateSig c1;
      if negb ok then Some (false, ERROR) else
      '(ok, v2) ← EvaluateSig c2;
      if negb ok then Some (false, ERROR)
      else finish (_doOperation old EvaluateAttr CurrentValue op v1 v2 UNDEFINED true true false)
  | Operation3 c1 c2 c3 =>
      '(ok, v1) ← EvaluateSig c1;
      if negb ok then Some (false, ERROR) else
      '(ok, v2) ← EvaluateSig c2;
      if negb ok then Some (false, ERROR) else
      '(ok, v3) ← EvaluateSig c3;
      if negb ok then Some (false, ERROR)
      else finish (_doOperation old EvaluateAttr CurrentValue TERNARY_OP v1 v2 v3 true true true)
  end.

(** The right operands of the connectives are logical values. *)
Fixpoint logical_rights (e : ExprTree leaf) : Prop :=
  match e with
  | Leaf _ => True
  | OperationParens c | Operation1 _ c => logical_rights c
  | Operation2 op c1 c2 =>
      logical_rights c1 ∧ logical_rights c2 ∧
      (is_logic op = true → ∀ v, EvaluateSig c2 = Some (true, v) → logical_operand old v)
  | Operation3 c1 c2 c3 => logical_rights c1 ∧ logical_rights c2 ∧ logical_rights c3
  end.

Abbreviation Eval := (Evaluate old EvaluateAttr CurrentValue eval_leaf).

(** What short-circuiting skips does not matter. *)
Lemma shortCircuit_ok op v1 v2 v :
  shortCircuit old op v1 = Some v → logical_operand old v2 →
  _doOperation old EvaluateAttr CurrentValue op v1 v2 UNDEFINED true true false = Some (v, SIG_CHLD1).
Proof.
  unfold shortCircuit, logical_operand. intros Hs Hl.
  assert (∃ b, IsBooleanValueEquiv old v1 = Some b) as [b Hb].
  { destruct (IsBooleanValueEquiv old v1); [eauto|]. by destruct op. }
  rewrite Hb in Hs. destruct op, b; simplify_eq; simpl; unfold doLogical, to_boolean in *; rewrite Hb; simpl;
    by rewrite Hl.
Qed.

Lemma finish_true r v : finish (ad:=ad) (elist:=elist) r = Some (true, v) → ∃ sig, r = Some (v, sig).
Proof. destruct r as [[w sig]|]; simpl; [|done]. intros [= _ <-]. eauto. Qed.

Lemma Evaluate_Sig e : ∀ v, logical_rights e → EvaluateSig e = Some (true, v) → Eval e = Some (true, v).
Proof.
  induction e as [l|c IH|op c IH|op c1 IH1 c2 IH2|c1 IH1 c2 IH2 c3 IH3]; intros v Hlr Hs.
  - done.
  - cbn -[_doOperation] in *. destruct (EvaluateSig c) as [[[] v1]|]; [|done|done].
    by rewrite (IH v1 Hlr eq_refl).
  - cbn -[_doOperation] in *. destruct (EvaluateSig c) as [[[] v1]|]; [|done|done].
    by rewrite (IH v1 Hlr eq_refl).
  - cbn -[_doOperation] in *. destruct Hlr as (Hl1 & Hl2 & Hl).
    destruct (EvaluateSig c1) as [[[] v1]|]; [|done|done].
    destruct (EvaluateSig c2) as [[[] v2]|]; [|done|done].
    rewrite (IH1 v1 Hl1 eq_refl). cbn -[_doOperation]. destruct (shortCircuit old op v1) as [w|] eqn:Hsc.
    + assert (is_logic op = true) as Hop by (by destruct op; simplify_eq/=).
      cbn -[_doOperation] in Hs. rewrite (shortCircuit_ok op v1 v2 w Hsc (Hl Hop v2 eq_refl)) in Hs.
      by simplify_eq/=.
    + by rewrite (IH2 v2 Hl2 eq_refl).
  - cbn -[_doOperation] in *. destruct Hlr as (Hl1 & Hl2 & Hl3).
    destruct (EvaluateSig c1) as [[[] v1]|]; [|done|done].
    destruct (EvaluateSig c2) as [[[] v2]|]; [|done|done].
    destruct (EvaluateSig c3) as [[[] v3]|]; [|done|done].
    rewrite (IH1 v1 Hl1 eq_refl). cbn -[_doOperation] in *.
    rewrite (IH2 v2 Hl2 eq_refl), (IH3 v3 Hl3 eq_refl). cbn -[_doOperation].
    destruct (IsBooleanValueEquiv old v1) as [b|] eqn:Hb; [|done].
    assert (has_type v1 UNDEFINED_VALUE = false) as Hu by (by destruct v1).
    cbn in Hs. rewrite Hu, Hb in Hs.
    destruct b; [rewrite (IH2 v2 Hl2 eq_refl)|rewrite (IH3 v3 Hl3 eq_refl)]; by simplify_eq/=.
Qed.
End Evaluators.

(** C36. Short-circuiting is an optimization: where the evaluation of all the
    children of every node succeeds, and the right operands of the connectives
    evaluate to Booleans, undefined or error (or numbers with the old semantics), the
    evaluation that skips children gives the same value.  With another right operand it may
    not ([evaluators_disagree]). *)
Theorem Evaluate_agrees {ad elist leaf} old (EvaluateAttr : ad → cstr → option (Value ad elist))
    (CurrentValue : elist → Z → option (option (Value ad elist)))
    (eval_leaf : leaf → bool * Value ad elist) e v :
  logical_rights old EvaluateAttr CurrentValue eval_leaf e →
  EvaluateSig old EvaluateAttr CurrentValue eval_leaf e = Some (true, v) →
  Evaluate old EvaluateAttr CurrentValue eval_leaf e = Some (true, v).
Proof. apply Evaluate_Sig. Qed.

(** Expressions whose leaves are literals. *)
Abbreviation lit_tree := (ExprTree (Value unit unit)).
Definition literal (v : Value unit unit) : bool * Value unit unit := (true, v).
Abbreviation eval_lit old := (Evaluate old (ad:=unit) (elist:=unit) (fun _ _ => None) (fun _ _ => None) literal).
Abbreviation eval_lit_sig old := (EvaluateSig old (ad:=unit) (elist:=unit) (fun _ _ => None) (fun _ _ => None) literal).

Lemma Evaluate_agrees_witness :
  eval_lit false (Operation2 LOGICAL_OR_OP (Operation2 LESS_THAN_OP (Leaf (INTEGER 1)) (Leaf (INTEGER 2)))
    (Leaf UNDEFINED)) = Some (true, BOOLEAN true).
Proof.
  apply Evaluate_agrees; [|reflexivity].
  simpl. repeat split; try discriminate; intros _ v [= <-]; reflexivity.
Defined.

(** The two evaluators disagree when the right operand of a decided
    connective is not logical: [true || "abc"] is true for the one that
    short-circuits and an error for the one that computes the significant
    tree. *)
Theorem evaluators_disagree :
  let e : lit_tree := Operation2 LOGICAL_OR_OP (Leaf (BOOLEAN true)) (Leaf (STRING (L "abc"))) in
  eval_lit false e = Some (true, BOOLEAN true) ∧ eval_lit_sig false e = Some (true, ERROR).
Proof. done. Qed.

(** *** Comparison *)

Lemma SFeqb_sym r1 r2 : SFeqb r2 r1 = SFeqb r1 r2.
Proof.
  unfold SFeqb, SFcompare. destruct r1 as [[]|[]| |[] m1 e1], r2 as [[]|[]| |[] m2 e2]; try done.
  all: rewrite (Z.compare_antisym e1 e2); destruct (e1 ?= e2) eqn:E; simpl; try done.
  all: change (Pos.compare_cont Eq m1 m2) with (m1 ?= m2)%positive;
    change (Pos.compare_cont Eq m2 m1) with (m2 ?= m1)%positive;
    rewrite (Pos.compare_antisym m1 m2); by destruct (m1 ?= m2)%positive.
Qed.

Lemma SFleb_split r1 r2 : SFleb r1 r2 = SFltb r1 r2 || SFeqb r1 r2.
Proof. unfold SFleb, SFltb, SFeqb. by destruct (SFcompare r1 r2) as [[]|]. Qed.

Section Comparison.
Context {ad elist : Type}.
Definition cmp (op : OpKind) (v1 v2 : Value ad elist) : option (Value ad elist) :=
  fst <$> doComparison op v1 v2.

(** The six results of a comparison, and two of the opposite one. *)
Definition ordered (v1 v2 : Value ad elist) : Prop :=
  ∃ lt eq gt : bool,
    cmp LESS_THAN_OP v1 v2 = Some (BOOLEAN lt) ∧ cmp EQUAL_OP v1 v2 = Some (BOOLEAN eq) ∧
    cmp GREATER_THAN_OP v1 v2 = Some (BOOLEAN gt) ∧
    cmp LESS_OR_EQUAL_OP v1 v2 = Some (BOOLEAN (lt || eq)) ∧
    cmp GREATER_OR_EQUAL_OP v1 v2 = Some (BOOLEAN (gt || eq)) ∧
    cmp NOT_EQUAL_OP v1 v2 = Some (BOOLEAN (negb eq)) ∧
    cmp LESS_THAN_OP v2 v1 = Some (BOOLEAN gt) ∧ cmp EQUAL_OP v2 v1 = Some (BOOLEAN eq).
Definition all_errors (v1 v2 : Value ad elist) : Prop :=
  ∀ op, is_order op = true → cmp op v1 v2 = Some ERROR.

Lemma switch_ordered (v1 v2 : Value ad elist) (lt eq gt : bool) :
  (∀ op, is_order op = true → cmp op v1 v2 = compare_switch op lt (lt || eq) eq gt (gt || eq)) →
  (∀ op, is_order op = true → cmp op v2 v1 = compare_switch op gt (gt || eq) eq lt (lt || eq)) →
  ordered v1 v2.
Proof. intros H1 H2. exists lt, eq, gt. by rewrite !H1, !H2. Qed.

Lemma ints_switch op i1 i2 :
  compareIntegers (ad:=ad) (elist:=elist) op i1 i2 =
  compare_switch op (i1 <? i2) ((i1 <? i2) || (i1 =? i2)) (i1 =? i2) (i2 <? i1) ((i2 <? i1) || (i1 =? i2)).
Proof. unfold compareIntegers. f_equal; lia. Qed.

Lemma ints_switch_swap op i1 i2 :
  compareIntegers (ad:=ad) (elist:=elist) op i2 i1 =
  compare_switch op (i2 <? i1) ((i2 <? i1) || (i1 =? i2)) (i1 =? i2) (i1 <? i2) ((i1 <? i2) || (i1 =? i2)).
Proof. unfold compareIntegers. f_equal; lia. Qed.

Lemma reals_switch op r1 r2 :
  compareReals (ad:=ad) (elist:=elist) op r1 r2 =
  compare_switch op (SFltb r1 r2) (SFltb r1 r2 || SFeqb r1 r2) (SFeqb r1 r2) (SFltb r2 r1) (SFltb r2 r1 || SFeqb r1 r2).
Proof. unfold compareReals. rewrite !SFleb_split. by rewrite (SFeqb_sym r1 r2). Qed.

Lemma reals_switch_swap op r1 r2 :
  compareReals (ad:=ad) (elist:=elist) op r2 r1 =
  compare_switch op (SFltb r2 r1) (SFltb r2 r1 || SFeqb r1 r2) (SFeqb r1 r2) (SFltb r1 r2) (SFltb r1 r2 || SFeqb r1 r2).
Proof. unfold compareReals. rewrite !SFleb_split. by rewrite (SFeqb_sym r1 r2). Qed.

Definition strings_lt (s1 s2 : cstr) : bool := match strcasecmp s1 s2 with Lt => true | _ => false end.
Definition strings_eq (s1 s2 : cstr) : bool := match strcasecmp s1 s2 with Eq => true | _ => false end.

Ltac via_ints i1 i2 :=
  apply (switch_ordered _ _ (i1 <? i2) (i1 =? i2) (i2 <? i1)); intros op Hop;
  [rewrite <- ints_switch|rewrite <- ints_switch_swap]; by destruct op.
Ltac via_reals r1 r2 :=
  apply (switch_ordered _ _ (SFltb r1 r2) (SFeqb r1 r2) (SFltb r2 r1)); intros op Hop;
  [rewrite <- reals_switch|rewrite <- reals_switch_swap]; by destruct op.

(** Two values are comparable, or every comparison of them is an error. *)
Lemma cmp_ordered (v1 v2 : Value ad elist) :
  IsExceptional v1 = false → IsExceptional v2 = false → all_errors v1 v2 ∨ ordered v1 v2.
Proof.
  intros E1 E2. unfold all_errors, cmp.
  destruct v1 as [| |b1| | | | | | | |]; try discriminate; destruct v2 as [| |b2| | | | | | | |]; try discriminate.
  all: try (left; intros op Hop; by destruct op).
  all: right.
  - via_ints (if b1 then 1 else 0) (if b2 then 1 else 0).
  - via_ints (if b1 then 1 else 0) i.
  - via_reals (real_of_int (if b1 then 1 else 0)) r.
  - via_ints i (if b2 then 1 else 0).
  - via_ints i i0.
  - via_reals (real_of_int i) r.
  - via_reals r (real_of_int (if b2 then 1 else 0)).
  - via_reals r (real_of_int i).
  - via_reals r r0.
  - via_reals secs secs0.
  - via_ints secs secs0.
  - apply (switch_ordered _ _ (strings_lt s s0) (strings_eq s s0) (strings_lt s0 s)); intros op Hop;
      unfold cmp, doComparison; simpl; unfold compareStrings, strings_lt, strings_eq, strcasecmp;
      rewrite (strcmp_antisym (tolower <$> s) (tolower <$> s0)); destruct (strcmp _ _); by destruct op.
Qed.

(** Types on which [=?=] gives up. *)
Definition opaque_type (v : Value ad elist) : bool := IsListValue v || has_type v CLASSAD_VALUE.

Lemma meta_bool (v1 v2 : Value ad elist) :
  GetType v1 ≠ GetType v2 ∨ opaque_type v1 = false →
  ∃ b, cmp META_EQUAL_OP v1 v2 = Some (BOOLEAN b) ∧ cmp META_NOT_EQUAL_OP v1 v2 = Some (BOOLEAN (negb b)).
Proof.
  intros Ht. unfold cmp, doComparison.
  destruct v1, v2; try (exists false; split; reflexivity); try (exists true; split; reflexivity);
    try (eexists; split; reflexivity).
  all: try (exfalso; destruct Ht as [Ht|Ht]; [by apply Ht|discriminate Ht]).
  exists (match strcmp s s0 with Eq => true | _ => false end). simpl. unfold compareStrings.
  by destruct (strcmp s s0).
Qed.
End Comparison.

(** [=?=] and [=!=] always give opposite Booleans, never undefined or an
    error, except for two ads or two lists of one kind.  The six other
    comparisons of two values that are neither undefined nor errors are either all
    errors or coherent: [<=] is [<] or [==], [>=] is [>] or [==], [!=] is the
    opposite of [==], and exchanging the operands exchanges [<] and [>], also
    when numbers of different types are promoted and for numbers that are not
    ordered. *)
Theorem comparison_laws {ad elist} (v1 v2 : Value ad elist) :
  (GetType v1 ≠ GetType v2 ∨ opaque_type v1 = false →
   ∃ b, cmp META_EQUAL_OP v1 v2 = Some (BOOLEAN b) ∧ cmp META_NOT_EQUAL_OP v1 v2 = Some (BOOLEAN (negb b))) ∧
  (IsExceptional v1 = false → IsExceptional v2 = false → all_errors v1 v2 ∨ ordered v1 v2).
Proof. split; [apply meta_bool|apply cmp_ordered]. Qed.

(** An integer above the range of exact doubles, and a double. *)
Lemma comparison_laws_witness :
  ordered (INTEGER (2 ^ 53 + 1)) (REAL (real_of_int (2 ^ 53)) : Value unit unit).
Proof.
  destruct (proj2 (comparison_laws (INTEGER (2 ^ 53 + 1)) (REAL (real_of_int (2 ^ 53)) : Value unit unit))
    eq_refl eq_refl) as [He|Ho]; [|exact Ho].
  exfalso. specialize (He EQUAL_OP eq_refl). vm_compute in He. discriminate He.
Defined.

(** [=?=] is documented to hold only between values of one type; it holds
    between numbers and Booleans of different types, since they are promoted
    before the types are compared. *)
Theorem meta_equal_promotes :
  cmp META_EQUAL_OP (INTEGER 1) (REAL (real_of_int 1) : Value unit unit) = Some (BOOLEAN true) ∧
  cmp META_EQUAL_OP (BOOLEAN true) (INTEGER 1 : Value unit unit) = Some (BOOLEAN true).
Proof. done. Qed.

(** *** Shifts *)

(** The bits below the sign of a negative number shifted right once. *)
Lemma ushift_value i : - 2 ^ 63 ≤ i < 0 →
  Z.land (Z.shiftr i 1) (Z.lnot signMask) = Z.shiftr (i mod 2 ^ 64) 1.
Proof.
  intros Hi. change (Z.lnot signMask) with (Z.ones 63). rewrite Z.land_ones by lia.
  rewrite !Z.shiftr_div_pow2 by lia. Z.div_mod_to_equations. lia.
Qed.

(** The shifts are the arithmetic and the logical shift of 64-bit integers:
    the loop that shifts a negative number one position at a time, for any
    count, and the shift that first clears the sign bit. *)
Theorem shifts_spec {ad elist} i n :
  in_int64 i → 1 ≤ n < 64 →
  doBitwise (ad:=ad) (elist:=elist) RIGHT_SHIFT_OP (INTEGER i) (INTEGER n) =
    Some (INTEGER (Z.shiftr i n), SIG_BOTH) ∧
  doBitwise (ad:=ad) (elist:=elist) URIGHT_SHIFT_OP (INTEGER i) (INTEGER n) =
    Some (INTEGER (Z.shiftr (i mod 2 ^ 64) n), SIG_BOTH) ∧
  doBitwise (ad:=ad) (elist:=elist) LEFT_SHIFT_OP (INTEGER i) (INTEGER n) =
    Some (INTEGER (int64 (i * 2 ^ n)), SIG_BOTH).
Proof.
  intros Hi Hn. unfold in_int64 in Hi.
  assert (∀ z, shift_right z n = Some (Z.shiftr z n)) as Hr.
  { intros z. unfold shift_right. by rewrite (proj2 (Z.leb_le 0 n)), (proj2 (Z.ltb_lt n 64)) by lia. }
  split_and!; cbn -[Z.iter Z.modulo shift_right Z.pow].
  - destruct (Z.leb_spec 0 i); [by rewrite Hr|]. by rewrite sign_shift_iter by lia.
  - destruct (Z.leb_spec 0 i); [rewrite Hr, Z.mod_small by lia; done|].
    rewrite ushift_value, int64_id by (unfold in_int64; lia). unfold shift_right.
    rewrite (proj2 (Z.leb_le 0 (n - 1))), (proj2 (Z.ltb_lt (n - 1) 64)) by lia.
    cbn -[Z.modulo Z.pow]. rewrite Z.shiftr_shiftr by lia. by replace (1 + (n - 1)) with n by lia.
  - unfold shift_left. rewrite (proj2 (Z.leb_le 0 n)), (proj2 (Z.ltb_lt n 64)) by lia.
    by rewrite Z.shiftl_mul_pow2 by lia.
Qed.

Lemma shifts_spec_witness :
  doBitwise (ad:=unit) (elist:=unit) URIGHT_SHIFT_OP (INTEGER (-1)) (INTEGER 60) =
    Some (INTEGER 15, SIG_BOTH).
Proof.
  rewrite (proj1 (proj2 (shifts_spec (-1) 60 ltac:(split; vm_compute; congruence) ltac:(lia)))).
  reflexivity.
Defined.

(** Unary minus of a Boolean is computed and then replaced by an error. *)
Theorem minus_boolean_error :
  doArithmetic UNARY_MINUS_OP (BOOLEAN true) (UNDEFINED : Value unit unit) = Some (ERROR, SIG_CHLD1).
Proof. done. Qed.

(** Only the positive infinity counts as an overflow. *)
Theorem negative_overflow_unnoticed :
  let zero := real_of_int 0 in
  doArithmetic DIVISION_OP (REAL (real_of_int 1)) (REAL zero : Value unit unit) = Some (ERROR, SIG_BOTH) ∧
  doArithmetic DIVISION_OP (REAL (real_of_int (-1))) (REAL zero : Value unit unit) =
    Some (REAL (S754_infinity true), SIG_BOTH).
Proof. done. Qed.
