(* ===== verification/ClassAdLexer.v ===== *)
(** * Tokens of the ClassAd language

    The class [Lexer] of [classad/lexer.cpp] on a source that is a string, with
    [convert_escapes] of [classad/util.cpp].  The lexer stands on the character [ch]
    that it has read: its cursor is the text that starts there.  The source ends at the
    end of the string or in front of its first NUL.

    Numbers of the C library: [strtoll] saturates at 64 bits, and [strtod] rounds to the
    nearest binary64 number. *)

From Stdlib Require Import ZArith Lia Ascii SpecFloat.
From stdpp Require Import base list strings.
From S2P Require Import Operators Prelude.
Open Scope Z_scope.

Inductive NumberFactor := NO_FACTOR | B_FACTOR | K_FACTOR | M_FACTOR | G_FACTOR | T_FACTOR.
#[export] Instance NumberFactor_eq : EqDecision NumberFactor.
Proof. solve_decision. Defined.

(** The types of tokens that carry no value and that the lexer can give. *)
Inductive TokenType :=
| LEX_END_OF_INPUT | LEX_TOKEN_ERROR | LEX_UNDEFINED_VALUE | LEX_ERROR_VALUE | LEX_SELECTION
| LEX_MULTIPLY | LEX_DIVIDE | LEX_MODULUS | LEX_PLUS | LEX_MINUS
| LEX_BITWISE_AND | LEX_BITWISE_OR | LEX_BITWISE_NOT | LEX_BITWISE_XOR
| LEX_LEFT_SHIFT | LEX_RIGHT_SHIFT | LEX_URIGHT_SHIFT | LEX_LOGICAL_AND | LEX_LOGICAL_OR | LEX_LOGICAL_NOT
| LEX_LESS_THAN | LEX_LESS_OR_EQUAL | LEX_GREATER_THAN | LEX_GREATER_OR_EQUAL
| LEX_EQUAL | LEX_NOT_EQUAL | LEX_META_EQUAL | LEX_META_NOT_EQUAL | LEX_BOUND_TO
| LEX_QMARK | LEX_COLON | LEX_COMMA | LEX_SEMICOLON
| LEX_OPEN_BOX | LEX_CLOSE_BOX | LEX_OPEN_PAREN | LEX_CLOSE_PAREN | LEX_OPEN_BRACE | LEX_CLOSE_BRACE.
#[export] Instance TokenType_eq : EqDecision TokenType.
Proof. solve_decision. Defined.
(** A token with its value. *)
Inductive token :=
| Tok (tt : TokenType)
| LEX_INTEGER_VALUE (z : Z) (f : NumberFactor)
| LEX_REAL_VALUE (r : double) (f : NumberFactor)
| LEX_BOOLEAN_VALUE (b : bool)
| LEX_STRING_VALUE (s : cstr)
| LEX_IDENTIFIER (s : cstr).

(** ** Characters and numbers *)

Definition isxdigit (c : ascii) : bool :=
  let n := nat_of_ascii c in is_digit c || ((97 <=? n) && (n <=? 102) || (65 <=? n) && (n <=? 70))%nat.
Definition isodigit (c : ascii) : bool := let n := nat_of_ascii c in ((48 <=? n) && (n <=? 55))%nat.
Definition xdigit_val (c : ascii) : Z := if is_digit c then digit_val c else Z.of_nat (nat_of_ascii (tolower c)) - 87.
Definition ident_char (c : ascii) : bool := isalnum c || (c =c "_"%char).
(** A test of [ch], which is -1 at the end. *)
Definition at_ch (f : ascii → bool) (s : cstr) : bool := match s with c :: _ => f c | [] => false end.
Definition wind (s : cstr) : cstr := tail s.
(** What was accumulated between [mark] and [cut]. *)
Definition lexBuffer (start rest : cstr) : cstr := take (length start - length rest) start.

Definition split_sign (s : cstr) : bool * cstr :=
  match s with c :: r => if c =c "-"%char then (true, r) else if c =c "+"%char then (false, r) else (false, s) | [] => (false, []) end.
Definition base_value (base : Z) (s : cstr) : Z := foldl (fun n c => base * n + xdigit_val c) 0 s.
Fixpoint take_while (f : ascii → bool) (s : cstr) : cstr :=
  match s with c :: r => if f c then c :: take_while f r else [] | [] => [] end.
(** [strtoll], with base 10, or with base 0 when [any_base] holds. *)
Definition strtoll (any_base : bool) (s : cstr) : Z :=
  let '(neg, s) := split_sign s in
  let z := match s with
           | c :: x :: d :: r => if any_base && (c =c "0"%char) && (tolower x =c "x"%char) && isxdigit d then base_value 16 (take_while isxdigit (d :: r))
                                 else if any_base && (c =c "0"%char) then base_value 8 (take_while isodigit s) else digits_value (take_digits s)
           | c :: _ => if any_base && (c =c "0"%char) then base_value 8 (take_while isodigit s) else digits_value (take_digits s)
           | [] => 0
           end in
  let z := if neg : bool then - z else z in
  Z.max (- 2 ^ 63) (Z.min (2 ^ 63 - 1) z).

(** The double nearest to [m * 10^e]: enough bits of the quotient, and one more that says
    whether the division leaves a remainder. *)
Definition double_of_decimal (neg : bool) (m e : Z) : double :=
  let sg z := if neg then - z else z in
  if m =? 0 then S754_zero neg
  else if 0 <=? e then binary_normalize 53 1024 (sg (m * 10 ^ e)) 0 neg
  else
    let d := 10 ^ (- e) in
    let k := Z.max 0 (64 + Z.log2 d - Z.log2 m) in
    let q := Z.shiftl m k / d in
    let sticky := if Z.shiftl m k mod d =? 0 then 0 else 1 in
    binary_normalize 53 1024 (sg (2 * q + sticky)) (- (k + 1)) neg.
Definition decimal_float (neg : bool) (s : cstr) : double :=
  let whole := take_digits s in
  let s := drop (length whole) s in
  let frac := match s with c :: r => if c =c "."%char then take_digits r else [] | [] => [] end in
  let s := match s with c :: r => if c =c "."%char then drop (length frac) r else s | [] => [] end in
  let e := match s with c :: r => if tolower c =c "e"%char then from_option fst 0 (parse_int r) else 0 | [] => 0 end in
  if bool_decide (whole ++ frac = []) then S754_zero false
  else double_of_decimal neg (digits_value (whole ++ frac)) (e - Z.of_nat (length frac)).
(** Hexadecimal digits with an optional fraction and a power of 2; [s] is behind the
    0x.  Without a digit only the 0 is a number. *)
Definition hex_float (neg : bool) (s : cstr) : double :=
  let whole := take_while isxdigit s in
  let s := drop (length whole) s in
  let frac := match s with c :: r => if c =c "."%char then take_while isxdigit r else [] | [] => [] end in
  let s := match s with c :: r => if c =c "."%char then drop (length frac) r else s | [] => [] end in
  let e := match s with c :: r => if tolower c =c "p"%char then from_option fst 0 (parse_int r) else 0 | [] => 0 end in
  if bool_decide (whole ++ frac = []) then S754_zero neg
  else
    let m := base_value 16 (whole ++ frac) in
    if m =? 0 then S754_zero neg
    else binary_normalize 53 1024 (if neg then - m else m) (e - 4 * Z.of_nat (length frac)) neg.
Definition strtod (s : cstr) : double :=
  let '(neg, s) := split_sign s in
  match s with
  | c :: x :: r => if (c =c "0"%char) && (tolower x =c "x"%char) then hex_float neg r else decimal_float neg s
  | _ => decimal_float neg s
  end.

(** ** White space and comments *)

Fixpoint skip_line (s : cstr) : cstr := match s with c :: r => if (c =c NL) || (c =c NUL) then s else skip_line r | [] => [] end.
(** The end of a comment; at the end of the input the loop goes on for ever. *)
Fixpoint skip_comment (oldCh : ascii) (s : cstr) : outcome cstr :=
  match s with
  | [] => Running
  | c :: r => if c =c NUL then Running else if (oldCh =c "*"%char) && (c =c "/"%char) then Ok r else skip_comment c r
  end.
(** The Boolean tells whether a division operator was read. *)
Fixpoint skip_blank (fuel : nat) (s : cstr) : outcome (bool * cstr) :=
  match fuel with
  | O => Running
  | S fuel =>
      match s with
      | [] => Ok (false, [])
      | c :: r =>
          if isspace c then skip_blank fuel r
          else if c =c "/"%char then
            if at_ch (fun d => d =c "/"%char) r then skip_blank fuel (skip_line r)
            else if at_ch (fun d => d =c "*"%char) r then s ← skip_comment NL (wind r); skip_blank fuel s
            else Ok (true, r)
          else Ok (false, s)
      end
  end.

(** ** Numbers *)

Inductive number_type := NONE | INTEGER | REAL.
(** The digits behind a leading zero. *)
Fixpoint octal_digits (numberType : number_type) (s : cstr) : number_type * cstr :=
  match s with
  | c :: r => if is_digit c then octal_digits (if at_ch isodigit r then numberType else REAL) r else (numberType, s)
  | [] => (numberType, [])
  end.
Definition dot_or_e (s : cstr) : bool := at_ch (fun c => (c =c "."%char) || (tolower c =c "e"%char)) s.
(** The part before a dot or exponent; [None] is an error. *)
Definition number_head (och : ascii) (s : cstr) : option number_type * cstr :=
  if och =c "0"%char then
    if at_ch (fun c => tolower c =c "x"%char) s then
      let s := wind s in if at_ch isxdigit s then (Some INTEGER, skip_while isxdigit s) else (None, s)
    else
      let '(numberType, s) := octal_digits INTEGER s in
      if dot_or_e s then (Some REAL, s) else match numberType with REAL => (None, s) | _ => (Some numberType, s) end
  else if is_digit och then
    let s := skip_while is_digit s in (Some (if dot_or_e s then REAL else INTEGER), s)
  else (Some NONE, s).
(** The fraction; [inl] is a token. *)
Definition number_fraction (och : ascii) (numberType : number_type) (s : cstr) : (token + number_type) * cstr :=
  if (och =c "."%char) || at_ch (fun c => c =c "."%char) s then
    let s := if at_ch (fun c => c =c "."%char) s then wind s else s in
    if at_ch is_digit s then (inr REAL, skip_while is_digit s)
    else (inl (Tok (match numberType with NONE => LEX_SELECTION | _ => LEX_TOKEN_ERROR end)), s)
  else (inr numberType, s).
(** The exponent; the Boolean is false on an error. *)
Definition number_exponent (numberType : number_type) (s : cstr) : bool * cstr :=
  match numberType with
  | REAL =>
      if at_ch (fun c => tolower c =c "e"%char) s then
        let s := wind s in
        let s := if at_ch (fun c => (c =c "+"%char) || (c =c "-"%char)) s then wind s else s in
        (at_ch is_digit s, skip_while is_digit s)
      else (true, s)
  | _ => (true, s)
  end.
Definition number_factor (s : cstr) : NumberFactor * cstr :=
  match s with
  | c :: r =>
      let c := tolower c in
      if c =c "b"%char then (B_FACTOR, r) else if c =c "k"%char then (K_FACTOR, r) else if c =c "m"%char then (M_FACTOR, r)
      else if c =c "g"%char then (G_FACTOR, r) else if c =c "t"%char then (T_FACTOR, r) else (NO_FACTOR, s)
  | [] => (NO_FACTOR, [])
  end.

Section Lexer.
(** [_useOldClassAdSemantics] *)
Context (old : bool).

Definition number_tail (start : cstr) (och : ascii) (s : cstr) : outcome (token * cstr) :=
  let '(head, s) := number_head och s in
  match head with
  | None => Ok (Tok LEX_TOKEN_ERROR, s)
  | Some numberType =>
      let '(part, s) := number_fraction och numberType s in
      match part with
      | inl t => Ok (t, s)
      | inr numberType =>
          let '(valid, s) := number_exponent numberType s in
          if negb valid then Ok (Tok LEX_TOKEN_ERROR, s)
          else
            let text := lexBuffer start s in
            let '(f, s) := number_factor s in
            match numberType with
            | INTEGER => Ok (LEX_INTEGER_VALUE (strtoll (negb old) text) f, s)
            | REAL => Ok (LEX_REAL_VALUE (strtod text) f, s)
            | NONE => Excepted
            end
      end
  end.
Definition tokenizeNumber (s : cstr) : outcome (token * cstr) :=
  match s with
  | [] => Excepted
  | och :: r =>
      if och =c "-"%char then
        match r with
        | d :: r' =>
            if is_digit d then number_tail s d r'
            else if (d =c "."%char) && at_ch is_digit r' then number_tail s och r
            else Ok (Tok LEX_MINUS, r)
        | [] => Ok (Tok LEX_MINUS, r)
        end
      else number_tail s och r
  end.

(** ** Words *)

Definition word_token (w : cstr) : token :=
  if strcasecmp_eq w (L "true") then LEX_BOOLEAN_VALUE true
  else if strcasecmp_eq w (L "false") then LEX_BOOLEAN_VALUE false
  else if strcasecmp_eq w (L "undefined") then Tok LEX_UNDEFINED_VALUE
  else if strcasecmp_eq w (L "error") then Tok LEX_ERROR_VALUE
  else if strcasecmp_eq w (L "is") then Tok LEX_META_EQUAL
  else if strcasecmp_eq w (L "isnt") then Tok LEX_META_NOT_EQUAL
  else LEX_IDENTIFIER w.
Definition tokenizeAlphaHead (start : cstr) : token * cstr :=
  let s := skip_while is_alpha start in
  if at_ch (fun c => is_digit c || (c =c "_"%char)) s then
    let s := skip_while ident_char (wind s) in (LEX_IDENTIFIER (lexBuffer start s), s)
  else (word_token (lexBuffer start s), s).

(** ** Strings *)

(** The characters up to the closing quote, and what is behind it. *)
Fixpoint scan_string (delim : ascii) (oldCh : ascii) (oddBackWhacks : bool) (s : cstr) : option (cstr * cstr) :=
  match s with
  | [] => None
  | c :: r =>
      if c =c NUL then None
      else if negb (c =c delim) || (oldCh =c BS) && oddBackWhacks
      then '(text, rest) ← scan_string delim c (negb oddBackWhacks && (c =c BS)) r; Some (c :: text, rest)
      else Some ([], r)
  end.
(** Strings with only white space between them are one string. *)
Fixpoint string_parts (fuel : nat) (delim : ascii) (s : cstr) : outcome (option cstr * cstr) :=
  match fuel with
  | O => Running
  | S fuel =>
      match scan_string delim NUL false s with
      | None => Ok (None, [])
      | Some (text, rest) =>
          let rest := skip_while isspace rest in
          if at_ch (fun c => c =c delim) rest
          then '(more, rest) ← string_parts fuel delim (wind rest); Ok (option_map (app text) more, rest)
          else Ok (Some text, rest)
      end
  end.
Definition octal_char (digits : cstr) : option ascii :=
  let number := base_value 8 digits in if number =? 0 then None else Some (ascii_of_nat (Z.to_nat number)).
(** [None] when the string has a NUL. *)
Fixpoint convert_escapes (text : cstr) : option cstr :=
  match text with
  | [] => Some []
  | c :: r =>
      if negb (c =c BS) then cons c <$> convert_escapes r
      else match r with
           | [] => Some []
           | d :: r =>
               if d =c "a"%char then cons "007"%char <$> convert_escapes r
               else if d =c "b"%char then cons "008"%char <$> convert_escapes r
               else if d =c "f"%char then cons "012"%char <$> convert_escapes r
               else if d =c "n"%char then cons NL <$> convert_escapes r
               else if d =c "r"%char then cons CR <$> convert_escapes r
               else if d =c "t"%char then cons TAB <$> convert_escapes r
               else if d =c "v"%char then cons "011"%char <$> convert_escapes r
               else if isodigit d then
                 match r with
                 | e :: ((f :: r'') as r') =>
                     if (nat_of_ascii d <=? 51)%nat && isodigit e && isodigit f then x ← octal_char [d; e; f]; cons x <$> convert_escapes r''
                     else if isodigit e then x ← octal_char [d; e]; cons x <$> convert_escapes r'
                     else x ← octal_char [d]; cons x <$> convert_escapes r
                 | e :: r' => if isodigit e then x ← octal_char [d; e]; cons x <$> convert_escapes r' else x ← octal_char [d]; cons x <$> convert_escapes r
                 | [] => x ← octal_char [d]; Some [x]
                 end
               else cons d <$> convert_escapes r
           end
  end.
Definition tokenizeString (delim : ascii) (s : cstr) : outcome (token * cstr) :=
  '(text, rest) ← string_parts (S (length s)) delim (wind s);
  match text ≫= convert_escapes with
  | Some text => Ok (if delim =c DQ then LEX_STRING_VALUE text else LEX_IDENTIFIER text, rest)
  | None => Ok (Tok LEX_TOKEN_ERROR, rest)
  end.

(** ** Operators *)

(** The source reads one character and puts one back: at the end it puts back the one
    that it had given before. *)
Definition look_ahead (s : cstr) : option ascii * cstr :=
  match s with c :: d :: _ => if d =c NUL then (None, c :: s) else (Some d, s) | [c] => (None, [c; c]) | [] => (None, []) end.
Definition tokenizePunctOperator (s : cstr) : token * cstr :=
  match s with
  | [] => (Tok LEX_TOKEN_ERROR, [])
  | oldch :: r =>
      let chr x := oldch =c x in
      let next x := at_ch (fun c => c =c x) r in
      if chr "."%char then (Tok LEX_SELECTION, r) else if chr "*"%char then (Tok LEX_MULTIPLY, r) else if chr "/"%char then (Tok LEX_DIVIDE, r)
      else if chr "%"%char then (Tok LEX_MODULUS, r) else if chr "+"%char then (Tok LEX_PLUS, r) else if chr "-"%char then (Tok LEX_MINUS, r)
      else if chr "~"%char then (Tok LEX_BITWISE_NOT, r) else if chr "^"%char then (Tok LEX_BITWISE_XOR, r) else if chr "?"%char then (Tok LEX_QMARK, r)
      else if chr ":"%char then (Tok LEX_COLON, r) else if chr ";"%char then (Tok LEX_SEMICOLON, r) else if chr ","%char then (Tok LEX_COMMA, r)
      else if chr "["%char then (Tok LEX_OPEN_BOX, r) else if chr "]"%char then (Tok LEX_CLOSE_BOX, r) else if chr "("%char then (Tok LEX_OPEN_PAREN, r)
      else if chr ")"%char then (Tok LEX_CLOSE_PAREN, r) else if chr "{"%char then (Tok LEX_OPEN_BRACE, r) else if chr "}"%char then (Tok LEX_CLOSE_BRACE, r)
      else if chr "&"%char then if next "&"%char then (Tok LEX_LOGICAL_AND, wind r) else (Tok LEX_BITWISE_AND, r)
      else if chr "|"%char then if next "|"%char then (Tok LEX_LOGICAL_OR, wind r) else (Tok LEX_BITWISE_OR, r)
      else if chr "<"%char then
        if next "="%char then (Tok LEX_LESS_OR_EQUAL, wind r) else if next "<"%char then (Tok LEX_LEFT_SHIFT, wind r) else (Tok LEX_LESS_THAN, r)
      else if chr ">"%char then
        if next "="%char then (Tok LEX_GREATER_OR_EQUAL, wind r)
        else if next ">"%char then
          let r := wind r in if at_ch (fun c => c =c ">"%char) r then (Tok LEX_URIGHT_SHIFT, wind r) else (Tok LEX_RIGHT_SHIFT, r)
        else (Tok LEX_GREATER_THAN, r)
      else if chr "="%char then
        if next "="%char then (Tok LEX_EQUAL, wind r)
        else if next "?"%char then
          let r := wind r in if at_ch (fun c => c =c "="%char) r then (Tok LEX_META_EQUAL, wind r) else (Tok LEX_TOKEN_ERROR, r)
        else if next "!"%char then
          let '(extra_lookahead, r) := look_ahead r in
          if bool_decide (extra_lookahead = Some "="%char) then (Tok LEX_META_NOT_EQUAL, wind (wind r)) else (Tok LEX_BOUND_TO, r)
        else (Tok LEX_BOUND_TO, r)
      else if chr "!"%char then if next "="%char then (Tok LEX_NOT_EQUAL, wind r) else (Tok LEX_LOGICAL_NOT, r)
      else (Tok LEX_TOKEN_ERROR, r)
  end.

(** ** The lexer *)

(** Tokens after which a minus sign is an operator. *)
Definition ends_value (t : token) : bool :=
  match t with
  | Tok (LEX_UNDEFINED_VALUE | LEX_ERROR_VALUE | LEX_SELECTION | LEX_CLOSE_BOX | LEX_CLOSE_PAREN | LEX_CLOSE_BRACE) => true
  | Tok _ => false
  | _ => true
  end.
Definition next_token (last : token) (s : cstr) : outcome (token * cstr) :=
  '(divide, s) ← skip_blank (S (length s)) s;
  if divide : bool then Ok (Tok LEX_DIVIDE, s)
  else
    match s with
    | [] => Ok (Tok LEX_END_OF_INPUT, [])
    | ch :: _ =>
        if ch =c NUL then Ok (Tok LEX_END_OF_INPUT, s)
        else if ch =c "-"%char then if ends_value last then Ok (tokenizePunctOperator s) else tokenizeNumber s
        else if is_digit ch || (ch =c "."%char) then tokenizeNumber s
        else if is_alpha ch || (ch =c "_"%char) then Ok (tokenizeAlphaHead s)
        else if ch =c DQ then tokenizeString DQ s
        else if ch =c SQ then tokenizeString SQ s
        else Ok (tokenizePunctOperator s)
    end.

Record Lexer := mkLexer { tokenConsumed : bool; last : token; cursor : cstr }.
(** [Initialize] keeps the last token of the text before. *)
Definition Initialize (last : token) (s : cstr) : Lexer := mkLexer true last s.
Definition PeekToken (l : Lexer) : outcome (token * Lexer) :=
  if negb (tokenConsumed l) then Ok (last l, l)
  else '(t, s) ← next_token (last l) (cursor l); Ok (t, mkLexer false t s).
Definition ConsumeToken (l : Lexer) : outcome (token * Lexer) :=
  '(t, l) ← PeekToken l; Ok (t, mkLexer true (last l) (cursor l)).
End Lexer.
