(* ===== verification/ClassAdParser.v ===== *)
(** * The parser of the ClassAd language

    The class [ClassAdParser] of [classad/source.cpp], a function for each rule of the grammar.
    A tree that could not be built is [None], as it is NULL in the source.  The attributes of an ad
    are kept in the order in which they were inserted first.  The literals of times, which are made
    from strings ([classad/literals.cpp]), are arguments. *)

From Stdlib Require Import ZArith Lia Ascii SpecFloat.
From stdpp Require Import base list strings.
From S2P Require Import Operators Prelude ClassAdLexer.
Open Scope Z_scope.

(** The values of literals. *)
Inductive literal :=
| Undefined | Error | Boolean (b : bool) | Integer (z : Z) | Real (r : double) | Str (s : cstr)
| AbsTime (secs offset : Z) | RelTime (secs : double).
Inductive ExprTree :=
| Literal (v : literal) (f : NumberFactor)
| AttributeReference (expr : option ExprTree) (attrName : cstr) (absolute : bool)
| Operation (op : OpKind) (t1 : ExprTree) (t2 t3 : option ExprTree)
| FunctionCall (fnName : cstr) (args : list ExprTree)
| ClassAd (attrs : list (cstr * ExprTree))
| ExprList (exprs : list ExprTree).

(** [ClassAd::Insert]: names are compared without regard to case; the first name is kept. *)
Fixpoint ad_insert (attrName : cstr) (tree : ExprTree) (attrs : list (cstr * ExprTree)) : list (cstr * ExprTree) :=
  match attrs with
  | [] => [(attrName, tree)]
  | (n, t) :: attrs => if strcasecmp_eq n attrName then (n, tree) :: attrs else (n, t) :: ad_insert attrName tree attrs
  end.
Definition Insert (attrName : cstr) (tree : ExprTree) (attrs : list (cstr * ExprTree)) : option (list (cstr * ExprTree)) :=
  match attrName with [] => None | _ => Some (ad_insert attrName tree attrs) end.

Section Parser.
Context (old : bool) (MakeAbsTime MakeRelTime : cstr → option literal).
Abbreviation peek := (PeekToken old).
Abbreviation consume := (ConsumeToken old).
Abbreviation tree_result := (outcome (option ExprTree * Lexer)).

Definition is_tok (t : token) (tk : TokenType) : bool := match t with Tok u => bool_decide (u = tk) | _ => false end.

(** ** Binary operators *)

Definition logical_or_op (t : token) : option OpKind := match t with Tok LEX_LOGICAL_OR => Some LOGICAL_OR_OP | _ => None end.
Definition logical_and_op (t : token) : option OpKind := match t with Tok LEX_LOGICAL_AND => Some LOGICAL_AND_OP | _ => None end.
Definition inclusive_or_op (t : token) : option OpKind := match t with Tok LEX_BITWISE_OR => Some BITWISE_OR_OP | _ => None end.
Definition exclusive_or_op (t : token) : option OpKind := match t with Tok LEX_BITWISE_XOR => Some BITWISE_XOR_OP | _ => None end.
Definition and_op (t : token) : option OpKind := match t with Tok LEX_BITWISE_AND => Some BITWISE_AND_OP | _ => None end.
Definition equality_op (t : token) : option OpKind :=
  match t with
  | Tok LEX_EQUAL => Some EQUAL_OP | Tok LEX_NOT_EQUAL => Some NOT_EQUAL_OP
  | Tok LEX_META_EQUAL => Some META_EQUAL_OP | Tok LEX_META_NOT_EQUAL => Some META_NOT_EQUAL_OP
  | _ => None
  end.
Definition relational_op (t : token) : option OpKind :=
  match t with
  | Tok LEX_LESS_THAN => Some LESS_THAN_OP | Tok LEX_LESS_OR_EQUAL => Some LESS_OR_EQUAL_OP
  | Tok LEX_GREATER_THAN => Some GREATER_THAN_OP | Tok LEX_GREATER_OR_EQUAL => Some GREATER_OR_EQUAL_OP
  | _ => None
  end.
Definition shift_op (t : token) : option OpKind :=
  match t with
  | Tok LEX_LEFT_SHIFT => Some LEFT_SHIFT_OP | Tok LEX_RIGHT_SHIFT => Some RIGHT_SHIFT_OP | Tok LEX_URIGHT_SHIFT => Some URIGHT_SHIFT_OP
  | _ => None
  end.
Definition additive_op (t : token) : option OpKind :=
  match t with Tok LEX_PLUS => Some ADDITION_OP | Tok LEX_MINUS => Some SUBTRACTION_OP | _ => None end.
Definition multiplicative_op (t : token) : option OpKind :=
  match t with
  | Tok LEX_MULTIPLY => Some MULTIPLICATION_OP | Tok LEX_DIVIDE => Some DIVISION_OP | Tok LEX_MODULUS => Some MODULUS_OP
  | _ => None
  end.
Definition unary_op (t : token) : option OpKind :=
  match t with
  | Tok LEX_MINUS => Some UNARY_MINUS_OP | Tok LEX_PLUS => Some UNARY_PLUS_OP
  | Tok LEX_BITWISE_NOT => Some BITWISE_NOT_OP | Tok LEX_LOGICAL_NOT => Some LOGICAL_NOT_OP
  | _ => None
  end.

(** The loop that the ten functions for binary operators share: the operators of a level
    associate to the left. *)
Fixpoint binary_loop (fuel : nat) (op_of : token → option OpKind) (operand : Lexer → tree_result) (tree : ExprTree) (l : Lexer) : tree_result :=
  match fuel with
  | O => Running
  | S fuel =>
      '(tk, l) ← peek l;
      match op_of tk with
      | None => Ok (Some tree, l)
      | Some op =>
          '(_, l) ← consume l;
          '(treeR, l) ← operand l;
          match treeR with
          | Some treeR => binary_loop fuel op_of operand (Operation op tree (Some treeR) None) l
          | None => Ok (None, l)
          end
      end
  end.
Definition binary_level (fuel : nat) (op_of : token → option OpKind) (operand : Lexer → tree_result) (l : Lexer) : tree_result :=
  '(tree, l) ← operand l;
  match tree with Some tree => binary_loop fuel op_of operand tree l | None => Ok (None, l) end.

(** ** Primary expressions *)

Definition shouldEvaluateAtParseTime (functionName : cstr) (argList : list ExprTree) : bool :=
  (strcasecmp_eq functionName (L "absTime") || strcasecmp_eq functionName (L "relTime")) &&
  match argList with [Literal (Str _) _] => true | _ => false end.
Definition evaluateFunction (functionName : cstr) (argList : list ExprTree) : option ExprTree :=
  match argList with
  | Literal (Str s) _ :: _ =>
      if strcasecmp_eq functionName (L "absTime") then (fun v => Literal v NO_FACTOR) <$> MakeAbsTime s
      else if strcasecmp_eq functionName (L "relTime") then (fun v => Literal v NO_FACTOR) <$> MakeRelTime s
      else Some (FunctionCall functionName argList)
  | _ => Some (FunctionCall functionName argList)
  end.

Definition call_tree (fnName : cstr) (argList : list ExprTree) : option ExprTree :=
  if shouldEvaluateAtParseTime fnName argList then evaluateFunction fnName argList else Some (FunctionCall fnName argList).

Section Primary.
(** [parseExpression], and the number of rounds allowed to the loops. *)
Context (expression : Lexer → tree_result) (fuel : nat).

(** The loop that argument lists and lists share: expressions up to a closing token; [None] is a
    failure. *)
Fixpoint item_loop (sep : token → bool) (close : TokenType) (fuel : nat) (items : list ExprTree) (l : Lexer)
    : outcome (option (list ExprTree) * Lexer) :=
  match fuel with
  | O => Running
  | S fuel =>
      '(tk, l) ← peek l;
      if is_tok tk close then '(_, l) ← consume l; Ok (Some items, l)
      else
        '(tree, l) ← expression l;
        match tree with
        | None => Ok (None, l)
        | Some tree =>
            '(tk, l) ← peek l;
            if sep tk then '(_, l) ← consume l; item_loop sep close fuel (items ++ [tree]) l
            else if is_tok tk close then item_loop sep close fuel (items ++ [tree]) l
            else Ok (None, l)
        end
  end.
Definition argument_sep (tk : token) : bool := is_tok tk LEX_COMMA || is_tok tk LEX_SEMICOLON && old.
Definition list_sep (tk : token) : bool := is_tok tk LEX_COMMA.
Definition parseArgumentList (l : Lexer) : outcome (option (list ExprTree) * Lexer) :=
  '(tk, l) ← consume l;
  if is_tok tk LEX_OPEN_PAREN then item_loop argument_sep LEX_CLOSE_PAREN fuel [] l else Ok (None, l).

Fixpoint skip_semicolons (fuel : nat) (l : Lexer) : outcome (token * Lexer) :=
  match fuel with
  | O => Running
  | S fuel =>
      '(tk, l) ← peek l;
      if is_tok tk LEX_SEMICOLON then '(_, l) ← consume l; skip_semicolons fuel l else Ok (tk, l)
  end.
(** [tk] is the token that the loop looks at; an empty attribute leaves it a semicolon. *)
Fixpoint ad_loop (fuel : nat) (ad : list (cstr * ExprTree)) (tk : token) (l : Lexer) : outcome (option (list (cstr * ExprTree)) * Lexer) :=
  match fuel with
  | O => Running
  | S fuel =>
      if is_tok tk LEX_CLOSE_BOX then '(_, l) ← consume l; Ok (Some ad, l)
      else
        '(tk, l) ← consume l;
        if is_tok tk LEX_SEMICOLON then ad_loop fuel ad tk l
        else
          match tk with
          | LEX_IDENTIFIER s =>
              '(tk, l) ← consume l;
              if negb (is_tok tk LEX_BOUND_TO) then Ok (None, l)
              else
                '(tree, l) ← expression l;
                match tree ≫= fun tree => Insert s tree ad with
                | None => Ok (None, l)
                | Some ad =>
                    '(tk, l) ← peek l;
                    if is_tok tk LEX_SEMICOLON || is_tok tk LEX_CLOSE_BOX then '(tk, l) ← skip_semicolons fuel l; ad_loop fuel ad tk l
                    else Ok (None, l)
                end
          | _ => Ok (None, l)
          end
  end.
Definition parseClassAd (full : bool) (l : Lexer) : outcome (option (list (cstr * ExprTree)) * Lexer) :=
  '(tk, l) ← consume l;
  if negb (is_tok tk LEX_OPEN_BOX) then Ok (None, l)
  else
    '(tk, l) ← peek l;
    '(ad, l) ← ad_loop fuel [] tk l;
    match ad with
    | None => Ok (None, l)
    | Some ad =>
        if full then '(tk, l) ← consume l; Ok (if is_tok tk LEX_END_OF_INPUT then Some ad else None, l)
        else Ok (Some ad, l)
    end.

Definition parseExprList (l : Lexer) : outcome (option (list ExprTree) * Lexer) :=
  '(tk, l) ← consume l;
  if is_tok tk LEX_OPEN_BRACE then item_loop list_sep LEX_CLOSE_BRACE fuel [] l else Ok (None, l).

(** The cases of [parsePrimaryExpression]. *)
Definition parse_identifier (s : cstr) (l : Lexer) : tree_result :=
  '(_, l) ← consume l;
  '(tk, l) ← peek l;
  if is_tok tk LEX_OPEN_PAREN then
    '(argList, l) ← parseArgumentList l;
    match argList with
    | None => Ok (None, l)
    | Some argList => Ok (call_tree s argList, l)
    end
  else Ok (Some (AttributeReference None s false), l).
Definition parse_absolute (l : Lexer) : tree_result :=
  '(_, l) ← consume l;
  '(tk, l) ← consume l;
  match tk with LEX_IDENTIFIER s => Ok (Some (AttributeReference None s true), l) | _ => Ok (None, l) end.
Definition parse_parentheses (l : Lexer) : tree_result :=
  '(_, l) ← consume l;
  '(treeL, l) ← expression l;
  match treeL with
  | None => Ok (None, l)
  | Some treeL =>
      '(tk, l) ← consume l;
      Ok (if is_tok tk LEX_CLOSE_PAREN then Some (Operation PARENTHESES_OP treeL None None) else None, l)
  end.
Definition constant (v : literal) (f : NumberFactor) (l : Lexer) : tree_result :=
  '(_, l) ← consume l; Ok (Some (Literal v f), l).
Definition parsePrimaryExpression (l : Lexer) : tree_result :=
  '(tk, l) ← peek l;
  match tk with
  | LEX_IDENTIFIER s => parse_identifier s l
  | Tok LEX_SELECTION => parse_absolute l
  | Tok LEX_OPEN_PAREN => parse_parentheses l
  | Tok LEX_OPEN_BOX => '(ad, l) ← parseClassAd false l; Ok (option_map ClassAd ad, l)
  | Tok LEX_OPEN_BRACE => '(exprs, l) ← parseExprList l; Ok (option_map ExprList exprs, l)
  | Tok LEX_UNDEFINED_VALUE => constant Undefined NO_FACTOR l
  | Tok LEX_ERROR_VALUE => constant Error NO_FACTOR l
  | LEX_BOOLEAN_VALUE b => constant (Boolean b) NO_FACTOR l
  | LEX_INTEGER_VALUE z f => constant (Integer z) f l
  | LEX_REAL_VALUE r f => constant (Real r) f l
  | LEX_STRING_VALUE s => constant (Str s) NO_FACTOR l
  | _ => Ok (None, l)
  end.

(** ** Postfix, unary and conditional expressions *)

Fixpoint postfix_loop (fuel : nat) (tree : ExprTree) (l : Lexer) : tree_result :=
  match fuel with
  | O => Running
  | S fuel =>
      '(tk, l) ← peek l;
      if is_tok tk LEX_OPEN_BOX then
        '(_, l) ← consume l;
        '(treeR, l) ← expression l;
        match treeR with
        | None => Ok (None, l)
        | Some treeR =>
            '(tk, l) ← consume l;
            if is_tok tk LEX_CLOSE_BOX then postfix_loop fuel (Operation SUBSCRIPT_OP tree (Some treeR) None) l else Ok (None, l)
        end
      else if is_tok tk LEX_SELECTION then
        '(_, l) ← consume l;
        '(tk, l) ← consume l;
        match tk with LEX_IDENTIFIER s => postfix_loop fuel (AttributeReference (Some tree) s false) l | _ => Ok (None, l) end
      else Ok (Some tree, l)
  end.
Definition parsePostfixExpression (l : Lexer) : tree_result :=
  '(tree, l) ← parsePrimaryExpression l;
  match tree with Some tree => postfix_loop fuel tree l | None => Ok (None, l) end.
Fixpoint parseUnaryExpression (n : nat) (l : Lexer) : tree_result :=
  match n with
  | O => Running
  | S n =>
      '(tk, l) ← peek l;
      match unary_op tk with
      | Some op =>
          '(_, l) ← consume l;
          '(treeM, l) ← parseUnaryExpression n l;
          Ok (option_map (fun t => Operation op t None None) treeM, l)
      | None => parsePostfixExpression l
      end
  end.
Definition parseMultiplicativeExpression := binary_level fuel multiplicative_op (parseUnaryExpression fuel).
Definition parseAdditiveExpression := binary_level fuel additive_op parseMultiplicativeExpression.
Definition parseShiftExpression := binary_level fuel shift_op parseAdditiveExpression.
Definition parseRelationalExpression := binary_level fuel relational_op parseShiftExpression.
Definition parseEqualityExpression := binary_level fuel equality_op parseRelationalExpression.
Definition parseANDExpression := binary_level fuel and_op parseEqualityExpression.
Definition parseExclusiveORExpression := binary_level fuel exclusive_or_op parseANDExpression.
Definition parseInclusiveORExpression := binary_level fuel inclusive_or_op parseExclusiveORExpression.
Definition parseLogicalANDExpression := binary_level fuel logical_and_op parseInclusiveORExpression.
Definition parseLogicalORExpression := binary_level fuel logical_or_op parseLogicalANDExpression.

(** The returned Boolean, and the tree, which is not deleted when only the end of the input
    is missing.  A conditional returns before that is tested. *)
Definition expression_body (full : bool) (l : Lexer) : outcome (bool * option ExprTree * Lexer) :=
  '(tree, l) ← parseLogicalORExpression l;
  match tree with
  | None => Ok (false, None, l)
  | Some treeL =>
      '(tk, l) ← peek l;
      if is_tok tk LEX_QMARK then
        '(_, l) ← consume l;
        '(treeM, l) ← expression l;
        '(tk, l) ← consume l;
        if negb (is_tok tk LEX_COLON) then Ok (false, None, l)
        else
          '(treeR, l) ← expression l;
          match treeM, treeR with
          | Some treeM, Some treeR => Ok (true, Some (Operation TERNARY_OP treeL (Some treeM) (Some treeR)), l)
          | _, _ => Ok (false, None, l)
          end
      else if full then '(tk, l) ← consume l; Ok (is_tok tk LEX_END_OF_INPUT, Some treeL, l)
      else Ok (true, Some treeL, l)
  end.
End Primary.

Fixpoint parseExpression (fuel : nat) (full : bool) (l : Lexer) : outcome (bool * option ExprTree * Lexer) :=
  match fuel with
  | O => Running
  | S fuel => expression_body (fun l => '(_, tree, l) ← parseExpression fuel false l; Ok (tree, l)) fuel full l
  end.
Definition expression (fuel : nat) (l : Lexer) : tree_result := '(_, tree, l) ← parseExpression fuel false l; Ok (tree, l).

(** ** The interface of the class *)

(** [last] is the last token of the text that the object parsed before. *)
Definition ParseExpression (fuel : nat) (last : token) (buffer : cstr) (full : bool) : outcome (option ExprTree) :=
  '(ok, tree, _) ← parseExpression fuel full (Initialize last buffer);
  Ok (if ok : bool then tree else None).
Definition ParseClassAd (fuel : nat) (last : token) (buffer : cstr) (full : bool) : outcome (option (list (cstr * ExprTree))) :=
  '(ad, _) ← parseClassAd (expression fuel) fuel full (Initialize last buffer); Ok ad.
End Parser.
