(* ===== verification/ClassAdUnparse.v ===== *)
(** * The text of ClassAd expressions

    The class [ClassAdUnParser] of [classad/sink.cpp] in the syntax of new ClassAds.  The order in
    which a hash table gives the attributes of an ad, and the text of times, are arguments. *)

From Stdlib Require Import ZArith Lia Ascii SpecFloat.
From stdpp Require Import base list strings.
From S2P Require Import Operators Prelude ClassAdLexer ClassAdParser.
Open Scope Z_scope.

(** ** Values *)

Definition isprint (c : ascii) : bool := let n := nat_of_ascii c in ((32 <=? n) && (n <=? 126))%nat.
(** The last [k] digits of [n] in a base up to ten. *)
Fixpoint fixed_digits (base : Z) (k : nat) (n : Z) : cstr :=
  match k with O => [] | S k => fixed_digits base k (n / base) ++ [digit_char (n mod base)] end.
Definition escape_char (delimiter c : ascii) : cstr :=
  if c =c delimiter then if delimiter =c DQ then [BS; DQ] else [BS; SQ]
  else if c =c "007"%char then L "\a"
  else if c =c "008"%char then L "\b"
  else if c =c "012"%char then L "\f"
  else if c =c NL then L "\n"
  else if c =c CR then L "\r"
  else if c =c TAB then L "\t"
  else if c =c "011"%char then L "\v"
  else if c =c BS then L "\\"
  else if c =c SQ then [SQ]
  else if c =c DQ then [DQ]
  else if negb (isprint c) then BS :: fixed_digits 8 3 (Z.of_nat (nat_of_ascii c))
  else [c].
Definition escape (delimiter : ascii) (s : cstr) : cstr := s ≫= escape_char delimiter.

(** [%1.15E]: sixteen significant digits of the exact value, rounded to the nearest, ties to even. *)
Definition round_div (a b : Z) : Z :=
  let q := a / b in
  match (2 * (a mod b)) ?= b with Lt => q | Gt => q + 1 | Eq => if Z.even q then q else q + 1 end.
Definition pow10_above (num den : Z) : Z :=
  let x := (Z.log2 num - Z.log2 den) * 30103 / 100000 in
  let ge x := if 0 <=? x then den * 10 ^ x <=? num else den <=? num * 10 ^ (- x) in
  if ge (x + 1) then x + 1 else if ge x then x else if ge (x - 1) then x - 1 else x - 2.
Definition exponent_text (x : Z) : cstr :=
  let n := Z.abs x in
  L "E" ++ (if x <? 0 then L "-" else L "+") ++ (if n <? 100 then fixed_digits 10 2 n else fixed_digits 10 3 n).
Definition decimal_scientific (num den : Z) : cstr :=
  let x := pow10_above num den in
  let n := if 15 <=? x then round_div num (den * 10 ^ (x - 15)) else round_div (num * 10 ^ (15 - x)) den in
  let '(n, x) := if n =? 10 ^ 16 then (10 ^ 15, x + 1) else (n, x) in
  fixed_digits 10 1 (n / 10 ^ 15) ++ L "." ++ fixed_digits 10 15 n ++ exponent_text x.
Definition real_text (r : double) : cstr :=
  match r with
  | S754_zero neg => if neg then L "-0.0" else L "0.0"
  | S754_nan => L "real(" ++ [DQ] ++ L "NaN" ++ [DQ] ++ L ")"
  | S754_infinity neg => L "real(" ++ [DQ] ++ (if neg then L "-INF" else L "INF") ++ [DQ] ++ L ")"
  | S754_finite neg m e =>
      (if neg then L "-" else []) ++
      (if 0 <=? e then decimal_scientific (Zpos m * 2 ^ e) 1 else decimal_scientific (Zpos m) (2 ^ (- e)))
  end.

Section Unparse.
Context (absTimeToString : Z → Z → cstr) (relTimeToString : double → cstr).
Definition Unparse_value (val : literal) : cstr :=
  match val with
  | Undefined => L "undefined"
  | Error => L "error"
  | Boolean b => if b then L "true" else L "false"
  | Integer i => int_text i
  | Real r => real_text r
  | Str s => [DQ] ++ escape DQ s ++ [DQ]
  | AbsTime secs offset => L "absTime(" ++ [DQ] ++ absTimeToString secs offset ++ [DQ] ++ L ")"
  | RelTime secs => L "relTime(" ++ [DQ] ++ relTimeToString secs ++ [DQ] ++ L ")"
  end.
Definition factor_text (f : NumberFactor) : cstr :=
  match f with NO_FACTOR => [] | B_FACTOR => L "B" | K_FACTOR => L "K" | M_FACTOR => L "M" | G_FACTOR => L "G" | T_FACTOR => L "T" end.
Definition Unparse_literal (val : literal) (factor : NumberFactor) : cstr :=
  Unparse_value val ++ match val with Integer _ | Real _ => factor_text factor | _ => [] end.

(** ** Identifiers *)

Definition identifierNeedsQuoting (str : cstr) : bool :=
  match str with ch :: r => if is_alpha ch || (ch =c "_"%char) then negb (forallb ident_char r) else true | [] => true end.
Definition Unparse_identifier (identifier : cstr) : cstr :=
  let idstr := escape SQ identifier in
  if identifierNeedsQuoting idstr then [SQ] ++ idstr ++ [SQ] else idstr.

(** ** Trees *)

Definition opString (op : OpKind) : cstr :=
  match op with
  | NO_OP => []
  | LESS_THAN_OP => L " < " | LESS_OR_EQUAL_OP => L " <= " | NOT_EQUAL_OP => L " != " | EQUAL_OP => L " == "
  | GREATER_OR_EQUAL_OP => L " >= " | GREATER_THAN_OP => L " > " | META_EQUAL_OP => L " is " | META_NOT_EQUAL_OP => L " isnt "
  | UNARY_PLUS_OP => L " +" | UNARY_MINUS_OP => L " -" | ADDITION_OP => L " + " | SUBTRACTION_OP => L " - "
  | MULTIPLICATION_OP => L " * " | DIVISION_OP => L " / " | MODULUS_OP => L " % "
  | LOGICAL_NOT_OP => L " !" | LOGICAL_OR_OP => L " || " | LOGICAL_AND_OP => L " && "
  | BITWISE_NOT_OP => L " ~" | BITWISE_OR_OP => L " | " | BITWISE_XOR_OP => L " ^ " | BITWISE_AND_OP => L " & "
  | LEFT_SHIFT_OP => L " << " | RIGHT_SHIFT_OP => L " >> " | URIGHT_SHIFT_OP => L " >>> "
  | PARENTHESES_OP => L " () " | SUBSCRIPT_OP => L " [] " | TERNARY_OP => L " ?: "
  end.
Definition is_unary (op : OpKind) : bool :=
  match op with UNARY_PLUS_OP | UNARY_MINUS_OP | LOGICAL_NOT_OP | BITWISE_NOT_OP => true | _ => false end.
(** The text of an operation from the texts of its operands. *)
Definition Unparse_operation (op : OpKind) (t1 t2 t3 : cstr) : cstr :=
  if bool_decide (op = PARENTHESES_OP) then L "( " ++ t1 ++ L " )"
  else if is_unary op then opString op ++ t1
  else if bool_decide (op = TERNARY_OP) then t1 ++ L " ? " ++ t2 ++ L " : " ++ t3
  else if bool_decide (op = SUBSCRIPT_OP) then t1 ++ L "[" ++ t2 ++ L "]"
  else t1 ++ opString op ++ t2.
Fixpoint separated (sep : cstr) (texts : list cstr) : cstr :=
  match texts with [] => [] | [t] => t | t :: texts => t ++ sep ++ separated sep texts end.
Context (order : ∀ A, list (cstr * A) → list (cstr * A)).
Fixpoint Unparse (tree : ExprTree) : cstr :=
  let operand t := match t with Some t => Unparse t | None => L "<error:null expr>" end in
  match tree with
  | Literal val factor => Unparse_literal val factor
  | AttributeReference (Some expr) attrName _ => Unparse expr ++ L "." ++ attrName
  | AttributeReference None attrName absolute => (if absolute then L "." else []) ++ Unparse_identifier attrName
  | Operation op t1 t2 t3 => Unparse_operation op (Unparse t1) (operand t2) (operand t3)
  | FunctionCall fnName args => fnName ++ L "(" ++ separated (L ",") (map Unparse args) ++ L ")"
  | ClassAd attrs =>
      L "[ " ++ separated (L "; ") (map (fun p => Unparse_identifier p.1 ++ L " = " ++ p.2) (order cstr (map (fun p => (p.1, Unparse p.2)) attrs))) ++ L " ]"
  | ExprList exprs => L "{ " ++ separated (L ",") (map Unparse exprs) ++ L " }"
  end.
End Unparse.
