(* ===== verification/ClassAdGrammar.v ===== *)
(** * The grammar of the ClassAd language

    The grammar that the comments of [classad/source.cpp] give, as a relation between trees
    and lists of tokens, with the separators that the code lets through.  The parser accepts exactly this grammar. *)

From Stdlib Require Import ZArith Lia Ascii.
From stdpp Require Import base list strings.
From S2P Require Import Operators Prelude ClassAdLexer ClassAdParser.
Open Scope nat_scope.

Section Grammar.
Context (old : bool) (MakeAbsTime MakeRelTime : cstr → option literal).
Abbreviation peek := (PeekToken old).
Abbreviation consume := (ConsumeToken old).

Definition token_literal (tk : token) : option ExprTree :=
  match tk with
  | Tok LEX_UNDEFINED_VALUE => Some (Literal Undefined NO_FACTOR)
  | Tok LEX_ERROR_VALUE => Some (Literal Error NO_FACTOR)
  | LEX_BOOLEAN_VALUE b => Some (Literal (Boolean b) NO_FACTOR)
  | LEX_INTEGER_VALUE z f => Some (Literal (Integer z) f)
  | LEX_REAL_VALUE r f => Some (Literal (Real r) f)
  | LEX_STRING_VALUE s => Some (Literal (Str s) NO_FACTOR)
  | _ => None
  end.
(** The operators of the levels 1 to 10, from the loosest to the tightest; 0 is the conditional,
    11 the unary operators, 12 subscripts and selections, 13 the primary expressions. *)
Definition level_op (level : nat) : token → option OpKind :=
  match level with
  | 1 => fun tk => match tk with Tok LEX_LOGICAL_OR => Some LOGICAL_OR_OP | _ => None end
  | 2 => fun tk => match tk with Tok LEX_LOGICAL_AND => Some LOGICAL_AND_OP | _ => None end
  | 3 => fun tk => match tk with Tok LEX_BITWISE_OR => Some BITWISE_OR_OP | _ => None end
  | 4 => fun tk => match tk with Tok LEX_BITWISE_XOR => Some BITWISE_XOR_OP | _ => None end
  | 5 => fun tk => match tk with Tok LEX_BITWISE_AND => Some BITWISE_AND_OP | _ => None end
  | 6 => fun tk => match tk with
                   | Tok LEX_EQUAL => Some EQUAL_OP | Tok LEX_NOT_EQUAL => Some NOT_EQUAL_OP
                   | Tok LEX_META_EQUAL => Some META_EQUAL_OP | Tok LEX_META_NOT_EQUAL => Some META_NOT_EQUAL_OP
                   | _ => None
                   end
  | 7 => fun tk => match tk with
                   | Tok LEX_LESS_THAN => Some LESS_THAN_OP | Tok LEX_LESS_OR_EQUAL => Some LESS_OR_EQUAL_OP
                   | Tok LEX_GREATER_THAN => Some GREATER_THAN_OP | Tok LEX_GREATER_OR_EQUAL => Some GREATER_OR_EQUAL_OP
                   | _ => None
                   end
  | 8 => fun tk => match tk with
                   | Tok LEX_LEFT_SHIFT => Some LEFT_SHIFT_OP | Tok LEX_RIGHT_SHIFT => Some RIGHT_SHIFT_OP
                   | Tok LEX_URIGHT_SHIFT => Some URIGHT_SHIFT_OP | _ => None
                   end
  | 9 => fun tk => match tk with Tok LEX_PLUS => Some ADDITION_OP | Tok LEX_MINUS => Some SUBTRACTION_OP | _ => None end
  | 10 => fun tk => match tk with
                    | Tok LEX_MULTIPLY => Some MULTIPLICATION_OP | Tok LEX_DIVIDE => Some DIVISION_OP | Tok LEX_MODULUS => Some MODULUS_OP
                    | _ => None
                    end
  | _ => fun _ => None
  end.
Definition prefix_op (tk : token) : option OpKind :=
  match tk with
  | Tok LEX_MINUS => Some UNARY_MINUS_OP | Tok LEX_PLUS => Some UNARY_PLUS_OP
  | Tok LEX_BITWISE_NOT => Some BITWISE_NOT_OP | Tok LEX_LOGICAL_NOT => Some LOGICAL_NOT_OP
  | _ => None
  end.
(** Arguments may also be separated by semicolons in old ClassAds. *)
Definition comma_or_semi (tk : token) : bool := match tk with Tok LEX_COMMA => true | Tok LEX_SEMICOLON => old | _ => false end.
Definition comma (tk : token) : bool := match tk with Tok LEX_COMMA => true | _ => false end.
Definition semis (k : nat) : list token := replicate k (Tok LEX_SEMICOLON).
Definition ad_of (attrs : list (cstr * ExprTree)) : list (cstr * ExprTree) := foldl (fun ad p => ad_insert p.1 p.2 ad) [] attrs.

Inductive gram : nat → ExprTree → list token → Prop :=
| g_literal tk t : token_literal tk = Some t → gram 13 t [tk]
| g_reference s : gram 13 (AttributeReference None s false) [LEX_IDENTIFIER s]
| g_absolute s : gram 13 (AttributeReference None s true) [Tok LEX_SELECTION; LEX_IDENTIFIER s]
| g_parentheses t ts : gram 0 t ts → gram 13 (Operation PARENTHESES_OP t None None) (Tok LEX_OPEN_PAREN :: ts ++ [Tok LEX_CLOSE_PAREN])
| g_call s args ts t : gitems comma_or_semi args ts → call_tree MakeAbsTime MakeRelTime s args = Some t →
    gram 13 t (LEX_IDENTIFIER s :: Tok LEX_OPEN_PAREN :: ts ++ [Tok LEX_CLOSE_PAREN])
| g_list exprs ts : gitems comma exprs ts → gram 13 (ExprList exprs) (Tok LEX_OPEN_BRACE :: ts ++ [Tok LEX_CLOSE_BRACE])
| g_ad k attrs ts : gattrs attrs ts → (k = 0 ∨ attrs ≠ []) → gram 13 (ClassAd (ad_of attrs)) (Tok LEX_OPEN_BOX :: semis k ++ ts ++ [Tok LEX_CLOSE_BOX])
| g_subscript t1 ts1 t2 ts2 : gram 12 t1 ts1 → gram 0 t2 ts2 →
    gram 12 (Operation SUBSCRIPT_OP t1 (Some t2) None) (ts1 ++ Tok LEX_OPEN_BOX :: ts2 ++ [Tok LEX_CLOSE_BOX])
| g_selection t ts s : gram 12 t ts → gram 12 (AttributeReference (Some t) s false) (ts ++ [Tok LEX_SELECTION; LEX_IDENTIFIER s])
| g_unary tk op t ts : prefix_op tk = Some op → gram 11 t ts → gram 11 (Operation op t None None) (tk :: ts)
| g_binary level tk op t1 ts1 t2 ts2 : level_op level tk = Some op → gram level t1 ts1 → gram (S level) t2 ts2 →
    gram level (Operation op t1 (Some t2) None) (ts1 ++ tk :: ts2)
| g_conditional t1 ts1 t2 ts2 t3 ts3 : gram 1 t1 ts1 → gram 0 t2 ts2 → gram 0 t3 ts3 →
    gram 0 (Operation TERNARY_OP t1 (Some t2) (Some t3)) (ts1 ++ Tok LEX_QMARK :: ts2 ++ Tok LEX_COLON :: ts3)
| g_up level t ts : level ≤ 12 → gram (S level) t ts → gram level t ts
(** Expressions with a separator behind each but the last, where it may be left out. *)
with gitems : (token → bool) → list ExprTree → list token → Prop :=
| gi_nil sep : gitems sep [] []
| gi_one sep t ts : gram 0 t ts → gitems sep [t] ts
| gi_cons sep t ts tk items us : gram 0 t ts → sep tk = true → gitems sep items us → gitems sep (t :: items) (ts ++ tk :: us)
with gattrs : list (cstr * ExprTree) → list token → Prop :=
| gt_nil : gattrs [] []
| gt_one s t ts : s ≠ [] → gram 0 t ts → gattrs [(s, t)] (LEX_IDENTIFIER s :: Tok LEX_BOUND_TO :: ts)
| gt_cons s t ts k attrs us : s ≠ [] → gram 0 t ts → gattrs attrs us →
    gattrs ((s, t) :: attrs) (LEX_IDENTIFIER s :: Tok LEX_BOUND_TO :: ts ++ semis (S k) ++ us).
Scheme gram_mind := Minimality for gram Sort Prop
  with gitems_mind := Minimality for gitems Sort Prop
  with gattrs_mind := Minimality for gattrs Sort Prop.
Combined Scheme gram_mutual from gram_mind, gitems_mind, gattrs_mind.

(** ** Reading tokens *)

(** The next tokens of a lexer. *)
Inductive yields : Lexer → list token → Prop :=
| y_nil l : yields l []
| y_cons l tk l' ts : consume l = Ok (tk, l') → yields l' ts → yields l (tk :: ts).
(** What is between two states of a lexer. *)
Inductive eats : Lexer → list token → Lexer → Prop :=
| e_nil l : eats l [] l
| e_peek l tk l1 ts l2 : peek l = Ok (tk, l1) → eats l1 ts l2 → eats l ts l2
| e_cons l tk l1 ts l2 : consume l = Ok (tk, l1) → eats l1 ts l2 → eats l (tk :: ts) l2.

Lemma peek_consume l tk l1 : peek l = Ok (tk, l1) → consume l = consume l1 ∧ ∃ l2, consume l = Ok (tk, l2).
Proof.
  unfold ConsumeToken, PeekToken. destruct l as [[] la cu]; cbn [tokenConsumed negb last cursor].
  - destruct (next_token old la cu) as [[t s]| |]; cbn; intros E; try discriminate. injection E as -> <-. cbn. eauto.
  - cbn. intros E. injection E as -> <-. cbn. eauto.
Qed.
Lemma consume_peek l tk l2 : consume l = Ok (tk, l2) → ∃ l1, peek l = Ok (tk, l1).
Proof. unfold ConsumeToken. destruct (peek l) as [[t s]| |]; cbn; intros [=]; subst; eauto. Qed.
Lemma yields_consume l tk ts : yields l (tk :: ts) → ∃ l1, consume l = Ok (tk, l1) ∧ yields l1 ts.
Proof. inversion 1; subst; eauto. Qed.
Lemma yields_peek l tk ts : yields l (tk :: ts) → ∃ l1, peek l = Ok (tk, l1) ∧ yields l1 (tk :: ts).
Proof.
  intros (l2 & H & Hy)%yields_consume. destruct (consume_peek l tk l2 H) as (l1 & Hp). exists l1. split; [done|].
  destruct (peek_consume l tk l1 Hp) as [E _]. rewrite E in H. by econstructor.
Qed.
Lemma eats_app l ts l1 us l2 : eats l ts l1 → eats l1 us l2 → eats l (ts ++ us) l2.
Proof. induction 1; intros H2; cbn; [done|by eapply e_peek; eauto|by eapply e_cons; eauto]. Qed.
Lemma eats_peek l tk l1 ts l2 : peek l = Ok (tk, l1) → eats l1 ts l2 → eats l ts l2.
Proof. apply e_peek. Qed.
Lemma peeked_consume l tk l1 : peek l = Ok (tk, l1) → ∀ tk' l2, consume l1 = Ok (tk', l2) → tk' = tk.
Proof. intros H tk' l2 E. destruct (peek_consume l tk l1 H) as (E1 & l3 & E2). congruence. Qed.

(** ** The parser accepts only the grammar *)

Section Sound.
Context (E : Lexer → outcome (option ExprTree * Lexer)) (n : nat).
Definition sound (level : nat) (f : Lexer → outcome (option ExprTree * Lexer)) : Prop :=
  ∀ l t l', f l = Ok (Some t, l') → ∃ ts, gram level t ts ∧ eats l ts l'.
Hypothesis HE : sound 0 E.

Lemma is_tok_true tk u : is_tok tk u = true → tk = Tok u.
Proof. destruct tk; cbn; try done. intros ->%bool_decide_eq_true. done. Qed.
Lemma bind_ok {A B} (o : outcome A) (f : A → outcome B) y : (o ≫= f) = Ok y → ∃ x, o = Ok x ∧ f x = Ok y.
Proof. destruct o; cbn; intros H; try discriminate. eauto. Qed.
Ltac step H := let x := fresh "x" in let Hx := fresh "Hx" in let tk := fresh "tk" in let l := fresh "l" in
  apply bind_ok in H as ([tk l] & Hx & H).

Lemma binary_loop_sound level f k : sound (S level) f → ∀ t ts0 l t' l', gram level t ts0 → binary_loop old k (level_op level) f t l = Ok (Some t', l') →
  ∃ ts, gram level t' (ts0 ++ ts) ∧ eats l ts l'.
Proof.
  intros Hf. induction k as [|k IH]; intros t ts0 l t' l' Ht H; [done|]. cbn [binary_loop] in H. step H. destruct (level_op level tk) as [op|] eqn:Eop.
  - step H. step H. destruct tk1 as [t2|]; [|done]. apply Hf in Hx1 as (ts2 & H2 & He2). pose proof (peeked_consume _ _ _ Hx _ _ Hx0) as ->.
    apply (IH _ (ts0 ++ tk :: ts2)) in H as (ts & Hg & He); [|by eapply g_binary]. exists (tk :: ts2 ++ ts). split; [by rewrite <-app_assoc in Hg|].
    eapply e_peek; [done|]. eapply e_cons; [done|]. by eapply eats_app.
  - injection H as <- <-. exists []. rewrite app_nil_r. split; [done|]. eapply e_peek; [done|constructor].
Qed.
Lemma binary_sound level f : level ≤ 12 → sound (S level) f → sound level (binary_level old n (level_op level) f).
Proof.
  intros Hl Hf l t l' H. unfold binary_level in H. step H. destruct tk as [t1|]; [|done]. apply Hf in Hx as (ts1 & H1 & He1).
  apply (binary_loop_sound level f n Hf t1 ts1) in H as (ts & Hg & He); [|by apply g_up]. exists (ts1 ++ ts). split; [done|]. by eapply eats_app.
Qed.
Lemma gitems_ext sep sep' items ts : (∀ tk, sep tk = sep' tk) → gitems sep items ts → gitems sep' items ts.
Proof. intros Hs H. revert Hs. induction H; intros Hs; constructor; auto; by rewrite <-Hs. Qed.
Lemma argument_sep_comma tk : argument_sep old tk = comma_or_semi tk.
Proof. destruct tk as [[]| | | | |]; reflexivity. Qed.
Lemma list_sep_comma tk : list_sep tk = comma tk.
Proof. by destruct tk as [[]| | | | |]. Qed.
Lemma item_loop_sound sep close k : ∀ items l items' l', item_loop old E sep close k items l = Ok (Some items', l') →
  ∃ more ts, items' = items ++ more ∧ gitems sep more ts ∧ eats l (ts ++ [Tok close]) l'.
Proof.
  induction k as [|k IH]; intros items l items' l' H; [done|]. cbn [item_loop] in H. step H. destruct (is_tok tk close) eqn:Ec.
  - apply is_tok_true in Ec as ->. step H. injection H as <- <-. pose proof (peeked_consume _ _ _ Hx _ _ Hx0) as ->. exists [], []. rewrite app_nil_r. split; [done|].
    split; [constructor|]. eapply e_peek; [done|]. eapply e_cons; [done|constructor].
  - step H. destruct tk0 as [t|]; [|done]. apply HE in Hx0 as (ts & Ht & He). step H. destruct (sep tk0) eqn:Es.
    + step H. pose proof (peeked_consume _ _ _ Hx0 _ _ Hx1) as ->. apply IH in H as (more & us & -> & Hg & He'). exists (t :: more), (ts ++ tk0 :: us).
      rewrite <-!app_assoc. split; [done|]. split; [by constructor|]. eapply e_peek; [done|]. eapply eats_app; [done|]. eapply e_peek; [done|]. by eapply e_cons.
    + destruct (is_tok tk0 close) eqn:Ec0; [|done]. apply is_tok_true in Ec0 as ->. destruct k as [|k]; [done|]. cbn [item_loop] in H. step H.
      assert (tk0 = Tok close) as ->.
      { destruct (peek_consume _ _ _ Hx0) as [Ea (la & Eb)]. destruct (peek_consume _ _ _ Hx1) as [Ea' (la' & Eb')]. congruence. }
      assert (is_tok (Tok close) close = true) as Eb by (cbn; by apply bool_decide_eq_true). rewrite Eb in H. step H. injection H as <- <-.
      pose proof (peeked_consume _ _ _ Hx1 _ _ Hx2) as ->. exists [t], ts. split; [done|]. split; [by constructor|]. eapply e_peek; [done|]. eapply eats_app; [done|].
      eapply e_peek; [done|]. eapply e_peek; [done|]. eapply e_cons; [done|constructor].
Qed.
Lemma skip_semicolons_sound k : ∀ l tk l', skip_semicolons old k l = Ok (tk, l') → ∃ j, eats l (semis j) l' ∧ is_tok tk LEX_SEMICOLON = false ∧
  (∃ l2, consume l' = Ok (tk, l2)) ∧ (j = 0 → ∃ l1, peek l = Ok (tk, l1)).
Proof.
  induction k as [|k IH]; intros l tk l' H; [done|]. cbn [skip_semicolons] in H. step H. destruct (is_tok tk0 LEX_SEMICOLON) eqn:Es.
  - apply is_tok_true in Es as ->. step H. pose proof (peeked_consume _ _ _ Hx _ _ Hx0) as ->. apply IH in H as (j & He & Hs & Hc & _). exists (S j). split; [|done].
    eapply e_peek; [done|]. by eapply e_cons.
  - injection H as <- <-. exists 0. split; [eapply e_peek; [done|constructor]|]. split; [done|]. destruct (peek_consume _ _ _ Hx) as (Ea & l2 & Eb). rewrite Ea in Eb. eauto.
Qed.
Lemma ad_loop_sound k : ∀ ad tk l ad' l', ad_loop old E k ad tk l = Ok (Some ad', l') → (∃ l2, consume l = Ok (tk, l2)) ∨ tk = Tok LEX_SEMICOLON →
  ∃ j attrs ts, ad' = foldl (fun ad p => ad_insert p.1 p.2 ad) ad attrs ∧ gattrs attrs ts ∧ eats l (semis j ++ ts ++ [Tok LEX_CLOSE_BOX]) l' ∧
    (is_tok tk LEX_CLOSE_BOX = true → attrs = [] ∧ j = 0) ∧ (is_tok tk LEX_CLOSE_BOX = false → attrs ≠ []) ∧ (is_tok tk LEX_SEMICOLON = false → j = 0).
Proof.
  induction k as [|k IH]; intros ad tk l ad' l' H Htk; [done|]. cbn [ad_loop] in H. destruct (is_tok tk LEX_CLOSE_BOX) eqn:Ec.
  { step H. injection H as <- <-. pose proof (is_tok_true _ _ Ec) as ->. destruct Htk as [[l2 Htk]|]; [|done]. rewrite Htk in Hx. injection Hx as <- <-.
    exists 0, [], []. split; [done|]. split; [constructor|]. split; [eapply e_cons; [done|constructor]|]. done. }
  step H. destruct (is_tok tk0 LEX_SEMICOLON) eqn:Es.
  { apply is_tok_true in Es as ->. apply IH in H as (j & attrs & ts & -> & Hg & He & _ & Hne & _); [|by right]. exists (S j), attrs, ts. split; [done|]. split; [done|].
    split; [by eapply e_cons|]. split; [done|]. split; [intros _; by apply Hne|]. destruct Htk as [[l2 Htk]| ->]; [|done]. rewrite Htk in Hx. by injection Hx as -> _. }
  destruct tk0 as [| | | | |s]; try done. step H. destruct (is_tok tk0 LEX_BOUND_TO) eqn:Eb; [|done]. cbn [negb] in H. apply is_tok_true in Eb as ->.
  step H. destruct tk0 as [t|]; [|done]. apply HE in Hx1 as (ts & Ht & Het). cbn [mbind option_bind] in H. destruct s as [|c s]; [done|]. cbn [Insert] in H.
  step H. destruct (is_tok tk0 LEX_SEMICOLON || is_tok tk0 LEX_CLOSE_BOX) eqn:Eo; [|done]. step H.
  apply skip_semicolons_sound in Hx2 as (j & Hj & Hns & Hc & Hj0). apply IH in H as (j2 & attrs & us & -> & Hg & He & Hclose & _ & Hj2); [|by left].
  rewrite (Hj2 Hns) in He. cbn [semis replicate app] in He.
  assert (eats l (LEX_IDENTIFIER (c :: s) :: Tok LEX_BOUND_TO :: ts ++ semis j ++ us ++ [Tok LEX_CLOSE_BOX]) l') as Heats.
  { eapply e_cons; [done|]. eapply e_cons; [done|]. eapply eats_app; [done|]. eapply e_peek; [done|]. eapply eats_app; [done|done]. }
  destruct j as [|j].
  - destruct (Hj0 eq_refl) as (la & Hla). assert (tk1 = tk0) as ->.
    { destruct (peek_consume _ _ _ Hx1) as (E1 & lb & E2). destruct (peek_consume _ _ _ Hla) as (E3 & lc & E4). congruence. }
    rewrite Hns in Eo. cbn [orb] in Eo. destruct (Hclose Eo) as [-> _]. inversion Hg; subst. exists 0, [(c :: s, t)], (LEX_IDENTIFIER (c :: s) :: Tok LEX_BOUND_TO :: ts).
    split; [done|]. split; [by constructor|]. split; [exact Heats|]. by repeat split.
  - exists 0, ((c :: s, t) :: attrs), (LEX_IDENTIFIER (c :: s) :: Tok LEX_BOUND_TO :: ts ++ semis (S j) ++ us). split; [done|]. split; [by constructor|]. split; [|by repeat split].
    cbn [app]. rewrite <-!app_assoc. exact Heats.
Qed.
Lemma parseClassAd_sound l ad l' : parseClassAd old E n false l = Ok (Some ad, l') → ∃ ts, gram 13 (ClassAd ad) ts ∧ eats l ts l'.
Proof.
  intros H. unfold parseClassAd in H. step H. destruct (is_tok tk LEX_OPEN_BOX) eqn:Eo; [|done]. cbn [negb] in H. apply is_tok_true in Eo as ->.
  step H. step H. destruct tk0 as [ad0|]; [|done]. injection H as -> <-.
  destruct (peek_consume _ _ _ Hx0) as (E1 & l3 & E2). rewrite E1 in E2.
  apply ad_loop_sound in Hx1 as (j & attrs & ts & -> & Hg & He & Hc & Hne & _); [|left; eauto]. exists (Tok LEX_OPEN_BOX :: semis j ++ ts ++ [Tok LEX_CLOSE_BOX]). split.
  - apply g_ad; [done|]. destruct (is_tok tk LEX_CLOSE_BOX); [left; by apply Hc|right; by apply Hne].
  - eapply e_cons; [done|]. by eapply e_peek.
Qed.
Lemma primary_sound : sound 13 (parsePrimaryExpression old MakeAbsTime MakeRelTime E n).
Proof.
  intros l t l' H. unfold parsePrimaryExpression in H. step H.
  assert (∀ v f la tb lb, peek l = Ok (tk, la) → token_literal tk = Some (Literal v f) → constant old v f la = Ok (Some tb, lb) →
    ∃ ts, gram 13 tb ts ∧ eats l ts lb) as Hconst.
  { intros v f la tb lb Hp Hl Hc. unfold constant in Hc. step Hc. injection Hc as <- <-. pose proof (peeked_consume _ _ _ Hp _ _ Hx0) as ->.
    exists [tk]. split; [by apply g_literal|]. eapply e_peek; [done|]. eapply e_cons; [done|constructor]. }
  destruct tk as [[]| | | | |s]; try done; try (by eapply Hconst).
  - unfold parse_absolute in H. step H. step H. destruct tk0; try done. injection H as <- <-. pose proof (peeked_consume _ _ _ Hx _ _ Hx0) as ->.
    eexists. split; [apply g_absolute|]. eapply e_peek; [done|]. eapply e_cons; [done|]. eapply e_cons; [done|constructor].
  - step H. destruct tk as [ad|]; [|done]. injection H as <- <-. apply parseClassAd_sound in Hx0 as (ts & Hg & He). exists ts. split; [done|]. by eapply e_peek.
  - unfold parse_parentheses in H. step H. step H. destruct tk0 as [tr|]; [|done]. step H. destruct (is_tok tk0 LEX_CLOSE_PAREN) eqn:Ec; [|done]. injection H as <- <-.
    apply is_tok_true in Ec as ->. apply HE in Hx1 as (ts & Hg & He). pose proof (peeked_consume _ _ _ Hx _ _ Hx0) as ->. eexists. split; [by apply g_parentheses|].
    eapply e_peek; [done|]. eapply e_cons; [done|]. eapply eats_app; [done|]. eapply e_cons; [done|constructor].
  - step H. destruct tk as [ex|]; [|done]. injection H as <- <-. unfold parseExprList in Hx0. step Hx0. destruct (is_tok tk LEX_OPEN_BRACE) eqn:Ec; [|done].
    apply is_tok_true in Ec as ->. apply item_loop_sound in Hx0 as (more & ts & -> & Hg & He). apply (gitems_ext _ comma) in Hg; [|apply list_sep_comma].
    eexists. split; [by apply g_list|]. eapply e_peek; [done|]. by eapply e_cons.
  - unfold parse_identifier in H. step H. pose proof (peeked_consume _ _ _ Hx _ _ Hx0) as ->. step H. destruct (is_tok tk LEX_OPEN_PAREN) eqn:Ec.
    + apply is_tok_true in Ec as ->. step H. destruct tk as [args|]; [|done]. injection H as H <-. unfold parseArgumentList in Hx2. step Hx2.
      pose proof (peeked_consume _ _ _ Hx1 _ _ Hx3) as ->. change (is_tok (Tok LEX_OPEN_PAREN) LEX_OPEN_PAREN) with true in Hx2. cbn iota in Hx2.
      apply item_loop_sound in Hx2 as (more & ts & -> & Hg & He). apply (gitems_ext _ comma_or_semi) in Hg; [|apply argument_sep_comma].
      eexists. split; [by eapply g_call|]. eapply e_peek; [done|]. eapply e_cons; [done|]. eapply e_peek; [done|]. by eapply e_cons.
    + injection H as <- <-. eexists. split; [apply g_reference|]. eapply e_peek; [done|]. eapply e_cons; [done|]. eapply e_peek; [done|constructor].
Qed.
Lemma postfix_loop_sound k : ∀ t ts0 l t' l', gram 12 t ts0 → postfix_loop old E k t l = Ok (Some t', l') → ∃ ts, gram 12 t' (ts0 ++ ts) ∧ eats l ts l'.
Proof.
  induction k as [|k IH]; intros t ts0 l t' l' Ht H; [done|]. cbn [postfix_loop] in H. step H. destruct (is_tok tk LEX_OPEN_BOX) eqn:Eb.
  - apply is_tok_true in Eb as ->. step H. step H. destruct tk0 as [t2|]; [|done]. apply HE in Hx1 as (ts2 & H2 & He2). step H.
    destruct (is_tok tk0 LEX_CLOSE_BOX) eqn:Ec; [|done]. apply is_tok_true in Ec as ->. pose proof (peeked_consume _ _ _ Hx _ _ Hx0) as ->.
    apply (IH _ (ts0 ++ Tok LEX_OPEN_BOX :: ts2 ++ [Tok LEX_CLOSE_BOX])) in H as (ts & Hg & He); [|by apply g_subscript].
    exists (Tok LEX_OPEN_BOX :: ts2 ++ Tok LEX_CLOSE_BOX :: ts). split; [by repeat (rewrite <-app_assoc in Hg; cbn [app] in Hg)|].
    eapply e_peek; [done|]. eapply e_cons; [done|]. eapply eats_app; [done|]. by eapply e_cons.
  - destruct (is_tok tk LEX_SELECTION) eqn:Es.
    + apply is_tok_true in Es as ->. step H. step H. destruct tk0 as [| | | | |s]; try done. pose proof (peeked_consume _ _ _ Hx _ _ Hx0) as ->.
      apply (IH _ (ts0 ++ [Tok LEX_SELECTION; LEX_IDENTIFIER s])) in H as (ts & Hg & He); [|by apply g_selection].
      exists (Tok LEX_SELECTION :: LEX_IDENTIFIER s :: ts). split; [by rewrite <-app_assoc in Hg|]. eapply e_peek; [done|]. eapply e_cons; [done|]. by eapply e_cons.
    + injection H as <- <-. exists []. rewrite app_nil_r. split; [done|]. eapply e_peek; [done|constructor].
Qed.
Lemma postfix_sound : sound 12 (parsePostfixExpression old MakeAbsTime MakeRelTime E n).
Proof.
  intros l t l' H. unfold parsePostfixExpression in H. step H. destruct tk as [t1|]; [|done]. apply primary_sound in Hx as (ts1 & H1 & He1).
  apply (postfix_loop_sound n t1 ts1) in H as (ts & Hg & He); [|apply g_up; [lia|done]]. exists (ts1 ++ ts). split; [done|]. by eapply eats_app.
Qed.
Lemma unary_sound k : sound 11 (parseUnaryExpression old MakeAbsTime MakeRelTime E n k).
Proof.
  induction k as [|k IH]; intros l t l' H; [done|]. cbn [parseUnaryExpression] in H. step H. destruct (unary_op tk) as [op|] eqn:Eop.
  - step H. step H. destruct tk1 as [t1|]; [|done]. injection H as <- <-. apply IH in Hx1 as (ts & Hg & He). pose proof (peeked_consume _ _ _ Hx _ _ Hx0) as ->.
    exists (tk :: ts). split; [by apply g_unary|]. eapply e_peek; [done|]. by eapply e_cons.
  - apply postfix_sound in H as (ts & Hg & He). exists ts. split; [apply g_up; [lia|done]|]. by eapply e_peek.
Qed.
Lemma logical_or_sound : sound 1 (parseLogicalORExpression old MakeAbsTime MakeRelTime E n).
Proof. do 10 (apply binary_sound; [lia|]). apply unary_sound. Qed.
Lemma body_sound full l b t l' : expression_body old MakeAbsTime MakeRelTime E n full l = Ok (b, Some t, l') →
  ∃ ts l1, gram 0 t ts ∧ eats l ts l1 ∧ (full = false ∧ l1 = l' ∨
    full = true ∧ (l1 = l' ∧ (∃ t1 t2 t3, t = Operation TERNARY_OP t1 t2 t3) ∨ ∃ tk, consume l1 = Ok (tk, l') ∧ b = is_tok tk LEX_END_OF_INPUT)).
Proof.
  intros H. unfold expression_body in H. step H. destruct tk as [t1|]; [|done]. apply logical_or_sound in Hx as (ts1 & H1 & He1). step H.
  destruct (is_tok tk LEX_QMARK) eqn:Eq.
  - apply is_tok_true in Eq as ->. step H. step H. step H. destruct (is_tok tk1 LEX_COLON) eqn:Ec; [|done]. apply is_tok_true in Ec as ->. cbn [negb] in H. step H.
    destruct tk0 as [t2|], tk1 as [t3|]; try done. injection H as <- <- Hl. apply HE in Hx1 as (ts2 & H2 & He2). apply HE in Hx3 as (ts3 & H3 & He3).
    pose proof (peeked_consume _ _ _ Hx _ _ Hx0) as ->. exists (ts1 ++ Tok LEX_QMARK :: ts2 ++ Tok LEX_COLON :: ts3). exists l'. split; [by apply g_conditional|].
    split; [rewrite <-Hl|destruct full; [right; split; [done|left; eauto]|by left]]. eapply eats_app; [done|]. eapply e_peek; [done|]. eapply e_cons; [done|]. eapply eats_app; [done|]. by eapply e_cons.
  - exists ts1. destruct full.
    + step H. injection H as <- <- <-. exists l1. split; [apply g_up; [lia|done]|]. split; [|right; split; [done|right; eauto]]. rewrite <-(app_nil_r ts1). eapply eats_app; [done|].
      eapply e_peek; [done|constructor].
    + injection H as <- <- <-. exists l1. split; [apply g_up; [lia|done]|]. split; [|by left]. rewrite <-(app_nil_r ts1). eapply eats_app; [done|].
      eapply e_peek; [done|constructor].
Qed.
End Sound.

Lemma expression_sound n : sound 0 (expression old MakeAbsTime MakeRelTime n).
Proof.
  induction n as [|n IH]; intros l t l' H; [done|]. unfold expression in H. apply bind_ok in H as ([[b tr] l1] & Hx & H). injection H as -> ->.
  cbn [parseExpression] in Hx. eapply body_sound in Hx as (ts & l2 & Hg & He & [[_ ->]|[? _]]); [eauto|done|exact IH].
Qed.
End Grammar.
