(* ===== verification/ClassAdComplete.v ===== *)
(** * The parser of the ClassAd language accepts its grammar

    An expression of the grammar, followed by a token that cannot continue it, is parsed to its
    tree, and the parser stops in front of that token.  The fuel is the number of tokens. *)

From Stdlib Require Import ZArith Lia Ascii.
From stdpp Require Import base list strings.
From S2P Require Import Operators Prelude ClassAdLexer ClassAdParser ClassAdGrammar.
Open Scope nat_scope.

Section Complete.
Context (old : bool) (MakeAbsTime MakeRelTime : cstr → option literal).
Abbreviation gram := (gram old MakeAbsTime MakeRelTime).
Abbreviation gitems := (gitems old MakeAbsTime MakeRelTime).
Abbreviation gattrs := (gattrs old MakeAbsTime MakeRelTime).
Abbreviation peek := (PeekToken old).
Abbreviation consume := (ConsumeToken old).
Abbreviation yields := (yields old).

(** ** What a token can be *)

(** [tk] cannot continue an expression of a level. *)
Definition stops (level : nat) (tk : token) : Prop :=
  is_tok tk LEX_OPEN_PAREN = false ∧ (level ≤ 12 → is_tok tk LEX_OPEN_BOX = false ∧ is_tok tk LEX_SELECTION = false) ∧
  (∀ k, level ≤ k → level_op k tk = None) ∧ (level = 0 → is_tok tk LEX_QMARK = false).
(** Tokens that stand behind an expression. *)
Definition closing (tk : token) : bool :=
  match tk with
  | Tok (LEX_CLOSE_PAREN | LEX_CLOSE_BOX | LEX_CLOSE_BRACE | LEX_COMMA | LEX_SEMICOLON | LEX_COLON | LEX_END_OF_INPUT) => true
  | _ => false
  end.
Definition starts_primary (tk : token) : bool :=
  match tk with
  | Tok (LEX_UNDEFINED_VALUE | LEX_ERROR_VALUE | LEX_SELECTION | LEX_OPEN_PAREN | LEX_OPEN_BRACE | LEX_OPEN_BOX) => true
  | Tok _ => false
  | _ => true
  end.
Definition starts (tk : token) : bool := starts_primary tk || match prefix_op tk with Some _ => true | None => false end.

Lemma stops_mono level level' tk : level ≤ level' → stops level tk → stops level' tk.
Proof. intros Hl (H1 & H2 & H3 & H4). split; [done|]. split; [intros; apply H2; lia|]. split; [intros; apply H3; lia|]. intros ->. apply H4. lia. Qed.
Lemma level_op_stops level tk op : level_op level tk = Some op → stops (S level) tk.
Proof.
  intros H. destruct level as [|[|[|[|[|[|[|[|[|[|[|level]]]]]]]]]]]; try done; cbn [level_op] in H; destruct tk as [[]| | | | |]; try done;
    (split; [done|]; split; [done|]; split; [|done]; intros k Hk; do 11 (destruct k as [|k]; [try lia; done|]); done).
Qed.
Lemma closing_stops tk : closing tk = true → stops 0 tk.
Proof.
  intros H. destruct tk as [[]| | | | |]; try done; (split; [done|]; split; [done|]; split; [|done]; intros k _; do 11 (destruct k as [|k]; [done|]); done).
Qed.
Lemma qmark_stops : stops 1 (Tok LEX_QMARK).
Proof. split; [done|]; split; [done|]; split; [|done]; intros k Hk; do 11 (destruct k as [|k]; [try lia; done|]); done. Qed.
Lemma suffix_stops tk : is_tok tk LEX_OPEN_BOX = true ∨ is_tok tk LEX_SELECTION = true → stops 13 tk.
Proof.
  intros [->%is_tok_true| ->%is_tok_true]; (split; [done|]; split; [lia|]; split; [|done]; intros k Hk; do 11 (destruct k as [|k]; [lia|]); done).
Qed.

Lemma gram_starts level t ts : gram level t ts → ∃ tk us, ts = tk :: us ∧ starts tk = true ∧ (12 ≤ level → starts_primary tk = true).
Proof.
  induction 1 as [tk t H|s|s|t ts H IH|s args ts t|exprs ts|k attrs ts|t1 ts1 t2 ts2 H1 IH1 H2 IH2|t ts s H IH|tk op t ts H IH|level tk op t1 ts1 t2 ts2 H H1 IH1 H2 IH2|
    t1 ts1 t2 ts2 t3 ts3 H1 IH1 H2 IH2 H3 IH3|level t ts Hl H IH]; try (eexists _, _; by repeat split).
  - destruct tk as [[]| | | | |]; try done; eexists _, _; by repeat split.
  - destruct IH1 as (tk & us & -> & ? & ?). eexists _, _. cbn. eauto.
  - destruct IH as (tk & us & -> & ? & ?). eexists _, _. cbn. eauto.
  - eexists _, _. split; [done|]. unfold starts. rewrite H. split; [by rewrite orb_true_r|lia].
  - destruct IH1 as (tk' & us & -> & ? & ?). eexists _, _. cbn. eauto.
  - destruct IH1 as (tk' & us & -> & ? & ?). eexists _, _. cbn. eauto with lia.
  - destruct IH as (tk & us & -> & ? & ?). eexists _, _. eauto with lia.
Qed.
Lemma gram_nonempty level t ts : gram level t ts → 1 ≤ length ts.
Proof. intros (tk & us & -> & _)%gram_starts. cbn. lia. Qed.
Lemma starts_not_closing tk : starts tk = true → is_tok tk LEX_CLOSE_PAREN = false ∧ is_tok tk LEX_CLOSE_BRACE = false.
Proof. by destruct tk as [[]| | | | |]. Qed.
Lemma primary_not_unary tk : starts_primary tk = true → prefix_op tk = None.
Proof. by destruct tk as [[]| | | | |]. Qed.

(** ** Chains *)

(** What follows the first operand of a level. *)
Inductive chain (level : nat) : ExprTree → ExprTree → list token → Prop :=
| c_nil t : chain level t t []
| c_cons t tk op t2 ts2 t' us : level_op level tk = Some op → gram (S level) t2 ts2 → chain level (Operation op t (Some t2) None) t' us →
    chain level t t' (tk :: ts2 ++ us).
Inductive suffixes : ExprTree → ExprTree → list token → Prop :=
| s_nil t : suffixes t t []
| s_box t t2 ts2 t' us : gram 0 t2 ts2 → suffixes (Operation SUBSCRIPT_OP t (Some t2) None) t' us →
    suffixes t t' (Tok LEX_OPEN_BOX :: ts2 ++ Tok LEX_CLOSE_BOX :: us)
| s_dot t s t' us : suffixes (AttributeReference (Some t) s false) t' us → suffixes t t' (Tok LEX_SELECTION :: LEX_IDENTIFIER s :: us).
Lemma chain_snoc level t t1 us tk op t2 ts2 : chain level t t1 us → level_op level tk = Some op → gram (S level) t2 ts2 →
  chain level t (Operation op t1 (Some t2) None) (us ++ tk :: ts2).
Proof.
  induction 1; intros Hop H2; cbn [app].
  - rewrite <-(app_nil_r ts2). econstructor; [done|done|constructor].
  - rewrite <-app_assoc. econstructor; eauto.
Qed.
Lemma suffixes_app t t1 us t' vs : suffixes t t1 us → suffixes t1 t' vs → suffixes t t' (us ++ vs).
Proof.
  induction 1 as [|t t2 ts2 t1 us H Hs IH|t s t1 us Hs IH]; intros H2; cbn [app]; [done| |].
  - rewrite <-app_assoc. cbn [app]. eapply s_box; eauto.
  - apply s_dot. eauto.
Qed.

Lemma gram_chain level t ts : gram level t ts → 1 ≤ level ≤ 10 → ∃ t0 ts0 us, gram (S level) t0 ts0 ∧ chain level t0 t us ∧ ts = ts0 ++ us.
Proof.
  induction 1 as [tk t H|s|s|t ts H IH|s args ts t|exprs ts|k attrs ts|t1 ts1 t2 ts2 H1 IH1 H2 IH2|t ts s H IH|tk op t ts H IH|level tk op t1 ts1 t2 ts2 Hop H1 IH1 H2 IH2|
    t1 ts1 t2 ts2 t3 ts3 H1 IH1 H2 IH2 H3 IH3|level t ts Hl H IH]; intros Hlevel; try lia.
  - destruct (IH1 Hlevel) as (t0 & ts0 & us & Hg & Hc & ->). eexists t0, ts0, _. split; [done|]. split; [by eapply chain_snoc|]. by rewrite app_assoc.
  - exists t, ts, []. rewrite app_nil_r. repeat split; [done|constructor].
Qed.
Lemma gram_suffixes t ts : gram 12 t ts → ∃ t0 ts0 us, gram 13 t0 ts0 ∧ suffixes t0 t us ∧ ts = ts0 ++ us.
Proof.
  remember 12 as level eqn:El.
  induction 1 as [tk t H|s|s|t ts H IH|s args ts t|exprs ts|k attrs ts|t1 ts1 t2 ts2 H1 IH1 H2 IH2|t ts s H IH|tk op t ts H IH|level tk op t1 ts1 t2 ts2 Hop H1 IH1 H2 IH2|
    t1 ts1 t2 ts2 t3 ts3 H1 IH1 H2 IH2 H3 IH3|level t ts Hl H IH]; try done; subst; try done.
  - destruct (IH1 eq_refl) as (t0 & ts0 & us & Hg & Hc & ->). eexists t0, ts0, (us ++ _). split; [done|]. split; [|by rewrite app_assoc].
    eapply suffixes_app; [done|]. apply (s_box t1 t2 ts2 _ []); [done|constructor].
  - destruct (IH eq_refl) as (t0 & ts0 & us & Hg & Hc & ->). eexists t0, ts0, (us ++ _). split; [done|]. split; [|by rewrite app_assoc].
    eapply suffixes_app; [done|]. apply s_dot. constructor.
  - exists t, ts, []. rewrite app_nil_r. repeat split; [done|constructor].
Qed.

(** ** The loops *)

Ltac peeks H l1 := let Hp := fresh "Hp" in apply yields_peek in H as (l1 & Hp & H); rewrite Hp; clear Hp; cbn [mbind outcome_bind].
Ltac eat H l1 := let Hp := fresh "Hp" in apply yields_consume in H as (l1 & Hp & H); rewrite Hp; clear Hp; cbn [mbind outcome_bind].

Definition complete (level bound : nat) (f : Lexer → outcome (option ExprTree * Lexer)) : Prop :=
  ∀ t ts nx rest l, gram level t ts → length ts < bound → stops level nx → yields l (ts ++ nx :: rest) →
    ∃ l', f l = Ok (Some t, l') ∧ yields l' (nx :: rest).

Section Body.
Context (E : Lexer → outcome (option ExprTree * Lexer)) (n : nat).
Hypothesis HE : complete 0 n E.

Lemma binary_loop_complete level bound f : complete (S level) bound f → ∀ t t' us, chain level t t' us → ∀ k nx rest l, length us < k → length us < bound →
  stops level nx → yields l (us ++ nx :: rest) → ∃ l', binary_loop old k (level_op level) f t l = Ok (Some t', l') ∧ yields l' (nx :: rest).
Proof.
  intros Hf t t' us Hc. induction Hc as [t|t tk op t2 ts2 t' us Hop H2 Hc IH]; intros [|k] nx rest l Hk Hb Hs Hy; try (cbn in Hk; lia); cbn [binary_loop app] in *.
  - peeks Hy l1. destruct Hs as (_ & _ & Hs & _). rewrite (Hs level) by lia. eauto.
  - peeks Hy l1. rewrite Hop. eat Hy l2. cbn [length] in *. rewrite length_app in Hk, Hb.
    assert (∃ nx' rest', us ++ nx :: rest = nx' :: rest' ∧ stops (S level) nx') as (nx' & rest' & Hrest & Hs').
    { destruct Hc; cbn [app]; eexists _, _; (split; [done|]); [|by eapply level_op_stops]. eapply stops_mono; [|done]. lia. }
    rewrite <-app_assoc, Hrest in Hy. destruct (Hf t2 ts2 nx' rest' l2) as (l3 & -> & Hy3); [done|lia|done|done|]. cbn [mbind outcome_bind]. rewrite <-Hrest in Hy3.
    apply IH; [lia|lia|done|done].
Qed.
Lemma binary_complete level f : 1 ≤ level ≤ 10 → complete (S level) (S n) f → complete level (S n) (binary_level old n (level_op level) f).
Proof.
  intros Hl Hf t ts nx rest l Hg Hb Hs Hy. destruct (gram_chain level t ts Hg Hl) as (t0 & ts0 & us & H0 & Hc & ->). pose proof (gram_nonempty _ _ _ H0).
  rewrite length_app in Hb. rewrite <-app_assoc in Hy. unfold binary_level.
  assert (∃ nx' rest', us ++ nx :: rest = nx' :: rest' ∧ stops (S level) nx') as (nx' & rest' & Hrest & Hs').
  { destruct Hc; cbn [app]; eexists _, _; (split; [done|]); [|by eapply level_op_stops]. eapply stops_mono; [|done]. lia. }
  rewrite Hrest in Hy. destruct (Hf t0 ts0 nx' rest' l) as (l1 & -> & Hy1); [done|lia|done|done|]. cbn [mbind outcome_bind]. rewrite <-Hrest in Hy1.
  eapply binary_loop_complete; [done|done|lia|lia|done|done].
Qed.
Lemma item_loop_complete sep close items ts : gitems sep items ts → close = LEX_CLOSE_PAREN ∨ close = LEX_CLOSE_BRACE →
  (∀ tk, sep tk = true → tk = Tok LEX_COMMA ∨ tk = Tok LEX_SEMICOLON) → ∀ k before rest l, length ts < k → length ts < n → yields l (ts ++ Tok close :: rest) →
  ∃ l', item_loop old E sep close k before l = Ok (Some (before ++ items), l') ∧ yields l' rest.
Proof.
  intros Hg Hclose Hsep.
  assert (∀ tk, starts tk = true → is_tok tk close = false) as Hns.
  { intros tk [? ?]%starts_not_closing. by destruct Hclose as [->| ->]. }
  assert (is_tok (Tok close) close = true) as Hcl by (cbn; by apply bool_decide_eq_true).
  assert (sep (Tok close) = false) as Hsc. { destruct (sep (Tok close)) eqn:Es; [|done]. destruct (Hsep _ Es) as [[=]|[=]]; subst; by destruct Hclose. }
  assert (stops 0 (Tok close)) as Hst. { apply closing_stops. by destruct Hclose as [->| ->]. }
  induction Hg as [sep|sep t ts H|sep t ts tk items us H Hs Hg IH]; intros [|k] before rest l Hk Hn Hy; try lia; cbn [item_loop].
  - cbn [app] in Hy. peeks Hy l1. rewrite Hcl. eat Hy l2. rewrite app_nil_r. eauto.
  - destruct (gram_starts _ _ _ H) as (tk & vs & -> & Htk & _). cbn [app] in Hy. peeks Hy l1. rewrite (Hns tk Htk).
    destruct (HE t (tk :: vs) (Tok close) rest l1) as (l2 & -> & Hy2); [done| |done|done|].
    { done. }
    cbn [mbind outcome_bind]. peeks Hy2 l3. rewrite Hsc, Hcl. destruct k as [|k]; [cbn in Hk; lia|]. cbn [item_loop]. peeks Hy2 l4. rewrite Hcl. eat Hy2 l5. eauto.
  - destruct (gram_starts _ _ _ H) as (tk0 & vs & -> & Htk & _). cbn [app] in Hy. peeks Hy l1. rewrite (Hns tk0 Htk).
    rewrite <-app_assoc in Hy. destruct (HE t (tk0 :: vs) tk (us ++ Tok close :: rest) l1) as (l2 & -> & Hy2); [done| | |done|].
    { cbn in Hn |- *. rewrite length_app in Hn. cbn in Hn. lia. }
    { apply closing_stops. by destruct (Hsep _ Hs) as [->| ->]. }
    cbn [mbind outcome_bind]. peeks Hy2 l3. rewrite Hs. eat Hy2 l4. cbn [length] in Hk, Hn. rewrite length_app in Hk, Hn. cbn [length] in Hk, Hn.
    destruct (IH Hsep Hsc k (before ++ [t]) rest l4) as (l5 & -> & Hy5); [lia|lia|done|]. rewrite <-app_assoc. eauto.
Qed.
Lemma skip_semicolons_complete j : ∀ k tk us l, j < k → is_tok tk LEX_SEMICOLON = false → yields l (semis j ++ tk :: us) →
  ∃ l', skip_semicolons old k l = Ok (tk, l') ∧ yields l' (tk :: us).
Proof.
  induction j as [|j IH]; intros [|k] tk us l Hk Htk Hy; try lia; cbn [skip_semicolons semis replicate app] in *; peeks Hy l1.
  - rewrite Htk. eauto.
  - change (is_tok (Tok LEX_SEMICOLON) LEX_SEMICOLON) with true. cbn iota. eat Hy l2. apply IH; [lia|done|done].
Qed.
Lemma attr_expression t ts nx rest l : gram 0 t ts → length ts < n → closing nx = true → yields l (ts ++ nx :: rest) →
  ∃ l', E l = Ok (Some t, l') ∧ yields l' (nx :: rest).
Proof. intros Hg Hn Hc Hy. apply (HE t ts nx rest l); [done|done|by apply closing_stops|done]. Qed.
Lemma ad_attribute k ad tk l s t ts j nx us : s ≠ [] → is_tok tk LEX_CLOSE_BOX = false → gram 0 t ts → length ts < n →
  (j = 0 → is_tok nx LEX_CLOSE_BOX = true) → is_tok nx LEX_SEMICOLON = false → j < k →
  yields l (LEX_IDENTIFIER s :: Tok LEX_BOUND_TO :: ts ++ semis j ++ nx :: us) →
  ∃ l', ad_loop old E (S k) ad tk l = ad_loop old E k (ad_insert s t ad) nx l' ∧ yields l' (nx :: us).
Proof.
  intros Hs Htk Hg Hn Hj Hnx Hk Hy. cbn [ad_loop]. rewrite Htk. eat Hy l1. change (is_tok (LEX_IDENTIFIER s) LEX_SEMICOLON) with false. cbn iota.
  eat Hy l2. change (is_tok (Tok LEX_BOUND_TO) LEX_BOUND_TO) with true. cbn [negb].
  assert (∃ nx' vs, semis j ++ nx :: us = nx' :: vs ∧ (is_tok nx' LEX_SEMICOLON || is_tok nx' LEX_CLOSE_BOX) = true) as (nx' & vs & Hnx' & Hc).
  { destruct j as [|j]; eexists _, _; (split; [done|]); [by rewrite Hj, orb_true_r|done]. }
  assert (closing nx' = true) as Hcl by (destruct nx' as [[]| | | | |]; done).
  rewrite Hnx' in Hy. destruct (attr_expression t ts nx' vs l2 Hg Hn Hcl Hy) as (l3 & -> & Hy3). cbn [mbind outcome_bind option_bind]. destruct s as [|c s]; [done|].
  cbn [Insert]. peeks Hy3 l4. rewrite Hc. rewrite <-Hnx' in Hy3. destruct (skip_semicolons_complete j k nx us l4 Hk Hnx Hy3) as (l5 & -> & Hy5).
  cbn [mbind outcome_bind]. eauto.
Qed.
(** Empty attributes in front of the first. *)
Lemma ad_loop_semis j us rest : ∀ k ad tk l, length (semis j ++ us) < k → is_tok tk LEX_CLOSE_BOX = false → yields l (semis j ++ us ++ rest) →
  ∃ k' tk' l', length us < k' ∧ is_tok tk' LEX_CLOSE_BOX = false ∧ ad_loop old E k ad tk l = ad_loop old E k' ad tk' l' ∧ yields l' (us ++ rest).
Proof.
  induction j as [|j IH]; intros [|k] ad tk l Hk Htk Hy; try lia; cbn [semis replicate app length] in *; [exists (S k), tk, l; eauto|].
  cbn [ad_loop]. rewrite Htk. eat Hy l1. change (is_tok (Tok LEX_SEMICOLON) LEX_SEMICOLON) with true. cbn iota. apply IH; [unfold semis; lia|done|done].
Qed.
Definition attrs_head (attrs : list (cstr * ExprTree)) : token := match attrs with [] => Tok LEX_CLOSE_BOX | (s, _) :: _ => LEX_IDENTIFIER s end.
Lemma attrs_first attrs ts rest : gattrs attrs ts → ts ++ Tok LEX_CLOSE_BOX :: rest = attrs_head attrs :: tail (ts ++ Tok LEX_CLOSE_BOX :: rest).
Proof. by destruct 1. Qed.
Abbreviation inserted := (foldl (fun ad (p : cstr * ExprTree) => ad_insert p.1 p.2 ad)).
Lemma attrs_complete attrs ts : gattrs attrs ts → ∀ k ad tk rest l, length ts < k → length ts < n →
  is_tok tk LEX_CLOSE_BOX = match attrs with [] => true | _ => false end → yields l (ts ++ Tok LEX_CLOSE_BOX :: rest) →
  ∃ l', ad_loop old E k ad tk l = Ok (Some (inserted ad attrs), l') ∧ yields l' rest.
Proof.
  assert (∀ k ad tk rest l, is_tok tk LEX_CLOSE_BOX = true → yields l (Tok LEX_CLOSE_BOX :: rest) → ∃ l', ad_loop old E (S k) ad tk l = Ok (Some ad, l') ∧ yields l' rest) as Hclose.
  { intros k ad tk rest l Htk Hy. cbn [ad_loop]. rewrite Htk. eat Hy l1. eauto. }
  induction 1 as [|s t ts Hs Ht|s t ts j attrs us Hs Ht Hg IH]; intros [|k] ad tk rest l Hk Hn Htk Hy; try lia; cbn [length app] in *.
  - by apply Hclose.
  - destruct (ad_attribute k ad tk l s t ts 0 (Tok LEX_CLOSE_BOX) rest) as (l1 & -> & Hy1); try done; try lia. destruct k as [|k]; [lia|]. by apply Hclose.
  - rewrite !length_app in Hk, Hn. unfold semis in Hk, Hn. rewrite length_replicate in Hk, Hn.
    rewrite <-!app_assoc, (attrs_first attrs us rest Hg) in Hy.
    destruct (ad_attribute k ad tk l s t ts (S j) (attrs_head attrs) (tail (us ++ Tok LEX_CLOSE_BOX :: rest))) as (l1 & -> & Hy1); try done; try lia.
    { by destruct attrs as [|[]]. }
    rewrite <-(attrs_first attrs us rest Hg) in Hy1. apply IH; [lia|lia|by destruct attrs as [|[]]|done].
Qed.
Lemma parseClassAd_complete k attrs ts rest l : gattrs attrs ts → k = 0 ∨ attrs ≠ [] → k + length ts + 2 ≤ n →
  yields l (Tok LEX_OPEN_BOX :: semis k ++ ts ++ Tok LEX_CLOSE_BOX :: rest) →
  ∃ l', parseClassAd old E n false l = Ok (Some (ad_of attrs), l') ∧ yields l' rest.
Proof.
  intros Hg Hk Hn Hy. unfold parseClassAd. eat Hy l1. change (is_tok (Tok LEX_OPEN_BOX) LEX_OPEN_BOX) with true. cbn [negb].
  enough (∃ tk l2, peek l1 = Ok (tk, l2) ∧ ∃ l3, ad_loop old E n [] tk l2 = Ok (Some (ad_of attrs), l3) ∧ yields l3 rest) as (tk & l2 & -> & l3 & H & Hy3).
  { cbn [mbind outcome_bind]. rewrite H. cbn. eauto. }
  destruct attrs as [|[s t] attrs].
  - destruct Hk as [->|]; [|done]. inversion Hg; subst. cbn [semis replicate app] in Hy. apply yields_peek in Hy as (l2 & Hp & Hy). eexists _, _. split; [done|].
    apply (attrs_complete [] [] Hg); [cbn in *; lia|cbn in *; lia|done|done].
  - assert (∃ tk vs, semis k ++ ts ++ Tok LEX_CLOSE_BOX :: rest = tk :: vs ∧ is_tok tk LEX_CLOSE_BOX = false) as (tk & vs & Htk & Hc).
    { destruct k as [|k]; [|by eexists _, _]. cbn [semis replicate app]. rewrite (attrs_first _ _ rest Hg). by eexists _, _. }
    rewrite Htk in Hy. apply yields_peek in Hy as (l2 & Hp & Hy). exists tk, l2. split; [done|]. rewrite <-Htk in Hy.
    destruct (ad_loop_semis k ts (Tok LEX_CLOSE_BOX :: rest) n [] tk l2) as (k' & tk' & l3 & Hk' & Htk' & -> & Hy3); [|done|done|].
    { rewrite length_app. unfold semis. rewrite length_replicate. lia. }
    apply (attrs_complete _ ts Hg); [lia|lia|done|done].
Qed.
Lemma primary_complete : complete 13 (S n) (parsePrimaryExpression old MakeAbsTime MakeRelTime E n).
Proof.
  intros t ts nx rest l Hg. remember 13 as level eqn:El in Hg. unfold parsePrimaryExpression.
  destruct Hg as [tk t H|s|s|t ts H|s args ts t H Hc|exprs ts H|k attrs ts H Hk|t1 ts1 t2 ts2 H1 H2|t ts s H|tk op t ts H1 H|level tk op t1 ts1 t2 ts2 H H1 H2|
    t1 ts1 t2 ts2 t3 ts3 H1 H2 H3|level t ts Hl H]; try discriminate El; intros Hb Hs Hy; cbn [app length] in *.
  - peeks Hy l1. destruct tk as [[]| | | | |]; try discriminate H; injection H as <-; unfold constant; eat Hy l2; eauto.
  - peeks Hy l1. unfold parse_identifier. eat Hy l2. destruct Hs as [Hs _]. peeks Hy l3. rewrite Hs. eauto.
  - peeks Hy l1. unfold parse_absolute. eat Hy l2. eat Hy l3. eauto.
  - peeks Hy l1. unfold parse_parentheses. eat Hy l2. rewrite <-app_assoc in Hy. rewrite length_app in Hb. cbn [length app] in Hy, Hb.
    destruct (attr_expression t ts (Tok LEX_CLOSE_PAREN) (nx :: rest) l2) as (l3 & -> & Hy3); [done|lia|done|done|]. cbn [mbind outcome_bind]. eat Hy3 l4. eauto.
  - eapply (gitems_ext _ _ _ _ (argument_sep old)) in H; [|intros tk; symmetry; apply argument_sep_comma].
    peeks Hy l1. unfold parse_identifier. eat Hy l2. peeks Hy l3. change (is_tok (Tok LEX_OPEN_PAREN) LEX_OPEN_PAREN) with true. cbn iota. unfold parseArgumentList.
    eat Hy l4. change (is_tok (Tok LEX_OPEN_PAREN) LEX_OPEN_PAREN) with true. cbn iota. rewrite <-app_assoc in Hy. rewrite length_app in Hb. cbn [length app] in Hy, Hb.
    destruct (item_loop_complete _ LEX_CLOSE_PAREN _ _ H (or_introl eq_refl)) with (k := n) (before := @nil ExprTree) (rest := nx :: rest) (l := l4) as (l5 & -> & Hy5); [|lia|lia|done|].
    { intros tk. unfold argument_sep. destruct tk as [[]| | | | |]; cbn; auto; done. }
    cbn [mbind outcome_bind app]. rewrite Hc. eauto.
  - eapply (gitems_ext _ _ _ _ list_sep) in H; [|intros tk; symmetry; apply list_sep_comma].
    peeks Hy l1. unfold parseExprList. eat Hy l4. change (is_tok (Tok LEX_OPEN_BRACE) LEX_OPEN_BRACE) with true. cbn iota. rewrite <-app_assoc in Hy.
    rewrite length_app in Hb. cbn [length app] in Hy, Hb.
    destruct (item_loop_complete _ LEX_CLOSE_BRACE _ _ H (or_intror eq_refl)) with (k := n) (before := @nil ExprTree) (rest := nx :: rest) (l := l4) as (l5 & -> & Hy5); [|lia|lia|done|].
    { intros tk. unfold list_sep. destruct tk as [[]| | | | |]; cbn; auto; done. }
    cbn [mbind outcome_bind app option_map]. eauto.
  - rewrite !length_app in Hb. unfold semis in Hb. rewrite length_replicate in Hb. cbn [length] in Hb. rewrite <-!app_assoc in Hy. cbn [app] in Hy.
    apply yields_peek in Hy as (l1 & -> & Hy). cbn [mbind outcome_bind].
    destruct (parseClassAd_complete k attrs ts (nx :: rest) l1) as (l2 & -> & Hy2); [done|done|lia|done|]. cbn [mbind outcome_bind option_map]. eauto.
  - subst. done.
  - lia.
Qed.
Lemma postfix_loop_complete t t' us : suffixes t t' us → ∀ k nx rest l, length us < k → length us ≤ n → stops 12 nx → yields l (us ++ nx :: rest) →
  ∃ l', postfix_loop old E k t l = Ok (Some t', l') ∧ yields l' (nx :: rest).
Proof.
  induction 1 as [t|t t2 ts2 t' us H Hc IH|t s t' us Hc IH]; intros [|k] nx rest l Hk Hn Hs Hy; try lia; cbn [postfix_loop app length] in *.
  - peeks Hy l1. destruct Hs as (_ & [Hs1 Hs2] & _); [done|]. rewrite Hs1, Hs2. eauto.
  - rewrite length_app in Hk, Hn. cbn [length] in Hk, Hn. rewrite <-app_assoc in Hy. cbn [app] in Hy. peeks Hy l1.
    change (is_tok (Tok LEX_OPEN_BOX) LEX_OPEN_BOX) with true. cbn iota. eat Hy l2.
    destruct (attr_expression t2 ts2 (Tok LEX_CLOSE_BOX) (us ++ nx :: rest) l2) as (l3 & -> & Hy3); [done|lia|done|done|]. cbn [mbind outcome_bind]. eat Hy3 l4.
    change (is_tok (Tok LEX_CLOSE_BOX) LEX_CLOSE_BOX) with true. cbn iota. apply IH; [lia|lia|done|done].
  - peeks Hy l1. change (is_tok (Tok LEX_SELECTION) LEX_OPEN_BOX) with false. change (is_tok (Tok LEX_SELECTION) LEX_SELECTION) with true. cbn iota.
    eat Hy l2. eat Hy l3. apply IH; [lia|lia|done|done].
Qed.
Lemma postfix_complete : complete 12 (S n) (parsePostfixExpression old MakeAbsTime MakeRelTime E n).
Proof.
  intros t ts nx rest l Hg Hb Hs Hy. destruct (gram_suffixes _ _ Hg) as (t0 & ts0 & us & H0 & Hc & ->). pose proof (gram_nonempty _ _ _ H0).
  rewrite length_app in Hb. rewrite <-app_assoc in Hy. unfold parsePostfixExpression.
  assert (∃ nx' rest', us ++ nx :: rest = nx' :: rest' ∧ stops 13 nx') as (nx' & rest' & Hrest & Hs').
  { destruct Hc; cbn [app]; eexists _, _; (split; [done|]); [|by apply suffix_stops; left|by apply suffix_stops; right]. eapply stops_mono; [|done]. lia. }
  rewrite Hrest in Hy. destruct (primary_complete t0 ts0 nx' rest' l) as (l1 & -> & Hy1); [done|lia|done|done|]. cbn [mbind outcome_bind]. rewrite <-Hrest in Hy1.
  eapply postfix_loop_complete; [done|lia|lia|done|done].
Qed.
Lemma unary_complete : complete 11 (S n) (parseUnaryExpression old MakeAbsTime MakeRelTime E n n).
Proof.
  enough (∀ k, k ≤ n → complete 11 (S k) (parseUnaryExpression old MakeAbsTime MakeRelTime E n k)) as H by (by apply H).
  induction k as [|k IH]; intros Hk t ts nx rest l Hg Hb Hs Hy; [pose proof (gram_nonempty _ _ _ Hg); lia|]. cbn [parseUnaryExpression].
  remember 11 as level eqn:El in Hg.
  destruct Hg as [tk t H|s|s|t ts H|s args ts t H Hc|exprs ts H|j attrs ts H Hj|t1 ts1 t2 ts2 H1 H2|t ts s H|tk op t ts H1 H|level tk op t1 ts1 t2 ts2 H H1 H2|
    t1 ts1 t2 ts2 t3 ts3 H1 H2 H3|level t ts Hl H]; try discriminate El; subst; try done.
  - cbn [app length] in *. peeks Hy l1. change (unary_op tk) with (prefix_op tk). rewrite H1. eat Hy l2. destruct (IH ltac:(lia) t ts nx rest l2) as (l3 & -> & Hy3); [done|lia|done|done|].
    cbn [mbind outcome_bind option_map]. eauto.
  - destruct (gram_starts _ _ _ H) as (tk & us & -> & _ & Hp). cbn [app] in Hy. peeks Hy l1. change (unary_op tk) with (prefix_op tk). rewrite (primary_not_unary tk) by auto.
    apply (postfix_complete t (tk :: us)); [done|lia|by eapply stops_mono; [|done]; lia|done].
Qed.
Lemma logical_or_complete : complete 1 (S n) (parseLogicalORExpression old MakeAbsTime MakeRelTime E n).
Proof. do 10 (apply binary_complete; [lia|]). apply unary_complete. Qed.
Lemma body_complete full t ts rest l : gram 0 t ts → length ts < S n → ∀ nx, stops 0 nx → (full = true → nx = Tok LEX_END_OF_INPUT) → yields l (ts ++ nx :: rest) →
  ∃ l', expression_body old MakeAbsTime MakeRelTime E n full l = Ok (true, Some t, l') ∧ (full = false → yields l' (nx :: rest)).
Proof.
  intros Hg Hb nx Hs Hf Hy. unfold expression_body. remember 0 as level eqn:El in Hg.
  destruct Hg as [tk t H|s|s|t ts H|s args ts t H Hc|exprs ts H|j attrs ts H Hj|t1 ts1 t2 ts2 H1 H2|t ts s H|tk op t ts H1 H|level tk op t1 ts1 t2 ts2 H H1 H2|
    t1 ts1 t2 ts2 t3 ts3 H1 H2 H3|level t ts Hl H]; try discriminate El; subst; try done.
  - rewrite length_app in Hb. cbn [length] in Hb. rewrite length_app in Hb. cbn [length] in Hb. pose proof (gram_nonempty _ _ _ H1).
    rewrite <-app_assoc in Hy. cbn [app] in Hy. rewrite <-app_assoc in Hy. cbn [app] in Hy.
    destruct (logical_or_complete t1 ts1 (Tok LEX_QMARK) (ts2 ++ Tok LEX_COLON :: ts3 ++ nx :: rest) l) as (l1 & -> & Hy1); [done|lia|apply qmark_stops|done|].
    cbn [mbind outcome_bind]. peeks Hy1 l2. change (is_tok (Tok LEX_QMARK) LEX_QMARK) with true. cbn iota. eat Hy1 l3.
    destruct (attr_expression t2 ts2 (Tok LEX_COLON) (ts3 ++ nx :: rest) l3) as (l4 & -> & Hy4); [done|lia|done|done|]. cbn [mbind outcome_bind]. eat Hy4 l5.
    change (is_tok (Tok LEX_COLON) LEX_COLON) with true. cbn [negb]. destruct (HE t3 ts3 nx rest l5) as (l6 & -> & Hy6); [done|lia|done|done|]. cbn [mbind outcome_bind]. eauto.
  - destruct (logical_or_complete t ts nx rest l) as (l1 & -> & Hy1); [done|lia|by eapply stops_mono; [|done]; lia|done|]. cbn [mbind outcome_bind].
    destruct Hs as (_ & _ & _ & Hq). peeks Hy1 l2. rewrite Hq by done. destruct full; [|eauto]. rewrite (Hf eq_refl) in *. eat Hy1 l3. by exists l3.
Qed.
End Body.

Lemma expression_complete n : complete 0 n (expression old MakeAbsTime MakeRelTime n).
Proof.
  induction n as [|n IH]; intros t ts nx rest l Hg Hb Hs Hy; [lia|]. unfold expression. cbn [parseExpression].
  destruct (body_complete _ n IH false t ts rest l Hg Hb nx Hs) as (l' & H & Hy'); [done|done|]. unfold expression in H. rewrite H. cbn [mbind outcome_bind]. eauto.
Qed.
Lemma parseExpression_complete n full t ts l : gram 0 t ts → length ts < n → yields l (ts ++ [Tok LEX_END_OF_INPUT]) →
  ∃ l', parseExpression old MakeAbsTime MakeRelTime n full l = Ok (true, Some t, l').
Proof.
  intros Hg Hb Hy. destruct n as [|n]; [lia|]. cbn [parseExpression].
  destruct (body_complete _ n (expression_complete n) full t ts [] l Hg Hb (Tok LEX_END_OF_INPUT)) as (l' & H & _); [by apply closing_stops|done|done|eauto].
Qed.
End Complete.
