(* ===== verification/ClassAdScan.v ===== *)
(** * The tokens of printed text

    How the lexer reads the pieces that the unparser writes: operators, numbers, words,
    quoted strings.  What stands behind a piece is any text that [follows] allows. *)

From Stdlib Require Import ZArith Lia Ascii SpecFloat.
From stdpp Require Import base list strings.
From S2P Require Import Operators Prelude ClassAdLexer ClassAdParser ClassAdUnparse ClassAdGrammar.
Open Scope Z_scope.

Section Scan.
Context (old : bool).

(** The lexer reads [ts] from [s]; [v] tells whether the last token ends a value. *)
Definition scans (v : bool) (s : cstr) (ts : list token) : Prop := ∀ last, ends_value last = v → yields old (mkLexer true last s) ts.
Definition reads (v : bool) (s : cstr) (tk : token) (r : cstr) : Prop := ∀ last, ends_value last = v → next_token old last s = Ok (tk, r).

Lemma scans_nil v s : scans v s [].
Proof. intros last _. constructor. Qed.
Lemma scans_cons v s tk r ts : reads v s tk r → scans (ends_value tk) r ts → scans v s (tk :: ts).
Proof.
  intros Hr Hs last Hl. econstructor; [|by apply Hs]. unfold ConsumeToken, PeekToken. cbn [tokenConsumed negb ClassAdLexer.last cursor].
  rewrite (Hr last Hl). done.
Qed.
Lemma next_space last c s : isspace c = true → next_token old last (c :: s) = next_token old last s.
Proof. intros Hc. unfold next_token. cbn [length]. remember (S (length s)) as n. cbn [skip_blank]. by rewrite Hc. Qed.
Lemma yields_cursor last s s' ts : next_token old last s = next_token old last s' → yields old (mkLexer true last s) ts → yields old (mkLexer true last s') ts.
Proof.
  intros E H. inversion H as [|l tk l' us Hc Hy]; subst; [constructor|]. econstructor; [|done]. unfold ConsumeToken, PeekToken in *.
  cbn [tokenConsumed negb ClassAdLexer.last cursor] in *. by rewrite <-E.
Qed.
Lemma scans_space v c s ts : isspace c = true → scans v s ts → scans v (c :: s) ts.
Proof. intros Hc Hs last Hl. eapply yields_cursor; [symmetry; by apply next_space|auto]. Qed.
Lemma scans_skip v s ts : scans v s ts → scans v (skip_while isspace s) ts.
Proof.
  intros Hs last Hl. specialize (Hs last Hl). induction s as [|c s IH]; [done|]. cbn [skip_while]. destruct (isspace c) eqn:Ec; [|done].
  apply IH. eapply yields_cursor; [by apply next_space|done].
Qed.
Lemma next_token_head last c r : isspace c = false → (c =c "/"%char) = false → next_token old last (c :: r) =
  if c =c "-"%char then if ends_value last then Ok (tokenizePunctOperator (c :: r)) else tokenizeNumber old (c :: r)
  else if is_digit c || (c =c "."%char) then tokenizeNumber old (c :: r)
  else if is_alpha c || (c =c "_"%char) then Ok (tokenizeAlphaHead (c :: r))
  else if c =c DQ then tokenizeString DQ (c :: r)
  else if c =c SQ then tokenizeString SQ (c :: r)
  else if c =c NUL then Ok (Tok LEX_END_OF_INPUT, c :: r)
  else Ok (tokenizePunctOperator (c :: r)).
Proof.
  intros Hs Hd. unfold next_token. cbn [length]. cbn [skip_blank]. rewrite Hs, Hd. cbn [mbind outcome_bind].
  destruct (Ascii.eqb_spec c NUL) as [->|]; [|done]. done.
Qed.

(** ** Operators *)

Definition op_token (op : OpKind) : token :=
  match op with
  | LESS_THAN_OP => Tok LEX_LESS_THAN | LESS_OR_EQUAL_OP => Tok LEX_LESS_OR_EQUAL | NOT_EQUAL_OP => Tok LEX_NOT_EQUAL | EQUAL_OP => Tok LEX_EQUAL
  | GREATER_OR_EQUAL_OP => Tok LEX_GREATER_OR_EQUAL | GREATER_THAN_OP => Tok LEX_GREATER_THAN
  | META_EQUAL_OP => Tok LEX_META_EQUAL | META_NOT_EQUAL_OP => Tok LEX_META_NOT_EQUAL
  | UNARY_PLUS_OP | ADDITION_OP => Tok LEX_PLUS | UNARY_MINUS_OP | SUBTRACTION_OP => Tok LEX_MINUS
  | MULTIPLICATION_OP => Tok LEX_MULTIPLY | DIVISION_OP => Tok LEX_DIVIDE | MODULUS_OP => Tok LEX_MODULUS
  | LOGICAL_NOT_OP => Tok LEX_LOGICAL_NOT | LOGICAL_OR_OP => Tok LEX_LOGICAL_OR | LOGICAL_AND_OP => Tok LEX_LOGICAL_AND
  | BITWISE_NOT_OP => Tok LEX_BITWISE_NOT | BITWISE_OR_OP => Tok LEX_BITWISE_OR | BITWISE_XOR_OP => Tok LEX_BITWISE_XOR
  | BITWISE_AND_OP => Tok LEX_BITWISE_AND
  | LEFT_SHIFT_OP => Tok LEX_LEFT_SHIFT | RIGHT_SHIFT_OP => Tok LEX_RIGHT_SHIFT | URIGHT_SHIFT_OP => Tok LEX_URIGHT_SHIFT
  | _ => Tok LEX_TOKEN_ERROR
  end.
Definition is_binary (op : OpKind) : bool := match op with NO_OP | PARENTHESES_OP | TERNARY_OP | SUBSCRIPT_OP => false | _ => negb (is_unary op) end.
(** The text of an operator without the spaces around it. *)
Definition op_text (op : OpKind) : cstr := removelast (tail (opString op)).
Lemma level_op_token level tk op : level_op level tk = Some op → tk = op_token op ∧ is_binary op = true.
Proof. intros H. do 11 (destruct level as [|level]; [destruct tk as [[]| | | | |]; try discriminate H; injection H as <-; done|]). done. Qed.
Lemma binary_text op t1 t2 t3 : is_binary op = true → Unparse_operation op t1 t2 t3 = t1 ++ SP :: op_text op ++ SP :: t2.
Proof. by destruct op. Qed.
Lemma unary_op_token tk op : prefix_op tk = Some op → tk = op_token op ∧ is_unary op = true ∧ op ≠ PARENTHESES_OP.
Proof. intros H. destruct tk as [[]| | | | |]; try discriminate H; injection H as <-; done. Qed.
Lemma lexBuffer_app s r : lexBuffer (s ++ r) r = s.
Proof. unfold lexBuffer. rewrite length_app, Nat.add_sub. apply take_app_length. Qed.
Lemma skip_while_stop f s r : forallb f s = true → at_ch f r = false → skip_while f (s ++ r) = r.
Proof. intros Hs Hr. rewrite skip_while_app_all by done. destruct r as [|c r]; [done|]. cbn in *. by rewrite Hr. Qed.

(** ** Words *)

Definition reserved (s : cstr) : bool := existsb (strcasecmp_eq s) [L "true"; L "false"; L "undefined"; L "error"; L "is"; L "isnt"].
Definition plain_name (s : cstr) : bool := match s with c :: r => (is_alpha c || (c =c "_"%char)) && forallb ident_char r | [] => false end.
Lemma word_token_plain s : reserved s = false → word_token s = LEX_IDENTIFIER s.
Proof. unfold reserved, word_token. cbn [existsb]. intros H. split_bools. repeat match goal with E : strcasecmp_eq _ _ = false |- _ => rewrite E; clear E end. done. Qed.
Lemma alpha_ident c : is_alpha c = true → ident_char c = true.
Proof. unfold ident_char, isalnum. by intros ->. Qed.
Lemma word_head c : is_alpha c || (c =c "_"%char) = true → isspace c = false ∧ (c =c "/"%char) = false ∧ (c =c "-"%char) = false ∧ is_digit c || (c =c "."%char) = false.
Proof. destruct c as [[] [] [] [] [] [] [] []]; try (intros [=]; fail); done. Qed.
Lemma tokenizeAlphaHead_word w rest : forallb is_alpha w = true → at_ch ident_char rest = false → tokenizeAlphaHead (w ++ rest) = (word_token w, rest).
Proof.
  intros Hw Hr. unfold tokenizeAlphaHead. assert (at_ch is_alpha rest = false) as Ha.
  { destruct rest as [|c rest]; [done|]. cbn in *. destruct (is_alpha c) eqn:E; [|done]. by rewrite alpha_ident in Hr. }
  rewrite skip_while_stop by done. assert (at_ch (fun c => is_digit c || (c =c "_"%char)) rest = false) as ->.
  { destruct rest as [|c rest]; [done|]. cbn in *. unfold ident_char, isalnum in Hr. rewrite Ha in Hr. done. }
  by rewrite lexBuffer_app.
Qed.
Lemma tokenizeAlphaHead_name w rest : plain_name w = true → reserved w = false → at_ch ident_char rest = false → tokenizeAlphaHead (w ++ rest) = (LEX_IDENTIFIER w, rest).
Proof.
  intros Hp Hw Hr. destruct (forallb is_alpha w) eqn:Ea.
  { rewrite tokenizeAlphaHead_word by done. by rewrite word_token_plain. }
  assert (forallb ident_char w = true) as Hi.
  { destruct w as [|c w]; [done|]. cbn in *. apply andb_true_iff in Hp as [Hc ->]. rewrite andb_true_r. unfold ident_char, isalnum.
    apply orb_true_iff in Hc as [->| ->]; [done|by rewrite orb_true_r]. }
  unfold tokenizeAlphaHead. destruct (skip_while_decomp is_alpha w) as (p & Ew & Hpa). destruct (skip_while is_alpha w) as [|c q] eqn:Eq.
  { rewrite app_nil_r in Ew. subst. by rewrite Hpa in Ea. }
  pose proof (skip_while_not _ _ _ _ Eq) as Hc. rewrite Ew in *. rewrite forallb_app in Hi. cbn in Hi. split_bools.
  rewrite <-app_assoc, skip_while_stop; [|done|done]. cbn [app at_ch]. assert (is_digit c || (c =c "_"%char) = true) as ->.
  { match goal with E : ident_char c = true |- _ => unfold ident_char, isalnum in E; rewrite Hc in E; done end. }
  cbn [wind tail]. rewrite (skip_while_stop ident_char q rest) by done. change (p ++ c :: q ++ rest) with (p ++ (c :: q) ++ rest). rewrite app_assoc. by rewrite lexBuffer_app.
Qed.
Lemma reads_name v w rest : plain_name w = true → reserved w = false → at_ch ident_char rest = false → reads v (w ++ rest) (LEX_IDENTIFIER w) rest.
Proof.
  intros Hp Hw Hr last _. rewrite <-(f_equal Ok (tokenizeAlphaHead_name w rest Hp Hw Hr)). destruct w as [|c w]; [done|]. cbn [app].
  cbn in Hp. apply andb_true_iff in Hp as [Hc _]. destruct (word_head c Hc) as (H1 & H2 & H3 & H4). rewrite next_token_head, H3, H4, Hc by done. done.
Qed.
Lemma reads_word v c w rest : forallb is_alpha (c :: w) = true → at_ch ident_char rest = false → reads v ((c :: w) ++ rest) (word_token (c :: w)) rest.
Proof.
  intros Hw Hr last _. rewrite <-(f_equal Ok (tokenizeAlphaHead_word (c :: w) rest Hw Hr)). cbn [app forallb] in *. apply andb_true_iff in Hw as [Hc _].
  destruct (word_head c) as (H1 & H2 & H3 & H4); [by rewrite Hc|]. rewrite next_token_head, H3, H4, Hc by done. done.
Qed.
Lemma reads_binary op rest : is_binary op = true → reads true (op_text op ++ SP :: rest) (op_token op) (SP :: rest).
Proof.
  intros Hop.
  destruct (decide (op = META_EQUAL_OP)) as [->|]; [exact (reads_word true "i"%char (L "s") (SP :: rest) eq_refl eq_refl)|].
  destruct (decide (op = META_NOT_EQUAL_OP)) as [->|]; [exact (reads_word true "i"%char (L "snt") (SP :: rest) eq_refl eq_refl)|].
  destruct op; try done; intros last Hl;
    unfold op_text; cbn [opString L String.list_ascii_of_string tail removelast app]; try done; rewrite next_token_head by done; cbn; by rewrite ?Hl.
Qed.

(** ** What stands behind a piece of text *)

Definition follow_char (c : ascii) : bool := has_char c (L " .[],;)}").
Definition is_quote (c : ascii) : bool := (c =c SQ) || (c =c DQ).
Definition follows (rest : cstr) : bool := match rest with [] => true | c :: _ => follow_char c && negb (at_ch is_quote (skip_while isspace rest)) end.
Definition dotted (rest : cstr) : bool := at_ch (fun c => c =c "."%char) rest.
Lemma follows_at f rest : (∀ c, follow_char c = true → f c = false) → follows rest = true → at_ch f rest = false.
Proof. intros Hf H. destruct rest as [|c rest]; [done|]. cbn in *. apply andb_true_iff in H as [H _]. auto. Qed.
Lemma follow_char_ident c : follow_char c = true → ident_char c = false.
Proof. destruct c as [[] [] [] [] [] [] [] []]; done. Qed.
Lemma follow_char_digit c : follow_char c = true → is_digit c = false.
Proof. destruct c as [[] [] [] [] [] [] [] []]; done. Qed.
Lemma follow_char_e c : follow_char c = true → (tolower c =c "e"%char) = false.
Proof. destruct c as [[] [] [] [] [] [] [] []]; done. Qed.
Lemma follow_char_x c : follow_char c = true → (tolower c =c "x"%char) = false.
Proof. destruct c as [[] [] [] [] [] [] [] []]; done. Qed.
Lemma follow_char_quote c : follow_char c = true → is_quote c = false.
Proof. destruct c as [[] [] [] [] [] [] [] []]; done. Qed.
Lemma follow_factor c r : follow_char c = true → number_factor (c :: r) = (NO_FACTOR, c :: r).
Proof. intros H. cbn [number_factor]. destruct c as [[] [] [] [] [] [] [] []]; try discriminate H; done. Qed.
Lemma follows_cons c rest : follow_char c = true → isspace c = false → follows (c :: rest) = true.
Proof. intros Hc Hs. cbn [follows skip_while]. rewrite Hc, Hs. cbn [at_ch]. by rewrite follow_char_quote. Qed.
Lemma follows_quote rest : follows rest = true → at_ch is_quote (skip_while isspace rest) = false.
Proof. destruct rest; [done|]. cbn [follows]. intros [_ H]%andb_true_iff. by apply negb_true_iff. Qed.

(** ** Strings *)

Ltac escaped := match goal with |- context [escape_char ?d ?c] => let t := eval vm_compute in (escape_char d c) in change (escape_char d c) with t end.
Lemma scan_escaped delim c r text rest : is_quote delim = true → (c =c NUL) = false → (∀ o, scan_string delim o false r = Some (text, rest)) →
  ∀ o, scan_string delim o false (escape_char delim c ++ r) = Some (escape_char delim c ++ text, rest).
Proof.
  intros Hd Hc Hr o. unfold is_quote in Hd. apply orb_true_iff in Hd as [->%Ascii.eqb_eq| ->%Ascii.eqb_eq];
    destruct c as [[] [] [] [] [] [] [] []]; try discriminate Hc; escaped; cbn; rewrite ?andb_false_r, ?Hr; done.
Qed.
Lemma convert_escaped delim c r text : is_quote delim = true → (c =c NUL) = false → convert_escapes r = Some text →
  convert_escapes (escape_char delim c ++ r) = Some (c :: text).
Proof.
  intros Hd Hc Hr. unfold is_quote in Hd. apply orb_true_iff in Hd as [->%Ascii.eqb_eq| ->%Ascii.eqb_eq];
    destruct c as [[] [] [] [] [] [] [] []]; try discriminate Hc; escaped; cbn; rewrite ?Hr; done.
Qed.
Definition no_nul (s : cstr) : bool := forallb (fun c => negb (c =c NUL)) s.
Lemma scan_escape delim s rest : is_quote delim = true → no_nul s = true → ∀ o, scan_string delim o false (escape delim s ++ delim :: rest) = Some (escape delim s, rest).
Proof.
  intros Hd. induction s as [|c s IH]; intros Hs o.
  - unfold is_quote in Hd. by apply orb_true_iff in Hd as [->%Ascii.eqb_eq| ->%Ascii.eqb_eq]; cbn; rewrite andb_false_r.
  - cbn in Hs. split_bools. unfold escape in *. cbn [mbind list_bind]. rewrite <-app_assoc. apply scan_escaped; auto.
Qed.
Lemma convert_escape delim s : is_quote delim = true → no_nul s = true → convert_escapes (escape delim s) = Some s.
Proof.
  intros Hd. induction s as [|c s IH]; intros Hs; [done|]. cbn in Hs. split_bools. unfold escape in *. cbn [mbind list_bind]. apply convert_escaped; auto.
Qed.
Lemma tokenizeString_escape delim s rest : is_quote delim = true → no_nul s = true → follows rest = true →
  tokenizeString delim (delim :: escape delim s ++ delim :: rest) = Ok (if delim =c DQ then LEX_STRING_VALUE s else LEX_IDENTIFIER s, skip_while isspace rest).
Proof.
  intros Hd Hs Hf. unfold tokenizeString. cbn [length string_parts wind tail]. rewrite scan_escape by done.
  assert (at_ch (fun c => c =c delim) (skip_while isspace rest) = false) as ->.
  { apply follows_quote in Hf. destruct (skip_while isspace rest) as [|c r]; [done|]. cbn in *. destruct (Ascii.eqb_spec c delim) as [->|]; [|done]. by rewrite Hd in Hf. }
  cbn [mbind outcome_bind option_bind]. by rewrite convert_escape.
Qed.
Lemma reads_string v s rest : no_nul s = true → follows rest = true → reads v (DQ :: escape DQ s ++ DQ :: rest) (LEX_STRING_VALUE s) (skip_while isspace rest).
Proof. intros Hs Hf last _. rewrite next_token_head by done. cbn -[tokenizeString escape]. by rewrite tokenizeString_escape. Qed.

(** ** Identifiers *)

Lemma escape_ident_char c : forallb ident_char (escape_char SQ c) = true → escape_char SQ c = [c].
Proof. destruct c as [[] [] [] [] [] [] [] []]; cbn; intros H; first [discriminate H|done]. Qed.
Lemma escape_ident s : forallb ident_char (escape SQ s) = true → escape SQ s = s.
Proof.
  induction s as [|c s IH]; [done|]. unfold escape in *. cbn [mbind list_bind]. rewrite forallb_app. intros [H1 H2]%andb_true_iff.
  rewrite escape_ident_char by done. cbn [app]. f_equal. auto.
Qed.
Definition name_ok (s : cstr) : bool := negb (reserved s) && no_nul s.
Lemma reads_identifier v s rest : name_ok s = true → follows rest = true →
  ∃ r, reads v (Unparse_identifier s ++ rest) (LEX_IDENTIFIER s) r ∧ (r = rest ∨ r = skip_while isspace rest).
Proof.
  intros Hs Hf. unfold name_ok in Hs. split_bools. unfold Unparse_identifier. destruct (identifierNeedsQuoting (escape SQ s)) eqn:En.
  - exists (skip_while isspace rest). split; [|by right]. cbn [app]. rewrite <-app_assoc. intros last _. rewrite next_token_head by done.
    cbn -[tokenizeString escape]. by rewrite tokenizeString_escape.
  - exists rest. split; [|by left].
    assert (plain_name (escape SQ s) = true) as Hp.
    { unfold identifierNeedsQuoting in En. destruct (escape SQ s) as [|c r]; [done|]. cbn. destruct (is_alpha c || (c =c "_"%char)); [|done]. by apply negb_false_iff in En. }
    assert (escape SQ s = s) as E.
    { apply escape_ident. destruct (escape SQ s) as [|c r]; [done|]. cbn in Hp |- *. apply andb_true_iff in Hp as [Hc ->]. rewrite andb_true_r. unfold ident_char, isalnum.
      apply orb_true_iff in Hc as [->| ->]; [done|by rewrite orb_true_r]. }
    rewrite E in *. apply reads_name; [done|done|]. apply follows_at; [apply follow_char_ident|done].
Qed.
Lemma scans_identifier v s rest us : name_ok s = true → follows rest = true → scans true rest us → scans v (Unparse_identifier s ++ rest) (LEX_IDENTIFIER s :: us).
Proof. intros Hs Hf Hr. destruct (reads_identifier v s rest Hs Hf) as (r & H & [->| ->]); (eapply scans_cons; [done|]); [done|by apply scans_skip]. Qed.
End Scan.
