(* ===== verification/ClassAdNumbers.v ===== *)
(** * The numbers of the ClassAd language

    The texts that the unparser writes for integers and reals are read back as one token, an
    integer with its value. *)

From Stdlib Require Import ZArith Lia Ascii SpecFloat.
From stdpp Require Import base list strings.
From S2P Require Import Operators Prelude ClassAdLexer ClassAdParser ClassAdUnparse ClassAdGrammar ClassAdScan.
Open Scope Z_scope.

Lemma leading_digit fuel n : 0 < n < 10 ^ Z.of_nat fuel → ∃ c r, decimal_loop fuel n = c :: r ∧ (c =c "0"%char) = false.
Proof.
  revert n. induction fuel as [|fuel IH]; intros n Hn; [cbn in Hn; lia|]. cbn [decimal_loop]. destruct (Z.ltb_spec n 10) as [Hlt|Hge].
  - destruct (digit_char_ok n) as [H1 H2]; [lia|]. exists (digit_char n), []. split; [done|]. destruct (Ascii.eqb_spec (digit_char n) "0"%char) as [E|]; [|done].
    rewrite E in H2. change (digit_val "0"%char) with 0 in H2. lia.
  - rewrite Nat2Z.inj_succ, Z.pow_succ_r in Hn by lia. destruct (IH (n / 10)) as (c & r & -> & Hc).
    { split; [apply Z.div_str_pos; lia|apply Z.div_lt_upper_bound; lia]. }
    by eexists _, _.
Qed.
(** The digits of a number: one zero, or no zero in front. *)
Lemma number_digits n : 0 ≤ n < 10 ^ 20 → ∃ c r, decimal n = c :: r ∧ forallb is_digit (c :: r) = true ∧ digits_value (c :: r) = n ∧ ((c =c "0"%char) = true → r = []).
Proof.
  intros Hn. destruct (decimal_loop_ok 20 n Hn) as (E1 & E2 & E3). fold (decimal n) in *. destruct (decide (n = 0)) as [->|].
  - by exists "0"%char, [].
  - destruct (leading_digit 20 n) as (c & r & E & Hc); [change (Z.of_nat 20) with 20; lia|]. fold (decimal n) in E. rewrite E in *. exists c, r. by rewrite Hc.
Qed.
Lemma split_sign_digit c r : is_digit c = true → split_sign (c :: r) = (false, c :: r).
Proof. intros H. destruct (is_digit_plain c H) as (_ & _ & H1 & H2). unfold split_sign. by rewrite H1, H2. Qed.
Lemma take_digits_only s : forallb is_digit s = true → take_digits s = s.
Proof. intros H. rewrite <-(app_nil_r s) at 1. by apply take_digits_all. Qed.
(** [strtoll] on the digits of a number. *)
Lemma strtoll_digits any n : 0 ≤ n < 10 ^ 20 → strtoll any (decimal n) = Z.max (- 2 ^ 63) (Z.min (2 ^ 63 - 1) n) ∧ strtoll any ("-"%char :: decimal n) = Z.max (- 2 ^ 63) (Z.min (2 ^ 63 - 1) (- n)).
Proof.
  intros Hn. destruct (number_digits n Hn) as (c & r & E & Hd & Hv & H0). rewrite E.
  assert (match c :: r with
          | c :: x :: d :: r => if any && (c =c "0"%char) && (tolower x =c "x"%char) && isxdigit d then base_value 16 (take_while isxdigit (d :: r))
                                else if any && (c =c "0"%char) then base_value 8 (take_while isodigit (c :: x :: d :: r)) else digits_value (take_digits (c :: x :: d :: r))
          | c :: _ => if any && (c =c "0"%char) then base_value 8 (take_while isodigit (c :: r)) else digits_value (take_digits (c :: r))
          | [] => 0
          end = n) as Hz.
  { destruct (c =c "0"%char) eqn:Ec.
    - rewrite (H0 eq_refl) in *. apply Ascii.eqb_eq in Ec as ->. rewrite <-Hv. by destruct any.
    - rewrite !andb_false_r. cbn [andb]. pose proof (take_digits_only (c :: r) Hd) as Ht. destruct r as [|x [|d r]]; by rewrite ?Ht. }
  assert (is_digit c = true) as Hc by (cbn in Hd; by apply andb_true_iff in Hd as [? _]).
  unfold strtoll. split.
  - rewrite split_sign_digit by done. rewrite <-Hz. by destruct r as [|x [|d r]].
  - cbn [split_sign]. rewrite Ascii.eqb_refl. rewrite <-Hz. by destruct r as [|x [|d r]].
Qed.
Lemma strtoll_int_text any z : in_int64 z → strtoll any (int_text z) = z.
Proof.
  intros Hz. unfold in_int64 in Hz. unfold int_text. destruct (Z.ltb_spec z 0).
  - destruct (strtoll_digits any (- z)) as [_ ->]; lia.
  - destruct (strtoll_digits any z) as [-> _]; lia.
Qed.

Lemma octal_digits_stop t s : at_ch is_digit s = false → octal_digits t s = (t, s).
Proof. destruct s as [|c s]; [done|]. cbn. by intros ->. Qed.
Lemma digit_not c : is_digit c = true → (c =c "."%char) = false ∧ isspace c = false ∧ (c =c "/"%char) = false ∧ (c =c "-"%char) = false.
Proof. by destruct c as [[] [] [] [] [] [] [] []]. Qed.

(** Characters that may stand behind an integer. *)
Definition after_int (s : cstr) : bool := negb (at_ch (fun c => is_digit c || (c =c "."%char) || (tolower c =c "e"%char) || (tolower c =c "x"%char)) s).
Lemma after_int_at s : after_int s = true → at_ch is_digit s = false ∧ dot_or_e s = false ∧ at_ch (fun c => c =c "."%char) s = false ∧ at_ch (fun c => tolower c =c "x"%char) s = false.
Proof. destruct s as [|c s]; [done|]. cbn. unfold after_int, dot_or_e. cbn [at_ch]. intros H. split_bools. split_and!; try done. by apply orb_false_iff. Qed.

Section Tail.
Context (old : bool).
Lemma number_tail_int start c r tail f rest : forallb is_digit (c :: r) = true → ((c =c "0"%char) = true → r = []) → after_int tail = true → number_factor tail = (f, rest) →
  number_tail old (start ++ tail) c (r ++ tail) = Ok (LEX_INTEGER_VALUE (strtoll (negb old) start) f, rest).
Proof.
  intros Hd H0 Ht Hf. cbn in Hd. apply andb_true_iff in Hd as [Hc Hr]. destruct (digit_not c Hc) as (Hdot & _).
  destruct (after_int_at tail Ht) as (T1 & T2 & T3 & T4).
  assert (number_head c (r ++ tail) = (Some INTEGER, tail)) as Hh.
  { unfold number_head. destruct (c =c "0"%char) eqn:Ec.
    - rewrite (H0 eq_refl). cbn [app]. rewrite T4, octal_digits_stop by done. by rewrite T2.
    - rewrite Hc, skip_while_stop by done. by rewrite T2. }
  unfold number_tail. rewrite Hh. unfold number_fraction. rewrite Hdot, T3. cbn [orb number_exponent negb]. rewrite Hf. by rewrite lexBuffer_app.
Qed.
Lemma factor_follows f rest : follows rest = true → number_factor (factor_text f ++ rest) = (f, rest).
Proof. intros Hf. destruct f; try done. cbn [factor_text app]. destruct rest as [|c rest]; [done|]. apply follow_factor. cbn in Hf. by apply andb_true_iff in Hf as [? _]. Qed.
Lemma factor_after_int f rest : follows rest = true → (f = NO_FACTOR → dotted rest = false) → after_int (factor_text f ++ rest) = true.
Proof.
  intros Hf Hd. destruct f; try done. cbn [factor_text app]. specialize (Hd eq_refl). unfold after_int. destruct rest as [|c rest]; [done|]. cbn in *.
  apply andb_true_iff in Hf as [Hc _]. by rewrite Hd, follow_char_digit, follow_char_e, follow_char_x.
Qed.
Lemma reads_int z f rest : in_int64 z → follows rest = true → (f = NO_FACTOR → dotted rest = false) →
  reads old false (int_text z ++ factor_text f ++ rest) (LEX_INTEGER_VALUE z f) rest.
Proof.
  intros Hz Hf Hd last Hl. pose proof (factor_follows f rest Hf) as Hn. pose proof (factor_after_int f rest Hf Hd) as Ha. unfold in_int64 in Hz.
  rewrite <-(strtoll_int_text (negb old) z Hz) at 2. unfold int_text. destruct (Z.ltb_spec z 0).
  - destruct (number_digits (- z)) as (c & r & E & Hdig & Hv & H0); [lia|]. rewrite E. cbn [app]. rewrite next_token_head by done. rewrite Hl. cbn [tokenizeNumber].
    rewrite Ascii.eqb_refl. assert (is_digit c = true) as -> by (cbn in Hdig; by apply andb_true_iff in Hdig as [? _]).
    by apply (number_tail_int ("-"%char :: c :: r)).
  - destruct (number_digits z) as (c & r & E & Hdig & Hv & H0); [lia|]. rewrite E. cbn [app].
    assert (is_digit c = true) as Hc by (cbn in Hdig; by apply andb_true_iff in Hdig as [? _]). destruct (digit_not c Hc) as (H1 & H2 & H3 & H4).
    rewrite next_token_head by done. rewrite H4, Hc. cbn [orb tokenizeNumber]. rewrite H4. by apply (number_tail_int (c :: r)).
Qed.

(** ** Reals *)

Definition exponent_shape (x : cstr) : Prop :=
  x = [] ∨ ∃ c d ds, x = "E"%char :: c :: d :: ds ∧ (c =c "+"%char) || (c =c "-"%char) = true ∧ forallb is_digit (d :: ds) = true.
(** A digit, a fraction and perhaps an exponent. *)
Definition real_shape (s : cstr) : Prop := ∃ c d ds x, s = c :: "."%char :: d :: ds ++ x ∧ is_digit c = true ∧ forallb is_digit (d :: ds) = true ∧ exponent_shape x.
Lemma fixed_digits_ok k n : length (fixed_digits 10 k n) = k ∧ forallb is_digit (fixed_digits 10 k n) = true.
Proof.
  revert n. induction k as [|k IH]; intros n; [done|]. cbn [fixed_digits]. destruct (IH (n / 10)) as [H1 H2]. rewrite length_app, forallb_app, H1, H2. split; [cbn; lia|].
  cbn. pose proof (Z.mod_pos_bound n 10 ltac:(lia)). by destruct (digit_char_ok (n mod 10)) as [-> _].
Qed.
Lemma fixed_digits_cons k n : ∃ d ds, fixed_digits 10 (S k) n = d :: ds ∧ forallb is_digit (d :: ds) = true.
Proof. destruct (fixed_digits_ok (S k) n) as [H1 H2]. destruct (fixed_digits 10 (S k) n) as [|d ds]; [done|]. eauto. Qed.
Lemma exponent_text_shape x : exponent_shape (exponent_text x).
Proof.
  right. unfold exponent_text. destruct (x <? 0), (Z.abs x <? 100);
    [destruct (fixed_digits_cons 1 (Z.abs x)) as (d & ds & -> & H)|destruct (fixed_digits_cons 2 (Z.abs x)) as (d & ds & -> & H)|
     destruct (fixed_digits_cons 1 (Z.abs x)) as (d & ds & -> & H)|destruct (fixed_digits_cons 2 (Z.abs x)) as (d & ds & -> & H)];
    by eexists _, d, ds.
Qed.
Lemma scientific_shape num den : real_shape (decimal_scientific num den).
Proof.
  unfold decimal_scientific. destruct (if _ =? 10 ^ 16 then _ else _) as [n x].
  destruct (fixed_digits_ok 1 (n / 10 ^ 15)) as [H1 H2]. destruct (fixed_digits 10 1 (n / 10 ^ 15)) as [|c [|]]; try discriminate H1.
  destruct (fixed_digits_cons 14 n) as (d & ds & -> & H). exists c, d, ds, (exponent_text x). split; [done|]. cbn in H2. rewrite andb_true_r in H2.
  split; [done|]. split; [done|apply exponent_text_shape].
Qed.
Definition finite (r : double) : bool := match r with S754_zero _ | S754_finite _ _ _ => true | _ => false end.
Lemma real_text_shape r : finite r = true → ∃ neg s, real_text r = (if neg : bool then "-"%char :: s else s) ∧ real_shape s.
Proof.
  destruct r as [neg| | |neg m e]; try done; intros _; cbn [real_text].
  - exists neg, (L "0.0"). split; [by destruct neg|]. exists "0"%char, "0"%char, [], []. repeat split. by left.
  - exists neg, (if 0 <=? e then decimal_scientific (Z.pos m * 2 ^ e) 1 else decimal_scientific (Z.pos m) (2 ^ (- e))). split; [by destruct neg|].
    destruct (0 <=? e); apply scientific_shape.
Qed.
Definition after_real (s : cstr) : bool := negb (at_ch (fun c => is_digit c || (tolower c =c "e"%char)) s).
Lemma number_tail_real start c d ds x tail f rest : is_digit c = true → forallb is_digit (d :: ds) = true → exponent_shape x → after_real tail = true → number_factor tail = (f, rest) →
  number_tail old (start ++ tail) c ("."%char :: d :: ds ++ x ++ tail) = Ok (LEX_REAL_VALUE (strtod start) f, rest).
Proof.
  intros Hc Hd Hx Ht Hf. assert (at_ch is_digit tail = false ∧ at_ch (fun c => tolower c =c "e"%char) tail = false) as [T1 T2].
  { destruct tail as [|a tail]; [done|]. unfold after_real in Ht. cbn [at_ch] in *. split_bools. done. }
  assert (number_head c ("."%char :: d :: ds ++ x ++ tail) = (Some REAL, "."%char :: d :: ds ++ x ++ tail)) as Hh.
  { unfold number_head. rewrite Hc. destruct (c =c "0"%char); [|done]. rewrite octal_digits_stop by done. done. }
  unfold number_tail. rewrite Hh. unfold number_fraction. cbn [at_ch orb]. rewrite Ascii.eqb_refl, orb_true_r. cbn [wind List.tail at_ch].
  assert (is_digit d = true) as Hd1 by (cbn in Hd; by apply andb_true_iff in Hd as [? _]). rewrite Hd1.
  assert (at_ch is_digit (x ++ tail) = false) as Hx1. { destruct Hx as [->|(a & b & bs & -> & _)]; done. }
  change (d :: ds ++ x ++ tail) with ((d :: ds) ++ x ++ tail). rewrite skip_while_stop by done.
  assert (number_exponent REAL (x ++ tail) = (true, tail)) as ->.
  { destruct Hx as [->|(a & b & bs & -> & Ha & Hb)]; unfold number_exponent; cbn [app]; [by rewrite T2|]. cbn [at_ch wind List.tail]. change (tolower "E" =c "e"%char) with true.
    cbn iota. rewrite Ha. assert (is_digit b = true) as Hb1 by (cbn in Hb; by apply andb_true_iff in Hb as [? _]). cbn [at_ch List.tail]. rewrite Hb1. f_equal.
    change (b :: bs ++ tail) with ((b :: bs) ++ tail). by rewrite skip_while_stop. }
  cbn [negb]. rewrite Hf. by rewrite lexBuffer_app.
Qed.
Lemma factor_after_real f rest : follows rest = true → after_real (factor_text f ++ rest) = true.
Proof.
  intros Hf. destruct f; try done. cbn [factor_text app]. unfold after_real. destruct rest as [|c rest]; [done|]. cbn in *.
  apply andb_true_iff in Hf as [Hc _]. by rewrite follow_char_digit, follow_char_e.
Qed.
Lemma reads_real r f rest : finite r = true → strtod (real_text r) = r → follows rest = true → reads old false (real_text r ++ factor_text f ++ rest) (LEX_REAL_VALUE r f) rest.
Proof.
  intros Hr Hv Hf last Hl. pose proof (factor_follows f rest Hf) as Hn. pose proof (factor_after_real f rest Hf) as Ha. rewrite <-Hv at 2.
  destruct (real_text_shape r Hr) as (neg & s & -> & c & d & ds & x & -> & Hc & Hd & Hx). destruct (digit_not c Hc) as (H1 & H2 & H3 & H4).
  destruct neg; cbn [app]; rewrite <-!app_assoc; rewrite next_token_head by done; [rewrite Hl|rewrite H4, Hc]; cbn [tokenizeNumber orb]; [rewrite Ascii.eqb_refl, Hc|rewrite H4].
  - pose proof (number_tail_real ("-"%char :: c :: "."%char :: d :: ds ++ x) c d ds x (factor_text f ++ rest) f rest Hc Hd Hx Ha Hn) as H. cbn [app] in H. by rewrite <-!app_assoc in H.
  - pose proof (number_tail_real (c :: "."%char :: d :: ds ++ x) c d ds x (factor_text f ++ rest) f rest Hc Hd Hx Ha Hn) as H. cbn [app] in H. by rewrite <-!app_assoc in H.
Qed.
End Tail.
