(* ===== verification/ClassAdText.v ===== *)
(** * Printing and parsing

    The text that the unparser writes for a tree of the grammar, with literals and names
    that have a text, is parsed to the same tree.  The attributes of an ad come back in the order in which the hash table
    gave them. *)

From Stdlib Require Import ZArith Lia Ascii SpecFloat.
From stdpp Require Import base list strings.
From S2P Require Import Operators Prelude ClassAdLexer ClassAdParser ClassAdUnparse ClassAdGrammar ClassAdComplete ClassAdScan ClassAdNumbers.
Open Scope Z_scope.

#[export] Instance spec_float_eq : EqDecision spec_float.
Proof. solve_decision. Defined.

Definition bare_int (t : ExprTree) : bool := match t with Literal (Integer _) NO_FACTOR => true | _ => false end.
Definition printable_literal (v : literal) : bool :=
  match v with
  | Integer z => (- 2 ^ 63 <=? z) && (z <? 2 ^ 63)
  | Real r => finite r && bool_decide (strtod (real_text r) = r)
  | Str s => no_nul s
  | AbsTime _ _ | RelTime _ => false
  | _ => true
  end.
Definition literal_token (v : literal) (f : NumberFactor) : token :=
  match v with
  | Undefined => Tok LEX_UNDEFINED_VALUE | Error => Tok LEX_ERROR_VALUE | Boolean b => LEX_BOOLEAN_VALUE b
  | Integer z => LEX_INTEGER_VALUE z f | Real r => LEX_REAL_VALUE r f | Str s => LEX_STRING_VALUE s
  | AbsTime _ _ | RelTime _ => Tok LEX_TOKEN_ERROR
  end.
Fixpoint joined (sep : token) (texts : list (list token)) : list token :=
  match texts with [] => [] | [t] => t | t :: texts => t ++ sep :: joined sep texts end.

Section Text.
Context (old : bool) (MakeAbsTime MakeRelTime : cstr → option literal).
Context (absTimeToString : Z → Z → cstr) (relTimeToString : double → cstr) (order : ∀ A, list (cstr * A) → list (cstr * A)).
Abbreviation text := (Unparse absTimeToString relTimeToString order).
Abbreviation gram := (gram old MakeAbsTime MakeRelTime).
Abbreviation gitems := (gitems old MakeAbsTime MakeRelTime).
Abbreviation gattrs := (gattrs old MakeAbsTime MakeRelTime).
Abbreviation scans := (scans old).
Abbreviation reads := (reads old).
Abbreviation on_second g := (fun p => (p.1, g p.2)).

(** The tree with the attributes of its ads in the order of printing. *)
Fixpoint reordered (t : ExprTree) : ExprTree :=
  match t with
  | Literal v f => Literal v f
  | AttributeReference e s a => AttributeReference (option_map reordered e) s a
  | Operation op t1 t2 t3 => Operation op (reordered t1) (option_map reordered t2) (option_map reordered t3)
  | FunctionCall s args => FunctionCall s (map reordered args)
  | ClassAd attrs => ClassAd (order ExprTree (map (fun p => (p.1, reordered p.2)) attrs))
  | ExprList exprs => ExprList (map reordered exprs)
  end.
(** The tokens of the text of a tree. *)
Fixpoint tokens (t : ExprTree) : list token :=
  let operand t := match t with Some t => tokens t | None => [] end in
  match t with
  | Literal v f => [literal_token v f]
  | AttributeReference (Some e) s _ => tokens e ++ [Tok LEX_SELECTION; LEX_IDENTIFIER s]
  | AttributeReference None s a => (if a then [Tok LEX_SELECTION] else []) ++ [LEX_IDENTIFIER s]
  | Operation op t1 t2 t3 =>
      match op with
      | PARENTHESES_OP => Tok LEX_OPEN_PAREN :: tokens t1 ++ [Tok LEX_CLOSE_PAREN]
      | TERNARY_OP => tokens t1 ++ Tok LEX_QMARK :: operand t2 ++ Tok LEX_COLON :: operand t3
      | SUBSCRIPT_OP => tokens t1 ++ Tok LEX_OPEN_BOX :: operand t2 ++ [Tok LEX_CLOSE_BOX]
      | _ => if is_unary op then op_token op :: tokens t1 else tokens t1 ++ op_token op :: operand t2
      end
  | FunctionCall s args => LEX_IDENTIFIER s :: Tok LEX_OPEN_PAREN :: joined (Tok LEX_COMMA) (map tokens args) ++ [Tok LEX_CLOSE_PAREN]
  | ClassAd attrs =>
      Tok LEX_OPEN_BOX :: joined (Tok LEX_SEMICOLON) (map (fun p => LEX_IDENTIFIER p.1 :: Tok LEX_BOUND_TO :: p.2)
        (order (list token) (map (fun p => (p.1, tokens p.2)) attrs))) ++ [Tok LEX_CLOSE_BOX]
  | ExprList exprs => Tok LEX_OPEN_BRACE :: joined (Tok LEX_COMMA) (map tokens exprs) ++ [Tok LEX_CLOSE_BRACE]
  end.
(** What can be read back: names that are not words of the language, numbers of the machine that
    their digits determine, no NUL, no time.  The name behind a dot or of a function is printed as it is, and neither a bare
    integer in front of a dot nor a minus in front of a digit is read as it was printed. *)
Fixpoint printable (t : ExprTree) : bool :=
  let operand t := match t with Some t => printable t | None => true end in
  match t with
  | Literal v _ => printable_literal v
  | AttributeReference (Some e) s _ => plain_name s && negb (reserved s) && negb (bare_int e) && printable e
  | AttributeReference None s _ => name_ok s
  | Operation op t1 t2 t3 =>
      (if bool_decide (op = UNARY_MINUS_OP) then negb (at_ch (fun c => is_digit c || (c =c "."%char)) (text t1)) else true) &&
      printable t1 && operand t2 && operand t3
  | FunctionCall s args => plain_name s && negb (reserved s) && forallb printable args
  | ClassAd attrs => forallb (fun p => name_ok p.1 && printable p.2) attrs
  | ExprList exprs => forallb printable exprs
  end.

(** The order in which a hash table gives its entries is some order, and depends on the names only. *)
Context (order_perm : ∀ A (l : list (cstr * A)), order A l ≡ₚ l).
Context (order_map : ∀ A B (g : A → B) l, order B (map (fun p => (p.1, g p.2)) l) = map (fun p => (p.1, g p.2)) (order A l)).

(** ** The text gives the tokens *)

Lemma punct_ok v c rest tk r : isspace c = false → (c =c "/"%char) = false → (c =c "-"%char) = false → is_digit c || (c =c "."%char) = false →
  is_alpha c || (c =c "_"%char) = false → is_quote c = false → (c =c NUL) = false →
  tokenizePunctOperator (c :: rest) = (tk, r) → reads v (c :: rest) tk r.
Proof.
  intros H1 H2 H3 H4 H5 H6 H7 H last _. unfold is_quote in H6. split_bools. rewrite next_token_head, H3, H4, H5 by done.
  repeat match goal with E : (c =c _) = false |- _ => rewrite E; clear E end. by rewrite H.
Qed.
Definition punct (c : ascii) : option TokenType :=
  snd <$> find (fun p => p.1 =c c) [("["%char, LEX_OPEN_BOX); ("]"%char, LEX_CLOSE_BOX); ("("%char, LEX_OPEN_PAREN); (")"%char, LEX_CLOSE_PAREN);
    ("{"%char, LEX_OPEN_BRACE); ("}"%char, LEX_CLOSE_BRACE); (","%char, LEX_COMMA); (";"%char, LEX_SEMICOLON); ("?"%char, LEX_QMARK); (":"%char, LEX_COLON)].
Lemma reads_punct v c tk rest : punct c = Some tk → reads v (c :: rest) (Tok tk) rest.
Proof. intros H. destruct c as [[] [] [] [] [] [] [] []]; try discriminate H; injection H as <-; by apply punct_ok. Qed.
Lemma reads_assign v rest : reads v ("="%char :: SP :: rest) (Tok LEX_BOUND_TO) (SP :: rest).
Proof. by apply punct_ok. Qed.
Lemma reads_dot v c rest : is_digit c || (c =c "."%char) = false → reads v ("."%char :: c :: rest) (Tok LEX_SELECTION) (c :: rest).
Proof.
  intros Hc last _. apply orb_false_iff in Hc as [H1 H2]. rewrite next_token_head by done.
  change (tokenizeNumber old ("."%char :: c :: rest) = Ok (Tok LEX_SELECTION, c :: rest)). cbn [tokenizeNumber].
  change ("."%char =c "-"%char) with false. cbn iota. unfold number_tail, number_head. change ("."%char =c "0"%char) with false. change (is_digit ".") with false. cbn iota.
  unfold number_fraction. change ("."%char =c "."%char) with true. cbn [orb at_ch]. rewrite H2. cbn [at_ch]. by rewrite H1.
Qed.

(** The first character of the text of a tree. *)
Definition start_ok (s : cstr) : bool := match s with c :: _ => negb (c =c "="%char) | [] => false end.
Lemma start_ok_app s r : start_ok s = true → start_ok (s ++ r) = true.
Proof. by destruct s. Qed.
Lemma word_start c : is_alpha c || (c =c "_"%char) = true → (c =c "="%char) = false ∧ is_digit c || (c =c "."%char) = false.
Proof. destruct c as [[] [] [] [] [] [] [] []]; try (intros [=]; fail); done. Qed.
Lemma plain_start s : plain_name s = true → ∃ c r, s = c :: r ∧ (c =c "="%char) = false ∧ is_digit c || (c =c "."%char) = false.
Proof. destruct s as [|c r]; [done|]. cbn. intros [Hc _]%andb_true_iff. exists c, r. split; [done|]. by apply word_start. Qed.
Lemma identifier_start s : ∃ c r, Unparse_identifier s = c :: r ∧ (c =c "="%char) = false ∧ is_digit c || (c =c "."%char) = false.
Proof.
  unfold Unparse_identifier, identifierNeedsQuoting. destruct (escape SQ s) as [|c r]; [by eexists _, _|]. destruct (is_alpha c || (c =c "_"%char)) eqn:Ec; [|by eexists _, _].
  destruct (negb (forallb ident_char r)); [by eexists _, _|]. exists c, r. split; [done|]. by apply word_start.
Qed.
Lemma digit_start c : is_digit c = true → (c =c "="%char) = false.
Proof. by destruct c as [[] [] [] [] [] [] [] []]. Qed.
Lemma literal_start v f : printable_literal v = true → start_ok (Unparse_literal absTimeToString relTimeToString v f) = true.
Proof.
  intros Hv. apply start_ok_app. destruct v as [| |b|z|r|s| |]; try done; cbn [Unparse_value printable_literal] in *.
  - by destruct b.
  - unfold int_text. apply andb_true_iff in Hv as [H1%Z.leb_le H2%Z.ltb_lt]. destruct (Z.ltb_spec z 0); [done|].
    destruct (number_digits z) as (c & r & -> & Hd & _); [lia|]. cbn in Hd |- *. apply andb_true_iff in Hd as [Hd _]. by rewrite digit_start.
  - apply andb_true_iff in Hv as [Hf _]. destruct (real_text_shape r Hf) as (neg & s & -> & c & d & ds & x & -> & Hc & _). destruct neg; [done|]. cbn. by rewrite digit_start.
Qed.
Lemma call_tree_cases s args t : call_tree MakeAbsTime MakeRelTime s args = Some t → t = FunctionCall s args ∨ shouldEvaluateAtParseTime s args = true ∧ ∃ v, t = Literal v NO_FACTOR.
Proof.
  unfold call_tree, evaluateFunction. destruct (shouldEvaluateAtParseTime s args); [|by intros [= <-]; left].
  destruct args as [|[[] f| | | | |] args]; try (by intros [= <-]; left).
  destruct (strcasecmp_eq s (L "absTime")); [|destruct (strcasecmp_eq s (L "relTime")); [|by intros [= <-]; left]];
    (intros (v & _ & ->)%fmap_Some; right; eauto).
Qed.
Lemma text_start level t ts : gram level t ts → printable t = true → start_ok (text t) = true.
Proof.
  induction 1 as [tk t H|s|s|t ts H IH|s args ts t Hi Hc|exprs ts|k attrs ts|t1 ts1 t2 ts2 H1 IH1 H2 IH2|t ts s H IH|tk op t ts H H1 IH|level tk op t1 ts1 t2 ts2 H H1 IH1 H2 IH2|
    t1 ts1 t2 ts2 t3 ts3 H1 IH1 H2 IH2 H3 IH3|level t ts Hl H IH]; intros Hp; try done; cbn [Unparse]; cbn [printable] in Hp; split_bools; auto using start_ok_app.
  - destruct tk as [[]| | | | |]; try discriminate H; injection H as <-; by apply literal_start.
  - cbn [app]. destruct (identifier_start s) as (c & r & -> & Hc & _). cbn. by rewrite Hc.
  - destruct (call_tree_cases _ _ _ Hc) as [->|[_ [v ->]]]; [|by apply literal_start]. cbn [Unparse printable] in *. split_bools.
    destruct (plain_start s) as (c & r & -> & Hcs & _); [done|]. cbn. by rewrite Hcs.
  - apply (start_ok_app (text t1)). auto.
  - destruct (unary_op_token _ _ H) as (_ & Hu & _). by destruct op.
  - destruct (level_op_token _ _ _ H) as (_ & Hu). rewrite binary_text by done. auto using start_ok_app.
  - apply (start_ok_app (text t1)). auto.
Qed.

Definition tscan (level : nat) (t : ExprTree) : Prop := ∀ rest us, follows rest = true → (dotted rest = true → (12 ≤ level)%nat ∧ bare_int t = false) →
  scans true rest us → scans false (text t ++ rest) (tokens t ++ us).
Definition piece (s : cstr) (ts : list token) : Prop := ∀ rest us, follows rest = true → dotted rest = false → scans true rest us → scans false (s ++ rest) (ts ++ us).
Lemma tscan_piece level t : tscan level t → piece (text t) (tokens t).
Proof. intros H rest us Hf Hd Hs. apply H; [done|by rewrite Hd|done]. Qed.
Lemma scans_separated sep c d tk ss tss : sep = c :: d → follow_char c = true → isspace c = false → (c =c "."%char) = false →
  (∀ v r us, scans false r us → scans v (sep ++ r) (tk :: us)) → Forall2 piece ss tss → ∀ rest us, follows rest = true → dotted rest = false → (∀ v, scans v rest us) →
  scans false (separated sep ss ++ rest) (joined tk tss ++ us).
Proof.
  intros -> Hc Hsp Hdot Hsep. induction 1 as [|s ts ss tss H1 H2 IH]; intros rest us Hf Hd Hs; [apply Hs|]. destruct H2 as [|s2 ts2 ss tss H2 H3].
  - by apply H1.
  - change (separated (c :: d) (s :: s2 :: ss)) with (s ++ (c :: d) ++ separated (c :: d) (s2 :: ss)).
    change (joined tk (ts :: ts2 :: tss)) with (ts ++ tk :: joined tk (ts2 :: tss)). rewrite <-!app_assoc. cbn [app]. apply H1; [by apply follows_cons|done|].
    apply (Hsep true). by apply IH.
Qed.
Lemma scans_closing c tk sp rest us : punct c = Some tk → has_char c (L "])}") = true → sp = [] ∨ sp = [SP] → scans true rest us →
  (∀ v, scans v (sp ++ c :: rest) (Tok tk :: us)) ∧ follows (sp ++ c :: rest) = true ∧ dotted (sp ++ c :: rest) = false.
Proof.
  intros Hp Hc Hsp Hs.
  assert (∀ v, scans v (c :: rest) (Tok tk :: us)) as H1.
  { intros v. eapply scans_cons; [by apply reads_punct|]. replace (ends_value (Tok tk)) with true; [done|].
    destruct c as [[] [] [] [] [] [] [] []]; try discriminate Hc; by injection Hp as <-. }
  assert (follow_char c = true ∧ isspace c = false ∧ (c =c "."%char) = false) as (H2 & H3 & H4).
  { destruct c as [[] [] [] [] [] [] [] []]; try discriminate Hc; done. }
  destruct Hsp as [->| ->]; cbn [app].
  - split; [done|]. split; [by apply follows_cons|done].
  - split; [intros v; by apply scans_space|]. split; [|done]. cbn [follows skip_while]. rewrite H3. cbn. by rewrite follow_char_quote.
Qed.
Lemma literal_scan tk v f : token_literal tk = Some (Literal v f) → printable_literal v = true → tscan 13 (Literal v f).
Proof.
  intros Ht Hv rest us Hf Hd Hs. cbn [Unparse tokens app]. unfold Unparse_literal.
  assert (∀ c w, forallb is_alpha (c :: w) = true → ends_value (word_token (c :: w)) = true → scans false ((c :: w) ++ rest) (word_token (c :: w) :: us)) as Hword.
  { intros c w Hw He. eapply scans_cons; [apply reads_word; [done|]|by rewrite He]. apply follows_at; [apply follow_char_ident|done]. }
  destruct v as [| |b|z|r|s| |]; try done; cbn [Unparse_value literal_token printable_literal] in *.
  - exact (Hword "u"%char (L "ndefined") eq_refl eq_refl).
  - exact (Hword "e"%char (L "rror") eq_refl eq_refl).
  - destruct b; [exact (Hword "t"%char (L "rue") eq_refl eq_refl)|exact (Hword "f"%char (L "alse") eq_refl eq_refl)].
  - rewrite <-app_assoc. eapply scans_cons; [|exact Hs]. apply andb_true_iff in Hv as [H1%Z.leb_le H2%Z.ltb_lt]. apply reads_int; [done|done|].
    intros ->. destruct (dotted rest); [|done]. by destruct Hd as [_ Hd].
  - rewrite <-app_assoc. eapply scans_cons; [|exact Hs]. apply andb_true_iff in Hv as [H1 H2%bool_decide_eq_true]. by apply reads_real.
  - rewrite app_nil_r. rewrite <-!app_assoc. cbn [app]. eapply scans_cons; [by apply reads_string|]. by apply scans_skip.
Qed.
Lemma ad_insert_Forall Q s t ad : Q t → Forall (fun p => Q p.2) ad → Forall (fun p : cstr * ExprTree => Q p.2) (ad_insert s t ad).
Proof.
  intros Ht. induction 1 as [|[n u] ad H1 H2 IH]; cbn [ad_insert]; [by repeat constructor|]. destruct (strcasecmp_eq n s); by constructor.
Qed.
Lemma ad_of_Forall Q attrs : Forall (fun p => Q p.2) attrs → Forall (fun p : cstr * ExprTree => Q p.2) (ad_of attrs).
Proof.
  intros H. unfold ad_of. assert (Forall (fun p : cstr * ExprTree => Q p.2) []) as Hn by constructor. revert Hn. generalize (@nil (cstr * ExprTree)).
  induction H as [|[s t] attrs H1 H2 IH]; intros ad Ha; [done|]. cbn [foldl]. apply IH. by apply ad_insert_Forall.
Qed.
Lemma sep_scan c tk : punct c = Some tk → ends_value (Tok tk) = false → ∀ v r us, scans false r us → scans v (c :: r) (Tok tk :: us).
Proof. intros Hp He v r us Hs. eapply scans_cons; [by apply reads_punct|by rewrite He]. Qed.
Lemma pieces items : Forall (fun t => printable t = true → tscan 0 t) items → forallb printable items = true → Forall2 piece (map text items) (map tokens items).
Proof.
  induction 1 as [|t items H1 H2 IH]; intros Hp; cbn in Hp |- *; [constructor|]. apply andb_true_iff in Hp as [? ?]. constructor; [eapply tscan_piece; auto|auto].
Qed.
Lemma attr_pieces es : Forall (fun p => printable p.2 = true → tscan 0 p.2) es → forallb (fun p => name_ok p.1 && printable p.2) es = true →
  Forall2 piece (map (fun p => Unparse_identifier p.1 ++ L " = " ++ p.2) (map (fun p => (p.1, text p.2)) es))
    (map (fun p => LEX_IDENTIFIER p.1 :: Tok LEX_BOUND_TO :: p.2) (map (fun p => (p.1, tokens p.2)) es)).
Proof.
  induction 1 as [|[s t] es H1 H2 IH]; intros Hp; cbn [forallb map fst snd] in Hp |- *; [constructor|]. split_bools. constructor; [|auto].
  intros rest us Hf Hd Hs. rewrite <-!app_assoc. cbn [app]. change (L " = " ++ text t ++ rest) with (SP :: "="%char :: SP :: text t ++ rest).
  apply scans_identifier; [done|done|]. apply scans_space; [done|]. eapply scans_cons; [apply reads_assign|]. apply scans_space; [done|]. eapply tscan_piece; auto.
Qed.
Lemma follows_after_space c r : is_quote c = false → isspace c = false → follows (SP :: c :: r) = true.
Proof. intros Hq Hs. cbn [follows skip_while]. rewrite Hs. change (isspace SP) with true. cbn [at_ch]. by rewrite Hq. Qed.
Lemma op_follows op r : is_binary op = true → follows (SP :: op_text op ++ SP :: r) = true.
Proof. intros H. by destruct op. Qed.
Lemma op_value op : is_binary op || is_unary op = true → ends_value (op_token op) = false.
Proof. by destruct op. Qed.
Lemma reads_unary op t rest : is_unary op = true → start_ok (text t) = true →
  (if bool_decide (op = UNARY_MINUS_OP) then negb (at_ch (fun c => is_digit c || (c =c "."%char)) (text t)) else true) = true →
  reads false (tail (opString op) ++ text t ++ rest) (op_token op) (text t ++ rest).
Proof.
  intros Hu Hst Hm last Hl. destruct (text t) as [|c r]; [done|]. cbn in Hst. destruct op; try done; cbn [opString L String.list_ascii_of_string tail app op_token].
  - rewrite bool_decide_eq_true_2 in Hm by done. cbn in Hm. split_bools. rewrite next_token_head by done. rewrite Hl.
    change ("-"%char =c "-"%char) with true. cbn [tokenizeNumber]. change ("-"%char =c "-"%char) with true. cbn iota.
    repeat match goal with E : _ = false |- _ => rewrite E; clear E end. done.
  - rewrite next_token_head by done. cbn -[Ascii.eqb]. cbn [at_ch]. apply negb_true_iff in Hst. by rewrite Hst.
Qed.
Lemma tscan_up level level' t : (level' ≤ level)%nat → tscan level t → tscan level' t.
Proof. intros Hl H rest us Hf Hd Hs. apply H; [done|intros E; destruct (Hd E); split; [lia|done]|done]. Qed.
Lemma name_scan a s level : name_ok s = true → tscan level (AttributeReference None s a).
Proof.
  intros Hs rest us Hf _ Hr. cbn [Unparse tokens]. destruct a; cbn [app]; [|by apply scans_identifier].
  destruct (identifier_start s) as (c & r & E & _ & Hc). pose proof (scans_identifier old true s rest us Hs Hf Hr) as H. rewrite E in H |- *. cbn [app L String.list_ascii_of_string] in *.
  eapply scans_cons; [by apply reads_dot|done].
Qed.
Lemma selection_scan t s level : tscan 12 t → plain_name s = true → reserved s = false → bare_int t = false → tscan level (AttributeReference (Some t) s false).
Proof.
  intros Ht Hs Hw Hb rest us Hf _ Hr. cbn [Unparse tokens]. rewrite <-!app_assoc. cbn [app L String.list_ascii_of_string]. apply Ht; [by apply follows_cons|done|].
  pose proof (reads_name old true s rest Hs Hw (follows_at _ _ follow_char_ident Hf)) as H. destruct (plain_start s Hs) as (c & r & -> & _ & Hc). cbn [app] in *.
  eapply scans_cons; [by apply reads_dot|]. by eapply scans_cons.
Qed.
Lemma parentheses_scan t level : tscan 0 t → tscan level (Operation PARENTHESES_OP t None None).
Proof.
  intros Ht rest us Hf _ Hr. change (text (Operation PARENTHESES_OP t None None)) with ("("%char :: SP :: text t ++ [SP; ")"%char]). cbn [tokens app]. rewrite <-!app_assoc. cbn [app].
  destruct (scans_closing ")"%char LEX_CLOSE_PAREN [SP] rest us) as (H1 & H2 & H3); [done|done|by right|done|].
  apply sep_scan; [done|done|]. apply scans_space; [done|]. by eapply tscan_piece.
Qed.
Lemma list_scan exprs level : Forall2 piece (map text exprs) (map tokens exprs) → tscan level (ExprList exprs).
Proof.
  intros Hp rest us Hf _ Hr. cbn [Unparse tokens]. change (L "{ ") with ["{"%char; SP]. change (L " }") with ([SP] ++ ["}"%char]). cbn [app]. rewrite <-!app_assoc. cbn [app].
  destruct (scans_closing "}"%char LEX_CLOSE_BRACE [SP] rest us) as (H1 & H2 & H3); [done|done|by right|done|].
  apply sep_scan; [done|done|]. apply scans_space; [done|]. eapply (scans_separated _ ","%char []); try done. by apply sep_scan.
Qed.
Lemma call_scan s args level : plain_name s = true → reserved s = false → Forall2 piece (map text args) (map tokens args) → tscan level (FunctionCall s args).
Proof.
  intros Hs Hw Hp rest us Hf _ Hr. cbn [Unparse tokens]. change (L "(") with ["("%char]. change (L ")") with [")"%char]. cbn [app]. rewrite <-!app_assoc. cbn [app]. rewrite <-!app_assoc. cbn [app].
  destruct (scans_closing ")"%char LEX_CLOSE_PAREN [] rest us) as (H1 & H2 & H3); [done|done|by left|done|].
  eapply scans_cons; [by apply reads_name|]. apply sep_scan; [done|done|]. eapply (scans_separated _ ","%char []); try done. by apply sep_scan.
Qed.
Lemma ad_scan attrs level : Forall (fun p => printable p.2 = true → tscan 0 p.2) attrs → forallb (fun p => name_ok p.1 && printable p.2) attrs = true → tscan level (ClassAd attrs).
Proof.
  intros Ha Hp rest us Hf _ Hr. cbn [Unparse tokens]. rewrite !order_map. change (L "[ ") with ["["%char; SP]. change (L " ]") with ([SP] ++ ["]"%char]). cbn [app].
  rewrite <-!app_assoc. cbn [app]. destruct (scans_closing "]"%char LEX_CLOSE_BOX [SP] rest us) as (H1 & H2 & H3); [done|done|by right|done|].
  apply sep_scan; [done|done|]. apply scans_space; [done|]. eapply (scans_separated _ ";"%char [SP]); try done.
  - intros v r vs Hs. cbn [L String.list_ascii_of_string app]. apply sep_scan; [done|done|]. by apply scans_space.
  - apply attr_pieces; [by rewrite order_perm|]. rewrite forallb_Forall in Hp |- *. by rewrite order_perm.
Qed.
Lemma subscript_scan t1 t2 level : tscan 12 t1 → tscan 0 t2 → tscan level (Operation SUBSCRIPT_OP t1 (Some t2) None).
Proof.
  intros Ht1 Ht2 rest us Hf _ Hr. change (text (Operation SUBSCRIPT_OP t1 (Some t2) None)) with (text t1 ++ ["["%char] ++ text t2 ++ ["]"%char]). cbn [tokens]. rewrite <-!app_assoc. cbn [app].
  destruct (scans_closing "]"%char LEX_CLOSE_BOX [] rest us) as (H1 & H2 & H3); [done|done|by left|done|].
  rewrite <-!app_assoc. cbn [app]. apply Ht1; [by apply follows_cons|done|]. apply sep_scan; [done|done|]. by eapply tscan_piece.
Qed.
Lemma unary_scan op t1 level : is_unary op = true → start_ok (text t1) = true →
  (if bool_decide (op = UNARY_MINUS_OP) then negb (at_ch (fun c => is_digit c || (c =c "."%char)) (text t1)) else true) = true → (level ≤ 11)%nat →
  tscan 11 t1 → tscan level (Operation op t1 None None).
Proof.
  intros Hu Hst Hm Hl Ht rest us Hf Hd Hr.
  assert (text (Operation op t1 None None) = SP :: tail (opString op) ++ text t1) as -> by (by destruct op).
  assert (tokens (Operation op t1 None None) = op_token op :: tokens t1) as -> by (by destruct op). cbn [app]. rewrite <-app_assoc.
  apply scans_space; [done|]. eapply scans_cons; [by apply reads_unary|]. rewrite op_value by (by rewrite Hu, orb_true_r).
  apply Ht; [done|intros E; destruct (Hd E); lia|done].
Qed.
Lemma binary_scan op t1 t2 level : is_binary op = true → tscan level t1 → tscan (S level) t2 → (level ≤ 10)%nat → tscan level (Operation op t1 (Some t2) None).
Proof.
  intros Ho Ht1 Ht2 Hl rest us Hf Hd Hr. cbn [Unparse]. rewrite binary_text by done.
  assert (tokens (Operation op t1 (Some t2) None) = tokens t1 ++ op_token op :: tokens t2) as -> by (by destruct op). rewrite <-!app_assoc. cbn [app].
  apply Ht1; [by rewrite <-app_assoc; apply op_follows|done|]. apply scans_space; [done|]. rewrite <-app_assoc. cbn [app].
  eapply scans_cons; [by apply reads_binary|]. rewrite op_value by (by rewrite Ho). apply scans_space; [done|].
  apply Ht2; [done|intros E; destruct (Hd E); lia|done].
Qed.
Lemma conditional_scan t1 t2 t3 : tscan 1 t1 → tscan 0 t2 → tscan 0 t3 → tscan 0 (Operation TERNARY_OP t1 (Some t2) (Some t3)).
Proof.
  intros Ht1 Ht2 Ht3 rest us Hf Hd Hr.
  change (text (Operation TERNARY_OP t1 (Some t2) (Some t3))) with (text t1 ++ [SP; "?"%char; SP] ++ text t2 ++ [SP; ":"%char; SP] ++ text t3). cbn [tokens].
  rewrite <-!app_assoc. cbn [app]. rewrite <-!app_assoc. cbn [app]. apply (tscan_piece 1 t1 Ht1); [by apply follows_after_space|done|]. apply scans_space; [done|].
  apply sep_scan; [done|done|]. apply scans_space; [done|]. apply (tscan_piece 0 t2 Ht2); [by apply follows_after_space|done|]. apply scans_space; [done|].
  apply sep_scan; [done|done|]. apply scans_space; [done|]. apply Ht3; [done|intros E; destruct (Hd E); lia|done].
Qed.
Lemma text_scans : (∀ level t ts, gram level t ts → printable t = true → tscan level t) ∧
  (∀ sep items ts, gitems sep items ts → Forall (fun t => printable t = true → tscan 0 t) items) ∧
  (∀ attrs ts, gattrs attrs ts → Forall (fun p => printable p.2 = true → tscan 0 p.2) attrs).
Proof.
  apply gram_mutual; try (intros; by repeat constructor).
  - intros tk t H Hp. destruct t as [v f| | | | |]; [|by destruct tk as [[]| | | | |]..]. by eapply literal_scan.
  - intros s Hp. by apply name_scan.
  - intros s Hp. by apply name_scan.
  - intros t ts H IH Hp. cbn [printable] in Hp. split_bools. apply parentheses_scan. auto.
  - intros s args ts t Hi IH Hc Hp. destruct (call_tree_cases _ _ _ Hc) as [->|[_ [v ->]]].
    + cbn [printable] in Hp. split_bools. apply call_scan; [done|done|by apply pieces].
    + eapply (literal_scan (literal_token v NO_FACTOR)); [|done]. by destruct v.
  - intros exprs ts Hi IH Hp. apply list_scan. by apply pieces.
  - intros k attrs ts Hg IH _ Hp. apply ad_scan; [|done]. by apply (ad_of_Forall (fun t => printable t = true → tscan 0 t)).
  - intros t1 ts1 t2 ts2 H1 IH1 H2 IH2 Hp. cbn [printable] in Hp. split_bools. apply subscript_scan; auto.
  - intros t ts s H IH Hp. cbn [printable] in Hp. split_bools. apply selection_scan; auto.
  - intros tk op t ts Hop H IH Hp. cbn [printable] in Hp. split_bools. destruct (unary_op_token _ _ Hop) as (_ & Hu & _). apply unary_scan; auto. by eapply text_start.
  - intros level tk op t1 ts1 t2 ts2 Hop H1 IH1 H2 IH2 Hp. cbn [printable] in Hp. split_bools. destruct (level_op_token _ _ _ Hop) as (_ & Hb).
    assert (level ≤ 10)%nat by (do 11 (destruct level as [|level]; [lia|]); done). apply binary_scan; auto.
  - intros t1 ts1 t2 ts2 t3 ts3 H1 IH1 H2 IH2 H3 IH3 Hp. cbn [printable] in Hp. split_bools. apply conditional_scan; auto.
  - intros level t ts Hl H IH Hp. eapply tscan_up; [|auto]. lia.
Qed.

(** ** The tokens are of the grammar *)

Lemma reordered_args s args : shouldEvaluateAtParseTime s (map reordered args) = shouldEvaluateAtParseTime s args.
Proof. unfold shouldEvaluateAtParseTime. f_equal. by destruct args as [|[] [|? ?]]. Qed.
Definition canonical (level : nat) (t : ExprTree) : Prop := gram level (reordered t) (tokens t).
Lemma joined_items sep : sep (Tok LEX_COMMA) = true → ∀ items, Forall (canonical 0) items → gitems sep (map reordered items) (joined (Tok LEX_COMMA) (map tokens items)).
Proof.
  intros Hs items. induction 1 as [|t items H1 H2 IH]; [constructor|]. destruct H2 as [|t2 items H2 H3]; [by apply gi_one|].
  change (gitems sep (reordered t :: map reordered (t2 :: items)) (tokens t ++ Tok LEX_COMMA :: joined (Tok LEX_COMMA) (map tokens (t2 :: items)))).
  by apply gi_cons.
Qed.
Lemma joined_attrs es : Forall (fun p => p.1 ≠ [] ∧ canonical 0 p.2) es →
  gattrs (map (fun p => (p.1, reordered p.2)) es) (joined (Tok LEX_SEMICOLON) (map (fun p => LEX_IDENTIFIER p.1 :: Tok LEX_BOUND_TO :: p.2) (map (fun p => (p.1, tokens p.2)) es))).
Proof.
  induction 1 as [|[s t] es [H1 H1'] H2 IH]; [constructor|]. destruct H2 as [|[s2 t2] es H2 H3]; [by apply gt_one|].
  eapply (gt_cons _ _ _ s (reordered t) (tokens t) 0); [done|done|exact IH].
Qed.
(** The names of an ad differ in more than case. *)
Definition keys (attrs : list (cstr * ExprTree)) : list cstr := map (fun p => tolower <$> p.1) attrs.
Lemma ad_insert_keys s t ad : keys (ad_insert s t ad) = if decide (tolower <$> s ∈ keys ad) then keys ad else keys ad ++ [tolower <$> s].
Proof.
  induction ad as [|[n u] ad IH]; cbn [ad_insert keys map fst]; [by destruct (decide _) as [H%elem_of_nil|]|]. fold (keys ad). unfold strcasecmp_eq.
  destruct (bool_decide_reflect (tolower <$> n = tolower <$> s)) as [E|E]; cbn [keys map fst].
  - rewrite decide_True; [done|]. rewrite E. apply elem_of_cons. by left.
  - fold (keys (ad_insert s t ad)). rewrite IH. destruct (decide (tolower <$> s ∈ keys ad)) as [Hin|Hout].
    + rewrite decide_True; [done|]. apply elem_of_cons. by right.
    + rewrite decide_False; [done|]. intros [Hin|Hin]%elem_of_cons; [by symmetry in Hin|done].
Qed.
Lemma ad_of_keys attrs : NoDup (keys (ad_of attrs)).
Proof.
  unfold ad_of. assert (NoDup (keys [])) as Hn by constructor. revert Hn. generalize (@nil (cstr * ExprTree)).
  induction attrs as [|[s t] attrs IH]; intros ad Ha; [done|]. cbn [foldl]. apply IH. rewrite ad_insert_keys. destruct (decide _) as [|Hs]; [done|].
  apply NoDup_app. split; [done|]. split; [|apply NoDup_singleton]. intros x Hx ->%list_elem_of_singleton. done.
Qed.
Lemma ad_insert_new s t ad : tolower <$> s ∉ keys ad → ad_insert s t ad = ad ++ [(s, t)].
Proof.
  induction ad as [|[n u] ad IH]; intros H; [done|]. cbn [ad_insert keys map fst] in *. fold (keys ad) in H. rewrite elem_of_cons in H. unfold strcasecmp_eq.
  rewrite bool_decide_eq_false_2 by (intros E; apply H; by left). cbn [app]. f_equal. apply IH. auto.
Qed.
Lemma ad_of_distinct attrs : NoDup (keys attrs) → ad_of attrs = attrs.
Proof.
  enough (∀ ad, NoDup (keys (ad ++ attrs)) → foldl (fun ad p => ad_insert p.1 p.2 ad) ad attrs = ad ++ attrs) as H by (apply (H [])).
  induction attrs as [|[s t] attrs IH]; intros ad Hn; [by rewrite app_nil_r|]. cbn [foldl fst snd]. rewrite ad_insert_new.
  - rewrite IH; [by rewrite <-app_assoc|by rewrite <-app_assoc].
  - unfold keys in Hn. rewrite map_app in Hn. apply NoDup_app in Hn as (_ & Hn & _). intros Hin. apply (Hn _ Hin). apply elem_of_cons. by left.
Qed.
Lemma ad_of_names Q attrs : Forall (fun p => Q p.1) attrs → Forall (fun p : cstr * ExprTree => Q p.1) (ad_of attrs).
Proof.
  intros H. unfold ad_of. assert (Forall (fun p : cstr * ExprTree => Q p.1) []) as Hn by constructor. revert Hn. generalize (@nil (cstr * ExprTree)).
  induction H as [|[s t] attrs H1 H2 IH]; intros ad Ha; [done|]. cbn [foldl]. apply IH. clear IH H2. cbn [fst snd] in *.
  induction Ha as [|[n u] ad Hn Ha IHa]; cbn [ad_insert]; [by repeat constructor|]. destruct (strcasecmp_eq n s); by constructor.
Qed.
Lemma ad_canonical attrs : NoDup (keys attrs) → Forall (fun p => p.1 ≠ [] ∧ canonical 0 p.2) attrs → canonical 13 (ClassAd attrs).
Proof.
  intros Hn Ha. unfold canonical. cbn [reordered tokens]. rewrite !order_map.
  assert (NoDup (keys (map (fun p => (p.1, reordered p.2)) (order ExprTree attrs)))) as Hk.
  { unfold keys. rewrite map_map. cbn [fst]. fold (keys (order ExprTree attrs)). assert (keys (order ExprTree attrs) ≡ₚ keys attrs) as ->; [|done].
    unfold keys. by rewrite order_perm. }
  rewrite <-(ad_of_distinct _ Hk) at 1. apply (g_ad _ _ _ 0); [|by left]. apply joined_attrs. by rewrite order_perm.
Qed.
Lemma call_canonical s args : call_tree MakeAbsTime MakeRelTime s args = Some (FunctionCall s args) → Forall (canonical 0) args → canonical 13 (FunctionCall s args).
Proof.
  intros Hc Ha. unfold canonical. cbn [reordered tokens]. apply (g_call _ _ _ s (map reordered args)); [by apply joined_items|].
  unfold call_tree in *. rewrite reordered_args. destruct (shouldEvaluateAtParseTime s args) eqn:Es; [|done].
  unfold shouldEvaluateAtParseTime in Es. apply andb_true_iff in Es as [_ Es]. by destruct args as [|[[]| | | | |] [|]].
Qed.
Lemma printable_items items : Forall (fun t => printable t = true → canonical 0 t) items → forallb printable items = true → Forall (canonical 0) items.
Proof. rewrite forallb_Forall. intros H1 H2. eapply Forall_impl; [apply Forall_and; split; [exact H1|exact H2]|]. cbn. tauto. Qed.
Lemma text_canonical : (∀ level t ts, gram level t ts → printable t = true → canonical level t) ∧
  (∀ sep items ts, gitems sep items ts → Forall (fun t => printable t = true → canonical 0 t) items) ∧
  (∀ attrs ts, gattrs attrs ts → Forall (fun p => p.1 ≠ []) attrs ∧ Forall (fun p => printable p.2 = true → canonical 0 p.2) attrs).
Proof.
  apply gram_mutual.
  - intros tk t H Hp. destruct tk as [[]| | | | |]; try discriminate H; injection H as <-; by apply g_literal.
  - intros s _. apply g_reference.
  - intros s _. apply g_absolute.
  - intros t ts H IH Hp. cbn [printable] in Hp. split_bools. apply (g_parentheses _ _ _ (reordered t)). by apply IH.
  - intros s args ts t Hi IH Hc Hp. destruct (call_tree_cases _ _ _ Hc) as [->|[_ [v ->]]].
    + cbn [printable] in Hp. split_bools. apply call_canonical; [done|]. by apply printable_items.
    + apply g_literal. by destruct v.
  - intros exprs ts Hi IH Hp. apply (g_list _ _ _ (map reordered exprs)). apply joined_items; [done|]. by apply printable_items.
  - intros k attrs ts Hg [IH1 IH2] _ Hp. apply ad_canonical; [apply ad_of_keys|]. apply Forall_and. split; [by apply (ad_of_names (fun s => s ≠ []))|].
    apply (ad_of_Forall (fun t => printable t = true → canonical 0 t)) in IH2. cbn [printable] in Hp. apply forallb_Forall in Hp.
    eapply Forall_impl; [apply Forall_and; split; [exact IH2|exact Hp]|]. intros p [H1 H2]. cbn in H2. apply andb_true_iff in H2 as [_ H2]. auto.
  - intros t1 ts1 t2 ts2 H1 IH1 H2 IH2 Hp. cbn [printable] in Hp. split_bools. apply (g_subscript _ _ _ (reordered t1) _ (reordered t2)); auto; by apply IH1 || by apply IH2.
  - intros t ts s H IH Hp. cbn [printable] in Hp. split_bools. apply (g_selection _ _ _ (reordered t)). by apply IH.
  - intros tk op t ts Hop H IH Hp. cbn [printable] in Hp. split_bools. destruct (unary_op_token _ _ Hop) as (Etk & Hu & _). unfold canonical.
    assert (tokens (Operation op t None None) = tk :: tokens t) as -> by (rewrite Etk; by destruct op). apply (g_unary _ _ _ tk op (reordered t)); [done|]. by apply IH.
  - intros level tk op t1 ts1 t2 ts2 Hop H1 IH1 H2 IH2 Hp. cbn [printable] in Hp. split_bools. destruct (level_op_token _ _ _ Hop) as (Etk & Hb). unfold canonical.
    assert (tokens (Operation op t1 (Some t2) None) = tokens t1 ++ tk :: tokens t2) as -> by (rewrite Etk; by destruct op).
    apply (g_binary _ _ _ level tk op (reordered t1) _ (reordered t2)); [done|by apply IH1|by apply IH2].
  - intros t1 ts1 t2 ts2 t3 ts3 H1 IH1 H2 IH2 H3 IH3 Hp. cbn [printable] in Hp. split_bools.
    apply (g_conditional _ _ _ (reordered t1) _ (reordered t2) _ (reordered t3)); [by apply IH1|by apply IH2|by apply IH3].
  - intros level t ts Hl H IH Hp. apply g_up; [done|]. by apply IH.
  - constructor.
  - intros sep t ts H IH. by constructor.
  - intros sep t ts tk items us H IH _ _ IHs. by constructor.
  - split; constructor.
  - intros s t ts Hs H IH. split; constructor; (done || constructor).
  - intros s t ts k attrs us Hs H IH _ [IH1 IH2]. split; by constructor.
Qed.
End Text.
