(* ===== verification/ClassAdSyntax.v ===== *)
(** * The parser and the printer of the ClassAd language

    The class [ClassAdParser] accepts the grammar and nothing else, and reads what
    [ClassAdUnParser] printed. *)

From Stdlib Require Import ZArith Lia Ascii SpecFloat.
From stdpp Require Import base list strings.
From S2P Require Import Operators Prelude ClassAdLexer ClassAdParser ClassAdUnparse ClassAdGrammar ClassAdComplete ClassAdScan ClassAdText.
Open Scope nat_scope.

Section Syntax.
Context (old : bool) (MakeAbsTime MakeRelTime : cstr → option literal).
Abbreviation gram := (gram old MakeAbsTime MakeRelTime).
Abbreviation ParseExpression := (ParseExpression old MakeAbsTime MakeRelTime).
Abbreviation ParseClassAd := (ParseClassAd old MakeAbsTime MakeRelTime).

Lemma ParseExpression_gram n last buffer full t : ParseExpression n last buffer full = Ok (Some t) →
  ∃ ts l, gram 0 t ts ∧ eats old (Initialize last buffer) ts l ∧
    (full = true → (∃ l', ConsumeToken old l = Ok (Tok LEX_END_OF_INPUT, l')) ∨ ∃ t1 t2 t3, t = Operation TERNARY_OP t1 t2 t3).
Proof.
  intros H. unfold ClassAdParser.ParseExpression in H. apply bind_ok in H as ([[b tr] l'] & H & E). destruct b; [|done]. injection E as ->.
  destruct n as [|n]; [done|]. cbn [parseExpression] in H. eapply body_sound in H as (ts & l1 & Hg & He & Hf); [|apply expression_sound].
  exists ts, l1. split; [done|]. split; [done|]. intros ->. destruct Hf as [[? _]|[_ [[_ Ht]|(tk & Hc & Hb)]]]; [done|by right|]. left. symmetry in Hb.
  apply is_tok_true in Hb as ->. eauto.
Qed.
Lemma ParseClassAd_gram n last buffer full ad : ParseClassAd n last buffer full = Ok (Some ad) →
  ∃ ts l, gram 13 (ClassAd ad) ts ∧ eats old (Initialize last buffer) ts l ∧ (full = true → ∃ l', ConsumeToken old l = Ok (Tok LEX_END_OF_INPUT, l')).
Proof.
  intros H. unfold ClassAdParser.ParseClassAd in H. apply bind_ok in H as ([tr l'] & H & E). injection E as ->.
  destruct full.
  - assert (∃ l1, parseClassAd old (expression old MakeAbsTime MakeRelTime n) n false (Initialize last buffer) = Ok (Some ad, l1) ∧
      ∃ l2, ConsumeToken old l1 = Ok (Tok LEX_END_OF_INPUT, l2)) as (l1 & H1 & H2).
    { unfold parseClassAd in *. apply bind_ok in H as ([tk l1] & Hc & H). rewrite Hc. cbn [mbind outcome_bind]. destruct (negb _); [done|].
      apply bind_ok in H as ([tk2 l2] & Hp & H). rewrite Hp. cbn [mbind outcome_bind]. apply bind_ok in H as ([ad' l3] & Ha & H). rewrite Ha. cbn [mbind outcome_bind].
      destruct ad' as [ad'|]; [|done]. apply bind_ok in H as ([tk4 l4] & Hc4 & H). destruct (is_tok tk4 LEX_END_OF_INPUT) eqn:Et; [|done]. injection H as -> <-.
      apply is_tok_true in Et as ->. eauto. }
    eapply parseClassAd_sound in H1 as (ts & Hg & He); [|apply expression_sound]. eauto 10.
  - eapply parseClassAd_sound in H as (ts & Hg & He); [|apply expression_sound]. exists ts, l'. split; [done|]. split; [done|]. done.
Qed.
Lemma ParseExpression_tokens n last buffer full t ts : gram 0 t ts → yields old (Initialize last buffer) (ts ++ [Tok LEX_END_OF_INPUT]) → length ts < n →
  ParseExpression n last buffer full = Ok (Some t).
Proof.
  intros Hg Hy Hn. unfold ClassAdParser.ParseExpression. destruct (parseExpression_complete old MakeAbsTime MakeRelTime n full t ts _ Hg Hn Hy) as (l' & ->). done.
Qed.
Lemma ParseClassAd_tokens n last buffer full ad ts : gram 13 (ClassAd ad) ts → yields old (Initialize last buffer) (ts ++ [Tok LEX_END_OF_INPUT]) → length ts < n →
  ParseClassAd n last buffer full = Ok (Some ad).
Proof.
  intros Hg Hy Hn. unfold ClassAdParser.ParseClassAd. remember 13 as level eqn:El in Hg. remember (ClassAd ad) as t eqn:Et in Hg.
  destruct Hg as [tk t H|s|s|t ts H|s args ts t H Hc|exprs ts H|k attrs ts H Hk|t1 ts1 t2 ts2 H1 H2|t ts s H|tk op t ts H1 H|level tk op t1 ts1 t2 ts2 H H1 H2|
    t1 ts1 t2 ts2 t3 ts3 H1 H2 H3|level t ts Hl H]; try discriminate El; try discriminate Et; subst.
  - destruct tk as [[]| | | | |]; discriminate H.
  - destruct (call_tree_cases _ _ _ _ _ Hc) as [|[_ [v ?]]]; done.
  - injection Et as <-. cbn [app length] in *. rewrite !length_app in Hn. unfold semis in Hn. rewrite length_replicate in Hn. cbn [length] in Hn.
    rewrite <-!app_assoc in Hy. cbn [app] in Hy.
    assert (∃ l1, parseClassAd old (expression old MakeAbsTime MakeRelTime n) n false (Initialize last buffer) = Ok (Some (ad_of attrs), l1) ∧ yields old l1 [Tok LEX_END_OF_INPUT]) as (l1 & H1 & Hy1).
    { eapply parseClassAd_complete; [apply expression_complete|done|done|lia|done]. }
    destruct full; [|by rewrite H1]. unfold parseClassAd in *. destruct (ConsumeToken _ _) as [[tk l2]| |]; [|done..]. cbn [mbind outcome_bind] in *. destruct (negb _); [done|].
    destruct (PeekToken _ _) as [[tk3 l3]| |]; [|done..]. cbn [mbind outcome_bind] in *. destruct (ad_loop _ _ _ _ _ _) as [[[ad'|] l4]| |]; [|done..]. cbn [mbind outcome_bind] in *.
    injection H1 as -> ->. apply yields_consume in Hy1 as (l5 & -> & _). done.
  - lia.
Qed.
Lemma gram_ad level ad ts : gram level (ClassAd ad) ts → gram 13 (ClassAd ad) ts.
Proof.
  intros Hg. remember (ClassAd ad) as t eqn:Et.
  induction Hg as [tk t H|s|s|t ts H IH|s args ts t Hi Hc|exprs ts|k attrs ts|t1 ts1 t2 ts2 H1 IH1 H2 IH2|t ts s H IH|tk op t ts H H1 IH|level tk op t1 ts1 t2 ts2 H H1 IH1 H2 IH2|
    t1 ts1 t2 ts2 t3 ts3 H1 IH1 H2 IH2 H3 IH3|level t ts Hl H IH]; try discriminate Et; [|by eapply g_call|by apply g_ad|auto].
  by apply g_literal.
Qed.

(** C7. The parser accepts only expressions and ads of the grammar: the tree that it returns is the one
    that the grammar gives to the tokens that were read, and a full parse ends at the end of the input, or with a conditional. *)
Theorem parser_sound n last buffer full : (∀ t, ParseExpression n last buffer full = Ok (Some t) → ∃ ts l, gram 0 t ts ∧ eats old (Initialize last buffer) ts l ∧
    (full = true → (∃ l', ConsumeToken old l = Ok (Tok LEX_END_OF_INPUT, l')) ∨ ∃ t1 t2 t3, t = Operation TERNARY_OP t1 t2 t3)) ∧
  (∀ ad, ParseClassAd n last buffer full = Ok (Some ad) → ∃ ts l, gram 13 (ClassAd ad) ts ∧ eats old (Initialize last buffer) ts l ∧
    (full = true → ∃ l', ConsumeToken old l = Ok (Tok LEX_END_OF_INPUT, l'))).
Proof. split; intros x H; [by eapply ParseExpression_gram|by eapply ParseClassAd_gram]. Qed.
(** C8. Every text whose tokens are an expression of the grammar is parsed to its tree, with a fuel above the number
    of its tokens, and so is every text whose tokens are an ad. *)
Theorem parser_complete n last buffer full ts : yields old (Initialize last buffer) (ts ++ [Tok LEX_END_OF_INPUT]) → length ts < n →
  (∀ t, gram 0 t ts → ParseExpression n last buffer full = Ok (Some t)) ∧ (∀ ad, gram 13 (ClassAd ad) ts → ParseClassAd n last buffer full = Ok (Some ad)).
Proof. intros Hy Hn. split; intros x Hg; [by eapply ParseExpression_tokens|by eapply ParseClassAd_tokens]. Qed.

Section Roundtrip.
Context (absTimeToString : Z → Z → cstr) (relTimeToString : double → cstr) (order : ∀ A, list (cstr * A) → list (cstr * A)).
Abbreviation Unparse := (Unparse absTimeToString relTimeToString order).
Context (order_perm : ∀ A (l : list (cstr * A)), order A l ≡ₚ l).
Context (order_map : ∀ A B (g : A → B) l, order B (map (fun p => (p.1, g p.2)) l) = map (fun p => (p.1, g p.2)) (order A l)).
Lemma Unparse_tokens t ts last : gram 0 t ts → printable absTimeToString relTimeToString order t = true → ends_value last = false →
  gram 0 (reordered order t) (tokens order t) ∧ yields old (Initialize last (Unparse t)) (tokens order t ++ [Tok LEX_END_OF_INPUT]).
Proof.
  intros Hg Hp Hl. split; [by eapply (proj1 (text_canonical old MakeAbsTime MakeRelTime absTimeToString relTimeToString order order_perm order_map))|].
  pose proof (proj1 (text_scans old MakeAbsTime MakeRelTime absTimeToString relTimeToString order order_perm order_map) 0 t ts Hg Hp) as Hs.
  unfold Initialize. rewrite <-(app_nil_r (Unparse t)). apply Hs; [done|done| |done]. eapply scans_cons; [|apply scans_nil]. intros last' _. done.
Qed.
(** C6. A tree of the grammar is printed and parsed again: the parser returns the same tree, with the attributes
    of its ads in the order of printing, and for an ad that ad.  The tree is [printable]: its names are not words of the language and have no
    NUL, those behind a dot and of functions are plain identifiers; integers have 64 bits; reals are finite and read back exactly from their text of
    16 digits; strings have no NUL; there are no time literals; what a dot selects from is not an integer literal ([integer_dot]); and the operand of
    a unary minus does not begin with a digit or a dot ([minus_not_separated]).  The text that was parsed before did not end with a token that ends
    a value, the fuel is above the number of tokens, and the order in which the attributes of an ad are printed depends on their names only. *)
Theorem Unparse_roundtrip t ts last n full : gram 0 t ts → printable absTimeToString relTimeToString order t = true → ends_value last = false → length (tokens order t) < n →
  ParseExpression n last (Unparse t) full = Ok (Some (reordered order t)) ∧
  ∀ attrs, reordered order t = ClassAd attrs → ParseClassAd n last (Unparse t) full = Ok (Some attrs).
Proof.
  intros Hg Hp Hl Hn. destruct (Unparse_tokens t ts last Hg Hp Hl) as [H1 H2]. split; [by eapply ParseExpression_tokens|].
  intros attrs E. rewrite E in H1. eapply ParseClassAd_tokens; [by eapply gram_ad|done|done].
Qed.
End Roundtrip.
End Syntax.
