(* ===== verification/ClassAdTotal.v ===== *)
(** * The parser of the ClassAd language returns

    Every token takes characters from the text, every round of a loop and every nested expression takes a token, so
    that the parser returns on every text whose comments end. *)

From Stdlib Require Import ZArith Lia Ascii SpecFloat.
From stdpp Require Import base list strings.
From S2P Require Import Operators Prelude ClassAdLexer ClassAdParser ClassAdGrammar.
Open Scope nat_scope.

(** Every comment of the text ends in front of a NUL; [/*] in a string counts as a comment. *)
Fixpoint comments_end (s : cstr) : bool :=
  match s with
  | c :: r => (if (c =c "/"%char) && at_ch (fun c => c =c "*"%char) r then match skip_comment NL (wind r) with Ok _ => true | _ => false end else true) && comments_end r
  | [] => true
  end.
(** The size of a text.  An equal sign weighs more: one that is the last but one character in front of an
    exclamation mark doubles that mark. *)
Fixpoint weight (s : cstr) : nat := match s with c :: r => (if c =c "="%char then 2 else 1) + weight r | [] => 0 end.
Lemma weight_app s r : weight (s ++ r) = weight s + weight r.
Proof. induction s as [|c s IH]; [done|]. cbn. rewrite IH. lia. Qed.
Lemma weight_suffix (r s : cstr) : r `suffix_of` s → weight r ≤ weight s.
Proof. intros [p ->]. rewrite weight_app. lia. Qed.
Lemma weight_length s : length s ≤ weight s.
Proof. induction s as [|c s IH]; cbn; [lia|]. destruct (c =c "="%char); lia. Qed.
Lemma comments_suffix (r s : cstr) : r `suffix_of` s → comments_end s = true → comments_end r = true.
Proof. intros [p ->]. induction p as [|c p IH]; [done|]. cbn [app comments_end]. intros [_ H]%andb_true_iff. auto. Qed.

(** ** Suffixes *)

Lemma suffix_tail (s : cstr) : tail s `suffix_of` s.
Proof. destruct s as [|c s]; [done|]. by exists [c]. Qed.
Lemma suffix_cons c (r s : cstr) : r `suffix_of` s → r `suffix_of` c :: s.
Proof. intros [p ->]. by exists (c :: p). Qed.
Lemma skip_while_suffix f s : skip_while f s `suffix_of` s.
Proof. destruct (skip_while_decomp f s) as (p & E & _). by exists p. Qed.
Lemma skip_while_wind f s : skip_while f (wind s) `suffix_of` s.
Proof. etrans; [apply skip_while_suffix|apply suffix_tail]. Qed.
Lemma skip_line_suffix s : skip_line s `suffix_of` s.
Proof. induction s as [|c s IH]; [done|]. cbn [skip_line]. destruct (_ || _); [done|]. by apply suffix_cons. Qed.
Lemma skip_comment_suffix s : ∀ o r, skip_comment o s = Ok r → r `suffix_of` s.
Proof. induction s as [|c s IH]; intros o r H; [done|]. cbn [skip_comment] in H. destruct (c =c NUL); [done|]. destruct (_ && _); [injection H as <-; by exists [c]|]. apply suffix_cons. by eapply IH. Qed.
Create HintDb suffix.
#[local] Hint Resolve suffix_cons skip_while_suffix skip_while_wind suffix_tail : suffix.
Lemma skip_blank_ok fuel : ∀ s, length s < fuel → comments_end s = true → ∃ b r, skip_blank fuel s = Ok (b, r) ∧ r `suffix_of` s ∧ (b = true → length r < length s).
Proof.
  induction fuel as [|fuel IH]; intros s Hf Hc; [lia|]. cbn [skip_blank]. destruct s as [|c r]; [by exists false, []|]. cbn [length] in Hf.
  assert (∀ r', r' `suffix_of` r → ∃ b r1, skip_blank fuel r' = Ok (b, r1) ∧ r1 `suffix_of` c :: r ∧ (b = true → length r1 < length (c :: r))) as Hrec.
  { intros r' Hs. pose proof (suffix_length _ _ Hs). destruct (IH r') as (b & r1 & E & H1 & H2); [lia|by eapply comments_suffix; [apply suffix_cons|]|].
    exists b, r1. split; [done|]. split; [by apply suffix_cons; etrans|]. intros Hb. specialize (H2 Hb). cbn. lia. }
  destruct (isspace c); [by apply Hrec|]. destruct (c =c "/"%char) eqn:Ec; [|by exists false, (c :: r)].
  destruct (at_ch _ r); [apply Hrec, skip_line_suffix|]. cbn [comments_end] in Hc. rewrite Ec in Hc. cbn [andb] in Hc.
  destruct (at_ch (fun d => d =c "*"%char) r); [|by exists true, r; repeat split; [apply suffix_cons|cbn; lia]].
  apply andb_true_iff in Hc as [Hc _]. destruct (skip_comment NL (wind r)) as [r'| |] eqn:E; [|done..]. cbn [mbind outcome_bind]. apply Hrec.
  etrans; [by eapply skip_comment_suffix|apply suffix_tail].
Qed.
Lemma octal_digits_suffix s : ∀ t, (octal_digits t s).2 `suffix_of` s.
Proof. induction s as [|c s IH]; intros t; [done|]. cbn [octal_digits]. destruct (is_digit c); [|done]. apply suffix_cons, IH. Qed.
Lemma number_head_suffix c s : (number_head c s).2 `suffix_of` s.
Proof.
  unfold number_head. destruct (c =c "0"%char).
  - destruct (at_ch _ s); [destruct (at_ch isxdigit _); [apply skip_while_wind|apply suffix_tail]|]. pose proof (octal_digits_suffix s INTEGER) as H.
    destruct (octal_digits INTEGER s) as [t r]. destruct (dot_or_e r); [done|]. by destruct t.
  - destruct (is_digit c); [apply skip_while_suffix|done].
Qed.
Lemma number_fraction_suffix c t s : (number_fraction c t s).2 `suffix_of` s.
Proof.
  unfold number_fraction. destruct (_ || _); [|done]. destruct (at_ch (fun c => c =c "."%char) s); destruct (at_ch is_digit _); cbn [snd];
    first [apply skip_while_wind|apply suffix_tail|apply skip_while_suffix|done].
Qed.
Lemma number_exponent_suffix t s : (number_exponent t s).2 `suffix_of` s.
Proof.
  destruct t; try done. unfold number_exponent. destruct (at_ch _ s); [|done]. cbn [snd]. etrans; [apply skip_while_suffix|]. destruct (at_ch _ (wind s)); [|apply suffix_tail].
  etrans; [apply suffix_tail|apply suffix_tail].
Qed.
Lemma number_factor_suffix s : (number_factor s).2 `suffix_of` s.
Proof. destruct s as [|c s]; [done|]. cbn [number_factor]. repeat (destruct (_ =c _); [by exists [c]|]). done. Qed.

Section Total.
Context (old : bool) (MakeAbsTime MakeRelTime : cstr → option literal).
Abbreviation peek := (PeekToken old).
Abbreviation consume := (ConsumeToken old).

Lemma number_tail_ok start c s : is_digit c = true ∨ (c =c "."%char) = true ∨ at_ch (fun c => c =c "."%char) s = true → ∃ tk r, number_tail old start c s = Ok (tk, r) ∧ r `suffix_of` s.
Proof.
  intros Hc. unfold number_tail. pose proof (number_head_suffix c s) as H1. destruct (number_head c s) as [[t|] s1] eqn:Eh; [|by eexists _, _].
  pose proof (number_fraction_suffix c t s1) as H2. destruct (number_fraction c t s1) as [[tk|t2] s2] eqn:Ef; [eexists _, _; split; [done|]; by etrans|].
  pose proof (number_exponent_suffix t2 s2) as H3. destruct (number_exponent t2 s2) as [[] s3]; cbn [negb]; [|eexists _, _; split; [done|]; etrans; [done|by etrans]].
  pose proof (number_factor_suffix s3) as H4. destruct (number_factor s3) as [f s4]. cbn [snd] in *.
  assert (s4 `suffix_of` s) as Hs by (etrans; [done|]; etrans; [done|]; by etrans).
  destruct t2; [|by eexists _, _..]. exfalso. unfold number_fraction in Ef.
  assert (t = NONE ∧ s1 = s ∧ is_digit c = false) as (-> & -> & Hd).
  { destruct (_ || _); [destruct (at_ch is_digit _); discriminate Ef|]. injection Ef as -> ->. unfold number_head in Eh. cbv zeta in Eh. destruct (c =c "0"%char).
    - destruct (at_ch (fun c => tolower c =c "x"%char) s); [by destruct (at_ch isxdigit _)|]. destruct (octal_digits INTEGER s) as [t1 r1] eqn:Eo. destruct (dot_or_e r1); [done|].
      assert (∀ s t t' r, octal_digits t s = (t', r) → t ≠ NONE → t' ≠ NONE) as Hn.
      { clear. induction s as [|c s IH]; intros t t' r H Ht; [by injection H as <- _|]. cbn [octal_digits] in H. destruct (is_digit c); [|by injection H as <- _].
        eapply IH; [done|]. by destruct (at_ch _ s). }
      destruct t1; [|done..]. by destruct (Hn _ _ _ _ Eo).
    - destruct (is_digit c); [by destruct (dot_or_e _)|]. by injection Eh as ->. }
  destruct Hc as [Hc|[Hc|Hc]]; [congruence|rewrite Hc in Ef|rewrite Hc, orb_true_r in Ef]; cbn [orb] in Ef; destruct (at_ch is_digit _); discriminate Ef.
Qed.

(** ** Tokens *)

Lemma tokenizeNumber_ok c r : is_digit c || (c =c "."%char) = true ∨ (c =c "-"%char) = true → ∃ tk r', tokenizeNumber old (c :: r) = Ok (tk, r') ∧ r' `suffix_of` r.
Proof.
  intros Hc. cbn [tokenizeNumber]. destruct (c =c "-"%char) eqn:Em.
  - destruct r as [|d r]; [by eexists _, _|]. destruct (is_digit d) eqn:Ed.
    { destruct (number_tail_ok (c :: d :: r) d r) as (tk & r' & E & H); [by left|]. eexists _, _. split; [done|]. by apply suffix_cons. }
    destruct (d =c "."%char) eqn:Edot; cbn [andb]; [|by eexists _, _]. destruct (at_ch is_digit r); [|by eexists _, _].
    apply number_tail_ok. right. right. done.
  - destruct Hc as [[Hc|Hc]%orb_true_iff|]; [| |done]; apply number_tail_ok; auto.
Qed.
Lemma tokenizeAlphaHead_suffix c r : is_alpha c || (c =c "_"%char) = true → (tokenizeAlphaHead (c :: r)).2 `suffix_of` r.
Proof.
  intros Hc. unfold tokenizeAlphaHead. cbn [skip_while]. destruct (is_alpha c) eqn:Ea.
  - destruct (at_ch _ _); cbn [snd]; [etrans; [apply skip_while_suffix|]; etrans; [apply suffix_tail|]|]; apply skip_while_suffix.
  - cbn [orb] in Hc. cbn [at_ch]. rewrite Hc, orb_true_r. cbn [snd wind tail]. apply skip_while_suffix.
Qed.
Lemma scan_string_suffix delim s : ∀ o b text rest, scan_string delim o b s = Some (text, rest) → rest `suffix_of` s ∧ length rest < length s.
Proof.
  induction s as [|c s IH]; intros o b text rest H; [done|]. cbn [scan_string] in H. destruct (c =c NUL); [done|]. destruct (_ || _).
  - apply bind_Some in H as ([t r] & H & E). injection E as _ <-. apply IH in H as [H1 H2]. split; [by apply suffix_cons|cbn; lia].
  - injection H as _ <-. split; [by exists [c]|cbn; lia].
Qed.
Lemma string_parts_ok fuel delim : ∀ s, length s < fuel → ∃ t r, string_parts fuel delim s = Ok (t, r) ∧ r `suffix_of` s.
Proof.
  induction fuel as [|fuel IH]; intros s Hf; [lia|]. cbn [string_parts]. destruct (scan_string delim NUL false s) as [[text rest]|] eqn:E.
  - apply scan_string_suffix in E as [H1 H2]. pose proof (skip_while_suffix isspace rest) as H3. pose proof (suffix_length _ _ H3) as H4.
    assert (skip_while isspace rest `suffix_of` s) as H5 by (by etrans). destruct (at_ch _ _); [|by eexists _, _].
    pose proof (suffix_tail (skip_while isspace rest)) as H6. pose proof (suffix_length _ _ H6).
    destruct (IH (wind (skip_while isspace rest))) as (t & r & -> & H7); [unfold wind; lia|]. cbn [mbind outcome_bind]. eexists _, _. split; [done|]. etrans; [done|by etrans].
  - eexists _, _. split; [done|]. exists s. by rewrite app_nil_r.
Qed.
Lemma tokenizeString_ok delim c r : ∃ tk r', tokenizeString delim (c :: r) = Ok (tk, r') ∧ r' `suffix_of` r.
Proof.
  unfold tokenizeString. destruct (string_parts_ok (S (length (c :: r))) delim (wind (c :: r))) as (t & r' & -> & H); [cbn; lia|]. cbn [mbind outcome_bind].
  destruct (t ≫= convert_escapes); by eexists _, _.
Qed.
Lemma tokenizePunctOperator_suffix c r : (tokenizePunctOperator (c :: r)).2 `suffix_of` r ∨
  c = "="%char ∧ ∃ r', r = "!"%char :: r' ∧ (tokenizePunctOperator (c :: r)).2 = "!"%char :: r.
Proof.
  destruct (Ascii.eqb_spec c "="%char) as [->|Hc].
  - destruct r as [|d r]; [by left|]. destruct (Ascii.eqb_spec d "!"%char) as [->|Hd].
    { destruct r as [|e r]; [right; eauto|]. cbn. destruct (e =c NUL); cbn; [right; eauto|]. left. destruct (bool_decide _); cbn; [|done]. apply suffix_cons, suffix_cons. done. }
    left. cbn [tokenizePunctOperator]. change ("="%char =c "="%char) with true.
    repeat match goal with |- context [("="%char =c ?x)] => let b := eval vm_compute in ("="%char =c x) in change ("="%char =c x) with b end. cbn iota. cbn [at_ch wind tail].
    destruct (d =c "="%char); [by apply suffix_cons|]. destruct (d =c "?"%char); [destruct (at_ch _ r); cbn [snd]; [apply suffix_cons, suffix_tail|by apply suffix_cons]|].
    by rewrite (proj2 (Ascii.eqb_neq d "!"%char)).
  - left. cbn [tokenizePunctOperator]. rewrite (proj2 (Ascii.eqb_neq c "="%char)) by done.
    repeat (destruct (c =c _); [first [done|repeat (destruct (at_ch _ _)); cbn [snd]; first [done|apply suffix_tail|etrans; apply suffix_tail]]|]). done.
Qed.
Lemma weight_strict (r s : cstr) : r `suffix_of` s → length r < length s → weight r < weight s.
Proof. intros [p ->] H. rewrite weight_app, length_app in *. pose proof (weight_length p). lia. Qed.
Lemma next_token_ok last s : comments_end s = true → ∃ tk r, next_token old last s = Ok (tk, r) ∧ comments_end r = true ∧ weight r ≤ weight s ∧
  (is_tok tk LEX_END_OF_INPUT = false → weight r < weight s).
Proof.
  intros Hc. unfold next_token. destruct (skip_blank_ok (S (length s)) s) as (b & s1 & -> & H1 & H2); [lia|done|]. cbn [mbind outcome_bind].
  destruct b. { eexists _, _. split; [done|]. split; [by eapply comments_suffix|]. pose proof (weight_strict _ _ H1 (H2 eq_refl)). split; lia. }
  pose proof (weight_suffix _ _ H1). pose proof (comments_suffix _ _ H1 Hc) as Hc1.
  assert (∀ c r tk r', s1 = c :: r → r' `suffix_of` r → comments_end r' = true ∧ weight r' ≤ weight s ∧ (is_tok tk LEX_END_OF_INPUT = false → weight r' < weight s)) as Hsuf.
  { intros c r tk r' -> Hr. pose proof (weight_suffix _ _ Hr). cbn [weight] in *. split; [eapply comments_suffix; [by apply suffix_cons|done]|]. destruct (c =c "="%char); lia. }
  assert (∀ c r, s1 = c :: r → ∃ tk r', (Ok (tokenizePunctOperator (c :: r)) : outcome (token * cstr)) = Ok (tk, r') ∧ comments_end r' = true ∧ weight r' ≤ weight s ∧
    (is_tok tk LEX_END_OF_INPUT = false → weight r' < weight s)) as Hpunct.
  { intros c r ->. destruct (tokenizePunctOperator (c :: r)) as [tk r'] eqn:E. eexists _, _. split; [done|].
    destruct (tokenizePunctOperator_suffix c r) as [Hr|(-> & r1 & -> & Hr)]; rewrite E in Hr; cbn [snd] in Hr; [by eapply Hsuf|]. subst. cbn in *. split; [done|]. lia. }
  destruct s1 as [|c r]. { eexists _, _. split; [done|]. split; [done|]. cbn. split; [lia|done]. }
  destruct (c =c NUL). { eexists _, _. split; [done|]. split; [done|]. split; [done|by intros]. }
  destruct (c =c "-"%char) eqn:Em.
  { destruct (ends_value last); [by apply Hpunct|]. destruct (tokenizeNumber_ok c r) as (tk & r' & -> & Hr); [by right|]. eexists _, _. split; [done|]. by eapply Hsuf. }
  destruct (is_digit c || (c =c "."%char)) eqn:En.
  { destruct (tokenizeNumber_ok c r) as (tk & r' & -> & Hr); [by left|]. eexists _, _. split; [done|]. by eapply Hsuf. }
  destruct (is_alpha c || (c =c "_"%char)) eqn:Ea.
  { pose proof (tokenizeAlphaHead_suffix c r Ea) as Hr. destruct (tokenizeAlphaHead (c :: r)) as [tk r']. eexists _, _. split; [done|]. by eapply Hsuf. }
  destruct (c =c DQ); [destruct (tokenizeString_ok DQ c r) as (tk & r' & -> & Hr); eexists _, _; split; [done|]; by eapply Hsuf|].
  destruct (c =c SQ); [destruct (tokenizeString_ok SQ c r) as (tk & r' & -> & Hr); eexists _, _; split; [done|]; by eapply Hsuf|].
  by apply Hpunct.
Qed.

(** ** The parser *)

(** What is left to read. *)
Definition left_over (l : Lexer) : nat := weight (cursor l) + if tokenConsumed l then 0 else if is_tok (last l) LEX_END_OF_INPUT then 0 else 1.
Definition good (l : Lexer) : Prop := comments_end (cursor l) = true.
(** [o] returns, with at most [b] left. *)
Definition returns {A} (b : nat) (o : outcome (A * Lexer)) : Prop := ∃ x l, o = Ok (x, l) ∧ good l ∧ left_over l ≤ b.
Lemma returns_ok {A} b (x : A) l : good l → left_over l ≤ b → returns b (Ok (x, l)).
Proof. intros H1 H2. by exists x, l. Qed.
Lemma returns_bind {A B} b b' (o : outcome (A * Lexer)) (f : A * Lexer → outcome (B * Lexer)) :
  returns b o → (∀ x l, good l → left_over l ≤ b → returns b' (f (x, l))) → returns b' (o ≫= f).
Proof. intros (x & l & -> & H1 & H2) H. by apply H. Qed.
Lemma returns_weaken {A} b b' (o : outcome (A * Lexer)) : returns b o → b ≤ b' → returns b' o.
Proof. intros (x & l & H1 & H2 & H3) H. exists x, l. split; [done|]. split; [done|lia]. Qed.
(** A lexer that was looked at gives the token that was seen, and less is left then. *)
Definition seen (tk : token) (l : Lexer) : Prop := ∃ l', consume l = Ok (tk, l') ∧ good l' ∧ left_over l' ≤ left_over l ∧ (is_tok tk LEX_END_OF_INPUT = false → left_over l' < left_over l).
Lemma peek_ok l : good l → ∃ tk l', peek l = Ok (tk, l') ∧ good l' ∧ left_over l' ≤ left_over l ∧ seen tk l'.
Proof.
  intros Hg. unfold PeekToken. destruct l as [[] la cu]; cbn [tokenConsumed negb ClassAdLexer.last cursor].
  - destruct (next_token_ok la cu Hg) as (tk & r & -> & H1 & H2 & H3). cbn [mbind outcome_bind]. eexists _, _. split; [done|]. split; [done|].
    unfold seen, good, left_over. cbn [tokenConsumed cursor ClassAdLexer.last]. split; [destruct (is_tok tk _); [lia|]; specialize (H3 eq_refl); lia|].
    eexists. split; [done|]. cbn [tokenConsumed cursor ClassAdLexer.last]. split; [done|]. destruct (is_tok tk _); (split; [lia|intros ?; done || lia]).
  - eexists _, _. split; [done|]. split; [done|]. split; [done|]. eexists. split; [done|]. unfold left_over. cbn [tokenConsumed cursor ClassAdLexer.last].
    split; [done|]. destruct (is_tok la _); (split; [lia|intros ?; done || lia]).
Qed.
Lemma returns_peek {B} b l (f : token * Lexer → outcome (B * Lexer)) : good l →
  (∀ tk l', good l' → left_over l' ≤ left_over l → seen tk l' → returns b (f (tk, l'))) → returns b (peek l ≫= f).
Proof. intros Hg H. destruct (peek_ok l Hg) as (tk & l' & -> & H1 & H2 & H3). by apply H. Qed.
Lemma returns_seen {B} b tk l (f : token * Lexer → outcome (B * Lexer)) : seen tk l →
  (∀ l', good l' → left_over l' ≤ left_over l → (is_tok tk LEX_END_OF_INPUT = false → left_over l' < left_over l) → returns b (f (tk, l'))) → returns b (consume l ≫= f).
Proof. intros (l' & -> & H1 & H2 & H3) H. by apply H. Qed.
Lemma returns_consume {B} b l (f : token * Lexer → outcome (B * Lexer)) : good l →
  (∀ tk l', good l' → left_over l' ≤ left_over l → (is_tok tk LEX_END_OF_INPUT = false → left_over l' < left_over l) → returns b (f (tk, l'))) → returns b (consume l ≫= f).
Proof.
  intros Hg H. destruct (peek_ok l Hg) as (tk & l1 & Hp & H1 & H2 & l2 & Hc & H4 & H5 & H6). destruct (peek_consume old l tk l1 Hp) as [E _]. rewrite E, Hc.
  apply H; [done|lia|]. intros Ht. specialize (H6 Ht). lia.
Qed.
Lemma op_not_end level tk op : level_op level tk = Some op → is_tok tk LEX_END_OF_INPUT = false.
Proof. do 11 (destruct level as [|level]; [by destruct tk as [[]| | | | |]|]). done. Qed.
Lemma unary_not_end tk op : unary_op tk = Some op → is_tok tk LEX_END_OF_INPUT = false.
Proof. by destruct tk as [[]| | | | |]. Qed.
Lemma tok_not_end tk u : is_tok tk u = true → u ≠ LEX_END_OF_INPUT → is_tok tk LEX_END_OF_INPUT = false.
Proof. intros ->%is_tok_true H. by apply bool_decide_eq_false. Qed.

Section Body.
Context (E : Lexer → outcome (option ExprTree * Lexer)) (n : nat).
(** Enough fuel for what is left behind a token. *)
Hypothesis HE : ∀ l, good l → 2 * left_over l + 3 ≤ n → returns (left_over l) (E l).
Definition total (f : Lexer → outcome (option ExprTree * Lexer)) : Prop := ∀ l, good l → 2 * left_over l + 2 ≤ n → returns (left_over l) (f l).

Lemma binary_loop_total level f : total f → ∀ k t l, good l → left_over l < k → 2 * left_over l + 2 ≤ n → returns (left_over l) (binary_loop old k (level_op level) f t l).
Proof.
  intros Hf. induction k as [|k IH]; intros t l Hg Hk Hn; [lia|]. cbn [binary_loop]. apply returns_peek; [done|]. intros tk l1 H1 L1 Hs1.
  destruct (level_op level tk) as [op|] eqn:Eop; [|by apply returns_ok]. apply (returns_seen _ tk); [done|]. intros l2 H2 _ L2. specialize (L2 (op_not_end _ _ _ Eop)).
  eapply returns_bind; [apply Hf; [done|lia]|]. intros [t2|] l3 H3 L3; [|apply returns_ok; [done|lia]]. eapply returns_weaken; [apply IH; [done|lia|lia]|lia].
Qed.
Lemma binary_total level f : total f → total (binary_level old n (level_op level) f).
Proof.
  intros Hf l Hg Hn. unfold binary_level. eapply returns_bind; [by apply Hf|]. intros [t|] l1 H1 L1; [|by apply returns_ok].
  eapply returns_weaken; [apply binary_loop_total; [done|done|lia|lia]|lia].
Qed.
Lemma nested l l0 : good l → left_over l < left_over l0 → 2 * left_over l0 + 2 ≤ n → returns (left_over l) (E l).
Proof. intros H1 H2 H3. apply HE; [done|lia]. Qed.
(** The expression that stands behind a token; [b] is what was left in front of that token. *)
Lemma item_loop_total sep close b : 2 * b + 2 ≤ n → sep (Tok LEX_END_OF_INPUT) = false → close ≠ LEX_END_OF_INPUT → ∀ k items l, good l → left_over l < b → left_over l + 1 < k →
  returns b (item_loop old E sep close k items l).
Proof.
  intros Hb Hsep Hclose. induction k as [|k IH]; intros items l Hg Hl Hk; [lia|]. cbn [item_loop]. apply returns_peek; [done|]. intros tk l1 H1 L1 Hs1.
  destruct (is_tok tk close) eqn:Ec. { apply (returns_seen _ tk); [done|]. intros l2 H2 L2 _. apply returns_ok; [done|lia]. }
  eapply returns_bind; [apply HE; [done|lia]|]. intros [t|] l2 H2 L2; [|apply returns_ok; [done|lia]]. apply returns_peek; [done|]. intros tk3 l3 H3 L3 Hs3.
  destruct (sep tk3) eqn:Es.
  - apply (returns_seen _ tk3); [done|]. intros l4 H4 _ L4. assert (is_tok tk3 LEX_END_OF_INPUT = false) as Ht.
    { destruct (is_tok tk3 LEX_END_OF_INPUT) eqn:Et; [|done]. apply is_tok_true in Et as ->. congruence. }
    specialize (L4 Ht). apply IH; [done|lia|lia].
  - destruct (is_tok tk3 close) eqn:Ec3; [|apply returns_ok; [done|lia]]. destruct k as [|k]; [lia|]. cbn [item_loop].
    destruct Hs3 as (l4 & Hc4 & H4 & L4 & _). destruct (peek_ok l3 H3) as (tk5 & l5 & Hp5 & H5 & L5 & Hs5). rewrite Hp5. cbn [mbind outcome_bind].
    assert (tk5 = tk3) as ->. { destruct (peek_consume old _ _ _ Hp5) as [_ (l6 & E6)]. congruence. }
    rewrite Ec3. apply (returns_seen _ tk3); [done|]. intros l6 H6 L6 _. apply returns_ok; [done|lia].
Qed.
Lemma skip_semicolons_total k : ∀ l, good l → left_over l < k → ∃ tk l', skip_semicolons old k l = Ok (tk, l') ∧ good l' ∧ left_over l' ≤ left_over l.
Proof.
  induction k as [|k IH]; intros l Hg Hk; [lia|]. cbn [skip_semicolons]. destruct (peek_ok l Hg) as (tk & l1 & -> & H1 & L1 & l2 & Hc & H2 & _ & L2). cbn [mbind outcome_bind].
  destruct (is_tok tk LEX_SEMICOLON) eqn:Es; [|eauto]. rewrite Hc. cbn [mbind outcome_bind]. specialize (L2 (tok_not_end _ _ Es ltac:(done))).
  destruct (IH l2 H2) as (tk' & l' & -> & H' & L'); [lia|]. exists tk', l'. split; [done|]. split; [done|lia].
Qed.
Lemma ad_loop_total b : 2 * b + 2 ≤ n → ∀ k ad tk l, good l → left_over l < b → left_over l + 1 < k → returns b (ad_loop old E k ad tk l).
Proof.
  intros Hb. induction k as [|k IH]; intros ad tk l Hg Hl Hk; [lia|]. cbn [ad_loop]. destruct (is_tok tk LEX_CLOSE_BOX).
  { apply returns_consume; [done|]. intros tk1 l1 H1 L1 _. apply returns_ok; [done|lia]. }
  apply returns_consume; [done|]. intros tk1 l1 H1 L1 L1'. destruct (is_tok tk1 LEX_SEMICOLON) eqn:Es.
  { specialize (L1' (tok_not_end _ _ Es ltac:(done))). apply IH; [done|lia|lia]. }
  destruct tk1 as [u| | | | |s]; try (apply returns_ok; [done|lia]). specialize (L1' eq_refl). apply returns_consume; [done|]. intros tk2 l2 H2 L2 _.
  destruct (negb _); [apply returns_ok; [done|lia]|]. eapply returns_bind; [apply HE; [done|lia]|]. intros t l3 H3 L3. destruct (t ≫= _) as [ad'|]; [|apply returns_ok; [done|lia]].
  apply returns_peek; [done|]. intros tk4 l4 H4 L4 _. destruct (_ || _); [|apply returns_ok; [done|lia]].
  destruct (skip_semicolons_total k l4) as (tk5 & l5 & -> & H5 & L5); [done|lia|]. cbn [mbind outcome_bind]. apply IH; [done|lia|lia].
Qed.
Lemma args_sep : argument_sep old (Tok LEX_END_OF_INPUT) = false.
Proof. done. Qed.
Lemma parseClassAd_total full b l : 2 * b + 2 ≤ n → good l → left_over l ≤ b → returns b (parseClassAd old E n full l).
Proof.
  intros Hb Hg Hl. unfold parseClassAd. apply returns_consume; [done|]. intros tk l1 H1 L1 L1'. destruct (is_tok tk LEX_OPEN_BOX) eqn:Eo; cbn [negb]; [|apply returns_ok; [done|lia]].
  specialize (L1' (tok_not_end _ _ Eo ltac:(done))). apply returns_peek; [done|]. intros tk2 l2 H2 L2 _.
  eapply returns_bind; [apply (ad_loop_total b); [done|done|lia|lia]|]. intros [ad|] l3 H3 L3; [|apply returns_ok; [done|lia]].
  destruct full; [|apply returns_ok; [done|lia]]. apply returns_consume; [done|]. intros tk4 l4 H4 L4 _. apply returns_ok; [done|lia].
Qed.
Lemma primary_total : total (parsePrimaryExpression old MakeAbsTime MakeRelTime E n).
Proof.
  intros l Hg Hn. unfold parsePrimaryExpression. apply returns_peek; [done|]. intros tk l1 H1 L1 Hs1.
  assert (∀ v f, returns (left_over l) (constant old v f l1)) as Hconst.
  { intros v f. apply returns_consume; [done|]. intros tk2 l2 H2 L2 _. apply returns_ok; [done|lia]. }
  destruct tk as [[]| | | | |s]; try (apply returns_ok; [done|lia]); try apply Hconst.
  - unfold parse_absolute. apply returns_consume; [done|]. intros tk2 l2 H2 L2 _. apply returns_consume; [done|]. intros [u| | | | |s] l3 H3 L3 _; apply returns_ok; solve [done|lia].
  - eapply returns_bind; [apply (parseClassAd_total false (left_over l)); [done|done|lia]|]. intros ad l2 H2 L2. apply returns_ok; [done|lia].
  - unfold parse_parentheses. eapply returns_seen; [done|]. intros l2 H2 _ L2. specialize (L2 eq_refl). eapply returns_bind; [apply HE; [done|lia]|].
    intros [t|] l3 H3 L3; [|apply returns_ok; [done|lia]]. apply returns_consume; [done|]. intros tk4 l4 H4 L4 _. apply returns_ok; [done|lia].
  - eapply returns_bind.
    { unfold parseExprList. eapply returns_seen; [done|]. intros l2 H2 _ L2. specialize (L2 eq_refl). apply (item_loop_total _ _ (left_over l)); [done..|lia|lia]. }
    intros ex l2 H2 L2. apply returns_ok; [done|lia].
  - unfold parse_identifier. eapply returns_seen; [done|]. intros l2 H2 _ L2. specialize (L2 eq_refl). apply returns_peek; [done|]. intros tk3 l3 H3 L3 Hs3.
    destruct (is_tok tk3 LEX_OPEN_PAREN) eqn:Eo; [|apply returns_ok; [done|lia]]. eapply returns_bind.
    { unfold parseArgumentList. eapply returns_seen; [done|]. intros l4 H4 L4 _. rewrite Eo. apply (item_loop_total _ _ (left_over l)); [done..|lia|lia]. }
    intros [args|] l4 H4 L4; apply returns_ok; solve [done|lia].
Qed.
Lemma postfix_loop_total k : ∀ t l, good l → left_over l < k → 2 * left_over l + 2 ≤ n → returns (left_over l) (postfix_loop old E k t l).
Proof.
  induction k as [|k IH]; intros t l Hg Hk Hn; [lia|]. cbn [postfix_loop]. apply returns_peek; [done|]. intros tk l1 H1 L1 Hs1.
  destruct (is_tok tk LEX_OPEN_BOX) eqn:Eb.
  - eapply returns_seen; [done|]. intros l2 H2 _ L2. specialize (L2 (tok_not_end _ _ Eb ltac:(done))). eapply returns_bind; [apply HE; [done|lia]|].
    intros [t2|] l3 H3 L3; [|apply returns_ok; [done|lia]]. apply returns_consume; [done|]. intros tk4 l4 H4 L4 _. destruct (is_tok tk4 _); [|apply returns_ok; [done|lia]].
    eapply returns_weaken; [apply IH; [done|lia|lia]|lia].
  - destruct (is_tok tk LEX_SELECTION) eqn:Es; [|apply returns_ok; [done|lia]]. eapply returns_seen; [done|]. intros l2 H2 _ L2.
    specialize (L2 (tok_not_end _ _ Es ltac:(done))). apply returns_consume; [done|]. intros [u| | | | |s] l3 H3 L3 _; try (apply returns_ok; [done|lia]).
    eapply returns_weaken; [apply IH; [done|lia|lia]|lia].
Qed.
Lemma postfix_total : total (parsePostfixExpression old MakeAbsTime MakeRelTime E n).
Proof.
  intros l Hg Hn. unfold parsePostfixExpression. eapply returns_bind; [by apply primary_total|]. intros [t|] l1 H1 L1; [|apply returns_ok; [done|lia]].
  eapply returns_weaken; [apply postfix_loop_total; [done|lia|lia]|lia].
Qed.
Lemma unary_total k : ∀ l, good l → left_over l < k → 2 * left_over l + 2 ≤ n → returns (left_over l) (parseUnaryExpression old MakeAbsTime MakeRelTime E n k l).
Proof.
  induction k as [|k IH]; intros l Hg Hk Hn; [lia|]. cbn [parseUnaryExpression]. apply returns_peek; [done|]. intros tk l1 H1 L1 Hs1. destruct (unary_op tk) as [op|] eqn:Eop.
  - eapply returns_seen; [done|]. intros l2 H2 _ L2. specialize (L2 (unary_not_end _ _ Eop)). eapply returns_bind; [apply IH; [done|lia|lia]|]. intros t l3 H3 L3. apply returns_ok; [done|lia].
  - eapply returns_weaken; [apply postfix_total; [done|lia]|lia].
Qed.
Lemma logical_or_total : total (parseLogicalORExpression old MakeAbsTime MakeRelTime E n).
Proof.
  apply (binary_total 1). apply (binary_total 2). apply (binary_total 3). apply (binary_total 4). apply (binary_total 5). apply (binary_total 6). apply (binary_total 7). apply (binary_total 8). apply (binary_total 9). apply (binary_total 10).
  intros l Hg Hn. apply unary_total; [done|lia|lia].
Qed.
Lemma body_total full l : good l → 2 * left_over l + 2 ≤ n → returns (left_over l) (expression_body old MakeAbsTime MakeRelTime E n full l).
Proof.
  intros Hg Hn. unfold expression_body. eapply returns_bind; [by apply logical_or_total|]. intros [t1|] l1 H1 L1; [|by apply returns_ok].
  apply returns_peek; [done|]. intros tk l2 H2 L2 Hs2. destruct (is_tok tk LEX_QMARK) eqn:Eq.
  - eapply returns_seen; [done|]. intros l3 H3 _ L3. specialize (L3 (tok_not_end _ _ Eq ltac:(done))). eapply returns_bind; [apply HE; [done|lia]|]. intros t2 l4 H4 L4.
    apply returns_consume; [done|]. intros tk5 l5 H5 L5 _. destruct (negb _); [apply returns_ok; [done|lia]|]. eapply returns_bind; [apply HE; [done|lia]|]. intros t3 l6 H6 L6.
    destruct t2, t3; apply returns_ok; solve [done|lia].
  - destruct full; [|apply returns_ok; [done|lia]]. apply returns_consume; [done|]. intros tk3 l3 H3 L3 _. apply returns_ok; [done|lia].
Qed.
End Body.
Lemma parseExpression_total n : ∀ full l, good l → 2 * left_over l + 3 ≤ n → returns (left_over l) (parseExpression old MakeAbsTime MakeRelTime n full l).
Proof.
  induction n as [|n IH]; intros full l Hg Hn; [lia|]. cbn [parseExpression]. apply body_total; [|done|lia]. intros l1 H1 L1.
  eapply returns_bind; [by apply IH|]. intros [b t] l2 H2 L2. by apply returns_ok.
Qed.
Lemma expression_total n l : good l → 2 * left_over l + 3 ≤ n → returns (left_over l) (expression old MakeAbsTime MakeRelTime n l).
Proof. intros H1 H2. unfold expression. eapply returns_bind; [by apply parseExpression_total|]. intros [b t] l2 H3 L3. by apply returns_ok. Qed.

(** C9. The parser returns, and the lexer does not raise its error, on every text whose comments end. *)
Theorem parser_returns n last buffer full : comments_end buffer = true → 2 * weight buffer + 3 ≤ n →
  (∃ t, ParseExpression old MakeAbsTime MakeRelTime n last buffer full = Ok t) ∧ (∃ ad, ParseClassAd old MakeAbsTime MakeRelTime n last buffer full = Ok ad).
Proof.
  intros Hc Hn. assert (left_over (Initialize last buffer) = weight buffer) as Hl by apply Nat.add_0_r. split.
  - destruct (parseExpression_total n full (Initialize last buffer)) as ([b t] & l & H & _); [done|lia|]. unfold ParseExpression. rewrite H. cbn. eauto.
  - destruct (parseClassAd_total (expression old MakeAbsTime MakeRelTime n) n (expression_total n) full (weight buffer) (Initialize last buffer)) as (ad & l & H & _); [lia|done|lia|].
    unfold ParseClassAd. rewrite H. cbn. eauto.
Qed.
End Total.
