(* ===== verification/ClassAdExamples.v ===== *)
(** * The ClassAd parser at work

    A text with every kind of expression, and texts on which the parser differs from its comments. *)

From Stdlib Require Import ZArith Lia Ascii SpecFloat.
From stdpp Require Import base list strings.
From S2P Require Import Operators Prelude ClassAdLexer ClassAdParser ClassAdUnparse ClassAdGrammar ClassAdComplete ClassAdText ClassAdSyntax ClassAdTotal.
Open Scope nat_scope.

Definition no_time (s : cstr) : option literal := None.
Definition parse (text : string) : outcome (option ExprTree) := ParseExpression false no_time no_time 60 (Tok LEX_END_OF_INPUT) (L text) true.
Definition show (t : ExprTree) : cstr := Unparse (fun _ _ => []) (fun _ => []) (fun A => @rev _) t.
Definition tree_of (o : outcome (option ExprTree)) : ExprTree := match o with Ok (Some t) => t | _ => Literal Undefined NO_FACTOR end.

Definition ex_text : string := "[ a = 1; 'q r' = { 1.5K, -3, foo(x, 'y')[2].z }; A = b =?= undefined ? !(.c < 7) : d isnt true || e & 1 >>> 2; ]".
Definition ex_tree : ExprTree := Eval vm_compute in tree_of (parse ex_text).
Lemma rev_perm A (l : list (cstr * A)) : rev l ≡ₚ l.
Proof. symmetry. apply Permutation_rev. Qed.
Lemma rev_second A B (g : A → B) (l : list (cstr * A)) : rev (map (fun p => (p.1, g p.2)) l) = map (fun p => (p.1, g p.2)) (rev l).
Proof. symmetry. apply map_rev. Qed.
Lemma ex_parsed : parse ex_text = Ok (Some ex_tree).
Proof. vm_compute. reflexivity. Qed.
Lemma ex_gram : ∃ ts, gram false no_time no_time 0 ex_tree ts.
Proof. destruct (ParseExpression_gram _ _ _ _ _ _ _ _ ex_parsed) as (ts & l & H & _). eauto. Qed.
Lemma ex_yields : gram false no_time no_time 0 (reordered (fun A => @rev _) ex_tree) (tokens (fun A => @rev _) ex_tree) ∧
  yields false (Initialize (Tok LEX_END_OF_INPUT) (show ex_tree)) (tokens (fun A => @rev _) ex_tree ++ [Tok LEX_END_OF_INPUT]).
Proof.
  destruct ex_gram as [ts Hg]. apply (Unparse_tokens false no_time no_time (fun _ _ => []) (fun _ => []) (fun A => @rev _) rev_perm rev_second ex_tree ts); [exact Hg|vm_compute; reflexivity|reflexivity].
Qed.

Lemma parser_sound_witness : ParseExpression false no_time no_time 60 (Tok LEX_END_OF_INPUT) (L ex_text) true = Ok (Some ex_tree) ∧
  ∃ ts, gram false no_time no_time 0 ex_tree ts.
Proof.
  split; [exact ex_parsed|].
  destruct (proj1 (parser_sound false no_time no_time 60 (Tok LEX_END_OF_INPUT) (L ex_text) true) ex_tree ex_parsed) as (ts & l & H & _). exists ts. exact H.
Defined.
Lemma parser_complete_witness : ParseExpression false no_time no_time 100 (Tok LEX_END_OF_INPUT) (show ex_tree) true = Ok (Some (reordered (fun A => @rev _) ex_tree)).
Proof.
  destruct ex_yields as [Hg Hy].
  apply (parser_complete false no_time no_time 100 (Tok LEX_END_OF_INPUT) (show ex_tree) true (tokens (fun A => @rev _) ex_tree) Hy); [vm_compute; lia|exact Hg].
Defined.
Lemma Unparse_roundtrip_witness : printable (fun _ _ => []) (fun _ => []) (fun A => @rev _) ex_tree = true ∧
  ParseExpression false no_time no_time 100 (Tok LEX_END_OF_INPUT) (show ex_tree) true = Ok (Some (reordered (fun A => @rev _) ex_tree)).
Proof.
  assert (printable (fun _ _ => []) (fun _ => []) (fun A => @rev _) ex_tree = true) as Hp by (vm_compute; reflexivity). split; [exact Hp|]. destruct ex_gram as [ts Hg].
  apply (Unparse_roundtrip false no_time no_time (fun _ _ => []) (fun _ => []) (fun A => @rev _) rev_perm rev_second ex_tree ts (Tok LEX_END_OF_INPUT) 100 true Hg Hp);
    [reflexivity|vm_compute; lia].
Defined.
Lemma parser_returns_witness : comments_end (L "a /* b */ + = 'c' // d") = true ∧
  ∃ t, ParseExpression false no_time no_time 99 (Tok LEX_END_OF_INPUT) (L "a /* b */ + = 'c' // d") true = Ok t.
Proof.
  assert (comments_end (L "a /* b */ + = 'c' // d") = true) as Hc by reflexivity. split; [exact Hc|].
  apply (parser_returns false no_time no_time 99 (Tok LEX_END_OF_INPUT) (L "a /* b */ + = 'c' // d") true Hc). vm_compute. lia.
Defined.

(** ** Texts on which the parser differs from its comments *)

(** A comment that does not end is read for ever. *)
Lemma comment_unterminated n last full : ParseExpression false no_time no_time n last (L "1 + /* 2") full = Running.
Proof.
  destruct n as [|[|[|n]]]; [reflexivity..|]. vm_compute. reflexivity.
Qed.
Lemma octal_refused : parse "012" = Ok None ∧ parse "0" = Ok (Some (Literal (Integer 0) NO_FACTOR)).
Proof. split; vm_compute; reflexivity. Qed.
Lemma rest_accepted : parse "a ? b : c junk" = parse "a ? b : c" ∧ parse "a junk" = Ok None.
Proof. split; vm_compute; reflexivity. Qed.
Lemma empty_ad_refused : parse "[;]" = Ok None ∧ parse "[;a=1;;]" = Ok (Some (ClassAd [(L "a", Literal (Integer 1) NO_FACTOR)])).
Proof. split; vm_compute; reflexivity. Qed.
Lemma two_dots : parse "a..b" = parse "a.b" ∧ parse "a.b" = Ok (Some (AttributeReference (Some (AttributeReference None (L "a") false)) (L "b") false)).
Proof. split; vm_compute; reflexivity. Qed.
(** A name behind a dot is printed without its quotes, and a word of the language as a name too. *)
Lemma selection_not_quoted : show (AttributeReference (Some (AttributeReference None (L "a") false)) (L "x y") false) = L "a.x y" ∧ parse "a.x y" = Ok None.
Proof. split; vm_compute; reflexivity. Qed.
Lemma reserved_not_quoted : show (AttributeReference None (L "true") false) = L "true" ∧ parse "true" = Ok (Some (Literal (Boolean true) NO_FACTOR)) ∧
  parse "'true'" = Ok (Some (AttributeReference None (L "true") false)).
Proof. split_and!; vm_compute; reflexivity. Qed.
Lemma minus_not_separated : parse "- 5" = Ok (Some (Operation UNARY_MINUS_OP (Literal (Integer 5) NO_FACTOR) None None)) ∧
  show (Operation UNARY_MINUS_OP (Literal (Integer 5) NO_FACTOR) None None) = L " -5" ∧ parse " -5" = Ok (Some (Literal (Integer (-5)) NO_FACTOR)).
Proof. split_and!; vm_compute; reflexivity. Qed.
Lemma integer_dot : parse "5 .x" = Ok (Some (AttributeReference (Some (Literal (Integer 5) NO_FACTOR)) (L "x") false)) ∧
  show (AttributeReference (Some (Literal (Integer 5) NO_FACTOR)) (L "x") false) = L "5.x" ∧ parse "5.x" = Ok None.
Proof. split_and!; vm_compute; reflexivity. Qed.
(** The C library reads hexadecimal numbers, and a NUL ends the input. *)
Lemma strtod_hex : strtod (L "0x1.5") = strtod (L "1.3125").
Proof. by vm_compute. Qed.
Lemma nul_ends : ParseExpression false no_time no_time 60 (Tok LEX_END_OF_INPUT) (L "1 + 2" ++ NUL :: L "3") true = parse "1 + 2".
Proof. by vm_compute. Qed.
(** Sixteen digits do not tell every number apart. *)
Lemma real_rounded : ∃ r, parse "0.1234567890123456723" = Ok (Some (Literal (Real r) NO_FACTOR)) ∧ strtod (real_text r) ≠ r.
Proof. eexists. split; [vm_compute; reflexivity|]. vm_compute. discriminate. Qed.
(** The last token of the text before decides what a leading minus is. *)
Lemma minus_depends_on_last : ParseExpression false no_time no_time 60 (LEX_INTEGER_VALUE 1 NO_FACTOR) (L "-5") true =
    Ok (Some (Operation UNARY_MINUS_OP (Literal (Integer 5) NO_FACTOR) None None)) ∧ parse "-5" = Ok (Some (Literal (Integer (-5)) NO_FACTOR)).
Proof. split; vm_compute; reflexivity. Qed.
(** At the end of the text the lexer reads an exclamation mark twice. *)
Lemma mark_read_twice : ∃ r, next_token false (Tok LEX_END_OF_INPUT) (L "=!") = Ok (Tok LEX_BOUND_TO, r) ∧ r = L "!!".
Proof. eexists. split; vm_compute; reflexivity. Qed.
