(* ===== verification/CronDate.v ===== *)
(** * CronDate

    The calendar functions of [condor_utils/date_util.cpp], a reference
    calendar that counts days, and the interface of the time zone, [localtime] and
    [mktime] of the C library, with their definitions for the zones of a fixed offset. *)
From stdpp Require Import base list numbers.
From Stdlib Require Import ZArith Lia.
From S2P Require Import Prelude.
Open Scope Z_scope.
Open Scope condor_scope.

(** ** date_util *)

Definition leap (year : Z) : bool :=
  ((Z.rem year 4 =? 0) && negb (Z.rem year 100 =? 0)) || (Z.rem year 400 =? 0).

Definition daysInMonth (month year : Z) : Z :=
  let daysInMonth := [0; 31; 28; 31; 30; 31; 30; 31; 31; 30; 31; 30; 31] in
  if (0 <? month) && (month <=? 12)
  then nth (Z.to_nat month) daysInMonth 0 + (if (month =? 2) && leap year then 1 else 0)
  else 0.

(** The quotients are quotients of [int]s, on which [rint] does nothing. *)
Definition dayOfWeek (month day year : Z) : Z :=
  let '(month, year) := if month <? 3 then (month + 12, year - 1) else (month, year) in
  Z.rem (day + 1 + 2 * month + Z.quot (6 * (month + 1)) 10 + year
         + Z.quot year 4 - Z.quot year 100 + Z.quot year 400) 7.

(** ** The reference calendar *)

(** The days before the first of January of a year, from year 1 on, and before the
    first of a month. *)
Definition days_before_year (y : Z) : Z := 365 * (y - 1) + (y - 1) / 4 - (y - 1) / 100 + (y - 1) / 400.
Fixpoint days_before (months : nat) (y : Z) : Z :=
  match months with
  | O => 0
  | S k => days_before k y + daysInMonth (Z.of_nat (S k)) y
  end.
Definition day_number (y m d : Z) : Z := days_before_year y + days_before (Z.to_nat (m - 1)) y + (d - 1).

Definition valid_date (y m d : Z) : Prop := 1 ≤ y ∧ 1 ≤ m ≤ 12 ∧ 1 ≤ d ≤ daysInMonth m y.
Definition next_day (y m d : Z) : Z * Z * Z :=
  if d <? daysInMonth m y then (y, m, d + 1) else if m <? 12 then (y, m + 1, 1) else (y + 1, 1, 1).

Lemma leap_mod y : 0 ≤ y → leap y = ((y mod 4 =? 0) && negb (y mod 100 =? 0)) || (y mod 400 =? 0).
Proof. intros Hy. unfold leap. by rewrite !Z.rem_mod_nonneg by lia. Qed.

(** Case analysis on a month. *)
Lemma month_cases m : 1 ≤ m ≤ 12 → m ∈ seqZ 1 12.
Proof. intros. apply elem_of_seqZ. lia. Qed.
Ltac month_case m :=
  let H := fresh in
  assert (m ∈ seqZ 1 12) as H by (apply month_cases; lia); vm_compute (seqZ 1 12) in H;
  repeat (apply elem_of_cons in H as [->|H]; [|]); [..|by apply not_elem_of_nil in H].

Lemma days_before_13 y : days_before 12 y = 365 + (if leap y then 1 else 0).
Proof. unfold days_before, daysInMonth. simpl. destruct (leap y); lia. Qed.

Ltac dlia := Z.to_euclidean_division_equations; lia.

Lemma leap_count y : 1 ≤ y →
  y / 4 - y / 100 + y / 400 = (y - 1) / 4 - (y - 1) / 100 + (y - 1) / 400 + (if leap y then 1 else 0).
Proof.
  intros Hy. rewrite leap_mod by lia.
  destruct (Z.eqb_spec (y mod 4) 0), (Z.eqb_spec (y mod 100) 0), (Z.eqb_spec (y mod 400) 0); cbn [andb orb negb]; dlia.
Qed.

(** The closed form of the years is the sum of their lengths. *)
Lemma days_before_year_succ y : 1 ≤ y → days_before_year (y + 1) = days_before_year y + days_before 12 y.
Proof.
  intros Hy. rewrite days_before_13. unfold days_before_year.
  replace (y + 1 - 1) with y by lia. pose proof (leap_count y Hy). lia.
Qed.

Lemma daysInMonth_range m y : 1 ≤ m ≤ 12 → 28 ≤ daysInMonth m y ≤ 31.
Proof. intros Hm. month_case m; unfold daysInMonth; simpl; destruct (leap y); simpl; lia. Qed.

Lemma days_before_succ m y : 1 ≤ m ≤ 12 → days_before (Z.to_nat m) y = days_before (Z.to_nat (m - 1)) y + daysInMonth m y.
Proof. intros Hm. replace (Z.to_nat m) with (S (Z.to_nat (m - 1))) by lia. cbn [days_before]. do 2 f_equal; lia. Qed.

Lemma next_day_valid y m d : valid_date y m d → let '(y', m', d') := next_day y m d in valid_date y' m' d'.
Proof.
  intros (Hy & Hm & Hd). unfold next_day. destruct (Z.ltb_spec d (daysInMonth m y)).
  - repeat split; lia.
  - destruct (Z.ltb_spec m 12).
    + pose proof (daysInMonth_range (m + 1) y). repeat split; lia.
    + pose proof (daysInMonth_range 1 (y + 1)). repeat split; lia.
Qed.

Lemma day_number_next y m d : valid_date y m d →
  let '(y', m', d') := next_day y m d in day_number y' m' d' = day_number y m d + 1.
Proof.
  intros (Hy & Hm & Hd). unfold next_day, day_number. destruct (Z.ltb_spec d (daysInMonth m y)); [lia|].
  pose proof (days_before_succ m y Hm). destruct (Z.ltb_spec m 12).
  - replace (m + 1 - 1) with m by lia. lia.
  - assert (m = 12) as -> by lia. rewrite days_before_year_succ by lia. change (Z.to_nat (1 - 1)) with O.
    change (Z.to_nat 12) with 12%nat in *. cbn [days_before] in *. lia.
Qed.

Lemma days_before_table m y : 1 ≤ m ≤ 12 →
  days_before (Z.to_nat (m - 1)) y =
  nth (Z.to_nat m) [0; 0; 31; 59; 90; 120; 151; 181; 212; 243; 273; 304; 334] 0 + (if (2 <? m) && leap y then 1 else 0).
Proof. intros Hm. unfold days_before, daysInMonth. month_case m; simpl; destruct (leap y); reflexivity. Qed.

Lemma dayOfWeek_number y m d : valid_date y m d → dayOfWeek m d y = (day_number y m d + 1) mod 7.
Proof.
  intros (Hy & Hm & Hd). pose proof (leap_count y Hy) as Hl. unfold dayOfWeek, day_number, days_before_year.
  rewrite days_before_table by done. destruct (Z.ltb_spec m 3).
  - rewrite !(Z.quot_div_nonneg (y - 1)) by lia. rewrite (Z.quot_div_nonneg (6 * _)) by lia. rewrite Z.rem_mod_nonneg by dlia.
    month_case m; try lia; simpl nth; cbn [Z.ltb Z.compare Pos.compare Pos.compare_cont andb]; dlia.
  - rewrite !(Z.quot_div_nonneg y) by lia. rewrite (Z.quot_div_nonneg (6 * _)) by lia. rewrite Z.rem_mod_nonneg by dlia.
    month_case m; try lia; simpl nth; cbn [Z.ltb Z.compare Pos.compare Pos.compare_cont andb]; destruct (leap y); dlia.
Qed.

(** ** From a day to its date *)

Definition year_of (n : Z) : Z :=
  let e := 400 * n / 146097 + 1 in
  if days_before_year (e + 1) <=? n then e + 1 else if n <? days_before_year e then e - 1 else e.
Fixpoint month_of (fuel : nat) (m k y : Z) : Z :=
  match fuel with
  | O => m
  | S fuel => if k <? days_before (Z.to_nat m) y then m else month_of fuel (m + 1) k y
  end.
Definition date_of (n : Z) : Z * Z * Z :=
  let y := year_of n in
  let k := n - days_before_year y in
  let m := month_of 11 1 k y in
  (y, m, k - days_before (Z.to_nat (m - 1)) y + 1).

Lemma year_of_spec n : 0 ≤ n → 1 ≤ year_of n ∧ days_before_year (year_of n) ≤ n < days_before_year (year_of n + 1).
Proof.
  intros Hn. unfold year_of. cbv zeta. set (e := 400 * n / 146097 + 1).
  assert (1 ≤ e) by (unfold e; dlia). assert (146097 * (e - 1) ≤ 400 * n < 146097 * e) by (unfold e; dlia). clearbody e.
  unfold days_before_year. destruct (Z.leb_spec (365 * (e + 1 - 1) + (e + 1 - 1) / 4 - (e + 1 - 1) / 100 + (e + 1 - 1) / 400) n);
    [|destruct (Z.ltb_spec n (365 * (e - 1) + (e - 1) / 4 - (e - 1) / 100 + (e - 1) / 400))]; dlia.
Qed.

Lemma month_of_spec fuel : ∀ m k y, 1 ≤ m → m + Z.of_nat fuel ≤ 12 → days_before (Z.to_nat (m - 1)) y ≤ k →
  k < days_before (Z.to_nat (m + Z.of_nat fuel)) y →
  let m' := month_of fuel m k y in m ≤ m' ≤ 12 ∧ days_before (Z.to_nat (m' - 1)) y ≤ k < days_before (Z.to_nat m') y.
Proof.
  induction fuel as [|fuel IH]; intros m k y Hm Hf Hlo Hhi; simpl.
  - rewrite Z.add_0_r in Hhi. lia.
  - destruct (Z.ltb_spec k (days_before (Z.to_nat m) y)); [lia|].
    destruct (IH (m + 1) k y) as (? & ? & ?); [lia|lia| |replace (m + 1 + Z.of_nat fuel) with (m + Z.of_nat (S fuel)) by lia; done|].
    + by replace (m + 1 - 1) with m by lia.
    + simpl in *. lia.
Qed.

Lemma date_of_spec n : 0 ≤ n → let '(y, m, d) := date_of n in valid_date y m d ∧ day_number y m d = n.
Proof.
  intros Hn. unfold date_of. destruct (year_of_spec n Hn) as (Hy & Hlo & Hhi). set (y := year_of n) in *. clearbody y. cbv zeta.
  rewrite days_before_year_succ in Hhi by done.
  destruct (month_of_spec 11 1 (n - days_before_year y) y) as ((? & ?) & ? & Hd); [lia|lia|simpl; lia|change (Z.to_nat (1 + Z.of_nat 11)) with 12%nat; lia|].
  set (m := month_of _ _ _ _) in *. clearbody m. rewrite days_before_succ in Hd by lia. unfold valid_date, day_number. lia.
Qed.

(** The order of dates is the order of their numbers. *)
Lemma days_before_mono y a : ∀ b, (a ≤ b ≤ 12)%nat → days_before a y ≤ days_before b y.
Proof.
  induction b as [|b IH]; intros Hb; [by assert (a = 0)%nat as -> by lia|].
  destruct (decide (a = S b)) as [->|]; [lia|]. cbn [days_before].
  pose proof (daysInMonth_range (Z.of_nat (S b)) y). lia.
Qed.
Lemma days_before_year_mono a b : 1 ≤ a ≤ b → days_before_year a ≤ days_before_year b.
Proof. intros H. unfold days_before_year. dlia. Qed.

Lemma day_number_lt y m d y' m' d' : valid_date y m d → valid_date y' m' d' →
  (y < y' ∨ y = y' ∧ (m < m' ∨ m = m' ∧ d < d')) → day_number y m d < day_number y' m' d'.
Proof.
  intros (Hy & Hm & Hd) (Hy' & Hm' & Hd') H. unfold day_number.
  pose proof (days_before_succ m y Hm). destruct H as [H|[-> [H|[-> H]]]]; [| |lia].
  - pose proof (days_before_mono y (Z.to_nat m) 12 ltac:(lia)). pose proof (days_before_year_mono (y + 1) y' ltac:(lia)).
    pose proof (days_before_year_succ y Hy). pose proof (days_before_mono y' 0 (Z.to_nat (m' - 1)) ltac:(lia)). simpl (days_before 0 _) in *. lia.
  - pose proof (days_before_mono y' (Z.to_nat m) (Z.to_nat (m' - 1)) ltac:(lia)). lia.
Qed.

Lemma day_number_inj y m d y' m' d' : valid_date y m d → valid_date y' m' d' →
  day_number y m d = day_number y' m' d' → y = y' ∧ m = m' ∧ d = d'.
Proof.
  intros H H' E.
  pose proof (day_number_lt y m d y' m' d' H H'). pose proof (day_number_lt y' m' d' y m d H' H). lia.
Qed.

(** ** Minutes *)

Definition minute_number (y mo d h mi : Z) : Z := (day_number y mo d * 24 + h) * 60 + mi.
Definition valid_minute (y mo d h mi : Z) : Prop := valid_date y mo d ∧ 0 ≤ h < 24 ∧ 0 ≤ mi < 60.

Lemma minute_number_lt y mo d h mi y' mo' d' h' mi' : valid_minute y mo d h mi → valid_minute y' mo' d' h' mi' →
  (y < y' ∨ y = y' ∧ (mo < mo' ∨ mo = mo' ∧ (d < d' ∨ d = d' ∧ (h < h' ∨ h = h' ∧ mi < mi')))) →
  minute_number y mo d h mi < minute_number y' mo' d' h' mi'.
Proof.
  intros (Hd & Hh & Hm) (Hd' & Hh' & Hm') H. unfold minute_number.
  destruct (decide (y = y' ∧ mo = mo' ∧ d = d')) as [(-> & -> & ->)|Hne]; [lia|].
  pose proof (day_number_lt y mo d y' mo' d' Hd Hd' ltac:(lia)). lia.
Qed.

(** ** Time zones

    [localtime] and [mktime] of the C library; [mktime] is given the seconds, minutes,
    hours, day, month and year of a [struct tm] and ignores the day of the week,
    and the code sets [tm_isdst] to -1. *)
Record tm := mkTm { tm_min : Z; tm_hour : Z; tm_mday : Z; tm_mon : Z; tm_year : Z; tm_wday : Z }.
Class Zone := { localtime : Z → tm; mktime : Z → Z → Z → Z → Z → Z → Z }.

(** A zone without daylight saving time: Coordinated Universal Time, moved by [off]
    minutes. *)
Definition epoch : Z := day_number 1970 1 1.
Definition clock_fields (s : Z) : tm :=
  let '(y, mo, d) := date_of (s / 86400 + epoch) in
  mkTm (s / 60 mod 60) (s / 3600 mod 24) d (mo - 1) (y - 1900) (dayOfWeek mo d y).
Definition clock_seconds (sec mi h d mo y : Z) : Z := (minute_number (y + 1900) (mo + 1) d h mi - epoch * 1440) * 60 + sec.
Definition fixed_zone (off : Z) : Zone :=
  {| localtime t := clock_fields (t + off * 60);
     mktime sec mi h d mo y := clock_seconds sec mi h d mo y - off * 60 |}.

Lemma clock_fields_spec s : 0 ≤ s + epoch * 86400 → let f := clock_fields s in
  valid_minute (tm_year f + 1900) (tm_mon f + 1) (tm_mday f) (tm_hour f) (tm_min f) ∧
  minute_number (tm_year f + 1900) (tm_mon f + 1) (tm_mday f) (tm_hour f) (tm_min f) = s / 60 + epoch * 1440 ∧
  tm_wday f = dayOfWeek (tm_mon f + 1) (tm_mday f) (tm_year f + 1900).
Proof.
  intros Hs. unfold clock_fields. pose proof (date_of_spec (s / 86400 + epoch) ltac:(dlia)) as Hd.
  destruct (date_of _) as [[y mo] d]. destruct Hd as [Hd E]. cbn [tm_min tm_hour tm_mday tm_mon tm_year tm_wday].
  replace (y - 1900 + 1900) with y by lia. replace (mo - 1 + 1) with mo by lia. split_and!; [|unfold minute_number; rewrite E|done].
  - unfold valid_minute. split; [done|]. split; apply Z.mod_pos_bound; lia.
  - generalize epoch. intros e. dlia.
Qed.

Lemma date_of_number y mo d : valid_date y mo d → date_of (day_number y mo d) = (y, mo, d).
Proof.
  intros H. assert (0 ≤ day_number y mo d) as Hn.
  { destruct H as (Hy & Hm & Hd). unfold day_number. pose proof (days_before_year_mono 1 y ltac:(lia)).
    pose proof (days_before_mono y 0 (Z.to_nat (mo - 1)) ltac:(lia)). change (days_before_year 1) with 0 in *. simpl (days_before 0 _) in *. lia. }
  pose proof (date_of_spec _ Hn) as Hs. destruct (date_of _) as [[y' m'] d']. destruct Hs as [Hv E].
  by destruct (day_number_inj _ _ _ _ _ _ Hv H E) as (-> & -> & ->).
Qed.

Lemma clock_fields_seconds mi h d mo y : valid_minute (y + 1900) (mo + 1) d h mi →
  clock_fields (clock_seconds 0 mi h d mo y) = mkTm mi h d mo y (dayOfWeek (mo + 1) d (y + 1900)).
Proof.
  intros (Hd & Hh & Hm). unfold clock_fields, clock_seconds, minute_number.
  assert (((day_number (y + 1900) (mo + 1) d * 24 + h) * 60 + mi - epoch * 1440) * 60 + 0
          = (day_number (y + 1900) (mo + 1) d - epoch) * 86400 + h * 3600 + mi * 60) as -> by lia.
  set (n := day_number _ _ _). assert (((n - epoch) * 86400 + h * 3600 + mi * 60) / 86400 + epoch = n) as -> by dlia.
  unfold n. rewrite date_of_number by done. f_equal; [dlia..|].
  do 2 f_equal; lia.
Qed.

Definition fixed_offset (z : Zone) (off : Z) : Prop := -1440 ≤ off ≤ 1440 ∧ z = fixed_zone off.

(** In such a zone the fields are those of a date from 1900 on, [mktime] is the inverse of
    [localtime], and it keeps the order. *)
Section Fixed.
Context {z : Zone} {off : Z} (Hz : fixed_offset z off).

Lemma localtime_valid t : 0 ≤ t → let f := localtime t in
  0 ≤ tm_year f ∧ valid_minute (tm_year f + 1900) (tm_mon f + 1) (tm_mday f) (tm_hour f) (tm_min f) ∧
  tm_wday f = dayOfWeek (tm_mon f + 1) (tm_mday f) (tm_year f + 1900).
Proof.
  destruct Hz as [Hoff ->]. assert (epoch = 719162) as He by reflexivity. cbn [localtime fixed_zone].
  intros Ht. destruct (clock_fields_spec (t + off * 60)) as (Hv & Hn & Hw); [lia|]. split_and!; [|done..].
  destruct (Z.le_gt_cases 0 (tm_year (clock_fields (t + off * 60)))) as [|Hlt]; [done|exfalso]. set (f := clock_fields _) in *.
  assert (valid_minute 1900 1 1 0 0) as H0 by (unfold valid_minute, valid_date; change (daysInMonth 1 1900) with 31; lia).
  pose proof (minute_number_lt _ _ _ _ _ _ _ _ _ _ Hv H0 ltac:(lia)) as H. rewrite Hn in H.
  change (minute_number 1900 1 1 0 0) with 998776800 in H. dlia.
Qed.
Lemma mktime_localtime t : 0 ≤ t → t mod 60 = 0 → let f := localtime t in
  mktime 0 (tm_min f) (tm_hour f) (tm_mday f) (tm_mon f) (tm_year f) = t.
Proof.
  destruct Hz as [Hoff ->]. assert (epoch = 719162) as He by reflexivity. cbn [localtime mktime fixed_zone].
  intros Ht H60. destruct (clock_fields_spec (t + off * 60)) as (_ & Hn & _); [lia|]. unfold clock_seconds. rewrite Hn. dlia.
Qed.
Lemma localtime_mktime y mo d h mi : valid_minute (y + 1900) (mo + 1) d h mi → let t := mktime 0 mi h d mo y in
  t mod 60 = 0 ∧ let f := localtime t in (tm_min f, tm_hour f, tm_mday f, tm_mon f, tm_year f) = (mi, h, d, mo, y).
Proof.
  destruct Hz as [Hoff ->]. cbn [localtime mktime fixed_zone].
  intros Hv. replace (clock_seconds 0 mi h d mo y - off * 60 + off * 60) with (clock_seconds 0 mi h d mo y) by lia.
  rewrite clock_fields_seconds by done. split; [|done]. unfold clock_seconds. dlia.
Qed.
Lemma mktime_lt y mo d h mi y' mo' d' h' mi' :
  minute_number (y + 1900) (mo + 1) d h mi < minute_number (y' + 1900) (mo' + 1) d' h' mi' →
  mktime 0 mi h d mo y < mktime 0 mi' h' d' mo' y'.
Proof. destruct Hz as [Hoff ->]. cbn [mktime fixed_zone]. unfold clock_seconds. lia. Qed.
End Fixed.

(** [dayOfWeek] is the day of the week.  Its formula gives 4 for the first of
    January 1970, a Thursday, moves on by one day of the week from each date to the
    next, over the ends of months and years and the 29th of February, and is between 0
    and 6. *)
Theorem dayOfWeek_correct y m d : valid_date y m d →
  dayOfWeek 1 1 1970 = 4 ∧ 0 ≤ dayOfWeek m d y ≤ 6 ∧
  let '(y', m', d') := next_day y m d in valid_date y' m' d' ∧ dayOfWeek m' d' y' = (dayOfWeek m d y + 1) mod 7.
Proof.
  intros Hv. pose proof (next_day_valid y m d Hv) as Hn. pose proof (day_number_next y m d Hv) as Hd.
  rewrite (dayOfWeek_number y m d Hv). destruct (next_day y m d) as [[y' m'] d']. rewrite (dayOfWeek_number y' m' d' Hn), Hd.
  split; [done|]. split; [dlia|]. split; [done|]. dlia.
Qed.
Lemma dayOfWeek_correct_witness : dayOfWeek 3 1 2100 = (dayOfWeek 2 28 2100 + 1) mod 7.
Proof.
  assert (valid_date 2100 2 28) as Hv by (unfold valid_date; change (daysInMonth 2 2100) with 28; lia).
  destruct (dayOfWeek_correct 2100 2 28 Hv) as (_ & _ & _ & H). exact H.
Defined.
