(* ===== verification/CronTab.v ===== *)
(** * CronTab

    The class [CronTab] of [condor_utils/condor_crontab.cpp]: the schedule of a job
    that runs at given minutes, hours, days and months, as in a crontab file.  The
    parameters are expanded to lists of numbers when the object is made, and
    [nextRunTime] searches the first time after a given one at which the job
    runs.  Here are the definitions and the expansion of the parameters;
    [CronRun] has the search. *)
From stdpp Require Import base list numbers sorting strings sets.
From Stdlib Require Import ZArith Lia Ascii.
From S2P Require Import Prelude MyString JobAd CronDate.
Open Scope Z_scope.
Open Scope condor_scope.

(** ** Definitions *)

Definition CRONTAB_DELIMITER : cstr := L ",".
Definition CRONTAB_WILDCARD : cstr := L "*".
Definition CRONTAB_RANGE : cstr := L "-".
Definition CRONTAB_STEP : cstr := L "/".
Definition CRONTAB_CRONOS_STAR : Z := -1.
Definition CRONTAB_INVALID : Z := -1.
Definition CRONTAB_FIELDS : nat := 5.
(** The indices of the fields, and their least and greatest values. *)
Abbreviation CRONTAB_MINUTES_IDX := 0%nat.
Abbreviation CRONTAB_HOURS_IDX := 1%nat.
Abbreviation CRONTAB_DOM_IDX := 2%nat.
Abbreviation CRONTAB_MONTHS_IDX := 3%nat.
Abbreviation CRONTAB_DOW_IDX := 4%nat.
Abbreviation CRONTAB_YEARS_IDX := 5%nat.
Abbreviation CRONTAB_DAY_OF_MONTH_MAX := 31.
Abbreviation CRONTAB_DAY_OF_WEEK_MIN := 0.
Abbreviation CRONTAB_DAY_OF_WEEK_MAX := 7.
Definition mins : list Z := [0; 0; 1; 1; CRONTAB_DAY_OF_WEEK_MIN].
Definition maxs : list Z := [59; 23; CRONTAB_DAY_OF_MONTH_MAX; 12; CRONTAB_DAY_OF_WEEK_MAX].
Definition CRONTAB_PARAMETER_PATTERN : cstr := L "[^\/0-9,-/*\ \/*]".

Definition attributes : list cstr :=
  [L "CronMinute"; L "CronHour"; L "CronDayOfMonth"; L "CronMonth"; L "CronDayOfWeek"].

(** ** Regular expressions

    [Regex] over the PCRE library, which compiles a pattern to a matcher or fails. *)
Class Pcre := pcre_compile : cstr → option (cstr → bool).
Definition Regex : Type := option (cstr → bool).
Definition isInitialized (re : Regex) : bool := match re with Some _ => true | None => false end.
Definition Regex_match (re : Regex) (s : cstr) : bool := match re with Some m => m s | None => false end.

(** What PCRE makes of the pattern: a negated class of characters, in which the three
    macros in a row, [,-/], are a range, with the full stop in it. *)
Definition allowed (c : ascii) : bool := is_digit c || has_char c (L ",-./* ").
Class CronPcre (p : Pcre) : Prop :=
  pattern_compiles : ∃ m, pcre_compile CRONTAB_PARAMETER_PATTERN = Some m ∧
    ∀ s, m s = existsb (fun c => negb (allowed c)) s.

(** ** Lists of numbers

    An [ExtArray<int>] is the list of its elements up to [getlast()]. *)

Definition contains (l : list Z) (elt : Z) : bool := existsb (fun x => elt =? x) l.

(** The inner loop of [sort]: the sorted part, its last element first, shifted to
    make place for [value]. *)
Fixpoint shift (sorted : list Z) (value : Z) : list Z :=
  match sorted with
  | x :: l => if value <? x then x :: shift l value else value :: x :: l
  | [] => [value]
  end.
Definition sort (l : list Z) : list Z := reverse (foldl shift [] l).

(** [atoi]: [strtol] cut to an [int]; [strtol] stops at the limits of [long]. *)
Definition atoi (s : cstr) : Z :=
  match parse_int (skip_while isspace s) with
  | Some (n, _) => int32 (Z.max (- 2 ^ 63) (Z.min n (2 ^ 63 - 1)))
  | None => 0
  end.

(** ** The class *)

Record CronTab := mkCronTab {
  errorLog : cstr;
  valid : bool;
  lastRunTime : Z;
  parameters : list cstr;
  ranges : list (list Z);
}.
#[export] Instance CronTab_updatable : Updatable CronTab :=
  fun c => mkCronTab (errorLog c) (valid c) (lastRunTime c) (parameters c) (ranges c).

Definition getError (c : CronTab) : cstr := errorLog c.
Definition isValid (c : CronTab) : bool := valid c.
Definition lastRun (c : CronTab) : Z := lastRunTime c.

(** The error message, if the parameter is not valid. *)
Definition validateParameter (regex : Regex) (attribute_idx : nat) (parameter : cstr) : option cstr :=
  if Regex_match regex parameter
  then Some (L "Invalid parameter value '" ++ parameter ++ L "' for " ++ nth attribute_idx attributes [])
  else None.

(** *** Expansion of a parameter *)

(** STEP VALUES: the token without its step, and the step. *)
Definition split_step (token : cstr) : cstr * Z :=
  if 0 <? Str.find token CRONTAB_STEP 0 then
    let '(_numerator, nextToken) := Str.GetNextToken CRONTAB_STEP true (Str.Tokenize token) in
    let '(_temp, _) := Str.GetNextToken CRONTAB_STEP true nextToken in
    (default [] _numerator, match _temp with Some t => atoi (Str.trim t) | None => 1 end)
  else (token, 1).

(** RANGE, WILDCARD, SINGLE VALUE: the least and the greatest number of the token;
    [None] for the wildcard of the days of the week, which is left out. *)
Definition token_range (attribute_idx : nat) (min max : Z) (token : cstr) : option (Z * Z) :=
  if 0 <? Str.find token CRONTAB_RANGE 0 then
    let '(t1, nextToken) := Str.GetNextToken CRONTAB_RANGE true (Str.Tokenize token) in
    let '(t2, _) := Str.GetNextToken CRONTAB_RANGE true nextToken in
    let value := atoi (Str.trim (default [] t1)) in
    let cur_min := if min <=? value then value else min in
    let value := atoi (Str.trim (default [] t2)) in
    let cur_max := if value <=? max then value else max in
    Some (cur_min, cur_max)
  else if 0 <=? Str.find token CRONTAB_WILDCARD 0 then
    if (attribute_idx =? CRONTAB_DOW_IDX)%nat then None else Some (min, max)
  else
    let value := atoi token in
    if (min <=? value) && (value <=? max) then Some (value, value) else Some (min, max).

(** One round of the loop that fills the list; a step of 0 is a division by zero,
    which stops the process. *)
Definition fill_step (attribute_idx : nat) (cur_step : Z) (l : option (list Z)) (ctr : Z) : option (list Z) :=
  l ← l;
  let temp := if (attribute_idx =? CRONTAB_DOW_IDX)%nat && (ctr =? CRONTAB_DAY_OF_WEEK_MAX)
              then CRONTAB_DAY_OF_WEEK_MIN else ctr in
  if cur_step =? 0 then None
  else Some (if (Z.rem temp cur_step =? 0) && negb (contains l temp) then l ++ [temp] else l).

Definition expand_token (attribute_idx : nat) (min max : Z) (l : option (list Z)) (token : cstr) : option (list Z) :=
  let '(token, cur_step) := split_step token in
  match token_range attribute_idx min max token with
  | None => l
  | Some (cur_min, cur_max) => foldl (fill_step attribute_idx cur_step) l (seqZ cur_min (cur_max - cur_min + 1))
  end.

Definition expandParameter (regex : Regex) (attribute_idx : nat) (min max : Z) (c : CronTab) : option (bool * CronTab) :=
  let param := nth attribute_idx (parameters c) [] in
  let l := nth attribute_idx (ranges c) [] in
  match validateParameter regex attribute_idx param with
  | Some error => Some (false, c <| errorLog ::= fun e => e ++ error |>)
  | None =>
      let param := snd (Str.replaceString param (L " ") [] 0) in
      let tokens := Str.all_tokens (S (length param)) CRONTAB_DELIMITER true (Str.Tokenize param) in
      l ← foldl (expand_token attribute_idx min max) (Some l) tokens;
      Some (true, c <| parameters ::= <[attribute_idx := param]> |> <| ranges ::= <[attribute_idx := sort l]> |>)
  end.

(** *** Construction

    The state of the class, [regex], is passed along. *)
Section Construct.
Context `{pcre : Pcre}.

(** [None]: the EXCEPT when the pattern does not compile. *)
Definition initRegexObject (regex : Regex) : option Regex :=
  if isInitialized regex then Some regex
  else match pcre_compile CRONTAB_PARAMETER_PATTERN with Some m => Some (Some m) | None => None end.

Fixpoint init_loop (regex : Regex) (n : nat) (ctr : nat) (failed : bool) (c : CronTab) : option (bool * CronTab) :=
  match n with
  | O => Some (failed, c)
  | S n =>
      '(ok, c) ← expandParameter regex ctr (nth ctr mins 0) (nth ctr maxs 0) (c <| ranges ::= <[ctr := []]> |>);
      init_loop regex n (S ctr) (failed || negb ok) c
  end.
Definition init (regex : Regex) (parameters : list cstr) : option (Regex * CronTab) :=
  regex ← initRegexObject regex;
  '(failed, c) ← init_loop regex CRONTAB_FIELDS 0 false
    (mkCronTab [] false CRONTAB_INVALID parameters (replicate CRONTAB_FIELDS []));
  Some (regex, if negb failed then c <| valid := true |> else c).

Definition CronTab_strings (minutes hours days_of_month months days_of_week : cstr) (regex : Regex) : option (Regex * CronTab) :=
  init regex [minutes; hours; days_of_month; months; days_of_week].
Definition cronos (n : Z) : cstr := if n =? CRONTAB_CRONOS_STAR then CRONTAB_WILDCARD else int_text n.
Definition CronTab_ints (minutes hours days_of_month months days_of_week : Z) (regex : Regex) : option (Regex * CronTab) :=
  init regex (cronos <$> [minutes; hours; days_of_month; months; days_of_week]).

Context `{JobAd ad}.
Definition CronTab_ad (a : ad) (regex : Regex) : option (Regex * CronTab) :=
  init regex ((fun attr => match LookupString a attr with Some buffer => buffer | None => CRONTAB_WILDCARD end) <$> attributes).
Definition needsCronTab (a : ad) : bool := existsb (LookupExpr a) attributes.

(** The errors of all fields, if any is not valid. *)
Definition validate_step (regex : Regex) (a : ad) (r : bool * cstr) (ctr : nat) : bool * cstr :=
  match LookupString a (nth ctr attributes []) with
  | Some buffer =>
      match validateParameter regex ctr buffer with
      | Some curError => (false, snd r ++ curError)
      | None => r
      end
  | None => r
  end.
Definition validate (regex : Regex) (a : ad) (error : cstr) : bool * cstr :=
  foldl (validate_step regex a) (true, error) (seq 0 CRONTAB_FIELDS).
End Construct.

(** *** The search *)

(** The days of the month that are a day of the week of [dow]; [firstDay] is the day
    of the week of the first.  The loop over [day] makes at most six rounds: it
    starts at -5 or later. *)
Fixpoint dow_loop (fuel : nat) (day : Z) (curRange : list Z) : list Z :=
  match fuel with
  | O => curRange
  | S fuel =>
      if day <=? CRONTAB_DAY_OF_MONTH_MAX
      then dow_loop fuel (day + 7) (if (0 <? day) && negb (contains curRange day) then curRange ++ [day] else curRange)
      else curRange
  end.
Definition dom_range (dom dow : list Z) (month year : Z) : list Z :=
  let curRange :=
    if Z.of_nat (length dom) =? CRONTAB_DAY_OF_MONTH_MAX then
      if (Z.of_nat (length dow) =? CRONTAB_DAY_OF_WEEK_MAX) || (length dow =? 0)%nat then dom else []
    else dom in
  let firstDay := dayOfWeek month 1 year in
  sort (foldl (fun curRange d => dow_loop 6 (d - firstDay + 1) curRange) curRange dow).

(** The loop over the range of a field; [below] is the call for the next field. *)
Fixpoint match_loop (below : list Z → bool → option (bool * list Z)) (attribute_idx : nat) (curTime : list Z)
    (useFirst nextUseFirst : bool) (curRange match_ : list Z) : option (bool * list Z) :=
  match curRange with
  | [] => Some (false, match_)
  | value :: curRange =>
      let cur := nth attribute_idx curTime 0 in
      if useFirst || (cur <=? value) then
        let nextUseFirst := nextUseFirst || (cur <? value) in
        let maxDOM := daysInMonth (nth CRONTAB_MONTHS_IDX match_ 0) (nth CRONTAB_YEARS_IDX match_ 0) in
        if (attribute_idx =? CRONTAB_DOM_IDX)%nat && (maxDOM <? value)
        then match_loop below attribute_idx curTime useFirst nextUseFirst curRange match_
        else
          let match_ := <[attribute_idx := value]> match_ in
          if (attribute_idx =? CRONTAB_MINUTES_IDX)%nat then Some (true, match_)
          else
            '(ret, match_) ← below match_ nextUseFirst;
            if ret : bool then Some (true, match_)
            else match_loop below attribute_idx curTime useFirst true curRange match_
      else match_loop below attribute_idx curTime useFirst nextUseFirst curRange match_
  end.

(** [fuel] bounds the depth of the recursion: three fields below the months, and one
    call for each year. *)
Fixpoint matchFields (fuel : nat) (c : CronTab) (curTime match_ : list Z) (attribute_idx : nat) (useFirst : bool)
    : option (bool * list Z) :=
  match fuel with
  | O => None
  | S fuel =>
      let match_ := <[attribute_idx := -1]> match_ in
      let range i := nth i (ranges c) [] in
      let curRange := if (attribute_idx =? CRONTAB_DOM_IDX)%nat
                      then dom_range (range attribute_idx) (range CRONTAB_DOW_IDX)
                             (nth CRONTAB_MONTHS_IDX match_ 0) (nth CRONTAB_YEARS_IDX match_ 0)
                      else range attribute_idx in
      '(ret, match_) ← match_loop (fun m u => matchFields fuel c curTime m (attribute_idx - 1) u)
                         attribute_idx curTime useFirst useFirst curRange match_;
      if negb ret && (attribute_idx =? CRONTAB_MONTHS_IDX)%nat
      then matchFields fuel c curTime (<[CRONTAB_YEARS_IDX := nth CRONTAB_YEARS_IDX match_ 0 + 1]> match_) attribute_idx true
      else Some (ret, match_)
  end.

(** The result, an EXCEPT, or no answer within the fuel. *)
Inductive run_result :=
| RunTime (runtime : Z) (c : CronTab)
| RunExcept
| RunsOn.

Definition nextRunTime `{z : Zone} (fuel : nat) (c : CronTab) (timestamp : Z) : run_result :=
  if negb (valid c) then RunTime CRONTAB_INVALID (c <| lastRunTime := CRONTAB_INVALID |>)
  else
    let timestamp := timestamp + (60 - Z.rem timestamp 60) in
    let t := localtime timestamp in
    let fields := [tm_min t; tm_hour t; tm_mday t; tm_mon t + 1; tm_wday t] in
    (* the first four elements of [match] are not initialized *)
    let match_ := [0; 0; 0; 0; -1; tm_year t + 1900] in
    match matchFields fuel c fields match_ (CRONTAB_FIELDS - 2) false with
    | None => RunsOn
    | Some (false, _) => RunExcept
    | Some (true, m) =>
        let runtime := mktime 0 (nth CRONTAB_MINUTES_IDX m 0) (nth CRONTAB_HOURS_IDX m 0) (nth CRONTAB_DOM_IDX m 0)
                         (nth CRONTAB_MONTHS_IDX m 0 - 1) (nth CRONTAB_YEARS_IDX m 0 - 1900) in
        if runtime <? timestamp then RunExcept else RunTime runtime (c <| lastRunTime := runtime |>)
    end.

(** ** Lists of numbers *)

Lemma contains_spec l x : contains l x = true ↔ x ∈ l.
Proof.
  unfold contains. rewrite existsb_exists. split.
  - intros (y & Hy & ->%Z.eqb_eq). by apply list_elem_of_In.
  - intros Hx. exists x. split; [by apply list_elem_of_In|by apply Z.eqb_eq].
Qed.

(** A list in ascending order, without repetitions. *)
Abbreviation ascending := (StronglySorted Z.lt).

Lemma shift_perm l x : shift l x ≡ₚ x :: l.
Proof. induction l as [|y l IH]; simpl; [done|]. destruct (x <? y); [|done]. rewrite IH. constructor. Qed.
Lemma shift_sorted l x : x ∉ l → StronglySorted Z.gt l → StronglySorted Z.gt (shift l x).
Proof.
  induction l as [|y l IH]; simpl; intros Hx Hs; [by repeat constructor|].
  apply StronglySorted_inv in Hs as [Hs Hy]. destruct (Z.ltb_spec x y).
  - constructor; [apply IH; [set_solver|done]|]. rewrite Forall_forall in *. intros z. rewrite shift_perm, elem_of_cons. intros [->|?]; [lia|auto].
  - assert (x ≠ y) by set_solver. constructor; [by constructor|]. constructor; [lia|]. eapply Forall_impl; [done|]. simpl. lia.
Qed.
Lemma sort_spec l : NoDup l → ascending (sort l) ∧ sort l ≡ₚ l.
Proof.
  intros Hl. unfold sort. cut (∀ r, NoDup (r ++ l) → StronglySorted Z.gt r →
    StronglySorted Z.gt (foldl shift r l) ∧ foldl shift r l ≡ₚ r ++ l).
  { intros H. destruct (H [] Hl) as [H1 H2]; [constructor|]. simpl in H2. split; [|by rewrite reverse_Permutation].
    clear H H2 Hl. induction (foldl shift [] l) as [|x r IH]; [constructor|]. apply StronglySorted_inv in H1 as [H1 Hx].
    rewrite reverse_cons. apply StronglySorted_app_2; [|auto|by repeat constructor].
    intros y z Hy Hz%list_elem_of_singleton. subst z. rewrite elem_of_reverse in Hy. rewrite Forall_forall in Hx. specialize (Hx y Hy). lia. }
  clear Hl. induction l as [|x l IH]; intros r Hr Hs; simpl; [by rewrite app_nil_r|].
  assert (x ∉ r) as Hx by (apply NoDup_app in Hr as (_ & Hr & _); intros Hin; apply (Hr x Hin); set_solver).
  destruct (IH (shift r x)) as [H1 H2].
  - rewrite shift_perm. simpl. by rewrite Permutation_middle.
  - by apply shift_sorted.
  - split; [done|]. rewrite H2, shift_perm. simpl. by rewrite Permutation_middle.
Qed.

(** ** Expansion *)

(** 7 is Sunday as 0 is. *)
Definition sunday (idx : nat) (x : Z) : Z := if (idx =? CRONTAB_DOW_IDX)%nat && (x =? 7) then 0 else x.

Lemma fill_step_Some idx step l x : step ≠ 0 →
  fill_step idx step (Some l) x =
  Some (if (Z.rem (sunday idx x) step =? 0) && negb (contains l (sunday idx x)) then l ++ [sunday idx x] else l).
Proof. intros Hs. unfold fill_step. cbn [mbind option_bind]. by rewrite (proj2 (Z.eqb_neq step 0)). Qed.

Lemma fill_spec idx step xs : step ≠ 0 → ∀ l, NoDup l → ∃ l', foldl (fill_step idx step) (Some l) xs = Some l' ∧ NoDup l' ∧
  ∀ x, x ∈ l' ↔ x ∈ l ∨ ∃ y, y ∈ xs ∧ sunday idx y = x ∧ Z.rem x step = 0.
Proof.
  intros Hs. induction xs as [|y xs IH]; intros l Hl; cbn [foldl].
  - exists l. split_and!; [done..|]. set_solver.
  - rewrite fill_step_Some by done. destruct (_ && _) eqn:E.
    + split_bools. destruct (IH (l ++ [sunday idx y])) as (l' & -> & Hn & Hm).
      { apply NoDup_app. split_and!; [done| |apply NoDup_singleton]. intros z Hz ->%list_elem_of_singleton.
        apply contains_spec in Hz. congruence. }
      exists l'. split_and!; [done..|]. intros x. rewrite Hm. apply Z.eqb_eq in H. set_solver.
    + destruct (IH l Hl) as (l' & -> & Hn & Hm). exists l'. split_and!; [done..|]. intros x. rewrite Hm.
      apply andb_false_iff in E as [E%Z.eqb_neq|E%negb_false_iff]; [set_solver|]. apply contains_spec in E. set_solver.
Qed.

(** The numbers that a token selects. *)
Definition token_selects (idx : nat) (min max : Z) (token : cstr) (x : Z) : Prop :=
  let '(token, step) := split_step token in
  ∃ a b y, token_range idx min max token = Some (a, b) ∧ a ≤ y ≤ b ∧ x = sunday idx y ∧ Z.rem x step = 0.

Lemma fill_zero idx l xs : xs ≠ [] → foldl (fill_step idx 0) (Some l) xs = None.
Proof. destruct xs as [|x xs]; [done|]. intros _. cbn [foldl]. unfold fill_step at 2. cbn [mbind option_bind]. simpl. by induction xs. Qed.

Lemma expand_token_spec idx min max token l l' : NoDup l → expand_token idx min max (Some l) token = Some l' →
  NoDup l' ∧ ∀ x, x ∈ l' ↔ x ∈ l ∨ token_selects idx min max token x.
Proof.
  intros Hl. unfold expand_token, token_selects. destruct (split_step token) as [t step]. destruct (token_range _ _ _ _) as [[a b]|].
  2: { intros [= <-]. split; [done|]. intros x. split; [tauto|]. by intros [?|(? & ? & ? & ? & _)]. }
  intros E. destruct (decide (step = 0)) as [->|Hs].
  - destruct (decide (a ≤ b)); [rewrite fill_zero in E; [done|]|].
    { intros Hn. assert (a ∈ seqZ a (b - a + 1)) as Hin by (apply elem_of_seqZ; lia). rewrite Hn in Hin. by apply not_elem_of_nil in Hin. }
    replace (seqZ a (b - a + 1)) with (@nil Z) in E by (by rewrite seqZ_nil by lia). injection E as <-.
    split; [done|]. intros x. split; [tauto|]. intros [?|(a' & b' & y & [= -> ->] & ? & _)]; [done|lia].
  - destruct (fill_spec idx step (seqZ a (b - a + 1)) Hs l Hl) as (l2 & E2 & Hn & Hm). rewrite E in E2. injection E2 as <-.
    split; [done|]. intros x. rewrite Hm. setoid_rewrite elem_of_seqZ. split; intros [?|H]; [tauto| |tauto|]; right.
    + destruct H as (y & ? & <- & ?). exists a, b, y. split_and!; [done|lia..|done|done].
    + destruct H as (a' & b' & y & [= <- <-] & ? & -> & ?). exists y. split_and!; [lia..|done|done].
Qed.

Lemma expand_tokens_spec idx min max tokens : ∀ l l', NoDup l → foldl (expand_token idx min max) (Some l) tokens = Some l' →
  NoDup l' ∧ ∀ x, x ∈ l' ↔ x ∈ l ∨ ∃ t, t ∈ tokens ∧ token_selects idx min max t x.
Proof.
  induction tokens as [|t ts IH]; intros l l' Hl; cbn [foldl].
  - intros [= <-]. split; [done|]. set_solver.
  - destruct (expand_token idx min max (Some l) t) as [l1|] eqn:E.
    2: { intros E'. exfalso. clear -E'. induction ts as [|t ts IH]; cbn [foldl] in E'; [done|]. apply IH. rewrite <- E'. f_equal.
      unfold expand_token. destruct (split_step t). destruct (token_range _ _ _ _) as [[a b]|]; [|done]. clear. by induction (seqZ a (b - a + 1)). }
    destruct (expand_token_spec _ _ _ _ _ _ Hl E) as [Hl1 H1]. intros E'. destruct (IH l1 l' Hl1 E') as [Hl' H2]. split; [done|].
    intros x. rewrite H2, H1. set_solver.
Qed.

(** ** The ranges are well formed *)

Definition range_ok (idx : nat) (l : list Z) : Prop :=
  ascending l ∧ ∀ x, x ∈ l → nth idx mins 0 ≤ x ≤ (if (idx =? CRONTAB_DOW_IDX)%nat then 6 else nth idx maxs 0).
Definition cron_wf (c : CronTab) : Prop := length (ranges c) = 5%nat ∧ ∀ idx, (idx < 5)%nat → range_ok idx (nth idx (ranges c) []).

Lemma token_range_bounds idx min max t a b : token_range idx min max t = Some (a, b) → min ≤ a ∧ b ≤ max.
Proof.
  unfold token_range. destruct (0 <? _).
  - destruct (Str.GetNextToken _ _ _) as [t1 n1]. destruct (Str.GetNextToken _ _ n1) as [t2 n2]. intros [= <- <-].
    destruct (Z.leb_spec min (atoi (Str.trim (default [] t1)))), (Z.leb_spec (atoi (Str.trim (default [] t2))) max); lia.
  - destruct (0 <=? _); [destruct (_ =? _)%nat; [done|]; intros [= <- <-]; lia|].
    destruct (Z.leb_spec min (atoi t)), (Z.leb_spec (atoi t) max); intros [= <- <-]; lia.
Qed.

Lemma idx_cases idx : (idx < 5)%nat → idx ∈ [0; 1; 2; 3; 4]%nat.
Proof. intros. repeat (destruct idx as [|idx]; [set_solver|]). lia. Qed.
Ltac idx_case idx :=
  let H := fresh in
  assert (idx ∈ [0; 1; 2; 3; 4]%nat) as H by (apply idx_cases; lia);
  repeat (apply elem_of_cons in H as [->|H]; [|]); [..|by apply not_elem_of_nil in H].

Lemma token_selects_ok idx t x : (idx < 5)%nat → token_selects idx (nth idx mins 0) (nth idx maxs 0) t x →
  nth idx mins 0 ≤ x ≤ (if (idx =? CRONTAB_DOW_IDX)%nat then 6 else nth idx maxs 0).
Proof.
  intros Hi. unfold token_selects. destruct (split_step t) as [u step]. intros (a & b & y & E & Hy & -> & _).
  apply token_range_bounds in E. unfold sunday.
  idx_case idx; simpl in *; try lia. destruct (Z.eqb_spec y 7); lia.
Qed.

Lemma nth_insert {A} (l : list A) i j x d : (i < length l)%nat → nth j (<[i := x]> l) d = if decide (i = j) then x else nth j l d.
Proof.
  intros Hi. rewrite !nth_lookup. case_decide as E; [subst; by rewrite list_lookup_insert_eq|by rewrite list_lookup_insert_ne].
Qed.

(** On success the field has the numbers that the tokens select, in order. *)
Lemma expandParameter_spec regex idx min max c ok c' : length (ranges c) = 5%nat → (idx < 5)%nat → nth idx (ranges c) [] = [] →
  expandParameter regex idx min max c = Some (ok, c') →
  (ok = true ↔ Regex_match regex (nth idx (parameters c) []) = false) ∧ length (ranges c') = 5%nat ∧
  (∀ i, i ≠ idx → nth i (ranges c') [] = nth i (ranges c) []) ∧
  (if ok then
     let param := snd (Str.replaceString (nth idx (parameters c) []) (L " ") [] 0) in
     ascending (nth idx (ranges c') []) ∧ errorLog c' = errorLog c ∧
     ∀ x, x ∈ nth idx (ranges c') [] ↔
       ∃ t, t ∈ Str.all_tokens (S (length param)) CRONTAB_DELIMITER true (Str.Tokenize param) ∧ token_selects idx min max t x
   else nth idx (ranges c') [] = []).
Proof.
  intros Hlen Hi Hr. unfold expandParameter, validateParameter. destruct (Regex_match _ _) eqn:Em.
  { intros [= <- <-]. done. }
  rewrite Hr. destruct (foldl _ _ _) as [l|] eqn:E; cbn [mbind option_bind]; [|done]. intros [= <- <-].
  destruct (expand_tokens_spec _ _ _ _ _ _ (NoDup_nil_2) E) as [Hn Hm]. destruct (sort_spec l Hn) as [Hs Hp].
  split; [done|]. cbn [ranges errorLog field_update]. rewrite length_insert. split; [done|]. split.
  - intros i Hne. rewrite nth_insert by lia. by case_decide.
  - rewrite nth_insert by lia. case_decide; [|done]. split_and!; [done..|]. intros x. rewrite Hp, Hm. set_solver.
Qed.

Lemma range_ok_nil idx : range_ok idx [].
Proof. split; [constructor|]. set_solver. Qed.

Lemma expandParameter_wf regex idx c ok c' : cron_wf c → (idx < 5)%nat → nth idx (ranges c) [] = [] →
  expandParameter regex idx (nth idx mins 0) (nth idx maxs 0) c = Some (ok, c') → cron_wf c'.
Proof.
  intros [Hlen Hw] Hi Hr E. destruct (expandParameter_spec _ _ _ _ _ _ _ Hlen Hi Hr E) as (_ & Hlen' & Hoth & Hidx).
  split; [done|]. intros i Hi'. destruct (decide (i = idx)) as [->|Hne]; [|rewrite Hoth by done; auto].
  destruct ok; [|rewrite Hidx; apply range_ok_nil]. destruct Hidx as (Ha & _ & Hm). split; [done|].
  intros x (t & _ & Ht)%Hm. by apply (token_selects_ok idx t).
Qed.

Lemma init_loop_wf regex n : ∀ ctr failed c r c', (ctr + n ≤ 5)%nat → cron_wf c → init_loop regex n ctr failed c = Some (r, c') → cron_wf c'.
Proof.
  induction n as [|n IH]; intros ctr failed c r c' Hn Hw; cbn [init_loop]; [by intros [= _ <-]|].
  assert (cron_wf (c <| ranges ::= <[ctr := []]> |>)) as Hw'.
  { destruct Hw as [Hlen Hw]. split; cbn [ranges field_update]; [by rewrite length_insert|]. intros i Hi. rewrite nth_insert by lia.
    case_decide; [apply range_ok_nil|auto]. }
  destruct (expandParameter _ _ _ _ _) as [[ok c1]|] eqn:E; cbn [mbind option_bind]; [|done].
  intros E'. apply (IH (S ctr) (failed || negb ok) c1 r c'); [lia| |done]. apply (expandParameter_wf regex ctr _ ok c1 Hw'); [lia| |done].
  destruct Hw as [Hlen _]. cbn [ranges field_update]. rewrite nth_insert by lia. by case_decide.
Qed.

Lemma init_wf `{Pcre} regex params regex' c : init regex params = Some (regex', c) → cron_wf c.
Proof.
  unfold init. destruct (initRegexObject _) as [re|]; cbn [mbind option_bind]; [|done].
  destruct (init_loop _ _ _ _ _) as [[failed c1]|] eqn:E; cbn [mbind option_bind]; [|done]. intros [= <- <-].
  assert (cron_wf c1) as [? ?].
  { eapply (init_loop_wf re 5); [| |exact E]; [done|]. split; [done|]. intros i Hi. idx_case i; apply range_ok_nil. }
  destruct (negb failed); by split.
Qed.

(** C22. The ranges of a schedule are well formed.  Whatever the parameters are, an object
    that a constructor makes has five ranges, each in ascending order without
    repetitions, with numbers of its field: minutes from 0 to 59, hours from 0 to 23,
    days from 1 to 31, months from 1 to 12 and days of the week from 0 to 6. *)
Theorem constructor_ranges {p : Pcre} `{JobAd ad} (a : ad) (mi h d mo w : cstr) (mi' h' d' mo' w' : Z) regex regex' c :
  CronTab_ad a regex = Some (regex', c) ∨ CronTab_strings mi h d mo w regex = Some (regex', c) ∨
    CronTab_ints mi' h' d' mo' w' regex = Some (regex', c) →
  length (ranges c) = 5%nat ∧ ∀ idx, (idx < 5)%nat → ascending (nth idx (ranges c) []) ∧
    ∀ x, x ∈ nth idx (ranges c) [] → nth idx mins 0 ≤ x ≤ nth idx [59; 23; 31; 12; 6] 0.
Proof.
  intros Hc. assert (cron_wf c) as [Hlen Hw].
  { destruct Hc as [Hc|[Hc|Hc]]; by apply init_wf in Hc. }
  split; [done|]. intros idx Hi. destruct (Hw idx Hi) as [Ha Hb]. split; [done|]. intros x Hx. specialize (Hb x Hx).
  idx_case idx; exact Hb.
Qed.
