(* ===== verification/CronSyntax.v ===== *)
(** * CronSyntax

    The syntax of the parameters of a [CronTab] as an abstract syntax with its text
    and its meaning, and that [expandParameter] reads the text back to the meaning. *)
From stdpp Require Import base list numbers sorting strings sets.
From Stdlib Require Import ZArith Lia Ascii.
From S2P Require Import Prelude MyString JobAd CronDate CronTab.
Open Scope Z_scope.
Open Scope condor_scope.

(** ** Items *)

Inductive cron_base := Star | Single (n : Z) | Range (a b : Z).
Record cron_item := Item { item_base : cron_base; item_step : option Z }.

Definition base_text (b : cron_base) : cstr :=
  match b with
  | Star => CRONTAB_WILDCARD
  | Single n => decimal n
  | Range a b => decimal a ++ CRONTAB_RANGE ++ decimal b
  end.
Definition item_text (i : cron_item) : cstr :=
  base_text (item_base i) ++ match item_step i with Some s => CRONTAB_STEP ++ decimal s | None => [] end.
Definition cron_text (items : list cron_item) : cstr := Str.join "," (item_text <$> items).

Definition number (n : Z) : Prop := 0 ≤ n < 2 ^ 31.
Definition base_ok (b : cron_base) : Prop :=
  match b with Star => True | Single n => number n | Range a b => number a ∧ number b end.
Definition item_ok (i : cron_item) : Prop :=
  base_ok (item_base i) ∧ match item_step i with Some s => number s ∧ s ≠ 0 | None => True end.

(** The numbers of an item in a field with values from [min] to [max].  A number that is
    not one of them stands for all of them; the wildcard of the days of the week for
    none. *)
Definition base_selects (idx : nat) (min max : Z) (b : cron_base) (y : Z) : Prop :=
  match b with
  | Star => idx ≠ CRONTAB_DOW_IDX ∧ min ≤ y ≤ max
  | Single n => if decide (min ≤ n ≤ max) then y = n else min ≤ y ≤ max
  | Range a b => Z.max a min ≤ y ≤ Z.min b max
  end.
Definition item_selects (idx : nat) (min max : Z) (i : cron_item) (x : Z) : Prop :=
  ∃ y, base_selects idx min max (item_base i) y ∧ x = sunday idx y ∧ Z.rem x (default 1 (item_step i)) = 0.

(** ** Texts *)

Lemma decimal_digits n : number n → forallb is_digit (decimal n) = true ∧ decimal n ≠ [].
Proof.
  intros Hn. unfold number in Hn. destruct (decimal_loop_ok 20 n) as (_ & H1 & H2); [lia|]. split; [done|]. by apply H2.
Qed.

Lemma digits_no_char c s : is_digit c = false → forallb is_digit s = true → c ∉ s.
Proof. intros Hc Hs Hin. apply forallb_Forall in Hs. rewrite Forall_forall in Hs. specialize (Hs c Hin). simpl in Hs. congruence. Qed.

Lemma digits_no_space s : forallb is_digit s = true → forallb (fun c => negb (isspace c)) s = true.
Proof.
  rewrite !forallb_Forall. intros Hs. eapply Forall_impl; [exact Hs|]. intros c Hc. by destruct (is_digit_plain c Hc) as (-> & _).
Qed.

Lemma count_while_none f s : forallb (fun c => negb (f c)) s = true → Str.count_while f s = 0%nat.
Proof. destruct s as [|c s]; simpl; [done|]. intros H. split_bools. by rewrite H. Qed.
Lemma trim_none s : forallb (fun c => negb (isspace c)) s = true → Str.trim s = s.
Proof.
  intros Hs. unfold Str.trim. destruct (_ =? 0) eqn:E; [done|].
  rewrite (count_while_none _ s Hs), (count_while_none _ (reverse s)).
  - change (Z.of_nat 0) with 0. rewrite Z.sub_0_r, !Z.eqb_refl. done.
  - rewrite forallb_Forall in *. by apply Forall_reverse.
Qed.

Lemma atoi_decimal n : number n → atoi (decimal n) = n.
Proof.
  intros Hn. destruct (decimal_digits n Hn) as [Hd He]. unfold atoi, number in *.
  rewrite <- (app_nil_r (decimal n)). destruct (decimal n) as [|c s] eqn:E; [done|]. cbn [app].
  rewrite skip_while_head.
  - change (c :: s ++ []) with ((c :: s) ++ []). rewrite <- E, parse_int_decimal; [|lia|done].
    rewrite Z.min_l, Z.max_r by lia. apply int32_id. unfold in_int32. lia.
  - simpl in Hd. split_bools. by destruct (is_digit_plain c H) as (-> & _).
Qed.
Lemma atoi_trim n : number n → atoi (Str.trim (decimal n)) = n.
Proof. intros Hn. rewrite trim_none by (apply digits_no_space, (decimal_digits n Hn)). by apply atoi_decimal. Qed.

(** [find] of one character. *)
Lemma strstr_none c s : c ∉ s → Str.strstr s [c] = None.
Proof.
  induction s as [|d s IH]; simpl; intros Hc; [done|]. destruct (Ascii.eqb_spec c d); [set_solver|]. simpl. rewrite IH; set_solver.
Qed.
Lemma strstr_at c s t : c ∉ s → Str.strstr (s ++ c :: t) [c] = Some (length s).
Proof.
  induction s as [|d s IH]; simpl; intros Hc; [by rewrite Ascii.eqb_refl|].
  destruct (Ascii.eqb_spec c d); [set_solver|]. simpl. rewrite IH; set_solver.
Qed.
Lemma find_none c s : c ∉ s → Str.find s [c] 0 = -1.
Proof. intros Hc. unfold Str.find. destruct (_ || _); [done|]. simpl. by rewrite strstr_none. Qed.
Lemma find_at c s t : c ∉ s → Str.find (s ++ c :: t) [c] 0 = Z.of_nat (length s).
Proof.
  intros Hc. unfold Str.find. rewrite length_app. simpl length. destruct (_ || _) eqn:E.
  - apply orb_true_iff in E as [E|E]; [|done]. apply Z.geb_le in E. lia.
  - change (Z.to_nat 0) with 0%nat. rewrite drop_0, strstr_at by done. lia.
Qed.

(** The next token of a text. *)
Lemma next_token_end d s : d ∉ s → Str.next_token [d] s = (s, None).
Proof.
  induction s as [|c s IH]; simpl; intros Hd; [done|]. destruct (Ascii.eqb_spec d c); [set_solver|]. simpl. rewrite IH; set_solver.
Qed.
Lemma next_token_at d s t : d ∉ s → Str.next_token [d] (s ++ d :: t) = (s, Some t).
Proof.
  induction s as [|c s IH]; simpl; intros Hd; [by rewrite Ascii.eqb_refl|].
  destruct (Ascii.eqb_spec d c); [set_solver|]. simpl. rewrite IH; set_solver.
Qed.
Lemma GetNextToken_end d s : d ∉ s → s ≠ [] → Str.GetNextToken [d] true (Some s) = (Some s, None).
Proof. intros Hd Hs. unfold Str.GetNextToken. cbn [Str.GetNextToken_loop]. rewrite next_token_end by done. by destruct s. Qed.
Lemma GetNextToken_at d s t : d ∉ s → s ≠ [] → Str.GetNextToken [d] true (Some (s ++ d :: t)) = (Some s, Some t).
Proof. intros Hd Hs. unfold Str.GetNextToken. cbn [Str.GetNextToken_loop]. rewrite next_token_at by done. by destruct s. Qed.

Lemma all_tokens_none n d : Str.all_tokens n [d] true None = [].
Proof. by destruct n. Qed.
Lemma tokens_of_join d ts n : Forall (fun t => d ∉ t ∧ t ≠ []) ts → (length ts ≤ n)%nat →
  Str.all_tokens n [d] true (Str.Tokenize (Str.join d ts)) = ts.
Proof.
  revert n. induction ts as [|t ts IH]; intros n Hts Hn; [by destruct n|].
  apply Forall_cons in Hts as [[Hd Ht] Hts]. destruct n as [|n]; [simpl in Hn; lia|]. destruct ts as [|u ts].
  - simpl (Str.join _ _). replace (Str.Tokenize t) with (Some t) by (by destruct t). cbn [Str.all_tokens].
    by rewrite GetNextToken_end, all_tokens_none.
  - change (Str.join d (t :: u :: ts)) with (t ++ d :: Str.join d (u :: ts)).
    replace (Str.Tokenize (t ++ d :: Str.join d (u :: ts))) with (Some (t ++ d :: Str.join d (u :: ts))) by (by destruct t).
    cbn [Str.all_tokens]. rewrite GetNextToken_at by done. f_equal. rewrite <- (IH n Hts) at 2 by (simpl in *; lia). f_equal.
    apply Forall_cons in Hts as [[_ Hu] _]. by destruct u, ts.
Qed.

(** The spaces are removed. *)
Lemma replaceString_spaces s : snd (Str.replaceString s (L " ") [] 0) = filter (fun c => c ≠ SP) s.
Proof.
  rewrite replaceString_spec by done. simpl snd. induction s as [|c s IH]; [done|].
  cbn [length Str.replace_ref has_prefix]. rewrite andb_true_r. destruct (Ascii.eqb_spec SP c) as [<-|Hc].
  - rewrite filter_cons_False by (by intros []). done.
  - rewrite filter_cons_True by (intros E; by destruct Hc). by rewrite IH.
Qed.

(** ** Tokens of items *)

Lemma base_no_char c b : base_ok b → is_digit c = false → c ≠ "*"%char → c ≠ "-"%char → c ∉ base_text b.
Proof.
  intros Hb Hd Hs Hr. destruct b as [|n|x y]; simpl in *; [set_solver|by apply digits_no_char, decimal_digits|].
  destruct Hb as [Hx Hy]. pose proof (digits_no_char c _ Hd (proj1 (decimal_digits x Hx))).
  pose proof (digits_no_char c _ Hd (proj1 (decimal_digits y Hy))). set_solver.
Qed.
Lemma base_nonempty b : base_ok b → base_text b ≠ [].
Proof.
  destruct b as [|n|x y]; simpl; [done|intros H; by apply decimal_digits|]. intros [H _]. by destruct (decimal x) eqn:E.
Qed.

Lemma split_step_item i : item_ok i → split_step (item_text i) = (base_text (item_base i), default 1 (item_step i)).
Proof.
  intros [Hb Hs]. assert ("/"%char ∉ base_text (item_base i)) as Hc by (by apply base_no_char).
  pose proof (base_nonempty _ Hb) as Hne. unfold item_text, split_step. destruct (item_step i) as [s|].
  - change (base_text (item_base i) ++ CRONTAB_STEP ++ decimal s) with (base_text (item_base i) ++ "/"%char :: decimal s).
    change CRONTAB_STEP with ["/"%char]. rewrite find_at by done.
    destruct (Z.ltb_spec 0 (Z.of_nat (length (base_text (item_base i))))); [|destruct (base_text (item_base i)); [done|simpl in *; lia]].
    set (b := base_text (item_base i)) in *.
    replace (Str.Tokenize (b ++ "/"%char :: decimal s)) with (Some (b ++ "/"%char :: decimal s)) by (by destruct b).
    rewrite GetNextToken_at by done. destruct Hs as [Hs _]. destruct (decimal_digits s Hs) as [Hd Hn].
    rewrite GetNextToken_end by (done || by apply digits_no_char). by rewrite atoi_trim.
  - rewrite app_nil_r. change CRONTAB_STEP with ["/"%char]. by rewrite find_none.
Qed.

Lemma token_range_base idx min max b : base_ok b → min ≤ max →
  token_range idx min max (base_text b) =
  match b with
  | Star => if (idx =? CRONTAB_DOW_IDX)%nat then None else Some (min, max)
  | Single n => if decide (min ≤ n ≤ max) then Some (n, n) else Some (min, max)
  | Range x y => Some (Z.max x min, Z.min y max)
  end.
Proof.
  intros Hb Hm. unfold token_range. change CRONTAB_RANGE with ["-"%char]. change CRONTAB_WILDCARD with ["*"%char].
  destruct b as [|n|x y]; cbn [base_text base_ok] in *.
  - done.
  - destruct (decimal_digits n Hb) as [Hd Hn]. rewrite !find_none by (by apply digits_no_char). cbn [Z.ltb Z.leb Z.compare].
    rewrite atoi_decimal by done. destruct (Z.leb_spec min n), (Z.leb_spec n max); case_decide; try lia; done.
  - destruct Hb as [Hx Hy]. destruct (decimal_digits x Hx) as [Hdx Hnx]. destruct (decimal_digits y Hy) as [Hdy Hny].
    change (decimal x ++ CRONTAB_RANGE ++ decimal y) with (decimal x ++ "-"%char :: decimal y).
    rewrite find_at by (by apply digits_no_char).
    destruct (Z.ltb_spec 0 (Z.of_nat (length (decimal x)))); [|destruct (decimal x); [done|simpl in *; lia]].
    replace (Str.Tokenize (decimal x ++ "-"%char :: decimal y)) with (Some (decimal x ++ "-"%char :: decimal y)) by (by destruct (decimal x)).
    rewrite GetNextToken_at by (done || by apply digits_no_char). rewrite GetNextToken_end by (done || by apply digits_no_char).
    cbn [default from_option id].
    rewrite !atoi_trim by done. f_equal. f_equal; [destruct (Z.leb_spec min x)|destruct (Z.leb_spec y max)]; lia.
Qed.

Lemma token_range_selects idx min max b y : base_ok b → min ≤ max →
  (∃ lo hi, token_range idx min max (base_text b) = Some (lo, hi) ∧ lo ≤ y ≤ hi) ↔ base_selects idx min max b y.
Proof.
  intros Hb Hm. rewrite token_range_base by done.
  destruct b as [|n|lo hi]; simpl; [destruct (Nat.eqb_spec idx CRONTAB_DOW_IDX)|case_decide|]; split.
  all: try (by intros (? & ? & [= <- <-] & ?); (lia || split; [done|lia])).
  all: try (intros; eexists _, _; split; [reflexivity|lia]).
  all: naive_solver lia.
Qed.

Lemma token_selects_item idx min max i x : item_ok i → min ≤ max →
  token_selects idx min max (item_text i) x ↔ item_selects idx min max i x.
Proof.
  intros Hi Hm. unfold token_selects, item_selects. rewrite split_step_item by done.
  setoid_rewrite <- token_range_selects; [|apply Hi|done]. split.
  - intros (lo & hi & y & ? & ? & ? & ?). exists y. split_and!; [|done..]. by exists lo, hi.
  - intros (y & (lo & hi & ? & ?) & ? & ?). by exists lo, hi, y.
Qed.

(** No step is 0, so that no token stops the process. *)
Lemma expand_items idx min max items : Forall item_ok items → ∀ l, NoDup l →
  ∃ l', foldl (expand_token idx min max) (Some l) (item_text <$> items) = Some l'.
Proof.
  induction 1 as [|i items Hi _ IH]; intros l Hl; [by exists l|]. rewrite fmap_cons. cbn [foldl].
  assert (∃ l1, expand_token idx min max (Some l) (item_text i) = Some l1) as [l1 E].
  { unfold expand_token. rewrite split_step_item by done. destruct (token_range _ _ _ _) as [[a b]|]; [|by exists l].
    destruct (fill_spec idx (default 1 (item_step i)) (seqZ a (b - a + 1))) with (l := l) as (l1 & E & _); [|done|by exists l1].
    destruct Hi as [_ Hs]. destruct (item_step i); [apply Hs|done]. }
  rewrite E. apply IH. by apply (expand_token_spec _ _ _ _ _ _ Hl E).
Qed.

Lemma item_text_token i : item_ok i → ","%char ∉ item_text i ∧ item_text i ≠ [].
Proof.
  intros [Hb Hs]. unfold item_text. split.
  - apply not_elem_of_app. split; [by apply base_no_char|]. destruct (item_step i) as [s|]; [|set_solver].
    destruct Hs as [Hs _]. pose proof (digits_no_char ","%char _ eq_refl (proj1 (decimal_digits s Hs))). set_solver.
  - pose proof (base_nonempty _ Hb). by destruct (base_text _).
Qed.

Lemma items_le_length items : Forall item_ok items → (length items ≤ S (length (cron_text items)))%nat.
Proof.
  unfold cron_text. induction 1 as [|i items Hi Hs IH]; [simpl; lia|]. destruct items as [|j items]; [simpl; lia|].
  change (item_text <$> i :: j :: items) with (item_text i :: (item_text <$> j :: items)).
  change (Str.join "," (item_text i :: (item_text <$> j :: items))) with (item_text i ++ ","%char :: Str.join "," (item_text <$> j :: items)).
  rewrite length_app. cbn [length] in *. lia.
Qed.

(** The texts pass the regular expression. *)
Lemma initRegex_match {p : Pcre} `{!CronPcre p} regex s : initRegexObject None = Some regex → forallb allowed s = true → Regex_match regex s = false.
Proof.
  destruct pattern_compiles as (m & E & Hm). unfold initRegexObject. simpl. rewrite E. intros [= <-] Hs. simpl. rewrite Hm.
  clear -Hs. induction s as [|c s IH]; [done|]. simpl in *. split_bools. rewrite H. auto.
Qed.
Lemma decimal_allowed n : number n → forallb allowed (decimal n) = true.
Proof.
  intros Hn. destruct (decimal_digits n Hn) as [Hd _]. rewrite forallb_Forall in *. eapply Forall_impl; [exact Hd|].
  intros c Hc. unfold allowed. by rewrite Hc.
Qed.
Lemma item_allowed i : item_ok i → forallb allowed (item_text i) = true.
Proof.
  intros [Hb Hs]. unfold item_text. rewrite forallb_app, andb_true_iff. split.
  - destruct (item_base i) as [|n|a b]; simpl in *; [done|by apply decimal_allowed|]. destruct Hb.
    rewrite forallb_app. simpl. by rewrite !decimal_allowed.
  - destruct (item_step i) as [s|]; [|done]. destruct Hs. simpl. by rewrite decimal_allowed.
Qed.
Lemma join_allowed ts : Forall (fun t => forallb allowed t = true) ts → forallb allowed (Str.join "," ts) = true.
Proof.
  induction 1 as [|t ts Ht _ IH]; [done|]. destruct ts as [|u ts]; [done|].
  change (Str.join "," (t :: u :: ts)) with (t ++ ","%char :: Str.join "," (u :: ts)). rewrite forallb_app. cbn [forallb].
  by rewrite Ht, IH.
Qed.
Lemma spaced_allowed s : forallb allowed (filter (fun c => c ≠ SP) s) = true → forallb allowed s = true.
Proof.
  induction s as [|c s IH]; [done|]. destruct (decide (c = SP)) as [->|Hc].
  - rewrite filter_cons_False by (by intros []). simpl. auto.
  - rewrite filter_cons_True by done. simpl. intros H. split_bools. rewrite H. auto.
Qed.
Lemma text_match {p : Pcre} `{!CronPcre p} regex s items : initRegexObject None = Some regex → Forall item_ok items →
  filter (fun ch => ch ≠ SP) s = cron_text items → Regex_match regex s = false.
Proof.
  intros Hr Hok Ht. apply initRegex_match; [done|]. apply spaced_allowed. rewrite Ht. apply join_allowed.
  apply Forall_fmap. eapply Forall_impl; [done|]. apply item_allowed.
Qed.

(** C20. [expandParameter] reads the syntax of crontab files.  A parameter that is, up to
    spaces, a list of items separated by commas, each the wildcard, a number or a range,
    with a step that is not 0 or without one, all numbers below 2^31, is expanded to the
    numbers of its items, in ascending order and without repetitions; 7 as a day of the
    week is 0.  A number outside the field stands for all its values, although
    the comment of the class says that it is capped; a range is cut to the field; a step
    selects the multiples of the step; and the wildcard of the days of the week selects none.
    (A step of 0 stops the process: [step_zero_stops].) *)
Theorem expandParameter_text {p : Pcre} `{!CronPcre p} regex idx c items :
  initRegexObject None = Some regex →
  (idx < 5)%nat → length (ranges c) = 5%nat → nth idx (ranges c) [] = [] → Forall item_ok items →
  filter (fun ch => ch ≠ SP) (nth idx (parameters c) []) = cron_text items →
  ∃ c', expandParameter regex idx (nth idx mins 0) (nth idx maxs 0) c = Some (true, c') ∧ ascending (nth idx (ranges c') []) ∧
    ∀ x, x ∈ nth idx (ranges c') [] ↔ ∃ i, i ∈ items ∧ item_selects idx (nth idx mins 0) (nth idx maxs 0) i x.
Proof.
  intros Hre Hi Hlen Hr Hok Htext. apply (text_match regex (nth idx (parameters c) []) items) in Hre; [|done..].
  set (min := nth idx mins 0). set (max := nth idx maxs 0).
  assert (min ≤ max) as Hmm by (unfold min, max; idx_case idx; done).
  assert (Str.all_tokens (S (length (cron_text items))) CRONTAB_DELIMITER true (Str.Tokenize (cron_text items)) = item_text <$> items) as Htok.
  { apply (tokens_of_join ","). - apply Forall_fmap. eapply Forall_impl; [done|]. apply item_text_token.
    - rewrite length_fmap. by apply items_le_length. }
  destruct (expandParameter regex idx min max c) as [[ok c']|] eqn:E.
  - destruct (expandParameter_spec _ _ _ _ _ _ _ Hlen Hi Hr E) as (Hiff & _ & _ & Hx). destruct ok; [|naive_solver].
    exists c'. destruct Hx as (Ha & _ & Hx). split_and!; [done..|]. intros x. rewrite Hx, replaceString_spaces, Htext, Htok.
    rewrite Forall_forall in Hok. setoid_rewrite list_elem_of_fmap. split.
    + intros (t & (i & -> & Hin) & Ht). exists i. split; [done|]. apply token_selects_item; auto.
    + intros (i & Hin & Ht). exists (item_text i). split; [eauto|]. apply token_selects_item; auto.
  - exfalso. unfold expandParameter, validateParameter in E. rewrite Hre, Hr, replaceString_spaces, Htext, Htok in E.
    destruct (expand_items idx min max items Hok [] (NoDup_nil_2)) as [l' El]. rewrite El in E. done.
Qed.

(** A matcher of the pattern alone. *)
Definition class_pcre : Pcre := fun _ => Some (existsb (fun c => negb (allowed c))).
#[export] Instance class_pcre_ok : CronPcre class_pcre.
Proof. eexists. split; [reflexivity|]. done. Qed.

(** Monday to Friday and Sunday. *)
Definition ex_cron : CronTab := mkCronTab [] false CRONTAB_INVALID [[]; []; []; []; L "1 - 5, 7"] (replicate 5 []).
Lemma expandParameter_text_witness : ∃ c', expandParameter (pcre_compile (Pcre := class_pcre) []) 4 0 7 ex_cron = Some (true, c') ∧
  ascending (nth 4 (ranges c') []) ∧
  ∀ x, x ∈ nth 4 (ranges c') [] ↔ ∃ i, i ∈ [Item (Range 1 5) None; Item (Single 7) None] ∧ item_selects 4 0 7 i x.
Proof.
  apply (expandParameter_text (p := class_pcre) _ 4 ex_cron [Item (Range 1 5) None; Item (Single 7) None]); try reflexivity; [lia|].
  repeat constructor; simpl; lia.
Defined.
