(* ===== verification/CronRun.v ===== *)
(** * CronRun

    The search of [CronTab] for the next run time ([matchFields],
    [nextRunTime] of [condor_utils/condor_crontab.cpp]): it finds the first
    minute at which the schedule holds, and ends exactly when there is one. *)
From stdpp Require Import base list numbers sorting strings sets.
From Stdlib Require Import ZArith Lia Ascii.
From S2P Require Import Prelude MyString JobAd CronDate CronTab.
Open Scope Z_scope.
Open Scope condor_scope.

(** ** The days of a month *)

(** The rule of crontab files for the days: a restriction of the days of the month and
    one of the days of the week are alternatives; if only one of the two is there,
    it holds. *)
Definition cron_day (dom dow : list Z) (y m d : Z) : Prop :=
  if decide (length dom = 31%nat)
  then if decide (dow = [] ∨ length dow = 7%nat) then True else dayOfWeek m d y ∈ dow
  else d ∈ dom ∨ dayOfWeek m d y ∈ dow.

Lemma dow_loop_spec fuel : ∀ day l, 31 < day + 7 * Z.of_nat fuel → NoDup l →
  NoDup (dow_loop fuel day l) ∧ ∀ x, x ∈ dow_loop fuel day l ↔ x ∈ l ∨ (1 ≤ x ≤ 31 ∧ day ≤ x ∧ (x - day) mod 7 = 0).
Proof.
  induction fuel as [|fuel IH]; intros day l Hf Hl; cbn [dow_loop].
  { split; [done|]. intros x. split; [tauto|]. intros [?|?]; [done|lia]. }
  destruct (Z.leb_spec day 31) as [Hd|Hd].
  2: { split; [done|]. intros x. split; [tauto|]. intros [?|?]; [done|lia]. }
  assert (∀ x, (day ≤ x ∧ (x - day) mod 7 = 0) ↔ x = day ∨ (day + 7 ≤ x ∧ (x - (day + 7)) mod 7 = 0)) as Hstep by (intros x; dlia).
  destruct ((0 <? day) && negb (contains l day)) eqn:E.
  - split_bools. apply Z.ltb_lt in H. assert (day ∉ l) as Hn by (intros Hin%contains_spec; congruence).
    destruct (IH (day + 7) (l ++ [day])) as [H1 H2]; [lia| |].
    { apply NoDup_app. split_and!; [done| |apply NoDup_singleton]. by intros z Hz ->%list_elem_of_singleton. }
    split; [done|]. intros x. rewrite H2, Hstep, elem_of_app, list_elem_of_singleton.
    clear -Hd H. split; [intros [[?| ->]|(? & ? & ?)]|intros [?|(? & [->|?])]]; tauto || (right; split; [lia|tauto]).
  - destruct (IH (day + 7) l) as [H1 H2]; [lia|done|]. split; [done|]. intros x. rewrite H2, Hstep.
    apply andb_false_iff in E as [E%Z.ltb_ge|E%negb_false_iff]; [|apply contains_spec in E]; clear -E; (split; [intros [?|(? & ? & ?)]; tauto|intros [?|(? & [->|?])]; [tauto| |tauto]]); [lia|by left].
Qed.

Lemma dow_fold_spec fd dow : Forall (fun w => 0 ≤ w ≤ 6) dow → 0 ≤ fd ≤ 6 → ∀ l, NoDup l →
  let r := foldl (fun l w => dow_loop 6 (w - fd + 1) l) l dow in
  NoDup r ∧ ∀ x, x ∈ r ↔ x ∈ l ∨ (1 ≤ x ≤ 31 ∧ (fd + x - 1) mod 7 ∈ dow).
Proof.
  intros Hw Hfd. induction Hw as [|w dow Hw _ IH]; intros l Hl; cbn [foldl]; cbv zeta.
  { split; [done|]. set_solver. }
  destruct (dow_loop_spec 6 (w - fd + 1) l) as [H1 H2]; [lia|done|]. destruct (IH _ H1) as [H3 H4]. split; [done|].
  intros x. rewrite H4, H2, elem_of_cons.
  assert (1 ≤ x ≤ 31 → (w - fd + 1 ≤ x ∧ (x - (w - fd + 1)) mod 7 = 0 ↔ (fd + x - 1) mod 7 = w)) as He by (intros; dlia).
  clear -He. tauto.
Qed.

(** An ascending list of 31 days has all of them. *)
Lemma all_days l : ascending l → (∀ x, x ∈ l → 1 ≤ x ≤ 31) → length l = 31%nat → ∀ d, 1 ≤ d ≤ 31 → d ∈ l.
Proof.
  intros Ha Hb Hl d Hd. assert (NoDup l) as Hn.
  { clear -Ha. induction Ha as [|x l _ IH Hx]; constructor; [|done]. intros Hin. rewrite Forall_forall in Hx. specialize (Hx x Hin). lia. }
  assert (l ≡ₚ seqZ 1 31) as ->; [|apply elem_of_seqZ; lia]. apply submseteq_length_Permutation; [|rewrite length_seqZ; lia].
  apply NoDup_submseteq; [done|]. intros x Hx. apply elem_of_seqZ. specialize (Hb x Hx). lia.
Qed.

Lemma dayOfWeek_first y m d : valid_date y m d → dayOfWeek m d y = (dayOfWeek m 1 y + d - 1) mod 7 ∧ 0 ≤ dayOfWeek m 1 y ≤ 6.
Proof.
  intros Hv. assert (valid_date y m 1) as H1.
  { destruct Hv as (? & ? & ?). pose proof (daysInMonth_range m y). split; [done|]. lia. }
  rewrite (dayOfWeek_number y m d Hv), (dayOfWeek_number y m 1 H1). unfold day_number. dlia.
Qed.

(** The list that [matchFields] makes for a month has the days of the rule. *)
Lemma dom_range_spec dom dow y m : range_ok CRONTAB_DOM_IDX dom → range_ok CRONTAB_DOW_IDX dow → 1 ≤ y → 1 ≤ m ≤ 12 →
  ascending (dom_range dom dow m y) ∧
  (∀ d, d ∈ dom_range dom dow m y → 1 ≤ d ≤ 31) ∧
  ∀ d, 1 ≤ d ≤ daysInMonth m y → d ∈ dom_range dom dow m y ↔ cron_day dom dow y m d.
Proof.
  intros [Ha1 Hb1] [Ha2 Hb2] Hy Hm. unfold dom_range. simpl in Hb1, Hb2.
  assert (valid_date y m 1) as Hv1 by (pose proof (daysInMonth_range m y); split; [done|]; lia).
  destruct (dayOfWeek_first y m 1 Hv1) as [_ Hf]. set (fd := dayOfWeek m 1 y) in *.
  set (l0 := if _ =? 31 then _ else _). assert (NoDup l0 ∧ ∀ x, x ∈ l0 → x ∈ dom) as [Hn0 Hin0].
  { assert (NoDup dom) by (clear -Ha1; induction Ha1 as [|x l _ IH Hx]; constructor; [|done]; intros Hin;
      rewrite Forall_forall in Hx; specialize (Hx x Hin); lia).
    unfold l0. destruct (_ =? 31); [destruct (_ || _)|]; split; try done; [constructor|set_solver]. }
  assert (Forall (fun w => 0 ≤ w ≤ 6) dow) as Hdow by (by apply Forall_forall).
  destruct (dow_fold_spec fd dow Hdow Hf l0 Hn0) as [Hn Hx]. destruct (sort_spec _ Hn) as [Hs Hp]. split_and!; [done| |].
  - intros d. rewrite Hp, Hx. intros [?%Hin0%Hb1|?]; lia.
  - intros d Hd. rewrite Hp, Hx. assert (valid_date y m d) as Hv by (by split).
    destruct (dayOfWeek_first y m d Hv) as [E _]. fold fd in E. rewrite <- E. pose proof (daysInMonth_range m y Hm). unfold cron_day, l0.
    assert (length dom = 31%nat → d ∈ dom) as Hall by (intros; apply (all_days dom); [done..|lia]).
    assert (1 ≤ d ≤ 31) as Hd31 by lia. case_decide as E31.
    + rewrite E31. simpl (_ =? 31). specialize (Hall E31). case_decide as Hw.
      * replace ((Z.of_nat (length dow) =? 7) || (length dow =? 0)%nat) with true; [clear -Hall; tauto|]. symmetry.
        destruct Hw as [->| ->]; done.
      * replace ((Z.of_nat (length dow) =? 7) || (length dow =? 0)%nat) with false; [rewrite elem_of_nil; clear -Hd31; tauto|]. symmetry.
        apply orb_false_iff. split; [apply Z.eqb_neq|apply Nat.eqb_neq]; intros Hc; apply Hw; [right; lia|left; by apply nil_length_inv].
    + rewrite (proj2 (Z.eqb_neq _ _)) by lia. clear -Hd31. tauto.
Qed.

(** ** The search in one year

    [m] is the array [match], [k] the index of a field.  Two arrays agree above
    [k] when the fields above it are the same. *)
Definition at_ (m : list Z) (i : nat) : Z := nth i m 0.
Definition agree (k : nat) (m m' : list Z) : Prop := ∀ i, (k < i)%nat → at_ m i = at_ m' i.
(** The fields up to [k] of [a] are not after those of [b]. *)
Fixpoint lex_le (k : nat) (a b : list Z) : Prop :=
  match k with
  | O => at_ a 0 ≤ at_ b 0
  | S k' => at_ a k < at_ b k ∨ (at_ a k = at_ b k ∧ lex_le k' a b)
  end.

Lemma agree_refl k m : agree k m m.
Proof. done. Qed.
Lemma agree_trans k a b c : agree k a b → agree k b c → agree k a c.
Proof. intros H1 H2 i Hi. by rewrite H1, H2. Qed.
Lemma agree_le j k a b : (j ≤ k)%nat → agree j a b → agree k a b.
Proof. intros Hj H i Hi. apply H. lia. Qed.
Lemma agree_step k a b : agree (S k) a b → at_ a (S k) = at_ b (S k) → agree k a b.
Proof. intros H E i Hi. destruct (decide (i = S k)) as [->|]; [done|]. apply H. lia. Qed.
Lemma at_insert m i j x : (i < length m)%nat → at_ (<[i := x]> m) j = if decide (i = j) then x else at_ m j.
Proof. apply nth_insert. Qed.
Lemma agree_insert m k x : (k < length m)%nat → agree k m (<[k := x]> m).
Proof. intros Hk i Hi. rewrite at_insert by done. case_decide; [lia|done]. Qed.

Section Year.
Context (c : CronTab) (cur : list Z).

(** The range of a field in the month and year of [m]. *)
Definition cur_range (i : nat) (m : list Z) : list Z :=
  if (i =? CRONTAB_DOM_IDX)%nat
  then dom_range (nth i (ranges c) []) (nth CRONTAB_DOW_IDX (ranges c) []) (at_ m CRONTAB_MONTHS_IDX) (at_ m CRONTAB_YEARS_IDX)
  else nth i (ranges c) [].
Definition in_month (i : nat) (m : list Z) : Prop :=
  i = CRONTAB_DOM_IDX → at_ m i ≤ daysInMonth (at_ m CRONTAB_MONTHS_IDX) (at_ m CRONTAB_YEARS_IDX).
Definition field_ok (i : nat) (m : list Z) : Prop := at_ m i ∈ cur_range i m ∧ in_month i m.
Definition fits (k : nat) (m : list Z) : Prop := ∀ i, (i ≤ k)%nat → field_ok i m.
(** [m] is a candidate for the fields up to [k]. *)
Definition good (u : bool) (k : nat) (m : list Z) : Prop := fits k m ∧ (u = true ∨ lex_le k cur m).

(** What the search promises for the fields up to [k]: the first candidate, if any. *)
Definition finds (k : nat) (cand : list Z → Prop) (m : list Z) (r : option (bool * list Z)) : Prop :=
  ∃ ret m', r = Some (ret, m') ∧ length m' = 6%nat ∧ agree k m m' ∧
    if ret : bool then cand m' ∧ ∀ m2, agree k m m2 → cand m2 → lex_le k m' m2
    else ∀ m2, agree k m m2 → ¬ cand m2.
Definition searches (k : nat) (f : list Z → bool → option (bool * list Z)) : Prop :=
  ∀ m u, length m = 6%nat → finds k (good u k) m (f m u).

Lemma fits_S k m : fits (S k) m ↔ field_ok (S k) m ∧ fits k m.
Proof.
  split.
  - intros H. split; [apply H; lia|]. intros i Hi. apply H. lia.
  - intros [H1 H2] i Hi. destruct (decide (i = S k)) as [->|]; [done|]. apply H2. lia.
Qed.

(** The candidates whose field [k] is in [l]. *)
Definition cand (u : bool) (k : nat) (l : list Z) (m : list Z) : Prop :=
  at_ m k ∈ l ∧ in_month k m ∧ (∀ i, (i < k)%nat → field_ok i m) ∧ (u = true ∨ lex_le k cur m).

Lemma in_month_agree k m m2 v : (k < 3)%nat → agree k m m2 → at_ m2 k = v →
  (k = CRONTAB_DOM_IDX → v ≤ daysInMonth (at_ m CRONTAB_MONTHS_IDX) (at_ m CRONTAB_YEARS_IDX)) ↔ in_month k m2.
Proof. intros Hk Ha <-. unfold in_month. rewrite (Ha CRONTAB_MONTHS_IDX), (Ha CRONTAB_YEARS_IDX) by lia. done. Qed.

(** Moving on in the list: the first value is no candidate. *)
Lemma finds_skip k u v l m m1 r : agree k m m1 → (∀ m2, agree k m m2 → at_ m2 k = v → ¬ cand u k (v :: l) m2) →
  finds k (cand u k l) m1 r → finds k (cand u k (v :: l)) m r.
Proof.
  intros Ha Hno (ret & m' & -> & Hlen & Hag & H). exists ret, m'. split_and!; [done|done|by eapply agree_trans|].
  assert (∀ m2, agree k m m2 → cand u k (v :: l) m2 → cand u k l m2) as Hmove.
  { intros m2 Hm2 Hc. pose proof Hc as ([Hv|Hv]%elem_of_cons & ? & ? & ?); [by destruct (Hno m2 Hm2 Hv)|by split_and!]. }
  assert (∀ m2, agree k m m2 → agree k m1 m2) as Hag' by (intros m2 Hm2 i Hi; by rewrite <- Ha, Hm2).
  destruct ret.
  - destruct H as [(? & ? & ? & ?) Hmin]. split; [split_and!; [by right|done..]|]. intros m2 Hm2 Hc. apply Hmin; auto.
  - intros m2 Hm2 Hc. apply (H m2); auto.
Qed.

Lemma lex_le_first k a b : at_ a k < at_ b k → lex_le k a b.
Proof. destruct k; simpl; [lia|auto]. Qed.

(** The last field: the first value that is not before the current one. *)
Lemma minutes_loop below u n : ∀ l m, length m = 6%nat → ascending l →
  finds 0 (cand u 0 l) m (match_loop below 0 cur u n l m).
Proof.
  intros l. revert n. induction l as [|v l IH]; intros n m Hlen Hs; cbn [match_loop].
  { exists false, m. split_and!; [done..|]. intros m2 _ ([]%not_elem_of_nil & _). }
  apply StronglySorted_inv in Hs as [Hs Hv]. rewrite Forall_forall in Hv.
  destruct (u || (nth 0 cur 0 <=? v)) eqn:E.
  - simpl. exists true, (<[0%nat := v]> m). split; [done|]. split; [by rewrite length_insert|]. split; [apply agree_insert; lia|].
    assert (at_ (<[0%nat := v]> m) 0 = v) as Ev by (rewrite at_insert by lia; done). split.
    + split_and!; [rewrite Ev; by left|done|lia|]. apply orb_true_iff in E as [->|E%Z.leb_le]; [by left|right]. simpl. by rewrite Ev.
    + intros m2 _ ([Hm|Hm]%elem_of_cons & _); simpl; rewrite Ev; [lia|]. specialize (Hv _ Hm). lia.
  - apply orb_false_iff in E as [-> E%Z.leb_gt]. apply (finds_skip 0 false v l m m); [done| |by apply IH].
    intros m2 _ Hm2 (_ & _ & _ & [?|Hle]); [done|]. simpl in Hle. rewrite Hm2 in Hle. unfold at_ in Hle. lia.
Qed.

(** A call for the fields below, with the value [v] for field [S k]. *)
Lemma below_candidate k u n v l m m1 : (S k ≤ 3)%nat → length m = 6%nat → m1 = <[S k := v]> m → (u = true ∨ at_ cur (S k) ≤ v) →
  (n = true ↔ u = true ∨ at_ cur (S k) < v) →
  (S k = CRONTAB_DOM_IDX → v ≤ daysInMonth (at_ m CRONTAB_MONTHS_IDX) (at_ m CRONTAB_YEARS_IDX)) →
  ∀ m2, agree (S k) m m2 → at_ m2 (S k) = v → agree k m1 m2 ∧ (good n k m2 ↔ cand u (S k) (v :: l) m2).
Proof.
  intros Hk Hlen -> Hge Hn Hdom m2 Ha Hv.
  assert (at_ (<[S k := v]> m) (S k) = v) as E by (rewrite at_insert by lia; by case_decide). split.
  { apply agree_step; [|by rewrite E, Hv]. intros i Hi. rewrite at_insert by lia. case_decide; [lia|by apply Ha]. }
  assert (in_month (S k) m2) as Him.
  { unfold in_month. rewrite Hv. intros Hd. rewrite <- !Ha by lia. auto. }
  assert (fits k m2 ↔ ∀ i, (i < S k)%nat → field_ok i m2) as Hfit by (unfold fits; split; intros H i Hi; apply H; lia).
  unfold good, cand. rewrite Hfit, Hn. cbn [lex_le]. rewrite Hv. split.
  - intros [Hf Ho]. split_and!; [by left|done|done|]. destruct Ho as [[?|?]|?]; [by left|by right; left|].
    destruct Hge as [?|Hge]; [by left|]. right. destruct (decide (at_ cur (S k) = v)); [right; done|left; lia].
  - intros (_ & _ & Hf & Ho). split; [done|]. destruct Ho as [?|[?|[? ?]]]; auto.
Qed.

Lemma fields_loop below k u : (S k ≤ 3)%nat → searches k below → ∀ l n m, length m = 6%nat → ascending l →
  (n = true → u = true ∨ ∀ v, v ∈ l → at_ cur (S k) < v) → (u = true → n = true) →
  finds (S k) (cand u (S k) l) m (match_loop below (S k) cur u n l m).
Proof.
  intros Hk Hbelow. induction l as [|v l IH]; intros n m Hlen Hs Hn1 Hn2; cbn [match_loop].
  { exists false, m. split_and!; [done..|]. intros m2 _ ([]%not_elem_of_nil & _). }
  apply StronglySorted_inv in Hs as [Hs Hv]. rewrite Forall_forall in Hv. fold (at_ cur (S k)).
  fold (at_ m CRONTAB_MONTHS_IDX) (at_ m CRONTAB_YEARS_IDX).
  destruct (u || (at_ cur (S k) <=? v)) eqn:Eg.
  2: { apply orb_false_iff in Eg as [-> Eg%Z.leb_gt]. apply (finds_skip (S k) false v l m m); [done| |apply IH; try done].
    - intros m2 _ Hm2 (_ & _ & _ & [?|Hle]); [done|]. cbn [lex_le] in Hle. rewrite Hm2 in Hle. lia.
    - intros ->. destruct (Hn1 eq_refl) as [?|H]; [done|]. specialize (H v (list_elem_of_here v l)). lia. }
  set (n' := n || (at_ cur (S k) <? v)).
  assert (u = true ∨ at_ cur (S k) ≤ v) as Hge by (apply orb_true_iff in Eg as [?|?%Z.leb_le]; auto).
  assert (n' = true ↔ u = true ∨ at_ cur (S k) < v) as Hn'.
  { unfold n'. rewrite orb_true_iff, Z.ltb_lt. split; [|naive_solver]. intros [H|?]; [|auto]. destruct (Hn1 H) as [?|Hl]; [auto|].
    right. apply Hl. left. }
  assert (∀ w, w ∈ l → u = true ∨ at_ cur (S k) < w) as Hrest.
  { intros w Hw. specialize (Hv w Hw). destruct Hge; [by left|right; lia]. }
  assert (u = true ∨ ∀ w, w ∈ l → at_ cur (S k) < w) as Hrest'.
  { destruct u; [by left|right]. intros w Hw. by destruct (Hrest w Hw). }
  destruct ((S k =? CRONTAB_DOM_IDX)%nat && _) eqn:Ed.
  { apply andb_true_iff in Ed as [Ed%Nat.eqb_eq Em%Z.ltb_lt]. apply (finds_skip (S k) u v l m m); [done| |apply IH; try done].
    - intros m2 Ha Hm2 (_ & Him & _). specialize (Him Ed). rewrite Hm2, <- !Ha in Him by lia. lia.
    - intros ->. tauto. }
  assert (S k = CRONTAB_DOM_IDX → v ≤ daysInMonth (at_ m CRONTAB_MONTHS_IDX) (at_ m CRONTAB_YEARS_IDX)) as Hdom.
  { intros E. rewrite E in Ed. simpl in Ed. by apply Z.ltb_ge in Ed. }
  simpl (S k =? CRONTAB_MINUTES_IDX)%nat. cbn iota.
  pose proof (below_candidate k u n' v l m _ Hk Hlen eq_refl Hge Hn' Hdom) as Hc. set (m1 := <[S k := v]> m) in *.
  assert (agree (S k) m m1 ∧ at_ m1 (S k) = v ∧ length m1 = 6%nat) as (Ham1 & Em1 & Hlen1).
  { unfold m1. split_and!; [apply agree_insert; lia|rewrite at_insert by lia; by case_decide|by rewrite length_insert]. }
  destruct (Hbelow m1 n' Hlen1) as (ret & m' & -> & Hlen' & Ha' & H). cbn [mbind option_bind].
  assert (agree (S k) m m' ∧ at_ m' (S k) = v) as [Ham' Em'].
  { split; [eapply agree_trans; [done|]; eapply agree_le; [|done]; lia|]. by rewrite <- Ha' by lia. }
  destruct ret.
  - destruct H as [Hg Hmin]. exists true, m'. split; [done|]. split; [done|]. split; [done|].
    split; [by apply Hc|]. intros m2 Ha2 Hc2. pose proof Hc2 as ([Hm2|Hm2]%elem_of_cons & _).
    + cbn [lex_le]. right. split; [congruence|]. destruct (Hc m2 Ha2 Hm2) as [? Hiff]. apply Hmin; [done|]. by apply Hiff.
    + apply lex_le_first. rewrite Em'. auto.
  - apply (finds_skip (S k) u v l m m'); [done| |].
    + intros m2 Ha2 Hm2 Hc2. destruct (Hc m2 Ha2 Hm2) as [? Hiff]. apply (H m2); [done|]. by apply Hiff.
    + by apply IH.
Qed.
End Year.

Lemma dow_loop_nodup fuel : ∀ day l, NoDup l → NoDup (dow_loop fuel day l).
Proof.
  induction fuel as [|fuel IH]; intros day l Hl; cbn [dow_loop]; [done|]. destruct (_ <=? _); [|done]. apply IH.
  destruct (_ && _) eqn:E; [|done]. split_bools. apply NoDup_app. split_and!; [done| |apply NoDup_singleton].
  intros z Hz ->%list_elem_of_singleton. apply contains_spec in Hz. congruence.
Qed.
Lemma ascending_nodup l : ascending l → NoDup l.
Proof. induction 1 as [|x l _ IH Hx]; constructor; [|done]. intros Hin. rewrite Forall_forall in Hx. specialize (Hx x Hin). lia. Qed.
Lemma dom_range_ascending dom dow m y : ascending dom → ascending (dom_range dom dow m y).
Proof.
  intros Hd%ascending_nodup. unfold dom_range. apply sort_spec. set (l0 := if _ =? _ then _ else _).
  assert (NoDup l0) as Hl by (unfold l0; destruct (_ =? _); [destruct (_ || _)|]; done || constructor). clearbody l0. revert l0 Hl.
  induction dow as [|w dow IH]; intros l0 Hl; cbn [foldl]; [done|]. by apply IH, dow_loop_nodup.
Qed.

Section Search.
Context (c : CronTab) (cur : list Z) (Hwf : cron_wf c).

Lemma cur_range_ascending k m : (k ≤ 3)%nat → ascending (cur_range c k m).
Proof.
  intros Hk. destruct Hwf as [_ Hw]. unfold cur_range. destruct (_ =? _)%nat; [|apply Hw; lia]. apply dom_range_ascending, Hw. lia.
Qed.
Lemma cur_range_agree k m m2 : (k ≤ 3)%nat → agree k m m2 → cur_range c k m = cur_range c k m2.
Proof.
  intros Hk Ha. unfold cur_range. destruct (Nat.eqb_spec k CRONTAB_DOM_IDX) as [->|]; [|done]. by rewrite !Ha by lia.
Qed.

Lemma cand_good u k m m2 : (k ≤ 3)%nat → agree k m m2 → cand c cur u k (cur_range c k m) m2 ↔ good c cur u k m2.
Proof.
  intros Hk Ha. unfold cand, good, fits. rewrite (cur_range_agree k m m2 Hk Ha). split.
  - intros (Hin & Him & Hf & Ho). split; [|done]. intros i Hi. destruct (decide (i = k)) as [->|]; [by split|apply Hf; lia].
  - intros [Hf Ho]. destruct (Hf k ltac:(lia)). split_and!; [done|done| |done]. intros i Hi. apply Hf. lia.
Qed.

(** The loop over the range of a field, as [matchFields] starts it. *)
Definition field_search (below : list Z → bool → option (bool * list Z)) (k : nat) (m : list Z) (u : bool) : option (bool * list Z) :=
  match_loop below k cur u u (cur_range c k (<[k := -1]> m)) (<[k := -1]> m).

Lemma finds_good k u m r : (k ≤ 3)%nat → length m = 6%nat →
  finds k (cand c cur u k (cur_range c k (<[k := -1]> m))) (<[k := -1]> m) r → finds k (good c cur u k) m r.
Proof.
  intros Hk Hlen (ret & m' & -> & Hlen' & Ha & H). assert (agree k m (<[k := -1]> m)) as Ham by (apply agree_insert; lia).
  exists ret, m'. split; [done|]. split; [done|]. split; [by eapply agree_trans|].
  assert (∀ m2, agree k m m2 → agree k (<[k := -1]> m) m2) as Hag by (intros m2 Hm2 i Hi; by rewrite <- Ham, Hm2).
  destruct ret.
  - destruct H as [Hc Hmin]. split; [by apply (cand_good u k (<[k := -1]> m))|]. intros m2 Hm2 Hg. apply Hmin; [by apply Hag|].
    apply cand_good; auto.
  - intros m2 Hm2 Hg. apply (H m2); [by apply Hag|]. apply cand_good; auto.
Qed.

Lemma field_search_O below : searches c cur 0 (field_search below 0).
Proof.
  intros m u Hlen. apply finds_good; [lia|done|]. apply minutes_loop; [by rewrite length_insert|]. apply cur_range_ascending. lia.
Qed.
Lemma field_search_S below k : (S k ≤ 3)%nat → searches c cur k below → searches c cur (S k) (field_search below (S k)).
Proof.
  intros Hk Hb m u Hlen. apply finds_good; [lia|done|]. apply fields_loop; [done|done|by rewrite length_insert|by apply cur_range_ascending|auto|done].
Qed.

Lemma matchFields_S fuel m k u : matchFields (S fuel) c cur m k u =
  ('(ret, m') ← field_search (fun m u => matchFields fuel c cur m (k - 1) u) k m u;
   if negb ret && (k =? CRONTAB_MONTHS_IDX)%nat
   then matchFields fuel c cur (<[CRONTAB_YEARS_IDX := at_ m' CRONTAB_YEARS_IDX + 1]> m') k true
   else Some (ret, m')).
Proof. done. Qed.

(** Days, hours and minutes. *)
Lemma matchFields_searches k : (k ≤ 2)%nat → ∀ fuel, (k < fuel)%nat → searches c cur k (fun m u => matchFields fuel c cur m k u).
Proof.
  induction k as [|k IH]; intros Hk fuel Hf m u Hlen; (destruct fuel as [|fuel]; [lia|]); rewrite matchFields_S.
  - destruct (field_search_O (fun m u => matchFields fuel c cur m (0 - 1) u) m u Hlen) as (ret & m' & -> & H). cbn [mbind option_bind].
    rewrite andb_false_r. by exists ret, m'.
  - assert (searches c cur k (fun m u => matchFields fuel c cur m (S k - 1) u)) as Hb.
    { rewrite Nat.sub_1_r. simpl pred. apply IH; lia. }
    destruct (field_search_S _ k ltac:(lia) Hb m u Hlen) as (ret & m' & -> & H). cbn [mbind option_bind].
    destruct (Nat.eqb_spec (S k) CRONTAB_MONTHS_IDX); [lia|]. rewrite andb_false_r. by exists ret, m'.
Qed.

(** ** The search over the years *)

(** [m2] is a time at which the schedule holds, not before the current one if its year
    is that of [m] and [u] is not set. *)
Definition later (u : bool) (m m2 : list Z) : Prop :=
  length m2 = 6%nat ∧ at_ m2 CRONTAB_DOW_IDX = at_ m CRONTAB_DOW_IDX ∧ at_ m CRONTAB_YEARS_IDX ≤ at_ m2 CRONTAB_YEARS_IDX ∧
  fits c CRONTAB_MONTHS_IDX m2 ∧
  (at_ m2 CRONTAB_YEARS_IDX = at_ m CRONTAB_YEARS_IDX → u = true ∨ lex_le CRONTAB_MONTHS_IDX cur m2).
Definition year_le (a b : list Z) : Prop :=
  at_ a CRONTAB_YEARS_IDX < at_ b CRONTAB_YEARS_IDX ∨
  (at_ a CRONTAB_YEARS_IDX = at_ b CRONTAB_YEARS_IDX ∧ lex_le CRONTAB_MONTHS_IDX a b).

Lemma agree_months m m2 : length m = 6%nat → length m2 = 6%nat → at_ m2 CRONTAB_DOW_IDX = at_ m CRONTAB_DOW_IDX →
  at_ m2 CRONTAB_YEARS_IDX = at_ m CRONTAB_YEARS_IDX → agree CRONTAB_MONTHS_IDX m m2.
Proof.
  intros Hl Hl2 E4 E5 i Hi. destruct (decide (i = 4%nat)) as [->|]; [done|]. destruct (decide (i = 5%nat)) as [->|]; [done|].
  unfold at_. rewrite !nth_overflow by lia. done.
Qed.
Lemma later_good u m m2 : length m = 6%nat → later u m m2 → at_ m2 CRONTAB_YEARS_IDX = at_ m CRONTAB_YEARS_IDX →
  agree CRONTAB_MONTHS_IDX m m2 ∧ good c cur u CRONTAB_MONTHS_IDX m2.
Proof. intros Hl (Hl2 & E4 & _ & Hf & Ho) E5. split; [by apply agree_months|]. split; auto. Qed.

Lemma match_loop_never below k u : k ≠ 0%nat → (∀ m u m', below m u ≠ Some (true, m')) → ∀ l n m m', match_loop below k cur u n l m ≠ Some (true, m').
Proof.
  intros Hk Hb. induction l as [|v l IH]; intros n m m'; cbn [match_loop]; [done|].
  destruct (_ || (_ <=? v)); [|apply IH]. destruct ((k =? 2)%nat && _); [apply IH|].
  rewrite (proj2 (Nat.eqb_neq k 0) Hk). destruct (below _ _) as [[[] m1]|] eqn:E; cbn [mbind option_bind]; [by destruct (Hb _ _ _ E)|apply IH|done].
Qed.
Lemma low_fuel fuel : ∀ k m u m', (fuel ≤ k)%nat → matchFields fuel c cur m k u ≠ Some (true, m').
Proof.
  induction fuel as [|fuel IH]; intros k m u m' Hk; [done|]. rewrite matchFields_S.
  destruct (field_search _ _ _ _) as [[ret m1]|] eqn:E; cbn [mbind option_bind]; [|done]. destruct ret.
  { exfalso. revert E. apply match_loop_never; [lia|]. intros. apply IH. lia. }
  simpl. destruct (k =? 3)%nat; [|done]. apply IH. lia.
Qed.
Lemma months_not_false fuel : ∀ m u m', matchFields fuel c cur m CRONTAB_MONTHS_IDX u ≠ Some (false, m').
Proof.
  induction fuel as [|fuel IH]; intros m u m'; [done|]. rewrite matchFields_S.
  destruct (field_search _ _ _ _) as [[[] m1]|]; cbn [mbind option_bind]; [done|apply IH|done].
Qed.

(** With [fuel] the search gives the first time, or there is none in the years that the
    fuel allows for. *)
Lemma matchFields_years fuel : ∀ m u, length m = 6%nat →
  match matchFields fuel c cur m CRONTAB_MONTHS_IDX u with
  | Some (ret, m') => ret = true ∧ later u m m' ∧ ∀ m2, later u m m2 → year_le m' m2
  | None => ∀ m2, later u m m2 → Z.of_nat fuel < at_ m2 CRONTAB_YEARS_IDX - at_ m CRONTAB_YEARS_IDX + 4
  end.
Proof.
  induction fuel as [|fuel IH]; intros m u Hlen; [intros m2 (_ & _ & ? & _); lia|].
  destruct (decide (S fuel ≤ 3)%nat) as [Hlow|Hf].
  { destruct (matchFields (S fuel) c cur m 3 u) as [[[] m']|] eqn:E; [by destruct (low_fuel _ _ _ _ _ Hlow E)|by destruct (months_not_false _ _ _ _ E)|].
    intros m2 (_ & _ & ? & _). lia. }
  rewrite matchFields_S. assert (searches c cur 2 (fun m u => matchFields fuel c cur m (3 - 1) u)) as Hb by (apply matchFields_searches; lia).
  destruct (field_search_S _ 2 ltac:(lia) Hb m u Hlen) as (ret & m' & -> & Hlen' & Ha & H). cbn [mbind option_bind].
  assert (at_ m' 4 = at_ m 4 ∧ at_ m' 5 = at_ m 5) as [E4 E5] by (by rewrite !(Ha _) by lia). destruct ret; simpl.
  - destruct H as [[Hfit Ho] Hmin]. split; [done|]. split.
    + split_and!; [done|done|by rewrite E5|done|by intros _].
    + intros m2 Hm2. unfold year_le. destruct (decide (at_ m2 5 = at_ m 5)) as [E|E].
      * right. split; [congruence|]. destruct (later_good u m m2 Hlen Hm2 E). by apply Hmin.
      * left. destruct Hm2 as (_ & _ & ? & _). lia.
  - set (m3 := <[5%nat := at_ m' 5 + 1]> m'). assert (at_ m3 4 = at_ m 4 ∧ at_ m3 5 = at_ m 5 + 1 ∧ length m3 = 6%nat) as (F4 & F5 & Hl3).
    { unfold m3. rewrite !at_insert by lia. rewrite length_insert. split_and!; simpl; [done|lia|done]. }
    assert (∀ m2, later u m m2 ↔ later true m3 m2) as Hiff.
    { intros m2. split.
      - intros Hm2. destruct (decide (at_ m2 5 = at_ m 5)) as [E|E]; [destruct (later_good u m m2 Hlen Hm2 E) as [? ?]; by destruct (H m2)|].
        destruct Hm2 as (? & ? & ? & ? & _). split_and!; [done|congruence|lia|done|by left].
      - intros (? & ? & ? & ? & _). split_and!; [done|congruence|lia|done|lia]. }
    specialize (IH m3 true Hl3). destruct (matchFields fuel c cur m3 3 true) as [[ret m4]|].
    + destruct IH as (-> & Hl & Hmin). split; [done|]. split; [by apply Hiff|]. intros m2 Hm2. apply Hmin. by apply Hiff.
    + intros m2 Hm2%Hiff. specialize (IH m2 Hm2). lia.
Qed.
End Search.

(** ** The schedule *)

Definition holds_at (c : CronTab) (y mo d h mi : Z) : Prop :=
  valid_minute y mo d h mi ∧ mo ∈ nth CRONTAB_MONTHS_IDX (ranges c) [] ∧
  cron_day (nth CRONTAB_DOM_IDX (ranges c) []) (nth CRONTAB_DOW_IDX (ranges c) []) y mo d ∧
  h ∈ nth CRONTAB_HOURS_IDX (ranges c) [] ∧ mi ∈ nth CRONTAB_MINUTES_IDX (ranges c) [].

Lemma fits_holds c m : cron_wf c → 1 ≤ at_ m CRONTAB_YEARS_IDX →
  fits c CRONTAB_MONTHS_IDX m ↔ holds_at c (at_ m 5) (at_ m 3) (at_ m 2) (at_ m 1) (at_ m 0).
Proof.
  intros [_ Hw] Hy. pose proof (Hw 0%nat ltac:(lia)) as [_ H0]. pose proof (Hw 1%nat ltac:(lia)) as [_ H1].
  pose proof (Hw 3%nat ltac:(lia)) as [_ H3]. simpl in H0, H1, H3. split.
  - intros Hf. destruct (Hf 0%nat ltac:(lia)) as [F0 _]. destruct (Hf 1%nat ltac:(lia)) as [F1 _].
    destruct (Hf 2%nat ltac:(lia)) as [F2 G2]. destruct (Hf 3%nat ltac:(lia)) as [F3 _].
    unfold cur_range in F0, F1, F2, F3. simpl in F0, F1, F2, F3. specialize (G2 eq_refl). simpl in G2.
    specialize (H0 _ F0). specialize (H1 _ F1). specialize (H3 _ F3).
    destruct (dom_range_spec _ _ _ _ (Hw 2%nat ltac:(lia)) (Hw 4%nat ltac:(lia)) Hy H3) as (_ & Hb & Hd). pose proof (Hb _ F2).
    split_and!; [split; [split|]; lia|done| |done|done]. apply Hd; [lia|done].
  - intros (((_ & Hm & Hd) & _ & _) & F3 & F2 & F1 & F0) i Hi.
    destruct (dom_range_spec _ _ _ _ (Hw 2%nat ltac:(lia)) (Hw 4%nat ltac:(lia)) Hy Hm) as (_ & _ & Hday).
    assert (i = 0 ∨ i = 1 ∨ i = 2 ∨ i = 3)%nat as [->|[->|[->| ->]]] by lia; (split; [|intros [=]]); try done; [by apply Hday|apply Hd].
Qed.

(** A minute of some year at which the schedule holds: there are minutes, hours and a
    month, and a day that the month has in leap years. *)
Definition possible (c : CronTab) : Prop :=
  nth CRONTAB_MINUTES_IDX (ranges c) [] ≠ [] ∧ nth CRONTAB_HOURS_IDX (ranges c) [] ≠ [] ∧
  ∃ mo, mo ∈ nth CRONTAB_MONTHS_IDX (ranges c) [] ∧
    (nth CRONTAB_DOW_IDX (ranges c) [] ≠ [] ∨ ∃ d, d ∈ nth CRONTAB_DOM_IDX (ranges c) [] ∧ d ≤ daysInMonth mo 2000).

Lemma leap_after y : 1 ≤ y → ∃ Y, y < Y ≤ y + 8 ∧ leap Y = true.
Proof.
  intros Hy. set (Z1 := y + (4 - y mod 4)). assert (y < Z1 ≤ y + 4 ∧ Z1 mod 4 = 0) as [H1 H2] by (unfold Z1; dlia). clearbody Z1.
  destruct (leap Z1) eqn:E; [by exists Z1; split; [lia|]|]. exists (Z1 + 4). split; [lia|]. rewrite leap_mod in * by lia.
  apply orb_false_iff in E as [E1 E2]. apply Z.eqb_neq in E2. rewrite H2 in E1. simpl in E1. apply negb_false_iff, Z.eqb_eq in E1.
  apply orb_true_iff. left. rewrite andb_true_iff, negb_true_iff, Z.eqb_eq, Z.eqb_neq. dlia.
Qed.

Lemma daysInMonth_leap mo y : daysInMonth mo y ≤ daysInMonth mo 2000 ∧ (leap y = true → daysInMonth mo y = daysInMonth mo 2000).
Proof.
  unfold daysInMonth. change (leap 2000) with true. destruct (_ && (mo <=? 12)); [|done].
  destruct (mo =? 2); simpl; [|lia]. destruct (leap y); lia.
Qed.

Lemma cron_day_exists dom dow y mo : range_ok CRONTAB_DOM_IDX dom → range_ok CRONTAB_DOW_IDX dow → 1 ≤ y → 1 ≤ mo ≤ 12 → leap y = true →
  (dow ≠ [] ∨ ∃ d, d ∈ dom ∧ d ≤ daysInMonth mo 2000) → ∃ d, valid_date y mo d ∧ cron_day dom dow y mo d.
Proof.
  intros [_ Hb] [_ Hw] Hy Hm Hl Hd. pose proof (daysInMonth_range mo y Hm) as Hr. simpl in Hb, Hw.
  assert (∀ d, 1 ≤ d ≤ daysInMonth mo y → valid_date y mo d) as Hv by (intros d ?; split; [done|]; split; done).
  destruct (decide (dow = [])) as [->|Hne].
  - destruct Hd as [|(d & Hin & Hd)]; [done|]. destruct (daysInMonth_leap mo y) as [_ E]. rewrite <- (E Hl) in Hd.
    exists d. split; [apply Hv; specialize (Hb d Hin); lia|]. unfold cron_day. case_decide; [case_decide as Hx; [done|destruct Hx; by left]|by left].
  - destruct dow as [|w dow]; [done|]. set (fd := dayOfWeek mo 1 y). destruct (dayOfWeek_first y mo 1 (Hv 1 ltac:(lia))) as [_ Hfd]. fold fd in Hfd.
    specialize (Hw w (list_elem_of_here w dow)). set (d := 1 + (w - fd) mod 7).
    assert (1 ≤ d ≤ 7 ∧ (fd + d - 1) mod 7 = w) as [Hd7 Ew] by (unfold d; dlia).
    exists d. split; [apply Hv; lia|]. assert (dayOfWeek mo d y ∈ w :: dow) as Hin.
    { destruct (dayOfWeek_first y mo d (Hv d ltac:(lia))) as [-> _]. fold fd. rewrite Ew. left. }
    unfold cron_day. case_decide; [by case_decide|by right].
Qed.

Lemma possible_year c y : cron_wf c → possible c → 1 ≤ y → ∃ Y mo d h mi, y < Y ≤ y + 8 ∧ holds_at c Y mo d h mi.
Proof.
  intros [_ Hw] (Hmi & Hh & mo & Hmo & Hd) Hy. destruct (leap_after y Hy) as (Y & HY & Hl).
  destruct (nth 0 (ranges c) []) as [|mi mis] eqn:E0; [done|]. destruct (nth 1 (ranges c) []) as [|h hs] eqn:E1; [done|].
  pose proof (Hw 0%nat ltac:(lia)) as [_ H0]. pose proof (Hw 1%nat ltac:(lia)) as [_ H1]. pose proof (Hw 3%nat ltac:(lia)) as [_ H3].
  rewrite E0 in H0. rewrite E1 in H1. simpl in H0, H1, H3.
  specialize (H0 mi (list_elem_of_here _ _)). specialize (H1 h (list_elem_of_here _ _)). specialize (H3 mo Hmo).
  destruct (cron_day_exists _ _ Y mo (Hw 2%nat ltac:(lia)) (Hw 4%nat ltac:(lia)) ltac:(lia) H3 Hl Hd) as (d & Hv & Hday).
  exists Y, mo, d, h, mi. split; [done|]. split_and!; [split_and!; [done|lia..]|done|done|rewrite E1; left|rewrite E0; left].
Qed.

Lemma holds_possible c y mo d h mi : cron_wf c → holds_at c y mo d h mi → possible c.
Proof.
  intros [_ Hw] (((_ & Hm & Hd) & _ & _) & Hmo & Hday & Hh & Hmi). split; [by intros E; rewrite E in Hmi; apply not_elem_of_nil in Hmi|].
  split; [by intros E; rewrite E in Hh; apply not_elem_of_nil in Hh|]. exists mo. split; [done|].
  destruct (Hw 2%nat ltac:(lia)) as [Ha Hb]. simpl in Ha, Hb.
  unfold cron_day in Hday. set (dom := nth 2 (ranges c) []) in *. set (dow := nth 4 (ranges c) []) in *.
  destruct (decide (dow = [])) as [E|E]; [right|by left]. rewrite E in Hday. destruct (daysInMonth_leap mo y) as [Hle _].
  pose proof (daysInMonth_range mo y Hm). exists d. split; [|lia]. case_decide.
  - apply (all_days dom); [done..|lia].
  - by destruct Hday as [?|[]%not_elem_of_nil].
Qed.

(** ** Theorems *)

Section Zoned.
Context {z : Zone}.

(** The minute that starts at [t]. *)
Definition runs_at (c : CronTab) (t : Z) : Prop :=
  let f := localtime t in holds_at c (tm_year f + 1900) (tm_mon f + 1) (tm_mday f) (tm_hour f) (tm_min f).

Definition next_minute (ts : Z) : Z := ts + (60 - Z.rem ts 60).
Lemma next_minute_spec ts : 0 ≤ ts → 0 ≤ ts < next_minute ts ∧ next_minute ts mod 60 = 0 ∧ ∀ t, ts < t → t mod 60 = 0 → next_minute ts ≤ t.
Proof. intros H. unfold next_minute. rewrite Z.rem_mod_nonneg by lia. split_and!; [dlia..|]. intros. dlia. Qed.

Definition fields_of (t : Z) : list Z :=
  let f := localtime t in [tm_min f; tm_hour f; tm_mday f; tm_mon f + 1; tm_wday f].
Definition match_of (t : Z) : list Z := [0; 0; 0; 0; -1; tm_year (localtime t) + 1900].
Definition array_of (t : Z) : list Z :=
  let f := localtime t in [tm_min f; tm_hour f; tm_mday f; tm_mon f + 1; -1; tm_year f + 1900].
Definition time_of (m : list Z) : Z := mktime 0 (at_ m 0) (at_ m 1) (at_ m 2) (at_ m 3 - 1) (at_ m 5 - 1900).
Definition valid_array (m : list Z) : Prop := valid_minute (at_ m 5) (at_ m 3) (at_ m 2) (at_ m 1) (at_ m 0).

(** [nextRunTime] of a valid object in terms of the search. *)
Lemma nextRunTime_search fuel c ts : valid c = true → nextRunTime fuel c ts =
  match matchFields fuel c (fields_of (next_minute ts)) (match_of (next_minute ts)) CRONTAB_MONTHS_IDX false with
  | None => RunsOn
  | Some (false, _) => RunExcept
  | Some (true, m) => if time_of m <? next_minute ts then RunExcept else RunTime (time_of m) (c <| lastRunTime := time_of m |>)
  end.
Proof. intros Hv. unfold nextRunTime. by rewrite Hv. Qed.

Section Fixed.
Context {off : Z} (Hz : fixed_offset z off).

(** The order of the arrays is the order of the times. *)
Lemma year_le_time m m2 : valid_array m → valid_array m2 → year_le m m2 → time_of m ≤ time_of m2.
Proof.
  intros Hm Hm2 H. unfold year_le in H. simpl in H. unfold time_of.
  assert ((at_ m 5 = at_ m2 5 ∧ at_ m 3 = at_ m2 3 ∧ at_ m 2 = at_ m2 2 ∧ at_ m 1 = at_ m2 1 ∧ at_ m 0 = at_ m2 0) ∨
    (at_ m 5 < at_ m2 5 ∨ at_ m 5 = at_ m2 5 ∧ (at_ m 3 < at_ m2 3 ∨ at_ m 3 = at_ m2 3 ∧
      (at_ m 2 < at_ m2 2 ∨ at_ m 2 = at_ m2 2 ∧ (at_ m 1 < at_ m2 1 ∨ at_ m 1 = at_ m2 1 ∧ at_ m 0 < at_ m2 0))))) as [(-> & -> & -> & -> & ->)|Hlt] by lia; [lia|].
  pose proof (minute_number_lt _ _ _ _ _ _ _ _ _ _ Hm Hm2 Hlt). apply Z.lt_le_incl, (mktime_lt Hz); rewrite !Z.sub_add; done.
Qed.

Lemma array_of_time t : 0 ≤ t → t mod 60 = 0 → valid_array (array_of t) ∧ time_of (array_of t) = t.
Proof.
  intros Ht H60. destruct (localtime_valid Hz t Ht) as (_ & Hv & _). split; [done|]. unfold time_of, array_of, at_. simpl.
  rewrite !Z.add_simpl_r. by apply (mktime_localtime Hz).
Qed.
Lemma runs_at_array c t : cron_wf c → 0 ≤ t → runs_at c t ↔ fits c 3 (array_of t).
Proof. intros Hw Ht. destruct (localtime_valid Hz t Ht) as (Hy & _). rewrite fits_holds; [done|done|]. unfold array_of, at_. simpl. lia. Qed.

(** The times from [t] on at which the schedule holds. *)
Lemma array_of_later c t t2 : cron_wf c → 0 ≤ t → t mod 60 = 0 → t ≤ t2 → t2 mod 60 = 0 → runs_at c t2 →
  later c (fields_of t) false (match_of t) (array_of t2).
Proof.
  intros Hw Ht H60 Hle H602 Hr. apply runs_at_array in Hr; [|done|lia].
  destruct (array_of_time t Ht H60) as [Hv E]. destruct (array_of_time t2 ltac:(lia) H602) as [Hv2 E2].
  (* the arrays of [t] and [t2] are ordered as the times are *)
  assert (¬ (year_le (array_of t2) (array_of t) ∧ time_of (array_of t2) ≠ time_of (array_of t))) as Hno.
  { intros [H Hne]. pose proof (year_le_time _ _ Hv2 Hv H). lia. }
  assert (year_le (array_of t) (array_of t2)) as Hyle.
  { destruct (decide (t = t2)) as [->|Hne]; [unfold year_le; simpl; lia|]. unfold year_le in *. simpl in *. lia. }
  unfold year_le in Hyle. split_and!; [done|done| |done|].
  - unfold match_of, array_of, at_ in *. simpl in *. lia.
  - intros Ey. right. destruct Hyle as [Hlt|[_ Hle3]]; [unfold match_of, array_of, at_ in *; simpl in *; lia|].
    unfold fields_of, array_of, at_ in *. simpl in *. exact Hle3.
Qed.

Lemma later_time c t m : cron_wf c → 0 ≤ t → t mod 60 = 0 → later c (fields_of t) false (match_of t) m →
  valid_array m ∧ t ≤ time_of m ∧ time_of m mod 60 = 0 ∧ runs_at c (time_of m).
Proof.
  intros Hw Ht H60 (Hlen & E4 & Hy & Hf & Ho). destruct (localtime_valid Hz t Ht) as (Hy0 & _). destruct (array_of_time t Ht H60) as [Hv E].
  assert (at_ (match_of t) 5 = tm_year (localtime t) + 1900) as E5 by done. rewrite E5 in *.
  apply fits_holds in Hf; [|done|lia]. assert (valid_array m) as Hvm by apply Hf. split; [done|]. split.
  - rewrite <- E. apply year_le_time; [done|done|]. unfold year_le. assert (at_ (array_of t) 5 = tm_year (localtime t) + 1900) as -> by done.
    destruct (Z.lt_ge_cases (tm_year (localtime t) + 1900) (at_ m 5)); [by left|right]. split; [lia|].
    destruct (Ho ltac:(lia)) as [?|Hle]; [done|]. exact Hle.
  - destruct (localtime_mktime Hz (at_ m 5 - 1900) (at_ m 3 - 1) (at_ m 2) (at_ m 1) (at_ m 0)) as [H1 H2].
    { by rewrite !Z.sub_add. }
    split; [done|]. unfold runs_at, time_of. cbv zeta in H2. set (f := localtime _) in *. injection H2 as -> -> -> -> ->. by rewrite !Z.sub_add.
Qed.


Lemma nextRunTime_cases fuel c ts : cron_wf c → valid c = true → 0 ≤ ts →
  match nextRunTime fuel c ts with
  | RunTime r c' => c' = c <| lastRunTime := r |> ∧ ts < r ∧ r mod 60 = 0 ∧ runs_at c r ∧ ∀ t, ts < t → t mod 60 = 0 → runs_at c t → r ≤ t
  | RunExcept => False
  | RunsOn => possible c → (fuel < 12)%nat
  end.
Proof.
  intros Hw Hv Hts. rewrite nextRunTime_search by done. destruct (next_minute_spec ts Hts) as (Hlt & H60 & Hmin).
  set (t0 := next_minute ts) in *. clearbody t0. pose proof (matchFields_years c (fields_of t0) Hw fuel (match_of t0) false eq_refl) as H.
  destruct (matchFields _ _ _ _ _ _) as [[ret m]|].
  - destruct H as (-> & Hl & Hfirst). destruct (later_time c t0 m Hw ltac:(lia) H60 Hl) as (Hvm & Hle & Hm60 & Hr).
    destruct (Z.ltb_spec (time_of m) t0); [lia|]. split_and!; [done|lia|done|done|]. intros t Ht Ht60 Hrt.
    specialize (Hmin t Ht Ht60). destruct (array_of_time t ltac:(lia) Ht60) as [Hva <-]. apply year_le_time; [done|done|].
    apply Hfirst. apply array_of_later; (done || lia).
  - intros Hp. destruct (localtime_valid Hz t0 ltac:(lia)) as (Hy & _).
    assert (1 ≤ tm_year (localtime t0) + 1900) as Hy1 by (simpl in Hy; lia).
    destruct (possible_year c (tm_year (localtime t0) + 1900) Hw Hp Hy1) as (Y & mo & d & h & mi & HY & Hh).
    specialize (H [mi; h; d; mo; -1; Y]). assert (at_ (match_of t0) 5 = tm_year (localtime t0) + 1900) as E5 by done.
    assert (later c (fields_of t0) false (match_of t0) [mi; h; d; mo; -1; Y]) as Hl.
    { split_and!; [done|done|rewrite E5; change (at_ [mi; h; d; mo; -1; Y] 5) with Y; lia| |].
      - apply fits_holds; [done|change (at_ [mi; h; d; mo; -1; Y] 5) with Y; lia|done].
      - rewrite E5. change (at_ [mi; h; d; mo; -1; Y] 5) with Y. lia. }
    specialize (H Hl). rewrite E5 in H. change (at_ [mi; h; d; mo; -1; Y] 5) with Y in H. lia.
Qed.
End Fixed.
End Zoned.



(** A schedule that cannot hold is searched for ever, in a zone without daylight saving
    time.  When no minute of any year
    satisfies the schedule of an object that is valid, as with the 30th of February,
    an empty range such as 5-3 or an empty parameter, [matchFields] calls itself
    for one year after the other, and [nextRunTime] does not return, whatever the
    fuel: its EXCEPT for this case is never reached. *)
Theorem nextRunTime_never {p : Pcre} {z : Zone} {off} (Hz : fixed_offset z off) regex params regex' c ts :
  init regex params = Some (regex', c) → valid c = true → ¬ possible c → 0 ≤ ts → ∀ fuel, nextRunTime fuel c ts = RunsOn.
Proof.
  intros Hi%init_wf Hv Hp Hts fuel. pose proof (nextRunTime_cases Hz fuel c ts Hi Hv Hts) as H.
  destruct (nextRunTime fuel c ts) as [r c'| |]; [|done|done]. destruct H as (_ & _ & _ & Hr & _). destruct Hp.
  by eapply holds_possible.
Qed.
