(* ===== verification/CronJobs.v ===== *)
(** * CronJobs

    The jobs of the schedd that have a cron schedule ([condor_schedd.V6/schedd.cpp]):
    the table [cronTabs] of their ids and cached [CronTab] objects, and the
    calculation of their deferral times.  [holdJob] is recorded, not modelled. *)
From stdpp Require Import base list numbers strings sets gmap.
From Stdlib Require Import ZArith Lia Ascii.
From S2P Require Import Prelude MyString JobAd CronDate CronTab CronSyntax CronRun.
Open Scope Z_scope.
Open Scope condor_scope.

(** ** Job ads *)

Definition ATTR_JOB_STATUS : cstr := L "JobStatus".
Definition ATTR_DEFERRAL_TIME : cstr := L "DeferralTime".
Definition ATTR_DEFERRAL_WINDOW : cstr := L "DeferralWindow".
Definition IDLE : Z := 1.
Definition RUNNING : Z := 2.
Definition HELD : Z := 5.
Definition TRANSFERRING_OUTPUT : Z := 6.

(** The integer attributes of an ad: [LookupInteger] reads a literal, [EvalInteger]
    gives the value of the expression, if it is an integer. *)
Class IntAd (ad : Type) := {
  LookupInteger : ad → cstr → option Z;
  EvalInteger : ad → cstr → option Z;
  AssignInteger : ad → cstr → Z → ad;
}.
Class IntAdLaws (ad : Type) `{JobAd ad, IntAd ad} : Prop := {
  LookupInteger_Assign (a : ad) k v : LookupInteger (AssignInteger a k v) k = Some v;
  LookupInteger_Assign_ne (a : ad) k k' v : k ≠ k' → LookupInteger (AssignInteger a k v) k' = LookupInteger a k';
  EvalInteger_Assign (a : ad) k v : EvalInteger (AssignInteger a k v) k = Some v;
  EvalInteger_Assign_ne (a : ad) k k' v : k ≠ k' → EvalInteger (AssignInteger a k v) k' = EvalInteger a k';
  LookupExpr_AssignInteger (a : ad) k v : LookupExpr (AssignInteger a k v) k = true;
  LookupExpr_AssignInteger_ne (a : ad) k k' v : k ≠ k' → LookupExpr (AssignInteger a k v) k' = LookupExpr a k';
  LookupString_AssignInteger_ne (a : ad) k k' v : k ≠ k' → LookupString (AssignInteger a k v) k' = LookupString a k';
}.

Lemma status_not_cron : ATTR_JOB_STATUS ∉ attributes.
Proof. apply (bool_decide_unpack _). by vm_compute. Qed.
Lemma deferral_not_cron : ATTR_DEFERRAL_TIME ∉ attributes.
Proof. apply (bool_decide_unpack _). by vm_compute. Qed.

(** ** The scheduler *)

Abbreviation PROC_ID := (Z * Z)%type.

Section Schedd.
Context {pcre : Pcre} {zone : Zone} {ad : Type} `{JobAd ad, !IntAd ad}.

(** The job queue, the table of cron jobs (NULL is [None]), the clusters to look at, the
    regular expression of the class [CronTab], and the calls of [holdJob]. *)
Record Scheduler := mkScheduler {
  JobQueue : gmap PROC_ID ad;
  cronTabs : gmap PROC_ID (option CronTab);
  cronTabClusterIds : list Z;
  regex : Regex;
  holds : list (PROC_ID * cstr);
}.
#[export] Instance Scheduler_updatable : Updatable Scheduler :=
  fun s => mkScheduler (JobQueue s) (cronTabs s) (cronTabClusterIds s) (regex s) (holds s).

(** A call ends, stops the process, or does not return. *)
Inductive sched_result (A : Type) :=
| Ends (a : A) (s : Scheduler)
| Stops
| Hangs.
Arguments Ends {A} a s.
Arguments Stops {A}.
Arguments Hangs {A}.
Definition after {A B} (r : sched_result A) (k : A → Scheduler → sched_result B) : sched_result B :=
  match r with Ends a s => k a s | Stops => Stops | Hangs => Hangs end.

(** A job gets an entry without an object when it has a schedule and no entry. *)
Definition add_cron_job (id : PROC_ID) (jobAd : ad) (s : Scheduler) : Scheduler :=
  match cronTabs s !! id with
  | None => if needsCronTab jobAd then s <| cronTabs ::= <[id := None]> |> else s
  | Some _ => s
  end.

Definition addCronTabClassAd (m_adSchedd : bool) (id : PROC_ID) (jobAd : ad) (s : Scheduler) : Scheduler :=
  if negb m_adSchedd then s else add_cron_job id jobAd s.

Definition addCronTabClusterId (cluster_id : Z) (s : Scheduler) : Scheduler :=
  if (cluster_id <? 0) || bool_decide (cluster_id ∈ cronTabClusterIds s) then s
  else s <| cronTabClusterIds ::= fun q => q ++ [cluster_id] |>.

(** The jobs of a cluster, as [GetNextJobByCluster] gives them. *)
Definition jobs_of_cluster (cluster_id : Z) (s : Scheduler) : list (PROC_ID * ad) :=
  map_to_list (filter (fun kv => fst (fst kv) = cluster_id) (JobQueue s)).
Definition process_cluster (s : Scheduler) (cluster_id : Z) : Scheduler :=
  foldl (fun s '(id, jobAd) => add_cron_job id jobAd s) s (jobs_of_cluster cluster_id s).
Definition processCronTabClusterIds (s : Scheduler) : Scheduler :=
  foldl process_cluster (s <| cronTabClusterIds := [] |>) (cronTabClusterIds s).

(** The object for the job: the cached one, or a new one.  The result has the object,
    the errors of [validate] and the new value of [calculate]. *)
Definition find_cron (id : PROC_ID) (jobAd : ad) (calculate : bool) (s : Scheduler)
    : sched_result (option CronTab * cstr * bool) :=
  match cronTabs s !! id with
  | Some (Some c) => Ends (Some c, [], calculate) s
  | _ =>
      let '(ok, error) := validate (regex s) jobAd [] in
      if ok : bool then
        match CronTab_ad jobAd (regex s) with
        | None => Stops
        | Some (regex', c) =>
            let s := s <| regex := regex' |> in
            if isValid c then Ends (Some c, error, true) (s <| cronTabs ::= <[id := Some c]> |>)
            else Ends (None, error, true) s
        end
      else Ends (None, error, calculate) s
  end.

(** Whether the deferral time and its window are over. *)
Definition deferral_over (now : Z) (jobAd : ad) : bool :=
  let deferralTime := default 0 (EvalInteger jobAd ATTR_DEFERRAL_TIME) in
  let deferralWindow := if LookupExpr jobAd ATTR_DEFERRAL_WINDOW then default 0 (EvalInteger jobAd ATTR_DEFERRAL_WINDOW) else 0 in
  int32 (deferralTime + deferralWindow) <? now.

Definition calculateCronTabSchedule (fuel : nat) (now : Z) (id : PROC_ID) (jobAd : ad) (calculate : bool) (s : Scheduler)
    : sched_result bool :=
  if negb (needsCronTab jobAd) then Ends true (s <| cronTabs ::= delete id |>)
  else
    match LookupInteger jobAd ATTR_JOB_STATUS with
    | None => Ends false s
    | Some status =>
        if (status =? RUNNING) || (status =? TRANSFERRING_OUTPUT) then Ends true s
        else
          after (find_cron id jobAd calculate s) (fun '(cronTab, error, calculate) s =>
            let calculate := if negb calculate && LookupExpr jobAd ATTR_DEFERRAL_TIME then deferral_over now jobAd else calculate in
            let hold error s := Ends false (s <| holds ::= fun l => l ++ [(id, L "Invalid cron schedule parameters: " ++ error)] |>) in
            match cronTab with
            | None => hold error s
            | Some c =>
                if calculate then
                  match nextRunTime fuel c now with
                  | RunsOn => Hangs
                  | RunExcept => Stops
                  | RunTime runTime c' =>
                      let s := s <| cronTabs ::= <[id := Some c']> |> in
                      if negb (runTime =? CRONTAB_INVALID)
                      then Ends true (s <| JobQueue ::= <[id := AssignInteger jobAd ATTR_DEFERRAL_TIME (int32 runTime)]> |>)
                      else hold (getError c') s
                  end
                else Ends true s
            end)
    end.

(** The table after a reconfiguration: the ids of the jobs that are still there. *)
Definition reconfig_cronTabs (s : Scheduler) : Scheduler :=
  s <| cronTabs ::= fun t => filter (fun kv => is_Some (JobQueue s !! fst kv)) (const None <$> t) |>.

(** A job that missed its deferral time or is to be held, and a job that has finished: a
    cached object is deleted with its entry. *)
Definition forget_cron (id : PROC_ID) (s : Scheduler) : Scheduler :=
  match cronTabs s !! id with
  | Some (Some _) => s <| cronTabs ::= delete id |>
  | _ => s
  end.
Definition set_job_status (id : PROC_ID) (status : Z) (s : Scheduler) : Scheduler :=
  s <| JobQueue ::= alter (fun a => AssignInteger a ATTR_JOB_STATUS status) id |>.
Definition hold_missed (id : PROC_ID) (s : Scheduler) : Scheduler := forget_cron id (set_job_status id HELD s).
(** [check_zombie] after the end of a job. *)
Definition check_zombie_cron (fuel : nat) (now : Z) (id : PROC_ID) (s : Scheduler) : sched_result unit :=
  match cronTabs s !! id, JobQueue s !! id with
  | None, _ => Ends tt s
  | Some _, Some jobAd => after (calculateCronTabSchedule fuel now id jobAd true s) (fun _ s => Ends tt s)
  | Some _, None => Stops
  end.

(** ** Invariant *)

Context `{!CronPcre pcre, !IntAdLaws ad} {off : Z} (Hz : fixed_offset zone off).

(** The object that is made from the parameters of an ad. *)
Definition cron_object (a : ad) : option CronTab := snd <$> CronTab_ad a None.
(** An object that was made from some parameters without an error, as each cached one
    is; the ad of its job may have been changed since. *)
Definition cached (c : CronTab) : Prop :=
  ∃ params re c0, init None params = Some (re, c0) ∧ valid c0 = true ∧ c = c0 <| lastRunTime := lastRunTime c |>.

(** The regular expression is compiled when it is there. *)
Definition regex_ok (re : Regex) : Prop := re = None ∨ re = pcre_compile CRONTAB_PARAMETER_PATTERN.
Definition sched_ok (s : Scheduler) : Prop := regex_ok (regex s) ∧ ∀ id c, cronTabs s !! id = Some (Some c) → cached c.

Lemma cron_object_wf (a : ad) c : cron_object a = Some c → cron_wf c.
Proof. unfold cron_object. destruct (CronTab_ad a None) as [[re c']|] eqn:E; [|done]. intros [= <-]. by eapply init_wf. Qed.

(** *** Valid objects *)



(** *** One job *)







(** *** New jobs *)

(** The table after new jobs of the clusters [C] have been added. *)
Definition extends_table (C : list Z) (s s' : Scheduler) : Prop :=
  JobQueue s' = JobQueue s ∧ regex s' = regex s ∧ holds s' = holds s ∧
  ∀ id, cronTabs s' !! id = cronTabs s !! id ∨
    (cronTabs s !! id = None ∧ cronTabs s' !! id = Some None ∧ ∃ a, JobQueue s !! id = Some a ∧ needsCronTab a = true ∧ id.1 ∈ C).
Lemma table_refl C s : extends_table C s s.
Proof. refine (conj eq_refl (conj eq_refl (conj eq_refl _))). auto. Qed.
Lemma table_trans C s1 s2 s3 : extends_table C s1 s2 → extends_table C s2 s3 → extends_table C s1 s3.
Proof.
  intros (E1 & E2 & E3 & H1) (F1 & F2 & F3 & H2). refine (conj _ (conj _ (conj _ _))); [congruence..|]. intros id.
  specialize (H1 id). specialize (H2 id). rewrite E1 in H2. destruct H1 as [G1|(? & ? & ?)], H2 as [G2|(? & ? & ?)]; [left; congruence|right; split_and!; (congruence || done)|right; split_and!; (congruence || done)|congruence].
Qed.
Lemma extends_ok C s s' : extends_table C s s' → sched_ok s → sched_ok s'.
Proof.
  intros (E1 & E2 & _ & Hx) [Hre Hc]. split; [by rewrite E2|]. intros id c Hid. destruct (Hx id) as [E|(_ & E & _)]; rewrite E in Hid; [|done].
  by apply (Hc id).
Qed.
Lemma extends_some C s s' id : extends_table C s s' → is_Some (cronTabs s !! id) → is_Some (cronTabs s' !! id).
Proof. intros (_ & _ & _ & Hx) Hs. destruct (Hx id) as [->|(E & _ & _)]; [done|]. rewrite E in Hs. by destruct Hs. Qed.

Lemma add_cron_job_spec C id a s : JobQueue s !! id = Some a → id.1 ∈ C → let s' := add_cron_job id a s in
  extends_table C s s' ∧ cronTabClusterIds s' = cronTabClusterIds s ∧ (needsCronTab a = true → is_Some (cronTabs s' !! id)).
Proof.
  intros Ha HC. unfold add_cron_job. destruct (cronTabs s !! id) as [e|] eqn:E.
  { refine (conj (table_refl C s) (conj eq_refl _)). rewrite E. eauto. }
  destruct (needsCronTab a) eqn:Hn; [|by refine (conj (table_refl C s) (conj eq_refl _))].
  refine (conj (conj eq_refl (conj eq_refl (conj eq_refl _))) (conj eq_refl _)); cbn [cronTabs JobQueue field_update].
  - intros id'. destruct (decide (id' = id)) as [->|Hne]; [right; rewrite lookup_insert_eq; eauto 10|left; by rewrite lookup_insert_ne].
  - intros _. rewrite lookup_insert_eq. eauto.
Qed.

Lemma add_jobs_spec C l : ∀ s, (∀ id a, (id, a) ∈ l → JobQueue s !! id = Some a ∧ id.1 ∈ C) →
  let s' := foldl (fun s '(id, jobAd) => add_cron_job id jobAd s) s l in
  extends_table C s s' ∧ cronTabClusterIds s' = cronTabClusterIds s ∧
  ∀ id a, (id, a) ∈ l → needsCronTab a = true → is_Some (cronTabs s' !! id).
Proof.
  induction l as [|[id a] l IH]; intros s Hl; cbn [foldl]; cbv zeta.
  { refine (conj (table_refl C s) (conj eq_refl _)). by intros ? ? ?%not_elem_of_nil. }
  destruct (Hl id a (list_elem_of_here _ _)) as [Ha HC]. destruct (add_cron_job_spec C id a s Ha HC) as (H1 & H2 & H3).
  destruct (IH (add_cron_job id a s)) as (G1 & G2 & G3).
  { intros id' a' Hin. destruct H1 as [-> _]. apply Hl. by right. }
  refine (conj (table_trans _ _ _ _ H1 G1) (conj _ _)); [congruence|].
  intros id' a' [[= -> ->]|Hin]%elem_of_cons Hn; [by eapply extends_some, H3|by eapply G3].
Qed.

Lemma process_cluster_spec C s cl : cl ∈ C → let s' := process_cluster s cl in
  extends_table C s s' ∧ cronTabClusterIds s' = cronTabClusterIds s ∧
  ∀ id a, JobQueue s !! id = Some a → id.1 = cl → needsCronTab a = true → is_Some (cronTabs s' !! id).
Proof.
  intros HC. unfold process_cluster, jobs_of_cluster. set (l := map_to_list _).
  destruct (add_jobs_spec C l s) as (H1 & H2 & H3).
  { intros id a Hin%elem_of_map_to_list. apply map_lookup_filter_Some in Hin as [? E]. simpl in E. by subst cl. }
  refine (conj H1 (conj H2 _)). intros id a Ha Hcl Hn. apply (H3 id a); [|done]. apply elem_of_map_to_list, map_lookup_filter_Some. done.
Qed.

Lemma process_spec s : let s' := processCronTabClusterIds s in
  extends_table (cronTabClusterIds s) s s' ∧ cronTabClusterIds s' = [] ∧
  ∀ id a, JobQueue s !! id = Some a → id.1 ∈ cronTabClusterIds s → needsCronTab a = true → is_Some (cronTabs s' !! id).
Proof.
  unfold processCronTabClusterIds. set (s0 := s <| cronTabClusterIds := [] |>). set (C := cronTabClusterIds s).
  assert (extends_table C s s0) as H0 by (refine (conj eq_refl (conj eq_refl (conj eq_refl _))); auto).
  assert (∀ l s1, l ⊆ C → extends_table C s s1 → cronTabClusterIds s1 = [] → let s' := foldl process_cluster s1 l in
    extends_table C s s' ∧ cronTabClusterIds s' = [] ∧ (∀ id, is_Some (cronTabs s1 !! id) → is_Some (cronTabs s' !! id)) ∧
    ∀ id a, JobQueue s !! id = Some a → id.1 ∈ l → needsCronTab a = true → is_Some (cronTabs s' !! id)) as Hl.
  { induction l as [|cl l IH]; intros s1 HC H1 Hc; cbn [foldl]; cbv zeta.
    { refine (conj H1 (conj Hc (conj _ _))); [done|]. by intros ? ? _ ?%not_elem_of_nil. }
    destruct (process_cluster_spec C s1 cl) as (G1 & G2 & G3); [by apply HC; left|]. destruct (IH (process_cluster s1 cl)) as (K1 & K2 & K3 & K4);
      [intros x Hx; apply HC; by right|by eapply table_trans|congruence|].
    refine (conj K1 (conj K2 (conj _ _))).
    - intros id Hid. by eapply K3, extends_some.
    - intros id a Ha [Hcl|Hin]%elem_of_cons Hn; [|by eapply K4]. apply K3. apply (G3 id a); [|done..]. destruct H1 as [-> _]. done. }
  destruct (Hl C s0 ltac:(done) H0 eq_refl) as (K1 & K2 & _ & K4). exact (conj K1 (conj K2 K4)).
Qed.

End Schedd.
Arguments Scheduler ad : clear implicits.
Arguments sched_result ad A : clear implicits.
Arguments Ends {ad A} a s.
Arguments Stops {ad A}.
Arguments Hangs {ad A}.

(** ** Theorems *)


(** A job that missed its deferral time is forgotten.  Its cached object is deleted, so
    that a new run time is calculated when the job is released, but with the object
    its entry leaves the table: after it has been released, [check_zombie] does not
    look at it, the clusters that are announced do not bring it back, and it keeps the
    deferral time that it missed. *)
Theorem missed_job_forgotten {pcre : Pcre} {zone : Zone} {ad : Type} `{JobAd ad, !IntAd ad, !IntAdLaws ad} fuel now id a c (s : Scheduler ad) :
  JobQueue s !! id = Some a → cronTabs s !! id = Some (Some c) → cronTabClusterIds s = [] →
  let s1 := set_job_status id IDLE (hold_missed id s) in
  cronTabs (processCronTabClusterIds s1) !! id = None ∧ check_zombie_cron fuel now id s1 = Ends tt s1 ∧
  ∃ a', JobQueue s1 !! id = Some a' ∧ EvalInteger a' ATTR_DEFERRAL_TIME = EvalInteger a ATTR_DEFERRAL_TIME.
Proof.
  intros Ha Hc Hcl s1. assert (cronTabs s1 !! id = None ∧ cronTabClusterIds s1 = [] ∧ JobQueue s1 = alter (fun a => AssignInteger a ATTR_JOB_STATUS IDLE) id
    (alter (fun a => AssignInteger a ATTR_JOB_STATUS HELD) id (JobQueue s))) as (Ht & Hc1 & Hj).
  { unfold s1, hold_missed, forget_cron. change (cronTabs (set_job_status id HELD s)) with (cronTabs s). rewrite Hc.
    cbn [cronTabs JobQueue cronTabClusterIds set_job_status field_update]. by rewrite lookup_delete_eq. }
  split; [unfold processCronTabClusterIds; rewrite Hc1; exact Ht|]. split; [unfold check_zombie_cron; by rewrite Ht|].
  rewrite Hj, !lookup_alter_eq, Ha. eexists. split; [done|]. by rewrite !EvalInteger_Assign_ne.
Qed.
