(* ===== verification/CronExamples.v ===== *)
(** * CronExamples

    Schedules for which the hypotheses of the theorems of [CronRun] hold, and a
    change of the clock at which [nextRunTime] stops the process. *)
From stdpp Require Import base list numbers strings sets sorting gmap.
From Stdlib Require Import ZArith Lia Ascii.
From S2P Require Import Prelude MyString JobAd CronDate CronTab CronSyntax CronRun CronJobs.
Open Scope Z_scope.
Open Scope condor_scope.

Definition no_cron : CronTab := mkCronTab [] false CRONTAB_INVALID [] [].
Definition cron_of (params : list cstr) : CronTab :=
  match init (pcre := class_pcre) None params with Some (_, c) => c | None => no_cron end.


(** An ad with hours only. *)
Definition hours_ad : map_ad := <[L "CronHour" := inl (L "20-30, 5")]> ∅.
Definition hours_cron : CronTab := match CronTab_ad (pcre := class_pcre) hours_ad None with Some (_, c) => c | None => no_cron end.
Lemma constructor_ranges_witness : nth CRONTAB_HOURS_IDX (ranges hours_cron) [] = [5; 20; 21; 22; 23] ∧
  ascending (nth CRONTAB_HOURS_IDX (ranges hours_cron) []).
Proof.
  split; [by vm_compute|]. destruct (constructor_ranges (p := class_pcre) hours_ad [] [] [] [] [] 0 0 0 0 0 None
    (pcre_compile (Pcre := class_pcre) []) hours_cron) as [_ H]; [left; vm_compute; reflexivity|]. apply (H 1%nat). lia.
Defined.

Lemma fixed_utc : fixed_offset (fixed_zone 0) 0.
Proof. split; [lia|reflexivity]. Qed.

(** The 30th of February. *)
Definition never_day : list cstr := [L "0"; L "12"; L "30"; L "2"; L "*"].
Lemma nextRunTime_never_witness : valid (cron_of never_day) = true ∧ ∀ fuel, nextRunTime (z := fixed_zone 0) fuel (cron_of never_day) 1709251300 = RunsOn.
Proof.
  split; [vm_compute; reflexivity|]. apply (nextRunTime_never (p := class_pcre) (z := fixed_zone 0) (off := 0) fixed_utc
    None never_day (pcre_compile (Pcre := class_pcre) []) (cron_of never_day) 1709251300); [vm_compute; reflexivity|vm_compute; reflexivity| |lia].
  intros (_ & _ & mo & Hmo & H). vm_compute (nth _ _ _) in Hmo. vm_compute (nth _ _ _) in H. assert (mo = 2) as -> by (by apply list_elem_of_singleton in Hmo).
  destruct H as [H|(d & Hd & Hle)]; [by destruct H|]. assert (d = 30) as -> by (by apply list_elem_of_singleton in Hd). by apply Hle.
Defined.

(** ** The end of daylight saving time

    At the time 3600 the clock, which was an hour ahead, is put back from two to one;
    [mktime] takes a time of the hour that comes twice for its first occurrence. *)
Definition fall_back : Zone :=
  {| localtime t := clock_fields (if t <? 3600 then t + 3600 else t);
     mktime sec mi h d mo y := let s := clock_seconds sec mi h d mo y in if s - 3600 <? 3600 then s - 3600 else s |}.

Lemma fall_back_consistent t : 0 ≤ t → t mod 60 = 0 → let f := localtime (Zone := fall_back) t in
  localtime (Zone := fall_back) (mktime (Zone := fall_back) 0 (tm_min f) (tm_hour f) (tm_mday f) (tm_mon f) (tm_year f)) = f.
Proof.
  intros Ht H60. cbn [localtime mktime fall_back]. assert (∀ s, 0 ≤ s → s mod 60 = 0 → let f := clock_fields s in
    clock_seconds 0 (tm_min f) (tm_hour f) (tm_mday f) (tm_mon f) (tm_year f) = s) as Hinv.
  { intros s Hs Hs60. change (clock_fields s) with (clock_fields s). destruct (clock_fields_spec s) as (_ & Hn & _).
    - assert (epoch = 719162) as -> by reflexivity. lia.
    - unfold clock_seconds. rewrite Hn. dlia. }
  cbv zeta in *. destruct (Z.ltb_spec t 3600); rewrite Hinv by dlia.
  - destruct (Z.ltb_spec (t + 3600 - 3600) 3600); [|lia]. destruct (Z.ltb_spec (t + 3600 - 3600) 3600); [|lia]. f_equal. lia.
  - destruct (Z.ltb_spec (t - 3600) 3600) as [H1|H1].
    + destruct (Z.ltb_spec (t - 3600) 3600); [|lia]. f_equal. lia.
    + destruct (Z.ltb_spec t 3600); [lia|done].
Qed.

(** When the clock is put back [nextRunTime] can stop the process.  In a time zone in
    which an hour comes twice, [mktime] with [tm_isdst] set to -1 may give the
    first occurrence of a time of this hour; in the second one the next run time of a job
    that runs every minute is then in the past, and the EXCEPT is raised. *)
Theorem fall_back_aborts :
  (∀ t, 0 ≤ t → t mod 60 = 0 → let f := localtime (Zone := fall_back) t in
     localtime (Zone := fall_back) (mktime (Zone := fall_back) 0 (tm_min f) (tm_hour f) (tm_mday f) (tm_mon f) (tm_year f)) = f) ∧
  nextRunTime (z := fall_back) 12 (cron_of (replicate 5 (L "*"))) 4200 = RunExcept.
Proof. split; [apply fall_back_consistent|by vm_compute]. Qed.

(** ** Parameters that pass the checks *)

(** A step of 0 is a division by zero, and a parameter without numbers gives an empty
    range and a valid object. *)
Lemma step_zero_stops : init (pcre := class_pcre) None [L "*/0"; L "*"; L "*"; L "*"; L "*"] = None.
Proof. by vm_compute. Qed.
Lemma empty_parameter_valid : valid (cron_of [[]; L "*"; L "*"; L "*"; L "*"]) = true ∧
  nth CRONTAB_MINUTES_IDX (ranges (cron_of [[]; L "*"; L "*"; L "*"; L "*"])) [0] = [].
Proof. by vm_compute. Qed.
(** A number outside the field selects all its values, and a full stop passes the
    check of the characters. *)
Lemma number_outside_field : nth CRONTAB_MINUTES_IDX (ranges (cron_of [L "75."; L "*"; L "*"; L "*"; L "*"])) [] = seqZ 0 60.
Proof. by vm_compute. Qed.

(** ** Jobs of a schedd *)

(** Ads with strings and numbers. *)
Abbreviation num_ad := (gmap cstr (cstr + Z)).
#[export] Instance num_ad_JobAd : JobAd num_ad := {
  LookupString a k := match a !! k with Some (inl s) => Some s | _ => None end;
  LookupExpr a k := bool_decide (is_Some (a !! k));
  Assign a k v := <[k := inl v]> a;
  Delete a k := delete k a;
}.
#[export] Instance num_ad_IntAd : IntAd num_ad := {
  LookupInteger a k := match a !! k with Some (inr n) => Some n | _ => None end;
  EvalInteger a k := match a !! k with Some (inr n) => Some n | _ => None end;
  AssignInteger a k v := <[k := inr v]> a;
}.
#[export] Instance num_ad_laws : IntAdLaws num_ad.
Proof. split; simpl; intros; rewrite ?lookup_insert_eq, ?lookup_insert_ne by done; done. Qed.

(** A job that runs at noon of the first of each month; it has been scheduled. *)
Definition noon_ad : num_ad := <[L "CronMinute" := inl (L "0")]> (<[L "CronHour" := inl (L "12")]>
  (<[L "CronDayOfMonth" := inl (L "1")]> (<[ATTR_JOB_STATUS := inr IDLE]> (<[ATTR_DEFERRAL_TIME := inr 2721600]> ∅)))).
Definition noon_cron : CronTab := default no_cron (cron_object (pcre := class_pcre) noon_ad).
Definition noon_queue : Scheduler num_ad := mkScheduler {[ (7, 0) := noon_ad ]} {[ (7, 0) := Some noon_cron ]} [] None [].


Lemma missed_job_forgotten_witness : let s1 := set_job_status (7, 0) IDLE (hold_missed (7, 0) noon_queue) in
  check_zombie_cron (pcre := class_pcre) (zone := fixed_zone 0) 12 7000000 (7, 0) s1 = Ends tt s1.
Proof.
  destruct (missed_job_forgotten (pcre := class_pcre) (zone := fixed_zone 0) 12 7000000 (7, 0)
    noon_ad noon_cron noon_queue) as (_ & H & _); [apply lookup_singleton_eq|apply lookup_singleton_eq|reflexivity|exact H].
Defined.

(** A job that is new in cluster 7, the first one whose parameters are wrong: [validate] has
    no regular expression yet and accepts them, the new object is not valid, and the
    message of the hold has no error. *)
Definition bad_ad : num_ad := <[L "CronMinute" := inl (L "noon")]> (<[ATTR_JOB_STATUS := inr IDLE]> ∅).
Definition bad_queue : Scheduler num_ad := processCronTabClusterIds (mkScheduler {[ (7, 0) := bad_ad ]} ∅ [7] None []).
Lemma first_error_lost : cronTabs bad_queue !! (7, 0) = Some None ∧
  match calculateCronTabSchedule (pcre := class_pcre) (zone := fixed_zone 0) 12 0 (7, 0) bad_ad false bad_queue with
  | Ends ok s => ok = false ∧ holds s = [((7, 0), L "Invalid cron schedule parameters: ")]
  | _ => False
  end.
Proof. by vm_compute. Qed.
