(* ===== verification/RingBuffer.v ===== *)
(** * Ring buffers and windowed statistics

    The template classes [ring_buffer] and [stats_entry_recent] of
    [condor_utils/generic_stats.h].  A ring buffer holds the last values of a
    statistic, one for each slot of time; [stats_entry_recent] keeps the sum over
    all time and the sum over the slots of the buffer.

    The numbers are an interface: what the templates use of their parameter [T].
    The items of a new array have no value until they are stored to. *)

From stdpp Require Import base list numbers.
From S2P Require Import Prelude.
Open Scope Z_scope.

(** ** Numbers *)

(** [T(0)], [+=] and [-=]. *)
Class Num (T : Type) := { num0 : T; num_add : T → T → T; num_sub : T → T → T }.
Declare Scope num_scope.
Delimit Scope num_scope with num.
Infix "+" := num_add : num_scope.
Infix "-" := num_sub : num_scope.

(** Addition; for [int] and [int64_t] also subtraction is exact, which is not so for the
    class [Probe], whose [-=] does nothing. *)
Class NumLaws (T : Type) `{Num T} : Prop := {
  num_add_comm : ∀ x y : T, (x + y = y + x)%num;
  num_add_assoc : ∀ x y z : T, (x + (y + z) = (x + y) + z)%num;
  num_add_0 : ∀ x : T, (num0 + x = x)%num;
}.
Class SubLaws (T : Type) `{Num T} : Prop := {
  num_sub_add : ∀ x y : T, ((x + y) - y = x)%num;
}.

(** ** ring_buffer *)

Section Ring.
Context {T : Type} `{Num T}.

Record ring_buffer := mkRing {
  cMax : Z; cAlloc : Z; ixHead : Z; cItems : Z;
  pbuf : option (list (option T));
}.
#[export] Instance ring_updatable : Updatable ring_buffer :=
  fun r => mkRing (cMax r) (cAlloc r) (ixHead r) (cItems r) (pbuf r).

(** [new T[n]]; a load and a store of [pbuf[i]], which fail outside the array, and on an
    item that was never stored. *)
Definition new_T (n : Z) : list (option T) := replicate (Z.to_nat n) None.
Definition load (b : list (option T)) (i : Z) : option T :=
  if 0 <=? i then mjoin (b !! Z.to_nat i) else None.
Definition store (b : list (option T)) (i : Z) (v : T) : option (list (option T)) :=
  if (0 <=? i) && (i <? Z.of_nat (length b)) then Some (<[Z.to_nat i := Some v]> b) else None.

Definition ring_new (cSize : Z) : ring_buffer :=
  if 0 <? cSize then mkRing cSize cSize 0 0 (Some (new_T cSize)) else mkRing 0 0 0 0 None.

Definition ring_at (r : ring_buffer) (ix : Z) : option T :=
  b ← pbuf r;
  if cMax r =? 0 then load b 0
  else
    let ixmod := Z.rem (ixHead r + ix + cMax r) (cMax r) in
    let ixmod := if ixmod <? 0 then Z.rem (ixmod + cMax r) (cMax r) else ixmod in
    load b ixmod.

Definition empty (r : ring_buffer) : bool := cItems r =? 0.
Definition MaxSize (r : ring_buffer) : Z := cMax r.
Definition ring_Clear (r : ring_buffer) : bool * ring_buffer := (0 <? cItems r, r <| ixHead := 0 |> <| cItems := 0 |>).
Definition Free (r : ring_buffer) : ring_buffer := mkRing 0 0 0 0 None.

Definition sum_step (r : ring_buffer) (tot : option T) (ix : nat) : option T :=
  tot ← tot; v ← ring_at r (- Z.of_nat ix); Some (tot + v)%num.
Definition Sum (r : ring_buffer) : option T := foldl (sum_step r) (Some num0) (seq 0 (Z.to_nat (cItems r))).

(** The items are copied to a new array. *)
Definition copy_step (r : ring_buffer) (cSize cCopy : Z) (p : option (list (option T))) (ix : nat) : option (list (option T)) :=
  p ← p; v ← ring_at r (- Z.of_nat ix); store p (Z.rem (- Z.of_nat ix + cCopy) cSize) v.
Definition cAlign : Z := 5.
Definition SetSize (r : ring_buffer) (cSize : Z) : option (bool * ring_buffer) :=
  if cSize <? 0 then Some (false, r)
  else if cSize =? 0 then Some (true, Free r)
  else
    let cQuantizedSize := if Z.rem cSize cAlign =? 0 then cSize else cSize + cAlign - Z.rem cSize cAlign in
    let fMustCopy := negb (cSize =? cMax r) && negb (cAlloc r =? cQuantizedSize) in
    let fMustCopy := fMustCopy || ((0 <? cItems r) && ((cSize <=? ixHead r) || (ixHead r - cItems r + 1 <? 0))) in
    if fMustCopy then
      let cNew := if cAlloc r =? 0 then cSize else cQuantizedSize in
      let cCopy := match pbuf r with Some _ => Z.min (cItems r) cSize | None => 0 end in
      p ← foldl (copy_step r cSize cCopy) (Some (new_T cNew)) (seq 0 (Z.to_nat cCopy));
      Some (true, mkRing cSize cNew (Z.rem cCopy cSize) cCopy (Some p))
    else if (cSize <? cMax r) && (0 <? cItems r) then
      Some (true, r <| ixHead := Z.rem (ixHead r) cSize |> <| cItems := Z.min (cItems r) cSize |> <| cMax := cSize |>)
    else Some (true, r <| cMax := cSize |>).

(** A full buffer overwrites its oldest item; more items than slots are an EXCEPT. *)
Definition PushZero (r : ring_buffer) : option ring_buffer :=
  if cMax r <? cItems r then None
  else
    r ← match pbuf r with Some _ => Some r | None => snd <$> SetSize r 2 end;
    if cMax r =? 0 then None
    else
      let r := r <| ixHead := Z.rem (ixHead r + 1) (cMax r) |> in
      let r := if cItems r <? cMax r then r <| cItems ::= Z.succ |> else r in
      b ← pbuf r; b ← store b (ixHead r) num0; Some (r <| pbuf := Some b |>).

Definition ring_Add (r : ring_buffer) (val : T) : option ring_buffer :=
  b ← pbuf r;
  if cMax r =? 0 then None
  else v ← load b (ixHead r); b ← store b (ixHead r) (v + val)%num; Some (r <| pbuf := Some b |>).

Fixpoint advance_loop (n : nat) (r : ring_buffer) : option ring_buffer :=
  match n with O => Some r | S n => r ← PushZero r; advance_loop n r end.
Definition ring_AdvanceBy (r : ring_buffer) (cAdvance : Z) : option ring_buffer :=
  if cMax r <=? 0 then Some r else advance_loop (Z.to_nat cAdvance) r.

(** The items that are overwritten are summed. *)
Fixpoint accum_loop (n : nat) (r : ring_buffer) (accum : T) : option (ring_buffer * T) :=
  match n with
  | O => Some (r, accum)
  | S n =>
      accum ← (if cItems r =? cMax r
               then b ← pbuf r; v ← load b (Z.rem (ixHead r + 1) (cMax r)); Some (accum + v)%num
               else Some accum);
      r ← PushZero r; accum_loop n r accum
  end.
Definition AdvanceAccum (r : ring_buffer) (cAdvance : Z) (accum : T) : option (ring_buffer * T) :=
  if cMax r <=? 0 then Some (r, accum) else accum_loop (Z.to_nat cAdvance) r accum.

(** ** stats_entry_recent *)

Record stats_entry_recent := mkRecent { value : T; recent : T; buf : ring_buffer }.
#[export] Instance recent_updatable : Updatable stats_entry_recent := fun s => mkRecent (value s) (recent s) (buf s).

Definition recent_new (cRecentMax : Z) : stats_entry_recent := mkRecent num0 num0 (ring_new cRecentMax).
Definition recent_Clear (s : stats_entry_recent) : stats_entry_recent := mkRecent num0 num0 (snd (ring_Clear (buf s))).
Definition ClearRecent (s : stats_entry_recent) : stats_entry_recent := mkRecent (value s) num0 (snd (ring_Clear (buf s))).

Definition recent_Add (s : stats_entry_recent) (val : T) : option stats_entry_recent :=
  let s := s <| value ::= (fun x => x + val)%num |> <| recent ::= (fun x => x + val)%num |> in
  if 0 <? MaxSize (buf s) then
    b ← (if empty (buf s) then PushZero (buf s) else Some (buf s));
    b ← ring_Add b val; Some (s <| buf := b |>)
  else Some s.
Definition recent_Set (s : stats_entry_recent) (val : T) : option stats_entry_recent := recent_Add s (val - value s)%num.

(** The general [AdvanceBy], and the one of the simple types. *)
Definition AdvanceBy (s : stats_entry_recent) (cSlots : Z) : option stats_entry_recent :=
  if cSlots <=? 0 then Some s
  else b ← ring_AdvanceBy (buf s) cSlots; t ← Sum b; Some (s <| buf := b |> <| recent := t |>).
Definition AdvanceAndSub (s : stats_entry_recent) (cSlots : Z) : option stats_entry_recent :=
  if cSlots <? MaxSize (buf s) then
    '(b, accum) ← AdvanceAccum (buf s) cSlots num0; Some (s <| buf := b |> <| recent ::= (fun x => x - accum)%num |>)
  else Some (s <| recent := num0 |> <| buf ::= (fun b => snd (ring_Clear b)) |>).

Definition SetWindowSize (s : stats_entry_recent) (size : Z) : option stats_entry_recent :=
  if MaxSize (buf s) =? size then Some s
  else '(_, b) ← SetSize (buf s) size; t ← Sum b; Some (s <| buf := b |> <| recent := t |>).
End Ring.
Arguments ring_buffer T : clear implicits.
Arguments stats_entry_recent T : clear implicits.

(** ** The ring buffer as a list

    The items of the buffer, the latest first. *)

(** The place of the item of age [k]. *)
Definition back (h n k : Z) : Z := if k <=? h then h - k else h - k + n.
Lemma back_rem h n k : 0 ≤ h < n → 0 ≤ k ≤ n → Z.rem (h - k + n) n = back h n k.
Proof.
  intros Hh Hk. unfold back. rewrite Z.rem_mod_nonneg by lia. destruct (Z.leb_spec k h); [|apply Z.mod_small; lia].
  rewrite <-(Z.mod_small (h - k) n) at 2 by lia. rewrite <-(Z.mod_add (h - k) 1 n) by lia. f_equal. lia.
Qed.
Ltac unback := unfold back in *; repeat match goal with |- context [?a <=? ?b] => destruct (Z.leb_spec a b) | H : context [?a <=? ?b] |- _ => destruct (Z.leb_spec a b) end; try lia.
Lemma back_0 h n : 0 ≤ h → back h n (Z.of_nat 0) = h.
Proof. intros. unback. Qed.

Section Refinement.
Context {T : Type} `{Num T}.
Implicit Types (r : ring_buffer T) (l : list T) (b : list (option T)).

(** The array holds each item of the list at its place, and nothing else is read. *)
Definition holds_items b (h n : Z) l : Prop :=
  ∀ k v, l !! k = Some v → b !! Z.to_nat (back h n (Z.of_nat k)) = Some (Some v).
Record allocated r l b : Prop := {
  al_pbuf : pbuf r = Some b;
  al_length : Z.of_nat (length b) = cAlloc r;
  al_max : 0 < cMax r ≤ cAlloc r;
  al_head : 0 ≤ ixHead r < cMax r;
  al_items : cItems r = Z.of_nat (length l);
  al_room : Z.of_nat (length l) ≤ cMax r;
  al_empty : l = [] → ixHead r = 0;
  al_at : holds_items b (ixHead r) (cMax r) l;
}.
Definition ring_ok r l : Prop := (r = mkRing 0 0 0 0 None ∧ l = []) ∨ ∃ b, allocated r l b.

Lemma load_at b i v : b !! Z.to_nat i = Some (Some v) → 0 ≤ i → load b i = Some v.
Proof. intros E Hi. unfold load. rewrite (proj2 (Z.leb_le 0 i) Hi), E. done. Qed.
Lemma slot_store_ok b i v : 0 ≤ i < Z.of_nat (length b) → store b i v = Some (<[Z.to_nat i := Some v]> b).
Proof. intros Hi. unfold store. rewrite (proj2 (Z.leb_le _ _)), (proj2 (Z.ltb_lt _ _)) by lia. done. Qed.

Lemma ring_new_ok n : ring_ok (ring_new n) [].
Proof.
  unfold ring_new. destruct (Z.ltb_spec 0 n); [right|by left]. eexists. split; cbn; try done; try lia.
  unfold new_T. rewrite length_replicate. lia.
Qed.
Lemma ring_items r l : ring_ok r l → cItems r = Z.of_nat (length l) ∧ Z.of_nat (length l) ≤ cMax r.
Proof. intros [[-> ->]|[b A]]; [done|]. split; apply A. Qed.
Lemma ring_at_ok r l k v : ring_ok r l → l !! k = Some v → ring_at r (- Z.of_nat k) = Some v.
Proof.
  intros [[_ ->]|[b [Hp Hl Hm Hh Hi Hr _ Ha]]] Hk; [done|]. unfold ring_at. rewrite Hp. cbn [mbind option_bind].
  pose proof (lookup_lt_Some _ _ _ Hk). rewrite (proj2 (Z.eqb_neq (cMax r) 0)) by lia. cbv zeta.
  rewrite Z.add_opp_r, back_rem by lia. rewrite (proj2 (Z.ltb_ge _ 0)) by unback. apply load_at; [by apply Ha|unback].
Qed.
Lemma ring_Clear_ok r l : ring_ok r l → ring_ok (snd (ring_Clear r)) [].
Proof. intros [[-> ->]|[b []]]; [by left|right]. exists b. split; cbn; try done; lia. Qed.

(** *** The sum *)

Definition lsum l : T := foldr num_add num0 l.
Lemma Sum_foldl r l : ring_ok r l → ∀ n j a, (j + n ≤ length l)%nat →
  foldl (sum_step r) (Some a) (seq j n) = Some (foldl num_add a (take n (drop j l))).
Proof.
  intros Hok. induction n as [|n IH]; intros j a Hn; [done|]. cbn [seq foldl].
  destruct (lookup_lt_is_Some_2 l j) as [v Hv]; [lia|]. rewrite (drop_S _ _ _ Hv). cbn [take foldl].
  unfold sum_step at 2. cbn [mbind option_bind]. rewrite (ring_at_ok _ _ _ _ Hok Hv). cbn [mbind option_bind]. apply IH. lia.
Qed.
Lemma foldl_lsum `{!NumLaws T} l : ∀ a, foldl num_add a l = (a + lsum l)%num.
Proof.
  induction l as [|v l IH]; intros a; cbn [foldl lsum foldr]; [by rewrite num_add_comm, num_add_0|].
  by rewrite IH, num_add_assoc.
Qed.
Lemma Sum_ok `{!NumLaws T} r l : ring_ok r l → Sum r = Some (lsum l).
Proof.
  intros Hok. unfold Sum. destruct (ring_items _ _ Hok) as [-> _]. rewrite Nat2Z.id, (Sum_foldl _ _ Hok) by lia.
  by rewrite drop_0, firstn_all, foldl_lsum, num_add_0.
Qed.

Lemma lsum_snoc `{!NumLaws T} l v : lsum (l ++ [v]) = (lsum l + v)%num.
Proof.
  induction l as [|x l IH]; cbn [app lsum foldr]; [apply num_add_comm|]. unfold lsum in IH. by rewrite IH, num_add_assoc.
Qed.
Lemma snoc_split l : (0 < length l)%nat → ∃ l' x, l = l' ++ [x].
Proof. intros Hl. destruct l as [|x l' _] using rev_ind; [cbn in Hl; lia|eauto]. Qed.

(** *** Storing *)

Lemma PushZero_ok r l : ring_ok r l → 0 < cMax r →
  ∃ r', PushZero r = Some r' ∧ cMax r' = cMax r ∧ ring_ok r' (take (Z.to_nat (cMax r)) (num0 :: l)).
Proof.
  intros [[-> _]|[b [Hp Hl Hm Hh Hi Hr He Ha]]] Hpos; [done|]. destruct r as [m a h0 c p]. cbn in *. subst p c.
  set (h := Z.rem (h0 + 1) m).
  assert (h = if h0 + 1 =? m then 0 else h0 + 1) as Hh'.
  { unfold h. rewrite Z.rem_mod_nonneg by lia. destruct (Z.eqb_spec (h0 + 1) m) as [->|]; [by rewrite Z.mod_same by lia|apply Z.mod_small; lia]. }
  assert (0 ≤ h < m) by (rewrite Hh'; destruct (Z.eqb_spec (h0 + 1) m); lia).
  exists (mkRing m a h (Z.min (Z.of_nat (length l) + 1) m) (Some (<[Z.to_nat h := Some num0]> b))).
  refine (conj _ (conj eq_refl _)).
  { unfold PushZero. cbn. rewrite (proj2 (Z.ltb_ge _ _)), (proj2 (Z.eqb_neq _ _)) by lia. fold h.
    destruct (Z.ltb_spec (Z.of_nat (length l)) m); cbn; (rewrite slot_store_ok by lia); unfold field_update; cbn; do 2 f_equal; lia. }
  right. eexists. split; cbn [pbuf cMax cAlloc ixHead cItems]; [done|by rewrite length_insert|done|done| | | |].
  - rewrite length_take, length_cons. lia.
  - rewrite length_take. lia.
  - intros E. apply (f_equal length) in E. rewrite length_take, length_cons, length_nil in E. lia.
  - intros k v [Hk Hlt]%lookup_take_Some. destruct k as [|k].
    + injection Hk as <-. rewrite back_0 by lia. apply list_lookup_insert_eq. lia.
    + cbn in Hk. specialize (Ha k v Hk). rewrite list_lookup_insert_ne, <-Ha; [f_equal|]; destruct (Z.eqb_spec (h0 + 1) m); unback.
Qed.

Lemma ring_Add_ok r v l val : ring_ok r (v :: l) → ∃ r', ring_Add r val = Some r' ∧ cMax r' = cMax r ∧ ring_ok r' ((v + val)%num :: l).
Proof.
  intros [[_ ?]|[b [Hp Hl Hm Hh Hi Hr He Ha]]]; [done|]. destruct r as [m a h c p]. cbn in *. subst p c.
  pose proof (Ha 0%nat v eq_refl) as H0. rewrite back_0 in H0 by lia.
  exists (mkRing m a h (Z.of_nat (S (length l))) (Some (<[Z.to_nat h := Some (v + val)%num]> b))). refine (conj _ (conj eq_refl _)).
  { unfold ring_Add. cbn. rewrite (proj2 (Z.eqb_neq _ _)) by lia. rewrite (load_at _ _ _ H0) by lia. cbn. rewrite slot_store_ok by lia. done. }
  right. eexists. split; cbn; [done|by rewrite length_insert|done|done|done|done|done|].
  intros k w Hk. destruct k as [|k].
  - injection Hk as <-. rewrite back_0 by lia. apply list_lookup_insert_eq. lia.
  - pose proof (lookup_lt_Some _ _ _ Hk). cbn in *. rewrite list_lookup_insert_ne; [by apply (Ha (S k))|unback].
Qed.

Definition shift (w : Z) (n : nat) l : list T := take (Z.to_nat w) (replicate n num0 ++ l).
Lemma shift_S w n l : shift w n (take (Z.to_nat w) (num0 :: l)) = shift w (S n) l.
Proof.
  unfold shift. rewrite replicate_S_end, <-app_assoc, (take_app (replicate n _) (take _ _)), take_take, (take_app (replicate n _)).
  do 2 f_equal. lia.
Qed.

Lemma advance_loop_ok n : ∀ r l, ring_ok r l → 0 < cMax r →
  ∃ r', advance_loop n r = Some r' ∧ cMax r' = cMax r ∧ ring_ok r' (shift (cMax r) n l).
Proof.
  induction n as [|n IH]; intros r l Hok Hm; cbn [advance_loop].
  { exists r. refine (conj eq_refl (conj eq_refl _)). unfold shift. cbn. rewrite take_ge; [done|]. destruct (ring_items _ _ Hok). lia. }
  destruct (PushZero_ok _ _ Hok Hm) as (r1 & E1 & M1 & Hok1). rewrite E1. cbn [mbind option_bind].
  destruct (IH r1 _ Hok1) as (r2 & E2 & M2 & Hok2); [lia|]. exists r2. rewrite M1 in *. refine (conj E2 (conj M2 _)). by rewrite <-shift_S.
Qed.
Lemma ring_AdvanceBy_ok r l n : ring_ok r l → ∃ r', ring_AdvanceBy r n = Some r' ∧ cMax r' = cMax r ∧ ring_ok r' (shift (cMax r) (Z.to_nat n) l).
Proof.
  intros Hok. unfold ring_AdvanceBy. destruct (Z.leb_spec (cMax r) 0) as [Hm|Hm]; [|by apply advance_loop_ok].
  exists r. refine (conj eq_refl (conj eq_refl _)). unfold shift. destruct (ring_items _ _ Hok). destruct l; [|cbn in *; lia].
  by replace (Z.to_nat (cMax r)) with 0%nat by lia.
Qed.

(** What [AdvanceAccum] adds up is what leaves the window. *)
Lemma accum_loop_ok `{!NumLaws T} n : ∀ r l a, ring_ok r l → 0 < cMax r → ∃ r' a', accum_loop n r a = Some (r', a') ∧ cMax r' = cMax r ∧
  ring_ok r' (shift (cMax r) n l) ∧ (a' + lsum (shift (cMax r) n l) = a + lsum l)%num.
Proof.
  induction n as [|n IH]; intros r l a Hok Hm; cbn [accum_loop].
  { exists r, a. destruct (ring_items _ _ Hok). unfold shift. cbn [replicate app]. rewrite take_ge by lia. done. }
  destruct (PushZero_ok _ _ Hok Hm) as (r1 & E1 & M1 & Hok1). rewrite E1.
  assert (∃ a1, (if cItems r =? cMax r then b ← pbuf r; v ← load b (Z.rem (ixHead r + 1) (cMax r)); Some (a + v)%num else Some a) = Some a1 ∧
    (a1 + lsum (take (Z.to_nat (cMax r)) (num0 :: l)) = a + lsum l)%num) as (a1 & Ea & Hs).
  { destruct (Z.eqb_spec (cItems r) (cMax r)) as [Hf|Hf].
    - destruct Hok as [[-> _]|[b [Hp Hl Hm' Hh Hi Hr He Ha]]]; [done|]. rewrite Hp. cbn [mbind option_bind].
      destruct (snoc_split l) as (l' & x & ->); [lia|]. rewrite length_app in *. cbn [length] in *.
      rewrite (load_at _ _ x).
      + cbn. eexists. split; [done|]. rewrite app_comm_cons, take_app_length' by (cbn; lia). rewrite lsum_snoc. cbn. rewrite num_add_0.
        rewrite <-num_add_assoc. f_equal. apply num_add_comm.
      + rewrite <-(Ha (length l') x) by (by rewrite list_lookup_middle). f_equal. f_equal. rewrite <-back_rem by lia. f_equal. lia.
      + apply Z.rem_nonneg; lia.
    - destruct (ring_items _ _ Hok). eexists. split; [done|]. rewrite take_ge by (cbn; lia). cbn. by rewrite num_add_0. }
  rewrite Ea. cbn [mbind option_bind]. destruct (IH r1 _ a1 Hok1) as (r2 & a2 & E2 & M2 & Hok2 & Hs2); [lia|]. rewrite M1 in *.
  rewrite shift_S in *. exists r2, a2. refine (conj E2 (conj M2 (conj Hok2 _))). congruence.
Qed.

(** *** Another size *)

Lemma rem_copy n c : 0 < n → 0 ≤ c ≤ n → Z.rem c n = if c =? n then 0 else c.
Proof.
  intros Hn Hc. rewrite Z.rem_mod_nonneg by lia. destruct (Z.eqb_spec c n) as [->|]; [by rewrite Z.mod_same by lia|apply Z.mod_small; lia].
Qed.
Lemma copy_place n c k : 0 < n → 0 ≤ k < c → c ≤ n → Z.rem (- k + c) n = back (Z.rem c n) n k.
Proof.
  intros Hn Hk Hc. rewrite !rem_copy by lia. destruct (Z.eqb_spec c n); destruct (Z.eqb_spec (- k + c) n); unback.
Qed.
Lemma copy_loop_ok r l n c : ring_ok r l → 0 < n → Z.of_nat c ≤ n → (c ≤ length l)%nat → ∀ len j p, (j + len ≤ c)%nat → n ≤ Z.of_nat (length p) →
  ∃ p', foldl (copy_step r n (Z.of_nat c)) (Some p) (seq j len) = Some p' ∧ length p' = length p ∧
    (∀ k v, (j ≤ k < j + len)%nat → l !! k = Some v → p' !! Z.to_nat (back (Z.rem (Z.of_nat c) n) n (Z.of_nat k)) = Some (Some v)) ∧
    (∀ k, (k < j)%nat → p' !! Z.to_nat (back (Z.rem (Z.of_nat c) n) n (Z.of_nat k)) = p !! Z.to_nat (back (Z.rem (Z.of_nat c) n) n (Z.of_nat k))).
Proof.
  intros Hok Hn Hc Hl. induction len as [|len IH]; intros j p Hj Hp; cbn [seq foldl].
  { exists p. refine (conj eq_refl (conj eq_refl (conj _ _))); [|done]. intros. lia. }
  destruct (lookup_lt_is_Some_2 l j) as [v Hv]; [lia|].
  unfold copy_step at 2. cbn [mbind option_bind]. rewrite (ring_at_ok _ _ _ _ Hok Hv). cbn [mbind option_bind].
  assert (0 ≤ Z.rem (Z.of_nat c) n < n) as Hrem by (rewrite rem_copy by lia; destruct (Z.eqb_spec (Z.of_nat c) n); lia).
  rewrite copy_place by lia. rewrite slot_store_ok by unback.
  destruct (IH (S j) (<[Z.to_nat (back (Z.rem (Z.of_nat c) n) n (Z.of_nat j)) := Some v]> p)) as (p' & E & Lp & H1 & H2); [lia|by rewrite length_insert|].
  exists p'. rewrite length_insert in Lp. refine (conj E (conj Lp (conj _ _))).
  - intros k w Hk Hw. destruct (decide (k = j)) as [->|]; [|apply H1; [lia|done]]. rewrite H2 by lia. simplify_eq.
    apply list_lookup_insert_eq. unback.
  - intros k Hk. rewrite H2 by lia. apply list_lookup_insert_ne. unback.
Qed.

Lemma quantized_le cSize : 0 < cSize → cSize ≤ (if Z.rem cSize cAlign =? 0 then cSize else cSize + cAlign - Z.rem cSize cAlign).
Proof. intros. destruct (_ =? _); [lia|]. pose proof (Z.rem_bound_pos cSize cAlign). unfold cAlign in *. lia. Qed.

Lemma SetSize_ok r l n : ring_ok r l → ∃ ok r', SetSize r n = Some (ok, r') ∧
  if n <? 0 then ok = false ∧ r' = r
  else ok = true ∧ cMax r' = n ∧ ring_ok r' (take (Z.to_nat n) l).
Proof.
  intros Hok. unfold SetSize. destruct (Z.ltb_spec n 0); [by exists false, r|].
  destruct (Z.eqb_spec n 0) as [->|Hn].
  { exists true, (Free r). refine (conj eq_refl (conj eq_refl (conj eq_refl _))). by left. }
  cbv zeta. pose proof (quantized_le n ltac:(lia)) as Hq. set (q := if Z.rem n cAlign =? 0 then _ else _) in *. clearbody q.
  exists true. destruct (_ || _) eqn:Hcopy.
  - set (cNew := if cAlloc r =? 0 then n else q).
    assert (n ≤ cNew) by (subst cNew; destruct (Z.eqb_spec (cAlloc r) 0); lia).
    replace (match pbuf r with Some _ => Z.min (cItems r) n | None => 0 end) with (Z.of_nat (length l `min` Z.to_nat n)).
    2: { destruct Hok as [[-> ->]|[b []]]; [done|]. rewrite al_pbuf0. lia. }
    set (c := (length l `min` Z.to_nat n)%nat). rewrite Nat2Z.id.
    destruct (copy_loop_ok r l n c Hok ltac:(lia) ltac:(lia) ltac:(lia) c 0 (new_T cNew)) as (p & E & Lp & Hp & _);
      [lia|unfold new_T; rewrite length_replicate; lia|]. rewrite E. cbn [mbind option_bind].
    eexists. refine (conj eq_refl (conj eq_refl (conj eq_refl _))). right. exists p.
    unfold new_T in Lp. rewrite length_replicate in Lp.
    split; cbn; rewrite ?length_take; [done|lia|lia| |lia|lia| |].
    + rewrite rem_copy by lia. destruct (Z.eqb_spec (Z.of_nat c) n); lia.
    + intros E0. apply (f_equal length) in E0. rewrite length_take, length_nil in E0. replace c with 0%nat by lia. done.
    + intros k v [Hk Hlt]%lookup_take_Some. apply lookup_lt_Some in Hk as Hlt2. apply Hp; [lia|done].
  - apply orb_false_iff in Hcopy as [Hc1 Hc2]. destruct Hok as [[-> ->]|[b [Hp Hl Hm Hh Hi Hr He Ha]]].
    { cbn [cMax cAlloc] in Hc1. apply andb_false_iff in Hc1 as [Hc|Hc]; apply negb_false_iff, Z.eqb_eq in Hc; lia. }
    destruct r as [m a h c p]. cbn in *. subst p c.
    assert (n ≤ a). { apply andb_false_iff in Hc1 as [Hc|Hc]; apply negb_false_iff, Z.eqb_eq in Hc; lia. }
    assert (l ≠ [] → h < n ∧ Z.of_nat (length l) ≤ h + 1) as Hfit.
    { intros Hne. destruct l; [done|]. cbn in Hc2. apply orb_false_iff in Hc2 as [Hc3%Z.leb_gt Hc4%Z.ltb_ge]. cbn. lia. }
    exists (mkRing n a h (Z.of_nat (length l)) (Some b)). refine (conj _ (conj eq_refl (conj eq_refl _))).
    + destruct ((n <? m) && (0 <? Z.of_nat (length l))) eqn:Hs; [|done]. apply andb_true_iff in Hs as [_ Hs%Z.ltb_lt].
      destruct Hfit; [by intros ->|]. unfold field_update. cbn. do 3 f_equal; [|lia]. rewrite Z.rem_small; lia.
    + assert (Z.of_nat (length l) ≤ n ∧ 0 ≤ h < n) as [Hln Hhn].
      { destruct l; [rewrite He by done; cbn; lia|]. destruct Hfit; [done|]. lia. }
      right. exists b. rewrite take_ge by lia. split; cbn; try done; [lia|]. intros k v Hk.
      rewrite <-(Ha k v Hk). f_equal. apply lookup_lt_Some in Hk. destruct Hfit; [by intros ->; cbn in Hk; lia|]. unback.
Qed.
End Refinement.

(** ** The statistic as a window of slots *)

Section Window.
Context {T : Type} `{NumLaws T}.
Implicit Types (s : stats_entry_recent T) (l : list T).

(** Slots beyond the end of a list are 0. *)
Definition same_slots l1 l2 : Prop := ∀ k, nth k l1 num0 = nth k l2 num0.
#[export] Instance same_slots_equiv : Equivalence same_slots.
Proof. split; [done|by intros ? ? Hs k|intros ? ? ? H1 H2 k; by rewrite H1]. Qed.

Lemma lsum_zeros l : same_slots l [] → lsum l = num0.
Proof.
  induction l as [|x l IH]; intros Hs; [done|]. pose proof (Hs 0%nat) as Hz. cbn in Hz. subst x. cbn. rewrite num_add_0.
  apply IH. intros k. specialize (Hs (S k)). by destruct k.
Qed.
#[export] Instance lsum_proper : Proper (same_slots ==> eq) (@lsum T _).
Proof.
  intros l1. induction l1 as [|x l1 IH]; intros [|y l2] Hs; [done|symmetry; by apply lsum_zeros|by apply lsum_zeros|].
  pose proof (Hs 0%nat) as Hz. cbn in Hz. subst y. cbn. f_equal. apply IH. intros k. apply (Hs (S k)).
Qed.
Lemma nth_take l n k : nth k (take n l) num0 = if (k <? n)%nat then nth k l num0 else num0.
Proof.
  rewrite !nth_lookup. destruct (Nat.ltb_spec k n); [by rewrite lookup_take_lt|]. by rewrite lookup_take_ge.
Qed.
#[export] Instance take_proper n : Proper (same_slots ==> same_slots) (take n).
Proof. intros l1 l2 Hs k. rewrite !nth_take. by destruct (_ <? _)%nat. Qed.
Lemma nth_shift w n l k : nth k (shift w n l) num0 = if (k <? Z.to_nat w)%nat then (if (k <? n)%nat then num0 else nth (k - n) l num0) else num0.
Proof.
  unfold shift. rewrite nth_take. destruct (k <? _)%nat; [|done]. rewrite !nth_lookup.
  destruct (Nat.ltb_spec k n).
  - rewrite lookup_app_l, lookup_replicate_2 by (rewrite ?length_replicate; lia). done.
  - rewrite lookup_app_r, length_replicate by (rewrite length_replicate; lia). done.
Qed.
#[export] Instance shift_proper w n : Proper (same_slots ==> same_slots) (shift w n).
Proof. intros l1 l2 Hs k. rewrite !nth_shift. by rewrite Hs. Qed.

(** Adding to the current slot. *)
Definition add_slot (v : T) l : list T := match l with [] => [v] | x :: l => (x + v)%num :: l end.
Lemma nth_add_slot v l k : nth k (add_slot v l) num0 = if (k =? 0)%nat then (nth 0 l num0 + v)%num else nth k l num0.
Proof. destruct l as [|x l], k as [|k]; cbn; rewrite ?num_add_0; try done. by destruct k. Qed.
#[export] Instance add_slot_proper v : Proper (same_slots ==> same_slots) (add_slot v).
Proof. intros l1 l2 Hs k. rewrite !nth_add_slot. by rewrite !Hs. Qed.
Lemma lsum_add_slot v l : lsum (add_slot v l) = (lsum l + v)%num.
Proof.
  destruct l as [|x l]; cbn; [apply num_add_comm|]. fold (lsum l). rewrite <-!num_add_assoc. f_equal. apply num_add_comm.
Qed.

(** *** The specification

    The sum of all time, the number of slots and the slots, the current one first.  Without a
    window there is one slot, which an advance or a new window forgets. *)
Record window := mkWindow { w_total : T; w_width : Z; w_slots : list T }.
Definition w_recent (w : window) : T := lsum (w_slots w).
Inductive recent_op := OpAdd (v : T) | OpSet (v : T) | OpAdvance (n : Z) | OpWindow (n : Z) | OpClear | OpClearRecent.
Definition w_add (w : window) (v : T) : window := mkWindow (w_total w + v)%num (w_width w) (add_slot v (w_slots w)).
Definition w_resize (w : window) (n : Z) : window :=
  if w_width w =? n then w
  else if n <? 0 then mkWindow (w_total w) (w_width w) (if w_width w =? 0 then [] else w_slots w)
  else mkWindow (w_total w) n (if w_width w =? 0 then [] else take (Z.to_nat n) (w_slots w)).
Definition w_step (w : window) (op : recent_op) : window :=
  match op with
  | OpAdd v => w_add w v
  | OpSet v => w_add w (v - w_total w)%num
  | OpAdvance n => mkWindow (w_total w) (w_width w) (shift (w_width w) (Z.to_nat n) (w_slots w))
  | OpWindow n => w_resize w n
  | OpClear => mkWindow num0 (w_width w) []
  | OpClearRecent => mkWindow (w_total w) (w_width w) []
  end.

(** The statistic, with one of the two ways to advance. *)
Definition run_recent (advance : stats_entry_recent T → Z → option (stats_entry_recent T)) (s : stats_entry_recent T) (op : recent_op)
    : option (stats_entry_recent T) :=
  match op with
  | OpAdd v => recent_Add s v
  | OpSet v => recent_Set s v
  | OpAdvance n => advance s n
  | OpWindow n => SetWindowSize s n
  | OpClear => Some (recent_Clear s)
  | OpClearRecent => Some (ClearRecent s)
  end.
Fixpoint run_recents advance (s : stats_entry_recent T) (ops : list recent_op) : option (stats_entry_recent T) :=
  match ops with [] => Some s | op :: ops => s ← run_recent advance s op; run_recents advance s ops end.

Record shows s (w : window) : Prop := {
  sh_value : value s = w_total w;
  sh_recent : recent s = w_recent w;
  sh_width : cMax (buf s) = w_width w;
  sh_buf : ∃ l, ring_ok (buf s) l ∧ (0 < w_width w → same_slots l (w_slots w));
}.
Lemma shows_new n : 0 ≤ n → shows (recent_new n) (mkWindow num0 n []).
Proof.
  intros Hn. split; cbn; [done|done| |exists []; split; [apply ring_new_ok|done]]. unfold ring_new. destruct (Z.ltb_spec 0 n); cbn; lia.
Qed.
Lemma shows_width s w : shows s w → 0 ≤ w_width w.
Proof. intros [_ _ <- (l & Hl & _)]. destruct (ring_items _ _ Hl). lia. Qed.

Lemma Add_shows s w v : shows s w → ∃ s', recent_Add s v = Some s' ∧ shows s' (w_add w v).
Proof.
  intros [Hv Hr Hw (l & Hl & Hs)]. unfold recent_Add. destruct s as [val rec b]. cbn in *. subst val rec.
  assert ((w_recent w + v)%num = w_recent (w_add w v)) as Er by (unfold w_recent; cbn [w_add w_slots]; by rewrite lsum_add_slot).
  unfold MaxSize. destruct (Z.ltb_spec 0 (cMax b)) as [Hp|Hp].
  - specialize (Hs ltac:(lia)).
    assert (∃ b1 x l1, (if empty b then PushZero b else Some b) = Some b1 ∧ cMax b1 = cMax b ∧ ring_ok b1 (x :: l1) ∧ same_slots (x :: l1) l)
      as (b1 & x & l1 & E1 & M1 & Hl1 & Hs1).
    { unfold empty. destruct (ring_items _ _ Hl) as [Hi _]. destruct l as [|x l1].
      - rewrite Hi. cbn. destruct (PushZero_ok b [] Hl Hp) as (b1 & E1 & M1 & H1). destruct (Z.to_nat (cMax b)) as [|m] eqn:Em; [lia|].
        cbn in H1. rewrite take_nil in H1. exists b1, num0, []. refine (conj E1 (conj M1 (conj H1 _))). intros [|[|k]]; done.
      - exists b, x, l1. rewrite (proj2 (Z.eqb_neq _ _)) by (rewrite Hi; cbn; lia). done. }
    rewrite E1. cbn. destruct (ring_Add_ok b1 x l1 v Hl1) as (b2 & E2 & M2 & Hl2). rewrite E2. cbn.
    eexists. split; [done|]. split; cbn; [done|done|congruence|]. exists ((x + v)%num :: l1). split; [done|]. intros _.
    change (same_slots (add_slot v (x :: l1)) (add_slot v (w_slots w))). by rewrite Hs1, Hs.
  - eexists. split; [done|]. split; cbn; [done|done|done|]. exists l. split; [done|]. lia.
Qed.

Lemma AdvanceBy_shows s w n : shows s w → 0 < n → ∃ s', AdvanceBy s n = Some s' ∧ shows s' (w_step w (OpAdvance n)).
Proof.
  intros Hsh Hn. pose proof (shows_width _ _ Hsh). destruct Hsh as [Hv Hr Hw (l & Hl & Hs)].
  unfold AdvanceBy. rewrite (proj2 (Z.leb_gt _ _)) by lia.
  destruct (ring_AdvanceBy_ok (buf s) l n Hl) as (b & E & M & Hb). rewrite E. cbn [mbind option_bind]. rewrite (Sum_ok b _ Hb). cbn [mbind option_bind].
  assert (same_slots (shift (cMax (buf s)) (Z.to_nat n) l) (shift (w_width w) (Z.to_nat n) (w_slots w))) as Hss.
  { rewrite Hw. destruct (decide (0 < w_width w)); [by rewrite Hs|]. unfold shift. replace (Z.to_nat (w_width w)) with 0%nat by lia. done. }
  eexists. split; [done|]. split; cbn -[lsum shift]; [done|by rewrite Hss|congruence|]. eexists. split; [done|]. by intros _.
Qed.

Lemma AdvanceAndSub_shows `{!SubLaws T} s w n : shows s w → 0 < n → ∃ s', AdvanceAndSub s n = Some s' ∧ shows s' (w_step w (OpAdvance n)).
Proof.
  intros Hsh Hn. pose proof (shows_width _ _ Hsh). destruct Hsh as [Hv Hr Hw (l & Hl & Hs)].
  unfold AdvanceAndSub, MaxSize. destruct (Z.ltb_spec n (cMax (buf s))) as [Hlt|Hge].
  - specialize (Hs ltac:(lia)). unfold AdvanceAccum. rewrite (proj2 (Z.leb_gt _ _)) by lia.
    destruct (accum_loop_ok (Z.to_nat n) (buf s) l num0 Hl) as (b & a & E & M & Hb & Hsum); [lia|]. rewrite E. cbn [mbind option_bind].
    rewrite num_add_0 in Hsum. rewrite Hw in *.
    eexists. split; [done|]. split; cbn -[lsum shift]; [done| |done|].
    + rewrite Hr. unfold w_recent. cbn [w_slots]. rewrite <-Hs, <-Hsum, num_add_comm, num_sub_add. done.
    + eexists. split; [done|]. intros _. by rewrite Hs.
  - assert (same_slots (shift (w_width w) (Z.to_nat n) (w_slots w)) []) as Hz.
    { intros k. rewrite nth_shift. destruct (Nat.ltb_spec k (Z.to_nat (w_width w))); [|by destruct k].
      rewrite (proj2 (Nat.ltb_lt _ _)) by lia. by destruct k. }
    eexists. split; [done|]. split; cbn -[lsum shift]; [done|unfold w_recent; cbn [w_slots]; by rewrite Hz|done|].
    exists []. split; [by eapply ring_Clear_ok|]. intros _. by rewrite Hz.
Qed.

Lemma SetWindowSize_shows s w n : shows s w → ∃ s', SetWindowSize s n = Some s' ∧ shows s' (w_step w (OpWindow n)).
Proof.
  intros Hsh. pose proof (shows_width _ _ Hsh). destruct Hsh as [Hv Hr Hw (l & Hl & Hs)].
  unfold SetWindowSize, MaxSize. cbn [w_step]. unfold w_resize. rewrite Hw. destruct (Z.eqb_spec (w_width w) n) as [<-|Hne].
  { exists s. split; [done|]. split; [done..|by exists l]. }
  destruct (SetSize_ok (buf s) l n Hl) as (ok & b & E & Hb). rewrite E. cbn [mbind option_bind].
  assert (w_width w = 0 → l = []) as Hnil by (intros; destruct (ring_items _ _ Hl); destruct l; [done|cbn in *; lia]).
  destruct (Z.ltb_spec n 0).
  - destruct Hb as [-> ->]. rewrite (Sum_ok _ _ Hl). cbn [mbind option_bind]. eexists. split; [done|].
    assert (same_slots l (if w_width w =? 0 then [] else w_slots w)) as Hss.
    { destruct (Z.eqb_spec (w_width w) 0); [by rewrite Hnil|apply Hs; lia]. }
    split; cbn -[lsum]; [done|by rewrite Hss|done|]. exists l. by split.
  - destruct Hb as (-> & M & Hb). rewrite (Sum_ok _ _ Hb). cbn [mbind option_bind]. eexists. split; [done|].
    assert (same_slots (take (Z.to_nat n) l) (if w_width w =? 0 then [] else take (Z.to_nat n) (w_slots w))) as Hss.
    { destruct (Z.eqb_spec (w_width w) 0); [by rewrite Hnil, take_nil|]. rewrite Hs; [done|lia]. }
    split; cbn -[lsum]; [done|by rewrite Hss|done|]. eexists. split; [done|]. by intros _.
Qed.

Lemma Clear_shows s w : shows s w → shows (recent_Clear s) (w_step w OpClear) ∧ shows (ClearRecent s) (w_step w OpClearRecent).
Proof.
  intros [Hv Hr Hw (l & Hl & _)]. split; split; cbn; try done; (exists []; split; [by eapply ring_Clear_ok|done]).
Qed.

(** Advances are by at least one slot, as [StatisticsPool::Advance] makes them. *)
Definition op_ok (op : recent_op) : Prop := match op with OpAdvance n => 0 < n | _ => True end.
Lemma run_shows advance (Hadv : ∀ s w n, shows s w → 0 < n → ∃ s', advance s n = Some s' ∧ shows s' (w_step w (OpAdvance n))) ops :
  ∀ s w, Forall op_ok ops → shows s w → ∃ s', run_recents advance s ops = Some s' ∧ shows s' (foldl w_step w ops).
Proof.
  induction ops as [|op ops IH]; intros s w Hops Hsh; [by exists s|]. apply Forall_cons_1 in Hops as [Hop Hops]. cbn [run_recents foldl].
  assert (∃ s1, run_recent advance s op = Some s1 ∧ shows s1 (w_step w op)) as (s1 & E1 & H1).
  { destruct op as [v|v|n|n| |]; cbn [run_recent].
    - by apply Add_shows.
    - unfold recent_Set. rewrite (sh_value _ _ Hsh). by apply Add_shows.
    - by apply Hadv.
    - by apply SetWindowSize_shows.
    - eexists. split; [done|]. by apply Clear_shows.
    - eexists. split; [done|]. by apply Clear_shows. }
  rewrite E1. cbn [mbind option_bind]. by apply IH.
Qed.
End Window.
Arguments window T : clear implicits.
Arguments recent_op T : clear implicits.

(** ** Numbers of the statistics *)

#[export] Instance Z_Num : Num Z := { num0 := 0; num_add := Z.add; num_sub := Z.sub }.
#[export] Instance Z_NumLaws : NumLaws Z.
Proof. split; cbn; intros; lia. Qed.
#[export] Instance Z_SubLaws : SubLaws Z.
Proof. split; cbn; intros; lia. Qed.

(** The type [int], whose sums are reduced to 32 bits. *)
Definition int_t : Type := dsig in_int32.
Definition to_int (z : Z) : int_t := dexist (int32 z) (int32_range z).
#[export] Instance int_Num : Num int_t := {
  num0 := to_int 0; num_add x y := to_int (`x + `y); num_sub x y := to_int (`x - `y) }.
Lemma to_int_eq a b : (a - b) mod 2 ^ 32 = 0 → to_int a = to_int b.
Proof.
  intros E. apply dsig_eq. cbn. unfold int32, wrap. f_equal. change (32 - 1) with 31.
  replace (a + 2 ^ 31) with (b + 2 ^ 31 + (a - b)) by lia. rewrite Z.add_mod, E, Z.add_0_r, Z.mod_mod by lia. done.
Qed.
Lemma int32_mod a : ∃ k, int32 a = a + k * 2 ^ 32.
Proof.
  unfold int32, wrap. change (32 - 1) with 31. exists (- ((a + 2 ^ 31) / 2 ^ 32)). pose proof (Z.div_mod (a + 2 ^ 31) (2 ^ 32)). lia.
Qed.
Lemma to_int_id (x : int_t) : to_int (`x) = x.
Proof. apply dsig_eq. cbn. apply int32_id. exact (proj2_dsig x). Qed.
Ltac to_int_eq :=
  apply to_int_eq; repeat match goal with |- context [int32 ?a] => let k := fresh "k" in let E := fresh in destruct (int32_mod a) as [k E]; rewrite E; clear E end.
#[export] Instance int_NumLaws : NumLaws int_t.
Proof.
  split.
  - intros x y. cbn. f_equal. lia.
  - intros x y z. cbn. to_int_eq. replace (_ - _) with ((k - k0) * 2 ^ 32) by lia. apply Z.mod_mul. lia.
  - intros x. cbn. rewrite <-(to_int_id x) at 2. to_int_eq. replace (_ - _) with (k * 2 ^ 32) by lia. apply Z.mod_mul. lia.
Qed.
#[export] Instance int_SubLaws : SubLaws int_t.
Proof.
  split. intros x y. cbn. rewrite <-(to_int_id x) at 2. to_int_eq. replace (_ - _) with (k * 2 ^ 32) by lia. apply Z.mod_mul. lia.
Qed.

(** C12. The statistic of a window.  Whatever is done to a [stats_entry_recent], with the
    general [AdvanceBy] or with the [AdvanceAndSub] of the simple types, no item is read that
    was not stored, nothing is read or stored outside the buffer and no EXCEPT is
    reached; [value] is the sum of all time, and [recent] is the sum of the
    slots of the window, of which each advance drops the oldest ones. *)
Theorem recent_refines {T} `{NumLaws T} `{!SubLaws T} n (ops : list (recent_op T)) :
  0 ≤ n → Forall op_ok ops →
  let w := foldl w_step (mkWindow num0 n []) ops in
  ∃ s s', run_recents AdvanceBy (recent_new n) ops = Some s ∧ run_recents AdvanceAndSub (recent_new n) ops = Some s' ∧
    value s = w_total w ∧ recent s = w_recent w ∧ MaxSize (buf s) = w_width w ∧
    value s' = value s ∧ recent s' = recent s ∧ MaxSize (buf s') = MaxSize (buf s).
Proof.
  intros Hn Hops w.
  destruct (run_shows _ AdvanceBy_shows ops _ _ Hops (shows_new n Hn)) as (s & E & [Hv Hr Hw _]).
  destruct (run_shows _ AdvanceAndSub_shows ops _ _ Hops (shows_new n Hn)) as (s' & E' & [Hv' Hr' Hw' _]).
  exists s, s'. unfold MaxSize. split_and!; (done || congruence).
Qed.
Definition ex_ops : list (recent_op Z) :=
  [OpAdd 5; OpAdvance 1; OpAdd 7; OpAdvance 2; OpAdd 1; OpWindow 6; OpAdvance 4; OpAdd 2; OpWindow 2; OpSet 20; OpAdvance 7; OpAdd 9].
Lemma recent_refines_witness : ∃ s s' : stats_entry_recent Z, run_recents AdvanceBy (recent_new 3) ex_ops = Some s ∧
  run_recents AdvanceAndSub (recent_new 3) ex_ops = Some s' ∧ value s = 29 ∧ recent s = 9 ∧ recent s' = 9.
Proof.
  destruct (recent_refines 3 ex_ops) as (s & s' & E & E' & Hv & Hr & _ & _ & Hr' & _);
    [lia|unfold ex_ops; repeat apply Forall_cons_2; cbn; lia || by constructor|].
  exists s, s'. refine (conj E (conj E' (conj Hv (conj Hr _)))). by rewrite Hr', Hr.
Defined.
