(* ===== verification/Stats.v ===== *)
(** * Statistics of the daemons

    From [condor_utils/generic_stats.h] and [generic_stats.cpp]: the clock of the
    windows ([generic_stats_Tick]) and the class [StatisticsPool], a collection of
    statistics that are advanced, cleared and published together; from
    [condor_daemon_core.V6/self_monitor.cpp] the class [DaemonCore::Stats], which
    keeps the statistics of a daemon in such a pool. *)

From Stdlib Require Import Ascii Sorting.Sorted.
From stdpp Require Import base gmap list numbers strings.
From S2P Require Import Prelude MyString RingBuffer.
Open Scope Z_scope.

(** ** The clock *)

Record tick_times := mkTick { LastUpdateTime : Z; RecentTickTime : Z; Lifetime : Z; RecentLifetime : Z }.

(** The number of slots to advance by, with the new times; a quantum of 0 divides by
    zero.  [clock] is what [time] gives. *)
Definition generic_stats_Tick (clock now RecentMaxTime RecentQuantum InitTime : Z) (t : tick_times) : option (Z * tick_times) :=
  let now := if now =? 0 then clock else now in
  if LastUpdateTime t =? 0 then Some (0, mkTick now now (Lifetime t) 0)
  else
    '(cTicks, t) ←
      (if LastUpdateTime t =? now then Some (0, t)
       else
         let delta := now - RecentTickTime t in
         '(cTicks, tickTime) ←
           (if RecentQuantum <=? delta
            then if RecentQuantum =? 0 then None
                 else Some (int32 (Z.quot delta RecentQuantum), now - Z.rem delta RecentQuantum)
            else Some (0, RecentTickTime t));
         let recent_time := int32 (RecentLifetime t + now - LastUpdateTime t) in
         Some (cTicks, mkTick now tickTime (Lifetime t) (if recent_time <? RecentMaxTime then recent_time else RecentMaxTime)));
    Some (cTicks, mkTick (LastUpdateTime t) (RecentTickTime t) (now - InitTime) (RecentLifetime t)).

(** ** The pool *)

Definition IF_PUBLEVEL : Z := 0x0030000.
Definition IF_RECENTPUB : Z := 0x0040000.
Definition IF_DEBUGPUB : Z := 0x0080000.
Definition IF_PUBKIND : Z := 0x0F00000.
Definition IF_NONZERO : Z := 0x1000000.

Section Pool.
(** The statistics, which have different classes, and the ads they are published in.  A
    member function of a class that is called for an object of another class fails. *)
Context {P A : Type}.

(** The members of a class that the pool uses. *)
Record ProbeClass := mkClass {
  cls_unit : Z;
  cls_new : P;
  cls_Publish : P → A → cstr → Z → option A;
  cls_Unpublish : P → A → cstr → option A;
  GetFnAdvance : option (P → Z → option P);
  cls_Clear : P → option P;
  GetFnSetRecentMax : option (P → Z → option P);
}.
Record pubitem := mkPub {
  pub_units : Z; pub_flags : Z; pub_owned : bool; pitem : Z; pattr : option cstr;
  Publish_fn : P → A → cstr → Z → option A; Unpublish_fn : P → A → cstr → option A;
}.
Record poolitem := mkItem {
  item_units : Z; item_owned : bool;
  Advance_fn : option (P → Z → option P); Clear_fn : P → option P; SetRecentMax_fn : option (P → Z → option P);
  Delete_fn : bool;
}.
(** The two tables; [objects] are the statistics that exist, by their addresses. *)
Record StatisticsPool := mkPool { pub : gmap cstr pubitem; pool : gmap Z poolitem; objects : gmap Z P }.
#[export] Instance pool_updatable : Updatable StatisticsPool := fun s => mkPool (pub s) (pool s) (objects s).

(** The address of the object with the name.  [GetProbe] makes it a pointer to the class it
    was asked for, without a check: what is done with this pointer goes through
    [of_probe] below, and fails for an object of another class. *)
Definition GetProbe (name : cstr) (s : StatisticsPool) : option Z := pitem <$> pub s !! name.
Definition InsertPublish (name : cstr) (c : ProbeClass) (probe : Z) (fOwned : bool) (attr : option cstr) (flags : Z)
    (s : StatisticsPool) : StatisticsPool :=
  s <| pub ::= <[name := mkPub (cls_unit c) flags fOwned probe attr (cls_Publish c) (cls_Unpublish c)]> |>.
Definition InsertProbe (name : cstr) (c : ProbeClass) (probe : Z) (fOwned : bool) (attr : option cstr) (flags : Z)
    (s : StatisticsPool) : StatisticsPool :=
  InsertPublish name c probe fOwned attr flags s
    <| pool ::= <[probe := mkItem (cls_unit c) fOwned (GetFnAdvance c) (cls_Clear c) (GetFnSetRecentMax c) fOwned]> |>.

(** [new T()] gives an address that is not 0 and not in use. *)
Definition new_address (s : StatisticsPool) : Z := 1 + foldr Z.max 0 (map_to_list (objects s)).*1.
Definition NewProbe (name : cstr) (c : ProbeClass) (attr : option cstr) (flags : Z) (s : StatisticsPool) : Z * StatisticsPool :=
  match GetProbe name s with
  | Some probe => (probe, s)
  | None =>
      let probe := new_address s in
      (probe, InsertProbe name c probe true attr flags (s <| objects ::= <[probe := cls_new c]> |>))
  end.
Definition AddProbe (name : cstr) (c : ProbeClass) (probe : Z) (attr : option cstr) (flags : Z) (s : StatisticsPool) : Z * StatisticsPool :=
  match GetProbe name s with Some probeExist => (probeExist, s) | None => (probe, InsertProbe name c probe false attr flags s) end.
Definition AddPublish (name : cstr) (c : ProbeClass) (probe : Z) (attr : option cstr) (flags : Z) (s : StatisticsPool) : Z * StatisticsPool :=
  match GetProbe name s with Some probeExist => (probeExist, s) | None => (probe, InsertPublish name c probe false attr flags s) end.
Definition RemoveProbe (name : cstr) (s : StatisticsPool) : StatisticsPool :=
  match pub s !! name with
  | None => s
  | Some item =>
      let s := s <| pub ::= delete name |> in
      let probe := pitem item in
      match pool s !! probe with
      | None => s
      | Some pi =>
          let s := s <| pool ::= delete probe |> in
          if Delete_fn pi then s <| objects ::= delete probe |> else s
      end
  end.

(** The loops over the table of statistics: a member function is called for each; a call
    for an object that does not exist any more fails. *)
Definition call_item (fn : poolitem → option (P → option P)) (r : option (gmap Z P)) (kv : Z * poolitem) : option (gmap Z P) :=
  o ← r;
  match fn kv.2 with
  | Some f => if kv.1 =? 0 then Some o else p ← o !! kv.1; p ← f p; Some (<[kv.1 := p]> o)
  | None => Some o
  end.
Definition call_all (fn : poolitem → option (P → option P)) (s : StatisticsPool) : option StatisticsPool :=
  o ← foldl (call_item fn) (Some (objects s)) (map_to_list (pool s)); Some (s <| objects := o |>).
Definition Advance (cAdvance : Z) (s : StatisticsPool) : option StatisticsPool :=
  if cAdvance <=? 0 then Some s else call_all (fun i => (fun f p => f p cAdvance) <$> Advance_fn i) s.
Definition pool_Clear (s : StatisticsPool) : option StatisticsPool := call_all (fun i => Some (Clear_fn i)) s.
Definition SetRecentMax (window quantum : Z) (s : StatisticsPool) : option StatisticsPool :=
  let cRecent := if quantum =? 0 then window else Z.quot window quantum in
  call_all (fun i => (fun f p => f p cRecent) <$> SetRecentMax_fn i) s.

(** Whether an item is published with the flags of the caller. *)
Definition published (flags item_flags : Z) : bool :=
  negb ((Z.land flags IF_DEBUGPUB =? 0) && negb (Z.land item_flags IF_DEBUGPUB =? 0)) &&
  negb ((Z.land flags IF_RECENTPUB =? 0) && negb (Z.land item_flags IF_RECENTPUB =? 0)) &&
  negb (negb (Z.land flags IF_PUBKIND =? 0) && negb (Z.land item_flags IF_PUBKIND =? 0)
        && (Z.land (Z.land flags item_flags) IF_PUBKIND =? 0)) &&
  negb (Z.land flags IF_PUBLEVEL <? Z.land item_flags IF_PUBLEVEL).
Definition publish_item (s : StatisticsPool) (prefix : cstr) (flags : Z) (r : option A) (kv : cstr * pubitem) : option A :=
  ad ← r;
  let '(name, item) := kv in
  if negb (published flags (pub_flags item)) then Some ad
  else
    let item_flags := if Z.land flags IF_NONZERO =? 0 then Z.land (pub_flags item) (Z.lnot IF_NONZERO) else pub_flags item in
    p ← objects s !! pitem item;
    Publish_fn item p ad (prefix ++ default name (pattr item)) item_flags.
Definition Publish (prefix : cstr) (flags : Z) (s : StatisticsPool) (ad : A) : option A :=
  foldl (publish_item s prefix flags) (Some ad) (map_to_list (pub s)).
End Pool.
Arguments ProbeClass P A : clear implicits.
Arguments pubitem P A : clear implicits.
Arguments poolitem P : clear implicits.
Arguments StatisticsPool P A : clear implicits.

(** ** The statistics of a daemon *)

(** The objects of one class [T] among those of the pool: a pointer to an object of the
    pool can be used as one to [T] when the object is of this class. *)
Class ProbeType (P T : Type) := {
  to_probe : T → P;
  of_probe : P → option T;
  of_to_probe x : of_probe (to_probe x) = Some x;
}.
Definition on_probe {P T} `{ProbeType P T} (f : T → option T) (p : P) : option P := x ← of_probe p; x ← f x; Some (to_probe x).
Lemma on_to_probe {P T} `{ProbeType P T} f (x : T) : on_probe f (to_probe x) = to_probe <$> f x.
Proof. unfold on_probe. rewrite of_to_probe. cbn. by destruct (f x). Qed.

Section Stats.
Context {P A T : Type} `{Num T}.
Abbreviation probe := (stats_entry_recent T).
Context `{!ProbeType P probe}.

Record Stats := mkStats {
  InitTime : Z; RecentWindowMax : Z; RecentWindowQuantum : Z;
  times : tick_times;
  Pool : StatisticsPool P A;
}.
#[export] Instance stats_updatable : Updatable Stats :=
  fun d => mkStats (InitTime d) (RecentWindowMax d) (RecentWindowQuantum d) (times d) (Pool d).

(** The name of an attribute, from [classad_helpers.cpp]. *)
Definition attr_char (c : ascii) : bool := is_digit c || has_char c (L "_ABCDEFGHIJKLMNOPQRSTUVWXYZabcdefghijklmnopqrstuvwxyz").
Definition cleanStringForUseAsAttr (str : cstr) (chReplace : option ascii) (compact : bool) : cstr :=
  let compact := match chReplace with None => true | Some _ => compact end in
  let chReplace := default " "%char chReplace in
  let str := (fun ch => if attr_char ch then ch else chReplace) <$> Str.trim str in
  let str := if compact
             then if chReplace =c " "%char then snd (Str.replaceString str (L " ") [] 0)
                  else snd (Str.replaceString str [chReplace; chReplace] [chReplace] 0)
             else str in
  Str.trim str.

(** The class [stats_entry_recent<int>]; how it writes to an ad is a parameter. *)
Definition recent_class (publish : probe → A → cstr → Z → A) (unpublish : probe → A → cstr → A) : ProbeClass P A :=
  mkClass 0x0401 (to_probe (recent_new 0))
    (fun p ad attr flags => x ← of_probe p; Some (publish x ad attr flags)) (fun p ad attr => x ← of_probe p; Some (unpublish x ad attr))
    (Some (fun p n => on_probe (fun x => AdvanceAndSub x n) p)) (on_probe (fun x => Some (recent_Clear x)))
    (Some (fun p n => on_probe (fun x => SetWindowSize x n) p)).
(** [New] for a count with a window. *)
Definition Stats_New (c : ProbeClass P A) (category name : cstr) (as_ : Z) (d : Stats) : option (Z * Stats) :=
  let attr := cleanStringForUseAsAttr (L "DC" ++ category ++ L "_" ++ name) None true in
  let '(p, q) := NewProbe name c (Some attr) as_ (Pool d) in
  if RecentWindowQuantum d =? 0 then None
  else
    s ← objects q !! p; s ← on_probe (fun s => SetWindowSize s (Z.quot (RecentWindowMax d) (RecentWindowQuantum d))) s;
    Some (p, d <| Pool := q <| objects ::= <[p := s]> |> |>).

Definition Stats_Clear (clock : Z) (d : Stats) : option Stats :=
  p ← pool_Clear (Pool d); Some (d <| InitTime := clock |> <| times := mkTick 0 0 0 0 |> <| Pool := p |>).
Definition Stats_SetWindowSize (window : Z) (d : Stats) : option Stats :=
  p ← SetRecentMax window (RecentWindowQuantum d) (Pool d); Some (d <| RecentWindowMax := window |> <| Pool := p |>).
Definition Stats_Tick (clock now : Z) (d : Stats) : option Stats :=
  let now := if now =? 0 then clock else now in
  '(cAdvance, t) ← generic_stats_Tick clock now (RecentWindowMax d) (RecentWindowQuantum d) (InitTime d) (times d);
  let d := d <| times := t |> in
  if negb (cAdvance =? 0) then p ← Advance cAdvance (Pool d); Some (d <| Pool := p |>) else Some d.
Definition AddToProbe (name : cstr) (val : T) (d : Stats) : option Stats :=
  match GetProbe name (Pool d) with
  | None => Some d
  | Some p => s ← objects (Pool d) !! p; s ← on_probe (fun s => recent_Add s val) s; Some (d <| Pool ::= fun q => q <| objects ::= <[p := s]> |> |>)
  end.
End Stats.
Arguments Stats P A : clear implicits.

(** ** The clock counts the quanta *)

(** The slot of a time, when the first tick was at [t1]. *)
Definition slot (t1 q t : Z) : Z := (t - t1) / q.
Record ticking (t1 q max tl : Z) (t : tick_times) : Prop := {
  tk_last : LastUpdateTime t = tl;
  tk_tick : RecentTickTime t = t1 + q * slot t1 q tl;
  tk_recent : RecentLifetime t = Z.min (tl - t1) max;
}.
Lemma slot_mono t1 q a b : 0 < q → a ≤ b → slot t1 q a ≤ slot t1 q b.
Proof. intros. apply Z.div_le_mono; lia. Qed.

Lemma Tick_first clock now max q init t : now ≠ 0 → 0 ≤ max → LastUpdateTime t = 0 →
  ∃ t', generic_stats_Tick clock now max q init t = Some (0, t') ∧ ticking now q max now t'.
Proof.
  intros Hn Hm Hl. unfold generic_stats_Tick. rewrite (proj2 (Z.eqb_neq now 0) Hn), Hl. cbn. eexists. split; [done|].
  split; cbn; [done|unfold slot; rewrite Z.sub_diag, Zdiv_0_l; lia|lia].
Qed.
Lemma Tick_step clock t1 q max init tl now t : 0 < q → 0 ≤ max → 0 < t1 ≤ tl → tl ≤ now → now - t1 < 2 ^ 31 → ticking t1 q max tl t →
  ∃ t', generic_stats_Tick clock now max q init t = Some (slot t1 q now - slot t1 q tl, t') ∧ ticking t1 q max now t' ∧ Lifetime t' = now - init.
Proof.
  intros Hq Hm Ht Hle Hb [Hl Hk Hr]. unfold generic_stats_Tick. rewrite (proj2 (Z.eqb_neq now 0)), Hl, (proj2 (Z.eqb_neq tl 0)) by lia. cbv zeta.
  pose proof (slot_mono t1 q t1 tl Hq ltac:(lia)) as S1. unfold slot at 1 in S1. rewrite Z.sub_diag, Zdiv_0_l in S1.
  destruct (Z.eqb_spec tl now) as [<-|Hne]; cbn [mbind option_bind].
  { eexists. split; [by rewrite Z.sub_diag|]. split; [|done]. by split. }
  assert ((now - RecentTickTime t) / q = slot t1 q now - slot t1 q tl) as Hdiv.
  { rewrite Hk. unfold slot. replace (now - (t1 + q * ((tl - t1) / q))) with (now - t1 + - ((tl - t1) / q) * q) by lia.
    rewrite Z.div_add by lia. lia. }
  assert (0 ≤ now - RecentTickTime t) as Hd.
  { rewrite Hk. unfold slot. pose proof (Z.mul_div_le (tl - t1) q Hq). lia. }
  assert (RecentLifetime t + now - tl ≤ now - t1 ∧ 0 ≤ RecentLifetime t) as Hrl by lia.
  assert (slot t1 q now ≤ now - t1) as Hs. { unfold slot. apply Z.div_le_upper_bound; nia. }
  pose proof (slot_mono t1 q tl now Hq Hle).
  assert ((if int32 (RecentLifetime t + now - tl) <? max then int32 (RecentLifetime t + now - tl) else max) = Z.min (now - t1) max) as Er.
  { rewrite int32_id by (unfold in_int32; lia). destruct (Z.ltb_spec (RecentLifetime t + now - tl) max); lia. }
  destruct (Z.leb_spec q (now - RecentTickTime t)) as [Hge|Hlt].
  - rewrite (proj2 (Z.eqb_neq q 0)) by lia. cbn [mbind option_bind].
    rewrite Z.quot_div_nonneg, Hdiv, int32_id by (unfold in_int32; lia).
    eexists. split; [done|]. split; [|done]. split; cbn [LastUpdateTime RecentTickTime RecentLifetime]; [done| |done].
    rewrite Z.rem_mod_nonneg, Z.mod_eq, Hdiv, Hk by lia. lia.
  - cbn [mbind option_bind]. rewrite Z.div_small in Hdiv by lia. eexists. split; [by rewrite <-Hdiv|]. split; [|done].
    split; cbn [LastUpdateTime RecentTickTime RecentLifetime]; [done| |done]. rewrite Hk. lia.
Qed.

Lemma last_cons_default {B} (x d : B) l : List.last (x :: l) d = List.last l x.
Proof. revert x d. induction l as [|y l IH]; intros x d; [done|]. change (List.last (y :: l) d = List.last (y :: l) x). by rewrite !IH. Qed.

(** A run of ticks: the numbers of slots are added up. *)
Fixpoint ticks (clock max q init : Z) (nows : list Z) (t : tick_times) : option (Z * tick_times) :=
  match nows with
  | [] => Some (0, t)
  | now :: nows =>
      '(c, t) ← generic_stats_Tick clock now max q init t;
      '(cs, t) ← ticks clock max q init nows t; Some (c + cs, t)
  end.
Lemma ticks_spec clock max q init t1 nows : 0 < q → 0 ≤ max → ∀ tl t, 0 < t1 ≤ tl → Sorted Z.le (tl :: nows) → Forall (fun x => x - t1 < 2 ^ 31) nows →
  ticking t1 q max tl t → ∃ t', ticks clock max q init nows t = Some (slot t1 q (List.last nows tl) - slot t1 q tl, t') ∧
    ticking t1 q max (List.last nows tl) t'.
Proof.
  intros Hq Hm. induction nows as [|now nows IH]; intros tl t Ht Hs Hb Htk; cbn [ticks].
  { exists t. split; [do 2 f_equal; cbn; lia|done]. }
  apply Sorted_inv in Hs as [Hs Hd]. apply HdRel_inv in Hd. apply Forall_cons_1 in Hb as [Hb1 Hb].
  destruct (Tick_step clock t1 q max init tl now t) as (t' & E & Htk' & _); [lia..|done|]. rewrite E. cbn [mbind option_bind].
  destruct (IH now t') as (t'' & E2 & Htk2); [lia|done|done|done|]. rewrite E2. cbn [mbind option_bind]. exists t''.
  rewrite last_cons_default. split; [do 2 f_equal; lia|done].
Qed.

(** ** The pool calls each statistic once *)

Section PoolCalls.
Context {P A : Type}.
Implicit Types (s : StatisticsPool P A) (o : gmap Z P) (fn : poolitem P → option (P → option P)).

(** What a loop makes of the object [p] at the address [k]. *)
Definition called fn (i : option (poolitem P)) (k : Z) (p : option P) : option P :=
  match i ≫= fn with Some f => if k =? 0 then p else p ≫= f | None => p end.

Lemma call_items fn l : ∀ o, NoDup l.*1 → (∀ k i f, (k, i) ∈ l → fn i = Some f → k ≠ 0 → is_Some (o !! k ≫= f)) →
  ∃ o', foldl (call_item fn) (Some o) l = Some o' ∧ (∀ k, k ∉ l.*1 → o' !! k = o !! k) ∧
    ∀ k i, (k, i) ∈ l → o' !! k = called fn (Some i) k (o !! k).
Proof.
  induction l as [|[k i] l IH]; intros o Hnd Hl; cbn [foldl fmap list_fmap].
  { exists o. split_and!; [done|done|]. by intros k i ?%not_elem_of_nil. }
  apply NoDup_cons in Hnd as [Hk Hnd]. cbn in Hk.
  assert (∃ o1, call_item fn (Some o) (k, i) = Some o1 ∧ o1 !! k = called fn (Some i) k (o !! k) ∧ ∀ k', k' ≠ k → o1 !! k' = o !! k') as (o1 & E1 & H1 & H2).
  { unfold call_item, called. cbn. destruct (fn i) as [f|] eqn:Ef; [|by exists o]. destruct (Z.eqb_spec k 0) as [->|Hk0]; [by exists o|].
    destruct (Hl k i f (list_elem_of_here _ _) Ef Hk0) as [p' Hp]. destruct (o !! k) as [p|] eqn:Ep; [|done]. cbn in *. rewrite Hp. cbn.
    exists (<[k := p']> o). split_and!; [done|by rewrite lookup_insert_eq|intros; by rewrite lookup_insert_ne]. }
  rewrite E1. destruct (IH o1 Hnd) as (o2 & E2 & H3 & H4).
  { intros k' i' f Hin Hf Hk'. rewrite H2; [apply (Hl k' i'); [by right|done|done]|]. intros ->. apply Hk. apply list_elem_of_fmap. by exists (k, i'). }
  exists o2. refine (conj E2 (conj _ _)).
  - intros k' Hk'. apply not_elem_of_cons in Hk' as [Hne Hk']. cbn in Hne. by rewrite H3, H2.
  - intros k' i' [[= -> ->]|Hin]%elem_of_cons; [by rewrite H3|]. rewrite (H4 _ _ Hin). f_equal. apply H2.
    intros ->. apply Hk. apply list_elem_of_fmap. by exists (k, i').
Qed.
Lemma call_all_ok fn s : (∀ k i f, pool s !! k = Some i → fn i = Some f → k ≠ 0 → is_Some (objects s !! k ≫= f)) →
  ∃ o, call_all fn s = Some (s <| objects := o |>) ∧ ∀ k, o !! k = called fn (pool s !! k) k (objects s !! k).
Proof.
  intros Hs. unfold call_all. destruct (call_items fn (map_to_list (pool s)) (objects s)) as (o & E & H1 & H2).
  { apply NoDup_fst_map_to_list. }
  { intros k i f Hin. apply Hs. by apply elem_of_map_to_list. }
  rewrite E. exists o. split; [done|]. intros k. destruct (pool s !! k) as [i|] eqn:Ei.
  - apply H2. by apply elem_of_map_to_list.
  - unfold called. cbn. apply H1. intros ([k' i] & -> & Hin)%list_elem_of_fmap. apply elem_of_map_to_list in Hin. cbn in *. congruence.
Qed.
End PoolCalls.

(** ** The windows of a daemon *)

Lemma filter_none {B} (Q : B → Prop) `{∀ x, Decision (Q x)} l : Forall (fun x => ¬ Q x) l → filter Q l = [].
Proof. induction 1 as [|x l Hx _ IH]; [done|]. by rewrite filter_cons_False. Qed.

Section Windows.
Context {P A T : Type} `{NumLaws T} `{!SubLaws T} `{!ProbeType P (stats_entry_recent T)}.
Implicit Types (d : Stats P A).

(** The statistics of the pool exist, and can be advanced for ever: whatever its class, an
    object satisfies an invariant of the function that advances it. *)
Definition advances (i : poolitem P) (p : P) : Prop :=
  ∃ I : P → Prop, I p ∧ ∀ f x n, Advance_fn i = Some f → I x → 0 < n → ∃ x', f x n = Some x' ∧ I x'.
Definition pool_ok (s : StatisticsPool P A) : Prop :=
  ∀ k i, pool s !! k = Some i → k ≠ 0 ∧ ∃ p, objects s !! k = Some p ∧ advances i p.
(** The statistic at an address is a window that is advanced by [AdvanceBy], in the version
    of the simple types. *)
Definition is_window (s : StatisticsPool P A) (k : Z) : Prop :=
  ∃ i, pool s !! k = Some i ∧ Advance_fn i = Some (fun p n => on_probe (fun x => AdvanceAndSub x n) p).
Lemma advances_step i p f n p' : advances i p → Advance_fn i = Some f → 0 < n → f p n = Some p' → advances i p'.
Proof. intros (I & Hp & HI) Hf Hn E. destruct (HI f p n Hf Hp Hn) as (x & Ex & Hx). exists I. split; [congruence|done]. Qed.
Lemma window_advances i x w : Advance_fn i = Some (fun p n => on_probe (fun x => AdvanceAndSub x n) p) → shows x w → advances i (to_probe x).
Proof.
  intros Hi Hx. exists (fun p => ∃ x w, p = to_probe x ∧ shows x w). split; [eauto|]. intros f p n Hf (x1 & w1 & -> & Hx1) Hn.
  replace f with (fun p n => on_probe (fun x : stats_entry_recent T => AdvanceAndSub x n) p) by congruence.
  destruct (AdvanceAndSub_shows x1 w1 n Hx1 Hn) as (x2 & E & Hx2). rewrite on_to_probe, E. cbn. eauto 10.
Qed.

Lemma Advance_ok s n : pool_ok s → 0 < n → ∃ o, Advance n s = Some (s <| objects := o |>) ∧ pool_ok (s <| objects := o |>) ∧
  ∀ k x w, is_window s k → objects s !! k = Some (to_probe x) → shows x w → ∃ x', o !! k = Some (to_probe x') ∧ shows x' (w_step w (OpAdvance n)).
Proof.
  intros Hok Hn. unfold Advance. rewrite (proj2 (Z.leb_gt _ _)) by lia. set (fn := fun i : poolitem _ => _).
  destruct (call_all_ok fn s) as (o & E & Ho).
  { intros k i f Hi Hf Hk. destruct (Hok k i Hi) as (_ & p & Hp & I & Hx & HI). rewrite Hp. unfold fn in Hf. apply fmap_Some in Hf as (g & Hg & ->).
    destruct (HI g p n Hg Hx Hn) as (p' & Ep & _). cbn. eauto. }
  exists o. refine (conj E (conj _ _)).
  - intros k i Hi. cbn in Hi. destruct (Hok k i Hi) as (Hk & p & Hp & Hadv). refine (conj Hk _). cbn. rewrite Ho, Hi, Hp. unfold called, fn. cbn.
    rewrite (proj2 (Z.eqb_neq _ _) Hk). destruct (Advance_fn i) as [f|] eqn:Ef; cbn; [|eauto].
    destruct Hadv as (I & Hx & HI). destruct (HI f p n Ef Hx Hn) as (p' & -> & Hx'). exists p'. split; [done|]. by exists I.
  - intros k x w (i & Hi & Ha) Hp Hsh. destruct (Hok k i Hi) as (Hk & _). rewrite Ho, Hi, Hp. unfold called, fn. cbn. rewrite Ha. cbn.
    rewrite (proj2 (Z.eqb_neq _ _) Hk), on_to_probe. destruct (AdvanceAndSub_shows x w n Hsh Hn) as (x' & -> & Hx'). cbn. eauto.
Qed.

(** The values of the events in a slot that is [k] slots back, seen from [tl]. *)
Definition slot_sum (t1 q tl : Z) (past : list (Z * T)) (k : nat) : T :=
  lsum (filter (fun e => slot t1 q tl - slot t1 q e.1 = Z.of_nat k) past).*2.
Definition slots_ok (t1 q w tl : Z) (past : list (Z * T)) (l : list T) : Prop :=
  ∀ k, nth k l num0 = if (k <? Z.to_nat (Z.max 1 w))%nat then slot_sum t1 q tl past k else num0.

Lemma slot_sum_old t1 q tl now past k n : Z.of_nat n = slot t1 q now - slot t1 q tl → (n ≤ k)%nat → slot_sum t1 q now past k = slot_sum t1 q tl past (k - n).
Proof.
  intros Hn Hk. unfold slot_sum. do 2 f_equal. apply list_filter_iff. intros e. split; lia.
Qed.
Lemma slot_sum_new t1 q tl now past k n : 0 < q → Z.of_nat n = slot t1 q now - slot t1 q tl → Forall (fun e => e.1 ≤ tl) past → (k < n)%nat →
  slot_sum t1 q now past k = num0.
Proof.
  intros Hq Hn Hp Hk. unfold slot_sum. rewrite filter_none; [done|]. eapply Forall_impl; [apply Hp|]. intros e He.
  pose proof (slot_mono t1 q e.1 tl Hq He). lia.
Qed.
Lemma slots_advance t1 q w tl now past l : 0 < q → tl ≤ now → 0 ≤ w → Forall (fun e => e.1 ≤ tl) past → 0 < slot t1 q now - slot t1 q tl →
  slots_ok t1 q w tl past l → slots_ok t1 q w now past (shift w (Z.to_nat (slot t1 q now - slot t1 q tl)) l).
Proof.
  intros Hq Hle Hw Hp Hn Hl k. rewrite nth_shift, Hl. set (n := Z.to_nat (slot t1 q now - slot t1 q tl)).
  assert (Z.of_nat n = slot t1 q now - slot t1 q tl) as En by lia.
  destruct (Nat.ltb_spec k n) as [Hk|Hk].
  - rewrite (slot_sum_new _ _ _ _ _ _ _ Hq En Hp Hk). by destruct (k <? _)%nat, (k <? _)%nat.
  - rewrite (slot_sum_old _ _ _ _ _ _ _ En Hk). destruct (Nat.ltb_spec k (Z.to_nat w)), (Nat.ltb_spec k (Z.to_nat (Z.max 1 w))); try lia; [|done].
    by rewrite (proj2 (Nat.ltb_lt _ _)) by lia.
Qed.
Lemma slots_add t1 q w now past v l : slots_ok t1 q w now past l → slots_ok t1 q w now (past ++ [(now, v)]) (add_slot v l).
Proof.
  intros Hl k. rewrite nth_add_slot, !Hl. unfold slot_sum. rewrite filter_app, fmap_app.
  destruct (Nat.eqb_spec k 0) as [->|Hk].
  - rewrite !(proj2 (Nat.ltb_lt _ _)) by lia. rewrite filter_singleton_True by (done || (cbn; lia)). cbn. by rewrite lsum_snoc.
  - rewrite filter_singleton_False, app_nil_r by (done || (cbn; lia)). done.
Qed.

Lemma lsum_window t1 q tl (past : list (Z * T)) m : Forall (fun e => slot t1 q e.1 ≤ slot t1 q tl) past →
  lsum (slot_sum t1 q tl past <$> seq 0 m) = lsum (filter (fun e => slot t1 q tl - slot t1 q e.1 < Z.of_nat m) past).*2.
Proof.
  intros Hp. induction m as [|m IH]; [by rewrite filter_none by (eapply Forall_impl; [apply Hp|]; cbn; lia)|].
  rewrite seq_S, fmap_app, list_fmap_singleton, lsum_snoc, IH. cbn [Nat.add]. unfold slot_sum. clear IH.
  induction past as [|e past IH]; [apply num_add_0|]. apply Forall_cons_1 in Hp as [He Hp]. specialize (IH Hp). rewrite !filter_cons.
  repeat case_decide; try lia; cbn [fmap list_fmap lsum foldr] in *; unfold lsum in *; rewrite <-?IH, ?num_add_assoc; try done.
  rewrite (num_add_comm (foldr _ _ _) e.2). done.
Qed.
Lemma slots_sum t1 q w tl past l : Forall (fun e => slot t1 q e.1 ≤ slot t1 q tl) past → slots_ok t1 q w tl past l →
  lsum l = lsum (filter (fun e => slot t1 q tl - slot t1 q e.1 < Z.max 1 w) past).*2.
Proof.
  intros Hp Hl. set (m := Z.to_nat (Z.max 1 w)).
  assert (same_slots l (slot_sum t1 q tl past <$> seq 0 m)) as ->.
  { intros k. rewrite Hl, nth_lookup, list_lookup_fmap. fold m. destruct (Nat.ltb_spec k m); [by rewrite lookup_seq_lt|by rewrite lookup_seq_ge]. }
  rewrite lsum_window by done. do 2 f_equal. apply list_filter_iff. intros e. unfold m. lia.
Qed.

(** An event: the daemon updates the clock, and adds a value to a statistic. *)
Definition event (name : cstr) d (e : Z * T) : option (Stats P A) := d ← Stats_Tick e.1 e.1 d; AddToProbe name e.2 d.
Fixpoint run_events (name : cstr) d (evs : list (Z * T)) : option (Stats P A) :=
  match evs with [] => Some d | e :: evs => d ← event name d e; run_events name d evs end.

Record counting (name : cstr) (p t1 q max w tl : Z) (past : list (Z * T)) d : Prop := {
  co_name : GetProbe name (Pool d) = Some p;
  co_pool : pool_ok (Pool d);
  co_in : is_window (Pool d) p;
  co_quantum : RecentWindowQuantum d = q;
  co_max : RecentWindowMax d = max;
  co_times : ticking t1 q max tl (times d);
  co_probe : ∃ s win, objects (Pool d) !! p = Some (to_probe s) ∧ shows s win ∧ w_width win = w ∧ w_total win = lsum past.*2 ∧
               slots_ok t1 q w tl past (w_slots win);
}.
Lemma AddToProbe_ok name p t1 q max w tl past v d : counting name p t1 q max w tl past d →
  ∃ d', AddToProbe name v d = Some d' ∧ counting name p t1 q max w tl (past ++ [(tl, v)]) d'.
Proof.
  intros [Hn Hok Hin Hq Hm Ht (s & win & Hs & Hsh & Hw & Htot & Hsl)]. unfold AddToProbe. rewrite Hn, Hs. cbn [mbind option_bind].
  destruct (Add_shows s win v Hsh) as (s' & E & Hsh'). rewrite on_to_probe, E. cbn [mbind option_bind fmap option_fmap option_map]. eexists. split; [done|]. split; [done| |done..|].
  - intros k i Hi. cbn in Hi. destruct (Hok k i Hi) as (Hk & p0 & Hp0 & Hadv). refine (conj Hk _). cbn.
    destruct (decide (k = p)) as [->|Hne]; [rewrite lookup_insert_eq|rewrite lookup_insert_ne by done; eauto].
    destruct Hin as (j & Hj & Ha). replace i with j by congruence. eexists. split; [done|]. by eapply window_advances.
  - exists s', (w_add win v). cbn -[lsum]. rewrite lookup_insert_eq. split_and!; [done|done|done| |by apply slots_add].
    by rewrite fmap_app, list_fmap_singleton, lsum_snoc, Htot.
Qed.
Lemma event_ok name p t1 q max w tl past now v d : 0 < q → 0 ≤ max → 0 ≤ w → 0 < t1 ≤ tl → tl ≤ now → now - t1 < 2 ^ 31 → Forall (fun e => e.1 ≤ tl) past →
  counting name p t1 q max w tl past d → ∃ d', event name d (now, v) = Some d' ∧ counting name p t1 q max w now (past ++ [(now, v)]) d'.
Proof.
  intros Hq Hmax Hw Ht1 Hle Hb Hp Hc. unfold event. cbn [fst snd].
  assert (∃ d1, Stats_Tick now now d = Some d1 ∧ counting name p t1 q max w now past d1) as (d1 & E1 & H1).
  { destruct Hc as [Hn Hok Hin Eq Em Ht (s & win & Hs & Hsh & Ew & Htot & Hsl)].
    unfold Stats_Tick. replace (if now =? 0 then now else now) with now by (by destruct (now =? 0)). rewrite Eq, Em.
    destruct (Tick_step now t1 q max (InitTime d) tl now (times d)) as (t' & Et & Ht' & _); [done..|]. rewrite Et. cbn [mbind option_bind].
    pose proof (slot_mono t1 q tl now Hq Hle).
    destruct (Z.eqb_spec (slot t1 q now - slot t1 q tl) 0) as [E0|E0]; cbn [negb].
    - eexists. split; [done|]. split; [done..|]. exists s, win. split_and!; [done..|]. intros k. rewrite Hsl.
      destruct (k <? _)%nat; [|done]. rewrite (slot_sum_old t1 q tl now past k 0), Nat.sub_0_r by lia. done.
    - cbn [Pool field_update]. destruct (Advance_ok (Pool d) (slot t1 q now - slot t1 q tl) Hok) as (o & Ea & Hok' & Hstep); [lia|].
      rewrite Ea. cbn [mbind option_bind]. eexists. split; [done|]. split; [done..|].
      destruct (Hstep p s win Hin Hs Hsh) as (s' & Hs' & Hsh'). exists s', (w_step win (OpAdvance (slot t1 q now - slot t1 q tl))).
      split_and!; [done..|]. cbn [w_step w_slots]. rewrite Ew. apply (slots_advance t1 q w tl); try done. lia. }
  rewrite E1. cbn [mbind option_bind]. by apply AddToProbe_ok.
Qed.
Lemma run_events_ok name p t1 q max w evs : 0 < q → 0 ≤ max → 0 ≤ w → 0 < t1 → Forall (fun e => e.1 - t1 < 2 ^ 31) evs → ∀ tl past d,
  t1 ≤ tl → Sorted Z.le (tl :: evs.*1) → Forall (fun e => e.1 ≤ tl) past → counting name p t1 q max w tl past d →
  ∃ d', run_events name d evs = Some d' ∧ counting name p t1 q max w (List.last evs.*1 tl) (past ++ evs) d' ∧
    Forall (fun e => e.1 ≤ List.last evs.*1 tl) (past ++ evs).
Proof.
  intros Hq Hm Hw Ht1 Hb. induction evs as [|[now v] evs IH]; intros tl past d Htl Hs Hp Hc; cbn [run_events].
  { exists d. rewrite app_nil_r. done. }
  apply Forall_cons_1 in Hb as [Hb1 Hb]. cbn [fmap list_fmap fst] in Hs. apply Sorted_inv in Hs as [Hs Hd]. apply HdRel_inv in Hd.
  destruct (event_ok name p t1 q max w tl past now v d) as (d1 & E1 & H1); [done || lia..|]. rewrite E1. cbn [mbind option_bind].
  destruct (IH Hb now (past ++ [(now, v)]) d1) as (d' & E & Hc' & Hl); [lia|done| |done|].
  { apply Forall_app. split; [|by repeat constructor]. eapply Forall_impl; [apply Hp|]. cbn. lia. }
  exists d'. rewrite <-app_assoc in *. cbn [app] in *. cbn [fmap list_fmap fst]. rewrite last_cons_default. done.
Qed.
End Windows.

(** ** Theorems *)

(** The clock of the windows counts the quanta.  When a daemon calls
    [generic_stats_Tick] at any times that do not go back, the numbers of slots it is told to
    advance by add up to the number of whole quanta since the first call, the time of the last
    tick is on the grid of the quanta, and the lifetime of the recent values is the
    time since the first call, up to the size of the window. *)
Theorem Tick_counts clock max q init t now nows : 0 < q → 0 ≤ max → 0 < now → LastUpdateTime t = 0 →
  Sorted Z.le (now :: nows) → Forall (fun x => x - now < 2 ^ 31) nows →
  let last := List.last nows now in
  ∃ t', ticks clock max q init (now :: nows) t = Some ((last - now) / q, t') ∧
    LastUpdateTime t' = last ∧ RecentTickTime t' = now + q * ((last - now) / q) ∧ RecentLifetime t' = Z.min (last - now) max.
Proof.
  intros Hq Hm Hn Hl Hs Hb last. cbn [ticks]. destruct (Tick_first clock now max q init t) as (t1 & E & Ht1); [lia|done|done|].
  rewrite E. cbn [mbind option_bind]. destruct (ticks_spec clock max q init now nows Hq Hm now t1) as (t2 & E2 & [H1 H2 H3]); [lia|done|done|done|].
  rewrite E2. cbn [mbind option_bind]. exists t2. refine (conj _ (conj H1 (conj H2 H3))). do 2 f_equal. fold last. unfold slot.
  rewrite Z.sub_diag, Zdiv_0_l. lia.
Qed.
Lemma Tick_counts_witness : ∃ t', ticks 0 1200 240 0 [1000; 1100; 1480; 1481; 2400] (mkTick 0 0 0 0) = Some (5, t') ∧
  LastUpdateTime t' = 2400 ∧ RecentTickTime t' = 2200 ∧ RecentLifetime t' = 1200.
Proof. apply (Tick_counts 0 1200 240 0 (mkTick 0 0 0 0) 1000 [1100; 1480; 1481; 2400]); [done..|repeat constructor; lia|repeat constructor]. Defined.

(** C29. The recent value of a statistic.  In a pool with statistics of any classes, whose
    objects exist and can be advanced without an error, a new [stats_entry_recent] of
    a type of numbers with a window of [w] slots has a name.  A daemon whose clock has not ticked
    yet, with a window that is not negative and a quantum that is positive, updates the
    clock and adds a value to this statistic, at one or more times that are positive, do not
    go back and do not reach 2^31 seconds after the first.  Then [value] is
    the sum of all values, and [recent] is the sum of the values of the last [w] slots of
    time (one when no window is set), counted from the first time; nothing is read outside a
    buffer or after it was freed. *)
Theorem recent_window {P A T} `{NumLaws T} `{!SubLaws T} `{!ProbeType P (stats_entry_recent T)} (name : cstr) p w t1 v1 (evs : list (Z * T)) s (d : Stats P A) :
  GetProbe name (Pool d) = Some p → pool_ok (Pool d) → is_window (T := T) (Pool d) p → objects (Pool d) !! p = Some (to_probe s) →
  shows s (mkWindow num0 w []) → 0 ≤ w → LastUpdateTime (times d) = 0 → 0 < RecentWindowQuantum d → 0 ≤ RecentWindowMax d →
  0 < t1 → Sorted Z.le (t1 :: evs.*1) → Forall (fun e => e.1 - t1 < 2 ^ 31) evs →
  let all := (t1, v1) :: evs in
  let last := List.last evs.*1 t1 in
  let slot t := (t - t1) / RecentWindowQuantum d in
  ∃ d' s', run_events name d all = Some d' ∧ objects (Pool d') !! p = Some (to_probe s') ∧
    value s' = lsum all.*2 ∧ recent s' = lsum (filter (fun e => slot last - slot e.1 < Z.max 1 w) all).*2.
Proof.
  intros Hn Hok Hin Hs Hsh Hw Hl Hq Hm Ht1 Hsort Hb all last slot. cbn [run_events all].
  set (q := RecentWindowQuantum d) in *. set (max := RecentWindowMax d) in *.
  assert (∃ d1, event name d (t1, v1) = Some d1 ∧ counting name p t1 q max w t1 [(t1, v1)] d1) as (d1 & E1 & H1).
  { unfold event, Stats_Tick. cbn [fst snd]. replace (if t1 =? 0 then t1 else t1) with t1 by (by destruct (t1 =? 0)).
    destruct (Tick_first t1 t1 max q (InitTime d) (times d)) as (t' & E & Ht'); [lia|done|done|]. fold max q. rewrite E. cbn [mbind option_bind].
    apply (AddToProbe_ok name p t1 q max w t1 [] v1). split; [done..|]. exists s, (mkWindow num0 w []). split_and!; [done..|].
    intros k. unfold slot_sum. destruct (_ <? _)%nat; by destruct k. }
  rewrite E1. cbn [mbind option_bind].
  destruct (run_events_ok name p t1 q max w evs Hq Hm Hw Ht1 Hb t1 [(t1, v1)] d1) as (d' & E & [_ _ _ _ _ _ (s' & win & Hs' & Hsh' & Ew & Htot & Hsl)] & Hle);
    [lia|done|by repeat constructor|done|].
  exists d', s'. refine (conj E (conj Hs' (conj _ _))); [by rewrite (sh_value _ _ Hsh')|]. rewrite (sh_recent _ _ Hsh'). unfold w_recent.
  apply (slots_sum t1 q w last); [|done]. eapply Forall_impl; [apply Hle|]. intros e He. by apply slot_mono.
Qed.
