(* ===== verification/StatsPool.v ===== *)
(** * Statistics that come and go

    The life of the statistics in a [StatisticsPool]: what [NewProbe] creates, what
    [RemoveProbe] deletes, and that the loops over the pool find only statistics that
    exist. *)

From Stdlib Require Import Ascii Sorting.Sorted.
From stdpp Require Import base gmap list numbers strings.
From S2P Require Import Prelude MyString RingBuffer Stats.
Open Scope Z_scope.

(** A class whose functions keep an invariant of its objects, and do not fail while it
    holds. *)
Record class_ok {P A : Type} (c : ProbeClass P A) (I : P → Prop) : Prop := {
  ck_new : I (cls_new c);
  ck_advance f x n : GetFnAdvance c = Some f → I x → 0 < n → ∃ x', f x n = Some x' ∧ I x';
  ck_clear x : I x → ∃ x', cls_Clear c x = Some x' ∧ I x';
  ck_window f x n : GetFnSetRecentMax c = Some f → I x → ∃ x', f x n = Some x' ∧ I x';
  ck_publish x ad attr flags : I x → is_Some (cls_Publish c x ad attr flags);
}.

Section PoolSafe.
Context {P A K : Type} (cls : K → ProbeClass P A).
Implicit Types (s : StatisticsPool P A).

(** What can be done to a pool whose statistics are its own and belong to the classes
    [cls].  [PUse] is a call of a member function with the result of [GetProbe]. *)
Inductive pool_op :=
| PNew (k : K) (name : cstr) (attr : option cstr) (flags : Z)
| PRemove (name : cstr)
| PUse (name : cstr) (f : P → option P)
| PAdvance (n : Z)
| PClear
| PSetRecentMax (window quantum : Z).
Definition use_by_name (name : cstr) (f : P → option P) s : option (StatisticsPool P A) :=
  match GetProbe name s with
  | None => Some s
  | Some p => x ← objects s !! p; x ← f x; Some (s <| objects ::= <[p := x]> |>)
  end.
Definition pool_step s (op : pool_op) : option (StatisticsPool P A) :=
  match op with
  | PNew k name attr flags => Some (NewProbe name (cls k) attr flags s).2
  | PRemove name => Some (RemoveProbe name s)
  | PUse name f => use_by_name name f s
  | PAdvance n => Advance n s
  | PClear => pool_Clear s
  | PSetRecentMax window quantum => SetRecentMax window quantum s
  end.
Fixpoint pool_run s (ops : list pool_op) : option (StatisticsPool P A) :=
  match ops with [] => Some s | op :: ops => s ← pool_step s op; pool_run s ops end.

(** Each class has an invariant, and each name is used for one class only. *)
Context (inv : K → P → Prop) (kind : cstr → K).
Definition uses (I : P → Prop) (f : P → option P) : Prop := ∀ x, I x → ∃ x', f x = Some x' ∧ I x'.
Definition op_typed (op : pool_op) : Prop :=
  match op with PNew k name _ _ => kind name = k | PUse name f => uses (inv (kind name)) f | _ => True end.
Context (Hcls : ∀ k, class_ok (cls k) (inv k)).

Definition item_of (k : K) : poolitem P :=
  mkItem (cls_unit (cls k)) true (GetFnAdvance (cls k)) (cls_Clear (cls k)) (GetFnSetRecentMax (cls k)) true.
(** Each entry of the first table has a statistic of its own in the second, of the class
    that belongs to the name. *)
Record pool_good s : Prop := {
  pg_pub n i : pub s !! n = Some i → Publish_fn i = cls_Publish (cls (kind n)) ∧ pool s !! pitem i = Some (item_of (kind n)) ∧
    ∃ p, objects s !! pitem i = Some p ∧ inv (kind n) p;
  pg_pool a i : pool s !! a = Some i → a ≠ 0 ∧ ∃ n j, pub s !! n = Some j ∧ pitem j = a;
  pg_one n n' i i' : pub s !! n = Some i → pub s !! n' = Some i' → pitem i = pitem i' → n = n';
}.
Lemma good_item s a i : pool_good s → pool s !! a = Some i → a ≠ 0 ∧ ∃ k p, i = item_of k ∧ objects s !! a = Some p ∧ inv k p.
Proof.
  intros Hg Hi. destruct (pg_pool _ Hg a i Hi) as (Ha & n & j & Hj & <-). split; [done|].
  destruct (pg_pub _ Hg n j Hj) as (_ & Hi' & p & Hp & Hinv). exists (kind n), p. split_and!; [congruence|done|done].
Qed.

(** A loop that keeps the invariants. *)
Lemma call_all_good fn s : pool_good s → (∀ k f, fn (item_of k) = Some f → uses (inv k) f) → ∃ s', call_all fn s = Some s' ∧ pool_good s'.
Proof.
  intros Hg Hf. destruct (call_all_ok fn s) as (o & E & Ho).
  { intros a i f Hi Hfi _. destruct (good_item _ _ _ Hg Hi) as (_ & k & p & -> & Hp & Hinv). rewrite Hp.
    destruct (Hf k f Hfi p Hinv) as (p' & Hp' & _). cbn. eauto. }
  eexists. split; [exact E|]. split; cbn; [|apply Hg..]. intros n i Hi. destruct (pg_pub _ Hg n i Hi) as (H1 & H2 & p & Hp & Hinv).
  refine (conj H1 (conj H2 _)). rewrite Ho, H2, Hp. unfold called. cbn [mbind option_bind].
  destruct (fn (item_of (kind n))) as [f|] eqn:Ef; [|eauto]. case_match; [eauto|]. cbn. by apply (Hf _ f Ef p).
Qed.

Lemma new_address_fresh s : new_address s ≠ 0 ∧ objects s !! new_address s = None.
Proof.
  unfold new_address. set (l := (map_to_list (objects s)).*1).
  assert (∀ k, k ∈ l → k ≤ foldr Z.max 0 l) as Hmax.
  { clear. induction l as [|x l IH]; intros k; [by intros ?%not_elem_of_nil|]. intros [->|Hin]%elem_of_cons; cbn; [lia|]. specialize (IH k Hin). lia. }
  assert (0 ≤ foldr Z.max 0 l) by (clear; induction l; cbn; lia).
  split; [lia|]. apply eq_None_not_Some. intros [p Hp].
  assert (1 + foldr Z.max 0 l ∈ l) as Hin; [|apply Hmax in Hin; lia].
  apply list_elem_of_fmap. eexists (_, p). split; [done|]. by apply elem_of_map_to_list.
Qed.

Lemma NewProbe_good name attr flags s : pool_good s → pool_good (NewProbe name (cls (kind name)) attr flags s).2.
Proof.
  intros Hg. unfold NewProbe. destruct (GetProbe name s) eqn:En; [done|]. destruct (new_address_fresh s) as [Hn0 Hfresh].
  unfold GetProbe in En. apply fmap_None in En. set (a := new_address s) in *.
  assert (∀ n i, pub s !! n = Some i → pitem i ≠ a) as Hne.
  { intros n i Hi <-. destruct (pg_pub _ Hg n i Hi) as (_ & _ & p & Hp & _). congruence. }
  split; cbn.
  - intros n i Hi. destruct (decide (n = name)) as [->|Hn].
    + rewrite lookup_insert_eq in Hi. injection Hi as <-. cbn. rewrite !lookup_insert_eq. split_and!; [done..|]. eexists. split; [done|]. apply (ck_new _ _ (Hcls _)).
    + rewrite lookup_insert_ne in Hi by done. rewrite !lookup_insert_ne by (apply not_eq_sym; by eapply Hne). by apply (pg_pub _ Hg).
  - intros b i Hi. destruct (decide (b = a)) as [->|Hb].
    + split; [done|]. exists name. rewrite lookup_insert_eq. eauto.
    + rewrite lookup_insert_ne in Hi by done. destruct (pg_pool _ Hg b i Hi) as (Hb0 & n & j & Hj & <-). split; [done|]. exists n, j.
      rewrite lookup_insert_ne; [done|]. intros ->. congruence.
  - intros n n' i i' Hi Hi' Heq. destruct (decide (n = name)) as [->|Hn], (decide (n' = name)) as [->|Hn']; [done|..];
      rewrite ?lookup_insert_eq, ?lookup_insert_ne in * by done; simplify_eq; cbn in *.
    + by destruct (Hne n' i').
    + by destruct (Hne n i).
    + by eapply (pg_one _ Hg).
Qed.

Lemma RemoveProbe_good name s : pool_good s → pool_good (RemoveProbe name s).
Proof.
  intros Hg. unfold RemoveProbe. destruct (pub s !! name) as [item|] eqn:En; [|done]. cbn [pool field_update].
  destruct (pg_pub _ Hg name item En) as (_ & Hpi & _). change (pool (s <| pub ::= delete name |>)) with (pool s). rewrite Hpi.
  cbn [item_of Delete_fn]. split; cbn.
  - intros n i [Hne Hi]%lookup_delete_Some. assert (pitem item ≠ pitem i) as Hp by (intros Heq; apply Hne; by eapply (pg_one _ Hg)).
    rewrite !lookup_delete_ne by done. by apply (pg_pub _ Hg).
  - intros a i [Hne Hi]%lookup_delete_Some. destruct (pg_pool _ Hg a i Hi) as (Ha & n & j & Hj & <-). split; [done|]. exists n, j.
    rewrite lookup_delete_ne; [done|]. intros ->. congruence.
  - intros n n' i i' [_ Hi]%lookup_delete_Some [_ Hi']%lookup_delete_Some. by apply (pg_one _ Hg).
Qed.

Lemma use_good name f s : uses (inv (kind name)) f → pool_good s → ∃ s', use_by_name name f s = Some s' ∧ pool_good s'.
Proof.
  intros Hf Hg. unfold use_by_name, GetProbe. destruct (pub s !! name) as [item|] eqn:En; cbn [fmap option_fmap option_map]; [|eauto].
  destruct (pg_pub _ Hg name item En) as (_ & _ & p & Hp & Hinv). rewrite Hp. cbn [mbind option_bind].
  destruct (Hf p Hinv) as (p' & -> & Hinv'). cbn [mbind option_bind]. eexists. split; [done|]. split; cbn; [|apply Hg..].
  intros n i Hi. destruct (pg_pub _ Hg n i Hi) as (H1 & H2 & p2 & Hp2 & Hinv2). refine (conj H1 (conj H2 _)).
  destruct (decide (pitem i = pitem item)) as [E|Hne]; [|rewrite lookup_insert_ne by done; eauto].
  rewrite E, lookup_insert_eq. assert (n = name) as -> by (by eapply (pg_one _ Hg)). eauto.
Qed.

Lemma pool_step_good s op : op_typed op → pool_good s → ∃ s', pool_step s op = Some s' ∧ pool_good s'.
Proof.
  intros Ht Hg. destruct op as [k name attr flags|name|name f|n| |window quantum]; cbn [pool_step op_typed] in *.
  - subst k. eexists. split; [done|]. by apply NewProbe_good.
  - eexists. split; [done|]. by apply RemoveProbe_good.
  - by apply use_good.
  - unfold Advance. destruct (Z.leb_spec n 0); [eauto|]. apply call_all_good; [done|].
    intros k f (g & Hgf & ->)%fmap_Some x Hx. by apply (ck_advance _ _ (Hcls k) g x n).
  - apply call_all_good; [done|]. intros k f [= <-] x Hx. by apply (ck_clear _ _ (Hcls k)).
  - apply call_all_good; [done|]. intros k f (g & Hgf & ->)%fmap_Some x Hx. by apply (ck_window _ _ (Hcls k) g x).
Qed.

Lemma Publish_good prefix flags s ad : pool_good s → is_Some (Publish prefix flags s ad).
Proof.
  intros Hg. unfold Publish.
  assert (∀ l ad, (∀ n i, (n, i) ∈ l → pub s !! n = Some i) → is_Some (foldl (publish_item s prefix flags) (Some ad) l)) as Hl.
  { clear ad. induction l as [|[n i] l IH]; intros ad Hl; cbn [foldl]; [eauto|]. unfold publish_item at 2. cbn [mbind option_bind].
    destruct (negb _); [apply IH; intros; apply Hl; by right|]. cbv zeta.
    destruct (pg_pub _ Hg n i) as (Hpub & _ & p & Hp & Hinv); [apply Hl; by left|]. rewrite Hp, Hpub. cbn [mbind option_bind].
    destruct (ck_publish _ _ (Hcls (kind n)) p ad (prefix ++ default n (pattr i))
      (if Z.land flags IF_NONZERO =? 0 then Z.land (pub_flags i) (Z.lnot IF_NONZERO) else pub_flags i) Hinv) as [ad' ->].
    apply IH. intros. apply Hl. by right. }
  apply Hl. intros n i. apply elem_of_map_to_list.
Qed.
End PoolSafe.
Arguments pool_op P K : clear implicits.

(** The class [stats_entry_recent] of any type of numbers is such a class. *)
Section Recent.
Context {P A T : Type} `{NumLaws T} `{!SubLaws T} `{!ProbeType P (stats_entry_recent T)}.
Context (publish : stats_entry_recent T → A → cstr → Z → A) (unpublish : stats_entry_recent T → A → cstr → A).
Definition recent_inv (p : P) : Prop := ∃ x w, p = to_probe x ∧ shows x w.
Lemma on_probe_uses f : (∀ x w, shows x w → ∃ x' w', f x = Some x' ∧ shows x' w') → uses recent_inv (on_probe f).
Proof. intros Hf p (x & w & -> & Hx). rewrite on_to_probe. destruct (Hf x w Hx) as (x' & w' & -> & Hx'). eexists. split; [done|]. by exists x', w'. Qed.
Lemma recent_class_ok : class_ok (recent_class publish unpublish) recent_inv.
Proof.
  split; cbn.
  - exists (recent_new 0), (mkWindow num0 0 []). split; [done|]. by apply shows_new.
  - intros f p n [= <-] Hp Hn. refine (on_probe_uses _ _ p Hp). intros x w Hx. destruct (AdvanceAndSub_shows x w n Hx Hn) as (x' & E & Hx'). eauto.
  - apply on_probe_uses. intros x w Hx. destruct (Clear_shows x w Hx) as [Hx' _]. eauto.
  - intros f p n [= <-] Hp. refine (on_probe_uses _ _ p Hp). intros x w Hx. destruct (SetWindowSize_shows x w n Hx) as (x' & E & Hx'). eauto.
  - intros p ad attr flags (x & w & -> & _). rewrite of_to_probe. cbn. eauto.
Qed.
Lemma recent_Add_uses v : uses recent_inv (on_probe (fun x => recent_Add x v)).
Proof. apply on_probe_uses. intros x w Hx. destruct (Add_shows x w v Hx) as (x' & E & Hx'). eauto. Qed.
End Recent.

(** ** Theorems *)

Definition no_pool {P A : Type} : StatisticsPool P A := mkPool ∅ ∅ ∅.
Lemma no_pool_good {P A K} (cls : K → ProbeClass P A) inv kind : pool_good cls inv kind no_pool.
Proof. split; cbn; intros *; rewrite lookup_empty; done. Qed.

(** C30. A pool uses only statistics that exist.  Let the classes of statistics keep
    invariants of their objects under which their functions do not fail, as
    [stats_entry_recent] does ([recent_class_ok]), and let each name be used for one class
    only.  Then, whatever statistics are created in the pool with [NewProbe], removed
    from it, used by their names, advanced, cleared and given other windows, no call is
    made for a statistic that was deleted or is of another class, none fails, and the pool
    can be published.  (A name that is used for two classes is [GetProbe_other_class],
    entries made with [AddPublish] are [removed_probe_published].) *)
Theorem pool_safe {P A K} (cls : K → ProbeClass P A) inv kind (ops : list (pool_op P K)) :
  (∀ k, class_ok (cls k) (inv k)) → Forall (op_typed inv kind) ops →
  ∃ s, pool_run cls no_pool ops = Some s ∧ ∀ prefix flags ad, is_Some (Publish prefix flags s ad).
Proof.
  intros Hcls Hops.
  assert (∀ s, pool_good cls inv kind s → ∃ s', pool_run cls s ops = Some s' ∧ pool_good cls inv kind s') as Hrun.
  { induction Hops as [|op ops Hop Hops IH]; intros s Hg; cbn [pool_run]; [eauto|].
    destruct (pool_step_good cls inv kind Hcls s op Hop Hg) as (s1 & E & Hg1). rewrite E. by apply IH. }
  destruct (Hrun no_pool (no_pool_good cls inv kind)) as (s & E & Hg). exists s. split; [done|]. intros. by eapply Publish_good.
Qed.

(** *** A pool of statistics of two types of numbers *)

Abbreviation shown := (list (cstr * Z)).
Abbreviation count_object := (stats_entry_recent int_t + stats_entry_recent Z)%type.
#[export] Instance int_probe : ProbeType count_object (stats_entry_recent int_t) :=
  {| to_probe := inl; of_probe p := match p with inl x => Some x | inr _ => None end; of_to_probe x := eq_refl |}.
#[export] Instance wide_probe : ProbeType count_object (stats_entry_recent Z) :=
  {| to_probe := inr; of_probe p := match p with inr x => Some x | inl _ => None end; of_to_probe x := eq_refl |}.
Definition show_recent {T} (f : T → Z) (p : stats_entry_recent T) (ad : shown) (attr : cstr) (flags : Z) : shown :=
  ad ++ [(attr, f (value p)); (L "Recent" ++ attr, f (recent p))].
Definition unshow {T} (p : stats_entry_recent T) (ad : shown) (attr : cstr) : shown := filter (fun e => e.1 ≠ attr) ad.
(** The class of the statistics of [int], or that of the wide ones. *)
Definition counts (wide : bool) : ProbeClass count_object shown :=
  if wide then recent_class (T := Z) (show_recent id) unshow else recent_class (T := int_t) (show_recent proj1_sig) unshow.
Definition count_inv (wide : bool) : count_object → Prop := if wide then recent_inv (T := Z) else recent_inv (T := int_t).
Definition int_add (v : Z) : count_object → option count_object := on_probe (fun x => recent_Add x (to_int v)).
Definition wide_add (v : Z) : count_object → option count_object := on_probe (fun x => recent_Add x v).
Definition ex_kind (name : cstr) : bool := bool_decide (name = L "Bytes").
Definition ex_pool_ops : list (pool_op count_object bool) :=
  [PNew false (L "Jobs") None 0; PNew true (L "Bytes") (Some (L "BytesSent")) 0; PSetRecentMax 720 240; PUse (L "Jobs") (int_add 4);
   PUse (L "Bytes") (wide_add 1048576); PAdvance 2; PUse (L "Jobs") (int_add 1); PRemove (L "Bytes"); PAdvance 1;
   PUse (L "Bytes") (wide_add 9)].
Lemma pool_safe_witness : ∃ s, pool_run counts no_pool ex_pool_ops = Some s ∧ ∀ prefix flags ad, is_Some (Publish prefix flags s ad).
Proof.
  apply (pool_safe counts count_inv ex_kind ex_pool_ops).
  - intros []; apply recent_class_ok.
  - unfold ex_pool_ops. repeat (apply Forall_cons; split); [reflexivity|reflexivity|exact I|apply recent_Add_uses|
      apply recent_Add_uses|exact I|apply recent_Add_uses|exact I|exact I|apply recent_Add_uses|apply Forall_nil; exact I].
Defined.

(** A pointer to another class.  [GetProbe] gives the statistic of a name as the class that
    it is asked for, whatever class it was created with: a value for a wide count is added
    to an object that is a count of [int]. *)
Theorem GetProbe_other_class name : let s := (NewProbe name (counts false) None 0 no_pool).2 in
  is_Some (GetProbe name s) ∧ is_Some (use_by_name name (int_add 1) s) ∧ use_by_name name (wide_add 1) s = None.
Proof.
  cbn zeta. unfold NewProbe, use_by_name, GetProbe, InsertProbe, InsertPublish, no_pool. cbn [pub field_update]. rewrite lookup_empty. cbn -[new_address].
  rewrite lookup_insert_eq. cbn -[new_address]. rewrite lookup_insert_eq. cbn -[new_address]. eauto 10.
Qed.

(** An entry that outlives its statistic.  [RemoveProbe] deletes the statistic of a
    name, but not the other entries that publish it, which were made with
    [AddPublish]: the next [Publish] uses a statistic that does not exist any more. *)
Theorem removed_probe_published :
  let c := counts false in
  let s := AddPublish (L "RecentJobs") c 1 (Some (L "RecentJobs")) 0 (NewProbe (L "Jobs") c None 0 no_pool).2 in
  is_Some (Publish [] 0 s.2 []) ∧ Publish [] 0 (RemoveProbe (L "Jobs") s.2) [] = None.
Proof. split; [eexists|]; vm_compute; reflexivity. Qed.

(** A statistic with a window of three slots of 240 seconds, beside another one. *)
Definition jobs_pool : StatisticsPool count_object shown :=
  let item k := mkItem (cls_unit (counts k)) true (GetFnAdvance (counts k)) (cls_Clear (counts k)) (GetFnSetRecentMax (counts k)) true in
  mkPool {[ L "Jobs" := mkPub 0x0401 0 true 1 None (cls_Publish (counts true)) (cls_Unpublish (counts true)) ]}
    (<[1 := item true]> {[ 2 := item false ]}) (<[1 := inr (recent_new 3)]> {[ 2 := inl (recent_new 5) ]}).
Definition jobs_stats : Stats count_object shown := mkStats 1000 720 240 (mkTick 0 0 0 0) jobs_pool.
Lemma jobs_pool_ok : pool_ok jobs_pool.
Proof.
  intros k i. unfold jobs_pool. cbn [pool objects]. intros [[<- <-]|[Hne [<- <-]%lookup_singleton_Some]]%lookup_insert_Some.
  - split; [done|]. exists (inr (recent_new 3)). split; [reflexivity|].
    apply (window_advances (ProbeType0 := wide_probe) _ (recent_new 3) (mkWindow num0 3 [])); [done|by apply shows_new].
  - split; [done|]. exists (inl (recent_new 5)). split; [reflexivity|].
    apply (window_advances (ProbeType0 := int_probe) _ (recent_new 5) (mkWindow num0 5 [])); [done|by apply shows_new].
Qed.
Lemma recent_window_witness : ∃ d' s', run_events (L "Jobs") jobs_stats [(1000, 1); (1100, 2); (1300, 4); (1700, 8); (1730, 16)] = Some d' ∧
  objects (Pool d') !! 1 = Some (inr s') ∧ value s' = 31 ∧ recent s' = 28.
Proof.
  destruct (recent_window (T := Z) (L "Jobs") 1 3 1000 1 [(1100, 2); (1300, 4); (1700, 8); (1730, 16)] (recent_new 3) jobs_stats)
    as (d' & s' & E & Hs & Hv & Hr); [reflexivity|apply jobs_pool_ok|eexists; split; reflexivity|reflexivity|by apply (shows_new (T := Z) 3)|lia|reflexivity|cbn; lia|cbn; lia|lia| | |].
  - repeat constructor; cbn; lia.
  - repeat constructor; cbn; lia.
  - exists d', s'. refine (conj E (conj Hs (conj Hv _))). rewrite Hr. reflexivity.
Defined.
