(* ===== verification/DList.v ===== *)
(** * Doubly linked lists

    The template classes [List] and [ListIterator] of [condor_utils/list.h]: items that are linked in a
    ring through a dummy item, with a scan pointer.  The second part is what the list
    promises its clients, a sequence with a position, and the proof that the linked
    items implement it. *)

From stdpp Require Import base gmap list numbers strings.
From S2P Require Import Prelude.
Open Scope Z_scope.

(** ** The linked items *)

Section Items.
Context {T : Type} `{EqDecision T}.

(** The object of the dummy is NULL. *)
Record Item := mkNode { next : Z; prev : Z; obj : option T }.
#[export] Instance Item_updatable : Updatable Item := fun i => mkNode (next i) (prev i) (obj i).
Record List := mkList { heap : gmap Z Item; dummy : Z; current : Z; num_elem : Z }.
#[export] Instance List_updatable : Updatable List := fun s => mkList (heap s) (dummy s) (current s) (num_elem s).

(** Reading and writing the fields of an item, which fails when the item was deleted. *)
Definition get_next (h : gmap Z Item) (a : Z) : option Z := next <$> h !! a.
Definition get_prev (h : gmap Z Item) (a : Z) : option Z := prev <$> h !! a.
Definition set_next (h : gmap Z Item) (a v : Z) : option (gmap Z Item) := i ← h !! a; Some (<[a := i <| next := v |>]> h).
Definition set_prev (h : gmap Z Item) (a v : Z) : option (gmap Z Item) := i ← h !! a; Some (<[a := i <| prev := v |>]> h).

(** [new Item(o)] at an address that is not in use. *)
Definition fresh_address (h : gmap Z Item) : Z := 1 + foldr Z.max 0 (map_to_list h).*1.
Definition new_Item (h : gmap Z Item) (o : option T) : Z * gmap Z Item :=
  let a := fresh_address h in (a, <[a := mkNode a a o]> h).

Definition List_new : List := let '(d, h) := new_Item ∅ None in mkList h d d 0.
Definition Number (s : List) : Z := num_elem s.
Definition IsEmpty (s : List) : option bool := n ← get_next (heap s) (dummy s); Some (n =? dummy s).

(** The four stores that link [item] before [at_]. *)
Definition link_before (h : gmap Z Item) (at_ item : Z) : option (gmap Z Item) :=
  p ← get_prev h at_; h ← set_next h p item;
  p ← get_prev h at_; h ← set_prev h item p;
  h ← set_prev h at_ item; set_next h item at_.
Definition Append (s : List) (o : T) : option List :=
  let '(item, h) := new_Item (heap s) (Some o) in
  h ← link_before h (dummy s) item; Some (s <| heap := h |> <| current := item |> <| num_elem ::= Z.succ |>).
Definition Insert (s : List) (o : T) : option List :=
  let '(item, h) := new_Item (heap s) (Some o) in
  h ← link_before h (current s) item; Some (s <| heap := h |> <| num_elem ::= Z.succ |>).

Definition Rewind (s : List) : List := s <| current := dummy s |>.
Definition AtEnd (s : List) : option bool := n ← get_next (heap s) (current s); Some (n =? dummy s).
Definition Current (s : List) : option (option T) :=
  e ← IsEmpty s; if e : bool then Some None else i ← heap s !! current s; Some (obj i).
Definition Next (s : List) : option (option T * List) :=
  e ← AtEnd s;
  if e : bool then Some (None, s)
  else n ← get_next (heap s) (current s); i ← heap s !! n; Some (obj i, s <| current := n |>).
Definition Head (s : List) : option (option T) :=
  e ← IsEmpty s; if e : bool then Some None else n ← get_next (heap s) (dummy s); i ← heap s !! n; Some (obj i).
Definition InsertHead (s : List) (o : T) : option List := '(_, s) ← Next (Rewind s); Insert s o.

Definition RemoveItem (s : List) (item : Z) : option List :=
  if item =? dummy s then None
  else
    i ← heap s !! item; h ← set_next (heap s) (prev i) (next i);
    i ← h !! item; h ← set_prev h (next i) (prev i);
    Some (s <| heap := delete item h |> <| num_elem ::= Z.pred |>).
Definition DeleteCurrent (s : List) : option List :=
  if current s =? dummy s then None
  else p ← get_prev (heap s) (current s); n ← get_next (heap s) p; RemoveItem (s <| current := p |>) n.
Fixpoint delete_loop (fuel : nat) (s : List) (tmp : Z) (o : T) : option (bool * List) :=
  match fuel with
  | O => None
  | S fuel =>
      if tmp =? dummy s then Some (false, s)
      else
        i ← heap s !! tmp;
        if bool_decide (obj i = Some o)
        then s ← (if tmp =? current s then DeleteCurrent s else RemoveItem s tmp); Some (true, s)
        else delete_loop fuel s (next i) o
  end.
Definition Delete (s : List) (o : T) : option (bool * List) :=
  n ← get_next (heap s) (dummy s); delete_loop (S (Z.to_nat (num_elem s))) s n o.

(** ** ListIterator *)

Record ListIterator := mkIter { it_list : List; cur : option Z }.
Definition Initialize (s : List) : ListIterator := mkIter s (Some (dummy s)).
Definition ToBeforeFirst (it : ListIterator) : ListIterator := mkIter (it_list it) (Some (dummy (it_list it))).
Definition ToAfterLast (it : ListIterator) : ListIterator := mkIter (it_list it) None.
Definition iter_Next (it : ListIterator) : option (option T * ListIterator) :=
  match cur it with
  | None => Some (None, it)
  | Some c => n ← get_next (heap (it_list it)) c; i ← heap (it_list it) !! n; Some (obj i, mkIter (it_list it) (Some n))
  end.
Definition iter_Prev (it : ListIterator) : option (option T * ListIterator) :=
  let c := default (dummy (it_list it)) (cur it) in
  p ← get_prev (heap (it_list it)) c; i ← heap (it_list it) !! p;
  Some (if p =? dummy (it_list it) then None else obj i, mkIter (it_list it) (Some p)).
Definition IsBeforeFirst (it : ListIterator) : bool := bool_decide (cur it = Some (dummy (it_list it))).
Definition IsAfterLast (it : ListIterator) : bool := bool_decide (cur it = None).
End Items.
Arguments Item T : clear implicits.
Arguments List T : clear implicits.
Arguments ListIterator T : clear implicits.

(** ** The sequence with a position

    Position 0 is before the first element; position [i] is on the element [i - 1]. *)
Section Sequence.
Context {T : Type} `{EqDecision T}.
Record seq_at := mkSeq { elems : list T; pos : nat }.
Definition q_append (q : seq_at) (o : T) : seq_at := mkSeq (elems q ++ [o]) (S (length (elems q))).
Definition q_insert (q : seq_at) (o : T) : seq_at :=
  match pos q with
  | O => mkSeq (elems q ++ [o]) 0
  | S i => mkSeq (take i (elems q) ++ o :: drop i (elems q)) (S (S i))
  end.
Definition q_rewind (q : seq_at) : seq_at := mkSeq (elems q) 0.
Definition q_next (q : seq_at) : option T * seq_at :=
  match elems q !! pos q with Some o => (Some o, mkSeq (elems q) (S (pos q))) | None => (None, q) end.
Definition q_current (q : seq_at) : option T := match pos q with O => None | S i => elems q !! i end.
Definition q_delete_current (q : seq_at) : option seq_at :=
  match pos q with O => None | S i => Some (mkSeq (delete i (elems q)) i) end.
(** The first element that is [o]. *)
Fixpoint index_of (o : T) (l : list T) : option nat :=
  match l with [] => None | x :: l => if bool_decide (x = o) then Some 0%nat else S <$> index_of o l end.
Definition q_delete (q : seq_at) (o : T) : bool * seq_at :=
  match index_of o (elems q) with
  | None => (false, q)
  | Some i => (true, mkSeq (delete i (elems q)) (if (i <? pos q)%nat then pos q - 1 else pos q))
  end.
End Sequence.
Arguments seq_at T : clear implicits.

(** ** The ring of items *)

Section Ring.
Context {T : Type} `{EqDecision T}.
Implicit Types (h : gmap Z (Item T)) (s : List T) (q : seq_at T).

Lemma last_cons (x d : Z) l : List.last (x :: l) d = List.last l x.
Proof. revert x d. induction l as [|y l IH]; intros x d; [done|]. change (List.last (y :: l) d = List.last (y :: l) x). by rewrite !IH. Qed.
Lemma last_elem (l : list Z) a : List.last l a ∈ a :: l.
Proof. revert a. induction l as [|x l IH]; intros a; [by left|]. rewrite last_cons. right. apply IH. Qed.

Definition link h (a b : Z) : Prop := get_next h a = Some b ∧ get_prev h b = Some a.
(** The items [l] are linked one after the other from [a] to [b]. *)
Fixpoint seg h (a : Z) (l : list Z) (b : Z) : Prop :=
  match l with [] => link h a b | x :: l => link h a x ∧ seg h x l b end.

Lemma seg_app h l1 : ∀ a x l2 b, seg h a (l1 ++ x :: l2) b ↔ seg h a l1 x ∧ seg h x l2 b.
Proof. induction l1 as [|y l1 IH]; intros a x l2 b; cbn; [tauto|]. rewrite IH. tauto. Qed.
Lemma seg_frame h h' l : ∀ a b, seg h a l b → (∀ y, y ∈ a :: l → get_next h' y = get_next h y) →
  (∀ y, y ∈ l ++ [b] → get_prev h' y = get_prev h y) → seg h' a l b.
Proof.
  induction l as [|x l IH]; intros a b Hs Hn Hp; cbn in *; unfold link in *.
  { rewrite Hn, Hp; [done|by left..]. }
  destruct Hs as [[H1 H2] Hs]. rewrite Hn, Hp by (by left). split; [done|]. apply IH; [done|..]; intros y Hy; [apply Hn|apply Hp]; by right.
Qed.
Lemma seg_next h l : ∀ a b i x, seg h a l b → (a :: l) !! i = Some x → get_next h x = (l ++ [b]) !! i.
Proof.
  induction l as [|y l IH]; intros a b i x Hs Hi; cbn in *.
  - destruct i as [|i]; cbn in Hi; simplify_eq. by apply Hs.
  - destruct Hs as [Hl Hs]. destruct i as [|i]; cbn in Hi; simplify_eq; [by apply Hl|]. by eapply IH.
Qed.
Lemma seg_prev h l : ∀ a b i x, seg h a l b → (l ++ [b]) !! i = Some x → get_prev h x = (a :: l) !! i.
Proof.
  induction l as [|y l IH]; intros a b i x Hs Hi; cbn in *.
  - destruct i as [|i]; cbn in Hi; simplify_eq. by apply Hs.
  - destruct Hs as [Hl Hs]. destruct i as [|i]; cbn in Hi; simplify_eq; [by apply Hl|]. by eapply IH.
Qed.
Lemma seg_last h l : ∀ a b, seg h a l b → get_prev h b = Some (List.last l a) ∧ get_next h (List.last l a) = Some b.
Proof.
  induction l as [|y l IH]; intros a b Hs; cbn -[List.last] in *; [by destruct Hs|]. destruct Hs as [_ Hs]. rewrite last_cons. by apply IH.
Qed.
Lemma seg_first h l : ∀ a b, seg h a l b → get_next h a = Some (hd b l) ∧ get_prev h (hd b l) = Some a.
Proof. destruct l; intros a b Hs; cbn in *; [done|]. apply Hs. Qed.

(** *** Stores *)

(** What a store changes. *)
Definition fields h (nx pv : Z → option Z) (ob : Z → option (option T)) : Prop :=
  ∀ y, get_next h y = nx y ∧ get_prev h y = pv y ∧ obj <$> h !! y = ob y.
Definition upd (f : Z → option Z) (a v : Z) (y : Z) : option Z := if decide (y = a) then Some v else f y.
Lemma fields_refl h : fields h (get_next h) (get_prev h) (fun y => obj <$> h !! y).
Proof. done. Qed.
Lemma set_next_ok h a v nx pv ob : fields h nx pv ob → is_Some (ob a) → ∃ h', set_next h a v = Some h' ∧ fields h' (upd nx a v) pv ob.
Proof.
  intros Hf [o Ho]. destruct (Hf a) as (_ & _ & Ha). rewrite Ho in Ha. apply fmap_Some in Ha as (i & Hi & _).
  unfold set_next. rewrite Hi. cbn. eexists. split; [done|]. intros y. destruct (Hf y) as (H1 & H2 & H3). unfold upd, get_next, get_prev in *.
  destruct (decide (y = a)) as [->|]; [rewrite lookup_insert_eq, Hi in *|rewrite lookup_insert_ne by done]; done.
Qed.
Lemma set_prev_ok h a v nx pv ob : fields h nx pv ob → is_Some (ob a) → ∃ h', set_prev h a v = Some h' ∧ fields h' nx (upd pv a v) ob.
Proof.
  intros Hf [o Ho]. destruct (Hf a) as (_ & _ & Ha). rewrite Ho in Ha. apply fmap_Some in Ha as (i & Hi & _).
  unfold set_prev. rewrite Hi. cbn. eexists. split; [done|]. intros y. destruct (Hf y) as (H1 & H2 & H3). unfold upd, get_next, get_prev in *.
  destruct (decide (y = a)) as [->|]; [rewrite lookup_insert_eq, Hi in *|rewrite lookup_insert_ne by done]; done.
Qed.
Lemma link_before_ok h at_ item p nx pv ob : fields h nx pv ob → pv at_ = Some p → is_Some (ob at_) → is_Some (ob item) → is_Some (ob p) →
  ∃ h', link_before h at_ item = Some h' ∧ fields h' (upd (upd nx p item) item at_) (upd (upd pv item p) at_ item) ob.
Proof.
  intros Hf Hp Ha Hi Hop. unfold link_before. destruct (Hf at_) as (_ & E & _). rewrite E, Hp. cbn [mbind option_bind].
  destruct (set_next_ok h p item nx pv ob Hf Hop) as (h1 & E1 & F1). rewrite E1. cbn [mbind option_bind].
  destruct (F1 at_) as (_ & E' & _). rewrite E', Hp. cbn [mbind option_bind].
  destruct (set_prev_ok h1 item p _ _ _ F1 Hi) as (h2 & E2 & F2). rewrite E2. cbn [mbind option_bind].
  destruct (set_prev_ok h2 at_ item _ _ _ F2 Ha) as (h3 & E3 & F3). rewrite E3. cbn [mbind option_bind].
  by apply set_next_ok.
Qed.

(** *** Linking and unlinking *)

Lemma seg_insert h h' item l : ∀ a b, seg h a l b → NoDup (a :: l) → b ∉ l → item ∉ a :: l → item ≠ b →
  (∀ y, get_next h' y = upd (upd (get_next h) (List.last l a) item) item b y) →
  (∀ y, get_prev h' y = upd (upd (get_prev h) item (List.last l a)) b item y) → seg h' a (l ++ [item]) b.
Proof.
  induction l as [|x l IH]; intros a b Hs Hnd Hb Hi Hib Hn Hp; cbn [app].
  - cbn in Hn, Hp. apply not_elem_of_cons in Hi as [Hia _]. cbn. unfold link. rewrite !Hn, !Hp. unfold upd.
    repeat case_decide; try done; congruence.
  - apply NoDup_cons in Hnd as [Ha Hnd]. rewrite last_cons in *. apply not_elem_of_cons in Hi as [Hia Hi]. apply not_elem_of_cons in Hb as [Hbx Hb].
    destruct Hs as [[H1 H2] Hs]. split; [|by apply IH]. unfold link. rewrite Hn, Hp. unfold upd.
    pose proof (last_elem l x) as Hlast. apply not_elem_of_cons in Hi as [Hix Hil].
    rewrite !decide_False by (congruence || (intros ->; by apply Ha)). done.
Qed.
Lemma seg_remove h h' x l2 b l1 : ∀ a, seg h a l1 x → seg h x l2 b → NoDup (a :: l1 ++ x :: l2) → b ∉ l1 ++ x :: l2 →
  (∀ y, y ≠ x → get_next h' y = upd (get_next h) (List.last l1 a) (hd b l2) y) →
  (∀ y, y ≠ x → get_prev h' y = upd (get_prev h) (hd b l2) (List.last l1 a) y) → seg h' a (l1 ++ l2) b.
Proof.
  induction l1 as [|z l1 IH]; intros a Hs1 Hs2 Hnd Hb Hn Hp; cbn [app] in *.
  - apply NoDup_cons in Hnd as [Ha Hnd]. apply NoDup_cons in Hnd as [Hx Hnd]. apply not_elem_of_cons in Ha as [Hax Ha]. apply not_elem_of_cons in Hb as [Hbx Hb].
    cbn [List.last] in *. destruct l2 as [|z l2]; cbn in *.
    + unfold link. rewrite Hn, Hp by done. unfold upd. by rewrite !decide_True.
    + apply not_elem_of_cons in Hx as [Hxz Hx]. apply not_elem_of_cons in Ha as [Haz Ha]. apply not_elem_of_cons in Hb as [Hbz Hb].
      apply NoDup_cons in Hnd as [Hz Hnd]. split.
      * unfold link. rewrite Hn, Hp by done. unfold upd. by rewrite !decide_True.
      * destruct Hs2 as [_ Hs2]. apply (seg_frame h); [done|..]; intros y Hy.
        -- rewrite Hn by (intros ->; apply elem_of_cons in Hy as [?|?]; done). unfold upd. rewrite decide_False; [done|].
           intros ->. apply elem_of_cons in Hy as [?|?]; done.
        -- rewrite Hp; [unfold upd; rewrite decide_False; [done|]|]; intros ->; apply elem_of_app in Hy as [?|?%list_elem_of_singleton]; done.
  - apply NoDup_cons in Hnd as [Ha Hnd]. rewrite last_cons in *. apply not_elem_of_cons in Hb as [Hbz Hb]. destruct Hs1 as [[H1 H2] Hs1].
    split; [|by apply IH]. assert (a ≠ x ∧ z ≠ x) as [Hax Hzx].
    { split; intros ->; [apply Ha|apply NoDup_cons in Hnd as [Hz _]; apply Hz]; set_solver. }
    unfold link. rewrite Hn, Hp by done. unfold upd. pose proof (last_elem l1 z) as Hlast.
    rewrite !decide_False; [done|..].
    + intros ->. apply NoDup_cons in Hnd as [Hz _]. destruct l2; cbn in *; [done|]. apply Hz. set_solver.
    + intros ->. apply Ha. set_solver.
Qed.

(** ** The list implements the sequence *)

Record rep_with s q (l : list Z) : Prop := {
  rp_nodup : NoDup (dummy s :: l);
  rp_seg : seg (heap s) (dummy s) l (dummy s);
  rp_dummy : obj <$> heap s !! dummy s = Some None;
  rp_obj : Forall2 (fun a v => obj <$> heap s !! a = Some (Some v)) l (elems q);
  rp_num : num_elem s = Z.of_nat (length l);
  rp_pos : (dummy s :: l) !! pos q = Some (current s);
}.
Definition rep s q : Prop := ∃ l, rep_with s q l.

Lemma rep_length s q l : rep_with s q l → length l = length (elems q).
Proof. intros Hr. apply (Forall2_length _ _ _ (rp_obj _ _ _ Hr)). Qed.
Lemma rep_alloc s q l a : rep_with s q l → a ∈ dummy s :: l → is_Some (obj <$> heap s !! a).
Proof.
  intros Hr [->|Ha]%elem_of_cons; [rewrite (rp_dummy _ _ _ Hr); eauto|].
  apply list_elem_of_lookup in Ha as [i Hi]. destruct (Forall2_lookup_l _ _ _ _ _ (rp_obj _ _ _ Hr) Hi) as (v & _ & ->). eauto.
Qed.
Lemma fresh_ok h : h !! fresh_address h = None.
Proof.
  unfold fresh_address. set (l := (map_to_list h).*1).
  assert (∀ k, k ∈ l → k ≤ foldr Z.max 0 l) as Hmax.
  { clear. induction l as [|x l IH]; intros k; [by intros ?%not_elem_of_nil|]. intros [->|Hin]%elem_of_cons; cbn; [lia|]. specialize (IH k Hin). lia. }
  apply eq_None_not_Some. intros [i Hi]. assert (1 + foldr Z.max 0 l ∈ l) as Hin; [|apply Hmax in Hin; lia].
  apply list_elem_of_fmap. eexists (_, i). split; [done|]. by apply elem_of_map_to_list.
Qed.
Lemma new_rep : rep List_new (mkSeq [] 0).
Proof.
  exists []. unfold List_new, new_Item. set (a := fresh_address ∅). split; cbn; try done.
  apply NoDup_singleton.
Qed.

(** A new item before the item at [at_]: [l1] are the items up to there. *)
Lemma link_new s q l l1 at_ (o : T) : rep_with s q l → seg (heap s) (dummy s) l1 at_ → l1 `prefix_of` l → at_ ∉ l1 → at_ ∈ dummy s :: l →
  let '(item, h) := new_Item (heap s) (Some o) in
  item ∉ dummy s :: l ∧ ∃ h', link_before h at_ item = Some h' ∧ seg h' (dummy s) (l1 ++ [item]) at_ ∧
    obj <$> h' !! item = Some (Some o) ∧ (∀ y, y ∈ dummy s :: l → obj <$> h' !! y = obj <$> heap s !! y) ∧
    (∀ y, y ∈ dummy s :: l → y ≠ List.last l1 (dummy s) → get_next h' y = get_next (heap s) y) ∧
    (∀ y, y ∈ dummy s :: l → y ≠ at_ → get_prev h' y = get_prev (heap s) y).
Proof.
  intros Hr Hs [l2 Hl] Hat Hin. unfold new_Item. set (item := fresh_address (heap s)). set (h := <[item := _]> (heap s)).
  assert (item ∉ dummy s :: l) as Hfr.
  { intros Hi. destruct (rep_alloc _ _ _ _ Hr Hi) as [v Hv]. unfold item in Hv. by rewrite fresh_ok in Hv. }
  split; [done|]. assert (∀ y, y ∈ dummy s :: l → h !! y = heap s !! y) as Hsame.
  { intros y Hy. unfold h. rewrite lookup_insert_ne; [done|]. by intros ->. }
  assert (∀ y, y ∈ dummy s :: l1 → y ∈ dummy s :: l) as Hsub by (intros y; rewrite Hl; set_solver).
  destruct (seg_last _ _ _ _ Hs) as [Hlp Hln]. set (p := List.last l1 (dummy s)) in *.
  assert (p ∈ dummy s :: l) as Hpin by apply Hsub, last_elem.
  destruct (link_before_ok h at_ item p _ _ _ (fields_refl h)) as (h' & E & Hf).
  { unfold get_prev. by rewrite Hsame. }
  { rewrite Hsame by done. by eapply rep_alloc. }
  { unfold h. rewrite lookup_insert_eq. cbn. eauto. }
  { rewrite Hsame by done. by eapply rep_alloc. }
  assert (∀ y, y ∈ dummy s :: l → y ≠ item) as Hni by (by intros y Hy ->).
  exists h'. refine (conj E (conj _ (conj _ (conj _ (conj _ _))))).
  - apply (seg_insert h); [|pose proof (rp_nodup _ _ _ Hr) as Hnd; rewrite Hl, app_comm_cons in Hnd; by apply NoDup_app in Hnd as [? _]|done|by intros ?%Hsub|by intros ->|intros y; apply Hf|intros y; apply Hf].
    eapply seg_frame; [done|..]; intros y Hy; unfold get_next, get_prev; rewrite Hsame; try done; [by apply Hsub|].
    apply elem_of_app in Hy as [Hy|Hy]; [apply Hsub; by right|by apply list_elem_of_singleton in Hy as ->].
  - destruct (Hf item) as (_ & _ & ->). unfold h. by rewrite lookup_insert_eq.
  - intros y Hy. destruct (Hf y) as (_ & _ & ->). by rewrite Hsame.
  - intros y Hy Hyp. destruct (Hf y) as (-> & _ & _). unfold upd. rewrite !decide_False by (done || by apply Hni). unfold get_next. by rewrite Hsame.
  - intros y Hy Hyp. destruct (Hf y) as (_ & -> & _). unfold upd. rewrite !decide_False by (done || by apply Hni). unfold get_prev. by rewrite Hsame.
Qed.
Lemma Forall2_obj h h' l vs : (∀ y, y ∈ l → obj <$> h' !! y = obj <$> h !! y) →
  Forall2 (fun a v => obj <$> h !! a = Some (Some v)) l vs → Forall2 (fun a (v : T) => obj <$> h' !! a = Some (Some v)) l vs.
Proof. intros Hy Hf. induction Hf as [|a v l vs Ha _ IH]; constructor; [rewrite Hy; [done|by left]|]. apply IH. intros. apply Hy. by right. Qed.

Lemma Append_rep s q (o : T) : rep s q → ∃ s', Append s o = Some s' ∧ rep s' (q_append q o).
Proof.
  intros [l Hr]. unfold Append. pose proof (rp_nodup _ _ _ Hr) as Hnd. apply NoDup_cons in Hnd as Hnd'. destruct Hnd' as [Hd _].
  pose proof (link_new s q l l (dummy s) o Hr (rp_seg _ _ _ Hr) ltac:(reflexivity) Hd ltac:(by left)) as Hlink.
  destruct (new_Item (heap s) (Some o)) as [item h]. destruct Hlink as (Hfr & h' & E & Hs & Ho & Hob & _). rewrite E. cbn [mbind option_bind].
  eexists. split; [done|]. exists (l ++ [item]). split; cbn.
  - rewrite app_comm_cons. apply NoDup_app. split; [done|]. split; [|apply NoDup_singleton]. intros x Hx ->%list_elem_of_singleton. done.
  - done.
  - rewrite Hob by (by left). apply Hr.
  - apply Forall2_app; [|by constructor]. eapply Forall2_obj; [|apply Hr]. intros y Hy. apply Hob. by right.
  - rewrite (rp_num _ _ _ Hr), length_app. cbn. lia.
  - rewrite <-(rep_length _ _ _ Hr). by apply list_lookup_middle.
Qed.

Lemma Insert_rep s q (o : T) : rep s q → ∃ s', Insert s o = Some s' ∧ rep s' (q_insert q o).
Proof.
  intros [l Hr]. unfold Insert, q_insert. pose proof (rp_nodup _ _ _ Hr) as Hnd. apply NoDup_cons in Hnd as Hnd'. destruct Hnd' as [Hd Hndl].
  pose proof (rp_pos _ _ _ Hr) as Hpos. pose proof (rep_length _ _ _ Hr) as Hlen. destruct (pos q) as [|i] eqn:Epos.
  - injection Hpos as Hcur. pose proof (link_new s q l l (dummy s) o Hr (rp_seg _ _ _ Hr) ltac:(reflexivity) Hd ltac:(by left)) as Hlink. rewrite <-Hcur.
    destruct (new_Item (heap s) (Some o)) as [item h]. destruct Hlink as (Hfr & h' & E & Hs & Ho & Hob & _). rewrite E. cbn [mbind option_bind].
    eexists. split; [done|]. exists (l ++ [item]). split; cbn.
    + rewrite app_comm_cons. apply NoDup_app. split; [done|]. split; [|apply NoDup_singleton]. intros x Hx ->%list_elem_of_singleton. done.
    + done.
    + rewrite Hob by (by left). apply Hr.
    + apply Forall2_app; [|by constructor]. eapply Forall2_obj; [|apply Hr]. intros y Hy. apply Hob. by right.
    + rewrite (rp_num _ _ _ Hr), length_app. cbn. lia.
    + by rewrite Hcur.
  - cbn in Hpos. pose proof (take_drop_middle l i _ Hpos) as Hl. set (l1 := take i l) in *. set (l2 := drop (S i) l) in *. set (c := current s) in *.
    assert (c ∈ l) as Hc by (by eapply list_elem_of_lookup_2).
    pose proof (rp_seg _ _ _ Hr) as Hseg. rewrite <-Hl in Hseg. apply seg_app in Hseg as [Hs1 Hs2].
    assert (length l1 = i) as Hl1 by (unfold l1; rewrite length_take; apply lookup_lt_Some in Hpos; lia).
    rewrite <-Hl in Hndl. apply NoDup_app in Hndl as (Hnd1 & Hdis & Hnd2). apply NoDup_cons in Hnd2 as [Hc2 Hnd2].
    assert (c ∉ l1) as Hc1 by (intros ?; apply (Hdis c); [done|by left]).
    assert (∀ y, y ∈ dummy s :: l1 → y ∉ c :: l2) as Hdis2.
    { intros y [->|Hy]%elem_of_cons; [|by apply Hdis]. intros Hin. apply Hd. rewrite <-Hl. apply elem_of_app. by right. }
    pose proof (link_new s q l l1 c o Hr Hs1 ltac:(exists (c :: l2); done) Hc1 ltac:(by right)) as Hlink.
    destruct (new_Item (heap s) (Some o)) as [item h]. destruct Hlink as (Hfr & h' & E & Hs & Ho & Hob & Hn & Hp). rewrite E. cbn [mbind option_bind].
    assert (∀ y, y ∈ c :: l2 → y ∈ dummy s :: l) as Hsub by (intros y Hy; right; rewrite <-Hl; apply elem_of_app; by right).
    eexists. split; [done|]. exists (l1 ++ item :: c :: l2). split; cbn.
    + apply NoDup_cons in Hnd as [_ Hndl]. apply not_elem_of_cons in Hfr as [Hfd Hfr]. rewrite <-Hl in Hndl, Hd, Hfr.
      apply NoDup_cons. split; [set_solver|]. rewrite <-Permutation_middle. apply NoDup_cons. done.
    + rewrite (cons_middle item l1), app_assoc. apply seg_app. split; [done|]. apply (seg_frame (heap s)); [done|..]; intros y Hy.
      * apply Hn; [by apply Hsub|]. intros ->. by apply (Hdis2 _ (last_elem l1 _)).
      * apply Hp; [apply elem_of_app in Hy as [Hy|Hy]; [apply Hsub; by right|apply list_elem_of_singleton in Hy as ->; by left]|].
        intros ->. apply elem_of_app in Hy as [Hy|Hy]; [done|]. apply list_elem_of_singleton in Hy. rewrite Hy in Hc. done.
    + rewrite Hob by (by left). apply Hr.
    + pose proof (rp_obj _ _ _ Hr) as Hf. apply (Forall2_obj _ h') in Hf; [|intros y Hy; apply Hob; by right].
      apply Forall2_app; [by apply Forall2_take|]. constructor; [done|]. change (c :: l2) with (c :: drop (S i) l). rewrite <-(drop_S l c i Hpos). by apply Forall2_drop.
    + rewrite (rp_num _ _ _ Hr). rewrite <-Hl, !length_app. cbn. lia.
    + change ((l1 ++ item :: c :: l2) !! S i = Some c). rewrite lookup_app_r by lia. replace (S i - length l1)%nat with 1%nat by lia. done.
Qed.

Lemma Rewind_rep s q : rep s q → rep (Rewind s) (q_rewind q).
Proof. intros [l [Hnd Hs Hd Ho Hn Hp]]. exists l. by split. Qed.
Lemma rep_next s q l : rep_with s q l → get_next (heap s) (current s) = (l ++ [dummy s]) !! pos q.
Proof. intros Hr. apply (seg_next _ _ _ _ _ _ (rp_seg _ _ _ Hr) (rp_pos _ _ _ Hr)). Qed.
Lemma AtEnd_rep s q : rep s q → AtEnd s = Some (bool_decide (pos q = length (elems q))).
Proof.
  intros [l Hr]. unfold AtEnd. rewrite (rep_next _ _ _ Hr). pose proof (rp_pos _ _ _ Hr) as Hpos. apply lookup_lt_Some in Hpos. cbn in Hpos.
  rewrite <-(rep_length _ _ _ Hr). pose proof (rp_nodup _ _ _ Hr) as Hnd. apply NoDup_cons in Hnd as [Hd _].
  destruct (decide (pos q = length l)) as [E|E].
  - rewrite E, list_lookup_middle by done. cbn. by rewrite Z.eqb_refl, bool_decide_eq_true_2.
  - destruct (lookup_lt_is_Some_2 l (pos q)) as [x Hx]; [lia|]. rewrite lookup_app_l by lia. rewrite Hx. cbn.
    rewrite bool_decide_eq_false_2 by done. f_equal. apply Z.eqb_neq. intros ->. apply Hd. by eapply list_elem_of_lookup_2.
Qed.
Lemma Next_rep s q : rep s q → ∃ s', Next s = Some ((q_next q).1, s') ∧ rep s' (q_next q).2.
Proof.
  intros Hrep. unfold Next. rewrite (AtEnd_rep _ _ Hrep). cbn [mbind option_bind]. destruct Hrep as [l Hr]. pose proof (rep_length _ _ _ Hr) as Hlen.
  pose proof (rp_pos _ _ _ Hr) as Hpos. apply lookup_lt_Some in Hpos as Hlt. cbn in Hlt. unfold q_next. case_bool_decide as E.
  - rewrite lookup_ge_None_2 by lia. exists s. split; [done|]. by exists l.
  - rewrite (rep_next _ _ _ Hr). destruct (lookup_lt_is_Some_2 l (pos q)) as [x Hx]; [lia|]. rewrite lookup_app_l, Hx by lia. cbn [mbind option_bind].
    destruct (Forall2_lookup_l _ _ _ _ _ (rp_obj _ _ _ Hr) Hx) as (v & Hv & Hov). rewrite Hv. apply fmap_Some in Hov as (i & Hi & Ho). rewrite Hi. cbn.
    rewrite <-Ho. eexists. split; [done|]. destruct Hr. exists l. by split.
Qed.

Lemma RemoveItem_rep s q l i x : rep_with s q l → l !! i = Some x → pos q ≠ S i →
  ∃ s', RemoveItem s x = Some s' ∧ rep s' (mkSeq (delete i (elems q)) (if (i <? pos q)%nat then pos q - 1 else pos q)).
Proof.
  intros Hr Hx Hpi. pose proof (rp_nodup _ _ _ Hr) as Hnd. pose proof (take_drop_middle l i x Hx) as Hl.
  set (l1 := take i l) in *. set (l2 := drop (S i) l) in *. pose proof (rp_seg _ _ _ Hr) as Hseg. rewrite <-Hl in Hseg, Hnd. apply seg_app in Hseg as [Hs1 Hs2].
  assert (dummy s ∉ l1 ++ x :: l2) as Hd by (by apply NoDup_cons in Hnd as [? _]).
  assert (x ≠ dummy s) as Hxd by (intros ->; apply Hd, elem_of_app; right; by left).
  destruct (seg_last _ _ _ _ Hs1) as [Hxp _]. destruct (seg_first _ _ _ _ Hs2) as [Hxn _].
  set (p := List.last l1 (dummy s)) in *. set (n := hd (dummy s) l2) in *.
  assert (p ∈ dummy s :: l1) as Hp by apply last_elem.
  assert (n ∈ l2 ++ [dummy s]) as Hn by (unfold n; destruct l2; by left).
  assert (p ≠ x) as Hpx by (intros E; rewrite E in Hp; apply NoDup_cons in Hnd as [_ Hnd]; apply NoDup_app in Hnd as (_ & Hdis & _); apply elem_of_cons in Hp as [?|?]; [done|apply (Hdis x); [done|by left]]).
  assert (n ≠ x) as Hnx by (intros E; rewrite E in Hn; apply NoDup_cons in Hnd as [_ Hnd]; apply NoDup_app in Hnd as (_ & _ & Hnd); apply NoDup_cons in Hnd as [? _]; apply elem_of_app in Hn as [?|Hn]; [done|by apply list_elem_of_singleton in Hn]).
  assert (∀ y, y ∈ dummy s :: l1 ++ l2 → y ∈ dummy s :: l) as Hsub by (rewrite <-Hl; set_solver).
  unfold RemoveItem. rewrite (proj2 (Z.eqb_neq _ _) Hxd).
  unfold get_next, get_prev in Hxp, Hxn. destruct (heap s !! x) as [it|] eqn:Eit; [|done]. cbn in Hxp, Hxn. injection Hxp as Hxp. injection Hxn as Hxn. cbn [mbind option_bind].
  rewrite Hxp, Hxn. destruct (set_next_ok (heap s) p n _ _ _ (fields_refl _)) as (h1 & E1 & F1).
  { eapply rep_alloc; [done|]. apply Hsub. set_solver. }
  rewrite E1. cbn [mbind option_bind]. destruct (F1 x) as (N1 & P1 & O1). unfold upd in N1. rewrite decide_False in N1 by done.
  unfold get_next, get_prev in N1, P1. rewrite Eit in N1, P1. destruct (h1 !! x) as [it1|]; [|done]. cbn in N1, P1. injection N1 as N1. injection P1 as P1.
  cbn [mbind option_bind]. rewrite N1, P1, Hxp, Hxn. destruct (set_prev_ok h1 n p _ _ _ F1) as (h2 & E2 & F2).
  { eapply rep_alloc; [done|]. apply Hsub. set_solver. }
  rewrite E2. cbn [mbind option_bind]. eexists. split; [done|]. exists (l1 ++ l2).
  assert (∀ y, y ≠ x → delete x h2 !! y = h2 !! y) as Hdel by (intros; by rewrite lookup_delete_ne).
  assert (delete i l = l1 ++ l2) as Edel by apply delete_take_drop.
  assert (x ∉ dummy s :: l1 ++ l2) as Hxo.
  { apply NoDup_cons in Hnd as [_ Hnd]. rewrite <-Permutation_middle in Hnd. apply NoDup_cons in Hnd as [Hnx1 _]. by apply not_elem_of_cons. }
  assert (∀ y, y ∈ dummy s :: l1 ++ l2 → obj <$> delete x h2 !! y = obj <$> heap s !! y) as Hob.
  { intros y Hy. rewrite Hdel by (by intros ->). apply F2. }
  split; cbn [heap dummy current num_elem elems pos field_update].
  - rewrite app_comm_cons in *. rewrite <-Permutation_middle in Hnd. by apply NoDup_cons in Hnd as [_ Hnd].
  - apply (seg_remove (heap s) _ x l2 (dummy s) l1); [done..| |]; intros y Hy; unfold get_next, get_prev; rewrite Hdel by done; apply F2.
  - change (obj <$> delete x h2 !! dummy s = Some None). rewrite Hob by (by left). apply Hr.
  - rewrite <-Edel. eapply Forall2_obj; [intros y Hy; apply Hob; right; by rewrite <-Edel|]. apply Forall2_delete, Hr.
  - change (Z.pred (num_elem s) = Z.of_nat (length (l1 ++ l2))). rewrite (rp_num _ _ _ Hr), <-Hl, !length_app. cbn. lia.
  - change ((dummy s :: l1 ++ l2) !! (if (i <? pos q)%nat then (pos q - 1)%nat else pos q) = Some (current s)).
    rewrite <-Edel. pose proof (rp_pos _ _ _ Hr) as Hpos. destruct (Nat.ltb_spec i (pos q)).
    + destruct (pos q) as [|[|k]]; [lia|lia|]. cbn in Hpos. replace (S (S k) - 1)%nat with (S k) by lia. change (delete i l !! k = Some (current s)).
      by rewrite list_lookup_delete_ge by lia.
    + destruct (pos q) as [|k]; [done|]. change (delete i l !! k = Some (current s)). by rewrite list_lookup_delete_lt by lia.
Qed.

Lemma DeleteCurrent_rep s q : rep s q → match q_delete_current q with
  | Some q' => ∃ s', DeleteCurrent s = Some s' ∧ rep s' q'
  | None => DeleteCurrent s = None
  end.
Proof.
  intros [l Hr]. unfold DeleteCurrent, q_delete_current. pose proof (rp_pos _ _ _ Hr) as Hpos. destruct (pos q) as [|i] eqn:Ep.
  { injection Hpos as ->. by rewrite Z.eqb_refl. }
  cbn in Hpos. pose proof (rp_nodup _ _ _ Hr) as Hnd. apply NoDup_cons in Hnd as [Hd _].
  rewrite (proj2 (Z.eqb_neq _ _)) by (intros E; apply Hd; rewrite <-E; by eapply list_elem_of_lookup_2).
  assert (get_prev (heap s) (current s) = (dummy s :: l) !! i) as Hprev.
  { eapply seg_prev; [apply Hr|]. rewrite lookup_app_l; [done|]. by eapply lookup_lt_Some. }
  destruct (lookup_lt_is_Some_2 (dummy s :: l) i) as [p Hp]; [apply lookup_lt_Some in Hpos; cbn; lia|]. rewrite Hprev, Hp. cbn [mbind option_bind].
  assert (get_next (heap s) p = Some (current s)) as Hnext.
  { rewrite (seg_next _ _ _ _ _ _ (rp_seg _ _ _ Hr) Hp). rewrite lookup_app_l; [done|]. by eapply lookup_lt_Some. }
  rewrite Hnext. cbn [mbind option_bind].
  assert (rep_with (s <| current := p |>) (mkSeq (elems q) i) l) as Hr' by (destruct Hr; by split).
  destruct (RemoveItem_rep _ _ _ i (current s) Hr' Hpos) as (s' & E & Hrep); [cbn; lia|]. exists s'. split; [done|]. cbn [pos elems] in Hrep. by rewrite Nat.ltb_irrefl in Hrep.
Qed.

Lemma index_of_drop (o : T) vs i : index_of o vs = Some i → vs !! i = Some o ∧ ∀ j v, (j < i)%nat → vs !! j = Some v → v ≠ o.
Proof.
  revert i. induction vs as [|v vs IH]; intros i Hi; [done|]. cbn in Hi. case_bool_decide as E.
  - injection Hi as <-. subst. split; [done|]. intros j w Hj. lia.
  - apply fmap_Some in Hi as (i' & Hi' & ->). destruct (IH i' Hi') as [H1 H2]. split; [done|]. intros [|j] w Hj Hw; [by injection Hw as <-|].
    apply (H2 j); [lia|done].
Qed.
Lemma index_of_none (o : T) vs : index_of o vs = None → ∀ j v, vs !! j = Some v → v ≠ o.
Proof.
  induction vs as [|v vs IH]; intros Hi j w Hw; [done|]. cbn in Hi. case_bool_decide as E; [done|]. apply fmap_None in Hi.
  destruct j as [|j]; [by injection Hw as <-|by eapply IH].
Qed.
Lemma delete_loop_rep s q l (o : T) : rep_with s q l → ∀ fuel j, (j + fuel = S (length l))%nat → (∀ k v, (k < j)%nat → elems q !! k = Some v → v ≠ o) →
  ∀ tmp, (l ++ [dummy s]) !! j = Some tmp → ∃ s', delete_loop fuel s tmp o = Some ((q_delete q o).1, s') ∧ rep s' (q_delete q o).2.
Proof.
  intros Hr. pose proof (rp_nodup _ _ _ Hr) as Hnd. apply NoDup_cons in Hnd as [Hd Hnd]. pose proof (rep_length _ _ _ Hr) as Hlen.
  induction fuel as [|fuel IH]; intros j Hj Hbefore tmp Htmp.
  { apply lookup_lt_Some in Htmp. rewrite length_app in Htmp. cbn in Htmp. lia. }
  cbn [delete_loop]. destruct (decide (j = length l)) as [->|Hne].
  - rewrite list_lookup_middle in Htmp by done. injection Htmp as <-. rewrite Z.eqb_refl. exists s.
    unfold q_delete. destruct (index_of o (elems q)) as [i|] eqn:Ei; [|split; [done|by exists l]].
    apply index_of_drop in Ei as [Hi _]. exfalso. apply (Hbefore i o); [|done|done]. apply lookup_lt_Some in Hi. lia.
  - apply lookup_lt_Some in Htmp as Hlt. rewrite length_app in Hlt. cbn in Hlt. rewrite lookup_app_l in Htmp by lia.
    rewrite (proj2 (Z.eqb_neq _ _)) by (intros ->; apply Hd; by eapply list_elem_of_lookup_2).
    destruct (Forall2_lookup_l _ _ _ _ _ (rp_obj _ _ _ Hr) Htmp) as (v & Hv & Hov). apply fmap_Some in Hov as (it & Hit & Ho). rewrite Hit. cbn [mbind option_bind].
    rewrite <-Ho. case_bool_decide as E.
    + injection E as ->. assert (index_of o (elems q) = Some j) as Ei.
      { destruct (index_of o (elems q)) as [i|] eqn:Ei; [|by apply (index_of_none _ _ Ei) in Hv]. apply index_of_drop in Ei as [Hi Hfirst]. f_equal.
        destruct (Nat.lt_trichotomy i j) as [?|[?|?]]; [by apply Hbefore in Hi|done|by apply (Hfirst j o) in Hv]. }
      unfold q_delete. rewrite Ei. cbn [fst snd]. pose proof (rp_pos _ _ _ Hr) as Hpos.
      destruct (Z.eqb_spec tmp (current s)) as [Hc|Hc].
      * assert (pos q = S j) as Epos.
        { destruct (pos q) as [|k]; [injection Hpos as Hpos; rewrite Hc, <-Hpos in Htmp; exfalso; apply Hd; by eapply list_elem_of_lookup_2|].
          cbn in Hpos. rewrite Hc in Htmp. f_equal. by eapply NoDup_lookup. }
        pose proof (DeleteCurrent_rep s q ltac:(by exists l)) as Hdc. unfold q_delete_current in Hdc. rewrite Epos in *. destruct Hdc as (s' & E & Hs').
        rewrite E. cbn [mbind option_bind]. exists s'. split; [done|]. rewrite (proj2 (Nat.ltb_lt _ _)) by lia. by replace (S j - 1)%nat with j by lia.
      * assert (pos q ≠ S j) as Epos by (intros Ep; rewrite Ep in Hpos; change (l !! j = Some (current s)) in Hpos; congruence).
        destruct (RemoveItem_rep s q l j tmp Hr Htmp Epos) as (s' & E & Hs'). rewrite E. cbn [mbind option_bind]. by exists s'.
    + apply (IH (S j)); [lia|..].
      * intros k w Hk Hw. destruct (decide (k = j)) as [->|]; [|apply (Hbefore k); [lia|done]]. intros ->. congruence.
      * pose proof (seg_next _ _ _ _ (S j) tmp (rp_seg _ _ _ Hr) Htmp) as Hn. unfold get_next in Hn. by rewrite Hit in Hn.
Qed.
Lemma Delete_rep s q (o : T) : rep s q → ∃ s', Delete s o = Some ((q_delete q o).1, s') ∧ rep s' (q_delete q o).2.
Proof.
  intros [l Hr]. unfold Delete. rewrite (seg_next _ _ _ _ 0 (dummy s) (rp_seg _ _ _ Hr) eq_refl).
  destruct (lookup_lt_is_Some_2 (l ++ [dummy s]) 0) as [tmp Htmp]; [rewrite length_app; cbn; lia|]. rewrite Htmp. cbn [mbind option_bind].
  rewrite (rp_num _ _ _ Hr), Nat2Z.id. apply (delete_loop_rep s q l o Hr _ 0%nat); [lia|intros; lia|done].
Qed.
Lemma IsEmpty_rep s q : rep s q → IsEmpty s = Some (bool_decide (elems q = [])).
Proof.
  intros [l Hr]. unfold IsEmpty. rewrite (seg_next _ _ _ _ 0 (dummy s) (rp_seg _ _ _ Hr) eq_refl). pose proof (rep_length _ _ _ Hr) as Hlen.
  pose proof (rp_nodup _ _ _ Hr) as Hnd. apply NoDup_cons in Hnd as [Hd _]. destruct l as [|x l], (elems q) as [|v vs]; try done; cbn.
  - by rewrite Z.eqb_refl.
  - f_equal. apply Z.eqb_neq. intros ->. apply Hd. by left.
Qed.
Lemma Current_rep s q : rep s q → Current s = Some (q_current q).
Proof.
  intros Hrep. unfold Current. rewrite (IsEmpty_rep _ _ Hrep). cbn [mbind option_bind]. destruct Hrep as [l Hr]. unfold q_current.
  pose proof (rp_pos _ _ _ Hr) as Hpos. destruct (pos q) as [|i] eqn:Ep.
  - injection Hpos as <-. case_bool_decide; [done|]. pose proof (rp_dummy _ _ _ Hr) as Hd. apply fmap_Some in Hd as (it & Hit & Ho). rewrite Hit. cbn. by rewrite <-Ho.
  - cbn in Hpos. destruct (Forall2_lookup_l _ _ _ _ _ (rp_obj _ _ _ Hr) Hpos) as (v & Hv & Hov). rewrite Hv. case_bool_decide as E; [by rewrite E in Hv|].
    apply fmap_Some in Hov as (it & Hit & Ho). rewrite Hit. cbn. by rewrite <-Ho.
Qed.
Lemma Number_rep s q : rep s q → Number s = Z.of_nat (length (elems q)).
Proof. intros [l Hr]. unfold Number. by rewrite (rp_num _ _ _ Hr), (rep_length _ _ _ Hr). Qed.

(** *** Iterators *)

Lemma iter_Next_rep s q l i c : rep_with s q l → (dummy s :: l) !! i = Some c →
  ∃ n, iter_Next (mkIter s (Some c)) = Some (elems q !! i, mkIter s (Some n)) ∧ (dummy s :: l) !! (if (i <? length l)%nat then S i else 0%nat) = Some n.
Proof.
  intros Hr Hc. unfold iter_Next. cbn [cur it_list]. rewrite (seg_next _ _ _ _ _ _ (rp_seg _ _ _ Hr) Hc). pose proof (rep_length _ _ _ Hr) as Hlen.
  apply lookup_lt_Some in Hc as Hlt. cbn in Hlt. destruct (Nat.ltb_spec i (length l)).
  - destruct (lookup_lt_is_Some_2 l i) as [n Hn]; [done|]. rewrite lookup_app_l, Hn by done. cbn [mbind option_bind].
    destruct (Forall2_lookup_l _ _ _ _ _ (rp_obj _ _ _ Hr) Hn) as (v & Hv & Hov). apply fmap_Some in Hov as (it & Hit & Ho). rewrite Hit, Hv. cbn. rewrite <-Ho. eauto.
  - replace i with (length l) by lia. rewrite list_lookup_middle by done. cbn [mbind option_bind].
    pose proof (rp_dummy _ _ _ Hr) as Hd. apply fmap_Some in Hd as (it & Hit & Ho). rewrite Hit. cbn. rewrite <-Ho. eexists. split; [|done].
    by rewrite lookup_ge_None_2 by lia.
Qed.

(** The loop [while( iter.Next(x) )]. *)
Fixpoint iter_all (fuel : nat) (it : ListIterator T) : option (list T) :=
  match fuel with
  | O => None
  | S fuel => '(o, it) ← iter_Next it; match o with None => Some [] | Some x => xs ← iter_all fuel it; Some (x :: xs) end
  end.
Lemma iter_all_S fuel it : iter_all (S fuel) it =
  '(o, it) ← iter_Next it; match o with None => Some [] | Some x => xs ← iter_all fuel it; Some (x :: xs) end.
Proof. done. Qed.
Lemma iter_all_rep s q : rep s q → iter_all (S (length (elems q))) (Initialize s) = Some (elems q).
Proof.
  intros [l Hr]. pose proof (rep_length _ _ _ Hr) as Hlen.
  assert (∀ k i c, (i + k = length l)%nat → (dummy s :: l) !! i = Some c → iter_all (S k) (mkIter s (Some c)) = Some (drop i (elems q))) as Hall.
  { induction k as [|k IH]; intros i c Hi Hc; destruct (iter_Next_rep _ _ _ _ _ Hr Hc) as (n & E & Hn); rewrite iter_all_S, E; cbn [mbind option_bind].
    - rewrite lookup_ge_None_2 by lia. by rewrite drop_ge by lia.
    - destruct (lookup_lt_is_Some_2 (elems q) i) as [v Hv]; [lia|]. rewrite Hv. rewrite (proj2 (Nat.ltb_lt _ _)) in Hn by lia.
      rewrite (IH (S i) n) by (done || lia). cbn [mbind option_bind]. by rewrite (drop_S _ _ _ Hv). }
  rewrite <-Hlen. apply (Hall _ 0%nat); [lia|done].
Qed.

(** *** Sequences of operations *)

Inductive list_op := LAppend (o : T) | LInsert (o : T) | LInsertHead (o : T) | LRewind | LNext | LCurrent | LDeleteCurrent | LDelete (o : T) | LNumber.
Inductive list_out := OUnit | OObj (o : option T) | OBool (b : bool) | ONumber (n : Z).
Definition list_step (s : List T) (op : list_op) : option (list_out * List T) :=
  match op with
  | LAppend o => s ← Append s o; Some (OUnit, s)
  | LInsert o => s ← Insert s o; Some (OUnit, s)
  | LInsertHead o => s ← InsertHead s o; Some (OUnit, s)
  | LRewind => Some (OUnit, Rewind s)
  | LNext => '(o, s) ← Next s; Some (OObj o, s)
  | LCurrent => o ← Current s; Some (OObj o, s)
  | LDeleteCurrent => s ← DeleteCurrent s; Some (OUnit, s)
  | LDelete o => '(b, s) ← Delete s o; Some (OBool b, s)
  | LNumber => Some (ONumber (Number s), s)
  end.
Definition seq_step (q : seq_at T) (op : list_op) : option (list_out * seq_at T) :=
  match op with
  | LAppend o => Some (OUnit, q_append q o)
  | LInsert o => Some (OUnit, q_insert q o)
  | LInsertHead o => Some (OUnit, q_insert (q_next (q_rewind q)).2 o)
  | LRewind => Some (OUnit, q_rewind q)
  | LNext => Some (OObj (q_next q).1, (q_next q).2)
  | LCurrent => Some (OObj (q_current q), q)
  | LDeleteCurrent => q ← q_delete_current q; Some (OUnit, q)
  | LDelete o => Some (OBool (q_delete q o).1, (q_delete q o).2)
  | LNumber => Some (ONumber (Z.of_nat (length (elems q))), q)
  end.
Lemma list_step_rep s q op : rep s q → match seq_step q op with
  | Some (out, q') => ∃ s', list_step s op = Some (out, s') ∧ rep s' q'
  | None => list_step s op = None
  end.
Proof.
  intros Hr. destruct op as [o|o|o| | | | |o|]; cbn [seq_step list_step].
  - destruct (Append_rep s q o Hr) as (s' & -> & H'). cbn. eauto.
  - destruct (Insert_rep s q o Hr) as (s' & -> & H'). cbn. eauto.
  - unfold InsertHead. destruct (Next_rep _ _ (Rewind_rep _ _ Hr)) as (s1 & -> & H1). cbn [mbind option_bind].
    destruct (Insert_rep _ _ o H1) as (s2 & -> & H2). cbn. eauto.
  - eexists. split; [done|]. by apply Rewind_rep.
  - destruct (Next_rep _ _ Hr) as (s1 & -> & H1). cbn. eauto.
  - rewrite (Current_rep _ _ Hr). cbn. eauto.
  - pose proof (DeleteCurrent_rep _ _ Hr) as Hd. destruct (q_delete_current q) as [q'|]; cbn; [destruct Hd as (s' & -> & H'); cbn; eauto|by rewrite Hd].
  - destruct (Delete_rep _ _ o Hr) as (s1 & -> & H1). cbn. eauto.
  - rewrite (Number_rep _ _ Hr). eauto.
Qed.
Fixpoint list_run (s : List T) (ops : list list_op) : option (list list_out * List T) :=
  match ops with
  | [] => Some ([], s)
  | op :: ops => '(out, s) ← list_step s op; '(outs, s) ← list_run s ops; Some (out :: outs, s)
  end.
Fixpoint seq_run (q : seq_at T) (ops : list list_op) : option (list list_out * seq_at T) :=
  match ops with
  | [] => Some ([], q)
  | op :: ops => '(out, q) ← seq_step q op; '(outs, q) ← seq_run q ops; Some (out :: outs, q)
  end.
End Ring.
Arguments list_op T : clear implicits.
Arguments list_out T : clear implicits.

(** ** Theorem *)

(** C13. The linked list is a sequence with a position.  Any calls of the operations of a
    list give the results of the same operations on a sequence of objects with a
    position, the scan pointer, and no item is used after it was deleted; the only
    failure is the assertion of [DeleteCurrent] when the scan is rewound.  An iterator
    then visits the objects of the sequence in order. *)
Theorem list_refines {T} `{EqDecision T} (ops : list (list_op T)) :
  match seq_run (mkSeq [] 0) ops with
  | Some (outs, q) => ∃ s, list_run List_new ops = Some (outs, s) ∧ iter_all (S (length (elems q))) (Initialize s) = Some (elems q)
  | None => list_run List_new ops = None
  end.
Proof.
  assert (∀ s q, rep s q → match seq_run q ops with
    | Some (outs, q') => ∃ s', list_run s ops = Some (outs, s') ∧ rep s' q'
    | None => list_run s ops = None
    end) as Hrun.
  { induction ops as [|op ops IH]; intros s q Hr; cbn [seq_run list_run]; [eauto|].
    pose proof (list_step_rep s q op Hr) as Hs. destruct (seq_step q op) as [[out q1]|]; cbn [mbind option_bind]; [|by rewrite Hs].
    destruct Hs as (s1 & -> & H1). cbn [mbind option_bind]. specialize (IH s1 q1 H1). destruct (seq_run q1 ops) as [[outs q2]|]; cbn [mbind option_bind]; [|by rewrite IH].
    destruct IH as (s2 & -> & H2). cbn. eauto. }
  specialize (Hrun List_new (mkSeq [] 0) new_rep). destruct (seq_run _ ops) as [[outs q]|]; [|done].
  destruct Hrun as (s & E & Hr). exists s. split; [done|]. by apply iter_all_rep.
Qed.
