(* ===== verification/StringList.v ===== *)
(** * Lists of strings

    The class [StringList] of [condor_utils/string_list.cpp]: its text, the
    searches with and without an asterisk, the operations on sets of strings, sorting
    and shuffling.  The list [m_strings] is used through what [DList] promises, a
    sequence with a position. *)

From Stdlib Require Import ZArith Lia Ascii SpecFloat.
From stdpp Require Import base gmap list numbers strings sorting.
From S2P Require Import Prelude MyString DList.
Open Scope Z_scope.

Record StringList := mkSL { m_strings : seq_at cstr; m_delimiters : cstr }.
#[export] Instance StringList_updatable : Updatable StringList := fun l => mkSL (m_strings l) (m_delimiters l).
Definition strings (l : StringList) : list cstr := elems (m_strings l).

(** ** Text *)

Definition isSeparator (l : StringList) (x : ascii) : bool := existsb (fun sep => x =c sep) (m_delimiters l).
Definition append (l : StringList) (s : cstr) : StringList := l <| m_strings ::= fun q => q_append q s |>.

(** The characters before the first that satisfies [f]. *)
Fixpoint walk_to (f : ascii → bool) (s : cstr) : cstr :=
  match s with c :: s => if f c then [] else c :: walk_to f s | [] => [] end.

(** The rounds of the outer [while]; each that goes on consumes a character. *)
Fixpoint init_loop (fuel : nat) (l : StringList) (walk_ptr : cstr) : option StringList :=
  match fuel with
  | O => None
  | S fuel =>
      match walk_ptr with
      | [] => Some l
      | _ =>
          match skip_while (fun c => isSeparator l c || isspace c) walk_ptr with
          | [] => Some l
          | begin_ptr =>
              let tmp_string := walk_to (isSeparator l) begin_ptr in
              init_loop fuel (append l tmp_string) (drop (length tmp_string) begin_ptr)
          end
      end
  end.
Definition initializeFromString (l : StringList) (s : cstr) : option StringList := init_loop (S (length s)) l s.
Definition StringList_new (s delim : option cstr) : option StringList :=
  let l := mkSL (mkSeq [] 0) (default [] delim) in
  match s with Some s => initializeFromString l s | None => Some l end.
(** The copy walks an iterator over [other]. *)
Definition StringList_copy (other : StringList) : StringList :=
  foldl append (mkSL (mkSeq [] 0) (m_delimiters other)) (strings other).

(** [buf] is allocated with [print_len] characters. *)
Definition print_len (delim : cstr) (l : list cstr) : nat :=
  foldl (fun len tmp => len + (length tmp + length delim))%nat 1%nat l.
Fixpoint print_loop (delim : cstr) (num n : Z) (buf : cstr) (l : list cstr) : cstr :=
  match l with
  | [] => buf
  | tmp :: l =>
      let buf := buf ++ tmp in
      print_loop delim num (n + 1) (if n + 1 <? num then buf ++ delim else buf) l
  end.
Definition print_to_delimed_string (l : StringList) (delim : option cstr) : option cstr :=
  let delim := default (m_delimiters l) delim in
  let num := Z.of_nat (length (strings l)) in
  if num =? 0 then None else Some (print_loop delim num 0 [] (strings l)).
Definition print_to_string (l : StringList) : option cstr := print_to_delimed_string l (Some (L ",")).

(** ** Searches

    [while( (x = m_strings.Next()) ) if( ... ) return x;] *)
Fixpoint scan (fuel : nat) (q : seq_at cstr) (p : cstr → bool) : option (option cstr * seq_at cstr) :=
  match fuel with
  | O => None
  | S fuel =>
      match q_next q with
      | (None, q) => Some (None, q)
      | (Some x, q) => if p x then Some (Some x, q) else scan fuel q p
      end
  end.
Definition scan_fuel (l : StringList) : nat := S (length (strings l)).
Definition search (l : StringList) (p : cstr → bool) : option (option cstr * StringList) :=
  '(x, q) ← scan (scan_fuel l) (q_rewind (m_strings l)) p; Some (x, l <| m_strings := q |>).
Definition found (r : option cstr * StringList) : bool * StringList := (bool_decide (is_Some r.1), r.2).

(** [strcmp] or [strcasecmp], [strncmp] or [strncasecmp] on the length of [p],
    [strstr] or [strcasestr]. *)
Definition match_eq (anycase : bool) (a b : cstr) : bool := if anycase then strcasecmp_eq a b else bool_decide (a = b).
Definition fold_case (anycase : bool) (a : cstr) : cstr := if anycase then tolower <$> a else a.
Definition match_prefix (anycase : bool) (p s : cstr) : bool := has_prefix (fold_case anycase p) (fold_case anycase s).
Definition match_inside (anycase : bool) (s p : cstr) : bool :=
  bool_decide (is_Some (Str.strstr (fold_case anycase s) (fold_case anycase p))).

Definition contains (l : StringList) (st : cstr) : option (bool * StringList) := found <$> search l (match_eq false st).
Definition contains_anycase (l : StringList) (st : cstr) : option (bool * StringList) := found <$> search l (match_eq true st).
Definition contains_case (anycase : bool) (l : StringList) (st : cstr) : option (bool * StringList) :=
  if anycase then contains_anycase l st else contains l st.
(** Despite its name: some string of the list is a prefix of [st]. *)
Definition substring (l : StringList) (st : cstr) : option (bool * StringList) := found <$> search l (fun x => match_prefix false x st).

Fixpoint strchr (c : ascii) (s : cstr) : option nat :=
  match s with [] => None | d :: s => if d =c c then Some 0%nat else S <$> strchr c s end.
Definition strrchr (c : ascii) (s : cstr) : option nat := (fun i => length s - 1 - i)%nat <$> strchr c (reverse s).
Definition asterisk_char : ascii := "*"%char.

Definition match_end (anycase : bool) (string matchend : cstr) : bool :=
  let len := length string in let matchendlen := length matchend in
  if (len <? matchendlen)%nat then false else match_eq anycase (drop (len - matchendlen) string) matchend.
(** The test of one entry [x] of the list. *)
Definition wildcard_match (anycase : bool) (string x : cstr) : bool :=
  match strchr asterisk_char x with
  | None => match_eq anycase x string
  | Some asterisk =>
      if bool_decide (asterisk = 0%nat) then
        match strrchr asterisk_char x with
        | Some asterisk2 =>
            if bool_decide (S asterisk2 = length x) && negb (bool_decide (asterisk2 = asterisk))
            then match_inside anycase string (take (asterisk2 - 1) (drop 1 x))
            else match_end anycase string (drop 1 x)
        | None => match_end anycase string (drop 1 x)
        end
      else if bool_decide (S asterisk = length x) then match_prefix anycase (take asterisk x) string
      else match_prefix anycase (take asterisk x) string && match_end anycase string (drop (S asterisk) x)
  end.
(** Without [matches] the first entry is the result; otherwise all of them are
    appended to [matches]. *)
Fixpoint scan_matches (fuel : nat) (q : seq_at cstr) (p : cstr → bool) (matches : StringList) : option (seq_at cstr * StringList) :=
  match fuel with
  | O => None
  | S fuel =>
      match q_next q with
      | (None, q) => Some (q, matches)
      | (Some x, q) => scan_matches fuel q p (if p x then append matches x else matches)
      end
  end.
Definition contains_withwildcard (l : StringList) (string : option cstr) (anycase : bool) : option (option cstr * StringList) :=
  match string with None => Some (None, l) | Some string => search l (wildcard_match anycase string) end.
Definition find_matches_anycase_withwildcard (l : StringList) (string : option cstr) (matches : StringList)
    : option (bool * StringList * StringList) :=
  match string with
  | None => Some (false, l, matches)
  | Some string =>
      '(q, matches) ← scan_matches (scan_fuel l) (q_rewind (m_strings l)) (wildcard_match true string) matches;
      let l := l <| m_strings := q |> in
      if bool_decide (strings matches = []) then Some (false, l, matches)
      else let '(x, q) := q_next (q_rewind (m_strings matches)) in
           Some (bool_decide (is_Some x), l, matches <| m_strings := q |>)
  end.

(** Through an iterator, which leaves the scan pointer alone. *)
Definition find (l : StringList) (str : cstr) (anycase : bool) : bool := existsb (match_eq anycase str) (strings l).
Definition identical (l other : StringList) (anycase : bool) : bool :=
  if bool_decide (length (strings other) = length (strings l))
  then forallb (fun x => find l x anycase) (strings other) && forallb (fun x => find other x anycase) (strings l)
  else false.

(** ** Changes *)

Definition deleteCurrent (l : StringList) : option StringList := q ← q_delete_current (m_strings l); Some (l <| m_strings := q |>).
(** [while( (x = m_strings.Next()) ) if( ... ) deleteCurrent();] *)
Fixpoint delete_scan (fuel : nat) (l : StringList) (p : cstr → bool) : option StringList :=
  match fuel with
  | O => None
  | S fuel =>
      match q_next (m_strings l) with
      | (None, q) => Some (l <| m_strings := q |>)
      | (Some x, q) =>
          let l := l <| m_strings := q |> in
          if p x then l ← deleteCurrent l; delete_scan fuel l p else delete_scan fuel l p
      end
  end.
Definition rewound (l : StringList) : StringList := l <| m_strings ::= q_rewind |>.
Definition clearAll (l : StringList) : option StringList := delete_scan (scan_fuel l) (rewound l) (fun _ => true).
Definition remove (l : StringList) (str : cstr) : option StringList := delete_scan (scan_fuel l) (rewound l) (match_eq false str).
Definition remove_anycase (l : StringList) (str : cstr) : option StringList := delete_scan (scan_fuel l) (rewound l) (match_eq true str).

Fixpoint union_loop (fuel : nat) (l subset : StringList) (anycase result : bool) : option (bool * StringList * StringList) :=
  match fuel with
  | O => None
  | S fuel =>
      match q_next (m_strings subset) with
      | (None, q) => Some (result, l, subset <| m_strings := q |>)
      | (Some x, q) =>
          '(ret_val, l) ← contains_case anycase l x;
          if ret_val : bool then union_loop fuel l (subset <| m_strings := q |>) anycase result
          else union_loop fuel (append l x) (subset <| m_strings := q |>) anycase true
      end
  end.
Definition create_union (l subset : StringList) (anycase : bool) : option (bool * StringList * StringList) :=
  union_loop (scan_fuel subset) l (rewound subset) anycase false.
Fixpoint contains_list_loop (fuel : nat) (l subset : StringList) (anycase : bool) : option (bool * StringList * StringList) :=
  match fuel with
  | O => None
  | S fuel =>
      match q_next (m_strings subset) with
      | (None, q) => Some (true, l, subset <| m_strings := q |>)
      | (Some x, q) =>
          '(ret_val, l) ← contains_case anycase l x;
          if ret_val : bool then contains_list_loop fuel l (subset <| m_strings := q |>) anycase
          else Some (false, l, subset <| m_strings := q |>)
      end
  end.
Definition contains_list (l subset : StringList) (anycase : bool) : option (bool * StringList * StringList) :=
  contains_list_loop (scan_fuel subset) l (rewound subset) anycase.

(** ** Order *)

(** The array that [qsort] and [shuffle] fill is put back after [clearAll]. *)
Definition refill (l : StringList) (a : list cstr) : option StringList := l ← clearAll l; Some (foldl append l a).
Definition string_compare (x y : cstr) : Prop := strcmp x y ≠ Gt.
#[export] Instance string_compare_dec x y : Decision (string_compare x y).
Proof. unfold string_compare. apply _. Defined.
Definition qsort (l : StringList) : option StringList :=
  if (length (strings l) <? 2)%nat then Some l else refill l (merge_sort string_compare (strings l)).

(** Single precision.  [drand48] gives a multiple [x] of [2^-48] below one, which
    [get_random_float] converts to [float]. *)
Definition float_of (m e : Z) : spec_float := binary_normalize 24 128 m e false.
Definition get_random_float (x : Z) : spec_float := float_of x (-48).
(** Conversion of a non-negative [float] to [unsigned int]: the fraction is cut off. *)
Definition float_trunc (f : spec_float) : Z :=
  match f with S754_finite false m e => if e <? 0 then Z.pos m / 2 ^ (- e) else Z.pos m * 2 ^ e | _ => 0 end.
Definition shuffle_pick (count i x : Z) : Z :=
  float_trunc (SFadd 24 128 (float_of i 0) (SFmul 24 128 (get_random_float x) (float_of (count - i) 0))).
(** [a[i]] and [a[j]] are read and written; [None] is an access out of bounds. *)
Definition swap (a : list cstr) (i j : nat) : option (list cstr) :=
  x ← a !! i; y ← a !! j; Some (<[j := x]> (<[i := y]> a)).
Fixpoint shuffle_loop (n : nat) (i : nat) (xs : nat → Z) (a : list cstr) : option (list cstr) :=
  match n with
  | O => Some a
  | S n => a' ← swap a i (Z.to_nat (shuffle_pick (Z.of_nat (length a)) (Z.of_nat i) (xs i))); shuffle_loop n (S i) xs a'
  end.
(** [xs i] is the number that [drand48] gives in round [i]. *)
Definition shuffle (l : StringList) (xs : nat → Z) : option StringList :=
  a ← shuffle_loop (length (strings l) - 1) 0 xs (strings l); refill l a.

(** ** Scans *)

Lemma q_next_lt (l : list cstr) i x : l !! i = Some x → q_next (mkSeq l i) = (Some x, mkSeq l (S i)).
Proof. unfold q_next. cbn. by intros ->. Qed.
Lemma q_next_end (l : list cstr) i : (length l ≤ i)%nat → q_next (mkSeq l i) = (None, mkSeq l i).
Proof. unfold q_next. cbn. intros Hi. by rewrite lookup_ge_None_2. Qed.

Lemma scan_spec p l2 : ∀ fuel l1, (length l2 < fuel)%nat →
  scan fuel (mkSeq (l1 ++ l2) (length l1)) p =
    Some match list_find p l2 with
         | Some (k, x) => (Some x, mkSeq (l1 ++ l2) (length l1 + S k))
         | None => (None, mkSeq (l1 ++ l2) (length (l1 ++ l2)))
         end.
Proof.
  induction l2 as [|x l2 IH]; intros [|fuel] l1 Hf; cbn in Hf; try lia; cbn [scan list_find].
  - rewrite app_nil_r, q_next_end by lia. done.
  - rewrite (q_next_lt _ _ x) by (apply list_lookup_middle; done).
    destruct (p x) eqn:E; [rewrite decide_True by done; do 3 f_equal; lia|].
    rewrite decide_False by (by intros []). specialize (IH fuel (l1 ++ [x]) ltac:(lia)).
    rewrite <-app_assoc, length_app, Nat.add_1_r in IH. cbn [app] in IH. rewrite IH.
    destruct (list_find _ l2) as [[k y]|]; cbn; do 3 f_equal. lia.
Qed.
(** The list is unchanged, and the scan pointer is left on the entry found. *)
Lemma search_spec l p : search l p = Some (match list_find p (strings l) with
  | Some (i, x) => (Some x, mkSL (mkSeq (strings l) (S i)) (m_delimiters l))
  | None => (None, mkSL (mkSeq (strings l) (length (strings l))) (m_delimiters l))
  end).
Proof.
  unfold search, scan_fuel. pose proof (scan_spec p (strings l) (S (length (strings l))) [] ltac:(lia)) as E.
  cbn [app length] in E. unfold q_rewind. fold (strings l). rewrite E. by destruct (list_find _ _) as [[]|].
Qed.
Lemma list_find_existsb (p : cstr → bool) l : bool_decide (is_Some (list_find p l)) = existsb p l.
Proof.
  induction l as [|x l IH]; [done|]. cbn. destruct (p x) eqn:E; [by rewrite decide_True|].
  rewrite decide_False by (by intros []). cbn. rewrite <-IH. by destruct (list_find _ l).
Qed.
Lemma found_search l p : ∃ q, found <$> search l p = Some (existsb p (strings l), mkSL (mkSeq (strings l) q) (m_delimiters l)).
Proof.
  rewrite search_spec, <-list_find_existsb. destruct (list_find _ _) as [[i x]|]; unfold found; cbn; eauto.
Qed.
Lemma contains_case_spec any l x : ∃ q, contains_case any l x = Some (find l x any, mkSL (mkSeq (strings l) q) (m_delimiters l)).
Proof. unfold contains_case. destruct any; apply found_search. Qed.

Lemma delete_scan_spec p d l2 : ∀ fuel l1, (length l2 < fuel)%nat → ∃ n,
  delete_scan fuel (mkSL (mkSeq (l1 ++ l2) (length l1)) d) p = Some (mkSL (mkSeq (l1 ++ filter (fun x => p x = false) l2) n) d).
Proof.
  induction l2 as [|x l2 IH]; intros [|fuel] l1 Hf; cbn in Hf; try lia; cbn [delete_scan m_strings].
  - rewrite app_nil_r, q_next_end by lia. rewrite filter_nil, app_nil_r. eauto.
  - rewrite (q_next_lt _ _ x) by (apply list_lookup_middle; done). unfold field_update; cbn [m_strings m_delimiters].
    rewrite filter_cons. destruct (p x).
    + unfold deleteCurrent, q_delete_current. cbn [m_strings pos elems mbind option_bind]. rewrite delete_middle, decide_False by done.
      unfold field_update; cbn [m_strings m_delimiters]. apply IH. lia.
    + rewrite decide_True by done. specialize (IH fuel (l1 ++ [x]) ltac:(lia)).
      rewrite <-!app_assoc, length_app, Nat.add_1_r in IH. by cbn [app] in IH.
Qed.
Lemma delete_scan_all p l : ∃ n, delete_scan (scan_fuel l) (rewound l) p =
  Some (mkSL (mkSeq (filter (fun x => p x = false) (strings l)) n) (m_delimiters l)).
Proof. apply (delete_scan_spec p (m_delimiters l) (strings l) _ []). unfold scan_fuel. lia. Qed.
Lemma strings_foldl_append a : ∀ l, strings (foldl append l a) = strings l ++ a ∧ m_delimiters (foldl append l a) = m_delimiters l.
Proof.
  induction a as [|x a IH]; intros l; cbn [foldl]; [by rewrite app_nil_r|].
  destruct (IH (append l x)) as [-> ->]. unfold append, strings, field_update. cbn. by rewrite <-app_assoc.
Qed.
Lemma refill_spec l a : ∃ l', refill l a = Some l' ∧ strings l' = a ∧ m_delimiters l' = m_delimiters l.
Proof.
  unfold refill, clearAll. destruct (delete_scan_all (fun _ => true) l) as [n ->]. cbn [mbind option_bind]. eexists. split; [done|].
  destruct (strings_foldl_append a (mkSL (mkSeq (filter (fun x => (fun _ => true) x = false) (strings l)) n) (m_delimiters l))) as [-> ->].
  split; [|done]. unfold strings at 1. cbn. by induction (strings l).
Qed.

(** ** Sets of strings *)

Lemma match_eq_spec any a b : match_eq any a b = true ↔ fold_case any a = fold_case any b.
Proof. destruct any; cbn; [unfold strcasecmp_eq|]; by rewrite bool_decide_eq_true. Qed.
Lemma find_spec l x any : find l x any = true ↔ fold_case any x ∈ fold_case any <$> strings l.
Proof.
  unfold find. rewrite existsb_exists, list_elem_of_fmap. split; intros (y & H1 & H2).
  - exists y. split; [by apply match_eq_spec|by apply list_elem_of_In].
  - exists y. split; [by apply list_elem_of_In|by apply match_eq_spec].
Qed.
Lemma find_append l x y any : find (append l x) y any = find l y any || match_eq any y x.
Proof. unfold find, strings, append, field_update. cbn. rewrite existsb_app. cbn. by rewrite orb_false_r. Qed.
Lemma find_same l q y any : find (mkSL (mkSeq (strings l) q) (m_delimiters l)) y any = find l y any.
Proof. done. Qed.

(** What the entries [new] add to the set [l]: those of [s] that it lacks, once each
    and in order. *)
Record adds (any : bool) (l s new l' : list cstr) : Prop := {
  ad_strings : l' = l ++ new;
  ad_sub : new `sublist_of` s;
  ad_nodup : NoDup (fold_case any <$> new);
  ad_new x : x ∈ new → fold_case any x ∉ fold_case any <$> l;
  ad_all x : x ∈ s → fold_case any x ∈ fold_case any <$> l'
}.
Lemma adds_skip any l x s new l' : fold_case any x ∈ fold_case any <$> l → adds any l s new l' → adds any l (x :: s) new l'.
Proof.
  intros Hx [-> H2 H3 H4 H5]. split; try done; [by constructor|].
  intros y [->|Hy]%elem_of_cons; [|by apply H5]. rewrite fmap_app. set_solver.
Qed.
Lemma adds_cons any l x s new l' : fold_case any x ∉ fold_case any <$> l → adds any (l ++ [x]) s new l' → adds any l (x :: s) (x :: new) l'.
Proof.
  intros Hx [-> H2 H3 H4 H5]. assert (∀ y, y ∈ new → fold_case any y ≠ fold_case any x ∧ fold_case any y ∉ fold_case any <$> l) as Hnew.
  { intros y Hy. specialize (H4 y Hy). rewrite fmap_app in H4. set_solver. }
  split; [by rewrite <-app_assoc|by constructor|..].
  - cbn. apply NoDup_cons. split; [|done]. intros (y & E & Hy)%list_elem_of_fmap. destruct (Hnew y Hy) as [Hne _]. by apply Hne.
  - intros y [->|Hy]%elem_of_cons; [done|by apply Hnew].
  - intros y [->|Hy]%elem_of_cons; [rewrite !fmap_app; set_solver|by apply H5].
Qed.

Lemma not_find l x any : find l x any = false → fold_case any x ∉ fold_case any <$> strings l.
Proof. intros E Hx%find_spec. congruence. Qed.
Lemma union_loop_spec any d s2 : ∀ fuel s1 l res, (length s2 < fuel)%nat → ∃ new l' n,
  union_loop fuel l (mkSL (mkSeq (s1 ++ s2) (length s1)) d) any res
    = Some (res || negb (bool_decide (new = [])), l', mkSL (mkSeq (s1 ++ s2) n) d) ∧
  adds any (strings l) s2 new (strings l') ∧ m_delimiters l' = m_delimiters l.
Proof.
  induction s2 as [|x s2 IH]; intros [|fuel] s1 l res Hf; cbn in Hf; try lia; cbn [union_loop m_strings].
  - rewrite app_nil_r, q_next_end by lia. exists [], l. eexists. rewrite orb_false_r. split; [done|]. split; [|done].
    split; [by rewrite app_nil_r|done|constructor|set_solver..].
  - rewrite (q_next_lt _ _ x) by (apply list_lookup_middle; done). destruct (contains_case_spec any l x) as [q ->].
    cbn [mbind option_bind]. unfold field_update; cbn [m_strings m_delimiters].
    assert (∀ l0 res, ∃ new l' n, union_loop fuel l0 (mkSL (mkSeq (s1 ++ x :: s2) (S (length s1))) d) any res
       = Some (res || negb (bool_decide (new = [])), l', mkSL (mkSeq (s1 ++ x :: s2) n) d) ∧
       adds any (strings l0) s2 new (strings l') ∧ m_delimiters l' = m_delimiters l0) as IH'.
    { intros l0 res0. specialize (IH fuel (s1 ++ [x]) l0 res0 ltac:(lia)). rewrite <-!app_assoc, length_app, Nat.add_1_r in IH. by cbn [app] in IH. }
    destruct (find l x any) eqn:E.
    + destruct (IH' (mkSL (mkSeq (strings l) q) (m_delimiters l)) res) as (new & l' & n & -> & Ha & Hd). exists new, l', n.
      split; [done|]. split; [|done]. apply adds_skip; [by apply find_spec|done].
    + destruct (IH' (append (mkSL (mkSeq (strings l) q) (m_delimiters l)) x) true) as (new & l' & n & -> & Ha & Hd). exists (x :: new), l', n.
      split; [by rewrite orb_true_r|]. split; [|done]. by apply adds_cons; [apply not_find|].
Qed.
Lemma contains_list_loop_spec any d s2 : ∀ fuel s1 l, (length s2 < fuel)%nat → ∃ q n,
  contains_list_loop fuel l (mkSL (mkSeq (s1 ++ s2) (length s1)) d) any
    = Some (forallb (fun x => find l x any) s2, mkSL (mkSeq (strings l) q) (m_delimiters l), mkSL (mkSeq (s1 ++ s2) n) d).
Proof.
  induction s2 as [|x s2 IH]; intros [|fuel] s1 l Hf; cbn in Hf; try lia; cbn [contains_list_loop m_strings forallb].
  - rewrite app_nil_r, q_next_end by lia. exists (pos (m_strings l)). eexists. by destruct l as [[] ?].
  - rewrite (q_next_lt _ _ x) by (apply list_lookup_middle; done). destruct (contains_case_spec any l x) as [q ->].
    cbn [mbind option_bind]. unfold field_update; cbn [m_strings m_delimiters]. destruct (find l x any); [|eauto].
    specialize (IH fuel (s1 ++ [x]) (mkSL (mkSeq (strings l) q) (m_delimiters l)) ltac:(lia)).
    rewrite <-!app_assoc, length_app, Nat.add_1_r in IH. by cbn [app] in IH.
Qed.

(** Two lists of the same length that name the same strings. *)
Lemma identical_spec any l other : identical l other any = true ↔
  length (strings l) = length (strings other) ∧ ∀ x, x ∈ fold_case any <$> strings l ↔ x ∈ fold_case any <$> strings other.
Proof.
  assert (∀ l l' : StringList, forallb (fun x => find l x any) (strings l') = true ↔
    ∀ x, x ∈ fold_case any <$> strings l' → x ∈ fold_case any <$> strings l) as Hall.
  { intros l1 l2. rewrite forallb_Forall, Forall_forall. setoid_rewrite find_spec. set_solver. }
  unfold identical. case_bool_decide as E; [|split; [done|by intros [? _]]].
  rewrite andb_true_iff, !Hall. rewrite E. naive_solver.
Qed.

(** ** Asterisks *)

(** What a pattern with asterisks matches. *)
Fixpoint glob (p s : cstr) : Prop :=
  match p with
  | [] => s = []
  | c :: p => if c =c asterisk_char then ∃ s1 s2, s = s1 ++ s2 ∧ glob p s2 else ∃ s', s = c :: s' ∧ glob p s'
  end.
(** No asterisk; one asterisk, where the string [s] is long enough that what is
    before it and after it do not overlap; one at each end. *)
Inductive simple_pattern (s : cstr) : cstr → Prop :=
| sp_plain x : asterisk_char ∉ x → simple_pattern s x
| sp_one pre post : asterisk_char ∉ pre → asterisk_char ∉ post → (length pre + length post ≤ length s)%nat →
    simple_pattern s (pre ++ asterisk_char :: post)
| sp_both mid : asterisk_char ∉ mid → simple_pattern s (asterisk_char :: mid ++ [asterisk_char]).

Lemma glob_app p q : ∀ s, asterisk_char ∉ p → glob (p ++ q) s ↔ ∃ t, s = p ++ t ∧ glob q t.
Proof.
  induction p as [|c p IH]; intros s Hp; cbn; [naive_solver|]. apply not_elem_of_cons in Hp as [Hc Hp].
  destruct (Ascii.eqb_spec c asterisk_char) as [->|_]; [done|]. setoid_rewrite IH; [|done]. naive_solver.
Qed.
Lemma glob_plain p s : asterisk_char ∉ p → glob p s ↔ s = p.
Proof. intros Hp. rewrite <-(app_nil_r p) at 1. rewrite glob_app by done. cbn. split; [intros (t & -> & ->); by rewrite app_nil_r|intros ->; exists []; by rewrite app_nil_r]. Qed.
Lemma glob_star p s : glob (asterisk_char :: p) s ↔ ∃ s1 s2, s = s1 ++ s2 ∧ glob p s2.
Proof. done. Qed.

Lemma strchr_None c s : c ∉ s → strchr c s = None.
Proof. induction s as [|d s IH]; [done|]. intros [Hc Hs]%not_elem_of_cons. cbn. destruct (Ascii.eqb_spec d c); [congruence|]. by rewrite IH. Qed.
Lemma strchr_app c s t : c ∉ s → strchr c (s ++ c :: t) = Some (length s).
Proof.
  induction s as [|d s IH]; cbn; [by rewrite Ascii.eqb_refl|]. intros [Hc Hs]%not_elem_of_cons.
  destruct (Ascii.eqb_spec d c); [congruence|]. by rewrite IH.
Qed.
Lemma strrchr_app c s t : c ∉ t → strrchr c (s ++ c :: t) = Some (length s).
Proof.
  intros Ht. unfold strrchr. rewrite reverse_app, reverse_cons, <-app_assoc. cbn [app].
  rewrite strchr_app by (by rewrite elem_of_reverse). cbn. rewrite length_app, length_reverse. cbn. f_equal. lia.
Qed.

Lemma fold_case_app any a b : fold_case any (a ++ b) = fold_case any a ++ fold_case any b.
Proof. destruct any; cbn; [apply fmap_app|done]. Qed.
Lemma length_fold_case any a : length (fold_case any a) = length a.
Proof. destruct any; cbn; [apply length_fmap|done]. Qed.
Lemma fold_case_drop any n a : fold_case any (drop n a) = drop n (fold_case any a).
Proof. destruct any; cbn; [apply fmap_drop|done]. Qed.
Lemma tolower_star c : tolower c = asterisk_char → c = asterisk_char.
Proof. destruct c as [[] [] [] [] [] [] [] []]; vm_compute; congruence. Qed.
Lemma fold_case_star any : fold_case any [asterisk_char] = [asterisk_char].
Proof. by destruct any. Qed.
Lemma fold_case_no_star any a : asterisk_char ∉ a → asterisk_char ∉ fold_case any a.
Proof. destruct any; [|done]. cbn. intros Ha (c & E & Hc)%list_elem_of_fmap. symmetry in E. apply tolower_star in E as ->. done. Qed.

Lemma match_prefix_spec any p s : match_prefix any p s = true ↔ ∃ t, fold_case any s = fold_case any p ++ t.
Proof. apply Str.has_prefix_spec. Qed.
Lemma strstr_is_Some s p : is_Some (Str.strstr s p) ↔ ∃ a b, s = a ++ p ++ b.
Proof.
  induction s as [|c s IH]; cbn [Str.strstr]; destruct (has_prefix p _) eqn:E.
  - apply Str.has_prefix_spec in E as [t E]. split; [|eauto]. by exists [], t.
  - split; [by intros []|]. intros (a & b & E'). symmetry in E'. apply app_eq_nil in E' as [-> [-> ->]%app_eq_nil]. done.
  - apply Str.has_prefix_spec in E as [t E]. split; [|eauto]. by exists [], t.
  - rewrite fmap_is_Some, IH. split; intros (a & b & E').
    + exists (c :: a), b. by rewrite E'.
    + destruct a as [|d a]; cbn in E'; [|simplify_eq; eauto].
      assert (has_prefix p (c :: s) = true) by (apply Str.has_prefix_spec; eauto). congruence.
Qed.
Lemma match_inside_spec any s p : match_inside any s p = true ↔ ∃ a b, fold_case any s = a ++ fold_case any p ++ b.
Proof. unfold match_inside. by rewrite bool_decide_eq_true, strstr_is_Some. Qed.
Lemma match_end_spec any s m : match_end any s m = true ↔ ∃ t, fold_case any s = t ++ fold_case any m.
Proof.
  unfold match_end. destruct (Nat.ltb_spec (length s) (length m)) as [Hlt|Hge].
  - split; [done|]. intros [t E]. apply (f_equal length) in E. rewrite length_app, !length_fold_case in E. lia.
  - rewrite match_eq_spec, fold_case_drop. split.
    + intros E. exists (take (length s - length m) (fold_case any s)). by rewrite <-E, take_drop.
    + intros [t E]. rewrite E, drop_app_length'; [done|]. apply (f_equal length) in E. rewrite length_app, !length_fold_case in E. lia.
Qed.

Lemma prefix_suffix (p q t u : cstr) : p ++ t = u ++ q → (length p + length q ≤ length (u ++ q))%nat → ∃ m, t = m ++ q.
Proof.
  intros E Hlen. rewrite length_app in Hlen. exists (drop (length p) u). apply (f_equal (drop (length p))) in E.
  by rewrite drop_app_length, drop_app_le in E by lia.
Qed.
Lemma both_ends any s pre post : (length pre + length post ≤ length s)%nat →
  match_prefix any pre s && match_end any s post = true ↔
  ∃ t, fold_case any s = fold_case any pre ++ t ∧ ∃ s1 s2, t = s1 ++ s2 ∧ s2 = fold_case any post.
Proof.
  intros Hlen. rewrite andb_true_iff, match_prefix_spec, match_end_spec. split.
  - intros [[t E] [u E']]. exists t. split; [done|]. destruct (prefix_suffix (fold_case any pre) (fold_case any post) t u) as [m ->]; [congruence| |eauto].
    by rewrite <-E', !length_fold_case.
  - intros (t & E & s1 & s2 & -> & ->). split; [eauto|]. exists (fold_case any pre ++ s1). by rewrite <-app_assoc.
Qed.

(** A simple pattern is matched as it reads. *)
Lemma wildcard_match_glob any s x : simple_pattern s x → wildcard_match any s x = true ↔ glob (fold_case any x) (fold_case any s).
Proof.
  intros Hx. unfold wildcard_match. destruct Hx as [x Hx|pre post Hpre Hpost Hlen|mid Hmid].
  - rewrite strchr_None, match_eq_spec, glob_plain by (done || by apply fold_case_no_star). naive_solver.
  - rewrite strchr_app by done. change (asterisk_char :: post) with ([asterisk_char] ++ post). rewrite !fold_case_app, fold_case_star.
    rewrite glob_app by (by apply fold_case_no_star). setoid_rewrite glob_star. setoid_rewrite glob_plain; [|by apply fold_case_no_star].
    rewrite <-both_ends by done. destruct pre as [|c pre]; cbn [app length].
    + rewrite bool_decide_true by done. pose proof (strrchr_app asterisk_char [] post Hpost) as E. cbn [app length] in E. rewrite E, andb_false_r. by destruct any.
    + rewrite bool_decide_false by done. rewrite length_app. cbn [length]. rewrite Nat.add_succ_r.
      change (take _ _) with (c :: take (length pre) (pre ++ asterisk_char :: post)). rewrite take_app_length.
      change (drop _ _) with (drop (S (length pre)) (pre ++ asterisk_char :: post)).
      rewrite drop_app_ge, Nat.sub_succ_l, Nat.sub_diag by lia. cbn [drop].
      case_bool_decide as E; [|done]. destruct post; [|cbn in E; lia]. cbn [match_end]. rewrite andb_comm.
      unfold match_end. cbn. rewrite Nat.sub_0_r, drop_all. by destruct any.
  - change (strchr _ _) with (Some 0%nat). cbv beta iota. rewrite bool_decide_true by done.
    pose proof (strrchr_app asterisk_char (asterisk_char :: mid) [] ltac:(set_solver)) as E. cbn [app length] in E. rewrite E. clear E.
    cbn [length]. rewrite bool_decide_true, bool_decide_false by (rewrite ?length_app; cbn; lia). cbn [andb negb drop].
    rewrite drop_0, Nat.sub_succ, Nat.sub_0_r, take_app_length, match_inside_spec.
    change (asterisk_char :: mid ++ [asterisk_char]) with ([asterisk_char] ++ mid ++ [asterisk_char]). rewrite !fold_case_app, fold_case_star.
    cbn [app]. rewrite glob_star. setoid_rewrite glob_app; [|by apply fold_case_no_star]. setoid_rewrite glob_star. cbn. split.
    + intros (a & b & E). exists a, (fold_case any mid ++ b). split; [done|]. exists b. split; [done|]. exists b, []. by rewrite app_nil_r.
    + intros (a & ? & E & b & -> & _). eauto.
Qed.

(** ** Order *)

Lemma swap_perm a i j a' : swap a i j = Some a' → a' ≡ₚ a ∧ length a' = length a.
Proof.
  unfold swap. destruct (a !! i) as [x|] eqn:Ei; [|done]. destruct (a !! j) as [y|] eqn:Ej; [|done]. cbn. intros [= <-].
  split; [|by rewrite !length_insert]. destruct (decide (i = j)) as [->|Hij].
  { simplify_eq. by rewrite !list_insert_id by (rewrite ?list_lookup_insert_eq; eauto using lookup_lt_Some). }
  apply Permutation_inj. split; [by rewrite !length_insert|].
  exists (fun k => if decide (k = i) then j else if decide (k = j) then i else k). split.
  - intros k k' E. repeat case_decide; congruence.
  - intros k. pose proof (lookup_lt_Some _ _ _ Ei). pose proof (lookup_lt_Some _ _ _ Ej). repeat case_decide; subst.
    + by rewrite list_lookup_insert_ne, list_lookup_insert_eq.
    + by rewrite list_lookup_insert_eq by (by rewrite length_insert).
    + by rewrite !list_lookup_insert_ne.
Qed.
Lemma shuffle_loop_spec xs n : ∀ i a, (i + n < length a)%nat ∨ n = 0%nat →
  (∀ k, (i ≤ k < i + n)%nat → 0 ≤ shuffle_pick (Z.of_nat (length a)) (Z.of_nat k) (xs k) < Z.of_nat (length a)) →
  ∃ a', shuffle_loop n i xs a = Some a' ∧ a' ≡ₚ a.
Proof.
  induction n as [|n IH]; intros i a Hn Hp; cbn [shuffle_loop]; [eauto|].
  destruct (swap a i _) as [a1|] eqn:E; cbn [mbind option_bind].
  - apply swap_perm in E as [E1 E2]. destruct (IH (S i) a1) as (a' & -> & E'); [rewrite E2; lia| |].
    + intros k Hk. rewrite E2. apply Hp. lia.
    + exists a'. split; [done|]. by rewrite E'.
  - specialize (Hp i ltac:(lia)). unfold swap in E. destruct (lookup_lt_is_Some_2 a i ltac:(lia)) as [x Hx]. rewrite Hx in E. cbn [mbind option_bind] in E.
    match type of E with context [a !! ?j] => destruct (lookup_lt_is_Some_2 a j ltac:(lia)) as [y Hy]; rewrite Hy in E end. done.
Qed.

#[export] Instance string_compare_total : Total string_compare.
Proof. intros x y. unfold string_compare. rewrite (strcmp_antisym x y). destruct (strcmp x y); naive_solver. Qed.

(** ** Text *)

(** Entries as the text can name them. *)
Definition item_ok (l : StringList) (x : cstr) : Prop :=
  Forall (fun c => isSeparator l c = false) x ∧ match x with [] => False | c :: _ => isspace c = false end.
(** A delimiter that the list takes apart again. *)
Definition delim_ok (l : StringList) (d : cstr) : Prop :=
  Forall (fun c => isSeparator l c || isspace c = true) d ∧ match d with [] => False | c :: _ => isSeparator l c = true end.

Lemma walk_to_all f x t : Forall (fun c => f c = false) x → match t with [] => True | c :: _ => f c = true end → walk_to f (x ++ t) = x.
Proof. induction 1 as [|c x Hc Hx IH]; intros Ht; cbn; [destruct t; cbn; [done|by rewrite Ht]|]. rewrite Hc. f_equal. by apply IH. Qed.
Lemma walk_to_none f s : Forall (fun c => f c = false) (walk_to f s).
Proof. induction s as [|c s IH]; cbn; [constructor|]. destruct (f c) eqn:E; constructor; done. Qed.
Lemma skip_while_length f s : (length (skip_while f s) ≤ length s)%nat.
Proof. induction s as [|c s IH]; cbn; [done|]. destruct (f c); cbn; lia. Qed.

Lemma init_loop_S fuel l c w : init_loop (S fuel) l (c :: w) =
  match skip_while (fun c => isSeparator l c || isspace c) (c :: w) with
  | [] => Some l
  | begin_ptr => let tmp := walk_to (isSeparator l) begin_ptr in init_loop fuel (append l tmp) (drop (length tmp) begin_ptr)
  end.
Proof. done. Qed.
(** Any text gives entries that text can name; they go to the end of the list. *)
Lemma init_loop_items fuel : ∀ l w, (length w < fuel)%nat →
  ∃ new l', init_loop fuel l w = Some l' ∧ l' = foldl append l new ∧ Forall (item_ok l) new.
Proof.
  induction fuel as [|fuel IH]; intros l w Hf; [lia|]. destruct w as [|c w]; [by exists [], l|]. rewrite init_loop_S.
  pose proof (skip_while_length (fun c => isSeparator l c || isspace c) (c :: w)) as Hlen.
  destruct (skip_while _ _) as [|d b] eqn:E; [by exists [], l|]. pose proof (skip_while_not _ _ _ _ E) as Hd. apply orb_false_iff in Hd as [Hd1 Hd2].
  cbn zeta. destruct (IH (append l (walk_to (isSeparator l) (d :: b))) (drop (length (walk_to (isSeparator l) (d :: b))) (d :: b))) as (new & l' & -> & E' & Hok).
  { cbn [walk_to]. rewrite Hd1. cbn [length drop]. rewrite length_drop. cbn in *. lia. }
  exists (walk_to (isSeparator l) (d :: b) :: new), l'. split; [done|]. split; [done|]. constructor; [|done].
  split; [apply walk_to_none|]. cbn. by rewrite Hd1.
Qed.
Lemma item_ok_skip l x t : item_ok l x → skip_while (fun c => isSeparator l c || isspace c) (x ++ t) = x ++ t.
Proof. intros [Hs Hx]. destruct x as [|c x]; [done|]. apply Forall_cons in Hs as [Hc _]. cbn. by rewrite Hc, Hx. Qed.

(** What is printed. *)
Fixpoint join_with (d : cstr) (l : list cstr) : cstr :=
  match l with [] => [] | [x] => x | x :: l => x ++ d ++ join_with d l end.
Lemma print_loop_join d num l : ∀ n buf, n + Z.of_nat (length l) = num → print_loop d num n buf l = buf ++ join_with d l.
Proof.
  induction l as [|x l IH]; intros n buf Hn; cbn [print_loop join_with]; [by rewrite app_nil_r|]. cbn [length] in Hn.
  rewrite IH by lia. destruct l as [|y l].
  - rewrite (proj2 (Z.ltb_ge _ _)) by (cbn in *; lia). by rewrite app_nil_r.
  - rewrite (proj2 (Z.ltb_lt _ _)) by (cbn in *; lia). by rewrite <-!app_assoc.
Qed.
Lemma print_len_join d l : l ≠ [] → (length (join_with d l) < print_len d l)%nat.
Proof.
  unfold print_len. intros Hl. assert (∀ n, foldl (fun len tmp => len + (length tmp + length d))%nat n l ≥ n + length (join_with d l))%nat as Hb.
  { clear Hl. induction l as [|x [|y l] IH]; intros n; cbn -[join_with] in *; [cbn; lia|cbn; lia|].
    specialize (IH (n + (length x + length d))%nat). change (join_with d (x :: y :: l)) with (x ++ d ++ join_with d (y :: l)). rewrite !length_app. lia. }
  specialize (Hb 1%nat). lia.
Qed.
Lemma isSeparator_append l x : isSeparator (append l x) = isSeparator l.
Proof. done. Qed.
Lemma init_loop_skip l d c w fuel : Forall (fun c => isSeparator l c || isspace c = true) d →
  init_loop (S fuel) l (d ++ c :: w) = init_loop (S fuel) l (c :: w).
Proof.
  intros Hd. destruct d as [|e d]; [done|]. cbn [app]. rewrite !init_loop_S.
  change (e :: d ++ c :: w) with ((e :: d) ++ c :: w). by rewrite skip_while_app_all by (by apply forallb_Forall).
Qed.
Lemma init_loop_join d items : ∀ fuel l, Forall (item_ok l) items → delim_ok l d →
  (length (join_with d items) < fuel)%nat → init_loop fuel l (join_with d items) = Some (foldl append l items).
Proof.
  induction items as [|x items IH]; intros [|fuel] l Hi Hd Hf; try lia; [done|]. apply Forall_cons in Hi as [Hx Hi].
  assert (∃ t, join_with d (x :: items) = x ++ t ∧ match t with [] => True | c :: _ => isSeparator l c = true end ∧
    match items with [] => t = [] | _ => t = d ++ join_with d items end) as (t & E & Ht & Hcase).
  { destruct items as [|y items]; [exists []; cbn; rewrite app_nil_r; auto|]. eexists. split; [done|]. split; [|done].
    destruct Hd as [_ Hd]. by destruct d. }
  rewrite E in *. destruct x as [|c x]; [by destruct Hx|]. cbn [app]. rewrite init_loop_S.
  change (c :: x ++ t) with ((c :: x) ++ t). rewrite item_ok_skip by done. cbn [app]. change (c :: x ++ t) with ((c :: x) ++ t). cbn zeta.
  rewrite walk_to_all by (done || apply Hx). rewrite drop_app_length. cbn [foldl]. rewrite length_app in Hf. cbn [length] in Hf.
  destruct items as [|y items]; subst t; [by destruct fuel; [cbn in Hf; lia|]|].
  rewrite length_app in Hf. rewrite <-IH with (fuel := fuel) by (done || lia). destruct fuel as [|fuel]; [lia|].
  destruct (join_with d (y :: items)) as [|e w] eqn:Ej; [|apply init_loop_skip, Hd].
  exfalso. apply Forall_cons in Hi as [Hy _]. destruct y; [by destruct Hy|]. by destruct items.
Qed.

(** ** Theorems *)

(** C31. The text of a list.  Reading any text ends and gives entries that text can
    name.  A list of such entries that is printed with a delimiter of its own fits the
    buffer that was allocated for it, and reading the text gives the list back. *)
Theorem StringList_roundtrip (s d delim : cstr) (l : StringList) :
  m_delimiters l = d → Forall (item_ok l) (strings l) → strings l ≠ [] → delim_ok l delim →
  (∃ l1, StringList_new (Some s) (Some d) = Some l1 ∧ m_delimiters l1 = d ∧ Forall (item_ok l) (strings l1)) ∧
  ∃ txt l2, print_to_delimed_string l (Some delim) = Some txt ∧ (length txt < print_len delim (strings l))%nat ∧
    StringList_new (Some txt) (Some d) = Some l2 ∧ strings l2 = strings l ∧ m_delimiters l2 = d.
Proof.
  intros Hd Hok Hne Hdel. assert (isSeparator (mkSL (mkSeq [] 0) d) = isSeparator l) as Hsep by (by rewrite <-Hd).
  assert (∀ x, item_ok (mkSL (mkSeq [] 0) d) x ↔ item_ok l x) as Hi by (intros x; unfold item_ok; by rewrite Hsep). split.
  - destruct (init_loop_items (S (length s)) (mkSL (mkSeq [] 0) d) s) as (new & l1 & E & -> & Hnew); [lia|]. exists (foldl append (mkSL (mkSeq [] 0) d) new).
    split; [exact E|]. destruct (strings_foldl_append new (mkSL (mkSeq [] 0) d)) as [-> ->]. split; [done|].
    eapply Forall_impl; [exact Hnew|]. intros x. apply Hi.
  - unfold print_to_delimed_string. rewrite (proj2 (Z.eqb_neq _ _)) by (destruct (strings l); cbn; [done|lia]).
    rewrite print_loop_join by lia. cbn [default from_option app]. eexists _, _. split; [done|]. split; [by apply print_len_join|].
    unfold StringList_new, initializeFromString. cbn [default from_option]. rewrite init_loop_join; [split; [done|]|..|lia].
    + apply (strings_foldl_append (strings l)).
    + eapply Forall_impl; [exact Hok|]. intros x. apply Hi.
    + subst d. exact Hdel.
Qed.
Definition sample : StringList := mkSL (mkSeq [L "a b"; L "c"] 0) (L ",").
Lemma StringList_roundtrip_witness : print_to_string sample = Some (L "a b,c") ∧ ∃ l, StringList_new (Some (L "a b,c")) (Some (L ",")) = Some l ∧ strings l = strings sample.
Proof.
  split; [done|]. destruct (StringList_roundtrip (L " a ,") (L ",") (L ",") sample) as [_ (txt & l & E & _ & E' & Hl & _)];
    [done|repeat (constructor; [vm_compute; repeat constructor|]); constructor|done|by repeat constructor|].
  injection E as <-. exists l. split; [exact E'|exact Hl].
Defined.

(** Wildcards.  When the entries have no asterisk, one asterisk that leaves room
    for both parts in the string, or one at each end, [contains_withwildcard] gives the
    first entry that matches the string, and leaves the list and the scan pointer
    on that entry; it gives NULL exactly when none matches. *)
Theorem contains_withwildcard_spec (l : StringList) (s : cstr) (anycase : bool) :
  Forall (simple_pattern s) (strings l) →
  let matches x := glob (fold_case anycase x) (fold_case anycase s) in
  ∃ r l', contains_withwildcard l (Some s) anycase = Some (r, l') ∧ strings l' = strings l ∧
    match r with
    | Some x => ∃ i, strings l !! i = Some x ∧ q_current (m_strings l') = Some x ∧ matches x ∧ ∀ j y, (j < i)%nat → strings l !! j = Some y → ¬ matches y
    | None => ∀ x, x ∈ strings l → ¬ matches x
    end.
Proof.
  intros Hp matches. assert (∀ x, x ∈ strings l → wildcard_match anycase s x ↔ matches x) as Hm.
  { intros x Hx. unfold matches. rewrite <-wildcard_match_glob by (by eapply Forall_forall in Hp). apply Is_true_true. }
  cbn [contains_withwildcard]. rewrite search_spec. destruct (list_find _ _) as [[i x]|] eqn:E; eexists _, _; (split; [done|]; split; [done|]).
  - apply list_find_Some in E as (Hi & Hx & Hj). exists i. split; [done|]. split; [done|]. split; [apply Hm; [by eapply list_elem_of_lookup_2|done]|].
    intros j y Hlt Hy Hyes. apply (Hj j y); [done..|]. apply Hm; [by eapply list_elem_of_lookup_2|done].
  - apply list_find_None in E. intros x Hx Hyes. eapply Forall_forall in E; [|done]. apply E. by apply Hm.
Qed.
Definition hosts : StringList := mkSL (mkSeq [L "ppp*"; L "*.cs.*"; L "a*.edu"] 0) (L ",").
Lemma contains_withwildcard_spec_witness : (fst <$> contains_withwildcard hosts (Some (L "ASTER.edu")) true) = Some (Some (L "a*.edu")) ∧
  ∃ r l', contains_withwildcard hosts (Some (L "ASTER.edu")) true = Some (r, l') ∧ strings l' = strings hosts.
Proof.
  split; [done|]. destruct (contains_withwildcard_spec hosts (L "ASTER.edu") true) as (r & l' & E & Hl & _); [|exists r, l'; split; [exact E|exact Hl]].
  constructor; [apply (sp_one _ (L "ppp") []); [by apply (bool_decide_unpack _)..|cbn; lia]|].
  constructor; [apply (sp_both _ (L ".cs.")); by apply (bool_decide_unpack _)|].
  constructor; [apply (sp_one _ (L "a") (L ".edu")); [by apply (bool_decide_unpack _)..|cbn; lia]|constructor].
Defined.
(** The two parts of an entry may overlap in the string. *)
Lemma wildcard_overlap : wildcard_match false (L "aba") (L "ab*ba") = true ∧ ¬ glob (L "ab*ba") (L "aba").
Proof.
  split; [done|]. change (L "ab*ba") with (L "ab" ++ asterisk_char :: L "ba"). rewrite glob_app by (by apply (bool_decide_unpack _)).
  intros (t & [= <-] & s1 & s2 & E & (c & -> & d & -> & ->)). by destruct s1 as [|? [|? ?]].
Qed.

(** Sets of strings, with or without case.  No call fails.  [create_union] appends the
    strings of the subset that the list lacks, once each and in order, and tells whether there
    were any; [contains_list] decides the subset; [identical] decides whether two lists
    have the same length and name the same strings; [remove] drops every copy of a
    string and nothing else. *)
Theorem StringList_sets (l other : StringList) (anycase : bool) (x : cstr) :
  (∃ new l' o', create_union l other anycase = Some (negb (bool_decide (new = [])), l', o') ∧
     adds anycase (strings l) (strings other) new (strings l') ∧ strings o' = strings other) ∧
  (∃ b l' o', contains_list l other anycase = Some (b, l', o') ∧ strings l' = strings l ∧ strings o' = strings other ∧
     (b = true ↔ ∀ y, y ∈ strings other → fold_case anycase y ∈ fold_case anycase <$> strings l)) ∧
  (identical l other anycase = true ↔ length (strings l) = length (strings other) ∧
     ∀ y, y ∈ fold_case anycase <$> strings l ↔ y ∈ fold_case anycase <$> strings other) ∧
  (∃ l', (if anycase then remove_anycase l x else remove l x) = Some l' ∧
     strings l' = filter (fun y => fold_case anycase x ≠ fold_case anycase y) (strings l)).
Proof.
  split_and!.
  - destruct (union_loop_spec anycase (m_delimiters other) (strings other) (scan_fuel other) [] l false) as (new & l' & n & E & Ha & _); [unfold scan_fuel; lia|].
    exists new, l', (mkSL (mkSeq (strings other) n) (m_delimiters other)). split; [exact E|done].
  - destruct (contains_list_loop_spec anycase (m_delimiters other) (strings other) (scan_fuel other) [] l) as (q & n & E); [unfold scan_fuel; lia|].
    eexists _, _, _. split; [exact E|]. split; [done|]. split; [done|]. rewrite forallb_Forall, Forall_forall. by setoid_rewrite find_spec.
  - apply identical_spec.
  - destruct (delete_scan_all (match_eq anycase x) l) as [n E].
    exists (mkSL (mkSeq (filter (fun y => match_eq anycase x y = false) (strings l)) n) (m_delimiters l)).
    split; [destruct anycase; exact E|]. apply list_filter_iff. intros y. rewrite <-not_true_iff_false, match_eq_spec. done.
Qed.
(** [identical] does not count the copies. *)
Lemma identical_copies : identical (mkSL (mkSeq [L "a"; L "a"; L "b"] 0) []) (mkSL (mkSeq [L "a"; L "b"; L "b"] 0) []) false = true.
Proof. done. Qed.

(** Order.  [qsort] gives the strings in the order of [strcmp], and [shuffle] gives
    a permutation of them as long as the index it computes stays inside the array. *)
Theorem StringList_order (l : StringList) (xs : nat → Z) :
  let count := Z.of_nat (length (strings l)) in
  (∀ k, (S k < length (strings l))%nat → 0 ≤ shuffle_pick count (Z.of_nat k) (xs k) < count) →
  (∃ l', qsort l = Some l' ∧ strings l' ≡ₚ strings l ∧ Sorted string_compare (strings l')) ∧
  ∃ l', shuffle l xs = Some l' ∧ strings l' ≡ₚ strings l.
Proof.
  intros count Hp. split.
  - unfold qsort. destruct (Nat.ltb_spec (length (strings l)) 2) as [Hlt|Hge].
    + exists l. split; [done|]. split; [done|]. destruct (strings l) as [|x [|y a]]; cbn in Hlt; [constructor|by repeat constructor|lia].
    + destruct (refill_spec l (merge_sort string_compare (strings l))) as (l' & -> & Hl & _). eexists. split; [done|]. rewrite Hl.
      split; [apply merge_sort_Permutation|]. apply Sorted_merge_sort, _.
  - unfold shuffle. destruct (shuffle_loop_spec xs (length (strings l) - 1) 0 (strings l)) as (a & -> & Ha); [lia|intros k Hk; apply Hp; lia|].
    cbn [mbind option_bind]. destruct (refill_spec l a) as (l' & -> & Hl & _). exists l'. by rewrite Hl.
Qed.
Lemma StringList_order_witness : (strings <$> shuffle (mkSL (mkSeq [L "b"; L "a"; L "c"] 0) []) (fun _ => 2 ^ 47)) = Some [L "a"; L "c"; L "b"] ∧
  ∃ l', shuffle (mkSL (mkSeq [L "b"; L "a"; L "c"] 0) []) (fun _ => 2 ^ 47) = Some l'.
Proof.
  split; [vm_compute; reflexivity|]. destruct (StringList_order (mkSL (mkSeq [L "b"; L "a"; L "c"] 0) []) (fun _ => 2 ^ 47)) as [_ (l' & E & _)].
  { intros [|[|k]] Hk; [vm_compute; intuition congruence..|cbn in Hk; lia]. }
  exists l'. exact E.
Defined.

(** The shuffle leaves its array.  [get_random_float] rounds to single precision, so
    that a number of [drand48] next to one becomes one, and the index of the first round is
    the length of the array; in a later round the sum is rounded, and a smaller number
    is enough. *)
Theorem shuffle_out_of_bounds (x y : cstr) :
  shuffle (mkSL (mkSeq [x; y] 0) []) (fun _ => 2 ^ 48 - 1) = None ∧
  shuffle_pick 2 0 (2 ^ 48 - 1) = 2 ∧ shuffle_pick 1000 998 (2 ^ 48 - 2 ^ 32) = 1000.
Proof. split_and!; vm_compute; reflexivity. Qed.
