(* ===== verification/MacroText.v ===== *)
(** * References to configuration macros

    How [condor_utils/config.cpp] finds the references [$(NAME)], [$(NAME:default)],
    [$$(NAME)] and [$ENV(NAME)] in a text: [find_config_macro] and
    [find_special_config_macro].  The second part is the grammar of the texts that these
    functions take apart as they read. *)

From Stdlib Require Import ZArith Lia Ascii.
From stdpp Require Import base gmap list numbers strings.
From S2P Require Import Prelude MyString DList StringList.

(** [condor_isidchar] and the macros over it. *)
Definition condor_isidchar (c : ascii) : bool :=
  let n := nat_of_ascii c in
  ((97 <=? n) && (n <=? 122) || (65 <=? n) && (n <=? 90) || (48 <=? n) && (n <=? 57))%nat || has_char c (L "_./").
Definition ISDDCHAR (c : ascii) : bool := condor_isidchar c || (c =c ":"%char).
Definition ISOP (c : ascii) : bool := (c =c "="%char) || (c =c ":"%char).
Definition is_valid_param_name (name : cstr) : bool := forallb condor_isidchar name.
Definition DOLLAR_ID : cstr := L "DOLLAR".

(** What was found: the text before the reference, its name and the text after it. *)
Abbreviation pieces := (cstr * cstr * cstr)%type.

(** The name ends at a parenthesis, after [off] characters; [after_colon] is one more than
    the offset of the first colon, or 0.  [None] when the name is not ended or has a
    character that is not allowed. *)
Fixpoint scan_name (fuel off after_colon : nat) (value : cstr) : option (nat * nat) :=
  match fuel with
  | O => None
  | S fuel =>
      match value with
      | [] => None
      | c :: value =>
          if c =c ")"%char then Some (off, after_colon)
          else
            let off := S off in
            if bool_decide (after_colon = 0%nat) && (c =c ":"%char) then scan_name fuel off off value
            else if negb (bool_decide (after_colon = 0%nat)) && (c =c "("%char) then
              match strchr ")"%char value with
              | Some i => scan_name fuel (off + S i) after_colon (drop (S i) value)
              | None => scan_name fuel off after_colon value
              end
            else if negb (bool_decide (after_colon = 0%nat)) && has_char c (L "$ ,\") then scan_name fuel off after_colon value
            else if ISDDCHAR c then scan_name fuel off after_colon value else None
      end
  end.
(** The offset of the end of the name when it is a reference that is looked for: to
    [self], or to anything but [DOLLAR]. *)
Definition name_end (self : option cstr) (name : cstr) : option nat :=
  '(off, after_colon) ← scan_name (S (length name)) 0 0 name;
  let namelen := if bool_decide (after_colon = 0%nat) then off else (after_colon - 1)%nat in
  let ok := match self with
            | Some self => strcasecmp_eq (take namelen name) self
            | None => negb (bool_decide (namelen = 6%nat) && strcasecmp_eq (take namelen name) DOLLAR_ID)
            end in
  if ok then Some off else None.

(** The text behind [c], when that is the next character. *)
Definition eat (c : ascii) (s : cstr) : option cstr := match s with d :: s => if d =c c then Some s else None | [] => None end.

(** The text is [seen ++ tvalue]; each round goes on behind a dollar sign. *)
Fixpoint find_loop (self : option cstr) (getdollardollar : bool) (fuel : nat) (seen tvalue : cstr) : option pieces :=
  match fuel with
  | O => None
  | S fuel =>
      i ← strchr "$"%char tvalue;
      let seen := seen ++ take i tvalue in
      let value := drop (S i) tvalue in
      let tryagain n tv := find_loop self getdollardollar fuel (seen ++ n) tv in
      let normal left open name :=
        match name_end self name with
        | Some off => Some (left, take off name, drop (S off) name)
        | None => tryagain open name
        end in
      match eat "$"%char value with
      | Some value =>
          if getdollardollar then
            match eat "("%char value with
            | Some name =>
                match eat "["%char name with
                | Some rest =>
                    match Str.strstr rest (L "])") with
                    | None => tryagain (L "$$") value
                    | Some j => Some (seen, "["%char :: take (S j) rest, drop (j + 2) rest)
                    end
                | None => normal seen (L "$$(") name
                end
            | None => tryagain (L "$$") value
            end
          else tryagain (L "$$") value
      | None =>
          if getdollardollar then tryagain (L "$") value
          else match eat "("%char value with
               | Some name => normal seen (L "$(") name
               | None => tryagain (L "$") value
               end
      end
  end.
Definition find_config_macro (value : cstr) (self : option cstr) (getdollardollar : bool) (search_pos : nat) : option pieces :=
  find_loop self getdollardollar (S (length value)) (take search_pos value) (drop search_pos value).

(** [$ENV(NAME)] and its like: the name may be restricted to identifiers. *)
Fixpoint scan_special (only_id_chars : bool) (off : nat) (value : cstr) : option nat :=
  match value with
  | [] => None
  | c :: value =>
      if c =c ")"%char then Some off
      else if negb (condor_isidchar c) && only_id_chars then None
      else scan_special only_id_chars (S off) value
  end.
Fixpoint find_special_loop (prefix : cstr) (only_id_chars : bool) (fuel : nat) (seen tvalue : cstr) : option pieces :=
  match fuel with
  | O => None
  | S fuel =>
      i ← Str.strstr tvalue prefix;
      let seen := seen ++ take i tvalue in
      let value := drop (i + length prefix) tvalue in
      match eat "("%char value with
      | Some name =>
          match scan_special only_id_chars 0 name with
          | Some off => Some (seen, take off name, drop (S off) name)
          | None => find_special_loop prefix only_id_chars fuel (seen ++ prefix ++ L "(") name
          end
      | None => find_special_loop prefix only_id_chars fuel (seen ++ prefix) value
      end
  end.
Definition find_special_config_macro (prefix : cstr) (only_id_chars : bool) (value : cstr) : option pieces :=
  find_special_loop prefix only_id_chars (S (length value)) [] value.

(** ** Fuel *)

Lemma eat_Some c s t : eat c s = Some t → s = c :: t.
Proof. destruct s as [|d s]; [done|]. cbn. destruct (Ascii.eqb_spec d c); [by intros [= ->]; subst|done]. Qed.
Lemma strchr_Some c s i : strchr c s = Some i → (i < length s)%nat ∧ s = take i s ++ c :: drop (S i) s ∧ c ∉ take i s.
Proof.
  revert i. induction s as [|d s IH]; intros i; [done|]. cbn [strchr]. destruct (Ascii.eqb_spec d c) as [->|Hne].
  - intros [= <-]. cbn. split; [lia|]. split; [done|set_solver].
  - destruct (strchr c s) as [j|]; [|done]. intros [= <-]. destruct (IH j eq_refl) as (H1 & H2 & H3). cbn [length take drop app].
    split; [lia|]. split; [by f_equal|]. apply not_elem_of_cons. done.
Qed.
Ltac shorten := repeat match goal with
  | H : strchr _ _ = Some _ |- _ => apply strchr_Some in H as (? & ? & _)
  | H : eat _ _ = Some _ |- _ => apply eat_Some in H
  end.

Lemma find_loop_fuel self dd n : ∀ m seen tv, (length tv < n)%nat → (length tv < m)%nat →
  find_loop self dd n seen tv = find_loop self dd m seen tv.
Proof.
  induction n as [|n IH]; intros [|m] seen tv Hn Hm; try lia. cbn [find_loop].
  destruct (strchr "$"%char tv) as [i|] eqn:Ei; [|done]. cbn [mbind option_bind].
  apply strchr_Some in Ei as (Hi & _ & _). pose proof (length_drop tv (S i)) as Hd.
  assert (∀ o t, (length t ≤ length (drop (S i) tv))%nat →
    find_loop self dd n ((seen ++ take i tv) ++ o) t = find_loop self dd m ((seen ++ take i tv) ++ o) t) as Hgo by (intros; apply IH; lia).
  destruct (eat "$"%char (drop (S i) tv)) as [v|] eqn:Ev.
  - apply eat_Some in Ev. rewrite Ev in Hgo. destruct dd; [|apply Hgo; cbn; lia].
    destruct (eat "("%char v) as [w|] eqn:Ew; [apply eat_Some in Ew as ->|apply Hgo; cbn; lia].
    destruct (eat "["%char w) as [x|] eqn:Ex.
    + destruct (Str.strstr x _); [done|]. apply Hgo. cbn. lia.
    + destruct (name_end self w); [done|]. apply Hgo. cbn. lia.
  - destruct dd; [by apply Hgo|]. destruct (eat "("%char (drop (S i) tv)) as [w|] eqn:Ew; [|by apply Hgo].
    apply eat_Some in Ew. rewrite Ew in Hgo. destruct (name_end self w); [done|]. apply Hgo. cbn. lia.
Qed.

(** The search from [tv] on. *)
Definition find (self : option cstr) (seen tv : cstr) : option pieces := find_loop self false (S (length tv)) seen tv.
Lemma find_config_macro_find self s : find_config_macro s self false 0 = find self [] s.
Proof. unfold find_config_macro, find. by rewrite take_0, drop_0. Qed.
Lemma find_loop_find self n seen tv : (length tv < n)%nat → find_loop self false n seen tv = find self seen tv.
Proof. intros. apply find_loop_fuel; lia. Qed.
Lemma find_nil self seen : find self seen [] = None.
Proof. done. Qed.

(** *** One round *)

Lemma strchr_skip c s t : c ∉ s → strchr c (s ++ t) = (fun i => length s + i)%nat <$> strchr c t.
Proof.
  induction s as [|d s IH]; [cbn; intros _; by destruct (strchr c t)|]. intros [Hd Hs]%not_elem_of_cons. cbn. destruct (Ascii.eqb_spec d c); [congruence|].
  rewrite IH by done. by destruct (strchr c t).
Qed.
Lemma find_lit self s : ∀ seen v, "$"%char ∉ s → find self seen (s ++ v) = find self (seen ++ s) v.
Proof.
  intros seen v Hs. unfold find. rewrite (find_loop_fuel self false _ (S (length (s ++ v))) (seen ++ s) v); [|lia|rewrite length_app; lia].
  cbn [find_loop]. rewrite strchr_skip by done. destruct (strchr "$"%char v) as [i|]; [|done]. cbn [fmap option_fmap option_map mbind option_bind].
  rewrite take_app_add, <-Nat.add_succ_r, drop_app_add, app_assoc. done.
Qed.
Lemma find_dollar self seen v : find self seen ("$"%char :: v) =
  match eat "$"%char v with
  | Some v => find self (seen ++ L "$$") v
  | None =>
      match eat "("%char v with
      | Some name =>
          match name_end self name with
          | Some off => Some (seen, take off name, drop (S off) name)
          | None => find self (seen ++ L "$(") name
          end
      | None => find self (seen ++ L "$") v
      end
  end.
Proof.
  unfold find at 1. cbn [length]. remember (S (length v)) as n eqn:Hn. cbn [find_loop strchr]. rewrite Ascii.eqb_refl.
  cbn [mbind option_bind take drop]. rewrite drop_0, app_nil_r.
  destruct (eat "$"%char v) as [w|] eqn:E; [apply eat_Some in E as ->; apply find_loop_find; cbn in Hn; lia|].
  destruct (eat "("%char v) as [w|] eqn:E'; [|apply find_loop_find; lia]. apply eat_Some in E' as ->.
  destruct (name_end self w); [done|]. apply find_loop_find; cbn in Hn; lia.
Qed.

(** ** The grammar

    [Cash] is a dollar sign that stands for itself. *)
Inductive dseg := DLit (s : cstr) | DRef (n : cstr).
Inductive seg := Lit (s : cstr) | Ref (n : cstr) | RefD (n : cstr) (d : list dseg) | EnvRef (n : cstr) | Cash.
Definition dseg_text (x : dseg) : cstr := match x with DLit s => s | DRef n => L "$(" ++ n ++ L ")" end.
Fixpoint default_text (d : list dseg) : cstr := match d with [] => [] | x :: d => dseg_text x ++ default_text d end.
Definition name_text (x : seg) : cstr := match x with RefD n d => n ++ L ":" ++ default_text d | Ref n | EnvRef n => n | _ => [] end.
Definition seg_text (x : seg) : cstr :=
  match x with
  | Lit s => s
  | Ref _ | RefD _ _ => L "$(" ++ name_text x ++ L ")"
  | EnvRef n => L "$ENV(" ++ n ++ L ")"
  | Cash => L "$"
  end.
Abbreviation template := (list seg).
Fixpoint print (t : template) : cstr := match t with [] => [] | x :: t => seg_text x ++ print t end.
Lemma print_app t1 t2 : print (t1 ++ t2) = print t1 ++ print t2.
Proof. induction t1 as [|x t1 IH]; [done|]. cbn. by rewrite IH, app_assoc. Qed.

Definition wf_name (n : cstr) : Prop := forallb condor_isidchar n = true.
Definition wf_dseg (x : dseg) : Prop :=
  match x with DLit s => forallb (fun c => ISDDCHAR c || has_char c (L " ,\")) s = true | DRef n => wf_name n end.
Definition is_dollar (n : cstr) : bool := strcasecmp_eq n DOLLAR_ID.
Definition wf_seg (x : seg) : Prop :=
  match x with
  | Lit s => "$"%char ∉ s
  | Ref n | EnvRef n => wf_name n
  | RefD n d => wf_name n ∧ Forall wf_dseg d ∧ is_dollar n = false
  | Cash => False
  end.
Abbreviation wf := (Forall wf_seg).

(** The name that is looked for. *)
Definition wanted (self : option cstr) (n : cstr) : bool :=
  match self with Some self => strcasecmp_eq n self | None => negb (is_dollar n) end.
Definition refers (self : option cstr) (x : seg) : bool := match x with Ref n | RefD n _ => wanted self n | _ => false end.
(** Nothing in the segment is looked for. *)
Definition quiet (self : option cstr) (x : seg) : Prop :=
  refers self x = false ∧ match x with RefD _ d => Forall (fun y => match y with DRef m => wanted self m = false | DLit _ => True end) d | _ => True end.

(** *** Names *)

Lemma idchar_plain c : condor_isidchar c = true →
  (c =c ")"%char) = false ∧ (c =c ":"%char) = false ∧ (c =c "("%char) = false ∧ (c =c "$"%char) = false.
Proof. by destruct c as [[] [] [] [] [] [] [] []]. Qed.
Lemma ddchar_plain c : ISDDCHAR c || has_char c (L " ,\") = true →
  (c =c ")"%char) = false ∧ (c =c "("%char) = false ∧ (c =c "$"%char) = false ∧ (has_char c (L "$ ,\") = true ∨ ISDDCHAR c = true).
Proof. destruct c as [[] [] [] [] [] [] [] []]; vm_compute; auto; discriminate. Qed.
Lemma forallb_not_elem (f : ascii → bool) c s : forallb f s = true → f c = false → c ∉ s.
Proof. intros Hs Hc Hin. apply forallb_Forall in Hs. eapply Forall_forall in Hs; [|done]. congruence. Qed.
Lemma wf_name_no c n : wf_name n → condor_isidchar c = false → c ∉ n.
Proof. apply forallb_not_elem. Qed.

Lemma scan_name_id n : ∀ fuel off t, wf_name n → (length n < fuel)%nat →
  scan_name fuel off 0 (n ++ ")"%char :: t) = Some (off + length n, 0)%nat.
Proof.
  unfold wf_name. induction n as [|c n IH]; intros [|fuel] off t Hn Hf; cbn in Hf; try lia; cbn [app scan_name forallb] in *.
  - rewrite Ascii.eqb_refl. f_equal. f_equal. cbn. lia.
  - apply andb_true_iff in Hn as [Hc Hn]. destruct (idchar_plain c Hc) as (-> & -> & -> & _). rewrite andb_false_r.
    rewrite bool_decide_true by done. cbn [negb andb]. unfold ISDDCHAR. rewrite Hc. cbn [orb]. rewrite IH by (done || lia). do 2 f_equal. cbn. lia.
Qed.
Lemma scan_name_skip n : ∀ fuel off t, wf_name n → (length n < fuel)%nat →
  scan_name fuel off 0 (n ++ ":"%char :: t) = scan_name (fuel - S (length n)) (off + S (length n)) (off + S (length n)) t.
Proof.
  unfold wf_name. induction n as [|c n IH]; intros [|fuel] off t Hn Hf; cbn in Hf; try lia; cbn [app scan_name forallb length] in *.
  - rewrite bool_decide_true by done. cbn. by rewrite Nat.sub_0_r, Nat.add_1_r.
  - apply andb_true_iff in Hn as [Hc Hn]. destruct (idchar_plain c Hc) as (-> & -> & -> & _). rewrite andb_false_r.
    rewrite bool_decide_true by done. cbn [negb andb]. unfold ISDDCHAR. rewrite Hc. cbn [orb]. rewrite IH by (done || lia).
    rewrite Nat.sub_succ, <-!Nat.add_succ_comm. done.
Qed.
Lemma scan_default_lit s : ∀ fuel off ac t, ac ≠ 0%nat → wf_dseg (DLit s) → (length s < fuel)%nat →
  scan_name fuel off ac (s ++ t) = scan_name (fuel - length s) (off + length s) ac t.
Proof.
  cbn. induction s as [|c s IH]; intros [|fuel] off ac t Hac Hs Hf; cbn in Hf; try lia; cbn [length].
  - rewrite Nat.add_0_r. done.
  - cbn [forallb] in Hs. apply andb_true_iff in Hs as [Hc Hs]. destruct (ddchar_plain c Hc) as (E1 & E2 & E3 & E4).
    cbn [app scan_name]. rewrite E1, E2, bool_decide_false, andb_false_r by done. cbn [negb andb].
    replace (if has_char c (L "$ ,\") then _ else _) with (scan_name fuel (S off) ac (s ++ t)).
    + rewrite IH by (done || lia). rewrite Nat.sub_succ. by rewrite <-Nat.add_succ_comm.
    + destruct (has_char c (L "$ ,\")); [done|]. destruct E4 as [?|E4]; [done|by rewrite E4].
Qed.
Lemma scan_default_ref n fuel off ac t : ac ≠ 0%nat → wf_name n → (2 < fuel)%nat →
  scan_name fuel off ac (dseg_text (DRef n) ++ t) = scan_name (fuel - 2) (off + length (dseg_text (DRef n))) ac t.
Proof.
  intros Hac Hn Hf. destruct fuel as [|[|fuel]]; try lia. cbn [dseg_text]. unfold L. cbn [String.list_ascii_of_string app scan_name].
  rewrite !bool_decide_false by done. cbn. rewrite <-app_assoc. cbn [app].
  rewrite strchr_app by (by apply (wf_name_no ")"%char)). rewrite Nat.sub_0_r. f_equal; [rewrite length_app; cbn; lia|].
  rewrite <-Nat.add_1_r, drop_app_add. done.
Qed.
Lemma scan_default d : ∀ fuel off ac t, ac ≠ 0%nat → Forall wf_dseg d → (length (default_text d) < fuel)%nat →
  scan_name fuel off ac (default_text d ++ ")"%char :: t) = Some (off + length (default_text d), ac)%nat.
Proof.
  induction d as [|x d IH]; intros fuel off ac t Hac Hd Hf; cbn [default_text] in *.
  - destruct fuel; [lia|]. cbn. f_equal. f_equal. lia.
  - apply Forall_cons in Hd as [Hx Hd]. rewrite <-app_assoc. rewrite length_app in *. destruct x as [s|n].
    + cbn [dseg_text] in *. rewrite scan_default_lit by (done || lia). rewrite IH by (done || lia). do 2 f_equal. lia.
    + assert (2 < length (dseg_text (DRef n)))%nat by (cbn; rewrite length_app; cbn; lia).
      rewrite scan_default_ref by (done || lia). rewrite IH by (done || lia). do 2 f_equal. lia.
Qed.

Lemma strcasecmp_eq_length a b : strcasecmp_eq a b = true → length a = length b.
Proof. unfold strcasecmp_eq. intros E%bool_decide_eq_true%(f_equal length). by rewrite !length_fmap in E. Qed.
Lemma wanted_ok self n : match self with
  | Some self => strcasecmp_eq n self
  | None => negb (bool_decide (length n = 6%nat) && strcasecmp_eq n DOLLAR_ID)
  end = wanted self n.
Proof.
  destruct self; [done|]. unfold wanted, is_dollar. destruct (strcasecmp_eq n DOLLAR_ID) eqn:E; [|by rewrite andb_false_r].
  apply strcasecmp_eq_length in E. by rewrite bool_decide_true.
Qed.
Lemma name_end_ref self n t : wf_name n → name_end self (n ++ ")"%char :: t) = if wanted self n then Some (length n) else None.
Proof.
  intros Hn. unfold name_end. rewrite scan_name_id by (done || (rewrite length_app; cbn; lia)). cbn [mbind option_bind].
  rewrite bool_decide_true by done. cbn [Nat.add]. rewrite take_app_length. by rewrite wanted_ok.
Qed.
Lemma name_end_refd self n d t : wf_name n → Forall wf_dseg d →
  name_end self (name_text (RefD n d) ++ ")"%char :: t) = if wanted self n then Some (length (name_text (RefD n d))) else None.
Proof.
  intros Hn Hd. unfold name_end. cbn [name_text]. rewrite <-!app_assoc. cbn [app L String.list_ascii_of_string].
  rewrite scan_name_skip by (done || (rewrite length_app; cbn; lia)).
  rewrite scan_default by (done || lia || (rewrite length_app; cbn; rewrite length_app; cbn; lia)). cbn [mbind option_bind].
  rewrite bool_decide_false by lia. replace (0 + S (length n) - 1)%nat with (length n) by lia. rewrite take_app_length, wanted_ok.
  replace (0 + S (length n) + length (default_text d))%nat with (length (n ++ ":"%char :: default_text d)) by (rewrite length_app; cbn; lia). done.
Qed.

(** *** Segments *)

Lemma find_open self seen name : find self seen (L "$(" ++ name) =
  match name_end self name with
  | Some off => Some (seen, take off name, drop (S off) name)
  | None => find self (seen ++ L "$(") name
  end.
Proof. unfold L. cbn [String.list_ascii_of_string app]. rewrite find_dollar. done. Qed.
Lemma close_text n v : (n ++ L ")") ++ v = n ++ ")"%char :: v.
Proof. by rewrite <-app_assoc. Qed.
Lemma find_ref_hit self seen n v : wf_name n → wanted self n = true → find self seen (seg_text (Ref n) ++ v) = Some (seen, n, v).
Proof.
  intros Hn Hw. cbn [seg_text name_text]. rewrite <-app_assoc, close_text, find_open, name_end_ref, Hw by done.
  by rewrite take_app_length, <-Nat.add_1_r, drop_app_add.
Qed.
Lemma find_refd_hit self seen n d v : wf_name n → Forall wf_dseg d → wanted self n = true →
  find self seen (seg_text (RefD n d) ++ v) = Some (seen, name_text (RefD n d), v).
Proof.
  intros Hn Hd Hw. cbn [seg_text]. rewrite <-app_assoc, close_text, find_open, name_end_refd, Hw by done.
  by rewrite take_app_length, <-Nat.add_1_r, drop_app_add.
Qed.
Lemma find_ref_pass self seen n v : wf_name n → wanted self n = false → find self seen (L "$(" ++ n ++ L ")" ++ v) = find self (seen ++ L "$(" ++ n ++ L ")") v.
Proof.
  intros Hn Hw. rewrite (app_assoc n), close_text, find_open, name_end_ref, Hw by done.
  change (n ++ ")"%char :: v) with (n ++ [")"%char] ++ v). rewrite app_assoc, find_lit; [by rewrite <-!app_assoc|].
  apply not_elem_of_app. split; [by apply (wf_name_no "$"%char)|set_solver].
Qed.
Lemma find_default_pass self d : ∀ seen v, Forall wf_dseg d → Forall (fun y => match y with DRef m => wanted self m = false | DLit _ => True end) d →
  find self seen (default_text d ++ v) = find self (seen ++ default_text d) v.
Proof.
  induction d as [|x d IH]; intros seen v Hd Hq; cbn [default_text]; [by rewrite app_nil_r|].
  apply Forall_cons in Hd as [Hx Hd]. apply Forall_cons in Hq as [Hqx Hq]. rewrite <-app_assoc. destruct x as [s|n].
  - cbn [dseg_text]. rewrite find_lit, IH, <-app_assoc; [done..|]. by apply (forallb_not_elem _ _ _ Hx).
  - cbn [dseg_text]. rewrite <-!app_assoc. rewrite find_ref_pass, IH by done. by rewrite <-!app_assoc.
Qed.
Lemma find_pass self x seen v : wf_seg x → quiet self x → find self seen (seg_text x ++ v) = find self (seen ++ seg_text x) v.
Proof.
  intros Hx [Hq Hd]. destruct x as [s|n|n d|n|]; cbn [wf_seg refers] in *; try done.
  - by apply find_lit.
  - cbn [seg_text name_text]. rewrite <-!app_assoc. by apply find_ref_pass.
  - destruct Hx as (Hn & Hwd & _). cbn [seg_text]. rewrite <-app_assoc, close_text, find_open, name_end_refd, Hq by done.
    cbn [name_text]. rewrite <-!app_assoc, find_lit by (by apply (wf_name_no "$"%char)).
    rewrite (find_lit self (L ":")) by (by apply (bool_decide_unpack _)). rewrite find_default_pass by done.
    change (")"%char :: v) with (L ")" ++ v). rewrite find_lit by (by apply (bool_decide_unpack _)). by rewrite <-!app_assoc.
  - cbn [seg_text]. unfold L at 1 3. cbn [String.list_ascii_of_string app]. rewrite find_dollar. cbn [eat Ascii.eqb Bool.eqb].
    change ("E"%char :: "N"%char :: "V"%char :: "("%char :: (n ++ L ")") ++ v) with ((L "ENV(" ++ n ++ L ")") ++ v).
    rewrite find_lit; [by rewrite <-app_assoc|]. rewrite !not_elem_of_app. split; [by apply (bool_decide_unpack _)|].
    split; [by apply (wf_name_no "$"%char)|by apply (bool_decide_unpack _)].
Qed.

(** *** Special references *)

Lemma strstr_bound s p i : Str.strstr s p = Some i → (i + length p ≤ length s)%nat.
Proof. apply Str.strstr_Some. Qed.
Lemma find_special_fuel p ids n : p ≠ [] → ∀ m seen tv, (length tv < n)%nat → (length tv < m)%nat →
  find_special_loop p ids n seen tv = find_special_loop p ids m seen tv.
Proof.
  intros Hp. assert (0 < length p)%nat by (destruct p; [done|cbn; lia]).
  induction n as [|n IH]; intros [|m] seen tv Hn Hm; try lia. cbn [find_special_loop].
  destruct (Str.strstr tv p) as [i|] eqn:Ei; [|done]. cbn [mbind option_bind]. apply strstr_bound in Ei.
  pose proof (length_drop tv (i + length p)) as Hd. destruct (eat "("%char _) as [w|] eqn:Ew; [|apply IH; lia].
  apply eat_Some in Ew. rewrite Ew in Hd. cbn in Hd. destruct (scan_special ids 0 w); [done|]. apply IH; lia.
Qed.
Definition find_special (p : cstr) (ids : bool) (seen tv : cstr) : option pieces := find_special_loop p ids (S (length tv)) seen tv.

(** The prefix does not begin inside [u]. *)
Definition clear_of (p u : cstr) : Prop := ∀ v, Str.strstr (u ++ v) p = (fun i => length u + i)%nat <$> Str.strstr v p.
Lemma clear_nil p : clear_of p [].
Proof. intros v. cbn. by destruct (Str.strstr v p). Qed.
Lemma clear_app p u w : clear_of p u → clear_of p w → clear_of p (u ++ w).
Proof. intros Hu Hw v. rewrite <-app_assoc, Hu, Hw, length_app. destruct (Str.strstr v p); cbn; [|done]. f_equal. lia. Qed.
Lemma clear_cons p c u : (∀ v, has_prefix p (c :: u ++ v) = false) → clear_of p u → clear_of p (c :: u).
Proof. intros Hc Hu v. cbn [app Str.strstr]. rewrite Hc, Hu. by destruct (Str.strstr v p). Qed.
Lemma clear_lit p u : "$"%char ∉ u → clear_of ("$"%char :: p) u.
Proof.
  induction u as [|c u IH]; intros Hu; [apply clear_nil|]. apply not_elem_of_cons in Hu as [Hc Hu]. apply clear_cons; [|by apply IH].
  intros v. change ((("$"%char =c c) && has_prefix p (u ++ v)) = false). destruct (Ascii.eqb_spec "$"%char c); [congruence|done].
Qed.
Lemma clear_money p c d u : (c =c d) = false → "$"%char ∉ d :: u → clear_of ("$"%char :: c :: p) ("$"%char :: d :: u).
Proof. intros Hc Hu. apply clear_cons; [intros v; cbn; by rewrite Hc|]. by apply clear_lit. Qed.

Lemma find_special_pass p ids seen u v : p ≠ [] → clear_of p u → find_special p ids seen (u ++ v) = find_special p ids (seen ++ u) v.
Proof.
  intros Hp Hu. unfold find_special. rewrite (find_special_fuel p ids _ Hp (S (length (u ++ v))) (seen ++ u) v); [|lia|rewrite length_app; lia].
  cbn [find_special_loop]. rewrite Hu. destruct (Str.strstr v p) as [i|]; [|done]. cbn [fmap option_fmap option_map mbind option_bind].
  rewrite take_app_add, <-Nat.add_assoc, drop_app_add, app_assoc. done.
Qed.
(** A prefix [$c...] begins only in the segments that are written so. *)
Lemma clear_seg p c x : (c =c "("%char) = false → wf_seg x → match x with EnvRef _ => (c =c "E"%char) = false | _ => True end →
  clear_of ("$"%char :: c :: p) (seg_text x).
Proof.
  intros Hc Hx He. assert (∀ n, wf_name n → "$"%char ∉ n) as Hname by (intros n Hn; by apply (wf_name_no "$"%char)).
  assert (∀ n, wf_name n → clear_of ("$"%char :: c :: p) (L "$(" ++ n ++ L ")")) as Hbare.
  { intros n Hn. apply clear_money; [done|]. specialize (Hname n Hn). cbn. set_solver. }
  destruct x as [s|n|n d|n|]; cbn [wf_seg] in Hx; [by apply clear_lit|by apply Hbare| | |done].
  - destruct Hx as (Hn & Hd & _). cbn [seg_text name_text].
    replace (L "$(" ++ (n ++ L ":" ++ default_text d) ++ L ")") with ((L "$(" ++ n ++ L ":") ++ default_text d ++ L ")") by (by rewrite <-!app_assoc).
    apply clear_app; [apply clear_money; [done|]; specialize (Hname n Hn); cbn; set_solver|].
    apply clear_app; [|apply clear_lit; by apply (bool_decide_unpack _)].
    clear -Hd Hbare. induction Hd as [|y d Hy Hd IH]; [apply clear_nil|]. cbn [default_text]. apply clear_app; [|done].
    destruct y as [s|n]; [|by apply Hbare]. apply clear_lit. by apply (forallb_not_elem _ _ _ Hy).
  - cbn [seg_text]. apply clear_money; [done|]. specialize (Hname n Hx). cbn. set_solver.
Qed.
Lemma find_special_env seen n v : wf_name n → find_special (L "$ENV") true seen (seg_text (EnvRef n) ++ v) = Some (seen, n, v).
Proof.
  intros Hn. unfold find_special. cbn [find_special_loop]. change (Str.strstr (seg_text (EnvRef n) ++ v) (L "$ENV")) with (Some 0%nat).
  cbn [mbind option_bind take Nat.add]. rewrite app_nil_r.
  change (drop (length (L "$ENV")) (seg_text (EnvRef n) ++ v)) with ("("%char :: (n ++ L ")") ++ v).
  cbn [eat]. rewrite Ascii.eqb_refl, close_text.
  assert (∀ n off, wf_name n → scan_special true off (n ++ ")"%char :: v) = Some (off + length n)%nat) as Hs.
  { clear. unfold wf_name. induction n as [|c n IH]; intros off Hn; cbn [app scan_special forallb] in *; [cbn; by rewrite Nat.add_0_r|].
    apply andb_true_iff in Hn as [Hc Hn]. destruct (idchar_plain c Hc) as (-> & _). rewrite Hc. cbn [negb andb]. rewrite IH by done. cbn. f_equal. lia. }
  rewrite Hs by done. cbn [Nat.add]. by rewrite take_app_length, <-Nat.add_1_r, drop_app_add.
Qed.

(** ** Templates *)

Lemma print_cons x t : print (x :: t) = seg_text x ++ print t.
Proof. done. Qed.
Lemma find_template self t : ∀ seen v, wf t → Forall (quiet self) t → find self seen (print t ++ v) = find self (seen ++ print t) v.
Proof.
  induction t as [|x t IH]; intros seen v Hw Hq; [by rewrite app_nil_r|]. apply Forall_cons in Hw as [Hx Hw]. apply Forall_cons in Hq as [Hqx Hq].
  rewrite print_cons, <-app_assoc, find_pass, IH, <-app_assoc by done. done.
Qed.
Lemma find_hit self x seen v : wf_seg x → refers self x = true → find self seen (seg_text x ++ v) = Some (seen, name_text x, v).
Proof. destruct x as [s|n|n d|n|]; intros Hx Hr; try done; [by apply find_ref_hit|]. apply find_refd_hit; try apply Hx. done. Qed.
(** The first reference that is looked for is found. *)
Lemma find_config_macro_first self t1 x t2 : wf t1 → Forall (quiet self) t1 → wf_seg x → refers self x = true →
  find_config_macro (print (t1 ++ x :: t2)) self false 0 = Some (print t1, name_text x, print t2).
Proof. intros. rewrite find_config_macro_find, print_app, find_template, print_cons by done. by apply find_hit. Qed.
Lemma find_config_macro_none self t : wf t → Forall (quiet self) t → find_config_macro (print t) self false 0 = None.
Proof. intros. rewrite find_config_macro_find, <-(app_nil_r (print t)), find_template by done. done. Qed.

Definition no_env (x : seg) : Prop := match x with EnvRef _ => False | _ => True end.
Lemma find_special_template p c ids t : ∀ seen v, (c =c "("%char) = false → wf t → Forall (fun x => no_env x ∨ (c =c "E"%char) = false) t →
  find_special ("$"%char :: c :: p) ids seen (print t ++ v) = find_special ("$"%char :: c :: p) ids (seen ++ print t) v.
Proof.
  induction t as [|x t IH]; intros seen v Hc Hw He; [by rewrite app_nil_r|]. apply Forall_cons in Hw as [Hx Hw]. apply Forall_cons in He as [Hex He].
  rewrite print_cons, <-app_assoc, find_special_pass, IH, <-app_assoc; try done. apply clear_seg; [done..|]. destruct x; try done. by destruct Hex.
Qed.
Lemma find_special_none p c ids t : (c =c "("%char) = false → wf t → Forall (fun x => no_env x ∨ (c =c "E"%char) = false) t →
  find_special_config_macro ("$"%char :: c :: p) ids (print t) = None.
Proof.
  intros Hc Hw He. change (find_special ("$"%char :: c :: p) ids [] (print t) = None).
  rewrite <-(app_nil_r (print t)), find_special_template by done. done.
Qed.
Lemma find_special_first t1 n t2 : wf t1 → Forall no_env t1 → wf_name n →
  find_special_config_macro (L "$ENV") true (print (t1 ++ EnvRef n :: t2)) = Some (print t1, n, print t2).
Proof.
  intros Hw He Hn. change (find_special (L "$ENV") true [] (print (t1 ++ EnvRef n :: t2)) = Some (print t1, n, print t2)).
  rewrite print_app. unfold L. cbn [String.list_ascii_of_string].
  rewrite find_special_template; [|done..|by eapply Forall_impl; [exact He|]; intros; left]. rewrite print_cons. by apply find_special_env.
Qed.
