(* ===== verification/MacroSet.v ===== *)
(** * The table of configuration macros

    The structure [MACRO_SET] of [condor_config.h] and its search and sorting in
    [condor_utils/config.cpp] and [condor_config.cpp]; the tables of default values of
    [param_info.cpp], which are generated, and the binary search of [param_info.h]. *)

From Stdlib Require Import ZArith Lia Ascii.
From stdpp Require Import base gmap list numbers strings sorting.
From S2P Require Import Prelude MyString DList StringList MacroText.
Open Scope Z_scope.

(** ** Binary search *)

Section Binary.
Context {A : Type}.
(** [cmp x] compares the key of [x] with the key that is looked for. *)
Variable cmp : A → comparison.
Fixpoint lookup_loop (fuel : nat) (aTable : list A) (ixLower ixUpper : Z) : option (option Z) :=
  match fuel with
  | O => None
  | S fuel =>
      if ixLower >? ixUpper then Some None
      else
        let ix := (ixLower + ixUpper) `quot` 2 in
        x ← aTable !! Z.to_nat ix;
        match cmp x with
        | Lt => lookup_loop fuel aTable (ix + 1) ixUpper
        | Gt => lookup_loop fuel aTable ixLower (ix - 1)
        | Eq => Some (Some ix)
        end
  end.
Definition BinaryLookupIndex (aTable : list A) : option (option Z) :=
  let cElms := Z.of_nat (length aTable) in
  if cElms <=? 0 then Some None else lookup_loop (S (length aTable)) aTable 0 (cElms - 1).
Definition BinaryLookup (aTable : list A) : option A :=
  match BinaryLookupIndex aTable with Some (Some ix) => aTable !! Z.to_nat ix | _ => None end.

(** The keys are in order and differ. *)
Definition in_order (aTable : list A) : Prop :=
  ∀ i j x y, (i < j)%nat → aTable !! i = Some x → aTable !! j = Some y → cmp x ≠ Lt → cmp y = Gt.

Lemma lookup_loop_spec aTable : in_order aTable → ∀ fuel lo hi, 0 ≤ lo → hi < Z.of_nat (length aTable) → Z.max 0 (hi - lo + 1) < Z.of_nat fuel →
  (∀ i x, aTable !! i = Some x → cmp x = Eq → lo ≤ Z.of_nat i ≤ hi) →
  lookup_loop fuel aTable lo hi = Some ((fun p => Z.of_nat p.1) <$> list_find (fun x => cmp x = Eq) aTable).
Proof.
  intros Ho. induction fuel as [|fuel IH]; intros lo hi Hlo Hhi Hf Hin; [lia|]. cbn [lookup_loop].
  rewrite Z.gtb_ltb. destruct (Z.ltb_spec hi lo) as [Hlt|Hge].
  { destruct (list_find _ aTable) as [[i x]|] eqn:E; [|done]. apply list_find_Some in E as (H1 & H2 & _). specialize (Hin i x H1 H2). lia. }
  rewrite Z.quot_div_nonneg by lia. pose proof (Z.div_mod (lo + hi) 2 ltac:(lia)) as Hdm. pose proof (Z.mod_pos_bound (lo + hi) 2 ltac:(lia)) as Hm.
  set (ix := (lo + hi) / 2) in *. destruct (lookup_lt_is_Some_2 aTable (Z.to_nat ix)) as [x Hx]; [lia|]. rewrite Hx. cbn [mbind option_bind].
  destruct (cmp x) eqn:Ec.
  - assert (list_find (fun x => cmp x = Eq) aTable = Some (Z.to_nat ix, x)) as ->; [|cbn; do 2 f_equal; lia].
    apply list_find_Some. split; [done|]. split; [done|]. intros j y Hy Hj E. specialize (Ho j _ y x Hj Hy Hx). rewrite E, Ec in Ho.
    specialize (Ho ltac:(done)). done.
  - apply IH; [lia..|]. intros i y Hy E. specialize (Hin i y Hy E). split; [|lia].
    destruct (Z.le_gt_cases (Z.of_nat i) ix) as [Hle|]; [|lia]. exfalso. destruct (decide (i = Z.to_nat ix)) as [->|]; [congruence|].
    specialize (Ho i (Z.to_nat ix) y x ltac:(lia) Hy Hx ltac:(congruence)). congruence.
  - apply IH; [lia..|]. intros i y Hy E. specialize (Hin i y Hy E). split; [lia|].
    destruct (Z.le_gt_cases ix (Z.of_nat i)) as [Hle|]; [|lia]. exfalso. destruct (decide (i = Z.to_nat ix)) as [->|]; [congruence|].
    specialize (Ho (Z.to_nat ix) i x y ltac:(lia) Hx Hy ltac:(congruence)). congruence.
Qed.
(** The search gives what a search from the front gives. *)
Lemma BinaryLookupIndex_spec aTable : in_order aTable →
  BinaryLookupIndex aTable = Some ((fun p => Z.of_nat p.1) <$> list_find (fun x => cmp x = Eq) aTable).
Proof.
  intros Ho. unfold BinaryLookupIndex. destruct (Z.leb_spec (Z.of_nat (length aTable)) 0) as [H|H]; [destruct aTable; [done|cbn in H; lia]|].
  apply lookup_loop_spec; [done|lia..|]. intros i x Hi%lookup_lt_Some _. lia.
Qed.
Lemma BinaryLookup_spec aTable : in_order aTable → BinaryLookup aTable = snd <$> list_find (fun x => cmp x = Eq) aTable.
Proof.
  intros Ho. unfold BinaryLookup. rewrite BinaryLookupIndex_spec by done. destruct (list_find _ aTable) as [[i x]|] eqn:E; [|done].
  apply list_find_Some in E as (Hi & _). cbn. by rewrite Nat2Z.id.
Qed.
End Binary.

(** ** Default values

    The tables [condor_params::defaults], [subsystems] and [metaknobsets]. *)
Record MACRO_DEF_ITEM := mkDef { def_key : cstr; psz : option cstr; def_is_path : bool }.
Record ParamTables := mkParams {
  defaults : list MACRO_DEF_ITEM;
  subsystems : list (cstr * list MACRO_DEF_ITEM);
  metaknobsets : list (cstr * list MACRO_DEF_ITEM)
}.
Definition cmp_key (key : cstr) (x : MACRO_DEF_ITEM) : comparison := strcasecmp (def_key x) key.

(** [ComparePrefixBeforeDot] and [ComparePrefixBeforeColon]: up to the separator,
    with lower case changed to upper case by clearing a bit. *)
Definition upper (c : ascii) : Z :=
  let n := Z.of_nat (nat_of_ascii c) in
  let ch := if n <? 128 then n else n - 256 in
  if 97 <=? ch then Z.ldiff ch 32 else ch.
Fixpoint compare_prefix (sep : ascii) (p1 p2 : cstr) : comparison :=
  let ch c := if c =c sep then 0 else upper c in
  match p1, p2 with
  | [], [] => Eq
  | c :: p1, d :: p2 => match ch c ?= ch d with Eq => if ch c =? 0 then Eq else compare_prefix sep p1 p2 | o => o end
  | c :: _, [] => ch c ?= 0
  | [], d :: _ => 0 ?= ch d
  end.

Section Params.
Context (pt : ParamTables).
Definition param_generic_default_lookup (param : cstr) : option MACRO_DEF_ITEM := BinaryLookup (cmp_key param) (defaults pt).
Definition param_subsys_default_lookup (subsys param : cstr) : option MACRO_DEF_ITEM :=
  subtab ← BinaryLookup (fun x => compare_prefix "."%char x.1 subsys) (subsystems pt);
  BinaryLookup (cmp_key param) subtab.2.
Definition param_default_lookup (param : cstr) : option MACRO_DEF_ITEM :=
  match strchr "."%char param with
  | Some i =>
      match param_subsys_default_lookup param (drop (S i) param) with
      | Some p => Some p
      | None => param_generic_default_lookup param
      end
  | None => param_generic_default_lookup param
  end.
Definition param_default_lookup2 (param : cstr) (subsys : option cstr) : option MACRO_DEF_ITEM :=
  match (subsys ← subsys; param_subsys_default_lookup subsys param) with
  | Some p => Some p
  | None => param_default_lookup param
  end.
Definition param_default_string (param : cstr) (subsys : option cstr) : option cstr := p ← param_default_lookup2 param subsys; psz p.
(** The index in [defaults], of the part of the name behind the first dot if need be. *)
Definition generic_index (param : cstr) : option Z := default None (BinaryLookupIndex (cmp_key param) (defaults pt)).
Definition param_default_get_id (param : cstr) : Z :=
  match generic_index param with
  | Some ix => ix
  | None => default (-1) (i ← strchr "."%char param; generic_index (drop (S i) param))
  end.
Definition by_id (ix : Z) : option MACRO_DEF_ITEM := if ix <? 0 then None else defaults pt !! Z.to_nat ix.
Definition param_default_name_by_id (ix : Z) : option cstr := def_key <$> by_id ix.
Definition param_default_rawval_by_id (ix : Z) : option cstr := p ← by_id ix; psz p.
Definition param_default_ispath_by_id (ix : Z) : bool := from_option def_is_path false (by_id ix).
Definition param_meta_table (meta : cstr) : option (cstr * list MACRO_DEF_ITEM) :=
  BinaryLookup (fun x => compare_prefix ":"%char x.1 meta) (metaknobsets pt).
Definition param_meta_table_string (table : cstr * list MACRO_DEF_ITEM) (param : cstr) : option cstr :=
  p ← BinaryLookup (cmp_key param) table.2; psz p.
End Params.

(** ** The set of macros *)

Record MACRO_ITEM := mkItem { key : cstr; raw_value : cstr }.
Record MACRO_SOURCE := mkSource { inside : bool; src_id : Z; line : Z; meta_id : Z; meta_off : Z }.
Record MACRO_META := mkMeta {
  param_id : Z; index : Z; matches_default : bool; param_table : bool; source : MACRO_SOURCE; use_count : Z; ref_count : Z
}.
#[export] Instance MACRO_META_updatable : Updatable MACRO_META := fun m =>
  mkMeta (param_id m) (index m) (matches_default m) (param_table m) (source m) (use_count m) (ref_count m).
(** [size] is the length of [table]; [metat] is parallel to it, or absent.
    [def_metat] are the counters of the table of default values. *)
Record MACRO_SET := mkSet {
  allocation_size : Z; want_meta : bool; keep_defaults : bool; defaults_are_param_info : bool; sorted : nat;
  table : list MACRO_ITEM; metat : option (list MACRO_META); has_defaults : bool; def_metat : option (list (Z * Z))
}.
#[export] Instance MACRO_SET_updatable : Updatable MACRO_SET := fun s =>
  mkSet (allocation_size s) (want_meta s) (keep_defaults s) (defaults_are_param_info s) (sorted s) (table s) (metat s) (has_defaults s) (def_metat s).
Definition set_size (s : MACRO_SET) : nat := length (table s).

(** The unsorted part is searched from the front, the sorted part in halves. *)
Definition find_macro_item (name : cstr) (s : MACRO_SET) : option nat :=
  match list_find (fun x => strcasecmp (key x) name = Eq) (drop (sorted s) (table s)) with
  | Some (i, _) => Some (sorted s + i)%nat
  | None => Z.to_nat <$> default None (BinaryLookupIndex (fun x => strcasecmp (key x) name) (take (sorted s) (table s)))
  end.
(** Counters are of type [short]. *)
Definition short (z : Z) : Z := wrap 16 z.
Definition count_use (use : Z) (m : MACRO_META) : MACRO_META :=
  m <| use_count ::= fun n => short (n + Z.land use 1) |> <| ref_count ::= fun n => short (n + Z.land (Z.shiftr use 1) 1) |>.
Definition lookup_macro_exact (name : cstr) (s : MACRO_SET) (use : Z) : option cstr * MACRO_SET :=
  match find_macro_item name s with
  | None => (None, s)
  | Some i => (raw_value <$> table s !! i, s <| metat ::= fmap (alter (count_use use) i) |>)
  end.
Definition lookup_macro (name : cstr) (prefix : option cstr) (s : MACRO_SET) (use : Z) : option cstr * MACRO_SET :=
  lookup_macro_exact (match prefix with Some p => p ++ L "." ++ name | None => name end) s use.
Definition param_default_set_use (pt : ParamTables) (name : cstr) (use : Z) (s : MACRO_SET) : MACRO_SET :=
  if has_defaults s then
    match generic_index pt name with
    | Some ix => s <| def_metat ::= fmap (alter (fun '(u, r) => (short (u + Z.land use 1), short (r + Z.land (Z.shiftr use 1) 1))) (Z.to_nat ix)) |>
    | None => s
    end
  else s.

(** The use counts of one macro, -1 when it is unknown or nothing is counted. *)
Definition meta_of (name : cstr) (s : MACRO_SET) : option MACRO_META := i ← find_macro_item name s; m ← metat s; m !! i.
Definition increment_macro_use_count (name : cstr) (s : MACRO_SET) : Z * MACRO_SET :=
  match find_macro_item name s, metat s with
  | Some i, Some m =>
      let m := alter (fun x => x <| use_count ::= fun n => short (n + 1) |>) i m in
      (from_option use_count (-1) (m !! i), s <| metat := Some m |>)
  | _, _ => (-1, s)
  end.
Definition clear_macro_use_count (name : cstr) (s : MACRO_SET) : MACRO_SET :=
  match find_macro_item name s with
  | Some i => s <| metat ::= fmap (alter (fun x => x <| ref_count := 0 |> <| use_count := 0 |>) i) |>
  | None => s
  end.
Definition get_macro_use_count (name : cstr) (s : MACRO_SET) : Z := from_option use_count (-1) (meta_of name s).
Definition get_macro_ref_count (name : cstr) (s : MACRO_SET) : Z := from_option ref_count (-1) (meta_of name s).

(** [optimize_macros]: [std::sort] by [MACRO_SORTER], first of the metadata by the keys they
    point to, then of the table. *)
Definition key_le (a b : cstr) : Prop := strcasecmp a b ≠ Gt.
#[export] Instance key_le_dec a b : Decision (key_le a b).
Proof. unfold key_le. apply _. Defined.
Definition item_le (a b : MACRO_ITEM) : Prop := key_le (key a) (key b).
#[export] Instance item_le_dec a b : Decision (item_le a b).
Proof. unfold item_le. apply _. Defined.
Definition key_at (t : list MACRO_ITEM) (m : MACRO_META) : cstr := from_option key [] (t !! Z.to_nat (index m)).
Definition meta_le (t : list MACRO_ITEM) (a b : MACRO_META) : Prop := key_le (key_at t a) (key_at t b).
#[export] Instance meta_le_dec t a b : Decision (meta_le t a b).
Proof. unfold meta_le. apply _. Defined.
Definition optimize_macros (s : MACRO_SET) : MACRO_SET :=
  if (set_size s <=? 1)%nat then s
  else
    let m := merge_sort (meta_le (table s)) <$> metat s in
    s <| metat := imap (fun i x => x <| index := Z.of_nat i |>) <$> m |>
      <| table ::= merge_sort item_le |> <| sorted := set_size s |>.

(** ** Order of the keys *)

Abbreviation lower := (fmap tolower : cstr → cstr).
Lemma strcasecmp_lower a b : strcasecmp a b = Eq ↔ lower a = lower b.
Proof. apply strcmp_eq. Qed.
Lemma strcmp_le_trans a : ∀ b c, strcmp a b ≠ Gt → strcmp b c ≠ Gt → strcmp a c ≠ Gt.
Proof.
  induction a as [|x a IH]; intros [|y b] [|z c]; cbn; try done.
  destruct (Nat.compare_spec (nat_of_ascii x) (nat_of_ascii y)) as [E1|E1|E1], (Nat.compare_spec (nat_of_ascii y) (nat_of_ascii z)) as [E2|E2|E2],
    (Nat.compare_spec (nat_of_ascii x) (nat_of_ascii z)) as [E3|E3|E3]; try done; try lia. apply IH.
Qed.
#[export] Instance key_le_trans : Transitive key_le.
Proof. intros a b c. apply strcmp_le_trans. Qed.
#[export] Instance key_le_total : Total key_le.
Proof. intros a b. unfold key_le, strcasecmp. rewrite (strcmp_antisym (lower a) (lower b)). destruct (strcmp _ _); naive_solver. Qed.
Lemma key_le_antisym a b : key_le a b → key_le b a → lower a = lower b.
Proof.
  unfold key_le. intros H1 H2. apply strcmp_eq. unfold strcasecmp in *. rewrite (strcmp_antisym (lower a) (lower b)) in H2. by destruct (strcmp _ _).
Qed.
#[export] Instance item_le_trans : Transitive item_le.
Proof. intros a b c. apply key_le_trans. Qed.
#[export] Instance item_le_total : Total item_le.
Proof. intros a b. apply key_le_total. Qed.
#[export] Instance meta_le_trans t : Transitive (meta_le t).
Proof. intros a b c. apply key_le_trans. Qed.
#[export] Instance meta_le_total t : Total (meta_le t).
Proof. intros a b. apply key_le_total. Qed.

(** ** The set is a finite map *)

(** The macros by their names in lower case. *)
Definition names (t : list MACRO_ITEM) : list cstr := (lower ∘ key) <$> t.
Definition macros (s : MACRO_SET) : gmap cstr cstr := list_to_map ((fun x => (lower (key x), raw_value x)) <$> table s).
Record ms_ok (s : MACRO_SET) : Prop := {
  ok_names : NoDup (names (table s));
  ok_sorted : (sorted s ≤ set_size s)%nat;
  ok_order : StronglySorted item_le (take (sorted s) (table s));
  ok_meta m : metat s = Some m → index <$> m = Z.of_nat <$> seq 0 (set_size s);
  ok_want : want_meta s = true → metat s = None → table s = [] ∧ allocation_size s = 0;
  ok_alloc : Z.of_nat (set_size s) < allocation_size s ∨ table s = [] ∧ allocation_size s = 0
}.

Lemma names_inj t i j x y : NoDup (names t) → t !! i = Some x → t !! j = Some y → lower (key x) = lower (key y) → i = j.
Proof. intros Hnd Hx Hy E. eapply (NoDup_lookup (names t)); [done|..]; unfold names; rewrite list_lookup_fmap, ?Hx, ?Hy; cbn; by rewrite ?E. Qed.
Lemma names_take t n : NoDup (names t) → NoDup (names (take n t)).
Proof. intros H. rewrite <-(take_drop n t) in H. unfold names in *. rewrite fmap_app in H. by apply NoDup_app in H as (? & _). Qed.
Lemma StronglySorted_lookup_2 {A} (R : relation A) l : StronglySorted R l → ∀ i j x y, (i < j)%nat → l !! i = Some x → l !! j = Some y → R x y.
Proof.
  induction 1 as [|a l Hl IH Ha]; intros i j x y Hij Hx Hy; [done|]. destruct j as [|j]; [lia|]. destruct i as [|i]; cbn in *.
  - simplify_eq. eapply Forall_lookup in Ha; eauto.
  - apply (IH i j x y); [lia|done..].
Qed.
Lemma sorted_in_order t name : NoDup (names t) → StronglySorted item_le t → in_order (fun x => strcasecmp (key x) name) t.
Proof.
  intros Hnd Hs i j x y Hij Hx Hy Hc. assert (item_le x y) as Hle.
  { eapply StronglySorted_lookup_2; eauto. }
  destruct (strcasecmp (key y) name) eqn:E; [| |done]; exfalso.
  - apply strcasecmp_lower in E. assert (strcasecmp (key x) name = Eq) as E'.
    { apply strcasecmp_lower. unfold item_le, key_le, strcasecmp in Hle. rewrite E in Hle. fold (strcasecmp (key x) name) in Hle.
      apply strcasecmp_lower. by destruct (strcasecmp (key x) name). }
    apply strcasecmp_lower in E'. assert (i = j) by (eapply (names_inj t); eauto; congruence). lia.
  - assert (key_le (key y) name) as H1 by (unfold key_le; congruence). pose proof (key_le_trans _ _ _ Hle H1) as H2.
    unfold key_le in H2. destruct (strcasecmp (key x) name) eqn:E'; [|done..].
    apply strcasecmp_lower in E'. assert (lower (key y) = lower (key x)) as E2.
    { apply key_le_antisym; [|done]. unfold key_le, strcasecmp. rewrite E'. fold (strcasecmp (key y) name). congruence. }
    assert (i = j) by (eapply (names_inj t); eauto). lia.
Qed.

(** The position of a name. *)
Definition position (name : cstr) (t : list MACRO_ITEM) : option nat := fst <$> list_find (fun x => lower (key x) = lower name) t.
Lemma position_Some name t i : NoDup (names t) → position name t = Some i ↔ ∃ x, t !! i = Some x ∧ lower (key x) = lower name.
Proof.
  intros Hnd. unfold position. split.
  - intros ((j & x) & Hf & ->)%fmap_Some. apply list_find_Some in Hf as (? & ? & _). eauto.
  - intros (x & Hx & E). destruct (list_find _ t) as [[j y]|] eqn:Ef.
    + apply list_find_Some in Ef as (Hy & E' & _). cbn. f_equal. eapply names_inj; eauto. congruence.
    + apply list_find_None in Ef. eapply Forall_lookup in Ef; [|done]. done.
Qed.
Lemma find_macro_item_spec name s : ms_ok s → find_macro_item name s = position name (table s).
Proof.
  intros [Hnd Hle Hs _ _ _]. unfold find_macro_item.
  assert (∀ t, list_find (fun x => strcasecmp (key x) name = Eq) t = list_find (fun x => lower (key x) = lower name) t) as Hext.
  { intros t. apply list_find_ext. intros x. apply strcasecmp_lower. }
  rewrite BinaryLookupIndex_spec by (apply sorted_in_order; [by apply names_take|done]). rewrite !Hext. symmetry.
  assert (length (take (sorted s) (table s)) = sorted s) as Hlen by (rewrite length_take; unfold set_size in Hle; lia).
  destruct (list_find _ (drop _ _)) as [[i x]|] eqn:E.
  - apply list_find_Some in E as (Hx & E & _). rewrite lookup_drop in Hx. apply position_Some; eauto.
  - cbn [default from_option]. destruct (list_find _ (take _ _)) as [[i x]|] eqn:E'; cbn.
    + apply list_find_Some in E' as (Hx & E' & _). rewrite Nat2Z.id. apply position_Some; [done|]. exists x. split; [|done].
      by apply lookup_take_Some in Hx as [? _].
    + apply list_find_None in E, E'. unfold position. rewrite <-(take_drop (sorted s) (table s)).
      destruct (list_find _ (_ ++ _)) as [[i x]|] eqn:Ef; [|done]. apply list_find_Some in Ef as (Hx & Ex & _).
      apply lookup_app_Some in Hx as [Hx|[_ Hx]]; [eapply Forall_lookup in E'|eapply Forall_lookup in E]; done.
Qed.
Lemma macros_lookup s name : NoDup (names (table s)) → macros s !! lower name = i ← position name (table s); raw_value <$> table s !! i.
Proof.
  intros Hnd. assert (NoDup ((fun x => (lower (key x), raw_value x)) <$> table s).*1) as Hnd'.
  { rewrite <-list_fmap_compose. exact Hnd. }
  destruct (position name (table s)) as [i|] eqn:E; cbn [mbind option_bind].
  - apply position_Some in E as (x & Hx & E); [|done]. rewrite Hx. cbn. apply elem_of_list_to_map; [done|]. apply list_elem_of_fmap. exists x.
    split; [by rewrite E|]. by eapply list_elem_of_lookup_2.
  - apply not_elem_of_list_to_map. rewrite <-list_fmap_compose. intros (x & Ex & Hx)%list_elem_of_fmap. apply list_elem_of_lookup in Hx as [i Hi].
    assert (position name (table s) = Some i) by (apply position_Some; eauto). congruence.
Qed.
Lemma fmap_alter_same {A B} (g : A → B) (f : A → A) (i : nat) (l : list A) : (∀ x, g (f x) = g x) → g <$> alter f i l = g <$> l.
Proof.
  intros Hf. apply list_eq. intros k. rewrite !list_lookup_fmap, list_lookup_alter. case_decide; [|done]. subst k. destruct (l !! i); cbn; [by rewrite Hf|done].
Qed.
Lemma lookup_macro_exact_spec name s use : ms_ok s →
  (lookup_macro_exact name s use).1 = macros s !! lower name ∧ table (lookup_macro_exact name s use).2 = table s ∧ ms_ok (lookup_macro_exact name s use).2.
Proof.
  intros Hs. pose proof Hs as [Hnd Hle Ho Hm Hwm Hal]. rewrite macros_lookup by done. unfold lookup_macro_exact. rewrite find_macro_item_spec by done.
  destruct (position name (table s)) as [i|]; [|done]. cbn. split; [done|]. split; [done|]. split; try done; cbn; [|intros Hw E; apply fmap_None in E; by apply Hwm]. intros m (m0 & E & ->)%fmap_Some.
  rewrite fmap_alter_same by done. exact (Hm m0 E).
Qed.

(** ** Sorting *)

#[export] Instance names_perm : Proper ((≡ₚ) ==> (≡ₚ)) names.
Proof. intros t t' Ht. unfold names. by rewrite Ht. Qed.
Lemma macros_perm s s' : NoDup (names (table s)) → table s' ≡ₚ table s → macros s' = macros s.
Proof.
  intros Hnd Hp. apply list_to_map_proper; [|by rewrite Hp]. rewrite <-list_fmap_compose. unfold names in Hnd.
  assert (NoDup ((lower ∘ key) <$> table s')) by (by rewrite Hp). done.
Qed.
Lemma StronglySorted_fmap {A B} (R : relation A) (R' : relation B) (f : A → B) l :
  (∀ x y, R x y → R' (f x) (f y)) → StronglySorted R l → StronglySorted R' (f <$> l).
Proof. intros Hf. induction 1 as [|a l Hl IH Ha]; cbn; constructor; [done|]. apply Forall_fmap. eapply Forall_impl; [exact Ha|]. intros y. apply Hf. Qed.
(** The metadata, sorted by the keys they point to, are in the order of the table. *)
Lemma sorted_meta_keys t m : NoDup (names t) → index <$> m = Z.of_nat <$> seq 0 (length t) →
  (lower ∘ key_at t) <$> merge_sort (meta_le t) m = names (merge_sort item_le t).
Proof.
  intros Hnd Hm.
  assert (key_at t <$> m = key <$> t) as Hk.
  { transitivity ((fun i => from_option key [] (t !! Z.to_nat i)) <$> (index <$> m)); [by rewrite <-list_fmap_compose|].
    rewrite Hm, <-list_fmap_compose.
    apply list_eq. intros i. rewrite !list_lookup_fmap. destruct (decide (i < length t)%nat) as [Hi|Hi].
    - rewrite lookup_seq_lt by done. cbn. rewrite Nat2Z.id. by destruct (lookup_lt_is_Some_2 t i Hi) as [x ->].
    - rewrite lookup_seq_ge, lookup_ge_None_2 by lia. done. }
  apply (StronglySorted_unique_strong (fun a b : cstr => strcmp a b ≠ Gt)).
  - intros a b _ _ H1 H2. apply strcmp_eq. rewrite (strcmp_antisym a b) in H2. by destruct (strcmp a b).
  - apply (StronglySorted_fmap (meta_le t)); [done|]. apply StronglySorted_merge_sort; apply _.
  - apply (StronglySorted_fmap item_le); [done|]. apply StronglySorted_merge_sort; apply _.
  - unfold names. rewrite !merge_sort_Permutation. rewrite (list_fmap_compose (key_at t)), Hk, <-list_fmap_compose. done.
Qed.

(** The metadata of a macro, without its place in the table. *)
Definition meta_data (m : MACRO_META) : MACRO_META := m <| index := 0 |>.
Lemma index_lookup m n i x : index <$> m = Z.of_nat <$> seq 0 n → m !! i = Some x → index x = Z.of_nat i.
Proof.
  intros E Hx. apply (f_equal (fun l => l !! i)) in E. rewrite !list_lookup_fmap, Hx in E. cbn in E.
  destruct (seq 0 n !! i) as [k|] eqn:Ek; [|done]. cbn in E. apply lookup_seq in Ek as [-> _]. by simplify_eq.
Qed.
Lemma optimize_macros_ok s : ms_ok s → let s' := optimize_macros s in
  ms_ok s' ∧ macros s' = macros s ∧ table s' ≡ₚ table s ∧ ∀ name, meta_data <$> meta_of name s' = meta_data <$> meta_of name s.
Proof.
  intros Hs s'. subst s'. unfold optimize_macros. destruct (Nat.leb_spec (set_size s) 1); [done|]. pose proof Hs as [Hnd Hle Ho Hm Hwm Hal].
  set (s' := _ <| sorted := _ |>). assert (table s' = merge_sort item_le (table s)) as Ht by done.
  assert (table s' ≡ₚ table s) as Hp by (rewrite Ht; apply merge_sort_Permutation).
  assert (ms_ok s') as Hok.
  { split.
    - by rewrite Hp.
    - change (set_size s ≤ length (table s'))%nat. by rewrite Hp.
    - change (sorted s') with (set_size s). rewrite Ht, take_ge by (unfold set_size; by rewrite merge_sort_Permutation).
      apply StronglySorted_merge_sort; apply _.
    - intros m' E. cbn in E. apply fmap_Some in E as (m1 & E & ->). apply fmap_Some in E as (m & E & ->).
      specialize (Hm m E). unfold set_size. rewrite Hp. apply list_eq. intros i. rewrite !list_lookup_fmap, list_lookup_imap.
      assert (length (merge_sort (meta_le (table s)) m) = length (table s)) as Hl.
      { rewrite merge_sort_Permutation. apply (f_equal length) in Hm. by rewrite !length_fmap, length_seq in Hm. }
      destruct (decide (i < length (table s))%nat) as [Hi|Hi].
      + rewrite lookup_seq_lt by done. destruct (lookup_lt_is_Some_2 (merge_sort (meta_le (table s)) m) i) as [x Hx]; [lia|]. by rewrite Hx.
      + rewrite lookup_seq_ge, lookup_ge_None_2 by lia. done.
    - intros Hw E. cbn in E. apply fmap_None, fmap_None in E. destruct (Hwm Hw E) as [Ht0 _]. unfold set_size in *. rewrite Ht0 in *. cbn in *. lia.
    - destruct Hal as [Hal|[Hal _]]; [left|unfold set_size in *; rewrite Hal in *; cbn in *; lia].
      unfold set_size. change (allocation_size s') with (allocation_size s). by rewrite Hp. }
  split; [done|]. split; [by apply macros_perm|]. split; [done|]. intros name. unfold meta_of. rewrite !find_macro_item_spec by done.
  assert (metat s' = (imap (fun i x => x <| index := Z.of_nat i |>) <$> (merge_sort (meta_le (table s)) <$> metat s))) as -> by done.
  destruct (metat s) as [m|]; cbn [fmap option_fmap option_map]; [|by destruct (position name (table s')), (position name (table s))].
  specialize (Hm m eq_refl). set (m' := merge_sort (meta_le (table s)) m).
  pose proof (sorted_meta_keys (table s) m Hnd Hm) as Hkeys. fold m' in Hkeys.
  destruct (position name (table s)) as [i|] eqn:Ei.
  - apply position_Some in Ei as (x & Hx & Ex); [|done]. assert (x ∈ table s') as [j Hj]%list_elem_of_lookup by (rewrite Hp; by eapply list_elem_of_lookup_2).
    assert (position name (table s') = Some j) as -> by (apply position_Some; [apply Hok|eauto]). cbn [mbind option_bind].
    rewrite list_lookup_imap. apply (f_equal (fun l => l !! j)) in Hkeys. unfold names in Hkeys. rewrite !list_lookup_fmap, <-Ht, Hj in Hkeys. cbn in Hkeys.
    destruct (m' !! j) as [y|] eqn:Ey; [|done]. cbn in Hkeys. apply (inj Some) in Hkeys.
    assert (y ∈ m) as [k Hk]%list_elem_of_lookup by (rewrite <-(merge_sort_Permutation (meta_le (table s)) m); by eapply list_elem_of_lookup_2).
    pose proof (index_lookup _ _ _ _ Hm Hk) as Hidx. unfold key_at in Hkeys. rewrite Hidx, Nat2Z.id in Hkeys.
    assert (k < length (table s))%nat as Hlt. { apply lookup_lt_Some in Hk. apply (f_equal length) in Hm. rewrite !length_fmap, length_seq in Hm. unfold set_size in Hm. lia. }
    destruct (lookup_lt_is_Some_2 _ _ Hlt) as [z Hz]. rewrite Hz in Hkeys. cbn in Hkeys. assert (k = i) as -> by (eapply names_inj; eauto). rewrite Hk. done.
  - destruct (position name (table s')) as [j|] eqn:Ej; [|done]. apply position_Some in Ej as (x & Hx & Ex); [|apply Hok].
    assert (x ∈ table s) as [i Hi]%list_elem_of_lookup by (rewrite <-Hp; by eapply list_elem_of_lookup_2).
    assert (position name (table s) = Some i) by (apply position_Some; eauto). congruence.
Qed.

(** ** Theorem *)

(** C27. The table is a finite map from names, without regard to case, to values.  Looking a name up, in the
    sorted part by halves and in the rest one by one, gives the value of the map and
    keeps the table; sorting keeps the map, and every macro keeps its metadata. *)
Theorem macro_table_map (s : MACRO_SET) (name : cstr) (use : Z) :
  ms_ok s →
  ((lookup_macro_exact name s use).1 = macros s !! lower name ∧ ms_ok (lookup_macro_exact name s use).2 ∧
     macros (lookup_macro_exact name s use).2 = macros s) ∧
  let s' := optimize_macros s in
  ms_ok s' ∧ macros s' = macros s ∧ (set_size s > 1 → sorted s' = set_size s')%nat ∧
  (lookup_macro_exact name s' use).1 = macros s !! lower name ∧ meta_data <$> meta_of name s' = meta_data <$> meta_of name s.
Proof.
  intros Hs. destruct (lookup_macro_exact_spec name s use Hs) as (H1 & H2 & H3). destruct (optimize_macros_ok s Hs) as (G1 & G2 & Gp & G3). split.
  - split_and!; [done..|]. unfold macros. by rewrite H2.
  - destruct (lookup_macro_exact_spec name (optimize_macros s) use G1) as (E & _). split_and!; [done..| |by rewrite E, G2|done].
    intros Hn. unfold set_size at 1. rewrite Gp. unfold optimize_macros. destruct (Nat.leb_spec (set_size s) 1); [lia|done].
Qed.
Definition sample_set : MACRO_SET :=
  mkSet 8 true false true 0 [mkItem (L "Log") (L "/log"); mkItem (L "ETC") (L "/etc")]
    (Some [mkMeta 0 0 false false (mkSource false 0 1 (-1) (-2)) 3 1; mkMeta 1 1 false false (mkSource false 0 2 (-1) (-2)) 0 0]) true None.
Lemma sample_set_ok : ms_ok sample_set.
Proof.
  split; [apply (bool_decide_unpack _); vm_compute; exact I|cbn; lia|constructor|by intros m [= <-]|done|left; cbn; lia].
Qed.
Lemma macro_table_map_witness : ms_ok sample_set ∧ (lookup_macro_exact (L "lOG") sample_set 3).1 = Some (L "/log") ∧
  ms_ok (optimize_macros sample_set) ∧ key <$> table (optimize_macros sample_set) = [L "ETC"; L "Log"].
Proof.
  split; [exact sample_set_ok|]. split; [reflexivity|]. split; [|vm_compute; reflexivity].
  exact (proj1 (proj2 (macro_table_map sample_set (L "lOG") 3 sample_set_ok))).
Defined.
