(* ===== verification/MacroExpand.v ===== *)
(** * Expansion of configuration macros

    [expand_self_macro], [insert] and [expand_macro] of [condor_utils/config.cpp], over
    the references of [MacroText] and the table of [MacroSet].  The environment, the random
    numbers and the generated tables of default values are arguments. *)

From Stdlib Require Import ZArith Lia Ascii.
From stdpp Require Import base gmap list numbers strings sorting.
From S2P Require Import Prelude MyString DList StringList MacroText MacroSet.
Open Scope Z_scope.

Section Expand.
Context (pt : ParamTables).

(** ** The value of a reference *)

(** [$(NAME:default)]: the name and what is behind the colon. *)
Definition split_colon (name : cstr) : cstr * option cstr :=
  match strchr ":"%char name with Some i => (take i name, Some (drop (S i) name)) | None => (name, None) end.
(** With the prefix of the subsystem first, then without it. *)
Definition lookup_subsys (name : cstr) (subsys : option cstr) (s : MACRO_SET) (use : Z) : option cstr * MACRO_SET :=
  let '(tvalue, s) := lookup_macro name subsys s use in
  match subsys, tvalue with Some _, None => lookup_macro name None s use | _, _ => (tvalue, s) end.
Definition colon_default (pcolon tvalue : option cstr) : cstr :=
  match pcolon, tvalue with
  | Some d, (None | Some []) => d
  | _, Some v => v
  | None, None => []
  end.

(** ** References of a macro to itself *)

Fixpoint skip_common (a b : cstr) : cstr * cstr :=
  match a, b with
  | c :: a', d :: b' => if tolower c =c tolower d then skip_common a' b' else (a, b)
  | _, _ => (a, b)
  end.
Definition selfless (self : cstr) (subsys : option cstr) : option cstr :=
  subsys ← subsys;
  match skip_common subsys self with
  | ([], c :: d :: rest) => if c =c "."%char then Some (d :: rest) else None
  | _ => None
  end.
Definition self_value (s : MACRO_SET) (subsys : option cstr) (name : cstr) : cstr :=
  let '(name, pcolon) := split_colon name in
  let tvalue := (lookup_subsys name subsys s 0).1 in
  let tvalue := match tvalue with
                | None => if has_defaults s && defaults_are_param_info s then param_default_string pt name subsys else None
                | Some v => Some v
                end in
  colon_default pcolon tvalue.
Definition find_self (tmp self : cstr) (less : option cstr) : option pieces :=
  match find_config_macro tmp (Some self) false 0 with
  | Some p => Some p
  | None => less ← less; find_config_macro tmp (Some less) false 0
  end.
Fixpoint self_loop (fuel : nat) (s : MACRO_SET) (tmp self : cstr) (subsys : option cstr) : outcome cstr :=
  match fuel with
  | O => Running
  | S fuel =>
      match find_self tmp self (selfless self subsys) with
      | None => Ok tmp
      | Some (lft, name, rgt) => self_loop fuel s (lft ++ self_value s subsys name ++ rgt) self subsys
      end
  end.
Definition expand_self_macro (fuel : nat) (value : cstr) (s : MACRO_SET) (self : cstr) (subsys : option cstr) : outcome cstr :=
  match self with [] => Excepted | _ => self_loop fuel s value self subsys end.

(** ** Insertion *)

Definition same_param_value (a b : option cstr) : bool :=
  match a, b with
  | Some a, Some b => bool_decide (a = b) || strcasecmp_eq a b && (strcasecmp_eq a (L "true") || strcasecmp_eq a (L "false"))
  | None, None => true
  | _, _ => false
  end.
(** The table is doubled, and the metadata appear if they are wanted. *)
Definition grow (s : MACRO_SET) : MACRO_SET :=
  if Z.of_nat (set_size s) + 1 >=? allocation_size s
  then s <| allocation_size ::= fun n => if n * 2 =? 0 then 32 else n * 2 |>
         <| metat ::= fun m => match m with Some m => Some m | None => if want_meta s then Some [] else None end |>
  else s.
Definition insert (fuel : nat) (name value : cstr) (s : MACRO_SET) (src : MACRO_SOURCE) : outcome MACRO_SET :=
  let param_id := param_default_get_id pt name in
  let def_value := param_default_rawval_by_id pt param_id in
  match find_macro_item name s with
  | Some i =>
      tvalue ← expand_self_macro fuel value s name None;
      Ok (s <| table ::= alter (fun x => mkItem (key x) tvalue) i |>
            <| metat ::= fmap (alter (fun m => mkMeta (MacroSet.param_id m) (index m) (same_param_value def_value (Some tvalue)) false src (use_count m) (ref_count m)) i) |>)
  | None =>
      let s := grow s in
      let matches := same_param_value def_value (Some value) in
      if matches && negb (keep_defaults s) then Ok s
      else
        let ixItem := set_size s in
        let k := match param_default_name_by_id pt param_id with Some n => if bool_decide (name = n) then n else name | None => name end in
        Ok (s <| table ::= fun t => t ++ [mkItem k (if matches then default [] def_value else value)] |>
              <| metat ::= fmap (fun m => m ++ [mkMeta param_id (Z.of_nat ixItem) matches false src 0 0]) |>)
  end.

(** ** Expansion of all references *)

Context (getenv : cstr → option cstr) (rnd : nat → Z).

(** [string_to_long]: no text, no number, or the value of [strtol]. *)
Inductive long_text := NoText | NoNumber | Long (z : Z).
Definition string_to_long (s : option cstr) : long_text :=
  match s with
  | None => NoText
  | Some s =>
      match parse_int (skip_while isspace s) with
      | None => NoNumber
      | Some (z, _) => Long (Z.max (- 2 ^ 63) (Z.min (2 ^ 63 - 1) z))
      end
  end.
(** [$RANDOM_INTEGER(min,max,step)]; [None] is an EXCEPT or a division by zero. *)
Definition random_integer (args : list cstr) (r : Z) : option Z :=
  match string_to_long (args !! 0%nat), string_to_long (args !! 1%nat), string_to_long (args !! 2%nat) with
  | Long min_value, Long max_value, (NoText | Long _) as third =>
      let step := match third with Long step => step | _ => 1 end in
      if step <? 1 then None
      else if min_value >? max_value then None
      else
        let range := int64 (int64 (step + max_value) - min_value) in
        let num := range `quot` step in
        if num =? 0 then None else Some (int64 (min_value + int64 ((r `rem` num) * step)))
  | _, _, _ => None
  end.
(** The entries that [StringList(name, COMMA)] gives. *)
Definition entries_of_name (name : cstr) : list cstr := from_option strings [] (StringList_new (Some name) (Some (L ","))).
Definition random_choice (args : list cstr) (r : Z) : option cstr :=
  match args with [] => None | _ => args !! Z.to_nat (r `rem` Z.of_nat (length args)) end.

(** The set, the number of random numbers used, and the text. *)
Record state := mkState { e_set : MACRO_SET; e_rnd : nat; tmp : cstr }.
#[export] Instance state_updatable : Updatable state := fun e => mkState (e_set e) (e_rnd e) (tmp e).
Definition env_step (e : state) : bool * state :=
  match find_special_config_macro (L "$ENV") true (tmp e) with
  | Some (lft, name, rgt) => (false, e <| tmp := lft ++ default (L "UNDEFINED") (getenv name) ++ rgt |>)
  | None => (true, e)
  end.
Definition choice_step (e : state) : outcome (bool * state) :=
  match find_special_config_macro (L "$RANDOM_CHOICE") false (tmp e) with
  | Some (lft, name, rgt) =>
      match entries_of_name name with
      | [] => Excepted
      | args => tvalue ← or_except (random_choice args (rnd (e_rnd e)));
                Ok (false, e <| e_rnd ::= S |> <| tmp := lft ++ tvalue ++ rgt |>)
      end
  | None => Ok (true, e)
  end.
Definition integer_step (e : state) : outcome (bool * state) :=
  match find_special_config_macro (L "$RANDOM_INTEGER") false (tmp e) with
  | Some (lft, name, rgt) =>
      z ← or_except (random_integer (entries_of_name name) (rnd (e_rnd e)));
      Ok (false, e <| e_rnd ::= S |> <| tmp := lft ++ int_text z ++ rgt |>)
  | None => Ok (true, e)
  end.
Definition macro_value (use_default_param_table : bool) (subsys : option cstr) (use : Z) (s : MACRO_SET) (name : cstr) : cstr * MACRO_SET :=
  let '(name, pcolon) := split_colon name in
  let '(tvalue, s) := lookup_subsys name subsys s use in
  let '(tvalue, s) := match tvalue with
                      | None => if use_default_param_table
                                then (param_default_string pt name subsys, if use =? 0 then s else param_default_set_use pt name use s)
                                else (None, s)
                      | Some v => (Some v, s)
                      end in
  (colon_default pcolon tvalue, s).
Definition macro_step (use_default_param_table : bool) (subsys : option cstr) (use : Z) (e : state) : bool * state :=
  match find_config_macro (tmp e) None false 0 with
  | Some (lft, name, rgt) =>
      let '(tvalue, s) := macro_value use_default_param_table subsys use (e_set e) name in
      (false, mkState s (e_rnd e) (lft ++ tvalue ++ rgt))
  | None => (true, e)
  end.
Fixpoint expand_loop (use_default_param_table : bool) (subsys : option cstr) (use : Z) (fuel : nat) (e : state) : outcome state :=
  match fuel with
  | O => Running
  | S fuel =>
      let '(d1, e) := env_step e in
      '(d2, e) ← choice_step e;
      '(d3, e) ← integer_step e;
      let '(d4, e) := macro_step use_default_param_table subsys use e in
      if d1 && d2 && d3 && d4 then Ok e else expand_loop use_default_param_table subsys use fuel e
  end.
(** [$(DOLLAR)] comes last; each round makes the text shorter. *)
Fixpoint dollar_loop (fuel : nat) (text : cstr) : outcome cstr :=
  match fuel with
  | O => Running
  | S fuel =>
      match find_config_macro text (Some DOLLAR_ID) false 0 with
      | Some (lft, _, rgt) => dollar_loop fuel (lft ++ L "$" ++ rgt)
      | None => Ok text
      end
  end.
Definition expand_macro (fuel : nat) (value : cstr) (s : MACRO_SET) (use_default_param_table : bool) (subsys : option cstr) (use : Z)
    (used : nat) : outcome state :=
  e ← expand_loop use_default_param_table subsys use fuel (mkState s used value);
  text ← dollar_loop (S (length (tmp e))) (tmp e);
  Ok (e <| tmp := text |>).
End Expand.
