(* ===== verification/MacroSpec.v ===== *)
(** * What the expansion of macros gives

    Texts that follow the grammar of [MacroText] are expanded to what a reference
    definition says: each reference is replaced by the expansion of its value.  The
    expansion ends exactly when the references do not go round in circles. *)

From Stdlib Require Import ZArith Lia Ascii.
From stdpp Require Import base gmap list numbers strings sorting.
From S2P Require Import Prelude MyString DList StringList MacroText MacroSet MacroExpand.
Open Scope Z_scope.

(** ** Reference expansion *)

Section Eval.
(** The segments that are replaced, the texts of their values, and the segments allowed. *)
Context (active : seg → bool) (text_of : seg → cstr) (ok : seg → Prop).

(** [eval t o k]: [o] is the expansion of [t] with [k] replacements. *)
Inductive eval : template → template → nat → Prop :=
| eval_nil : eval [] [] 0
| eval_keep x t o k : active x = false → eval t o k → eval (x :: t) (x :: o) k
| eval_replace x v t o1 k1 o2 k2 : active x = true → Forall ok v → text_of x = print v → eval v o1 k1 → eval t o2 k2 →
    eval (x :: t) (o1 ++ o2) (S (k1 + k2)).

Lemma eval_app t1 o1 k1 t2 o2 k2 : eval t1 o1 k1 → eval t2 o2 k2 → eval (t1 ++ t2) (o1 ++ o2) (k1 + k2).
Proof.
  induction 1 as [|x t o k Hx H IH|x v t o1 k1 o3 k3 Hx Hv Ht H1 IH1 H IH]; intros H2; cbn [app]; [done|by constructor; auto|].
  rewrite <-app_assoc. replace (S (k1 + k3) + k2)%nat with (S (k1 + (k3 + k2))) by lia. econstructor; eauto.
Qed.
Lemma eval_app_inv t1 : ∀ t2 o k, eval (t1 ++ t2) o k → ∃ o1 k1 o2 k2, eval t1 o1 k1 ∧ eval t2 o2 k2 ∧ o = o1 ++ o2 ∧ k = (k1 + k2)%nat.
Proof.
  induction t1 as [|x t1 IH]; intros t2 o k H; cbn [app] in H; [exists [], 0%nat, o, k; split; [constructor|done]|].
  inversion H as [|? ? o' ? Hx H'|? v ? o1 k1 o2 k2 Hx Hv Ht H1 H2]; subst.
  - apply IH in H' as (oa & ka & ob & kb & Ha & Hb & -> & ->). exists (x :: oa), ka, ob, kb. split; [by constructor|done].
  - apply IH in H2 as (oa & ka & ob & kb & Ha & Hb & -> & ->). exists (o1 ++ oa), (S (k1 + ka)), ob, kb. split; [by econstructor|].
    rewrite app_assoc. split; [done|]. split; [done|]. lia.
Qed.
(** One replacement, anywhere. *)
Lemma eval_step t1 x t2 o k : eval (t1 ++ x :: t2) o k → active x = true →
  ∃ v k', Forall ok v ∧ text_of x = print v ∧ eval (t1 ++ v ++ t2) o k' ∧ k = S k'.
Proof.
  intros H Hx. apply eval_app_inv in H as (o1 & k1 & o2 & k2 & H1 & H2 & -> & ->).
  inversion H2 as [|? ? ? ? Hx' _|? v ? oa ka ob kb _ Hv Ht Ha Hb]; subst; [congruence|].
  exists v, (k1 + (ka + kb))%nat. split; [done|]. split; [done|]. split; [|lia]. by repeat apply eval_app.
Qed.
Lemma eval_unstep t1 x v t2 o k : active x = true → Forall ok v → text_of x = print v → eval (t1 ++ v ++ t2) o k → eval (t1 ++ x :: t2) o (S k).
Proof.
  intros Hx Hv Ht H. apply eval_app_inv in H as (o1 & k1 & o2 & k2 & H1 & H2 & -> & ->).
  apply eval_app_inv in H2 as (oa & ka & ob & kb & Ha & Hb & -> & ->). replace (S (k1 + (ka + kb))) with (k1 + S (ka + kb))%nat by lia.
  apply eval_app; [done|]. by econstructor.
Qed.
Lemma eval_still t : Forall (fun x => active x = false) t → eval t t 0.
Proof. induction 1; constructor; done. Qed.
Lemma eval_still_inv t o k : Forall (fun x => active x = false) t → eval t o k → o = t ∧ k = 0%nat.
Proof.
  intros Ht H. induction H as [|x t o k Hx H IH|]; [done|..]; apply Forall_cons in Ht as [Hx' Ht]; [|congruence].
  destruct (IH Ht) as [-> ->]. done.
Qed.
Lemma eval_result t o k : eval t o k → Forall ok t → Forall ok o ∧ Forall (fun x => active x = false) o.
Proof.
  induction 1 as [|x t o k Hx H IH|x v t o1 k1 o2 k2 Hx Hv Ht H1 IH1 H2 IH2]; intros Hok; [done|..]; apply Forall_cons in Hok as [Hox Hok].
  - destruct (IH Hok). split; by constructor.
  - destruct (IH1 Hv), (IH2 Hok). split; by apply Forall_app.
Qed.
(** When no value has an active segment, everything is expanded after one replacement each. *)
Lemma eval_exists t : (∀ x, active x = true → x ∈ t → ∃ v, Forall ok v ∧ text_of x = print v ∧ Forall (fun y => active y = false) v) →
  ∃ o k, eval t o k ∧ (k ≤ length t)%nat ∧ print o = t ≫= fun x => if active x then text_of x else seg_text x.
Proof.
  induction t as [|x t IH]; intros Hv; [exists [], 0%nat; split; [constructor|done]|].
  destruct IH as (o & k & H & Hk & Hp); [intros; apply Hv; [done|by right]|]. cbn [mbind list_bind]. destruct (active x) eqn:Hx.
  - destruct (Hv x Hx) as (v & Hok & Ht & Hs); [by left|]. exists (v ++ o), (S (0 + k)). split; [econstructor; eauto using eval_still|]. split; [cbn; lia|].
    rewrite print_app, Ht. f_equal. exact Hp.
  - exists (x :: o), k. split; [by constructor|]. split; [cbn; lia|]. cbn [print]. f_equal. exact Hp.
Qed.
End Eval.

(** The first segment with a property. *)
Lemma first_split {A} (f : A → bool) (l : list A) :
  Forall (fun x => f x = false) l ∨ ∃ l1 x l2, l = l1 ++ x :: l2 ∧ Forall (fun x => f x = false) l1 ∧ f x = true.
Proof.
  induction l as [|x l IH]; [by left|]. destruct (f x) eqn:E; [right; by exists [], x, l|].
  destruct IH as [IH|(l1 & y & l2 & -> & H1 & H2)]; [left; by constructor|]. right. exists (x :: l1), y, l2. split; [done|]. split; [by constructor|done].
Qed.

(** ** References of a macro to itself *)

Section Self.
Context (pt : ParamTables) (s : MACRO_SET) (self : cstr) (subsys : option cstr).

Definition is_self (n : cstr) : bool :=
  strcasecmp_eq n self || match selfless self subsys with Some l => strcasecmp_eq n l | None => false end.
Definition self_active (x : seg) : bool := match x with Ref n | RefD n _ => is_self n | _ => false end.
(** No reference to the macro in a default. *)
Definition self_ok (x : seg) : Prop :=
  wf_seg x ∧ match x with RefD _ d => Forall (fun y => match y with DRef m => is_self m = false | DLit _ => True end) d | _ => True end.
Definition self_text (x : seg) : cstr := self_value pt s subsys (name_text x).
Abbreviation self_eval := (eval self_active self_text self_ok).

Lemma self_quiet w x : (w = self ∨ selfless self subsys = Some w) → self_ok x → refers (Some w) x = false → quiet (Some w) x.
Proof.
  intros Hw [_ Hd] Hr. split; [done|]. destruct x; try done. eapply Forall_impl; [exact Hd|]. intros [|m]; [done|]. unfold is_self, wanted.
  intros [H1 H2]%orb_false_iff. destruct Hw as [->|E]; [done|]. by rewrite E in H2.
Qed.
Lemma self_ok_wf t : Forall self_ok t → wf t.
Proof. intros H. eapply Forall_impl; [exact H|]. by intros x []. Qed.
(** The search finds an active segment if there is one. *)
Lemma find_self_spec t : Forall self_ok t →
  match find_self (print t) self (selfless self subsys) with
  | None => Forall (fun x => self_active x = false) t
  | Some p => ∃ t1 x t2, t = t1 ++ x :: t2 ∧ self_active x = true ∧ p = (print t1, name_text x, print t2)
  end.
Proof.
  intros Hok. assert (∀ w, (w = self ∨ selfless self subsys = Some w) → match find_config_macro (print t) (Some w) false 0 with
    | None => Forall (fun x => refers (Some w) x = false) t
    | Some p => ∃ t1 x t2, t = t1 ++ x :: t2 ∧ refers (Some w) x = true ∧ p = (print t1, name_text x, print t2) end) as Hfind.
  { intros w Hw. destruct (first_split (refers (Some w)) t) as [H|(t1 & x & t2 & -> & H1 & Hx)].
    - rewrite find_config_macro_none; [done|by apply self_ok_wf|]. apply Forall_forall. intros x Hx.
      apply self_quiet; [done|by eapply Forall_forall in Hok|by eapply Forall_forall in H].
    - pose proof Hok as Hok'. apply Forall_app in Hok' as [Hok1 [Hok2 _]%Forall_cons].
      rewrite find_config_macro_first; [eauto 10|by apply self_ok_wf| |apply Hok2|done]. apply Forall_forall. intros y Hy.
      apply self_quiet; [done|by eapply Forall_forall in Hok1|by eapply Forall_forall in H1]. }
  unfold find_self. pose proof (Hfind self (or_introl eq_refl)) as H1. destruct (find_config_macro (print t) (Some self) false 0) as [p|].
  { destruct H1 as (t1 & x & t2 & E & Hx & Hp). exists t1, x, t2. split; [done|]. split; [|done]. unfold self_active, is_self.
    destruct x; try done; cbn in Hx; by rewrite Hx. }
  destruct (selfless self subsys) as [w|] eqn:Ew; cbn [mbind option_bind].
  - pose proof (Hfind w (or_intror eq_refl)) as H2. destruct (find_config_macro (print t) (Some w) false 0) as [p|].
    + destruct H2 as (t1 & x & t2 & E & Hx & Hp). exists t1, x, t2. split; [done|]. split; [|done]. unfold self_active, is_self. rewrite Ew.
      destruct x; try done; cbn in Hx; by rewrite Hx, orb_true_r.
    + apply Forall_forall. intros x Hx. eapply Forall_forall in H1, H2; [|done..]. unfold self_active, is_self. rewrite Ew. destruct x; try done; cbn in *; by rewrite H1, H2.
  - eapply Forall_impl; [exact H1|]. intros x Hx. unfold self_active, is_self. rewrite Ew. destruct x; try done; cbn in *; by rewrite Hx.
Qed.
Lemma self_loop_eval k : ∀ fuel t o, Forall self_ok t → self_eval t o k → (k < fuel)%nat → self_loop pt fuel s (print t) self subsys = Ok (print o).
Proof.
  induction k as [k IH] using lt_wf_ind; intros [|fuel] t o Hok Hev Hf; [lia|]. cbn [self_loop].
  pose proof (find_self_spec t Hok) as Hs. destruct (find_self _ _ _) as [[[l n] r]|].
  - destruct Hs as (t1 & x & t2 & -> & Hx & [= -> -> ->]). apply eval_step in Hev as (v & k' & Hv & Ht & Hev & ->); [|done].
    apply Forall_app in Hok as [Hok1 [_ Hok2]%Forall_cons]. change (self_value pt s subsys (name_text x)) with (self_text x). rewrite Ht.
    rewrite <-!print_app. apply (IH k'); [lia| |done|lia]. by repeat apply Forall_app_2.
  - apply eval_still_inv in Hev as [-> _]; done.
Qed.
End Self.

(** ** All references *)

(** Look-ups change the counters only. *)
Definition same_macros (s s' : MACRO_SET) : Prop := table s' = table s ∧ sorted s' = sorted s.
#[export] Instance same_macros_equiv : Equivalence same_macros.
Proof. split; [done|..]; unfold same_macros; intros ?; naive_solver congruence. Qed.
Lemma find_macro_item_same name s s' : same_macros s s' → find_macro_item name s' = find_macro_item name s.
Proof. intros [Ht Hs]. unfold find_macro_item. by rewrite Ht, Hs. Qed.
Lemma lookup_macro_same name p use s s' : same_macros s s' →
  (lookup_macro name p s' use).1 = (lookup_macro name p s use).1 ∧ same_macros s (lookup_macro name p s' use).2.
Proof.
  intros H. unfold lookup_macro, lookup_macro_exact. rewrite (find_macro_item_same _ s s') by done. destruct (find_macro_item _ s) as [i|]; [|done].
  destruct H as [Ht Hs]. cbn. rewrite Ht. done.
Qed.
Lemma lookup_subsys_same name p use s s' : same_macros s s' →
  (lookup_subsys name p s' use).1 = (lookup_subsys name p s use).1 ∧ same_macros s (lookup_subsys name p s' use).2.
Proof.
  intros H. unfold lookup_subsys. pose proof (lookup_macro_same name p use s s' H) as [E1 H1].
  pose proof (lookup_macro_same name p use s s ltac:(done)) as [_ H0].
  destruct (lookup_macro name p s' use) as [v' s1'], (lookup_macro name p s use) as [v s1]. cbn in E1, H1, H0. subst v'.
  destruct p, v; cbn; try done. destruct (lookup_macro_same name None use s s1' H1) as [-> ?], (lookup_macro_same name None use s s1 H0) as [-> _]. done.
Qed.

Section All.
Context (pt : ParamTables) (getenv : cstr → option cstr) (rnd : nat → Z).
Context (use_default : bool) (subsys : option cstr) (use : Z).

Lemma macro_value_same s s' name : same_macros s s' →
  (macro_value pt use_default subsys use s' name).1 = (macro_value pt use_default subsys use s name).1 ∧
  same_macros s (macro_value pt use_default subsys use s' name).2.
Proof.
  intros H. unfold macro_value. destruct (split_colon name) as [n p]. pose proof (lookup_subsys_same n subsys use s s' H) as [E H1].
  destruct (lookup_subsys n subsys s' use) as [v' s1'], (lookup_subsys n subsys s use) as [v s1]. cbn in E, H1. subst v'.
  destruct v; cbn; [done|]. destruct use_default; cbn; [|done]. split; [done|]. destruct (use =? 0); [done|]. unfold param_default_set_use.
  destruct (has_defaults s1'); [|done]. by destruct (generic_index pt n).
Qed.

Definition all_active (x : seg) : bool := match x with EnvRef _ => true | _ => refers None x end.
Definition all_text (s : MACRO_SET) (x : seg) : cstr :=
  match x with
  | EnvRef n => default (L "UNDEFINED") (getenv n)
  | _ => (macro_value pt use_default subsys use s (name_text x)).1
  end.
Abbreviation all_eval s := (eval all_active (all_text s) wf_seg).

Lemma quiet_all x : wf_seg x → refers None x = false → quiet None x.
Proof. intros Hx Hr. split; [done|]. destruct x; try done. cbn in Hx, Hr. destruct Hx as (_ & _ & E). by rewrite E in Hr. Qed.
Definition is_env (x : seg) : bool := match x with EnvRef _ => true | _ => false end.
Lemma env_step_spec s used t : wf t →
  match env_step getenv (mkState s used (print t)) with
  | (true, e) => e = mkState s used (print t) ∧ Forall (fun x => is_env x = false) t
  | (false, e) => ∃ t1 x t2, t = t1 ++ x :: t2 ∧ all_active x = true ∧ e = mkState s used (print t1 ++ all_text s x ++ print t2)
  end.
Proof.
  intros Hw. unfold env_step. cbn [tmp]. destruct (first_split is_env t) as [H|(t1 & x & t2 & -> & H1 & Hx)].
  - unfold L at 1. cbn [String.list_ascii_of_string]. rewrite find_special_none; [done..|]. eapply Forall_impl; [exact H|]. intros []; cbn; auto.
  - destruct x as [| | |n|]; try done. apply Forall_app in Hw as [Hw1 [Hx' _]%Forall_cons].
    rewrite find_special_first; [|done| |done]. + exists t1, (EnvRef n), t2. done.
    + eapply Forall_impl; [exact H1|]. by intros [].
Qed.
Lemma macro_step_spec s s0 used t : wf t → same_macros s0 s →
  match macro_step pt use_default subsys use (mkState s used (print t)) with
  | (true, e) => e = mkState s used (print t) ∧ Forall (fun x => refers None x = false) t
  | (false, e) => ∃ t1 x t2 s', t = t1 ++ x :: t2 ∧ all_active x = true ∧ same_macros s0 s' ∧ e = mkState s' used (print t1 ++ all_text s0 x ++ print t2)
  end.
Proof.
  intros Hw Hs. unfold macro_step. cbn [tmp e_set e_rnd]. destruct (first_split (refers None) t) as [H|(t1 & x & t2 & -> & H1 & Hx)].
  - rewrite find_config_macro_none; [done..|]. apply Forall_forall. intros x Hx. eapply Forall_forall in Hw, H; [|done..]. by apply quiet_all.
  - apply Forall_app in Hw as [Hw1 [Hx' _]%Forall_cons]. rewrite find_config_macro_first; [|done| |done..].
    + destruct (macro_value_same s0 s (name_text x) Hs) as [E Hs']. destruct (macro_value _ _ _ _ s _) as [v s']. cbn in E, Hs'. subst v.
      exists t1, x, t2, s'. split; [done|]. split; [by destruct x|]. split; [done|]. by destruct x.
    + apply Forall_forall. intros y Hy. eapply Forall_forall in Hw1, H1; [|done..]. by apply quiet_all.
Qed.
Lemma random_steps s used t : wf t → choice_step rnd (mkState s used (print t)) = Ok (true, mkState s used (print t)) ∧
  integer_step rnd (mkState s used (print t)) = Ok (true, mkState s used (print t)).
Proof.
  intros Hw. unfold choice_step, integer_step. cbn [tmp]. unfold L at 1 2. cbn [String.list_ascii_of_string].
  rewrite !find_special_none; try done; eapply Forall_impl; [exact Hw|intros; by right..|exact Hw|intros; by right].
Qed.

(** One round: nothing was left to do, or one or two references were replaced.  [P] is what is
    known of the templates, with a number that [Q] relates to the next. *)
Lemma expand_round s0 used (P : nat → template → Prop) (Q : relation nat) `{!Transitive Q} :
  (∀ n t1 x t2, P n (t1 ++ x :: t2) → wf_seg x → all_active x = true →
     ∃ v m, wf v ∧ all_text s0 x = print v ∧ P m (t1 ++ v ++ t2) ∧ Q m n) →
  ∀ fuel n t s, wf t → same_macros s0 s → P n t →
  let run fuel := expand_loop pt getenv rnd use_default subsys use fuel in
  run (S fuel) (mkState s used (print t)) = Ok (mkState s used (print t)) ∧ Forall (fun x => all_active x = false) t ∨
  ∃ s' t' m, same_macros s0 s' ∧ wf t' ∧ P m t' ∧ Q m n ∧ run (S fuel) (mkState s used (print t)) = run fuel (mkState s' used (print t')) ∧
    ∀ o k, all_eval s0 t' o k → ∃ k', all_eval s0 t o k'.
Proof.
  intros Hcl fuel n t s Hw Hs HP run. unfold run. cbn [expand_loop]. assert (∀ t, all_text s t = all_text s0 t) as Htext.
  { intros x. unfold all_text. destruct x; try done; by apply (macro_value_same s0 s). }
  assert (∀ n t1 x t2, wf (t1 ++ x :: t2) → P n (t1 ++ x :: t2) → all_active x = true → ∃ v m, wf (t1 ++ v ++ t2) ∧ P m (t1 ++ v ++ t2) ∧ Q m n ∧
    print t1 ++ all_text s0 x ++ print t2 = print (t1 ++ v ++ t2) ∧ ∀ o k, all_eval s0 (t1 ++ v ++ t2) o k → all_eval s0 (t1 ++ x :: t2) o (S k)) as Hmove.
  { intros n0 t1 x t2 Hw0 HP0 Hx. apply Forall_app in Hw0 as [H1 [H2 H3]%Forall_cons]. destruct (Hcl n0 t1 x t2 HP0 H2 Hx) as (v & m & Hv & Ht & HPm & HQ).
    exists v, m. split; [by repeat apply Forall_app_2|]. split; [done|]. split; [done|]. split; [by rewrite Ht, !print_app|].
    intros o k. by apply eval_unstep. }
  pose proof (env_step_spec s used t Hw) as He. destruct (env_step getenv _) as [[|] e].
  - destruct He as [-> He]. destruct (random_steps s used t Hw) as [-> E2]. cbn [mbind outcome_bind]. rewrite E2. cbn [mbind outcome_bind].
    pose proof (macro_step_spec s s0 used t Hw Hs) as Hm. destruct (macro_step _ _ _ _ _) as [[|] e].
    + destruct Hm as [-> Hm]. left. cbn [andb]. split; [done|]. apply Forall_forall. intros x Hx. eapply Forall_forall in He, Hm; [|done..]. by destruct x.
    + destruct Hm as (t1 & x & t2 & s' & -> & Hx & Hs' & ->). right. cbn [andb]. destruct (Hmove n t1 x t2 Hw HP Hx) as (v & m & Hw' & HP' & HQ & -> & Hev).
      exists s', (t1 ++ v ++ t2), m. eauto 10.
  - destruct He as (t1 & x & t2 & -> & Hx & ->). rewrite Htext. right. destruct (Hmove n t1 x t2 Hw HP Hx) as (v & m & Hw' & HP' & HQ & -> & Hev).
    destruct (random_steps s used _ Hw') as [-> E2]. cbn [mbind outcome_bind]. rewrite E2. cbn [mbind outcome_bind andb].
    pose proof (macro_step_spec s s0 used _ Hw' Hs) as Hm. destruct (macro_step _ _ _ _ _) as [[|] e].
    + destruct Hm as [-> _]. exists s, (t1 ++ v ++ t2), m. eauto 10.
    + destruct Hm as (u1 & y & u2 & s' & E & Hy & Hs' & ->). rewrite E in Hw', HP'. destruct (Hmove m u1 y u2 Hw' HP' Hy) as (w & m' & Hw2 & HP2 & HQ2 & -> & Hev2).
      exists s', (u1 ++ w ++ u2), m'. split_and!; try done; [by etrans|]. intros o k H. apply Hev2 in H. rewrite <-E in H. eauto.
Qed.
Lemma expand_loop_eval s0 used o k : ∀ fuel t s, wf t → same_macros s0 s → all_eval s0 t o k → (k < fuel)%nat →
  ∃ s', expand_loop pt getenv rnd use_default subsys use fuel (mkState s used (print t)) = Ok (mkState s' used (print o)) ∧ same_macros s0 s'.
Proof.
  induction k as [k IH] using lt_wf_ind; intros [|fuel] t s Hw Hs Hev Hf; [lia|].
  destruct (expand_round s0 used (fun n t => all_eval s0 t o n) lt) with (fuel := fuel) (n := k) (t := t) (s := s) as [[E Hin]|(s' & t' & m & Hs' & Hw' & Hev' & Hlt & E & _)]; try done.
  - intros n t1 x t2 H _ Hx. apply eval_step in H as (v & k' & Hv & Ht & H & ->); [|done]. exists v, k'. eauto with lia.
  - apply eval_still_inv in Hev as [-> _]; [|done]. eauto.
  - rewrite E. apply (IH m); [lia|done..|lia].
Qed.
(** A run that returns has a reference expansion, and no run leaves the process. *)
Lemma expand_loop_inv s0 used : (∀ x, wf_seg x → all_active x = true → ∃ v, wf v ∧ all_text s0 x = print v) →
  ∀ fuel t s, wf t → same_macros s0 s →
  match expand_loop pt getenv rnd use_default subsys use fuel (mkState s used (print t)) with
  | Ok _ => ∃ o k, all_eval s0 t o k
  | Excepted => False
  | Running => True
  end.
Proof.
  intros Hval. assert (Transitive (fun _ _ : nat => True)) by (by intros ???). induction fuel as [|fuel IH]; intros t s Hw Hs; [done|].
  destruct (expand_round s0 used (fun _ _ => True) (fun _ _ => True)) with (fuel := fuel) (n := 0%nat) (t := t) (s := s) as [[-> Hin]|(s' & t' & m & Hs' & Hw' & _ & _ & -> & Hev)]; try done.
  - intros n t1 x t2 _ Hx Ha. destruct (Hval x Hx Ha) as (v & Hv & Ht). by exists v, 0%nat.
  - exists t, 0%nat. by apply eval_still.
  - specialize (IH t' s' Hw' Hs'). destruct (expand_loop _ _ _ _ _ _ fuel _); [|done..]. destruct IH as (o & k & Ho). destruct (Hev o k Ho) as [k' H']. eauto.
Qed.
End All.

(** ** Dollar signs *)

(** What stands for itself after the expansion. *)
Fixpoint render (o : template) : cstr :=
  match o with [] => [] | Lit s :: o => s ++ render o | Ref _ :: o => L "$" ++ render o | x :: o => seg_text x ++ render o end.
Definition plain_out (x : seg) : Prop := match x with Lit s => "$"%char ∉ s | Ref n => wf_name n ∧ is_dollar n = true | _ => False end.
(** The text behind a dollar sign that does not make it a reference. *)
Definition ok_next (v : cstr) : Prop := match v with [] => True | c :: _ => (c =c "$"%char) = false ∧ (c =c "("%char) = false end.
Fixpoint dollars_ok (o : template) : Prop :=
  match o with [] => True | Ref _ :: o => ok_next (print o) ∧ dollars_ok o | _ :: o => dollars_ok o end.
(** The part that is done, in front of [v]. *)
Fixpoint cash_ok (d : template) (v : cstr) : Prop :=
  match d with
  | [] => True
  | Cash :: d => ok_next (print d ++ v) ∧ cash_ok d v
  | Lit s :: d => "$"%char ∉ s ∧ cash_ok d v
  | _ :: _ => False
  end.
Lemma cash_ok_snoc d x v : cash_ok (d ++ [x]) v ↔ cash_ok d (seg_text x ++ v) ∧ match x with Cash => ok_next v | Lit s => "$"%char ∉ s | _ => False end.
Proof.
  induction d as [|y d IH]; cbn [app cash_ok]; [destruct x; cbn; tauto|].
  destruct y; rewrite ?IH, ?print_app, <-?app_assoc; cbn [print]; rewrite ?app_nil_r; tauto.
Qed.
Lemma cash_ok_head d c v v' : cash_ok d (c :: v) → cash_ok d (c :: v').
Proof. induction d as [|[] d IH]; cbn [cash_ok]; try tauto. intros [H1 H2]. split; [|auto]. by destruct (print d). Qed.
Lemma find_cash self d : ∀ seen v, cash_ok d v → find self seen (print d ++ v) = find self (seen ++ print d) v.
Proof.
  induction d as [|x d IH]; intros seen v Hd; [by rewrite app_nil_r|]. rewrite print_cons, <-app_assoc. destruct x; try done; cbn [cash_ok seg_text] in *.
  - destruct Hd as [Hs Hd]. rewrite find_lit, IH by done. by rewrite <-app_assoc.
  - destruct Hd as [Hn Hd]. unfold L. cbn [String.list_ascii_of_string app]. rewrite find_dollar.
    assert (eat "$"%char (print d ++ v) = None ∧ eat "("%char (print d ++ v) = None) as [-> ->].
    { destruct (print d ++ v) as [|c w]; [done|]. destruct Hn as [H1 H2]. cbn [eat]. by rewrite H1, H2. }
    rewrite IH by done. by rewrite <-app_assoc.
Qed.
Fixpoint nrefs (o : template) : nat := match o with [] => 0 | Ref _ :: o => S (nrefs o) | _ :: o => nrefs o end.
Lemma nrefs_print o : (nrefs o ≤ length (print o))%nat.
Proof.
  induction o as [|x o IH]; [done|]. rewrite print_cons, length_app. destruct x; cbn [nrefs seg_text]; try lia. rewrite length_app. cbn. lia.
Qed.
Lemma dollar_loop_spec o : ∀ fuel d, Forall plain_out o → dollars_ok o → cash_ok d (print o) → (nrefs o < fuel)%nat →
  dollar_loop fuel (print d ++ print o) = Ok (print d ++ render o).
Proof.
  induction o as [|x o IH]; intros fuel d Ho Hok Hc Hf.
  - destruct fuel; [cbn in Hf; lia|]. cbn [dollar_loop]. rewrite find_config_macro_find. cbn [print render] in *. rewrite find_cash by done. done.
  - apply Forall_cons in Ho as [Hx Ho]. destruct x as [s|n| | |]; try done.
    + specialize (IH fuel (d ++ [Lit s]) Ho Hok). rewrite !print_app in IH. cbn [print seg_text] in IH. rewrite app_nil_r, <-!app_assoc in IH.
      apply IH; [|done]. apply cash_ok_snoc. split; [exact Hc|exact Hx].
    + destruct fuel as [|fuel]; [cbn in Hf; lia|]. destruct Hx as [Hn Hd]. destruct Hok as [Hnext Hok]. cbn [dollar_loop].
      rewrite find_config_macro_find, find_cash by done. rewrite print_cons, find_ref_hit by done. cbn [app].
      specialize (IH fuel (d ++ [Cash]) Ho Hok). rewrite print_app in IH. cbn [print seg_text] in IH. rewrite app_nil_r, <-!app_assoc in IH.
      apply IH; [|cbn in Hf; lia]. apply cash_ok_snoc. split; [|done]. exact (cash_ok_head d "$"%char _ (print o) Hc).
Qed.

(** ** The values of references *)

Lemma split_colon_ref n : wf_name n → split_colon n = (n, None).
Proof. intros Hn. unfold split_colon. rewrite strchr_None; [done|]. by apply (wf_name_no ":"%char). Qed.
Lemma split_colon_refd n d : wf_name n → split_colon (name_text (RefD n d)) = (n, Some (default_text d)).
Proof.
  intros Hn. unfold split_colon. cbn [name_text]. unfold L. cbn [String.list_ascii_of_string app].
  rewrite strchr_app by (by apply (wf_name_no ":"%char)). by rewrite take_app_length, <-Nat.add_1_r, drop_app_add.
Qed.

Section Values.
Context (pt : ParamTables) (getenv : cstr → option cstr) (use_default : bool) (subsys : option cstr).
(** The value of a name: with the prefix of the subsystem, without it, or the default. *)
Definition name_value (m : gmap cstr cstr) (n : cstr) : option cstr :=
  match p ← subsys; m !! lower (p ++ L "." ++ n) with
  | Some v => Some v
  | None => match m !! lower n with Some v => Some v | None => if use_default then param_default_string pt n subsys else None end
  end.
Definition seg_value (m : gmap cstr cstr) (x : seg) : cstr :=
  match x with
  | Ref n => default [] (name_value m n)
  | RefD n d => match name_value m n with None | Some [] => default_text d | Some v => v end
  | EnvRef n => default (L "UNDEFINED") (getenv n)
  | _ => []
  end.
Lemma macro_value_spec s use n c name : ms_ok s → split_colon name = (n, c) →
  (macro_value pt use_default subsys use s name).1 = colon_default c (name_value (macros s) n).
Proof.
  intros Hs E. unfold macro_value, name_value, lookup_subsys, lookup_macro. rewrite E.
  assert (∀ m s1, ms_ok s1 → macros s1 = macros s → (lookup_macro_exact m s1 use).1 = macros s !! lower m ∧
    ms_ok (lookup_macro_exact m s1 use).2 ∧ macros (lookup_macro_exact m s1 use).2 = macros s) as Hl.
  { intros m s1 H1 Em. destruct (lookup_macro_exact_spec m s1 use H1) as (-> & Ht & ?). split; [by rewrite Em|]. split; [done|]. rewrite <-Em. unfold macros. by rewrite Ht. }
  destruct subsys as [p|]; cbn [mbind option_bind].
  - destruct (Hl (p ++ L "." ++ n) s Hs eq_refl) as (E1 & H1 & M1). destruct (lookup_macro_exact _ s use) as [v s1]. cbn [fst snd] in E1, H1, M1. rewrite <-E1.
    destruct v; [done|]. destruct (Hl n s1 H1 M1) as (E2 & _). destruct (lookup_macro_exact n s1 use) as [v s2]. cbn [fst snd] in E2. rewrite <-E2. destruct v; [done|].
    by destruct use_default.
  - destruct (Hl n s Hs eq_refl) as (E2 & _). destruct (lookup_macro_exact n s use) as [v s2]. cbn [fst snd] in E2. rewrite <-E2. destruct v; [done|]. by destruct use_default.
Qed.
Lemma all_text_value s use x : ms_ok s → wf_seg x → all_active x = true → all_text pt getenv use_default subsys use s x = seg_value (macros s) x.
Proof.
  intros Hs Hx Ha. destruct x as [|n|n d|n|]; try done; unfold all_text, seg_value.
  - cbn [name_text]. rewrite (macro_value_spec s use n None) by (done || by apply split_colon_ref). by destruct (name_value (macros s) n).
  - rewrite (macro_value_spec s use n (Some (default_text d))) by (done || by apply split_colon_refd, Hx). by destruct (name_value (macros s) n) as [[|]|].
Qed.
(** Only the values of segments that are replaced matter. *)
Lemma eval_ext active text_of text_of' ok t o k : (∀ x, ok x → active x = true → text_of x = text_of' x) →
  Forall ok t → eval active text_of ok t o k → eval active text_of' ok t o k.
Proof.
  intros He Ht H. induction H as [|x t o k Hx H IH|x v t o1 k1 o2 k2 Hx Hv Hte H1 IH1 H2 IH2]; [constructor|..]; apply Forall_cons in Ht as [Hok Ht].
  - constructor; auto.
  - econstructor; [done|exact Hv| |by apply IH1|by apply IH2]. by rewrite <-He.
Qed.
Lemma values_all s use t o k : ms_ok s → wf t →
  eval all_active (seg_value (macros s)) wf_seg t o k ↔ eval all_active (all_text pt getenv use_default subsys use s) wf_seg t o k.
Proof. intros Hs Hw. split; apply eval_ext; try done; intros x Hx Ha; [symmetry|]; by apply all_text_value. Qed.
End Values.

(** ** Theorems *)

Section Theorems.
Context (pt : ParamTables) (getenv : cstr → option cstr) (rnd : nat → Z) (use_default : bool) (subsys : option cstr) (use : Z).
Abbreviation expands s := (eval all_active (seg_value pt getenv use_default subsys (macros s)) wf_seg).

(** C10. The expansion of a text.  A text of references [$(NAME)], [$(NAME:default)], [$ENV(NAME)] and other characters, with no other
    dollar signs, that has a reference expansion is expanded to it:
    every reference is replaced by the expansion of its value, which is such a text again: that of the macro with the prefix of
    the subsystem, of the macro itself, of the table of defaults, the default behind the colon, or the
    variable of the environment.  The expansion takes at most one round for each replacement, and
    changes only the counters of the set.  Last, each [$(DOLLAR)] becomes a dollar sign; the theorem requires ([dollars_ok]) that
    no [$(DOLLAR)] of the reference expansion is followed by a dollar sign or an opening parenthesis: contrary to the comment of the code, the dollar sign
    is then read again as the start of a reference ([dollar_rescanned]). *)
Theorem expand_macro_correct (s : MACRO_SET) (t o : template) (k fuel used : nat) :
  ms_ok s → wf t → expands s t o k → dollars_ok o → (k < fuel)%nat →
  ∃ s', expand_macro pt getenv rnd fuel (print t) s use_default subsys use used = Ok (mkState s' used (render o)) ∧ same_macros s s'.
Proof.
  intros Hs0 Hw Hev Hd Hf. rewrite (values_all _ _ _ _ s use) in Hev by done. destruct (expand_loop_eval pt getenv rnd use_default subsys use s used o k fuel t s) as (s' & E & Hs); [done..|].
  unfold expand_macro. rewrite E. cbn [mbind outcome_bind tmp]. destruct (eval_result _ _ _ _ _ _ Hev Hw) as [Hwo Hin].
  pose proof (dollar_loop_spec o (S (length (print o))) []) as Hl. cbn [print app] in Hl. rewrite Hl; [cbn; eauto| |done|done|pose proof (nrefs_print o); lia].
  apply Forall_forall. intros x Hx. eapply Forall_forall in Hwo, Hin; [|done..]. destruct x as [| |n d| |]; try done; cbn in *.
  - apply negb_false_iff in Hin. done.
  - destruct Hwo as (_ & _ & Ed). by rewrite Ed in Hin.
Qed.

(** C25. The expansion ends exactly when the references do not go round.  Assume that every reference that can be written, that is the value of every
    macro, every default and every variable of the environment, has as its value a text of references [$(NAME)], [$(NAME:default)], [$ENV(NAME)] and
    characters other than dollar signs (so none of [$RANDOM_CHOICE] and [$RANDOM_INTEGER], which can leave the process).  Then the loop never leaves the process on such a text, and it returns with some amount of fuel
    if and only if the reference expansion exists. *)
Theorem expand_loop_terminates (s : MACRO_SET) (t : template) (used : nat) :
  (∀ x, wf_seg x → all_active x = true → ∃ v, wf v ∧ seg_value pt getenv use_default subsys (macros s) x = print v) → ms_ok s → wf t →
  let run fuel := expand_loop pt getenv rnd use_default subsys use fuel (mkState s used (print t)) in
  (∀ fuel, run fuel ≠ Excepted) ∧ ((∃ fuel e, run fuel = Ok e) ↔ ∃ o k, expands s t o k).
Proof.
  intros Hval Hs0 Hw run. assert (∀ x, wf_seg x → all_active x = true → ∃ v, wf v ∧ all_text pt getenv use_default subsys use s x = print v) as Hval'.
  { intros x Hx Ha. rewrite all_text_value by done. by apply Hval. }
  pose proof (fun fuel => expand_loop_inv pt getenv rnd use_default subsys use s used Hval' fuel t s Hw ltac:(done)) as Hinv. split.
  - intros fuel E. specialize (Hinv fuel). unfold run in E. by rewrite E in Hinv.
  - split.
    + intros (fuel & e & E). specialize (Hinv fuel). unfold run in E. rewrite E in Hinv. destruct Hinv as (o & k & Ho). exists o, k. by apply values_all in Ho.
    + intros (o & k & Hev). rewrite (values_all _ _ _ _ s use) in Hev by done. destruct (expand_loop_eval pt getenv rnd use_default subsys use s used o k (S k) t s) as (s' & E & _); [done..|lia|]. eauto.
Qed.
End Theorems.
