(* ===== verification/MacroInsert.v ===== *)
(** * Assignments of configuration macros

    An assignment expands the references of a macro to itself and inserts the result into
    the table, as [Parse_config_string] and [Read_config] do.  The table keeps its invariant
    and no macro of it refers to itself. *)

From Stdlib Require Import ZArith Lia Ascii.
From stdpp Require Import base gmap list numbers strings sorting.
From S2P Require Import Prelude MyString DList StringList MacroText MacroSet MacroExpand MacroSpec.
Open Scope Z_scope.

(** ** Values that do not mention a name *)

Definition mentions (n : cstr) (x : seg) : bool :=
  match x with
  | Ref m => strcasecmp_eq m n
  | RefD m d => strcasecmp_eq m n || existsb (fun y => match y with DRef m => strcasecmp_eq m n | DLit _ => false end) d
  | _ => false
  end.
Definition free_of (n v : cstr) : Prop := ∃ t, v = print t ∧ wf t ∧ Forall (fun x => mentions n x = false) t.
Definition self_free (s : MACRO_SET) : Prop := ∀ x, x ∈ table s → free_of (key x) (raw_value x).

(** The default of a reference, as a text of its own. *)
Definition of_default (d : list dseg) : template := (fun y => match y with DLit s => Lit s | DRef m => Ref m end) <$> d.
Lemma print_of_default d : print (of_default d) = default_text d.
Proof. induction d as [|[] d IH]; cbn [of_default fmap list_fmap print default_text]; [done|by f_equal..]. Qed.
Lemma wf_of_default d : Forall wf_dseg d → wf (of_default d).
Proof. induction 1 as [|[s|m] d Hx Hd IH]; constructor; try done. cbn. by apply (forallb_not_elem _ _ _ Hx). Qed.
Section Assign.
Context (pt : ParamTables) (name : cstr) (Hname : name ≠ []).
Abbreviation active := (self_active name None).
Abbreviation ok := (self_ok name None).

Lemma is_self_None n : is_self name None n = strcasecmp_eq n name.
Proof. unfold is_self. cbn. apply orb_false_r. Qed.
Lemma free_still t : wf t → Forall (fun x => mentions name x = false) t → Forall ok t ∧ Forall (fun x => active x = false) t.
Proof.
  intros Hw Hm. split; apply Forall_forall; intros x Hx; (eapply Forall_forall in Hw, Hm; [|done..]).
  - split; [done|]. destruct x as [| |n d| |]; try done. cbn in Hm. apply orb_false_iff in Hm as [_ Hm]. apply Forall_forall. intros [|m] Hy; [done|].
    rewrite is_self_None. destruct (strcasecmp_eq m name) eqn:E; [|done]. exfalso. apply not_true_iff_false in Hm. apply Hm, existsb_exists. exists (DRef m).
    split; [by apply list_elem_of_In|done].
  - destruct x as [|n|n d| |]; try done; cbn in *; rewrite is_self_None; [done|]. by apply orb_false_iff in Hm as [? _].
Qed.
Lemma still_free t : Forall ok t → Forall (fun x => active x = false) t → free_of name (print t).
Proof.
  intros Hok Hs. exists t. split; [done|]. split; [by apply (self_ok_wf name None)|]. apply Forall_forall. intros x Hx.
  eapply Forall_forall in Hok, Hs; [|done..]. destruct Hok as [_ Hd]. destruct x as [|n|n d| |]; try done; cbn in *; rewrite is_self_None in Hs; [done|].
  rewrite Hs. cbn. destruct (existsb _ d) eqn:E; [|done]. apply existsb_exists in E as ([|m] & Hin & E); [done|]. apply list_elem_of_In in Hin.
  eapply Forall_forall in Hd; [|done]. cbn in Hd. by rewrite is_self_None, E in Hd.
Qed.

Context (s : MACRO_SET) (Hs : ms_ok s) (Hfree : self_free s).
Hypothesis Hdef : ∀ n v, lower n = lower name → param_default_string pt n None = Some v → free_of name v.

Lemma free_of_lower n n' v : lower n = lower n' → free_of n v → free_of n' v.
Proof.
  intros E (t & -> & Hw & Hm). exists t. split; [done|]. split; [done|]. eapply Forall_impl; [exact Hm|]. intros x.
  assert (∀ m, strcasecmp_eq m n' = strcasecmp_eq m n) as Heq by (intros m; unfold strcasecmp_eq; by rewrite E).
  destruct x as [|m|m d| |]; try done; cbn; rewrite ?Heq; [done|]. intros [-> Hd]%orb_false_iff. cbn [orb]. etrans; [|exact Hd].
  clear -Heq. induction d as [|y d IH]; [done|]. cbn [existsb]. rewrite IH. by destruct y; rewrite ?Heq.
Qed.
Lemma macros_free n v : lower n = lower name → macros s !! lower n = Some v → free_of name v.
Proof.
  intros E. rewrite macros_lookup by apply Hs. intros (i & Hi & Hv)%bind_Some. apply fmap_Some in Hv as (x & Hx & ->).
  apply position_Some in Hi as (y & Hy & Ey); [|apply Hs]. simplify_eq. apply (free_of_lower (key y)); [congruence|]. apply Hfree. by eapply list_elem_of_lookup_2.
Qed.
Lemma lookup_None n : (lookup_subsys n None s 0).1 = macros s !! lower n.
Proof.
  unfold lookup_subsys, lookup_macro. pose proof (lookup_macro_exact_spec n s 0 Hs) as (E & _ & _).
  destruct (lookup_macro_exact n s 0) as [[v|] s1]; done.
Qed.
(** What replaces a reference of the macro to itself does not refer to it. *)
Lemma self_value_free x : ok x → active x = true →
  ∃ v, Forall ok v ∧ self_text pt s None x = print v ∧ Forall (fun y => active y = false) v.
Proof.
  intros [Hw Hd] Hx. assert (∀ w, free_of name w → ∃ v, Forall ok v ∧ w = print v ∧ Forall (fun y => active y = false) v) as Hsplit.
  { intros w (t & -> & Ht & Hm). destruct (free_still t Ht Hm). eauto. }
  assert (∀ n, lower n = lower name → match match macros s !! lower n with
      | None => if has_defaults s && defaults_are_param_info s then param_default_string pt n None else None | Some v => Some v end with
      Some v => free_of name v | None => True end) as Hval.
  { intros n E. destruct (macros s !! lower n) as [v|] eqn:Ev; [by eapply macros_free|]. destruct (has_defaults s && _); [|done].
    destruct (param_default_string pt n None) as [v|] eqn:Ed; [|done]. by eapply Hdef. }
  unfold self_text, self_value. destruct x as [|n|n d| |]; try done; cbn in Hx; rewrite is_self_None in Hx; apply bool_decide_eq_true in Hx.
  - cbn [name_text]. rewrite split_colon_ref by done. rewrite lookup_None. specialize (Hval n Hx).
    destruct (match macros s !! lower n with Some _ => _ | None => _ end) as [w|]; [by apply Hsplit|]. by exists [].
  - destruct Hw as (Hn & Hwd & _). rewrite split_colon_refd by done. rewrite lookup_None. specialize (Hval n Hx).
    assert (∃ v, Forall ok v ∧ default_text d = print v ∧ Forall (fun y => active y = false) v) as Hdd.
    { exists (of_default d). split; [|split; [by rewrite print_of_default|]].
      - apply Forall_forall. intros x Hin. pose proof (wf_of_default d Hwd) as Hwf. eapply Forall_forall in Hwf; [|done]. split; [done|].
        unfold of_default in Hin. apply list_elem_of_fmap in Hin as ([|] & -> & _); done.
      - apply Forall_forall. intros x Hin. unfold of_default in Hin. apply list_elem_of_fmap in Hin as ([|m] & -> & Hin); [done|].
        cbn in Hd. eapply Forall_forall in Hd; [|done]. done. }
    destruct (match macros s !! lower n with Some _ => _ | None => _ end) as [[|c w]|]; cbn [colon_default]; [done|by apply Hsplit|done].
Qed.
Lemma expand_self_assign t fuel : Forall ok t → (length t < fuel)%nat →
  ∃ o, expand_self_macro pt fuel (print t) s name None = Ok (print o) ∧ Forall ok o ∧ Forall (fun x => active x = false) o ∧
    (∃ k, eval active (self_text pt s None) ok t o k) ∧
    print o = t ≫= fun x => if active x then self_text pt s None x else seg_text x.
Proof.
  intros Hok Hf. destruct (eval_exists active (self_text pt s None) ok t) as (o & k & Hev & Hk & Hp).
  { intros x Hx Hin. apply self_value_free; [by eapply Forall_forall in Hok|done]. }
  exists o. unfold expand_self_macro. destruct name as [|c n] eqn:En; [done|]. rewrite <-En in *. split; [apply (self_loop_eval pt s name None k); [done..|lia]|].
  destruct (eval_result _ _ _ _ _ _ Hev Hok). eauto.
Qed.
Lemma expand_self_free o fuel : (0 < fuel)%nat → Forall ok o → Forall (fun x => active x = false) o →
  expand_self_macro pt fuel (print o) s name None = Ok (print o).
Proof.
  clear Hs Hfree Hdef. intros Hf Hok Hs'. unfold expand_self_macro. destruct name as [|c n] eqn:En; [done|]. rewrite <-En in *.
  apply (self_loop_eval pt s name None 0); [done|by apply eval_still|done].
Qed.
End Assign.

(** ** Insertion *)

Lemma position_None name t : position name t = None ↔ Forall (fun x => lower (key x) ≠ lower name) t.
Proof.
  unfold position. rewrite fmap_None, list_find_None. done.
Qed.
Lemma names_alter t i v : names (alter (fun x => mkItem (key x) v) i t) = names t.
Proof. by apply fmap_alter_same. Qed.
Lemma sorted_alter v l : ∀ i, StronglySorted item_le l → StronglySorted item_le (alter (fun x => mkItem (key x) v) i l).
Proof.
  induction l as [|a l IH]; intros i Hl; [by destruct i|]. apply StronglySorted_inv in Hl as [Hl Ha]. destruct i as [|i]; cbn; constructor; try done; [by apply IH|].
  apply Forall_alter; [done|]. by intros x ? ?.
Qed.
(** Replacing the value of a macro that is there. *)
Lemma replace_ok s i (v : cstr) (f : MACRO_META → MACRO_META) : ms_ok s → (∀ m, index (f m) = index m) →
  ms_ok (s <| table ::= alter (fun x => mkItem (key x) v) i |> <| metat ::= fmap (alter f i) |>).
Proof.
  intros [Hnd Hle Ho Hm Hw Ha] Hf. assert (∀ A (g : A → A) l, length (alter g i l) = length l) as Hlen by (intros; apply length_alter).
  split; unfold set_size; cbn; rewrite ?names_alter, ?Hlen; try done.
  - destruct (decide (i < sorted s)%nat) as [Hi|Hi].
    + rewrite take_alter_lt by done. by apply sorted_alter.
    + by rewrite take_alter_ge by lia.
  - intros m (m0 & E & ->)%fmap_Some. rewrite fmap_alter_same by done. exact (Hm m0 E).
  - intros Hwm E. apply fmap_None in E. destruct (Hw Hwm E) as [-> ->]. done.
  - destruct Ha as [Ha|[-> ->]]; [by left|by right].
Qed.
(** Appending a macro that is not there. *)
Lemma append_ok s x (m : MACRO_META) : ms_ok s → position (key x) (table s) = None → index m = Z.of_nat (set_size s) →
  Z.of_nat (set_size s) + 1 < allocation_size s → (want_meta s = true → metat s ≠ None) →
  ms_ok (s <| table ::= fun t => t ++ [x] |> <| metat ::= fmap (fun l => l ++ [m]) |>).
Proof.
  intros [Hnd Hle Ho Hm Hw Ha] Hp Hidx Hal Hwant. unfold set_size in *. split; unfold set_size; cbn; rewrite ?length_app; cbn.
  - unfold names. rewrite fmap_app. apply NoDup_app. split; [done|]. split; [|by apply NoDup_singleton].
    intros n (y & -> & Hy)%list_elem_of_fmap. apply position_None in Hp. eapply Forall_forall in Hp; [|done]. intros ?%list_elem_of_singleton. by apply Hp.
  - lia.
  - by rewrite take_app_le by lia.
  - intros l (l0 & E & ->)%fmap_Some. rewrite fmap_app, (Hm l0 E), seq_app, fmap_app. cbn. by rewrite Hidx.
  - intros Hwm E%fmap_None. by apply Hwant in Hwm.
  - left. lia.
Qed.
Lemma grow_ok s : ms_ok s → ms_ok (grow s) ∧ table (grow s) = table s ∧ keep_defaults (grow s) = keep_defaults s ∧
  Z.of_nat (set_size s) + 1 < allocation_size (grow s) ∧ (want_meta (grow s) = true → metat (grow s) ≠ None).
Proof.
  intros [Hnd Hle Ho Hm Hw Ha]. unfold grow. rewrite Z.geb_leb. destruct (Z.leb_spec (allocation_size s) (Z.of_nat (set_size s) + 1)) as [Hg|Hg].
  - assert (Z.of_nat (set_size s) + 1 < (if allocation_size s * 2 =? 0 then 32 else allocation_size s * 2)) as Hnew.
    { destruct (Z.eqb_spec (allocation_size s * 2) 0); destruct Ha as [Ha|[E Ha]]; unfold set_size in *; rewrite ?E in *; cbn in *; lia. }
    split_and!; try done; cbn.
    + split; unfold set_size in *; cbn; try done; [|intros Hwm; rewrite Hwm; by destruct (metat s)|left; lia].
      intros m. destruct (metat s) as [m0|] eqn:Em; [by intros [= <-]; apply Hm|]. destruct (want_meta s) eqn:Ewm; [|done]. intros [= <-].
      by destruct (Hw eq_refl eq_refl) as [-> _].
    + intros Hwm. rewrite Hwm. by destruct (metat s).
  - split; [done|]. split_and!; try done. intros Hwm E. destruct (Hw Hwm E) as [_ E0]. unfold set_size in Hg. lia.
Qed.

(** What a look-up gives after a change of the table. *)
Lemma macros_replace s s' i x v n : NoDup (names (table s)) → table s !! i = Some x → table s' = alter (fun x => mkItem (key x) v) i (table s) →
  macros s' !! lower n = if decide (lower n = lower (key x)) then Some v else macros s !! lower n.
Proof.
  intros Hnd Hx Ht. assert (NoDup (names (table s'))) as Hnd' by (by rewrite Ht, names_alter). rewrite !macros_lookup by done. case_decide as E.
  - assert (position n (table s') = Some i) as ->; [|cbn; by rewrite Ht, list_lookup_alter_eq, Hx].
    apply position_Some; [done|]. rewrite Ht, list_lookup_alter_eq, Hx. cbn. eexists. split; [done|]. done.
  - destruct (position n (table s)) as [j|] eqn:Ej.
    + apply position_Some in Ej as (y & Hy & Ey); [|done]. assert (i ≠ j) by (intros <-; simplify_eq; congruence).
      assert (position n (table s') = Some j) as ->; [|cbn; by rewrite Ht, list_lookup_alter_ne].
      apply position_Some; [done|]. rewrite Ht, list_lookup_alter_ne by done. eauto.
    + destruct (position n (table s')) as [j|] eqn:Ej'; [|done]. apply position_Some in Ej' as (y & Hy & Ey); [|done].
      rewrite Ht, list_lookup_alter in Hy. case_decide as Hd; [subst j; rewrite Hx in Hy; cbn in Hy; simplify_eq; cbn in *; congruence|].
      assert (position n (table s) = Some j) by (apply position_Some; eauto). congruence.
Qed.
Lemma macros_append s s' x n : NoDup (names (table s')) → table s' = table s ++ [x] →
  macros s' !! lower n = if decide (lower n = lower (key x)) then Some (raw_value x) else macros s !! lower n.
Proof.
  intros Hnd' Ht. assert (NoDup (names (table s))) as Hnd by (rewrite Ht in Hnd'; unfold names in *; rewrite fmap_app in Hnd'; by apply NoDup_app in Hnd' as (? & _)).
  rewrite !macros_lookup by done. case_decide as E.
  - assert (position n (table s') = Some (length (table s))) as ->; [|cbn; by rewrite Ht, list_lookup_middle].
    apply position_Some; [done|]. exists x. by rewrite Ht, list_lookup_middle.
  - destruct (position n (table s)) as [j|] eqn:Ej.
    + apply position_Some in Ej as (y & Hy & Ey); [|done]. assert (position n (table s') = Some j) as ->.
      { apply position_Some; [done|]. exists y. split; [|done]. rewrite Ht. by apply lookup_app_l_Some. }
      cbn. by rewrite Ht, lookup_app_l by (by eapply lookup_lt_Some).
    + destruct (position n (table s')) as [j|] eqn:Ej'; [|done]. apply position_Some in Ej' as (y & Hy & Ey); [|done]. rewrite Ht in Hy.
      apply lookup_app_Some in Hy as [Hy|[_ Hy]]; [assert (position n (table s) = Some j) by (apply position_Some; eauto); congruence|].
      apply list_lookup_singleton_Some in Hy as [_ <-]. congruence.
Qed.

(** ** Assignments *)

Definition assign (pt : ParamTables) (fuel : nat) (name rhs : cstr) (s : MACRO_SET) (src : MACRO_SOURCE) (subsys : option cstr) : outcome MACRO_SET :=
  value ← expand_self_macro pt fuel rhs s name subsys; insert pt fuel name value s src.
Definition default_of (pt : ParamTables) (name : cstr) : option cstr := param_default_rawval_by_id pt (param_default_get_id pt name).

Lemma self_free_alter s s' i name v x : self_free s → table s !! i = Some x → lower (key x) = lower name → free_of name v →
  table s' = alter (fun x => mkItem (key x) v) i (table s) → self_free s'.
Proof.
  intros Hf Hx E Hv Ht y [j Hy]%list_elem_of_lookup. rewrite Ht, list_lookup_alter in Hy. case_decide as Hd.
  - subst j. rewrite Hx in Hy. cbn in Hy. simplify_eq. cbn. by apply (free_of_lower name).
  - apply Hf. by eapply list_elem_of_lookup_2.
Qed.
Lemma insert_correct pt name s src o fuel : name ≠ [] → ms_ok s → self_free s → (0 < fuel)%nat →
  (∀ v, default_of pt name = Some v → free_of name v) → Forall (self_ok name None) o → Forall (fun x => self_active name None x = false) o →
  ∃ s', insert pt fuel name (print o) s src = Ok s' ∧ ms_ok s' ∧ self_free s' ∧
    ((∃ v, (v = print o ∨ same_param_value (default_of pt name) (Some (print o)) = true ∧ default_of pt name = Some v) ∧
        ∀ n, macros s' !! lower n = if decide (lower n = lower name) then Some v else macros s !! lower n) ∨
     macros s' = macros s ∧ macros s !! lower name = None ∧ keep_defaults s = false ∧ same_param_value (default_of pt name) (Some (print o)) = true).
Proof.
  intros Hname Hs Hfree Hf Hdef Hok Hstill. pose proof (still_free name o Hok Hstill) as Hfo. unfold insert. fold (default_of pt name).
  rewrite find_macro_item_spec by done. destruct (position name (table s)) as [i|] eqn:Ei.
  - apply position_Some in Ei as (x & Hx & Ex); [|apply Hs]. rewrite (expand_self_free pt name Hname s) by done. cbn [mbind outcome_bind]. eexists. split; [done|].
    split; [by apply replace_ok|]. split; [by eapply self_free_alter|]. left. exists (print o). split; [by left|]. intros n.
    rewrite (macros_replace s _ i x (print o)) by (done || apply Hs). by rewrite Ex.
  - destruct (grow_ok s Hs) as (Hg & Ht & Hk & Hal & Hwant). rewrite Hk. set (matches := same_param_value _ _).
    destruct (matches && negb (keep_defaults s)) eqn:Em.
    + apply andb_true_iff in Em as [Em Ek]. apply negb_true_iff in Ek. exists (grow s). split; [done|]. split; [done|]. split; [unfold self_free; by rewrite Ht|].
      right. split; [unfold macros; by rewrite Ht|]. split; [|done]. rewrite macros_lookup by apply Hs. by rewrite Ei.
    + eexists. split; [done|]. set (k := match param_default_name_by_id _ _ with Some _ => _ | None => _ end).
      assert (k = name) as -> by (unfold k; destruct (param_default_name_by_id _ _); [case_bool_decide; congruence|done]).
      set (v := if matches then _ else _). assert (v = print o ∨ matches = true ∧ default_of pt name = Some v) as Hv.
      { unfold v. destruct matches eqn:E; [|by left]. right. split; [done|]. unfold matches, same_param_value in E. by destruct (default_of pt name). }
      set (s' := _ <| metat ::= _ |>). assert (ms_ok s') as Hok'.
      { apply append_ok; [done|by rewrite Ht|unfold set_size; by rewrite Ht|unfold set_size in *; by rewrite Ht|done]. }
      assert (table s' = table s ++ [mkItem name v]) as Ht' by (cbn; by rewrite Ht).
      split; [done|]. split.
      * intros x Hx. rewrite Ht' in Hx. apply elem_of_app in Hx as [Hx|Hx]; [by apply Hfree|]. apply list_elem_of_singleton in Hx as ->. cbn.
        destruct Hv as [->|[_ Hv]]; [done|by apply Hdef].
      * left. exists v. split; [done|]. intros n. rewrite (macros_append s s' (mkItem name v)); [done|apply Hok'|done].
Qed.

(** C26. Assignments without a subsystem.  No macro of the table refers to itself, and the value of every macro is a text of references
    [$(NAME)], [$(NAME:default)], [$ENV(NAME)] and characters other than dollar signs; the same holds for the defaults of the name and for the text that
    is assigned, which also does not mention the name in a default behind a colon; the name is not empty.  Then the assignment
    ends: the references to the macro itself are replaced by its value so far, once each, and the
    table then maps the name, without regard to case, to the text that this gives (or to the default, when that is the same value), and every other name as before,
    unless the text is that of the default and the name was not in the table.  The table keeps its
    invariant, with room for the entry, and again no macro refers to itself. *)
Theorem assign_correct (pt : ParamTables) (name : cstr) (s : MACRO_SET) (src : MACRO_SOURCE) (t : template) (fuel : nat) :
  name ≠ [] → ms_ok s → self_free s → (∀ n v, lower n = lower name → param_default_string pt n None = Some v → free_of name v) →
  (∀ v, default_of pt name = Some v → free_of name v) → Forall (self_ok name None) t → (length t < fuel)%nat →
  ∃ o s', (∃ k, eval (self_active name None) (self_text pt s None) (self_ok name None) t o k) ∧
    assign pt fuel name (print t) s src None = Ok s' ∧ ms_ok s' ∧ self_free s' ∧ free_of name (print o) ∧
    ((∃ v, (v = print o ∨ same_param_value (default_of pt name) (Some (print o)) = true ∧ default_of pt name = Some v) ∧
        ∀ n, macros s' !! lower n = if decide (lower n = lower name) then Some v else macros s !! lower n) ∨
     macros s' = macros s ∧ macros s !! lower name = None ∧ keep_defaults s = false ∧ same_param_value (default_of pt name) (Some (print o)) = true).
Proof.
  intros Hname Hs Hfree Hdef Hdef2 Hok Hf. destruct (expand_self_assign pt name Hname s Hs Hfree Hdef t fuel Hok Hf) as (o & E & Ho1 & Ho2 & Hev & _).
  destruct (insert_correct pt name s src o fuel) as (s' & Ei & H1 & H2 & H3); try done; [lia|].
  exists o, s'. split; [done|]. split; [unfold assign; rewrite E; exact Ei|]. split; [done|]. split; [done|]. split; [by apply still_free|done].
Qed.
Definition no_params : ParamTables := mkParams [] [] [].
Definition path_set : MACRO_SET := mkSet 4 false false true 1 [mkItem (L "PATH") (L "/bin")] None true None.
Lemma path_set_ok : ms_ok path_set ∧ self_free path_set.
Proof.
  split; [split; [apply (bool_decide_unpack _); vm_compute; exact I|cbn; lia|repeat constructor|done|done|left; cbn; lia]|].
  intros x Hx. apply list_elem_of_singleton in Hx as ->. exists [Lit (L "/bin")]. split; [done|]. split; repeat constructor. by apply (bool_decide_unpack _).
Qed.
Lemma assign_correct_witness : ∃ s', assign no_params 5 (L "path") (L "$(Path):/usr") path_set (mkSource false 0 1 (-1) (-2)) None = Ok s' ∧ self_free s' ∧
  (raw_value <$> table s') = [L "/bin:/usr"].
Proof.
  destruct (assign_correct no_params (L "path") path_set (mkSource false 0 1 (-1) (-2)) [Ref (L "Path"); Lit (L ":/usr")] 5) as (o & s' & _ & E & _ & Hf & _).
  - done.
  - exact (proj1 path_set_ok).
  - exact (proj2 path_set_ok).
  - intros n v _. unfold param_default_string, param_default_lookup2, param_default_lookup. cbn. by destruct (strchr _ n).
  - done.
  - repeat constructor. by apply (bool_decide_unpack _).
  - cbn. lia.
  - exists s'. split; [exact E|]. split; [exact Hf|]. change (assign no_params 5 (L "path") (L "$(Path):/usr") path_set (mkSource false 0 1 (-1) (-2)) None = Ok s') in E.
    vm_compute in E. injection E as <-. reflexivity.
Defined.
