(* ===== verification/MacroExamples.v ===== *)
(** * Expansion of macros on concrete tables

    The theorems of [MacroSpec] at tables with and without circular references, the
    numbers that [$RANDOM_INTEGER] gives, and values that are lost or expanded twice. *)

From Stdlib Require Import ZArith Lia Ascii.
From stdpp Require Import base gmap list numbers strings sorting.
From S2P Require Import Prelude MyString DList StringList MacroText MacroSet MacroExpand MacroSpec MacroInsert.
Open Scope Z_scope.

Definition no_env : cstr → option cstr := fun _ => None.
Definition no_rnd : nat → Z := fun _ => 0.
Definition plain_set (t : list (cstr * cstr)) : MACRO_SET :=
  mkSet 32 false false true 0 ((fun p => mkItem p.1 p.2) <$> t) None true None.

(** ** Expansion *)

Definition spool_set : MACRO_SET :=
  plain_set [(L "LOCAL_DIR", L "/var/$(HOST)"); (L "SPOOL", L "$(LOCAL_DIR)/spool"); (L "SCHEDD.SPOOL", L "$(SPOOL)/q")].
Definition spool_text : template := [Ref (L "Local_Dir"); Lit (L ":"); RefD (L "LOG") [DRef (L "SPOOL")]; Lit (L ":"); EnvRef (L "X"); Ref (L "DOLLAR")].
Ltac wf_template := repeat (apply Forall_cons; split); try apply Forall_nil; cbn [wf_seg]; repeat split; repeat constructor; by apply (bool_decide_unpack _).
Ltac replaced v := eapply (eval_replace _ _ _ _ v); [reflexivity|wf_template|vm_compute; reflexivity|..].
Ltac kept := eapply eval_keep; [reflexivity|].
Lemma spool_expands : ∃ o k, eval all_active (seg_value no_params no_env false None (macros spool_set)) wf_seg spool_text o k ∧ k = 7%nat ∧
  dollars_ok o ∧ render o = L "/var/:/var//spool:UNDEFINED$".
Proof.
  unfold spool_text. eexists _, _. split; [|split; [|split]]; [|shelve..]. replaced [Lit (L "/var/"); Ref (L "HOST")]; [kept; replaced (@nil seg); constructor|]. kept.
  replaced [Ref (L "SPOOL")].
  { replaced [Ref (L "LOCAL_DIR"); Lit (L "/spool")]; [|constructor]. replaced [Lit (L "/var/"); Ref (L "HOST")]; [kept; replaced (@nil seg); constructor|].
    kept. constructor. }
  kept. replaced [Lit (L "UNDEFINED")]; [kept; constructor|]. kept. constructor.
  Unshelve. all: vm_compute; auto.
Qed.
Lemma spool_set_ok : ms_ok spool_set.
Proof. split; [apply (bool_decide_unpack _); vm_compute; exact I|cbn; lia|constructor|done|done|left; cbn; lia]. Qed.
Lemma expand_macro_correct_witness :
  ∃ s', expand_macro no_params no_env no_rnd 8 (L "$(Local_Dir):$(LOG:$(SPOOL)):$ENV(X)$(DOLLAR)") spool_set false None 0 0 =
    Ok (mkState s' 0 (L "/var/:/var//spool:UNDEFINED$")) ∧ same_macros spool_set s'.
Proof.
  destruct spool_expands as (o & k & He & -> & Hd & Hr).
  destruct (expand_macro_correct no_params no_env no_rnd false None 0 spool_set spool_text o 7 8 0) as (s' & E & Hs).
  - exact spool_set_ok.
  - wf_template.
  - exact He.
  - exact Hd.
  - lia.
  - exists s'. split; [|exact Hs]. rewrite <-Hr. exact E.
Defined.

(** ** Circular references *)

Definition circle_set : MACRO_SET := plain_set [(L "A", L "$(B)"); (L "B", L "$(A)")].
(** The expansion of either never comes to an end. *)
Lemma circle_running fuel : ∀ t, t = L "$(A)" ∨ t = L "$(B)" → expand_loop no_params no_env no_rnd false None 0 fuel (mkState circle_set 0 t) = Running.
Proof.
  induction fuel as [|fuel IH]; intros t Ht; [done|]. cbn [expand_loop].
  assert (env_step no_env (mkState circle_set 0 t) = (true, mkState circle_set 0 t)) as -> by (destruct Ht as [-> | ->]; reflexivity).
  assert (choice_step no_rnd (mkState circle_set 0 t) = Ok (true, mkState circle_set 0 t)) as -> by (destruct Ht as [-> | ->]; reflexivity). cbn [mbind outcome_bind].
  assert (integer_step no_rnd (mkState circle_set 0 t) = Ok (true, mkState circle_set 0 t)) as -> by (destruct Ht as [-> | ->]; reflexivity). cbn [mbind outcome_bind].
  assert (∃ t', (t' = L "$(A)" ∨ t' = L "$(B)") ∧ macro_step no_params false None 0 (mkState circle_set 0 t) = (false, mkState circle_set 0 t')) as (t' & Ht' & ->).
  { destruct Ht as [-> | ->]; [exists (L "$(B)")|exists (L "$(A)")]; (split; [auto|reflexivity]). }
  cbn [andb]. by apply IH.
Qed.
Lemma circle_set_ok : ms_ok circle_set.
Proof. split; [apply (bool_decide_unpack _); vm_compute; exact I|cbn; lia|constructor|done|done|left; cbn; lia]. Qed.
(** What references to a table give is a value of it, a default, or nothing. *)
Lemma circle_values x : wf_seg x → all_active x = true → ∃ v, wf v ∧ seg_value no_params no_env false None (macros circle_set) x = print v.
Proof.
  intros Hx Ha. assert (∀ n, name_value no_params false None (macros circle_set) n ∈ [None; Some (L "$(B)"); Some (L "$(A)")]) as Hl.
  { intros n. unfold name_value. cbn [mbind option_bind].
    destruct (macros circle_set !! lower n) as [v|] eqn:E; [|by left]. right. unfold macros in E. apply elem_of_list_to_map_2 in E. cbn in E.
    repeat (apply elem_of_cons in E as [E|E]; [injection E as _ ->; set_solver|]). by apply elem_of_nil in E. }
  assert (∀ v, v ∈ [Some (L "$(B)"); Some (L "$(A)")] → ∃ c l t, v = Some (c :: l) ∧ wf t ∧ c :: l = print t) as Ht.
  { intros v [->|Hv]%elem_of_cons; [|apply list_elem_of_singleton in Hv as ->].
    - eexists _, _, [Ref (L "B")]. split; [reflexivity|]. by repeat constructor.
    - eexists _, _, [Ref (L "A")]. split; [reflexivity|]. by repeat constructor. }
  destruct x as [|n|n d|n|]; try done; cbn [seg_value].
  - specialize (Hl n). apply elem_of_cons in Hl as [->|Hl]; [by exists []|]. destruct (Ht _ Hl) as (c & l & t & -> & Hw & E). by exists t.
  - destruct Hx as (Hn & Hd & _). specialize (Hl n).
    apply elem_of_cons in Hl as [->|Hl]; [exists (of_default d); split; [by apply wf_of_default|by rewrite print_of_default]|].
    destruct (Ht _ Hl) as (c & l & t & -> & Hw & E). by exists t.
  - exists [Lit (L "UNDEFINED")]. split; [wf_template|done].
Qed.
Lemma expand_loop_terminates_witness : ¬ (∃ o k, eval all_active (seg_value no_params no_env false None (macros circle_set)) wf_seg [Ref (L "A")] o k).
Proof.
  intros H. destruct (expand_loop_terminates no_params no_env no_rnd false None 0 circle_set [Ref (L "A")] 0) as [_ Ht].
  - exact circle_values.
  - exact circle_set_ok.
  - wf_template.
  - apply Ht in H as (fuel & e & E). change (print [Ref (L "A")]) with (L "$(A)") in E. rewrite circle_running in E by (by left). discriminate E.
Defined.

(** ** Random integers *)

(** The third argument, 1 when there is none. *)
Definition step_of (args : list cstr) : option Z :=
  match string_to_long (args !! 2%nat) with Long z => Some z | NoText => Some 1 | NoNumber => None end.
(** [$RANDOM_INTEGER(min,max,step)].  As long as the bounds do not overflow, the result is a number from min to max that is some
    steps away from min, and every such number is the result for some random number. *)
Theorem random_integer_range (args : list cstr) (lo hi step : Z) :
  string_to_long (args !! 0%nat) = Long lo → string_to_long (args !! 1%nat) = Long hi → step_of args = Some step →
  1 ≤ step → - 2 ^ 63 ≤ lo ≤ hi → step + hi < 2 ^ 63 → step + hi - lo < 2 ^ 63 →
  (∀ r, 0 ≤ r → ∃ z, random_integer args r = Some z ∧ lo ≤ z ≤ hi ∧ (z - lo) mod step = 0) ∧
  (∀ z, lo ≤ z ≤ hi → (z - lo) mod step = 0 → ∃ r, 0 ≤ r ∧ random_integer args r = Some z).
Proof.
  intros H0 H1 H2 Hstep Hlo Ho1 Ho2.
  assert (∀ r, 0 ≤ r → let num := (step + hi - lo) / step in 1 ≤ num ∧ num * step ≤ step + hi - lo ∧
    random_integer args r = Some (lo + r mod num * step) ∧ 0 ≤ r mod num < num) as Hri.
  { intros r Hr num. assert (1 ≤ num) as Hnum by (apply Z.div_le_lower_bound; lia). pose proof (Z.mul_div_le (step + hi - lo) step ltac:(lia)) as Hle.
    pose proof (Z.mod_pos_bound r num ltac:(lia)) as Hm. split; [done|]. split; [unfold num; lia|]. split; [|done]. unfold random_integer, step_of in *.
    rewrite H0, H1. assert (0 ≤ r mod num * step ≤ (num - 1) * step) as Hb by nia. assert ((num - 1) * step ≤ hi - lo) by (unfold num in *; lia).
    assert ((if step <? 1 then None else if lo >? hi then None else
      let range := int64 (int64 (step + hi) - lo) in let num := range `quot` step in
      if num =? 0 then None else Some (int64 (lo + int64 ((r `rem` num) * step)))) = Some (lo + r mod num * step)) as E.
    { rewrite (proj2 (Z.ltb_ge _ _)) by lia. rewrite Z.gtb_ltb, (proj2 (Z.ltb_ge _ _)) by lia. cbv zeta.
      rewrite (int64_id (step + hi)), (int64_id (step + hi - lo)) by (split; lia). rewrite Z.quot_div_nonneg by lia. fold num.
      rewrite (proj2 (Z.eqb_neq _ _)) by lia. rewrite Z.rem_mod_nonneg by lia. by rewrite !int64_id by (split; rewrite ?int64_id by (split; lia); lia). }
    destruct (string_to_long (args !! 2%nat)); simplify_eq; exact E. }
  split.
  - intros r Hr. destruct (Hri r Hr) as (Hn & Hle & -> & Hm). eexists. split; [done|]. split; [nia|]. rewrite Z.add_simpl_l. apply Z.mod_mul. lia.
  - intros z Hz Hmod. pose proof (Z.div_mod (z - lo) step ltac:(lia)) as Hdiv. assert (0 ≤ (z - lo) / step) as Hq by (apply Z.div_pos; lia).
    exists ((z - lo) / step). split; [done|]. destruct (Hri _ Hq) as (Hn & Hle & -> & Hm). f_equal. rewrite Z.mod_small; [lia|]. split; [done|].
    apply Z.div_lt_upper_bound; [lia|]. pose proof (Z.mod_pos_bound (step + hi - lo) step ltac:(lia)). pose proof (Z.div_mod (step + hi - lo) step ltac:(lia)). nia.
Qed.
Definition dice : list cstr := [L "1"; L " 6"; L "2"].
Lemma random_integer_range_witness : ∃ z, random_integer dice 5 = Some z ∧ 1 ≤ z ≤ 6 ∧ (z - 1) mod 2 = 0.
Proof. refine (proj1 (random_integer_range dice 1 6 2 _ _ _ _ _ _ _) 5 _); try reflexivity; lia. Defined.
(** The range of all numbers wraps to zero: the process divides by zero. *)
Lemma random_integer_overflow r : random_integer [L "-9223372036854775808"; L "9223372036854775807"] r = None.
Proof. reflexivity. Qed.

(** ** Values that are lost or expanded twice *)

Definition foo_table : ParamTables := mkParams [mkDef (L "FOO") (Some (L "1")) false] [] [].
(** [MASTER.FOO] is set to the default of [FOO]: it is dropped, and the master gets the value of [FOO]. *)
Definition expanded (o : outcome state) : option cstr := match o with Ok e => Some (tmp e) | _ => None end.
Lemma override_dropped :
  expanded (s ← insert foo_table 5 (L "MASTER.FOO") (L "1") (plain_set [(L "FOO", L "5")]) (mkSource false 0 1 (-1) (-2));
            expand_macro foo_table no_env no_rnd 5 (L "$(FOO)") s true (Some (L "MASTER")) 0 0) = Some (L "5").
Proof. vm_compute. reflexivity. Qed.
(** The dollar sign that [$(DOLLAR)] stands for is read again. *)
Lemma dollar_rescanned : expanded (expand_macro no_params no_env no_rnd 5 (L "$(DOLLAR)(DOLLAR)") (plain_set []) false None 0 0) = Some (L "$").
Proof. vm_compute. reflexivity. Qed.
