(* ===== verification/ConfigIf.v ===== *)
(** * Conditional blocks of the configuration

    The class [ConfigIfStack] of [condor_utils/config.cpp], which keeps the nested
    [if]s of a configuration in the bits of 64-bit words, and the function [line_is_if].
    The bits implement a stack of at most 63 levels, and a text with nested blocks is read
    as its structure says. *)

From Stdlib Require Import ZArith Lia Ascii.
From stdpp Require Import base gmap list numbers strings.
From S2P Require Import Prelude MyString DList StringList MacroText MacroSet MacroExpand.
Open Scope Z_scope.

(** ** The stack *)

Definition uint64 (z : Z) : Z := z `mod` 2 ^ 64.
Record ConfigIfStack := mkStack { state : Z; estate : Z; istate : Z; top : Z }.
#[export] Instance ConfigIfStack_updatable : Updatable ConfigIfStack := fun k => mkStack (state k) (estate k) (istate k) (top k).
Definition ConfigIfStack_new : ConfigIfStack := mkStack 1 0 0 1.
Definition enabled (k : ConfigIfStack) : bool := let mask := Z.lor (top k) (uint64 (top k - 1)) in Z.land (state k) mask =? mask.
Definition inside_if (k : ConfigIfStack) : bool := 1 <? top k.
Definition inside_else (k : ConfigIfStack) : bool := (1 <? top k) && (Z.land (istate k) (top k) =? 0).
Definition begin_if (k : ConfigIfStack) (bb : bool) : bool * ConfigIfStack :=
  let t := uint64 (Z.shiftl (top k) 1) in
  let k := k <| top := t |> <| istate ::= fun i => Z.lor i t |> in
  let k := if bb then k <| state ::= fun s => Z.lor s t |> <| estate ::= fun s => Z.lor s t |>
           else k <| state ::= fun s => Z.ldiff s t |> <| estate ::= fun s => Z.ldiff s t |> in
  (negb (t =? 0), k).
Definition begin_else (k : ConfigIfStack) : bool * ConfigIfStack :=
  let t := top k in
  if Z.land (istate k) t =? 0 then (false, k)
  else
    let k := k <| istate ::= fun i => Z.ldiff i t |> in
    let k := if Z.land (Z.lor (estate k) (state k)) t =? 0 then k <| state ::= fun s => Z.lor s t |>
             else k <| state ::= fun s => Z.ldiff s t |> in
    (1 <? t, k).
Definition begin_elif (k : ConfigIfStack) (bb : bool) : bool * ConfigIfStack :=
  let t := top k in
  if Z.land (istate k) t =? 0 then (false, k)
  else
    let k := if negb (Z.land (estate k) t =? 0) then k <| state ::= fun s => Z.ldiff s t |>
             else if bb then k <| estate ::= fun s => Z.lor s t |> <| state ::= fun s => Z.lor s t |>
             else k <| state ::= fun s => Z.ldiff s t |> in
    (1 <? t, k).
Definition end_if (k : ConfigIfStack) : bool * ConfigIfStack :=
  let k := k <| istate ::= fun i => Z.ldiff i (top k) |> in
  let k := k <| top ::= fun t => Z.shiftr t 1 |> in
  if top k =? 0 then (false, mkStack 1 0 0 1) else (true, k).

(** ** Lines *)

(** The keyword, without regard to case, followed by white space or nothing; and the rest. *)
Definition starts_with_ignore_case (str pre : cstr) : bool := match pre with [] => false | _ => has_prefix (fmap tolower pre) (fmap tolower str) end.
Definition keyword (line kw : cstr) : option cstr :=
  let rest := drop (length kw) line in
  if starts_with_ignore_case line kw && match rest with [] => true | c :: _ => isspace c end then Some (skip_while isspace rest) else None.

(** A condition is valid or not; its test may change the counters of the macros, and the
    expansion of its macros may not end. *)
Inductive cond := Valid (b : bool) | Invalid (reason : cstr).
Section Lines.
Context {S : Type} (test : S → cstr → outcome (cond * S)).

Definition because (text : cstr) (reason : cstr) : cstr := match reason with [] => text | _ => text ++ L " because " ++ reason end.
(** [None] when the line is not one of these; otherwise the error message, which is empty
    if there is none. *)
Definition line_is_if (k : ConfigIfStack) (s : S) (line : cstr) : outcome (option cstr * ConfigIfStack * S) :=
  match keyword line (L "if") with
  | Some expr =>
      let bb := enabled k in
      '(c, s) ← (if bb then test s expr else Ok (Valid false, s));
      match c with
      | Invalid why => Ok (Some (because (expr ++ L " is not a valid if condition") why), k, s)
      | Valid bb => let '(ok, k) := begin_if k bb in Ok (Some (if ok : bool then [] else L "if nesting too deep!"), k, s)
      end
  | None =>
  match keyword line (L "else") with
  | Some _ =>
      let '(ok, k') := begin_else k in
      Ok (Some (if ok : bool then [] else if inside_else k' then L "else is not allowed after else" else L "else without matching if"), k', s)
  | None =>
  match keyword line (L "elif") with
  | Some expr =>
      let bb := (Z.land (estate k) (top k) =? 0) && (Z.land (state k) (uint64 (top k - 1)) =? uint64 (top k - 1)) in
      '(c, s) ← (if bb then test s expr else Ok (Valid false, s));
      match c with
      | Invalid why => Ok (Some (because (expr ++ L " is not a valid elif condition") why), k, s)
      | Valid bb =>
          let '(ok, k') := begin_elif k bb in
          Ok (Some (if ok : bool then [] else if inside_else k' then L "elif is not allowed after else" else L "elif without matching if"), k', s)
      end
  | None =>
  match keyword line (L "endif") with
  | Some _ => let '(ok, k) := end_if k in Ok (Some (if ok : bool then [] else L "endif without matching if"), k, s)
  | None => Ok (None, k, s)
  end end end end.
End Lines.

(** ** The stack of levels *)

(** Whether the current branch is taken, whether some branch was, and whether [else] may
    still come. *)
Record level := mkLevel { on : bool; taken : bool; open : bool }.
Definition levels := list level.
Definition l_enabled (f : levels) : bool := forallb on f.
Definition l_begin_if (f : levels) (bb : bool) : levels := mkLevel bb bb true :: f.
Definition l_begin_else (f : levels) : option levels :=
  match f with
  | l :: f => if open l then Some (mkLevel (negb (taken l || on l)) (taken l) false :: f) else None
  | [] => None
  end.
Definition l_begin_elif (f : levels) (bb : bool) : option levels :=
  match f with
  | l :: f => if open l then Some ((if taken l then mkLevel false true true else mkLevel bb bb true) :: f) else None
  | [] => None
  end.
Definition l_end_if (f : levels) : option levels := match f with _ :: f => Some f | [] => None end.

(** Bit [i] of the words is level [i] from the outside; bit 0 is outside of all. *)
Definition bits_of (z : Z) (p : level → bool) (f : levels) : Prop :=
  ∀ i l, reverse f !! i = Some l → Z.testbit z (Z.of_nat i + 1) = p l.
Record rep (k : ConfigIfStack) (f : levels) : Prop := {
  r_depth : (length f ≤ 63)%nat;
  r_top : top k = 2 ^ Z.of_nat (length f);
  r_zero : Z.testbit (state k) 0 = true ∧ Z.testbit (istate k) 0 = false;
  r_state : bits_of (state k) on f;
  r_estate : bits_of (estate k) taken f;
  r_istate : bits_of (istate k) open f
}.

(** *** Bits *)

Lemma land_bit z n : 0 ≤ n → (Z.land z (2 ^ n) =? 0) = negb (Z.testbit z n).
Proof.
  intros Hn. destruct (Z.testbit z n) eqn:E; cbn.
  - apply Z.eqb_neq. intros H. apply (f_equal (fun x => Z.testbit x n)) in H. rewrite Z.land_spec, E, Z.pow2_bits_true, Z.bits_0 in H by done. done.
  - apply Z.eqb_eq. apply Z.bits_inj'. intros m Hm. rewrite Z.land_spec, Z.pow2_bits_eqb, Z.bits_0 by done.
    destruct (Z.eqb_spec n m) as [->|]; [by rewrite E|by rewrite andb_false_r].
Qed.
Lemma lor_bit z n m : 0 ≤ n → Z.testbit (Z.lor z (2 ^ n)) m = Z.testbit z m || (n =? m).
Proof. intros Hn. by rewrite Z.lor_spec, Z.pow2_bits_eqb. Qed.
Lemma ldiff_bit z n m : 0 ≤ n → Z.testbit (Z.ldiff z (2 ^ n)) m = Z.testbit z m && negb (n =? m).
Proof. intros Hn. by rewrite Z.ldiff_spec, Z.pow2_bits_eqb. Qed.
Lemma land_ones_eqb z n : 0 ≤ n → (Z.land z (Z.ones n) =? Z.ones n) = true ↔ ∀ j, 0 ≤ j < n → Z.testbit z j = true.
Proof.
  intros Hn. rewrite Z.eqb_eq. split.
  - intros H j Hj. apply (f_equal (fun x => Z.testbit x j)) in H. rewrite Z.land_spec, Z.ones_spec_low in H by lia. by rewrite andb_true_r in H.
  - intros H. apply Z.bits_inj'. intros m Hm. rewrite Z.land_spec. destruct (Z.lt_ge_cases m n).
    + by rewrite H, Z.ones_spec_low by lia.
    + by rewrite Z.ones_spec_high, andb_false_r by lia.
Qed.
Lemma bits_cons z p l f : bits_of z p (l :: f) ↔ bits_of z p f ∧ Z.testbit z (Z.of_nat (length f) + 1) = p l.
Proof.
  unfold bits_of. rewrite reverse_cons. split.
  - intros H. split; [intros i x Hi; apply H; by apply lookup_app_l_Some|]. rewrite <-(length_reverse f). apply H. by apply list_lookup_middle.
  - intros [H1 H2] i x Hi. apply lookup_app_Some in Hi as [Hi|[Hlen Hi]]; [by apply H1|]. apply list_lookup_singleton_Some in Hi as [Hi <-].
    rewrite length_reverse in *. by replace i with (length f) by lia.
Qed.
Lemma bits_ext z z' p f : bits_of z p f → (∀ j, 1 ≤ j ≤ Z.of_nat (length f) → Z.testbit z' j = Z.testbit z j) → bits_of z' p f.
Proof. intros H Hz i l Hi. rewrite Hz; [by apply H|]. apply lookup_lt_Some in Hi. rewrite length_reverse in Hi. lia. Qed.
Ltac bit_done := repeat match goal with |- context [Z.eqb ?a ?b] => destruct (Z.eqb_spec a b); try lia end;
  rewrite ?orb_false_r, ?orb_true_r, ?andb_true_r, ?andb_false_r; try done.
Ltac bits := intros; unfold field_update; cbn [state istate estate top on taken open]; rewrite ?lor_bit, ?ldiff_bit by lia; bit_done.

Lemma top_small n : (n ≤ 63)%nat → uint64 (2 ^ Z.of_nat n - 1) = Z.ones (Z.of_nat n).
Proof.
  intros Hn. rewrite Z.ones_equiv, <-Z.sub_1_r. unfold uint64. apply Z.mod_small.
  pose proof (Z.pow_le_mono_r 2 (Z.of_nat n) 63 ltac:(lia) ltac:(lia)). pose proof (Z.pow_pos_nonneg 2 (Z.of_nat n) ltac:(lia) ltac:(lia)). lia.
Qed.
Lemma rep_low k f n : rep k f → (n ≤ length f)%nat →
  (∀ j, 0 ≤ j < Z.of_nat n + 1 → Z.testbit (state k) j = true) ↔ forallb on (drop (length f - n) f) = true.
Proof.
  intros Hr Hn. rewrite forallb_Forall, Forall_lookup. split.
  - intros H i x Hi. rewrite lookup_drop in Hi. pose proof (lookup_lt_Some _ _ _ Hi) as Hlt.
    rewrite <-(r_state _ _ Hr (length f - S (length f - n + i))%nat x); [apply H; lia|]. rewrite reverse_lookup by lia. rewrite <-Hi. f_equal. lia.
  - intros H j Hj. destruct (Z.eq_dec j 0) as [->|]; [apply Hr|].
    destruct (lookup_lt_is_Some_2 (reverse f) (Z.to_nat (j - 1))) as [x Hx]; [rewrite length_reverse; lia|].
    replace j with (Z.of_nat (Z.to_nat (j - 1)) + 1) by lia. rewrite (r_state _ _ Hr _ x) by done. rewrite reverse_lookup in Hx by lia.
    apply (H (n - S (Z.to_nat (j - 1)))%nat). rewrite lookup_drop. rewrite <-Hx. f_equal. lia.
Qed.
Lemma enabled_rep k f : rep k f → enabled k = l_enabled f.
Proof.
  intros Hr. pose proof (r_depth _ _ Hr). unfold enabled, l_enabled. rewrite (r_top _ _ Hr), top_small by done.
  assert (Z.lor (2 ^ Z.of_nat (length f)) (Z.ones (Z.of_nat (length f))) = Z.ones (Z.of_nat (length f) + 1)) as ->.
  { apply Z.bits_inj'. intros m Hm. rewrite Z.lor_spec, Z.pow2_bits_eqb, !Z.testbit_ones_nonneg by lia.
    destruct (Z.eqb_spec (Z.of_nat (length f)) m); destruct (Z.ltb_spec m (Z.of_nat (length f))), (Z.ltb_spec m (Z.of_nat (length f) + 1)); try done; lia. }
  apply eq_iff_eq_true. rewrite land_ones_eqb by lia. rewrite (rep_low k f (length f)) by done. by rewrite Nat.sub_diag, drop_0.
Qed.
Lemma outer_rep k l f : rep k (l :: f) → (Z.land (state k) (uint64 (top k - 1)) =? uint64 (top k - 1)) = l_enabled f.
Proof.
  intros Hr. pose proof (r_depth _ _ Hr). rewrite (r_top _ _ Hr), top_small by done. apply eq_iff_eq_true. rewrite land_ones_eqb by lia.
  replace (Z.of_nat (length (l :: f))) with (Z.of_nat (length f) + 1) by (cbn; lia). rewrite (rep_low k (l :: f) (length f)) by (done || (cbn; lia)).
  unfold l_enabled. replace (length (l :: f) - length f)%nat with 1%nat by (cbn; lia). done.
Qed.

(** *** The operations *)

Lemma rep_new : rep ConfigIfStack_new [].
Proof. split; try done; cbn; lia. Qed.
Lemma begin_if_rep k f bb : rep k f → match begin_if k bb with
  | (true, k') => rep k' (l_begin_if f bb)
  | (false, _) => length f = 63%nat
  end.
Proof.
  intros [Hd Ht [Hz Hz'] Hs He Hi]. unfold begin_if. rewrite Ht. rewrite Z.shiftl_mul_pow2 by lia.
  assert (uint64 (2 ^ Z.of_nat (length f) * 2 ^ 1) = if (length f =? 63)%nat then 0 else 2 ^ (Z.of_nat (length f) + 1)) as ->.
  { rewrite <-Z.pow_add_r by lia. unfold uint64. destruct (Nat.eqb_spec (length f) 63) as [->|]; [done|]. apply Z.mod_small.
    split; [apply Z.pow_nonneg; lia|]. apply Z.pow_lt_mono_r; lia. }
  destruct (Nat.eqb_spec (length f) 63) as [|Hne]; [done|]. set (n := Z.of_nat (length f) + 1).
  assert (0 < 2 ^ n) by (apply Z.pow_pos_nonneg; lia). rewrite (proj2 (Z.eqb_neq _ _)) by lia. cbn [negb].
  assert (∀ z p b, bits_of z p f → p (mkLevel bb bb true) = b → bits_of (if b : bool then Z.lor z (2 ^ n) else Z.ldiff z (2 ^ n)) p (l_begin_if f bb)) as Hset.
  { intros z p b Hz0 Hp. apply bits_cons. split; [eapply bits_ext; [done|]; destruct b; bits|]. fold n. rewrite Hp. destruct b; bits. }
  assert (top (k <| top := 2 ^ n |>) = 2 ^ Z.of_nat (length (l_begin_if f bb))) as Htop by (cbn [l_begin_if length]; rewrite Nat2Z.inj_succ; done).
  destruct bb; (split; [cbn; lia|exact Htop|unfold field_update; cbn [state istate estate top]; split; bits|..]); cbn -[l_begin_if].
  - by apply (Hset _ on true).
  - by apply (Hset _ taken true).
  - by apply (Hset _ open true).
  - by apply (Hset _ on false).
  - by apply (Hset _ taken false).
  - by apply (Hset _ open true).
Qed.
(** Changing the innermost level. *)
Lemma rep_change k l l' f s e i : rep k (l :: f) → let n := Z.of_nat (length f) + 1 in
  (∀ j, 0 ≤ j < n → Z.testbit s j = Z.testbit (state k) j) → Z.testbit s n = on l' →
  (∀ j, 0 ≤ j < n → Z.testbit e j = Z.testbit (estate k) j) → Z.testbit e n = taken l' →
  (∀ j, 0 ≤ j < n → Z.testbit i j = Z.testbit (istate k) j) → Z.testbit i n = open l' →
  rep (mkStack s e i (top k)) (l' :: f).
Proof.
  intros [Hd Ht [Hz Hz'] Hs He Hi] n Hs1 Hs2 He1 He2 Hi1 Hi2. apply bits_cons in Hs as [Hs _]. apply bits_cons in He as [He _]. apply bits_cons in Hi as [Hi _].
  split; [done|done|cbn [state istate]; rewrite Hs1, Hi1 by lia; done|..]; apply bits_cons; (split; [|done]); eapply bits_ext; try done; intros; auto with lia.
  all: cbn; first [apply Hs1|apply He1|apply Hi1]; unfold n; lia.
Qed.
Lemma rep_top_bits k l f : rep k (l :: f) → let n := Z.of_nat (length f) + 1 in
  top k = 2 ^ n ∧ (Z.land (istate k) (top k) =? 0) = negb (open l) ∧ (Z.land (estate k) (top k) =? 0) = negb (taken l) ∧
  (Z.land (Z.lor (estate k) (state k)) (top k) =? 0) = negb (taken l || on l) ∧ (1 <? top k) = true.
Proof.
  intros [Hd Ht _ Hs He Hi] n. apply bits_cons in Hs as [_ Hs]. apply bits_cons in He as [_ He]. apply bits_cons in Hi as [_ Hi]. cbn [length] in Ht.
  replace (Z.of_nat (S (length f))) with n in Ht by (unfold n; lia). rewrite Ht, !land_bit by lia. fold n in Hs, He, Hi. rewrite Z.lor_spec, Hs, He, Hi.
  split_and!; try done. apply Z.ltb_lt. apply (Z.pow_gt_1 2); lia.
Qed.
Lemma rep_bottom k : rep k [] → top k = 1 ∧ (Z.land (istate k) (top k) =? 0) = true.
Proof. intros [_ Ht [_ Hz] _ _ _]. cbn in Ht. split; [done|]. rewrite Ht. pose proof (land_bit (istate k) 0 ltac:(lia)) as E. rewrite Hz in E. exact E. Qed.
Lemma begin_else_rep k f : rep k f → match l_begin_else f with
  | Some f' => ∃ k', begin_else k = (true, k') ∧ rep k' f'
  | None => begin_else k = (false, k)
  end.
Proof.
  intros Hr. destruct f as [|l f]; cbn [l_begin_else].
  { destruct (rep_bottom k Hr) as [_ E]. unfold begin_else. by rewrite E. }
  destruct (rep_top_bits k l f Hr) as (Ht & Ei & Ee & Eo & E1). unfold begin_else. rewrite Ei. pose proof Hr as [_ _ _ Hs He Hi].
  apply bits_cons in Hs as [_ Hs]. apply bits_cons in He as [_ He]. apply bits_cons in Hi as [_ Hi]. destruct (open l); cbn [negb]; [|done].
  cbn [state estate istate top field_update]. unfold field_update at 1. cbn. rewrite Eo, E1. eexists. split; [done|].
  destruct (taken l || on l) eqn:Eto; cbn [negb].
  - apply (rep_change k l (mkLevel false (taken l) false) f); try done; rewrite Ht; bits.
  - apply (rep_change k l (mkLevel true (taken l) false) f); try done; rewrite Ht; bits.
Qed.
Lemma begin_elif_rep k f bb : rep k f → match l_begin_elif f bb with
  | Some f' => ∃ k', begin_elif k bb = (true, k') ∧ rep k' f'
  | None => begin_elif k bb = (false, k)
  end.
Proof.
  intros Hr. destruct f as [|l f]; cbn [l_begin_elif].
  { destruct (rep_bottom k Hr) as [_ E]. unfold begin_elif. by rewrite E. }
  destruct (rep_top_bits k l f Hr) as (Ht & Ei & Ee & Eo & E1). unfold begin_elif. rewrite Ei. pose proof Hr as [_ _ _ Hs He Hi].
  apply bits_cons in Hs as [_ Hs]. apply bits_cons in He as [_ He]. apply bits_cons in Hi as [_ Hi]. destruct (open l) eqn:Eop; cbn [negb]; [|done].
  rewrite Ee, E1. eexists. split; [done|]. destruct (taken l) eqn:Et; cbn [negb].
  - apply (rep_change k l (mkLevel false true true) f); try done; rewrite ?Ht; bits.
  - destruct bb.
    + apply (rep_change k l (mkLevel true true true) f); try done; rewrite ?Ht; bits.
    + apply (rep_change k l (mkLevel false false true) f); try done; rewrite ?Ht; bits.
Qed.
Lemma end_if_rep k f : rep k f → match l_end_if f with
  | Some f' => ∃ k', end_if k = (true, k') ∧ rep k' f'
  | None => end_if k = (false, ConfigIfStack_new)
  end.
Proof.
  intros Hr. destruct f as [|l f]; cbn [l_end_if]; unfold end_if; cbn.
  { destruct (rep_bottom k Hr) as [-> _]. done. }
  destruct (rep_top_bits k l f Hr) as (Ht & _). pose proof Hr as [Hd _ [Hz Hz'] Hs He Hi].
  apply bits_cons in Hs as [Hs _]. apply bits_cons in He as [He _]. apply bits_cons in Hi as [Hi _].
  assert (Z.shiftr (top k) 1 = 2 ^ Z.of_nat (length f)) as Hsh.
  { rewrite Ht, Z.shiftr_div_pow2, Z.pow_add_r by lia. by rewrite Z.div_mul. }
  rewrite Hsh.
  assert (0 < 2 ^ Z.of_nat (length f)) by (apply Z.pow_pos_nonneg; lia). rewrite (proj2 (Z.eqb_neq _ _)) by lia. eexists. split; [done|].
  split; unfold field_update; cbn [state istate estate top]; [cbn in Hd; lia|done|rewrite Ht; split; [done|bits]|done|done|].
  rewrite Ht. eapply bits_ext; [done|]. bits.
Qed.

(** ** Blocks

    The structure of a text with conditions: lines, and blocks with branches that are
    tried in order. *)
Inductive item := Line (x : cstr) | Block (c : cstr) (body : list item) (rest : branches)
with branches := End | Elif (c : cstr) (body : list item) (rest : branches) | Else (body : list item).

Section Induction.
Context (P : item → Prop) (Q : branches → Prop).
Hypothesis Hline : ∀ x, P (Line x).
Hypothesis Hblock : ∀ c body rest, Forall P body → Q rest → P (Block c body rest).
Hypothesis Hend : Q End.
Hypothesis Helif : ∀ c body rest, Forall P body → Q rest → Q (Elif c body rest).
Hypothesis Helse : ∀ body, Forall P body → Q (Else body).
Fixpoint item_rec' (i : item) : P i :=
  let all := fix all (l : list item) : Forall P l :=
    match l with [] => Forall_nil_2 P | x :: l => Forall_cons_2 P x l (item_rec' x) (all l) end in
  match i with Line x => Hline x | Block c body rest => Hblock c body rest (all body) (branches_rec' rest) end
with branches_rec' (r : branches) : Q r :=
  let all := fix all (l : list item) : Forall P l :=
    match l with [] => Forall_nil_2 P | x :: l => Forall_cons_2 P x l (item_rec' x) (all l) end in
  match r with
  | End => Hend
  | Elif c body rest => Helif c body rest (all body) (branches_rec' rest)
  | Else body => Helse body (all body)
  end.
End Induction.

(** The lines as they are written, and how deep they are nested. *)
Fixpoint item_lines (i : item) : list cstr :=
  match i with
  | Line x => [x]
  | Block c body rest => (L "if " ++ c) :: (body ≫= item_lines) ++ branches_lines rest
  end
with branches_lines (r : branches) : list cstr :=
  match r with
  | End => [L "endif"]
  | Elif c body rest => (L "elif " ++ c) :: (body ≫= item_lines) ++ branches_lines rest
  | Else body => L "else" :: (body ≫= item_lines) ++ [L "endif"]
  end.
Definition deepest (f : item → nat) (l : list item) : nat := foldr (fun i n => f i `max` n)%nat 0%nat l.
Fixpoint item_depth (i : item) : nat :=
  match i with Line _ => 0 | Block _ body rest => S (deepest item_depth body `max` branches_depth rest) end
with branches_depth (r : branches) : nat :=
  match r with End => 0 | Elif _ body rest => deepest item_depth body `max` branches_depth rest | Else body => deepest item_depth body end%nat.
(** Other lines are not taken for keywords, and conditions do not start with a space. *)
Definition other_line (x : cstr) : Prop := Forall (fun kw => keyword x kw = None) [L "if"; L "else"; L "elif"; L "endif"].
Definition cond_ok (c : cstr) : Prop := match c with [] => True | d :: _ => isspace d = false end.
Fixpoint item_ok (i : item) : Prop :=
  match i with Line x => other_line x | Block c body rest => cond_ok c ∧ foldr (fun i p => item_ok i ∧ p) True body ∧ branches_ok rest end
with branches_ok (r : branches) : Prop :=
  match r with
  | End => True
  | Elif c body rest => cond_ok c ∧ foldr (fun i p => item_ok i ∧ p) True body ∧ branches_ok rest
  | Else body => foldr (fun i p => item_ok i ∧ p) True body
  end.

Section Blocks.
Context {S : Type} (test : S → cstr → outcome (cond * S)).
(** What a line does, and the value of a condition, which may change the counters. *)
Context (exec : S → cstr → S) (eval_cond : S → cstr → bool * S).
Hypothesis test_valid : ∀ s c, test s c = Ok (Valid (eval_cond s c).1, (eval_cond s c).2).

(** What the blocks mean: the first branch whose condition holds is executed, and the conditions
    behind it are not looked at. *)
Fixpoint run_item (s : S) (i : item) : S :=
  match i with
  | Line x => exec s x
  | Block c body rest => let '(b, s) := eval_cond s c in if b then foldl run_item s body else run_branches s rest
  end
with run_branches (s : S) (r : branches) : S :=
  match r with
  | End => s
  | Elif c body rest => let '(b, s) := eval_cond s c in if b then foldl run_item s body else run_branches s rest
  | Else body => foldl run_item s body
  end.

(** The loop over the lines, as in [Parse_config_string]; [None] is an error. *)
Definition read_line (k : ConfigIfStack) (s : S) (line : cstr) : outcome (option (ConfigIfStack * S)) :=
  '(msg, k, s) ← line_is_if test k s line;
  match msg with
  | Some [] => Ok (Some (k, s))
  | Some _ => Ok None
  | None => Ok (Some (k, if enabled k then exec s line else s))
  end.
Fixpoint read_lines (k : ConfigIfStack) (s : S) (lines : list cstr) : outcome (option (ConfigIfStack * S)) :=
  match lines with
  | [] => Ok (Some (k, s))
  | line :: lines => r ← read_line k s line; match r with Some (k, s) => read_lines k s lines | None => Ok None end
  end.
Lemma read_lines_app l1 l2 k s : read_lines k s (l1 ++ l2) =
  r ← read_lines k s l1; match r with Some (k, s) => read_lines k s l2 | None => Ok None end.
Proof. revert k s. induction l1 as [|x l1 IH]; intros k s; [done|]. cbn [app read_lines]. destruct (read_line k s x) as [[[k1 s1]|]| |]; cbn; [apply IH|done..]. Qed.

Lemma keyword_if c kw : cond_ok c → keyword (kw ++ L " " ++ c) kw = match kw with [] => None | _ => Some c end.
Proof.
  intros Hc. unfold keyword. rewrite drop_app_length. unfold starts_with_ignore_case. destruct kw as [|d kw]; [done|].
  rewrite fmap_app. rewrite (proj2 (Str.has_prefix_spec _ _)) by eauto. cbn [andb app L String.list_ascii_of_string isspace skip_while].
  f_equal. destruct c as [|e c]; [done|]. cbn in *. by rewrite Hc.
Qed.
Lemma line_if k s c : cond_ok c → line_is_if test k s (L "if " ++ c) =
  '(cd, s) ← (if enabled k then test s c else Ok (Valid false, s));
  match cd with
  | Invalid why => Ok (Some (because (c ++ L " is not a valid if condition") why), k, s)
  | Valid bb => let '(ok, k) := begin_if k bb in Ok (Some (if ok : bool then [] else L "if nesting too deep!"), k, s)
  end.
Proof. intros Hc. unfold line_is_if. change (L "if " ++ c) with (L "if" ++ L " " ++ c). by rewrite keyword_if. Qed.
Lemma line_elif k s c : cond_ok c → line_is_if test k s (L "elif " ++ c) =
  '(cd, s) ← (if (Z.land (estate k) (top k) =? 0) && (Z.land (state k) (uint64 (top k - 1)) =? uint64 (top k - 1)) then test s c else Ok (Valid false, s));
  match cd with
  | Invalid why => Ok (Some (because (c ++ L " is not a valid elif condition") why), k, s)
  | Valid bb =>
      let '(ok, k') := begin_elif k bb in
      Ok (Some (if ok : bool then [] else if inside_else k' then L "elif is not allowed after else" else L "elif without matching if"), k', s)
  end.
Proof. intros Hc. unfold line_is_if. change (L "elif " ++ c) with (L "elif" ++ L " " ++ c). rewrite keyword_if by done. done. Qed.
Lemma line_other k s x : other_line x → line_is_if test k s x = Ok (None, k, s).
Proof. intros H. unfold line_is_if. repeat (apply Forall_cons in H as [E H]; rewrite E; clear E). done. Qed.

Definition reads (k : ConfigIfStack) (s : S) (lines : list cstr) (f : levels) (s' : S) : Prop :=
  ∃ k', read_lines k s lines = Ok (Some (k', s')) ∧ rep k' f.
Lemma reads_app k s l1 l2 f1 f2 s1 s2 : reads k s l1 f1 s1 → (∀ k1, rep k1 f1 → reads k1 s1 l2 f2 s2) → reads k s (l1 ++ l2) f2 s2.
Proof. intros (k1 & E & Hr) H2. destruct (H2 k1 Hr) as (k2 & E2 & Hr2). exists k2. split; [|done]. by rewrite read_lines_app, E. Qed.
Lemma reads_cons k s x lines k1 f1 s1 f2 s2 : read_line k s x = Ok (Some (k1, s1)) → rep k1 f1 → (∀ k1, rep k1 f1 → reads k1 s1 lines f2 s2) → reads k s (x :: lines) f2 s2.
Proof. intros E Hr H2. destruct (H2 k1 Hr) as (k2 & E2 & Hr2). exists k2. split; [|done]. cbn [read_lines]. by rewrite E. Qed.
Lemma read_endif k f l s : rep k (l :: f) → reads k s [L "endif"] f s.
Proof.
  intros Hr. pose proof (end_if_rep k _ Hr) as (k' & E & Hr'). exists k'. split; [|done]. cbn [read_lines]. unfold read_line.
  change (line_is_if test k s (L "endif")) with (let '(ok, k) := end_if k in Ok (Some (if ok : bool then [] else L "endif without matching if"), k, s) : outcome (option cstr * ConfigIfStack * S)).
  by rewrite E.
Qed.
Definition items_ok (l : list item) : Prop := foldr (fun i p => item_ok i ∧ p) True l.

Definition item_reads (i : item) : Prop := item_ok i → ∀ k f s, rep k f → (length f + item_depth i ≤ 63)%nat →
  reads k s (item_lines i) f (if l_enabled f then run_item s i else s).
Definition branches_read (r : branches) : Prop := branches_ok r → ∀ k l f s, rep k (l :: f) → open l = true → (on l = true → taken l = true) →
  (length f + 1 + branches_depth r ≤ 63)%nat → reads k s (branches_lines r) f (if l_enabled f && negb (taken l) then run_branches s r else s).

Lemma body_reads body : Forall item_reads body → items_ok body → ∀ k f s, rep k f → (length f + deepest item_depth body ≤ 63)%nat →
  reads k s (body ≫= item_lines) f (if l_enabled f then foldl run_item s body else s).
Proof.
  induction 1 as [|i body Hi Hb IH]; intros Hok k f s Hr Hd; [exists k; split; [by destruct (l_enabled f)|done]|].
  destruct Hok as [Hoki Hok]. cbn [deepest foldr] in Hd. cbn [mbind list_bind]. eapply reads_app; [apply Hi; [done..|lia]|].
  intros k1 Hr1. pose proof (IH Hok k1 f (if l_enabled f then run_item s i else s) Hr1 ltac:(unfold deepest; lia)) as H. destruct (l_enabled f); done.
Qed.
Lemma blocks_read i : item_reads i.
Proof.
  apply (item_rec' item_reads branches_read); unfold item_reads, branches_read.
  - intros x Hx k f s Hr _. exists k. split; [|done]. cbn [item_lines read_lines]. unfold read_line. rewrite line_other by done. cbn. by rewrite (enabled_rep k f Hr).
  - intros c body rest Hb Hrest (Hc & Hokb & Hokr) k f s Hr Hd. cbn [item_depth] in Hd. cbn [item_lines].
    set (bb := if l_enabled f then (eval_cond s c).1 else false). set (s1 := if l_enabled f then (eval_cond s c).2 else s).
    pose proof (begin_if_rep k f bb Hr) as Hbi. destruct (begin_if k bb) as [[|] k1] eqn:Ebi; [|lia].
    eapply (reads_cons k s _ _ k1 (l_begin_if f bb) s1); [|done|].
    + unfold read_line. rewrite line_if, (enabled_rep k f Hr) by done. unfold bb, s1 in *. destruct (l_enabled f); [rewrite test_valid|]; cbn [mbind outcome_bind]; by rewrite Ebi.
    + intros k2 Hr2. eapply reads_app; [apply body_reads; [done..|cbn [l_begin_if length]; lia]|].
      intros k3 Hr3. pose proof (Hrest Hokr k3 (mkLevel bb bb true) f) as Hgo. cbn in Hgo.
      assert (l_enabled (l_begin_if f bb) = bb && l_enabled f) as -> by done. cbn [run_item].
      specialize (Hgo (if bb && l_enabled f then foldl run_item s1 body else s1) Hr3 eq_refl ltac:(done) ltac:(lia)). unfold bb, s1 in *.
      destruct (l_enabled f); cbn in *; [|done]. destruct (eval_cond s c) as [[|] s2]; cbn in *; done.
  - intros _ k l f s Hr _ _ _. destruct (read_endif k f l s Hr) as (k' & E & Hr'). exists k'. split; [|done]. cbn [branches_lines]. rewrite E.
    by destruct (l_enabled f && _).
  - intros c body rest Hb Hrest (Hc & Hokb & Hokr) k l f s Hr Hop Hon Hd. cbn [branches_depth] in Hd. cbn [branches_lines].
    set (go := l_enabled f && negb (taken l)). set (bb := if go then (eval_cond s c).1 else false). set (s1 := if go then (eval_cond s c).2 else s).
    set (l' := if taken l then mkLevel false true true else mkLevel bb bb true).
    pose proof (begin_elif_rep k (l :: f) bb Hr) as Hbe. cbn [l_begin_elif] in Hbe. rewrite Hop in Hbe. fold l' in Hbe. destruct Hbe as (k1 & Ebe & Hr1).
    eapply (reads_cons k s _ _ k1 (l' :: f) s1); [|done|].
    + unfold read_line. rewrite line_elif, (outer_rep k l f Hr) by done. destruct (rep_top_bits k l f Hr) as (_ & _ & -> & _). rewrite andb_comm. fold go.
      unfold bb, s1 in *. destruct go; [rewrite test_valid|]; cbn [mbind outcome_bind]; by rewrite Ebe.
    + intros k2 Hr2. eapply reads_app; [apply body_reads; [done..|cbn [length]; lia]|]. intros k3 Hr3.
      pose proof (Hrest Hokr k3 l' f) as Hgo. cbn [run_branches]. assert (open l' = true ∧ (on l' = true → taken l' = true)) as [Ho1 Ho2] by (unfold l'; by destruct (taken l)).
      specialize (Hgo (if l_enabled (l' :: f) then foldl run_item s1 body else s1) Hr3 Ho1 Ho2 ltac:(lia)).
      unfold l_enabled in *. cbn [forallb] in *. fold (l_enabled f) in *. unfold l', bb, s1, go in *. destruct (taken l); cbn in *; [by rewrite !andb_false_r in *|].
      rewrite !andb_true_r in *. destruct (l_enabled f); cbn in *; [|by rewrite ?andb_false_r in *]. destruct (eval_cond s c) as [[|] s2]; cbn in *; done.
  - intros body Hb Hokb k l f s Hr Hop Hon Hd. cbn [branches_depth] in Hd. cbn [branches_lines].
    pose proof (begin_else_rep k (l :: f) Hr) as Hbe. cbn [l_begin_else] in Hbe. rewrite Hop in Hbe. destruct Hbe as (k1 & Ebe & Hr1).
    eapply (reads_cons k s _ _ k1 _ s); [|done|].
    + unfold read_line. change (line_is_if test k s (L "else")) with (let '(ok, k') := begin_else k in
        Ok (Some (if ok : bool then [] else if inside_else k' then L "else is not allowed after else" else L "else without matching if"), k', s) : outcome (option cstr * ConfigIfStack * S)).
      by rewrite Ebe.
    + intros k2 Hr2. eapply reads_app; [apply body_reads; [done..|cbn [length]; lia]|]. intros k3 Hr3.
      assert (negb (taken l || on l) = negb (taken l)) as Hneg by (destruct (taken l), (on l); try done; by specialize (Hon eq_refl)).
      unfold l_enabled. cbn [forallb on]. fold (l_enabled f). rewrite Hneg, andb_comm. cbn [run_branches]. by eapply read_endif.
Qed.
End Blocks.

(** ** Theorems *)

(** The words of the stack implement a stack of levels: each operation does to the bits what it should do to the
    levels, a line is read exactly when all levels around it are taken, [else], [elif] and [endif]
    without their [if] are refused, and [begin_if] fails exactly at the sixty-fourth level. *)
Theorem ConfigIfStack_refines (k : ConfigIfStack) (f : levels) (bb : bool) :
  rep k f →
  enabled k = l_enabled f ∧ inside_if k = negb (bool_decide (f = [])) ∧
  match begin_if k bb with (true, k') => rep k' (l_begin_if f bb) ∧ (length f < 63)%nat | (false, _) => length f = 63%nat end ∧
  match l_begin_else f with Some f' => ∃ k', begin_else k = (true, k') ∧ rep k' f' | None => begin_else k = (false, k) end ∧
  match l_begin_elif f bb with Some f' => ∃ k', begin_elif k bb = (true, k') ∧ rep k' f' | None => begin_elif k bb = (false, k) end ∧
  match l_end_if f with Some f' => ∃ k', end_if k = (true, k') ∧ rep k' f' | None => end_if k = (false, ConfigIfStack_new) end.
Proof.
  intros Hr. split; [by apply enabled_rep|]. split.
  { unfold inside_if. destruct f as [|l f]; [by destruct (rep_bottom k Hr) as [-> _]|]. by destruct (rep_top_bits k l f Hr) as (_ & _ & _ & _ & ->). }
  split; [|split; [by apply begin_else_rep|split; [by apply begin_elif_rep|by apply end_if_rep]]].
  pose proof (begin_if_rep k f bb Hr) as H. destruct (begin_if k bb) as [[|] k']; [|done]. split; [done|]. pose proof (r_depth _ _ H) as Hd. cbn in Hd. lia.
Qed.
Lemma ConfigIfStack_refines_witness : rep ConfigIfStack_new [] ∧ (begin_if ConfigIfStack_new true).1 = true ∧ end_if ConfigIfStack_new = (false, ConfigIfStack_new).
Proof. split; [exact rep_new|]. split; [reflexivity|]. destruct (ConfigIfStack_refines ConfigIfStack_new [] true rep_new) as (_ & _ & _ & _ & _ & E). exact E. Defined.

(** C28. Conditional blocks are read as they are written.  When the conditions are valid, reading the lines of blocks that are
    nested at most 63 deep does what the structure says: of each block the lines of the first branch whose
    condition holds are read, else those of [else], conditions that cannot matter are not evaluated, and the
    stack is again as it was. *)
Theorem conditional_blocks {S : Type} (test : S → cstr → outcome (cond * S)) (exec : S → cstr → S) (eval_cond : S → cstr → bool * S)
    (items : list item) (s : S) :
  (∀ s c, test s c = Ok (Valid (eval_cond s c).1, (eval_cond s c).2)) →
  foldr (fun i p => item_ok i ∧ p) True items → (deepest item_depth items ≤ 63)%nat →
  ∃ k, read_lines test exec ConfigIfStack_new s (items ≫= item_lines) = Ok (Some (k, foldl (run_item exec eval_cond) s items)) ∧ inside_if k = false.
Proof.
  intros Ht Hok Hd. destruct (body_reads test exec eval_cond items) with (k := ConfigIfStack_new) (f := @nil level) (s := s) as (k & E & Hr); [|done|exact rep_new|done|].
  - apply Forall_true. intros i. by apply blocks_read.
  - exists k. split; [exact E|]. unfold inside_if. by destruct (rep_bottom k Hr) as [-> _].
Qed.
Definition yes_cond (s : list cstr) (c : cstr) : bool * list cstr := (bool_decide (c = L "yes"), s).
Definition sample_items : list item :=
  [Line (L "A = 1"); Block (L "no") [Line (L "B = 1")] (Elif (L "yes") [Block (L "no") [] (Else [Line (L "C = 1")])] (Else [Line (L "D = 1")]))].
Lemma conditional_blocks_witness : ∃ k,
  read_lines (fun s c => Ok (Valid (yes_cond s c).1, (yes_cond s c).2)) (fun s x => s ++ [x]) ConfigIfStack_new []
    [L "A = 1"; L "if no"; L "B = 1"; L "elif yes"; L "if no"; L "else"; L "C = 1"; L "endif"; L "else"; L "D = 1"; L "endif"]
  = Ok (Some (k, [L "A = 1"; L "C = 1"])) ∧ inside_if k = false.
Proof.
  apply (conditional_blocks (fun s c => Ok (Valid (yes_cond s c).1, (yes_cond s c).2)) (fun s x => s ++ [x]) yes_cond sample_items []);
    [done|repeat split; repeat constructor|cbn; lia].
Defined.
