(* ===== verification/ConfigCond.v ===== *)
(** * Conditions of the configuration

    The conditions of [if] and [elif] lines, in [condor_utils/config.cpp]: numbers, Booleans,
    comparisons of the version, and tests whether a macro is defined.  The kind of a
    condition is decided from the set of the kinds of its characters. *)

From Stdlib Require Import ZArith Lia Ascii.
From stdpp Require Import base gmap list numbers strings.
From S2P Require Import Prelude MyString JobAd DList StringList MacroText MacroSet MacroExpand ConfigIf.
Open Scope Z_scope.

(** ** The kinds of conditions *)

Inductive expr_character_t := CIFT_EMPTY | CIFT_NUMBER | CIFT_BOOL | CIFT_IDENTIFIER | CIFT_MACRO | CIFT_VERSION | CIFT_IFDEF | CIFT_COMPLEX.
Definition or_20 (c : ascii) : Z := Z.lor (Z.of_nat (nat_of_ascii c)) 32.
Fixpoint match_literal (ptr lit : cstr) : option cstr :=
  match lit, ptr with
  | [], _ => Some ptr
  | d :: lit, c :: ptr => if or_20 c =? Z.of_nat (nat_of_ascii d) then match_literal ptr lit else None
  | _ :: _, [] => None
  end.
Definition matches_literal_ignore_case (ptr lit : cstr) (no_trailing_token : bool) : bool :=
  match match_literal (skip_while isspace ptr) lit with
  | None => false
  | Some ptr =>
      if no_trailing_token then bool_decide (skip_while isspace ptr = [])
      else match ptr with [] => true | c :: _ => negb (isalnum c) end
  end.

(** The kinds of characters. *)
Definition ct_space : Z := 1.
Definition ct_digit : Z := 2.
Definition ct_alpha : Z := 4.
Definition ct_ident : Z := 8.
Definition ct_cmp : Z := 16.
Definition ct_sum : Z := 32.
Definition ct_logic : Z := 64.
Definition ct_group : Z := 128.
Definition ct_money : Z := 256.
Definition ct_colon : Z := 512.
Definition ct_other : Z := 1024.
Definition ct_float : Z := 4096.
Definition ct_macro : Z := 8192.
Definition one_of (c : ascii) (s : string) : bool := has_char c (L s).
Definition classify_char (set : Z) (ch : ascii) (p : cstr) : Z :=
  let n := nat_of_ascii ch in
  let add := Z.lor set in
  if is_digit ch then add ct_digit
  else if ch =c "."%char then
    if (set =? ct_digit) || match p with [] => true | c :: _ => is_digit c end then add ct_float else add ct_ident
  else if one_of ch "eE" then if Z.ldiff set ct_float =? ct_digit then add ct_float else add ct_alpha
  else if one_of ch "-+" then if set =? Z.lor ct_digit ct_float then set else add ct_sum
  else if is_alpha ch then add ct_alpha
  else if one_of ch "_/" then add ct_ident
  else if one_of ch "<=>" then add ct_cmp
  else if (ch =c "!"%char) && match p with c :: _ => c =c "="%char | [] => false end then add ct_cmp
  else if ch =c "$"%char then
    match p with c :: _ => if c =c "("%char then Z.lor (add ct_money) ct_macro else add ct_money | [] => add ct_money end
  else if isspace ch then match p with c :: _ => if isspace c then set else add ct_space | [] => set end
  else if one_of ch "&|" then add ct_logic
  else if one_of ch "{}()[]" then add ct_group
  else if ch =c ":"%char then add ct_colon
  else add ct_other.
Fixpoint classify (set : Z) (p : cstr) : Z := match p with [] => set | ch :: p => classify (classify_char set ch p) p end.

Definition Characterize_config_if_expression (expr : cstr) (keyword_check : bool) : expr_character_t :=
  let begin := skip_while isspace expr in
  match begin with
  | [] => CIFT_EMPTY
  | c :: rest =>
      let set := classify 0 (if c =c "-"%char then rest else begin) in
      let set_is n := set =? n in
      if set_is 0 then CIFT_EMPTY
      else if set_is ct_digit || set_is (Z.lor ct_digit ct_float) then CIFT_NUMBER
      else if set_is ct_alpha && (matches_literal_ignore_case expr (L "false") true || matches_literal_ignore_case expr (L "true") true) then CIFT_BOOL
      else if set_is ct_alpha && keyword_check && matches_literal_ignore_case begin (L "version") true then CIFT_VERSION
      else if set_is ct_alpha && keyword_check && matches_literal_ignore_case begin (L "defined") true then CIFT_IFDEF
      else if existsb set_is [4; 6; 4102; 12; 14; 4110] then CIFT_IDENTIFIER
      else if existsb set_is [23; 4119] then
        if keyword_check && matches_literal_ignore_case begin (L "version") false then CIFT_VERSION else CIFT_COMPLEX
      else if existsb set_is [5; 517; 13; 525; 7; 4103] then
        if keyword_check && matches_literal_ignore_case begin (L "defined") false then CIFT_IFDEF else CIFT_COMPLEX
      else if negb (Z.land set ct_macro =? 0) && (Z.ldiff set (256 + 8 + 4 + 2 + 8192 + 512) =? 0) then CIFT_MACRO
      else CIFT_COMPLEX
  end.

(** ** Their values *)

(** [atof] gives a number other than zero: digits with a point and an exponent, above half of
    the least [double]. *)
Definition atof_nonzero (s : cstr) : bool :=
  let s := skip_while isspace s in
  let s := match s with c :: s' => if (c =c "-"%char) || (c =c "+"%char) then s' else s | [] => [] end in
  let ipart := take_digits s in
  let s := drop (length ipart) s in
  let fpart := match s with c :: s => if c =c "."%char then take_digits s else [] | [] => [] end in
  let s := match s with c :: s' => if c =c "."%char then drop (length fpart) s' else s | [] => [] end in
  let e := match s with c :: s => if one_of c "eE" then from_option fst 0 (parse_int s) else 0 | [] => 0 end in
  let m := digits_value (ipart ++ fpart) in
  let e := e - Z.of_nat (length fpart) in
  if m =? 0 then false else if 0 <=? e then true else 10 ^ (- e) <? m * 2 ^ 1075.
Definition Evaluate_config_if_bool (expr : cstr) (ec : expr_character_t) : bool :=
  match ec with
  | CIFT_NUMBER => atof_nonzero expr
  | CIFT_BOOL => if matches_literal_ignore_case expr (L "false") true then false else matches_literal_ignore_case expr (L "true") true
  | _ => false
  end.
Definition is_crufty_bool (expr : cstr) : option bool :=
  if matches_literal_ignore_case expr (L "yes") true || matches_literal_ignore_case expr (L "t") true then Some true
  else if matches_literal_ignore_case expr (L "no") true || matches_literal_ignore_case expr (L "f") true then Some false
  else None.

(** [sscanf(ptr, FORMAT, ...)] of three numbers with dots between them: those that were read. *)
Fixpoint scan_numbers (n : nat) (s : cstr) : list Z :=
  match n with
  | O => []
  | S n =>
      match parse_int (skip_while isspace s) with
      | None => []
      | Some (z, rest) => int32 z :: match rest with c :: rest => if c =c "."%char then scan_numbers n rest else [] | [] => [] end
      end
  end.
Section Eval.
Context (pt : ParamTables) (getenv : cstr → option cstr) (rnd : nat → Z) (fuel : nat) (subsys : option cstr).
(** The version of this program, and the number found where a version was refused. *)
Context (myversion : VersionData) (junk : Z).
Abbreviation cstate := (MACRO_SET * nat)%type.

Definition scalar_of (majv minv subv : Z) : Z := if (majv <? 6) || (minv >? 99) || (subv >? 99) then junk else version_scalar majv minv subv.
(** -1, 0 or 1 as the version of this program is less than, equal to or greater than the other. *)
Definition ver_diff (other : Z) : Z := if other <? Scalar myversion then 1 else if other >? Scalar myversion then -1 else 0.
Definition Evaluate_version (expr : cstr) : cond :=
  let ptr := skip_while isspace (drop 7 expr) in
  let '(negated, ptr) := match ptr with c :: p => if c =c "!"%char then (true, p) else (false, ptr) | [] => (false, []) end in
  let '(op, ptr) := match ptr with
                    | c :: p => if one_of c "<=>" then (Z.of_nat (nat_of_ascii c) - 61, p) else (0, ptr)
                    | [] => (0, []) end in
  let '(or_equal, ptr) := match ptr with c :: p => if c =c "="%char then (true, p) else (false, ptr) | [] => (false, []) end in
  let ptr := skip_while isspace ptr in
  let ptr := match ptr with c :: p => if one_of c "vV" then p else ptr | [] => [] end in
  let go majv minv subv :=
    let d := ver_diff (scalar_of majv minv subv) in
    let result := (d =? op) || or_equal && (d =? 0) in
    if majv <? 6 then Invalid (L "the version literal is invalid") else Valid (if negated then negb result else result) in
  match scan_numbers 3 ptr with
  | [majv; minv; subv] => go majv minv subv
  | [majv; minv] => go majv minv (SubMinorVer myversion)
  | _ => Invalid (L "the version literal is invalid")
  end.
Definition Evaluate_defined (s : MACRO_SET) (expr : cstr) : cond * MACRO_SET :=
  let ptr := skip_while isspace (drop 7 expr) in
  match ptr with
  | [] => (Valid false, s)
  | _ =>
      match Characterize_config_if_expression ptr false with
      | CIFT_IDENTIFIER =>
          let '(tvalue, s) := lookup_subsys ptr subsys s 3 in
          let tvalue := match tvalue with None => if has_defaults s then param_default_string pt ptr subsys else None | v => v end in
          let tvalue := match tvalue, is_crufty_bool ptr with None, Some _ => Some (L "true") | v, _ => v end in
          (Valid match tvalue with Some (_ :: _) => true | _ => false end, s)
      | CIFT_NUMBER | CIFT_BOOL => (Valid true, s)
      | _ =>
          if starts_with_ignore_case ptr (L "use ") then
            let ptr := skip_while isspace (drop 4 ptr) in
            let result := match param_meta_table pt ptr with
                          | None => false
                          | Some tbl =>
                              match strchr ":"%char ptr with
                              | None => true
                              | Some i => match drop (S i) ptr with [] => true | v => bool_decide (is_Some (param_meta_table_string tbl v)) end
                              end
                          end in
            if existsb (fun c => has_char c ptr) [SP; TAB; CR]
            then (Invalid (L "defined use meta argument with internal spaces will never match"), s) else (Valid result, s)
          else (Invalid (L "defined argument must be param name, boolean, or number"), s)
      end
  end.
Definition Evaluate_config_if (s : MACRO_SET) (expr : cstr) : cond * MACRO_SET :=
  let ec := Characterize_config_if_expression expr true in
  match ec with
  | CIFT_NUMBER | CIFT_BOOL => (Valid (Evaluate_config_if_bool expr ec), s)
  | CIFT_VERSION => (Evaluate_version expr, s)
  | CIFT_IFDEF => Evaluate_defined s expr
  | CIFT_IDENTIFIER =>
      match is_crufty_bool expr with Some b => (Valid b, s) | None => (Invalid (L "expression is not a conditional"), s) end
  | CIFT_COMPLEX => (Invalid (L "complex conditionals are not supported"), s)
  | _ => (Invalid (L "expression is not a conditional"), s)
  end.
(** Macros are expanded first; a condition that expands to nothing does not hold. *)
Definition trim_right (s : cstr) : cstr := reverse (skip_while isspace (reverse s)).
Definition Test_config_if_expression (st : cstate) (expr : cstr) : outcome (cond * cstate) :=
  let '(s, used) := st in
  '(expanded, s, used, expr) ← (if has_char "$"%char expr
     then e ← expand_macro pt getenv rnd fuel expr s true subsys 2 used; Ok (true, e_set e, e_rnd e, trim_right (tmp e))
     else Ok (false, s, used, expr));
  let expr := skip_while isspace expr in
  let '(inverted, expr) := match expr with c :: p => if c =c "!"%char then (true, skip_while isspace p) else (false, expr) | [] => (false, []) end in
  let '(c, s) := match expr with
                 | [] => if expanded : bool then (Valid false, s) else Evaluate_config_if s expr
                 | _ => Evaluate_config_if s expr
                 end in
  Ok (match c with Valid b => Valid (if inverted : bool then negb b else b) | Invalid why => Invalid why end, (s, used)).
End Eval.

(** ** Comparisons of the version *)

Inductive cmp_op := OLt | OLe | OEq | OEqEq | OGe | OGt | ONe.
Definition op_text (o : cmp_op) : cstr :=
  match o with OLt => L "<" | OLe => L "<=" | OEq => L "=" | OEqEq => L "==" | OGe => L ">=" | OGt => L ">" | ONe => L "!=" end.
Definition op_holds (o : cmp_op) (c : comparison) : bool :=
  match o, c with
  | OLt, Lt | OLe, (Lt | Eq) | (OEq | OEqEq), Eq | OGe, (Gt | Eq) | OGt, Gt | ONe, (Lt | Gt) => true
  | _, _ => false
  end.
Definition version_compare (v : VersionData) (majv minv subv : Z) : comparison :=
  match MajorVer v ?= majv with
  | Eq => match MinorVer v ?= minv with Eq => SubMinorVer v ?= subv | o => o end
  | o => o
  end.
Definition version_text (majv minv subv : Z) : cstr := decimal majv ++ L "." ++ decimal minv ++ L "." ++ decimal subv.
Definition version_ok (majv minv subv : Z) : Prop := 6 ≤ majv ≤ 2000 ∧ 0 ≤ minv ≤ 99 ∧ 0 ≤ subv ≤ 99.

Lemma classify_digits ds t : ds ≠ [] → forallb is_digit ds = true → ∀ set, classify set (ds ++ t) = classify (Z.lor set ct_digit) t.
Proof.
  intros Hne Hd. assert (∀ ds set, forallb is_digit ds = true → classify (Z.lor set ct_digit) (ds ++ t) = classify (Z.lor set ct_digit) t) as Hmore.
  { clear. induction ds as [|c ds IH]; intros set Hd; [done|]. cbn [forallb] in Hd. apply andb_true_iff in Hd as [Hc Hd]. cbn [app classify].
    unfold classify_char. rewrite Hc. rewrite <-Z.lor_assoc, Z.lor_diag. by apply IH. }
  intros set. destruct ds as [|c ds]; [done|]. cbn [forallb] in Hd. apply andb_true_iff in Hd as [Hc Hd]. cbn [app classify]. unfold classify_char at 1. rewrite Hc.
  by apply Hmore.
Qed.
Lemma decimal_all_digits n : 0 ≤ n < 10 ^ 20 → decimal n ≠ [] ∧ forallb is_digit (decimal n) = true.
Proof. intros Hn. destruct (decimal_loop_ok 20 n Hn) as (_ & H1 & H2). split; [by apply H2|done]. Qed.
Lemma decimal_head n t : 0 ≤ n < 10 ^ 20 → ∃ d r, decimal n ++ t = d :: r ∧ is_digit d = true.
Proof.
  intros Hn. destruct (decimal_all_digits n Hn) as [H1 H2]. destruct (decimal n) as [|d r]; [done|]. cbn in H2. apply andb_true_iff in H2 as [H2 _]. by exists d, (r ++ t).
Qed.
Lemma classify_dot set n t : 0 ≤ n < 10 ^ 20 → classify set (L "." ++ decimal n ++ t) = classify (Z.lor (Z.lor set ct_float) ct_digit) t.
Proof.
  intros Hn. destruct (decimal_head n t Hn) as (d & r & E & Hd). unfold L. cbn [String.list_ascii_of_string app classify]. rewrite E.
  assert (classify_char set "."%char (d :: r) = Z.lor set ct_float) as ->.
  { unfold classify_char. change (is_digit "."%char) with false. change ("."%char =c "."%char) with true. cbn iota. by rewrite Hd, orb_true_r. }
  rewrite <-E. destruct (decimal_all_digits n Hn). by apply classify_digits.
Qed.
Lemma classify_version o d r : is_digit d = true → classify 0 (L "version " ++ op_text o ++ L " " ++ d :: r) = classify 21 (d :: r).
Proof. intros Hd. destruct d as [[] [] [] [] [] [] [] []]; try discriminate Hd; destruct o; reflexivity. Qed.
Lemma version_characterized o majv minv subv : version_ok majv minv subv →
  Characterize_config_if_expression (L "version " ++ op_text o ++ L " " ++ version_text majv minv subv) true = CIFT_VERSION.
Proof.
  intros (Ha & Hb & Hc). set (expr := L "version " ++ op_text o ++ L " " ++ version_text majv minv subv).
  assert (classify 0 expr = 4119) as Hset.
  { unfold expr, version_text. destruct (decimal_head majv (L "." ++ decimal minv ++ L "." ++ decimal subv) ltac:(lia)) as (d & r & E & Hd). rewrite E.
    rewrite classify_version, <-E by done. destruct (decimal_all_digits majv ltac:(lia)) as [H1 H2]. rewrite (classify_digits _ _ H1 H2).
    rewrite classify_dot by lia. rewrite <-(app_nil_r (decimal subv)), classify_dot by lia. reflexivity. }
  unfold Characterize_config_if_expression. assert (skip_while isspace expr = expr) as -> by done.
  assert (∃ r, expr = "v"%char :: r) as [r Er] by (eexists; reflexivity). rewrite Er at 1. change ("v"%char =c "-"%char) with false. cbn iota.
  cbn zeta. rewrite Hset. cbn [Z.eqb]. assert (matches_literal_ignore_case expr (L "version") false = true) as -> by reflexivity. reflexivity.
Qed.
Lemma parse_decimal n t : 0 ≤ n < 2 ^ 31 → (∀ c, head t = Some c → is_digit c = false) →
  parse_int (skip_while isspace (decimal n ++ t)) = Some (n, t).
Proof.
  intros Hn Ht. destruct (decimal_head n t ltac:(lia)) as (d & r & E & Hd). rewrite E. destruct (is_digit_plain d Hd) as (Hs & _).
  rewrite skip_while_head, <-E by done. apply parse_int_decimal; [lia|done].
Qed.
Lemma scan_version majv minv subv : version_ok majv minv subv → scan_numbers 3 (version_text majv minv subv) = [majv; minv; subv].
Proof.
  intros (Ha & Hb & Hc). unfold version_text. cbn [scan_numbers]. rewrite parse_decimal by (lia || by intros c [= <-]). rewrite int32_id by (unfold in_int32; lia).
  cbn [L String.list_ascii_of_string app]. rewrite Ascii.eqb_refl. rewrite parse_decimal by (lia || by intros c [= <-]). rewrite int32_id by (unfold in_int32; lia).
  cbn [L String.list_ascii_of_string app]. rewrite Ascii.eqb_refl. rewrite <-(app_nil_r (decimal subv)), parse_decimal by (lia || done).
  rewrite int32_id by (unfold in_int32; lia). done.
Qed.
Lemma version_scalar_id majv minv subv : 0 ≤ majv ≤ 2000 → 0 ≤ minv ≤ 99 → 0 ≤ subv ≤ 99 → version_scalar majv minv subv = majv * 1000000 + minv * 1000 + subv.
Proof. intros. unfold version_scalar. rewrite !(int32_id (majv * 1000000)), !(int32_id (minv * 1000)) by (unfold in_int32; lia). rewrite (int32_id (majv * 1000000 + minv * 1000)) by (unfold in_int32; lia). apply int32_id. unfold in_int32. lia. Qed.
(** The number of a version is in the order of versions. *)
Lemma ver_diff_compare v majv minv subv : version_ok (MajorVer v) (MinorVer v) (SubMinorVer v) → version_ok majv minv subv →
  Scalar v = version_scalar (MajorVer v) (MinorVer v) (SubMinorVer v) →
  ver_diff v (version_scalar majv minv subv) = match version_compare v majv minv subv with Lt => -1 | Eq => 0 | Gt => 1 end.
Proof.
  intros (A1 & A2 & A3) (B1 & B2 & B3) E. unfold ver_diff. rewrite E, !version_scalar_id by lia. unfold version_compare. rewrite Z.gtb_ltb.
  destruct (Z.compare_spec (MajorVer v) majv); [destruct (Z.compare_spec (MinorVer v) minv); [destruct (Z.compare_spec (SubMinorVer v) subv)|..]|..];
    repeat match goal with |- context [Z.ltb ?a ?b] => destruct (Z.ltb_spec a b) end; try done; lia.
Qed.

(** The operator is taken off. *)
Lemma version_rest v junk o d r : is_digit d = true →
  Evaluate_version v junk (L "version " ++ op_text o ++ L " " ++ d :: r) =
  let '(negated, op, or_equal) := match o with
    | OLt => (false, -1, false) | OLe => (false, -1, true) | OEq => (false, 0, false) | OEqEq => (false, 0, true)
    | OGe => (false, 1, true) | OGt => (false, 1, false) | ONe => (true, 0, false) end in
  let go majv minv subv :=
    let d := ver_diff v (scalar_of junk majv minv subv) in
    let result := (d =? op) || or_equal && (d =? 0) in
    if majv <? 6 then Invalid (L "the version literal is invalid") else Valid (if negated : bool then negb result else result) in
  match scan_numbers 3 (d :: r) with
  | [majv; minv; subv] => go majv minv subv
  | [majv; minv] => go majv minv (SubMinorVer v)
  | _ => Invalid (L "the version literal is invalid")
  end.
Proof. intros Hd. destruct d as [[] [] [] [] [] [] [] []]; try discriminate Hd; destruct o; reflexivity. Qed.

(** Comparisons of the version.  For every operator, the condition [version OP a.b.c] is valid and holds exactly when
    the version of this program is in that relation to the other, in the order of versions. *)
Theorem version_condition (pt : ParamTables) (subsys : option cstr) (v : VersionData) (junk : Z) (s : MACRO_SET) (o : cmp_op) (majv minv subv : Z) :
  version_ok (MajorVer v) (MinorVer v) (SubMinorVer v) → Scalar v = version_scalar (MajorVer v) (MinorVer v) (SubMinorVer v) →
  version_ok majv minv subv →
  Evaluate_config_if pt subsys v junk s (L "version " ++ op_text o ++ L " " ++ version_text majv minv subv)
    = (Valid (op_holds o (version_compare v majv minv subv)), s).
Proof.
  intros Hv Es Ho. unfold Evaluate_config_if. rewrite version_characterized by done. cbn [Evaluate_config_if_bool]. f_equal.
  pose proof (ver_diff_compare v majv minv subv Hv Ho Es) as Hd. pose proof (scan_version majv minv subv Ho) as Hs. destruct Ho as (Ha & Hb & Hc).
  assert (scalar_of junk majv minv subv = version_scalar majv minv subv) as Hsc.
  { unfold scalar_of. rewrite !Z.gtb_ltb. repeat match goal with |- context [Z.ltb ?a ?b] => destruct (Z.ltb_spec a b); [lia|] end. done. }
  assert (∃ d r, version_text majv minv subv = d :: r ∧ is_digit d = true) as (d & r & E & Hdig) by (apply decimal_head; lia).
  assert ((majv <? 6) = false) as Hm by (apply Z.ltb_ge; lia). rewrite E in *. clear E.
  rewrite version_rest by done. rewrite Hs. destruct o; cbv beta iota zeta; rewrite Hm, Hsc, Hd; by destruct (version_compare v majv minv subv).
Qed.
Definition version_816 : VersionData := mkVersionData 8 1 6 8001006.
Lemma version_condition_witness : Evaluate_config_if (mkParams [] [] []) None version_816 0 (mkSet 0 false false true 0 [] None false None) (L "version >= 8.1.5")
  = (Valid true, mkSet 0 false false true 0 [] None false None).
Proof.
  exact (version_condition (mkParams [] [] []) None version_816 0 (mkSet 0 false false true 0 [] None false None) OGe 8 1 5
    ltac:(cbv; intuition congruence) eq_refl ltac:(cbv; intuition congruence)).
Defined.
