(* ===== verification/ConfigParse.v ===== *)
(** * Statements of the configuration

    [Parse_config_string] and [read_meta_config] of [condor_utils/config.cpp]: a text is
    split into lines, conditional lines are taken by [ConfigIf], and the others are assignments or
    uses of a named group of statements, which are texts of their own. *)

From Stdlib Require Import ZArith Lia Ascii.
From stdpp Require Import base gmap list numbers strings.
From S2P Require Import Prelude MyString JobAd DList StringList MacroText MacroSet MacroExpand MacroSpec MacroInsert ConfigIf ConfigCond.
Open Scope Z_scope.

Definition CONFIG_MAX_NESTING_DEPTH : nat := 20.
Definition is_blank (s : cstr) : bool := bool_decide (skip_while isspace s = []).

(** ** A line *)

(** The name ends at white space or an operator, which is taken off. *)
Fixpoint take_name (ptr : cstr) : cstr * option ascii * cstr :=
  match ptr with
  | [] => ([], None, [])
  | c :: ptr =>
      if isspace c || ISOP c then ([], Some c, ptr)
      else let '(name, op, rest) := take_name ptr in (c :: name, op, rest)
  end.
Definition is_op (op : option ascii) : bool := match op with Some c => ISOP c | None => false end.
(** The start of the value; a second operator makes the operator void. *)
Fixpoint skip_to_value (op : option ascii) (ptr : cstr) : option ascii * cstr :=
  match ptr with
  | [] => (op, [])
  | c :: rest =>
      if ISOP c then if is_op op then (None, ptr) else skip_to_value (Some c) rest
      else if negb (isspace c) then (op, ptr)
      else skip_to_value op rest
  end.
Inductive statement := Assign (name rhs : cstr) | Use (category rhs : cstr).
(** [None] when the line has no operator and no value. *)
Definition parse_statement (line : cstr) : option statement :=
  let is_meta := starts_with_ignore_case line (L "use ") in
  let ptr := if is_meta then skip_while isspace (drop 4 line) else line in
  let '(name, op, ptr) := take_name ptr in
  let '(op, rhs) := skip_to_value op ptr in
  if bool_decide (rhs = []) && negb (is_op op) then None
  else Some (if is_meta then Use name rhs else Assign name rhs).

Section Parse.
Context (pt : ParamTables) (getenv : cstr → option cstr) (rnd : nat → Z) (fuel : nat) (subsys : option cstr).
Context (myversion : VersionData) (junk : Z).
Abbreviation cstate := (MACRO_SET * nat)%type.
Abbreviation test := (Test_config_if_expression pt getenv rnd fuel subsys myversion junk).

(** The returned code and the state. *)
Definition parse_statements (use : MACRO_SOURCE → cstate → cstr → cstr → outcome (Z * cstate))
  : MACRO_SOURCE → ConfigIfStack → cstate → list cstr → outcome (Z * cstate) :=
  fix go src k st lines :=
    match lines with
    | [] => Ok (0, st)
    | line :: lines =>
        let src := mkSource (inside src) (src_id src) (MacroSet.line src) (meta_id src) (meta_off src + 1) in
        if match line with c :: _ => c =c "#"%char | [] => false end || is_blank line then go src k st lines
        else
          '(msg, k, st) ← line_is_if test k st line;
          match msg with
          | Some [] => go src k st lines
          | Some _ => Ok (-1, st)
          | None =>
              if enabled k then
                match parse_statement line with
                | None => Ok (-1, st)
                | Some (Use category rhs) =>
                    '(ret, st) ← use src st category rhs;
                    if ret <? 0 then Ok (ret, st) else go src k st lines
                | Some (Assign name rhs) =>
                    if is_valid_param_name name then
                      s ← assign pt fuel name rhs st.1 src subsys; go src k (s, st.2) lines
                    else Ok (-1, st)
                end
              else go src k st lines
          end
    end.

Definition config_lines (config : cstr) : list cstr := from_option strings [] (StringList_new (Some config) (Some [NL])).
(** The items of [use category: items]. *)
Fixpoint use_items (parse : MACRO_SOURCE → cstate → cstr → outcome (Z * cstate)) (table : cstr * list MACRO_DEF_ITEM)
    (src : MACRO_SOURCE) (st : cstate) (items : list cstr) : outcome (Z * cstate) :=
  match items with
  | [] => Ok (0, st)
  | item :: items =>
      match param_meta_table_string table item with
      | None => Ok (-1, st)
      | Some value => '(ret, st) ← parse src st value; if ret <? 0 then Ok (ret, st) else use_items parse table src st items
      end
  end.
(** [source.meta_id], the place of the group in its table, is left out. *)
Definition read_meta_config (parse : MACRO_SOURCE → cstate → cstr → outcome (Z * cstate)) (src : MACRO_SOURCE) (st : cstate) (name rhs : cstr)
    : outcome (Z * cstate) :=
  match name with
  | [] => Ok (-1, st)
  | _ =>
      match param_meta_table pt name with
      | None => Ok (-1, st)
      | Some table => use_items parse table src st (from_option strings [] (StringList_new (Some rhs) (Some (L " ,"))))
      end
  end.
(** [levels] is how much deeper uses may be nested: [CONFIG_MAX_NESTING_DEPTH - depth]. *)
Fixpoint Parse_config_string (levels : nat) (src : MACRO_SOURCE) (st : cstate) (config : cstr) : outcome (Z * cstate) :=
  let use src st name rhs :=
    match levels with
    | O => Ok (-2, st)
    | S levels => read_meta_config (Parse_config_string levels) src st name rhs
    end in
  parse_statements use (mkSource (inside src) (src_id src) (MacroSet.line src) (meta_id src) (-1)) ConfigIfStack_new st (config_lines config).
End Parse.

(** ** Texts of assignments *)

Definition line_text (a : cstr * template) : cstr := a.1 ++ L " = " ++ print a.2.
Definition config_text (prog : list (cstr * template)) : cstr := join_with [NL] (line_text <$> prog).
(** The value that a reference to [n] has in the map [m]. *)
Definition ref_value (m : gmap cstr cstr) (x : seg) : cstr :=
  match x with
  | Ref n => default [] (m !! lower n)
  | RefD n d => colon_default (Some (default_text d)) (m !! lower n)
  | _ => seg_text x
  end.
Definition assigned_text (m : gmap cstr cstr) (a : cstr * template) : cstr :=
  a.2 ≫= fun x => if self_active a.1 None x then ref_value m x else seg_text x.
Definition assign_map (m : gmap cstr cstr) (a : cstr * template) : gmap cstr cstr := <[lower a.1 := assigned_text m a]> m.

(** Names outside of the tables of defaults; lines that are not taken for something else. *)
Record assignment_ok (pt : ParamTables) (a : cstr * template) : Prop := {
  a_name : a.1 ≠ [];
  a_valid : is_valid_param_name a.1 = true;
  a_default : default_of pt a.1 = None;
  a_string n : lower n = lower a.1 → param_default_string pt n None = None;
  a_self : Forall (self_ok a.1 None) a.2;
  a_start : match print a.2 with c :: _ => ISOP c = false ∧ isspace c = false | [] => True end;
  a_line : NL ∉ print a.2;
  a_other : other_line (line_text a);
  a_use : starts_with_ignore_case (line_text a) (L "use ") = false
}.

Lemma idchar_more c : condor_isidchar c = true → isspace c = false ∧ ISOP c = false ∧ (c =c NL) = false ∧ (c =c "#"%char) = false.
Proof. destruct c as [[] [] [] [] [] [] [] []]; vm_compute; auto; discriminate. Qed.
Lemma take_name_ok name c t : is_valid_param_name name = true → isspace c || ISOP c = true → take_name (name ++ c :: t) = (name, Some c, t).
Proof.
  intros Hn Hc. induction name as [|d name IH]; cbn [app take_name]; [by rewrite Hc|]. cbn [is_valid_param_name forallb] in Hn. apply andb_true_iff in Hn as [Hd Hn].
  destruct (idchar_more d Hd) as (-> & -> & _). cbn [orb]. by rewrite IH.
Qed.
Lemma parse_line pt a : assignment_ok pt a → parse_statement (line_text a) = Some (Assign a.1 (print a.2)).
Proof.
  intros Ha. destruct a as [name t]. unfold parse_statement. rewrite (a_use _ _ Ha). unfold line_text. cbn [fst snd]. unfold L at 1. cbn [String.list_ascii_of_string app].
  rewrite take_name_ok by (done || apply Ha). pose proof (a_start _ _ Ha) as Hs. cbn [snd] in Hs.
  assert (skip_to_value (Some SP) ("="%char :: SP :: print t) = (Some "="%char, print t)) as ->; [|by rewrite andb_false_r].
  cbn [skip_to_value is_op]. change (ISOP "="%char) with true. change (ISOP SP) with false. cbn iota. change (isspace SP) with true. cbn [negb].
  destruct (print t) as [|c r]; [done|]. destruct Hs as [H1 H2]. cbn [skip_to_value]. by rewrite H1, H2.
Qed.
Lemma line_start pt a : assignment_ok pt a → ∃ c r, line_text a = c :: r ∧ condor_isidchar c = true.
Proof.
  intros Ha. pose proof (a_name _ _ Ha) as Hn. pose proof (a_valid _ _ Ha) as Hv. destruct a as [[|c n] t]; [done|]. cbn in Hv. apply andb_true_iff in Hv as [Hv _].
  by exists c, (n ++ L " = " ++ print t).
Qed.
Lemma config_lines_text pt prog : Forall (assignment_ok pt) prog → config_lines (config_text prog) = line_text <$> prog.
Proof.
  intros Hp. unfold config_lines, config_text, StringList_new, initializeFromString. cbn [default from_option].
  rewrite init_loop_join; [exact (proj1 (strings_foldl_append (line_text <$> prog) (mkSL (mkSeq [] 0) [NL])))| | |lia].
  - apply Forall_fmap. eapply Forall_impl; [exact Hp|]. intros a Ha. cbn. split.
    + apply Forall_forall. intros c Hc. unfold isSeparator. cbn [m_delimiters existsb]. rewrite orb_false_r. unfold line_text in Hc.
      apply elem_of_app in Hc as [Hc|Hc]; [|apply elem_of_app in Hc as [Hc|Hc]].
      * pose proof (a_valid _ _ Ha) as Hv. apply forallb_Forall in Hv. eapply Forall_forall in Hv; [|done]. by destruct (idchar_more c Hv) as (_ & _ & ? & _).
      * revert Hc. unfold L. cbn. intros [->|[->|[->|?%elem_of_nil]%elem_of_cons]%elem_of_cons]%elem_of_cons; done.
      * pose proof (a_line _ _ Ha) as Hl. destruct (Ascii.eqb_spec c NL) as [->|]; done.
    + destruct (line_start pt a Ha) as (c & r & -> & Hc). by destruct (idchar_more c Hc) as (? & _).
  - split; [repeat constructor|done].
Qed.

Lemma self_subst pt s a : ms_ok s → assignment_ok pt a →
  (a.2 ≫= fun x => if self_active a.1 None x then self_text pt s None x else seg_text x) = assigned_text (macros s) a.
Proof.
  intros Hs Ha. unfold assigned_text. pose proof (a_self _ _ Ha) as Hok. pose proof (a_string _ _ Ha) as Hdef. destruct a as [name t]. cbn [fst snd] in *. clear Ha.
  induction Hok as [|x t [Hw _] Ht IH]; [done|]. cbn [mbind list_bind]. f_equal; [|exact IH]. destruct (self_active name None x) eqn:Hx; [|done].
  assert (∀ n, is_self name None n = true → param_default_string pt n None = None) as Hd.
  { intros n E. apply Hdef. rewrite is_self_None in E. by apply bool_decide_eq_true in E. }
  unfold self_text, self_value. destruct x as [|n|n d| |]; try done; cbn [self_active] in Hx; cbn [wf_seg] in Hw.
  - cbn [name_text]. rewrite split_colon_ref, lookup_None, Hd by done. cbn [ref_value]. destruct (macros s !! lower n); [done|]. by destruct (has_defaults s && _).
  - rewrite split_colon_refd, lookup_None, Hd by (done || apply Hw). cbn [ref_value]. destruct (macros s !! lower n) as [[|]|]; [done..|]. by destruct (has_defaults s && _).
Qed.

(** One assignment. *)
Lemma assign_step pt a s src fuel : assignment_ok pt a → ms_ok s → self_free s → (length a.2 < fuel)%nat →
  ∃ s', assign pt fuel a.1 (print a.2) s src None = Ok s' ∧ ms_ok s' ∧ self_free s' ∧ ∀ n, macros s' !! lower n = assign_map (macros s) a !! lower n.
Proof.
  intros Ha Hs Hfree Hf. pose proof (a_name _ _ Ha) as Hname. pose proof (a_default _ _ Ha) as Hd.
  destruct (expand_self_assign pt a.1 Hname s Hs Hfree) with (t := a.2) (fuel := fuel) as (o & E & Ho1 & Ho2 & _ & Ep); [|apply Ha|done|].
  { intros n v En. by rewrite (a_string _ _ Ha n En). }
  destruct (insert_correct pt a.1 s src o fuel) as (s' & Ei & H1 & H2 & H3); try done; [lia|by rewrite Hd|].
  exists s'. split; [unfold assign; rewrite E; exact Ei|]. split; [done|]. split; [done|]. rewrite (self_subst pt s a Hs Ha) in Ep.
  destruct H3 as [(v & Hv & Hm)|(_ & _ & _ & H3)]; [|by rewrite Hd in H3]. assert (v = assigned_text (macros s) a) as -> by (destruct Hv as [->|[_ Hv]]; [done|congruence]).
  intros n. rewrite Hm. unfold assign_map. case_decide as En; [by rewrite En, lookup_insert_eq|by rewrite lookup_insert_ne].
Qed.
(** Values depend only on what look-ups give. *)
Lemma assigned_same m m' a : (∀ n, m' !! lower n = m !! lower n) → assigned_text m' a = assigned_text m a.
Proof.
  intros Hm. unfold assigned_text. induction (a.2) as [|x t IH]; [done|]. cbn [mbind list_bind]. f_equal; [|exact IH]. destruct (self_active a.1 None x); [|done].
  destruct x; cbn [ref_value]; by rewrite ?Hm.
Qed.
Lemma assign_map_same prog : ∀ m m', (∀ n, m' !! lower n = m !! lower n) → ∀ n, foldl assign_map m' prog !! lower n = foldl assign_map m prog !! lower n.
Proof.
  induction prog as [|a prog IH]; intros m m' Hm; cbn [foldl]; [done|]. apply IH. intros n. unfold assign_map. rewrite (assigned_same m m') by done.
  destruct (decide (lower a.1 = lower n)) as [->|]; [by rewrite !lookup_insert_eq|]. by rewrite !lookup_insert_ne.
Qed.

Lemma line_kept pt a : assignment_ok pt a → match line_text a with c :: _ => c =c "#"%char | [] => false end || is_blank (line_text a) = false.
Proof.
  intros Ha. destruct (line_start pt a Ha) as (c & r & E & Hc). destruct (idchar_more c Hc) as (Hsp & _ & _ & Hsharp). rewrite E, Hsharp. cbn [orb].
  unfold is_blank. cbn [skip_while]. by rewrite Hsp, bool_decide_false.
Qed.
Lemma parse_statements_assigns pt getenv rnd fuel v junk use prog : Forall (assignment_ok pt) prog → Forall (fun a => length a.2 < fuel)%nat prog →
  ∀ sr s used, ms_ok s → self_free s →
  ∃ s', parse_statements pt getenv rnd fuel None v junk use sr ConfigIfStack_new (s, used) (line_text <$> prog) = Ok (0, (s', used)) ∧ ms_ok s' ∧ self_free s' ∧
    ∀ n, macros s' !! lower n = foldl assign_map (macros s) prog !! lower n.
Proof.
  intros Hok Hf. induction Hok as [|a prog Ha Hok IH]; intros sr s used Hs Hfree; [eauto|]. apply Forall_cons in Hf as [Hfa Hf].
  cbn [fmap list_fmap parse_statements foldl]. rewrite (line_kept pt a Ha), (line_other _ _ _ _ (a_other _ _ Ha)). cbn [mbind outcome_bind].
  change (enabled ConfigIfStack_new) with true. cbn iota. rewrite (parse_line pt a Ha), (a_valid _ _ Ha). cbn [fst snd].
  set (src := mkSource _ _ _ _ _). destruct (assign_step pt a s src fuel Ha Hs Hfree Hfa) as (s1 & E & Hs1 & Hf1 & Hm). rewrite E. cbn [mbind outcome_bind].
  destruct (IH Hf src s1 used Hs1 Hf1) as (s' & E' & ? & ? & Hm'). exists s'. split; [exact E'|]. split; [done|]. split; [done|].
  intros n. rewrite Hm'. by apply assign_map_same.
Qed.

(** ** Theorems *)

(** C11. A text of assignments.  The text has lines [NAME = value]; each name is a valid parameter name that has no entry in any table of
    defaults; each value is a text of references [$(NAME)], [$(NAME:default)], [$ENV(NAME)] and characters other than dollar signs, without a newline,
    that does not start with white space or an operator and does not mention the name itself in a default behind a colon; and no line is taken for
    a conditional or a [use].  There is no subsystem, and no macro of the table refers to itself before.
    Then the text is split into its lines, each line is taken apart and executed, and the table afterwards maps every
    name, without regard to case, to the text that was last assigned to it, with the references of the macro to
    itself replaced by its value at that point; other references are kept.  The table keeps its
    invariant, and no macro refers to itself.  (Values equal to a default can be dropped: [override_dropped].) *)
Theorem Parse_config_string_assigns (pt : ParamTables) (getenv : cstr → option cstr) (rnd : nat → Z) (fuel levels : nat) (v : VersionData) (junk : Z)
    (src : MACRO_SOURCE) (s : MACRO_SET) (used : nat) (prog : list (cstr * template)) :
  ms_ok s → self_free s → Forall (assignment_ok pt) prog → Forall (fun a => length a.2 < fuel)%nat prog →
  ∃ s', Parse_config_string pt getenv rnd fuel None v junk levels src (s, used) (config_text prog) = Ok (0, (s', used)) ∧ ms_ok s' ∧ self_free s' ∧
    ∀ n, macros s' !! lower n = foldl assign_map (macros s) prog !! lower n.
Proof.
  intros Hs Hfree Hok Hf. destruct levels; cbn [Parse_config_string]; rewrite (config_lines_text pt prog Hok); by apply parse_statements_assigns.
Qed.
Definition path_prog : list (cstr * template) := [(L "path", [Ref (L "Path"); Lit (L ":/usr")]); (L "Lib", [Ref (L "PATH"); Lit (L "/lib")]); (L "LIB", [Ref (L "lib"); Lit (L ":/lib")])].
Lemma path_prog_ok : Forall (assignment_ok no_params) path_prog.
Proof.
  repeat constructor; cbn [fst snd]; try done; try (by apply (bool_decide_unpack _)).
  all: intros n _; unfold param_default_string, param_default_lookup2, param_default_lookup; cbn; by destruct (strchr _ n).
Qed.
Lemma Parse_config_string_assigns_witness : ∃ s',
  Parse_config_string no_params (fun _ => None) (fun _ => 0) 5 None version_816 0 20 (mkSource false 0 1 (-1) (-2)) (path_set, O) (config_text path_prog) = Ok (0, (s', O)) ∧
    self_free s' ∧ (table s' = [mkItem (L "PATH") (L "/bin:/usr"); mkItem (L "Lib") (L "$(PATH)/lib:/lib")]).
Proof.
  destruct (Parse_config_string_assigns no_params (fun _ => None) (fun _ => 0) 5 20 version_816 0 (mkSource false 0 1 (-1) (-2)) path_set O path_prog) as (s' & E & _ & Hf & _).
  - exact (proj1 path_set_ok).
  - exact (proj2 path_set_ok).
  - exact path_prog_ok.
  - repeat constructor.
  - exists s'. split; [exact E|]. split; [exact Hf|]. revert E. vm_compute. intros [= <-]. reflexivity.
Defined.

(** A line with two operators, or with none, is not refused, contrary to the comments of the code. *)
Lemma two_operators : parse_statement (L "A == 5") = Some (Assign (L "A") (L "= 5")).
Proof. reflexivity. Qed.
Lemma missing_operator : parse_statement (L "FOO BAR") = Some (Assign (L "FOO") (L "BAR")).
Proof. reflexivity. Qed.
(** A line that starts with an operator has an empty name: the process stops at an assertion. *)
Lemma empty_name_aborts pt getenv rnd fuel v junk levels src st :
  Parse_config_string pt getenv rnd fuel None v junk levels src st (L "= 5") = Excepted.
Proof. by destruct levels. Qed.
(** A block that is not closed is not reported. *)
Lemma missing_endif pt getenv rnd fuel v junk levels src st :
  Parse_config_string pt getenv rnd (S fuel) None v junk levels src st (L "if true") = Ok (0, st).
Proof. destruct st as [s used]. by destruct levels. Qed.
