(* ===== verification/PriorityList.v ===== *)
(** * PriorityList

    The ready queue of DAGMan: [condor_utils/prioritysimplelist.h], the part of
    [condor_utils/simplelist.h] it inherits, and [condor_utils/binary_search.h].
    The arrays [items] and [priorities] are the lists of their first [size]
    elements; [current] is the cursor. *)
From stdpp Require Import base list sorting.
From Stdlib Require Import ZArith Lia.
From S2P Require Import Prelude.
Open Scope Z_scope.
Open Scope condor_scope.

(** ** Binary search *)

(** The loop of [Search]: whether the key is found, and the index; [fuel] bounds
    the rounds, and each round halves the interval. *)
Fixpoint Search_loop (fuel : nat) (array : list Z) (key low high : Z) : bool * Z :=
  match fuel with
  | O => (false, low)
  | S fuel =>
      if high <? low then (false, low)
      else
        let mid := low + (high - low) `quot` 2 in
        let midVal := nth (Z.to_nat mid) array 0 in
        if midVal <? key then Search_loop fuel array key (mid + 1) high
        else if key <? midVal then Search_loop fuel array key low (mid - 1)
        else (true, mid)
  end.
Definition Search (array : list Z) (key : Z) : bool * Z :=
  Search_loop (S (length array)) array key 0 (Z.of_nat (length array) - 1).

(** ** The list *)

Record PrioritySimpleList {A : Type} := mkPSL {
  maximum_size : Z;
  items : list A;
  priorities : list Z;
  current : Z;
}.
Arguments PrioritySimpleList : clear implicits.
Arguments mkPSL {_}.
#[export] Instance PSL_upd A : Updatable (PrioritySimpleList A) := fun l =>
  mkPSL (maximum_size l) (items l) (priorities l) (current l).

Section List.
Context {A : Type}.
Implicit Types l : PrioritySimpleList A.

Definition PSL_new : PrioritySimpleList A := mkPSL 1 [] [] (-1).
Definition Number l : Z := Z.of_nat (length (items l)).
Definition IsEmpty l : bool := Number l =? 0.
Definition Rewind l : PrioritySimpleList A := l <| current := -1 |>.
Definition Next l : option A * PrioritySimpleList A :=
  if Number l - 1 <=? current l then (None, l)
  else (items l !! Z.to_nat (current l + 1), l <| current ::= Z.add 1 |>).

Definition remove_nth {B} (i : nat) (xs : list B) : list B := take i xs ++ drop (S i) xs.
Definition DeleteCurrent l : PrioritySimpleList A :=
  if (Number l <=? current l) || (current l <? 0) then l
  else
    let i := Z.to_nat (current l) in
    l <| priorities ::= remove_nth i |> <| items ::= remove_nth i |> <| current ::= Z.pred |>.

(** [resize] of both classes. *)
Definition resize (newsize : Z) l : PrioritySimpleList A :=
  let size := Z.min (Number l) (newsize - 1) in
  l <| maximum_size := newsize |>
    <| items ::= take (Z.to_nat size) |> <| priorities ::= take (Z.to_nat size) |>
    <| current ::= fun c => if newsize - 1 <? c then newsize else c |>.

Definition InsertAt (index : Z) (item : A) (prio : Z) l : PrioritySimpleList A :=
  let l := if maximum_size l <=? Number l then resize (2 * maximum_size l) l else l in
  let i := Z.to_nat index in
  l <| items ::= fun xs => take i xs ++ item :: drop i xs |>
    <| priorities ::= fun ps => take i ps ++ prio :: drop i ps |>.

(** [for ( ; index >= 0; index-- ) if ( priorities[index] < priority ) break;]
    from index [n - 1]. *)
Fixpoint search_back (ps : list Z) (priority : Z) (n : nat) : Z :=
  match n with
  | O => -1
  | S m => if nth m ps 0 <? priority then Z.of_nat m else search_back ps priority m
  end.
Definition FindInsertBefore (priority : Z) l : Z :=
  let ps := priorities l in
  if IsEmpty l || (priority <=? nth 0 ps 0) then 0
  else
    let '(found, index) := Search ps priority in
    if found : bool then search_back ps priority (S (Z.to_nat index)) + 1 else index.

(** [for ( ; index < size; index++ ) if ( priorities[index] > priority ) break;],
    [ps] being the priorities from [index] on. *)
Fixpoint search_on (ps : list Z) (priority index : Z) : Z :=
  match ps with
  | [] => index
  | p :: ps => if priority <? p then index else search_on ps priority (index + 1)
  end.
Definition FindInsertAfter (priority : Z) l : Z :=
  let ps := priorities l in
  if IsEmpty l || (nth (length ps - 1) ps 0 <=? priority) then Number l
  else
    let '(found, index) := Search ps priority in
    if found : bool then search_on (drop (Z.to_nat index) ps) priority index else index.

Definition Append (item : A) (prio : Z) l : PrioritySimpleList A :=
  InsertAt (FindInsertAfter prio l) item prio l.
Definition Prepend (item : A) (prio : Z) l : PrioritySimpleList A :=
  InsertAt (FindInsertBefore prio l) item prio l.
End List.

(** ** Searching a sorted array *)

Definition sorted (ps : list Z) : Prop :=
  ∀ (i j : nat) x y, (i ≤ j)%nat → ps !! i = Some x → ps !! j = Some y → x ≤ y.

(** [i] splits the array at [key]: smaller priorities before, larger after. *)
Definition below (ps : list Z) (key : Z) (i : nat) : Prop := ∀ j x, ps !! j = Some x → (j < i)%nat → x < key.
Definition above (ps : list Z) (key : Z) (i : nat) : Prop := ∀ j x, ps !! j = Some x → (i ≤ j)%nat → key < x.

Lemma sorted_nth ps i : (i < length ps)%nat → ps !! i = Some (nth i ps 0).
Proof. intros Hi. destruct (lookup_lt_is_Some_2 ps i Hi) as [x Hx]. by rewrite (nth_lookup_Some _ _ _ _ Hx). Qed.

Lemma Search_loop_spec fuel ps key : ∀ low high,
  sorted ps → 0 ≤ low → high < Z.of_nat (length ps) → low ≤ high + 1 → high - low + 1 < Z.of_nat fuel →
  below ps key (Z.to_nat low) → above ps key (Z.to_nat (high + 1)) →
  let '(found, index) := Search_loop fuel ps key low high in
  0 ≤ index ≤ Z.of_nat (length ps) ∧
  if found : bool then ps !! Z.to_nat index = Some key
  else below ps key (Z.to_nat index) ∧ above ps key (Z.to_nat index).
Proof.
  induction fuel as [|fuel IH]; intros low high Hs Hl Hh Hlh Hf Hb Ha; [lia|]. cbn [Search_loop].
  destruct (Z.ltb_spec high low).
  { split; [lia|]. split; [done|]. by replace (high + 1) with low in Ha by lia. }
  set (mid := low + (high - low) `quot` 2).
  assert (low ≤ mid ≤ high) as Hm by (subst mid; Z.quot_rem_to_equations; lia). clearbody mid.
  pose proof (sorted_nth ps (Z.to_nat mid) ltac:(lia)) as Hmid. set (v := nth (Z.to_nat mid) ps 0) in *. clearbody v.
  destruct (Z.ltb_spec v key); [|destruct (Z.ltb_spec key v)].
  - apply IH; try lia; try done. intros j x Hj Hlt. pose proof (Hs j (Z.to_nat mid) x v ltac:(lia) Hj Hmid). lia.
  - apply IH; try lia; try done. intros j x Hj Hle.
    pose proof (Hs (Z.to_nat mid) j v x ltac:(lia) Hmid Hj). lia.
  - split; [lia|]. rewrite Hmid. f_equal. lia.
Qed.

Lemma Search_spec ps key : sorted ps →
  let '(found, index) := Search ps key in
  0 ≤ index ≤ Z.of_nat (length ps) ∧
  if found : bool then ps !! Z.to_nat index = Some key
  else below ps key (Z.to_nat index) ∧ above ps key (Z.to_nat index).
Proof.
  intros Hs. apply Search_loop_spec; [done|lia|lia|lia|lia| |].
  - intros j x _ Hj. lia.
  - intros j x Hj%lookup_lt_Some Hle. lia.
Qed.

(** The places where [Append] and [Prepend] insert. *)
Definition after_place (ps : list Z) (key : Z) (i : Z) : Prop :=
  0 ≤ i ≤ Z.of_nat (length ps) ∧ (∀ j x, ps !! j = Some x → (j < Z.to_nat i)%nat → x ≤ key) ∧ above ps key (Z.to_nat i).
Definition before_place (ps : list Z) (key : Z) (i : Z) : Prop :=
  0 ≤ i ≤ Z.of_nat (length ps) ∧ below ps key (Z.to_nat i) ∧ (∀ j x, ps !! j = Some x → (Z.to_nat i ≤ j)%nat → key ≤ x).

Lemma search_on_spec ps key : ∀ i, sorted ps → (i ≤ length ps)%nat →
  (∀ j x, ps !! j = Some x → (j < i)%nat → x ≤ key) → after_place ps key (search_on (drop i ps) key (Z.of_nat i)).
Proof.
  intros i Hs Hi Hb. remember (drop i ps) as r eqn:Hr. revert i Hi Hb Hr.
  induction r as [|p r IH]; intros i Hi Hb Hr; simpl.
  - assert (i = length ps) as -> by (apply (f_equal length) in Hr; rewrite length_drop in Hr; simpl in Hr; lia).
    repeat split; [lia|lia| |].
    + intros j x Hj _. eapply Hb; [exact Hj|]. by apply lookup_lt_Some in Hj.
    + intros j x Hj%lookup_lt_Some ?. lia.
  - assert (ps !! i = Some p) as Hp by (rewrite <- (Nat.add_0_r i), <- lookup_drop, <- Hr; done).
    assert (drop (S i) ps = r) as Hr' by (rewrite <- Nat.add_1_r, <- drop_drop, <- Hr; done).
    pose proof (lookup_lt_Some _ _ _ Hp).
    destruct (Z.ltb_spec key p).
    + repeat split; [lia|lia| |].
      * intros j x Hj Hlt. apply (Hb j x Hj). lia.
      * intros j x Hj Hle. pose proof (Hs i j p x ltac:(lia) Hp Hj). lia.
    + replace (Z.of_nat i + 1) with (Z.of_nat (S i)) by lia. apply IH; [lia| |done].
      intros j x Hj Hlt. destruct (decide (j = i)) as [->|]; [by simplify_eq|]. apply (Hb j x Hj). lia.
Qed.

Lemma search_back_spec ps key n : sorted ps → (n ≤ length ps)%nat →
  (∀ j x, ps !! j = Some x → (n ≤ j)%nat → key ≤ x) → before_place ps key (search_back ps key n + 1).
Proof.
  intros Hs. induction n as [|m IH]; intros Hn Hb; simpl.
  - repeat split; [lia|lia| |]; [intros j x _ ?; lia|]. intros j x Hj _. eapply Hb; [exact Hj|lia].
  - pose proof (sorted_nth ps m ltac:(lia)) as Hm. destruct (Z.ltb_spec (nth m ps 0) key) as [Hlt|Hge].
    + repeat split; [lia|lia| |].
      * intros j x Hj Hle. pose proof (Hs j m x _ ltac:(lia) Hj Hm). lia.
      * intros j x Hj Hle. apply (Hb j x Hj). lia.
    + apply IH; [lia|]. intros j x Hj Hle. destruct (decide (j = m)) as [->|]; [|apply (Hb j x Hj); lia].
      rewrite Hm in Hj. by injection Hj as <-.
Qed.

Section Spec.
Context {A : Type}.
Implicit Types l : PrioritySimpleList A.

Definition list_ok l : Prop :=
  length (priorities l) = length (items l) ∧ 1 ≤ maximum_size l ∧ Number l ≤ maximum_size l.

Lemma FindInsertAfter_place key l :
  list_ok l → sorted (priorities l) → after_place (priorities l) key (FindInsertAfter key l).
Proof.
  intros (Hl & Hm & Hn) Hs. unfold FindInsertAfter, IsEmpty, Number.
  destruct (Z.eqb_spec (Z.of_nat (length (items l))) 0) as [E|E]; simpl.
  { rewrite E. repeat split; [lia|lia| |]; intros j x Hj%lookup_lt_Some; lia. }
  pose proof (sorted_nth (priorities l) (length (priorities l) - 1) ltac:(lia)) as Hlast.
  destruct (Z.leb_spec (nth (length (priorities l) - 1) (priorities l) 0) key) as [Hle|Hgt]; simpl.
  { repeat split; [lia|lia| |].
    - intros j x Hj Hlt. pose proof (lookup_lt_Some _ _ _ Hj). pose proof (Hs j (length (priorities l) - 1)%nat x _ ltac:(lia) Hj Hlast). lia.
    - intros j x Hj%lookup_lt_Some ?. lia. }
  pose proof (Search_spec (priorities l) key Hs) as Hsp. destruct (Search _ _) as [[] index]; destruct Hsp as [Hi Hk].
  - replace index with (Z.of_nat (Z.to_nat index)) at 2 by lia. apply search_on_spec; [done|lia|].
    intros j x Hj Hlt. apply (Hs j (Z.to_nat index) x key); [lia|done|done].
  - destruct Hk as [Hb Ha]. split; [lia|]. split; [|done]. intros j x Hj Hlt. pose proof (Hb j x Hj Hlt). lia.
Qed.

Lemma FindInsertBefore_place key l :
  list_ok l → sorted (priorities l) → before_place (priorities l) key (FindInsertBefore key l).
Proof.
  intros (Hl & Hm & Hn) Hs. unfold FindInsertBefore, IsEmpty, Number.
  destruct (Z.eqb_spec (Z.of_nat (length (items l))) 0) as [E|E]; simpl.
  { repeat split; [lia|lia| |]; intros j x Hj%lookup_lt_Some; lia. }
  pose proof (sorted_nth (priorities l) 0 ltac:(lia)) as H0.
  destruct (Z.leb_spec key (nth 0 (priorities l) 0)) as [Hle|Hgt]; simpl.
  { repeat split; [lia|lia| |]; [intros j x _ ?; lia|].
    intros j x Hj _. pose proof (Hs 0%nat j _ x ltac:(lia) H0 Hj). lia. }
  pose proof (Search_spec (priorities l) key Hs) as Hsp. destruct (Search _ _) as [[] index]; destruct Hsp as [Hi Hk].
  - pose proof (lookup_lt_Some _ _ _ Hk). apply (search_back_spec _ _ (S (Z.to_nat index))); [done|lia|].
    intros j x Hj Hle. apply (Hs (Z.to_nat index) j key x); [lia|done|done].
  - destruct Hk as [Hb Ha]. split; [lia|]. split; [done|]. intros j x Hj Hle. pose proof (Ha j x Hj Hle). lia.
Qed.

(** The pairs of an item and its priority. *)
Definition entries l : list (A * Z) := zip (items l) (priorities l).

Lemma zip_split_at (xs : list A) (ps : list Z) i x p : length xs = length ps →
  zip (take i xs ++ x :: drop i xs) (take i ps ++ p :: drop i ps) =
  take i (zip xs ps) ++ (x, p) :: drop i (zip xs ps).
Proof.
  revert xs ps. induction i as [|i IH]; intros [|y xs] [|q ps] [=]; simpl; try done.
  by rewrite IH.
Qed.

Lemma InsertAt_entries i x p l :
  list_ok l → 0 ≤ i ≤ Number l →
  entries (InsertAt i x p l) = take (Z.to_nat i) (entries l) ++ (x, p) :: drop (Z.to_nat i) (entries l) ∧
  list_ok (InsertAt i x p l) ∧ Number (InsertAt i x p l) = Number l + 1.
Proof.
  intros (Hl & Hm & Hn) Hi. unfold InsertAt, Number in *.
  destruct (Z.leb_spec (maximum_size l) (Z.of_nat (length (items l)))) as [Hfull|Hfree].
  - assert (Z.to_nat (Z.min (Z.of_nat (length (items l))) (2 * maximum_size l - 1)) = length (items l)) as Hsz by lia.
    unfold entries, list_ok, resize, Number; simpl. rewrite Hsz, (firstn_all (items l)), <- Hl, firstn_all.
    rewrite zip_split_at by done. rewrite !length_app. simpl. rewrite !length_take, !length_drop, Hl.
    split_and!; [done|lia|lia|lia|lia].
  - unfold entries, list_ok, Number; simpl. rewrite zip_split_at by done. rewrite !length_app. simpl.
    rewrite !length_take, !length_drop, Hl. split_and!; [done|lia|lia|lia|lia].
Qed.

(** Splitting the entries by a test that holds up to a place and fails from it on. *)
Lemma filter_split (P : A * Z → Prop) `{∀ e, Decision (P e)} (es : list (A * Z)) i :
  (∀ j e, es !! j = Some e → (j < i)%nat → P e) → (∀ j e, es !! j = Some e → (i ≤ j)%nat → ¬ P e) →
  filter P es = take i es ∧ filter (fun e => ¬ P e) es = drop i es.
Proof.
  revert i. induction es as [|e es IH]; intros i Hb Ha; [by rewrite take_nil, drop_nil|].
  destruct i as [|i]; simpl.
  - rewrite filter_cons_False by (apply (Ha 0%nat); [done|lia]).
    rewrite filter_cons_True by (apply (Ha 0%nat); [done|lia]).
    destruct (IH 0%nat) as [-> ->]; [intros; lia| |by rewrite take_0].
    intros j e' Hj _. apply (Ha (S j)); [done|lia].
  - assert (P e) by (apply (Hb 0%nat); [done|lia]).
    rewrite filter_cons_True by done. rewrite filter_cons_False by (intros Hn; by apply Hn).
    destruct (IH i) as [-> ->]; [..|done]; intros j e' Hj ?;
      [apply (Hb (S j))|apply (Ha (S j))]; done || lia.
Qed.

Lemma entries_snd l j e : length (priorities l) = length (items l) → entries l !! j = Some e →
  priorities l !! j = Some (snd e).
Proof. intros _ He. destruct e as [x p]. by apply lookup_zip_Some in He as [? ?]. Qed.

Lemma entries_priorities l : length (priorities l) = length (items l) → snd <$> entries l = priorities l.
Proof. intros Hl. apply snd_zip. lia. Qed.

(** Inserting at a place that keeps the order. *)
Lemma sorted_insert (ps : list Z) i p : sorted ps → (i ≤ length ps)%nat →
  (∀ j x, ps !! j = Some x → (j < i)%nat → x ≤ p) → (∀ j x, ps !! j = Some x → (i ≤ j)%nat → p ≤ x) →
  sorted (take i ps ++ p :: drop i ps).
Proof.
  intros Hs Hi Hb Ha a b x y Hab Hx Hy.
  assert (∀ k z, (take i ps ++ p :: drop i ps) !! k = Some z →
    ((k < i)%nat ∧ ps !! k = Some z) ∨ (k = i ∧ z = p) ∨ ((i < k)%nat ∧ ps !! (k - 1)%nat = Some z)) as Hk.
  { intros k z Hz. apply lookup_app_Some in Hz as [Hz|[Hlen Hz]].
    - left. apply lookup_take_Some in Hz as [Hz ?]. done.
    - rewrite length_take_le in Hlen, Hz by done. right. apply lookup_cons_Some in Hz as [[? <-]|[? Hz]].
      + left. split; [lia|done].
      + right. split; [lia|]. rewrite lookup_drop in Hz. rewrite <- Hz. f_equal. lia. }
  destruct (Hk a x Hx) as [[? Hx']|[[? ->]|[? Hx']]], (Hk b y Hy) as [[? Hy']|[[? ->]|[? Hy']]]; try lia.
  - by apply (Hs a b).
  - apply (Hb a); done || lia.
  - apply (Hs a (b - 1)%nat); done || lia.
  - apply (Ha (b - 1)%nat); done || lia.
  - apply (Hs (a - 1)%nat (b - 1)%nat); done || lia.
Qed.

Lemma InsertAt_sorted i x p l :
  list_ok l → 0 ≤ i ≤ Number l → sorted (priorities l) →
  (∀ j q, priorities l !! j = Some q → (j < Z.to_nat i)%nat → q ≤ p) →
  (∀ j q, priorities l !! j = Some q → (Z.to_nat i ≤ j)%nat → p ≤ q) →
  sorted (priorities (InsertAt i x p l)).
Proof.
  intros Hok Hi Hs Hb Ha. destruct (InsertAt_entries i x p l Hok Hi) as (He & (Hl & _) & _).
  rewrite <- entries_priorities, He by done. destruct Hok as (Hl0 & _).
  rewrite fmap_app, fmap_cons, fmap_take, fmap_drop, entries_priorities by done.
  apply sorted_insert; [done|unfold Number in Hi; lia|done|done].
Qed.
End Spec.

(** ** Theorems *)

(** C38. Binary search finds the places of a stable priority queue: in a list in
    order of its priorities, [Append] inserts after all the entries of the same
    or a better (smaller) priority and before all the others, [Prepend] before
    all the entries of the same or a worse priority; the list stays in order and
    within its capacity. *)
Theorem priority_insert_spec {A} (l : PrioritySimpleList A) x p :
  list_ok l → sorted (priorities l) →
  (entries (Append x p l) =
     filter (fun e => snd e ≤ p) (entries l) ++ (x, p) :: filter (fun e => ¬ snd e ≤ p) (entries l) ∧
   list_ok (Append x p l) ∧ sorted (priorities (Append x p l))) ∧
  (entries (Prepend x p l) =
     filter (fun e => snd e < p) (entries l) ++ (x, p) :: filter (fun e => ¬ snd e < p) (entries l) ∧
   list_ok (Prepend x p l) ∧ sorted (priorities (Prepend x p l))).
Proof.
  intros Hok Hs. pose proof (proj1 Hok) as Hl. split.
  - destruct (FindInsertAfter_place p l Hok Hs) as (Hi & Hb & Ha).
    assert (0 ≤ FindInsertAfter p l ≤ Number l) as Hi' by (unfold Number; lia).
    destruct (InsertAt_entries _ x p l Hok Hi') as (He & Hok' & _).
    destruct (filter_split (fun e => snd e ≤ p) (entries l) (Z.to_nat (FindInsertAfter p l))) as [-> ->].
    + intros j e Hj%entries_snd Hlt; [by eapply Hb|done].
    + intros j e Hj%entries_snd Hle; [pose proof (Ha _ _ Hj Hle); lia|done].
    + split_and!; [done|done|]. apply InsertAt_sorted; [done..|].
      intros j q Hj Hle. pose proof (Ha _ _ Hj Hle). lia.
  - destruct (FindInsertBefore_place p l Hok Hs) as (Hi & Hb & Ha).
    assert (0 ≤ FindInsertBefore p l ≤ Number l) as Hi' by (unfold Number; lia).
    destruct (InsertAt_entries _ x p l Hok Hi') as (He & Hok' & _).
    destruct (filter_split (fun e => snd e < p) (entries l) (Z.to_nat (FindInsertBefore p l))) as [-> ->].
    + intros j e Hj%entries_snd Hlt; [by eapply Hb|done].
    + intros j e Hj%entries_snd Hle; [pose proof (Ha _ _ Hj Hle); lia|done].
    + split_and!; [done|done|]. apply InsertAt_sorted; [done..| |done].
      intros j q Hj Hle. pose proof (Hb _ _ Hj Hle). lia.
Qed.

Lemma priority_insert_spec_witness :
  entries (Append 9%nat 2 (mkPSL 4 [1; 2; 3]%nat [0; 2; 5] (-1))) =
    [(1%nat, 0); (2%nat, 2); (9%nat, 2); (3%nat, 5)].
Proof.
  destruct (priority_insert_spec (mkPSL 4 [1; 2; 3]%nat [0; 2; 5] (-1)) 9%nat 2) as [(-> & _) _].
  - vm_compute. split_and!; congruence.
  - intros i j x y Hij Hx Hy. destruct i as [|[|[|i]]], j as [|[|[|j]]]; simplify_eq/=; lia.
  - reflexivity.
Defined.
