(* ===== verification/Dag.v ===== *)
(** * Dag

    DAGMan, the scheduler of workflows: the nodes of a DAG and their scripts
    ([condor_dagman/job.cpp], [script.cpp]), the queues of scripts
    ([scriptQ.cpp]), the graph, its events and the submission of ready nodes
    ([dag.cpp]), and the timer that drives it ([dagman_main.cpp]).

    A node is named by its [JobID_t], and a [Job*] is that name; the table
    [_nodeIDHash] holds the nodes.  What DAGMan asks of its surroundings (the
    exit of condor_submit, a new process, the halt file, the clock) is a [World],
    whose answers may depend on the state.  The events that DAGMan writes to the
    user log and reads back are [userlog].

    Not in the model: the text of messages and of [error_text], the jobstate log,
    the metrics and the status file, which are only written; the look-up of the node
    of an event, which comes with its node, and the ID that a skipped node gets,
    which is not submitted again; Stork and no-op nodes; splices. *)
From stdpp Require Import base gmap list sorting strings.
From Stdlib Require Import ZArith Lia.
From S2P Require Import Prelude PriorityList.
Open Scope Z_scope.
Open Scope condor_scope.

(** ** Nodes *)

Abbreviation JobID_t := Z.

Inductive status_t :=
| STATUS_NOT_READY | STATUS_READY | STATUS_PRERUN | STATUS_SUBMITTED | STATUS_POSTRUN
| STATUS_DONE | STATUS_ERROR.
#[export] Instance status_eq : EqDecision status_t.
Proof. solve_decision. Defined.

Record Script := mkScript {
  _retValScript : Z;
  _retValJob : Z;
  _pid : Z;
  _done : bool;
}.
#[export] Instance Script_upd : Updatable Script := fun s =>
  mkScript (_retValScript s) (_retValJob s) (_pid s) (_done s).
Definition Script_new : Script := mkScript (-1) (-1) 0 false.

(** The queues are sets of node IDs; a value that "have_..." says is not set is
    [None].  [_cluster] is the cluster of [_CondorID], which is -1 by default. *)
Record Job := mkJob {
  _Status : status_t;
  Q_PARENTS : gset JobID_t;
  Q_WAITING : gset JobID_t;
  Q_CHILDREN : gset JobID_t;
  _final : bool;
  _scriptPre : option Script;
  _scriptPost : option Script;
  _preskip : option Z;
  retry_max : Z;
  retries : Z;
  _submitTries : Z;
  retval : Z;
  retry_abort_val : option Z;
  abort_dag_val : option Z;
  abort_dag_return_val : option Z;
  countedAsDone : bool;
  _visited : bool;
  _dfsOrder : Z;
  varsFromDag : list (cstr * cstr);
  _queuedNodeJobProcs : Z;
  _hasNodePriority : bool;
  _nodePriority : Z;
  _throttleInfo : option cstr;
  _isIdle : bool;
  _timesHeld : Z;
  _jobProcsOnHold : Z;
  _onHold : list bool;
  _cluster : Z;
}.
#[export] Instance Job_upd : Updatable Job := fun j =>
  mkJob (_Status j) (Q_PARENTS j) (Q_WAITING j) (Q_CHILDREN j) (_final j) (_scriptPre j) (_scriptPost j)
    (_preskip j) (retry_max j) (retries j) (_submitTries j) (retval j) (retry_abort_val j)
    (abort_dag_val j) (abort_dag_return_val j) (countedAsDone j) (_visited j) (_dfsOrder j)
    (varsFromDag j) (_queuedNodeJobProcs j) (_hasNodePriority j) (_nodePriority j) (_throttleInfo j)
    (_isIdle j) (_timesHeld j) (_jobProcsOnHold j) (_onHold j) (_cluster j).

Definition Job_new : Job :=
  mkJob STATUS_READY ∅ ∅ ∅ false None None None 0 0 0 (-1) None None None false false (-1) [] 0 false 0
    None false 0 0 [] (-1).

Definition CanSubmit (j : Job) : bool := bool_decide (Q_WAITING j = ∅) && bool_decide (_Status j = STATUS_READY).

(** A set in the order in which [std::set] iterates over it. *)
Definition set_list (s : gset JobID_t) : list JobID_t := merge_sort Z.le (elements s).

Definition Cleanup (j : Job) : Job := j <| _onHold := [] |>.
Definition TerminateSuccess (j : Job) : Job := Cleanup j <| _Status := STATUS_DONE |>.
Definition TerminateFailure (j : Job) : Job := Cleanup j <| _Status := STATUS_ERROR |>.

(** [_onHold] is a vector of flags that grows; the callers exclude a negative
    index, which is undefined. *)
Definition Hold (proc : Z) (j : Job) : bool * Job :=
  let i := Z.to_nat proc in
  let flags := _onHold j ++ replicate (S i - length (_onHold j)) false in
  if default false (flags !! i) then (false, j <| _onHold := flags |>)
  else (true, j <| _onHold := <[i := true]> flags |> <| _jobProcsOnHold ::= Z.succ |> <| _timesHeld ::= Z.succ |>).
Definition Release (proc : Z) (j : Job) : bool * Job :=
  if Z.of_nat (length (_onHold j)) <=? proc then (false, j)
  else if default false (_onHold j !! Z.to_nat proc)
  then (true, j <| _onHold ::= insert (Z.to_nat proc) false |> <| _jobProcsOnHold ::= Z.pred |>)
  else (false, j).

(** ** The DAG *)

Record ThrottleInfo := mkThrottle { _maxJobs : Z; _currentJobs : Z }.
#[export] Instance ThrottleInfo_upd : Updatable ThrottleInfo := fun t => mkThrottle (_maxJobs t) (_currentJobs t).
Definition noThrottleSetting : Z := -1.
Definition isSet (t : ThrottleInfo) : bool := negb (_maxJobs t =? noThrottleSetting).

Record ScriptQ := mkScriptQ {
  _numScriptsRunning : Z;
  _scriptPidTable : gmap Z JobID_t;
  _waitingQueue : list JobID_t;
  _scriptDeferredCount : Z;
}.
#[export] Instance ScriptQ_upd : Updatable ScriptQ := fun q =>
  mkScriptQ (_numScriptsRunning q) (_scriptPidTable q) (_waitingQueue q) (_scriptDeferredCount q).
Definition ScriptQ_new : ScriptQ := mkScriptQ 0 ∅ [] 0.

Inductive dag_status :=
| DAG_STATUS_OK | DAG_STATUS_ERROR | DAG_STATUS_NODE_FAILED | DAG_STATUS_ABORT | DAG_STATUS_RM
| DAG_STATUS_CYCLE | DAG_STATUS_HALTED.
#[export] Instance dag_status_eq : EqDecision dag_status.
Proof. solve_decision. Defined.

(** The events of the user log that concern a node; [JobIdleEvent] stands for
    the evicted, suspended, reconnect-failed and shadow-exception events and
    [JobRunEvent] for the execute and unsuspended ones, which are treated alike. *)
Inductive ULogEvent :=
| SubmitEvent (submitEventIsSane : bool)
| ExecutableErrorEvent
| JobAbortedEvent (proc : Z)
| JobTerminatedEvent (proc : Z) (normal : bool) (returnValue signalNumber : Z)
| PostScriptTerminatedEvent (normal : bool) (returnValue signalNumber : Z)
| JobIdleEvent
| JobRunEvent
| JobHeldEvent (proc : Z)
| JobReleasedEvent (proc : Z)
| PreSkipEvent
| OtherEvent.
#[export] Instance ULogEvent_eq : EqDecision ULogEvent.
Proof. solve_decision. Defined.

(** [_jobs] is the order of the nodes.  [inShutdownRescue] is the static variable
    of [main_shutdown_rescue]. *)
Record Dag := mkDag {
  _jobs : list JobID_t;
  _nodeIDHash : gmap JobID_t Job;
  _final_job : option JobID_t;
  _readyQ : PrioritySimpleList JobID_t;
  _submitQ : list JobID_t;
  _throttles : gmap cstr ThrottleInfo;
  _preScriptQ : ScriptQ;
  _postScriptQ : ScriptQ;
  userlog : list (JobID_t * ULogEvent);
  _numNodesDone : Z;
  _numNodesFailed : Z;
  _numJobsSubmitted : Z;
  _numIdleJobProcs : Z;
  _numHeldJobProcs : Z;
  _preRunNodeCount : Z;
  _postRunNodeCount : Z;
  _maxJobsDeferredCount : Z;
  _maxIdleDeferredCount : Z;
  _catThrottleDeferredCount : Z;
  _nextSubmitTime : Z;
  _nextSubmitDelay : Z;
  _dagIsHalted : bool;
  _dagIsAborted : bool;
  _finalNodeRun : bool;
  _dagStatus : dag_status;
  inShutdownRescue : bool;
  DFS_ORDER : Z;
  _condorIDHash : gmap Z JobID_t;
}.
#[export] Instance Dag_upd : Updatable Dag := fun d =>
  mkDag (_jobs d) (_nodeIDHash d) (_final_job d) (_readyQ d) (_submitQ d) (_throttles d) (_preScriptQ d)
    (_postScriptQ d) (userlog d) (_numNodesDone d) (_numNodesFailed d) (_numJobsSubmitted d)
    (_numIdleJobProcs d) (_numHeldJobProcs d) (_preRunNodeCount d) (_postRunNodeCount d)
    (_maxJobsDeferredCount d) (_maxIdleDeferredCount d) (_catThrottleDeferredCount d)
    (_nextSubmitTime d) (_nextSubmitDelay d) (_dagIsHalted d) (_dagIsAborted d) (_finalNodeRun d)
    (_dagStatus d) (inShutdownRescue d) (DFS_ORDER d) (_condorIDHash d).
Definition Dag_new : Dag :=
  mkDag [] ∅ None PSL_new [] ∅ ScriptQ_new ScriptQ_new [] 0 0 0 0 0 0 0 0 0 0 0 1 false false false
    DAG_STATUS_OK false 0 ∅.

(** The parameters of the constructor and of [Dagman]. *)
Record DagConfig := mkConfig {
  _maxJobsSubmitted : Z;
  _maxIdleJobProcs : Z;
  _maxPreScripts : Z;
  _maxPostScripts : Z;
  _maxJobHolds : Z;
  m_retrySubmitFirst : bool;
  m_retryNodeFirst : bool;
  _alwaysRunPost : bool;
  _submitDepthFirst : bool;
  max_submits_per_interval : Z;
  max_submit_attempts : Z;
}.

(** ** The surroundings *)

(** [BackgroundRun] fails before or in [Create_Process], or starts a process.
    [condor_submit] gives the cluster of the job it submits.  [write_rounds] is the
    number of rounds that are followed of a loop that has no bound. *)
Inductive spawn := NoDirectory | Created (pid : Z).
Record World := mkWorld {
  BackgroundRun : Dag → JobID_t → bool → spawn;
  MonitorLogFile : Dag → JobID_t → bool;
  runSubmitDag : Dag → JobID_t → bool;
  condor_submit : Dag → JobID_t → option Z;
  writePreSkipEvent : Dag → JobID_t → bool;
  writeEvent : Dag → JobID_t → nat → bool;
  write_rounds : nat;
  now : Z;
  haltFile : bool;
  TotalLogFileCount : Z;
}.

(** The exit status of a process. *)
Definition WTERMSIG (status : Z) : Z := Z.land status 127.
Definition WIFSIGNALED (status : Z) : bool := (0 <? WTERMSIG status) && (WTERMSIG status <? 127).
Definition WEXITSTATUS (status : Z) : Z := Z.land (Z.shiftr status 8) 255.

(** ** Computations

    A run ends normally, leaves the process through [DC_Exit], or aborts: a failed
    ASSERT, an EXCEPT, or a null pointer that is dereferenced.  [OutOfFuel] ends a
    recursion that is not bounded. *)
Inductive outcome (A : Type) :=
| Done (a : A) (d : Dag)
| Exit (code : Z) (d : Dag)
| Abort
| OutOfFuel.
Arguments Done {_}. Arguments Exit {_}. Arguments Abort {_}. Arguments OutOfFuel {_}.
Definition D (A : Type) : Type := Dag → outcome A.
#[export] Instance D_ret : MRet D := fun A a d => Done a d.
#[export] Instance D_bind : MBind D := fun A B k m d =>
  match m d with
  | Done a d' => k a d'
  | Exit c d' => Exit c d'
  | Abort => Abort
  | OutOfFuel => OutOfFuel
  end.
Definition EXCEPT {A} : D A := fun _ => Abort.
Definition DC_Exit {A} (code : Z) : D A := fun d => Exit code d.
Definition getDag : D Dag := fun d => Done d d.
Definition modDag (f : Dag → Dag) : D unit := fun d => Done tt (f d).
Definition ASSERT (b : bool) : D unit := if b then mret tt else EXCEPT.
Definition when (b : bool) (m : D unit) : D unit := if b then m else mret tt.
Fixpoint for_each {A} (l : list A) (f : A → D unit) : D unit :=
  match l with [] => mret tt | x :: l => f x;; for_each l f end.

(** [FindNodeByNodeID]; the result is dereferenced. *)
Definition getJob (n : JobID_t) : D Job := fun d =>
  match _nodeIDHash d !! n with Some j => Done j d | None => Abort end.
Definition modJob (n : JobID_t) (f : Job → Job) : D unit :=
  j ← getJob n; modDag (fun d => d <| _nodeIDHash ::= insert n (f j) |>).
Definition SetStatus (n : JobID_t) (s : status_t) : D unit := modJob n (fun j => j <| _Status := s |>).

(** ** Building the graph *)

(** [Job::AddChild] and [Job::AddParent]; the strictness of warnings is not
    modelled. *)
Definition AddChild (parent child : JobID_t) : D bool :=
  p ← getJob parent;
  if _final p then mret false
  else modJob parent (fun j => j <| Q_CHILDREN ::= union {[child]} |>);; mret true.
Definition AddParent (child parent : JobID_t) : D bool :=
  c ← getJob child; p ← getJob parent;
  if _final c then mret false
  else if bool_decide (_Status c ≠ STATUS_READY) && bool_decide (_Status p ≠ STATUS_DONE) then mret false
  else if bool_decide (parent ∈ Q_PARENTS c) then mret true
  else
    modJob child (fun j => j <| Q_PARENTS ::= union {[parent]} |>);;
    (if bool_decide (_Status p ≠ STATUS_DONE)
     then
       (** A waiting parent that is not a parent is an EXCEPT. *)
       c ← getJob child; ASSERT (bool_decide (parent ∉ Q_WAITING c));;
       modJob child (fun j => j <| Q_WAITING ::= union {[parent]} |>)
     else mret tt);;
    mret true.
Definition RemoveChild (parent child : JobID_t) : D bool :=
  p ← getJob parent;
  if bool_decide (child ∈ Q_CHILDREN p)
  then modJob parent (fun j => j <| Q_CHILDREN ::= fun s => s ∖ {[child]} |>);; mret true
  else mret false.
Definition AddDependency (parent child : JobID_t) : D bool :=
  ok ← AddChild parent child;
  if negb ok then mret false else
  ok ← AddParent child parent;
  if negb ok then (ok ← RemoveChild parent child; ASSERT ok;; mret false) else mret true.

(** [Dag::Add]: [rejectDuplicateKeys] makes the insertion of a known ID fail. *)
Definition Add (n : JobID_t) (j : Job) : D bool :=
  d ← getDag;
  ASSERT (bool_decide (_nodeIDHash d !! n = None));;
  if _final j && bool_decide (_final_job d ≠ None)
  then modDag (fun d => d <| _nodeIDHash ::= insert n j |>);; mret false
  else
    let j := if _final j then j <| _Status := STATUS_NOT_READY |> else j in
    modDag (fun d => d <| _nodeIDHash ::= insert n j |> <| _jobs ::= fun l => l ++ [n] |>
                       <| _final_job ::= fun f => if _final j then Some n else f |>);;
    mret true.

(** The DONE line of a DAG file, and of a rescue DAG. *)
Definition parse_done (n : JobID_t) : D bool :=
  j ← getJob n;
  when (negb (_final j)) (SetStatus n STATUS_DONE);; mret true.

(** [ThrottleByCategory::SetThrottle], which calls [AddCategory], and the CATEGORY
    line with [Job::SetCategory]. *)
Definition SetThrottle (c : cstr) (maxJobs : Z) : D unit :=
  modDag (fun d => d <| _throttles ::= insert c
    (match _throttles d !! c with
     | None => mkThrottle maxJobs 0
     | Some t => t <| _maxJobs := maxJobs |>
     end) |>).
Definition SetCategory (n : JobID_t) (c : cstr) : D bool :=
  j ← getJob n;
  if _final j then mret false
  else
    d ← getDag;
    when (bool_decide (_throttles d !! c = None))
      (modDag (fun d => d <| _throttles ::= insert c (mkThrottle noThrottleSetting 0) |>));;
    modJob n (fun j => j <| _throttleInfo := Some c |>);; mret true.

(** The lines of a DAG file.  A node comes with the attributes that other lines give
    it (scripts, retries, priority, ...); a line that fails ends the program. *)
Inductive line :=
| JOB (n : JobID_t) (j : Job)
| PARENT_CHILD (parent child : JobID_t)
| DONE (n : JobID_t)
| CATEGORY (n : JobID_t) (c : cstr)
| MAXJOBS (c : cstr) (value : Z).
Definition parse_line (l : line) : D bool :=
  match l with
  | JOB n j => Add n j
  | PARENT_CHILD p c => AddDependency p c
  | DONE n => parse_done n
  | CATEGORY n c => SetCategory n c
  | MAXJOBS c v => if v <? 0 then mret false else SetThrottle c v;; mret true
  end.
Fixpoint parse (ls : list line) : D bool :=
  match ls with
  | [] => mret true
  | l :: ls => ok ← parse_line l; if ok : bool then parse ls else mret false
  end.

(** ** Cycles *)

(** [DFSVisit]; each visit marks a node, so that the number of nodes bounds the
    depth. *)
Fixpoint DFSVisit (fuel : nat) (n : JobID_t) : D unit :=
  match fuel with
  | O => fun _ => OutOfFuel
  | S fuel =>
      d ← getDag;
      match _nodeIDHash d !! n with
      | None => mret tt
      | Some j =>
          if _visited j then mret tt
          else
            modJob n (fun j => j <| _visited := true |>);;
            for_each (set_list (Q_CHILDREN j)) (DFSVisit fuel);;
            modDag (fun d => d <| DFS_ORDER ::= Z.succ |>);;
            d ← getDag;
            modJob n (fun j => j <| _dfsOrder := DFS_ORDER d |>)
      end
  end.

Definition number_root (n : JobID_t) : D unit :=
  j ← getJob n; d ← getDag;
  when (negb (_visited j) && bool_decide (Q_PARENTS j = ∅)) (DFSVisit (S (size (_nodeIDHash d))) n).
(** Whether an edge from [j] goes to a node that is not numbered before it. *)
Fixpoint back_edge (j : Job) (children : list JobID_t) : D bool :=
  match children with
  | [] => mret false
  | c :: children => jc ← getJob c; b ← back_edge j children; mret ((_dfsOrder j <=? _dfsOrder jc) || b)
  end.
Fixpoint back_edges (ns : list JobID_t) : D bool :=
  match ns with
  | [] => mret false
  | n :: ns => j ← getJob n; b ← back_edge j (set_list (Q_CHILDREN j)); c ← back_edges ns; mret (b || c)
  end.
Definition isCycle : D bool :=
  modDag (fun d => d <| DFS_ORDER := 0 |>);;
  d ← getDag;
  for_each (_jobs d) number_root;;
  back_edges (_jobs d).

(** ** Counters *)

Definition NumNodes (includeFinal : bool) (d : Dag) : Z :=
  Z.of_nat (length (_jobs d)) - (if negb includeFinal && bool_decide (_final_job d ≠ None) then 1 else 0).
Definition final_status (d : Dag) : option status_t :=
  f ← _final_job d; j ← _nodeIDHash d !! f; Some (_Status j).
Definition NumNodesDone (includeFinal : bool) (d : Dag) : Z :=
  _numNodesDone d - (if negb includeFinal && bool_decide (final_status d = Some STATUS_DONE) then 1 else 0).
Definition NumNodesReady (d : Dag) : Z := Number (_readyQ d).
Definition ScriptRunNodeCount (d : Dag) : Z := _preRunNodeCount d + _postRunNodeCount d.
Definition NumScriptsRunning (d : Dag) : Z :=
  _numScriptsRunning (_preScriptQ d) + _numScriptsRunning (_postScriptQ d).

Definition FinishedRunning (includeFinal : bool) (d : Dag) : bool :=
  if includeFinal && bool_decide (_final_job d ≠ None) && negb (_finalNodeRun d) then false
  else if _dagIsHalted d then (_numJobsSubmitted d =? 0) && (NumScriptsRunning d =? 0)
  else (_numJobsSubmitted d =? 0) && (NumNodesReady d =? 0) && (ScriptRunNodeCount d =? 0).
Definition DoneSuccess (includeFinal : bool) (d : Dag) : bool :=
  if negb (FinishedRunning includeFinal d) then false
  else if NumNodesDone includeFinal d =? NumNodes includeFinal d then true
  else if includeFinal && bool_decide (final_status d = Some STATUS_DONE) then true
  else _dagIsAborted d && bool_decide (_dagStatus d = DAG_STATUS_OK).
Definition DoneFailed (includeFinal : bool) (d : Dag) : bool :=
  if negb (FinishedRunning includeFinal d) then false
  else if includeFinal && bool_decide (final_status d = Some STATUS_DONE) then false
  else if _dagIsAborted d && bool_decide (_dagStatus d = DAG_STATUS_OK) then false
  else if _dagIsHalted d then true
  else 0 <? _numNodesFailed d.
Definition DoneCycle (includeFinal : bool) (d : Dag) : bool :=
  FinishedRunning includeFinal d && negb (DoneSuccess includeFinal d) && (_numNodesFailed d =? 0)
  && negb (_dagIsHalted d) && negb (_dagIsAborted d).

Definition UpdateJobCounts (n : JobID_t) (change : Z) : D unit :=
  modDag (fun d => d <| _numJobsSubmitted ::= Z.add change |>);;
  d ← getDag; ASSERT (0 <=? _numJobsSubmitted d);;
  j ← getJob n;
  match _throttleInfo j with
  | None => mret tt
  | Some c =>
      match _throttles d !! c with
      | None => EXCEPT
      | Some t =>
          let t := t <| _currentJobs ::= Z.add change |> in
          modDag (fun d => d <| _throttles ::= insert c t |>);;
          ASSERT (0 <=? _currentJobs t)
      end
  end.
Definition DecrementJobCounts (n : JobID_t) : D unit :=
  modJob n (fun j => j <| _queuedNodeJobProcs ::= Z.pred |>);;
  j ← getJob n;
  ASSERT (0 <=? _queuedNodeJobProcs j);;
  when (_queuedNodeJobProcs j =? 0) (UpdateJobCounts n (-1)).

(** A node has failed for good. *)
Definition node_failed : D unit :=
  modDag (fun d => d <| _numNodesFailed ::= Z.succ |>
    <| _dagStatus ::= fun s => if bool_decide (s = DAG_STATUS_OK) then DAG_STATUS_NODE_FAILED else s |>).

Section Run.
Variable cfg : DagConfig.
Variable w : World.

Definition ready_first (n : JobID_t) : D unit :=
  j ← getJob n; modDag (fun d => d <| _readyQ ::= Prepend n (- _nodePriority j) |>).
Definition ready_last (n : JobID_t) : D unit :=
  j ← getJob n; modDag (fun d => d <| _readyQ ::= Append n (- _nodePriority j) |>).

(** [Job::FixPriority]: a parent with a higher priority gives it to the node. *)
Definition FixPriority (n : JobID_t) : D unit :=
  j ← getJob n;
  for_each (set_list (Q_PARENTS j)) (fun p =>
    parent ← getJob p;
    modJob n (fun j =>
      if _hasNodePriority parent && (_nodePriority j <? _nodePriority parent)
      then j <| _nodePriority := _nodePriority parent |> <| _hasNodePriority := true |> else j)).

Definition scriptQ (post : bool) (d : Dag) : ScriptQ := if post then _postScriptQ d else _preScriptQ d.
Definition modScriptQ (post : bool) (f : ScriptQ → ScriptQ) : D unit :=
  modDag (fun d => if post then d <| _postScriptQ ::= f |> else d <| _preScriptQ ::= f |>).
Definition modScript (post : bool) (n : JobID_t) (f : Script → Script) : D unit :=
  modJob n (fun j => if post then j <| _scriptPost ::= fmap f |> else j <| _scriptPre ::= fmap f |>).

(** [RemoveRunningScripts]: the killed scripts are reaped later. *)
Definition RemoveRunningScripts : D unit :=
  d ← getDag;
  for_each (_jobs d) (fun n =>
    j ← getJob n;
    ASSERT (match _Status j with
            | STATUS_PRERUN => bool_decide (is_Some (_scriptPre j))
            | STATUS_POSTRUN => bool_decide (is_Some (_scriptPost j))
            | _ => true
            end)).

Definition DAG_ERROR_CONDOR_SUBMIT_FAILED : Z := -1001.
Definition DAG_ERROR_CONDOR_JOB_ABORTED : Z := -1002.
Definition DAG_ERROR_JOB_SKIPPED : Z := -1004.
Definition EXIT_ERROR : Z := 1.

(** *** Starting nodes

    [StartNode] calls itself through the scripts that cannot be started, the
    retries and the final node: the calls inside are to [StartNode']. *)
Section Open.
Variable StartNode' : JobID_t → bool → D bool.

(** The nodes of the ready queue that are not final leave it; each round moves the
    cursor or deletes an item. *)
Fixpoint discard_loop (fuel : nat) : D unit :=
  match fuel with
  | O => fun _ => OutOfFuel
  | S fuel =>
      d ← getDag;
      let '(job, q) := Next (_readyQ d) in
      modDag (fun d => d <| _readyQ := q |>);;
      match job with
      | None => mret tt
      | Some n =>
          j ← getJob n;
          when (negb (_final j))
            (modDag (fun d => d <| _readyQ ::= DeleteCurrent |>);; SetStatus n STATUS_NOT_READY);;
          discard_loop fuel
      end
  end.
Definition discard_ready : D unit :=
  modDag (fun d => d <| _readyQ ::= Rewind |>);;
  d ← getDag; discard_loop (S (length (items (_readyQ d)))).
Definition StartFinalNode : D bool :=
  d ← getDag;
  match _final_job d with
  | None => mret false
  | Some f =>
      j ← getJob f;
      if bool_decide (_Status j ≠ STATUS_NOT_READY) then mret false
      else
        discard_ready;;
        SetStatus f STATUS_READY;;
        ok ← StartNode' f false;
        when ok (modDag (fun d => d <| _finalNodeRun := true |>));; mret ok
  end.

Definition main_shutdown_rescue (exitVal : Z) (dagStatus : dag_status) : D unit :=
  d ← getDag;
  if inShutdownRescue d then mret tt
  else
    modDag (fun d => d <| inShutdownRescue := true |> <| _dagStatus := dagStatus |>);;
    when (0 <? NumScriptsRunning d) RemoveRunningScripts;;
    ok ← StartFinalNode;
    modDag (fun d => d <| inShutdownRescue := false |>);;
    if ok : bool then mret tt else DC_Exit exitVal.

Definition CheckForDagAbort (n : JobID_t) : D bool :=
  j ← getJob n;
  match abort_dag_val j with
  | None => mret false
  | Some v =>
      if negb (retval j =? v) then mret false
      else
        modDag (fun d => d <| _dagIsAborted := true |>);;
        (match abort_dag_return_val j with
         | Some r => main_shutdown_rescue r (if r =? 0 then DAG_STATUS_OK else DAG_STATUS_ABORT)
         | None => main_shutdown_rescue (retval j) DAG_STATUS_ABORT
         end);;
        mret true
  end.

Definition RestartNode (n : JobID_t) (recovery : bool) : D unit :=
  j ← getJob n;
  ASSERT (bool_decide (_Status j = STATUS_ERROR));;
  if bool_decide (retry_abort_val j = Some (retval j)) then node_failed
  else
    SetStatus n STATUS_READY;;
    modJob n (fun j => j <| retries ::= Z.succ |>);;
    j ← getJob n;
    ASSERT (retries j <=? retry_max j);;
    modScript false n (fun s => s <| _done := false |>);;
    if recovery then
      j ← getJob n; d ← getDag;
      when (negb (_cluster j =? -1))
        (ASSERT (bool_decide (is_Some (_condorIDHash d !! _cluster j)));;
         modDag (fun d => d <| _condorIDHash ::= delete (_cluster j) |>));;
      modJob n (fun j => j <| _cluster := -1 |>)
    else StartNode' n true;; mret tt.

(** [PostScriptReaper] writes the end of the script to the user log.  It tries for
    ever: from the third failure on it calls [main_shutdown_rescue], which does not
    leave the process when a final node can be started. *)
Fixpoint write_loop (fuel attempts : nat) (n : JobID_t) (e : ULogEvent) : D unit :=
  match fuel with
  | O => fun _ => OutOfFuel
  | S fuel =>
      d ← getDag;
      if writeEvent w d n attempts then modDag (fun d => d <| userlog ::= fun l => l ++ [(n, e)] |>)
      else when (2 <=? attempts)%nat (main_shutdown_rescue EXIT_ERROR DAG_STATUS_ERROR);;
           write_loop fuel (S attempts) n e
  end.
Definition PostScriptReaper (n : JobID_t) (status : Z) : D unit :=
  j ← getJob n;
  ASSERT (bool_decide (_Status j = STATUS_POSTRUN));;
  write_loop (write_rounds w) 0 n (if WIFSIGNALED status then PostScriptTerminatedEvent false 0 status
                                   else PostScriptTerminatedEvent true (WEXITSTATUS status) 0).

(** [ScriptQ::Run]; [reaper] is called with the status of a failed script when
    the script cannot be started. *)
Definition Run_ (post : bool) (reaper : JobID_t → Z → D unit) (n : JobID_t) : D Z :=
  j ← getJob n; d ← getDag;
  let q := scriptQ post d in
  let maxScripts := if post then _maxPostScripts cfg else _maxPreScripts cfg in
  if (_dagIsHalted d && negb post && negb (_final j))
     || (negb (maxScripts =? 0) && (maxScripts <=? _numScriptsRunning q))
  then
    modScriptQ post (fun q => q <| _scriptDeferredCount ::= Z.succ |> <| _waitingQueue ::= fun l => l ++ [n] |>);;
    mret 0
  else
    pid ← match BackgroundRun w d n post with
          | NoDirectory => mret 0
          | Created pid => modScript post n (fun s => s <| _pid := pid |>);; mret pid
          end;
    if negb (pid =? 0)
    then
      modScriptQ post (fun q => q <| _numScriptsRunning ::= Z.succ |> <| _scriptPidTable ::= insert pid n |>);;
      mret 1
    else reaper n (Z.shiftl 1 8);; mret 0.

Definition RunPostScript (n : JobID_t) (ignore_status : bool) (status : Z) (incrementRunCount : bool) : D bool :=
  j ← getJob n;
  if (negb ignore_status && negb (status =? 0)) || bool_decide (_scriptPost j = None) then mret false
  else
    SetStatus n STATUS_POSTRUN;;
    d ← getDag;
    if negb (MonitorLogFile w d n) then mret false
    else
      when incrementRunCount (modDag (fun d => d <| _postRunNodeCount ::= Z.succ |>));;
      Run_ true PostScriptReaper n;; mret true.

(** The end of [PreScriptReaper] for a PRE script that failed, in the order of its
    tests: PRE_SKIP, the POST script, the retries. *)
Definition pre_failed (n : JobID_t) : D bool :=
  j ← getJob n;
  if bool_decide (_preskip j = Some (retval j)) then
    d ← getDag;
    if negb (MonitorLogFile w d n) then mret false
    else
      d ← getDag;
      (if negb (writePreSkipEvent w d n) then main_shutdown_rescue EXIT_ERROR DAG_STATUS_ERROR
       else modDag (fun d => d <| userlog ::= fun l => l ++ [(n, PreSkipEvent)] |>));;
      modDag (fun d => d <| _preRunNodeCount ::= Z.succ |>);;
      modScript false n (fun s => s <| _done := true |>);;
      modJob n (fun j => j <| retval := 0 |>);; mret true
  else if _alwaysRunPost cfg && bool_decide (is_Some (_scriptPost j)) then
    modScript true n (fun s => s <| _retValScript := retval j |> <| _retValJob := DAG_ERROR_JOB_SKIPPED |>);;
    RunPostScript n (_alwaysRunPost cfg) (retval j) true;; mret true
  else if retries j <? retry_max j then modJob n TerminateFailure;; RestartNode n false;; mret true
  else modJob n TerminateFailure;; node_failed;; mret true.

Definition PreScriptReaper (n : JobID_t) (status : Z) : D unit :=
  j ← getJob n;
  ASSERT (bool_decide (_Status j = STATUS_PRERUN));;
  modDag (fun d => d <| _preRunNodeCount ::= Z.pred |>);;
  let failed := WIFSIGNALED status || negb (WEXITSTATUS status =? 0) in
  modJob n (fun j => j <| retval := if WIFSIGNALED status then 0 - WTERMSIG status else WEXITSTATUS status |>);;
  continue ←
    (if failed then pre_failed n
     else
       modScript true n (fun s => s <| _retValScript := 0 |>);;
       SetStatus n STATUS_READY;;
       (if _submitDepthFirst cfg then ready_first n else ready_last n);; mret true);
  when continue (CheckForDagAbort n;; mret tt).

Definition Run (post : bool) : JobID_t → D Z :=
  Run_ post (if post then PostScriptReaper else PreScriptReaper).
End Open.

Fixpoint StartNode_ (fuel : nat) (n : JobID_t) (isRetry : bool) : D bool :=
  match fuel with
  | O => fun _ => OutOfFuel
  | S fuel =>
      j ← getJob n;
      ASSERT (CanSubmit j);;
      if match _scriptPre j with Some s => negb (_done s) | None => false end
      then
        SetStatus n STATUS_PRERUN;;
        modDag (fun d => d <| _preRunNodeCount ::= Z.succ |>);;
        Run (StartNode_ fuel) false n;; mret true
      else
        FixPriority n;;
        (if isRetry && m_retryNodeFirst cfg then ready_first n
         else
           modJob n (fun j =>
             if _hasNodePriority j
             then j <| varsFromDag ::= fun l => l ++ [(L "priority", int_text (_nodePriority j))] |> else j);;
           if _submitDepthFirst cfg then ready_first n else ready_last n);;
        mret true
  end.

(** The calls of [StartNode] inside [StartNode] use up retries of the node or
    start the final node, once, and its retries. *)
Definition retries_left (n : JobID_t) (d : Dag) : nat :=
  match _nodeIDHash d !! n with Some j => Z.to_nat (retry_max j - retries j) | None => 0 end.
Definition start_fuel (n : JobID_t) (d : Dag) : nat :=
  retries_left n d + match _final_job d with Some f => S (retries_left f d) | None => 0 end.
Definition StartNode (n : JobID_t) (isRetry : bool) : D bool :=
  fun d => StartNode_ (S (start_fuel n d)) n isRetry d.

Abbreviation StartFinalNode' := (StartFinalNode StartNode).
Abbreviation main_shutdown := (main_shutdown_rescue StartNode).

Definition TerminateJob (n : JobID_t) (recovery bootstrap : bool) : D unit :=
  ASSERT (negb (recovery && bootstrap));;
  modJob n TerminateSuccess;;
  j ← getJob n;
  when (negb (countedAsDone j))
    (modDag (fun d => d <| _numNodesDone ::= Z.succ |>);;
     modJob n (fun j => j <| countedAsDone := true |>);;
     d ← getDag; ASSERT (_numNodesDone d <=? Z.of_nat (length (_jobs d))));;
  for_each (set_list (Q_CHILDREN j)) (fun c =>
    modJob c (fun jc => jc <| Q_WAITING ::= fun s => s ∖ {[n]} |>);;
    jc ← getJob c;
    when (CanSubmit jc && negb bootstrap && negb recovery) (StartNode c false;; mret tt)).

(** *** Events *)

Definition ProcessJobProcEnd (n : JobID_t) (recovery failed : bool) : D unit :=
  j ← getJob n;
  let all_done := _queuedNodeJobProcs j =? 0 in
  if failed && bool_decide (_scriptPost j = None) then
    if retries j <? retry_max j then RestartNode StartNode n recovery
    else when all_done node_failed
  else
    when all_done
      (if bool_decide (is_Some (_scriptPost j)) then
         if recovery
         then SetStatus n STATUS_POSTRUN;; modDag (fun d => d <| _postRunNodeCount ::= Z.succ |>)
         else RunPostScript StartNode n (_alwaysRunPost cfg) 0 true;; mret tt
       else when (bool_decide (_Status j ≠ STATUS_ERROR)) (TerminateJob n recovery false)).

Definition set_retval (n : JobID_t) (v : Z) : D unit :=
  modJob n (fun j => j <| retval := v |>);; modScript true n (fun s => s <| _retValJob := v |>).

(** The removal of the other procs of a cluster shows in later events. *)
Definition ProcessAbortEvent (n : JobID_t) (proc : Z) (recovery : bool) : D unit :=
  DecrementJobCounts n;;
  j ← getJob n;
  ASSERT ((_jobProcsOnHold j <=? 0) || (0 <=? proc));;
  (let '(ok, j') := Release proc j in
   when ((0 <? _jobProcsOnHold j) && ok)
     (modJob n (fun _ => j');; modDag (fun d => d <| _numHeldJobProcs ::= Z.pred |>)));;
  j ← getJob n;
  when (bool_decide (_Status j ≠ STATUS_ERROR))
    (modJob n TerminateFailure;; set_retval n DAG_ERROR_CONDOR_JOB_ABORTED);;
  ProcessJobProcEnd n recovery true.

Definition ProcessTerminatedEvent (n : JobID_t) (normal : bool) (returnValue signalNumber : Z) (recovery : bool)
    : D unit :=
  DecrementJobCounts n;;
  j ← getJob n;
  let failed := negb (normal && (returnValue =? 0)) in
  when (bool_decide (_Status j ≠ STATUS_ERROR))
    (set_retval n (if failed then if normal then returnValue else 0 - signalNumber else 0);;
     when failed (modJob n TerminateFailure));;
  ProcessJobProcEnd n recovery failed;;
  when (bool_decide (_scriptPost j = None)) (CheckForDagAbort StartNode n;; mret tt).

Definition ProcessPostTermEvent (n : JobID_t) (normal : bool) (returnValue signalNumber : Z) (recovery : bool)
    : D unit :=
  j ← getJob n;
  (if bool_decide (_Status j = STATUS_POSTRUN)
   then modDag (fun d => d <| _postRunNodeCount ::= Z.pred |>) else ASSERT recovery);;
  (if negb (normal && (returnValue =? 0)) then
     modJob n TerminateFailure;;
     modJob n (fun j => j <| retval := if normal then returnValue else 0 - signalNumber |>);;
     if retries j <? retry_max j then RestartNode StartNode n recovery else node_failed
   else
     modJob n (fun j => j <| retval := 0 |>);;
     TerminateJob n recovery false);;
  CheckForDagAbort StartNode n;; mret tt.

Definition ProcessSubmitEvent (n : JobID_t) (recovery submitEventIsSane : bool) : D unit :=
  j ← getJob n;
  when (bool_decide (Q_WAITING j ≠ ∅)) (DC_Exit EXIT_ERROR);;
  let counts := submitEventIsSane || bool_decide (_Status j ≠ STATUS_SUBMITTED) in
  modJob n (fun j => if counts then j <| _queuedNodeJobProcs ::= Z.succ |> else j);;
  j ← getJob n;
  if recovery then
    when (counts && (_queuedNodeJobProcs j =? 1)) (UpdateJobCounts n 1);;
    SetStatus n STATUS_SUBMITTED
  else
    when ((TotalLogFileCount w =? 1) && (_queuedNodeJobProcs j =? 1))
      (modDag (fun d => d <| _submitQ ::= fun q =>
         match q with [] => [] | m :: q => if bool_decide (m = n) then q else q ++ [m] end |>)).

Definition too_many_idle : D unit :=
  modDag (fun d => d <| _numIdleJobProcs ::= fun i => if (0 <? i) && (_numJobsSubmitted d <? 1) then 0 else i |>).
Definition ProcessIsIdleEvent (n : JobID_t) : D unit :=
  j ← getJob n;
  when (negb (_isIdle j) && bool_decide (_Status j = STATUS_SUBMITTED))
    (modJob n (fun j => j <| _isIdle := true |>);; modDag (fun d => d <| _numIdleJobProcs ::= Z.succ |>));;
  too_many_idle.
Definition ProcessNotIdleEvent (n : JobID_t) : D unit :=
  j ← getJob n;
  when (_isIdle j && bool_decide (_Status j = STATUS_SUBMITTED))
    (modJob n (fun j => j <| _isIdle := false |>);; modDag (fun d => d <| _numIdleJobProcs ::= Z.pred |>));;
  too_many_idle.

(** The removal of a node held too often shows in later events. *)
Definition ProcessHeldEvent (n : JobID_t) (proc : Z) : D unit :=
  ASSERT (0 <=? proc);;
  j ← getJob n;
  let '(ok, j') := Hold proc j in
  modJob n (fun _ => j');;
  when ok (modDag (fun d => d <| _numHeldJobProcs ::= Z.succ |>)).
Definition ProcessReleasedEvent (n : JobID_t) (proc : Z) : D unit :=
  ASSERT (0 <=? proc);;
  j ← getJob n;
  let '(ok, j') := Release proc j in
  modJob n (fun _ => j');;
  when ok (modDag (fun d => d <| _numHeldJobProcs ::= Z.pred |>)).

Definition ProcessOneEvent (recovery : bool) (n : JobID_t) (e : ULogEvent) : D unit :=
  match e with
  | ExecutableErrorEvent | OtherEvent => mret tt
  | JobAbortedEvent proc => ProcessNotIdleEvent n;; ProcessAbortEvent n proc recovery
  | JobTerminatedEvent _ normal rv sig => ProcessNotIdleEvent n;; ProcessTerminatedEvent n normal rv sig recovery
  | PostScriptTerminatedEvent normal rv sig => ProcessPostTermEvent n normal rv sig recovery
  | SubmitEvent sane => ProcessSubmitEvent n recovery sane;; ProcessIsIdleEvent n
  | JobIdleEvent => ProcessIsIdleEvent n
  | JobHeldEvent proc => ProcessHeldEvent n proc;; ProcessIsIdleEvent n
  | JobRunEvent => ProcessNotIdleEvent n
  | JobReleasedEvent proc => ProcessReleasedEvent n proc
  | PreSkipEvent =>
      TerminateJob n recovery false;;
      when (negb recovery) (modDag (fun d => d <| _preRunNodeCount ::= Z.pred |>))
  end.

(** *** Scripts *)

Definition RunWaitingScript (post : bool) : D Z :=
  d ← getDag;
  match _waitingQueue (scriptQ post d) with
  | [] => mret 0
  | n :: l => modScriptQ post (fun q => q <| _waitingQueue := l |>);; Run StartNode post n
  end.
(** Every round that goes on takes a script from the waiting queue. *)
Fixpoint run_all_loop (fuel : nat) (post : bool) : D unit :=
  match fuel with
  | O => fun _ => OutOfFuel
  | S fuel => r ← RunWaitingScript post; when (0 <? r) (run_all_loop fuel post)
  end.
Definition RunAllWaitingScripts (post : bool) : D unit :=
  d ← getDag; run_all_loop (S (length (_waitingQueue (scriptQ post d)))) post.

Definition ScriptReaper (post : bool) (pid status : Z) : D unit :=
  d ← getDag;
  match _scriptPidTable (scriptQ post d) !! pid with
  | None => EXCEPT
  | Some n =>
      modScriptQ post (fun q => q <| _scriptPidTable ::= delete pid |> <| _numScriptsRunning ::= Z.pred |>);;
      j ← getJob n;
      ASSERT (bool_decide (_pid <$> (if post then _scriptPost j else _scriptPre j) = Some pid));;
      modScript post n (fun s => s <| _done := true |>);;
      (if post then PostScriptReaper StartNode n status else PreScriptReaper StartNode n status);;
      RunWaitingScript post;; mret tt
  end.

(** *** Submission *)

Inductive submit_result_t := SUBMIT_RESULT_OK | SUBMIT_RESULT_FAILED | SUBMIT_RESULT_NO_SUBMIT.

(** The ID of the last submission leaves the table; the ID of the new one is given
    back with the result and enters it.  No ID here is that of a no-op job. *)
Definition SubmitNodeJob (n : JobID_t) : D (submit_result_t * Z) :=
  j ← getJob n; d ← getDag;
  when (negb (_cluster j =? -1))
    (ASSERT (bool_decide (is_Some (_condorIDHash d !! _cluster j)));;
     modDag (fun d => d <| _condorIDHash ::= delete (_cluster j) |>));;
  modJob n (fun j => j <| _cluster := -1 |>);;
  d ← getDag;
  if negb (runSubmitDag w d n)
  then modJob n (fun j => j <| _submitTries ::= Z.succ |>);; mret (SUBMIT_RESULT_NO_SUBMIT, 0)
  else if negb (MonitorLogFile w d n) then mret (SUBMIT_RESULT_NO_SUBMIT, 0)
  else
    modJob n (fun j => j <| _submitTries ::= Z.succ |>);;
    d ← getDag;
    mret (match condor_submit w d n with
          | Some condorID => (SUBMIT_RESULT_OK, condorID)
          | None => (SUBMIT_RESULT_FAILED, 0)
          end).

Definition ProcessSuccessfulSubmit (n : JobID_t) (condorID : Z) : D unit :=
  modDag (fun d => d <| _nextSubmitTime := 0 |> <| _nextSubmitDelay := 1 |> <| _submitQ ::= fun q => q ++ [n] |>);;
  SetStatus n STATUS_SUBMITTED;;
  UpdateJobCounts n 1;;
  modJob n (fun j => j <| _cluster := condorID |>);;
  d ← getDag;
  ASSERT (bool_decide (_condorIDHash d !! condorID = None));;
  modDag (fun d => d <| _condorIDHash ::= insert condorID n |>).

Definition ProcessFailedSubmit (n : JobID_t) : D unit :=
  modDag (fun d => d <| _nextSubmitTime := now w + _nextSubmitDelay d |>
                     <| _nextSubmitDelay ::= fun t => int32 (2 * t) |>);;
  j ← getJob n;
  if max_submit_attempts cfg <=? _submitTries j then
    modDag (fun d => d <| _nextSubmitTime := 0 |> <| _nextSubmitDelay := 1 |>);;
    modJob n (fun j => j <| retries := retry_max j |>);;
    if bool_decide (is_Some (_scriptPost j)) then
      modScript true n (fun s => s <| _retValJob := DAG_ERROR_CONDOR_SUBMIT_FAILED |>);;
      RunPostScript StartNode n (_alwaysRunPost cfg) 0 true;; mret tt
    else modJob n TerminateFailure;; node_failed
  else if m_retrySubmitFirst cfg then ready_first n else ready_last n.

Definition throttled (j : Job) (d : Dag) : bool :=
  match _throttleInfo j with
  | None => false
  | Some c => match _throttles d !! c with Some t => isSet t && (_maxJobs t <=? _currentJobs t) | None => false end
  end.

(** The loop of [SubmitReadyJobs], with the nodes deferred by their category; each
    round takes a node from the ready queue. *)
Fixpoint submit_loop (fuel : nat) (numSubmits : Z) (deferred : PrioritySimpleList JobID_t)
    : D (Z * PrioritySimpleList JobID_t) :=
  match fuel with
  | O => fun _ => OutOfFuel
  | S fuel =>
      d ← getDag;
      if negb (numSubmits <? max_submits_per_interval cfg) || IsEmpty (_readyQ d) then mret (numSubmits, deferred)
      else if negb (_maxJobsSubmitted cfg =? 0) && (_maxJobsSubmitted cfg <=? _numJobsSubmitted d) then
        modDag (fun d => d <| _maxJobsDeferredCount ::= Z.add (NumNodesReady d) |>);; mret (numSubmits, deferred)
      else if negb (_maxIdleJobProcs cfg =? 0) && (_maxIdleJobProcs cfg <=? _numIdleJobProcs d) then
        modDag (fun d => d <| _maxIdleDeferredCount ::= Z.add (NumNodesReady d) |>);; mret (numSubmits, deferred)
      else
        let '(job, q) := Next (Rewind (_readyQ d)) in
        modDag (fun d => d <| _readyQ := DeleteCurrent q |>);;
        match job with
        | None => EXCEPT
        | Some n =>
            j ← getJob n;
            ASSERT (bool_decide (_Status j = STATUS_READY));;
            d ← getDag;
            if throttled j d then
              modDag (fun d => d <| _catThrottleDeferredCount ::= Z.succ |>);;
              submit_loop fuel numSubmits (Prepend n (- _nodePriority j) deferred)
            else
              '(r, condorID) ← SubmitNodeJob n;
              match r with
              | SUBMIT_RESULT_OK => ProcessSuccessfulSubmit n condorID;; submit_loop fuel (numSubmits + 1) deferred
              | _ => ProcessFailedSubmit n;; mret (numSubmits, deferred)
              end
        end
  end.

Definition SubmitReadyJobs : D Z :=
  d ← getDag;
  if negb (_nextSubmitTime d =? 0) && (now w <? _nextSubmitTime d) then mret 0
  else
    modDag (fun d => d <| _dagIsHalted := haltFile w |>);;
    if haltFile w && negb (_finalNodeRun d) then mret 0
    else
      when (_dagIsHalted d) (RunAllWaitingScripts false);;
      d ← getDag;
      '(numSubmits, deferred) ← submit_loop (S (length (items (_readyQ d)))) 0 PSL_new;
      for_each (items deferred) ready_first;;
      mret numSubmits.

(** *** Start and timer *)

(** [Bootstrap]; [events] are the events of the log that recovery reads. *)
Definition Bootstrap (recovery : bool) (events : list (JobID_t * ULogEvent)) : D bool :=
  d ← getDag;
  for_each (_jobs d) (fun n =>
    j ← getJob n; when (bool_decide (_Status j = STATUS_DONE)) (TerminateJob n false true));;
  d ← getDag;
  let unmonitored := existsb (fun n => match _nodeIDHash d !! n with
                                       | Some j => CanSubmit j && negb (MonitorLogFile w d n)
                                       | None => false end) (_jobs d) in
  if recovery && unmonitored then mret false else
  ok ← (if recovery then
          for_each events (fun '(n, e) => ProcessOneEvent true n e);;
          let fix run_posts ns : D bool :=
            match ns with
            | [] => mret true
            | n :: ns =>
                j ← getJob n;
                if bool_decide (_Status j = STATUS_POSTRUN) then
                  ok ← RunPostScript StartNode n (_alwaysRunPost cfg) 0 false;
                  if ok : bool then run_posts ns else mret false
                else run_posts ns
            end in
          run_posts (_jobs d)
        else mret true);
  if negb ok then mret false else
  for_each (_jobs d) (fun n =>
    j ← getJob n; when (CanSubmit j) (StartNode n false;; mret tt));;
  mret true.

(** [condor_event_timer]; [events] are the events of the user log since the last
    time, those that [EventSanityCheck] accepts. *)
Definition timer_end : D unit :=
  d ← getDag;
  ASSERT (NumNodesDone true d + _numNodesFailed d <=? NumNodes true d);;
  if DoneSuccess true d then ASSERT (_numJobsSubmitted d =? 0);; DC_Exit 0
  else if DoneFailed true d then main_shutdown EXIT_ERROR (_dagStatus d)
  else if DoneSuccess false d then StartFinalNode';; mret tt
  else if _dagIsHalted d && (_numJobsSubmitted d =? 0) && (_postRunNodeCount d =? 0) && negb (_finalNodeRun d)
  then main_shutdown EXIT_ERROR DAG_STATUS_HALTED
  else if FinishedRunning false d then
    dagStatus ← (if DoneFailed false d then mret DAG_STATUS_NODE_FAILED
                 else c ← isCycle; mret (if c : bool then DAG_STATUS_CYCLE else DAG_STATUS_ERROR));
    main_shutdown EXIT_ERROR dagStatus
  else mret tt.
Definition condor_event_timer (events : list (JobID_t * ULogEvent)) : D unit :=
  SubmitReadyJobs;; for_each events (fun '(n, e) => ProcessOneEvent false n e);; timer_end.
End Run.
