(* ===== verification/DagCycle.v ===== *)
(** * DagCycle

    The rules for reasoning about DAGMan's computations, and the search for
    cycles: [isCycle] is right, although it numbers only the nodes that it
    reaches from nodes without parents. *)
From stdpp Require Import base gmap list sorting relations sets.
From Stdlib Require Import ZArith Lia.
From S2P Require Import Prelude PriorityList Dag.
Open Scope Z_scope.
Open Scope condor_scope.

(** ** Rules *)

(** [m] ends normally with a result that satisfies [Q], or leaves the process where
    [X] allows it; it does not abort or run out of fuel. *)
Definition wpd (X : Prop) {A} (m : D A) (d : Dag) (Q : A → Dag → Prop) : Prop :=
  match m d with
  | Done a d' => Q a d'
  | Exit _ _ => X
  | Abort | OutOfFuel => False
  end.

Section Rules.
Variable X : Prop.

Lemma wpd_ret {A} (a : A) d Q : Q a d → wpd X (mret a) d Q.
Proof. done. Qed.
Lemma wpd_bind {A B} (m : D A) (k : A → D B) d Q :
  wpd X m d (fun a d' => wpd X (k a) d' Q) → wpd X (m ≫= k) d Q.
Proof. unfold wpd, mbind, D_bind. by destruct (m d). Qed.
Lemma wpd_mono {A} (m : D A) d (Q R : A → Dag → Prop) :
  wpd X m d Q → (∀ a d', Q a d' → R a d') → wpd X m d R.
Proof. unfold wpd. destruct (m d); auto. Qed.
Lemma wpd_getDag d Q : Q d d → wpd X getDag d Q.
Proof. done. Qed.
Lemma wpd_modDag f d Q : Q tt (f d) → wpd X (modDag f) d Q.
Proof. done. Qed.
Lemma wpd_exit {A} c d (Q : A → Dag → Prop) : X → wpd X (DC_Exit c) d Q.
Proof. done. Qed.
Lemma wpd_assert b d Q : b = true → Q tt d → wpd X (ASSERT b) d Q.
Proof. by intros ->. Qed.
Lemma wpd_getJob n j d Q : _nodeIDHash d !! n = Some j → Q j d → wpd X (getJob n) d Q.
Proof. unfold wpd, getJob. by intros ->. Qed.
Lemma wpd_modJob n f j d Q :
  _nodeIDHash d !! n = Some j → Q tt (d <| _nodeIDHash ::= insert n (f j) |>) → wpd X (modJob n f) d Q.
Proof. intros Hj HQ. apply wpd_bind, (wpd_getJob _ j); [done|]. by apply wpd_modDag. Qed.
Lemma wpd_when b m d Q : (b = true → wpd X m d Q) → (b = false → Q tt d) → wpd X (when b m) d Q.
Proof. intros Ht Hf. unfold when. destruct b; [by apply Ht|]. apply wpd_ret. by apply Hf. Qed.

(** Loops, with an invariant on the elements already treated. *)
Lemma wpd_for_each {A} (I : list A → Dag → Prop) (f : A → D unit) (Q : unit → Dag → Prop) l d :
  I [] d →
  (∀ past x rest d, l = past ++ x :: rest → I past d → wpd X (f x) d (fun _ => I (past ++ [x]))) →
  (∀ d, I l d → Q tt d) →
  wpd X (for_each l f) d Q.
Proof.
  intros HI Hf HQ.
  assert (∀ todo past d, l = past ++ todo → I past d → wpd X (for_each todo f) d Q) as Hall; [|by apply (Hall l [])].
  intros todo. induction todo as [|x todo IH]; intros past d' Hl HI'; simpl.
  - apply wpd_ret, HQ. by rewrite Hl, app_nil_r.
  - apply wpd_bind. eapply wpd_mono; [by eapply Hf|]. intros [] d'' HI''.
    apply (IH (past ++ [x])); [|done]. by rewrite <- app_assoc.
Qed.

(** A loop that keeps an invariant. *)
Lemma wpd_for_each_inv {A} (I : Dag → Prop) (f : A → D unit) l d Q :
  I d → (∀ x d, x ∈ l → I d → wpd X (f x) d (fun _ => I)) → (∀ d, I d → Q tt d) → wpd X (for_each l f) d Q.
Proof.
  intros HI Hf HQ. revert d HI. induction l as [|x l IH]; intros d HI; simpl; [by apply wpd_ret, HQ|].
  apply wpd_bind. eapply wpd_mono; [apply Hf; [left|done]|]. intros [] d' HI'.
  apply IH; [|done]. intros y d'' Hy. apply Hf. by right.
Qed.
End Rules.

Lemma wpd_weaken (X Y : Prop) {A} (m : D A) d Q : (X → Y) → wpd X m d Q → wpd Y m d Q.
Proof. unfold wpd. destruct (m d); auto. Qed.

Lemma wpd_inv {A} (m : D A) d Q : wpd False m d Q → ∃ a d', m d = Done a d' ∧ Q a d'.
Proof. unfold wpd. destruct (m d); [eauto|done..]. Qed.

(** Symbolic execution. *)
Ltac wpd_step :=
  lazymatch goal with
  | |- wpd _ (_ ≫= _) _ _ => apply wpd_bind
  | |- wpd _ (mret _) _ _ => apply wpd_ret
  | |- wpd _ getDag _ _ => apply wpd_getDag
  | |- wpd _ (modDag _) _ _ => apply wpd_modDag
  | |- wpd _ (getJob _) _ _ => eapply wpd_getJob; [eassumption|]
  | |- wpd _ (modJob _ _) _ _ => eapply wpd_modJob; [eassumption|]
  | |- wpd _ (DC_Exit _) _ _ => apply wpd_exit
  end; cbv beta.
Ltac wpd_steps := repeat wpd_step.

Lemma elem_of_set_list s n : n ∈ set_list s ↔ n ∈ s.
Proof. unfold set_list. by rewrite merge_sort_Permutation, elem_of_elements. Qed.

(** ** Counting nodes *)

Definition cnt (p : Job → bool) (m : gmap JobID_t Job) : Z := Z.of_nat (size (filter (fun kv => p kv.2 = true) m)).

Lemma cnt_empty p : cnt p ∅ = 0.
Proof. done. Qed.
Lemma cnt_insert_new p n j m : m !! n = None → cnt p (<[n := j]> m) = cnt p m + Z.b2z (p j).
Proof.
  intros Hn. unfold cnt. destruct (p j) eqn:E.
  - rewrite map_filter_insert_True, map_size_insert_None by (simpl; done || by apply map_lookup_filter_None; left).
    simpl. lia.
  - rewrite map_filter_insert_not' by (simpl; congruence). simpl. lia.
Qed.
Lemma cnt_delete p n j m : m !! n = Some j → cnt p (delete n m) = cnt p m - Z.b2z (p j).
Proof.
  intros Hn. rewrite <- (insert_id m n j) at 2 by done. rewrite <- insert_delete_eq, cnt_insert_new; [lia|].
  apply lookup_delete_eq.
Qed.
Lemma cnt_insert p n j j' m : m !! n = Some j → cnt p (<[n := j']> m) = cnt p m - Z.b2z (p j) + Z.b2z (p j').
Proof.
  intros Hn. rewrite <- insert_delete_eq, cnt_insert_new by apply lookup_delete_eq.
  rewrite (cnt_delete p n j m Hn). lia.
Qed.
Lemma cnt_nonneg p m : 0 ≤ cnt p m.
Proof. unfold cnt. lia. Qed.
Lemma cnt_le p q m : (∀ n j, m !! n = Some j → p j = true → q j = true) → cnt p m ≤ cnt q m.
Proof.
  intros Hpq. unfold cnt. apply inj_le. apply map_subseteq_size, map_subseteq_spec.
  intros n j. rewrite !map_lookup_filter_Some. simpl. intros [Hn Hp]. eauto.
Qed.
Lemma cnt_size p m : cnt p m ≤ Z.of_nat (size m).
Proof. unfold cnt. apply inj_le, map_subseteq_size, map_filter_subseteq. Qed.
Lemma cnt_zero p m n j : cnt p m = 0 → m !! n = Some j → p j = false.
Proof.
  intros Hc Hn. pose proof (cnt_delete p n j m Hn). pose proof (cnt_nonneg p (delete n m)).
  destruct (p j); [simpl in *; lia|done].
Qed.

(** ** The graph and its numbering *)

Abbreviation Graph := (gmap JobID_t (gset JobID_t)).
Definition edge (G : Graph) (n c : JobID_t) : Prop := ∃ cs, G !! n = Some cs ∧ c ∈ cs.
Definition graph_of (d : Dag) : Graph := Q_CHILDREN <$> _nodeIDHash d.
Definition cyclic (G : Graph) : Prop := ∃ n, tc (edge G) n n.

(** The DAG without the marks and numbers of the search. *)
Definition strip (j : Job) : Job := j <| _visited := false |> <| _dfsOrder := 0 |>.
Definition unnumbered (d : Dag) : Dag := d <| _nodeIDHash ::= fmap strip |> <| DFS_ORDER := 0 |>.

Definition unvisited (d : Dag) : Z := cnt (fun j => negb (_visited j)) (_nodeIDHash d).
Definition visited (d : Dag) (n : JobID_t) : Prop := ∃ j, _nodeIDHash d !! n = Some j ∧ _visited j = true.

(** A search under way: [S] are the nodes being visited.  The children of a node
    that has its number are all marked, and have smaller numbers or reach it. *)
Record dfs_ok (G : Graph) (S : gset JobID_t) (d : Dag) : Prop := {
  dfs_graph : graph_of d = G;
  dfs_order : 0 ≤ DFS_ORDER d;
  dfs_stack n : n ∈ S → ∃ j, _nodeIDHash d !! n = Some j ∧ _visited j = true ∧ _dfsOrder j = -1;
  dfs_mark n j : _nodeIDHash d !! n = Some j →
    n ∈ S ∨ (_visited j = false ∧ _dfsOrder j = -1) ∨ (_visited j = true ∧ 1 ≤ _dfsOrder j ≤ DFS_ORDER d);
  dfs_child n j c : _nodeIDHash d !! n = Some j → 1 ≤ _dfsOrder j → c ∈ Q_CHILDREN j →
    ∃ jc, _nodeIDHash d !! c = Some jc ∧ _visited jc = true ∧
          (1 ≤ _dfsOrder jc < _dfsOrder j ∨ rtc (edge G) c n);
}.

(** What a search changes. *)
Record extends (d d' : Dag) : Prop := {
  ext_same : unnumbered d' = unnumbered d;
  ext_visited n : visited d n → visited d' n;
  ext_count : unvisited d' ≤ unvisited d;
}.

Lemma extends_refl d : extends d d.
Proof. by constructor. Qed.
Lemma extends_trans d1 d2 d3 : extends d1 d2 → extends d2 d3 → extends d1 d3.
Proof. intros [E1 V1 C1] [E2 V2 C2]. constructor; [congruence|eauto|lia]. Qed.

Lemma unnumbered_nodes d d' n j : unnumbered d' = unnumbered d → _nodeIDHash d !! n = Some j →
  ∃ j', _nodeIDHash d' !! n = Some j' ∧ strip j' = strip j.
Proof.
  intros E Hn. apply (f_equal _nodeIDHash) in E. simpl in E.
  apply (f_equal (lookup n)) in E. rewrite !lookup_fmap, Hn in E. simpl in E.
  apply fmap_Some in E as (j' & ? & ?). eauto.
Qed.

Lemma unnumbered_graph d d' : unnumbered d' = unnumbered d → graph_of d' = graph_of d.
Proof.
  intros E. apply (f_equal _nodeIDHash) in E. simpl in E. unfold graph_of.
  assert (∀ m : gmap JobID_t Job, Q_CHILDREN <$> m = Q_CHILDREN <$> (strip <$> m)) as Hs.
  { intros m. rewrite <- map_fmap_compose. by apply map_fmap_ext. }
  by rewrite (Hs (_nodeIDHash d')), E, <- Hs.
Qed.

Lemma graph_node d G n : graph_of d = G → n ∈ dom G → ∃ j, _nodeIDHash d !! n = Some j ∧ G !! n = Some (Q_CHILDREN j).
Proof.
  intros <- Hn. unfold graph_of in *. rewrite dom_fmap, elem_of_dom in Hn. destruct Hn as [j Hj].
  exists j. by rewrite lookup_fmap, Hj.
Qed.

(** Marking and numbering a node. *)
Definition mark (n : JobID_t) (j : Job) (d : Dag) : Dag := d <| _nodeIDHash ::= insert n (j <| _visited := true |>) |>.
Definition number (n : JobID_t) (j : Job) (d : Dag) : Dag :=
  d <| DFS_ORDER ::= Z.succ |> <| _nodeIDHash ::= insert n (j <| _dfsOrder := DFS_ORDER d + 1 |>) |>.

Lemma insert_unnumbered n j j' d : _nodeIDHash d !! n = Some j → strip j' = strip j →
  unnumbered (d <| _nodeIDHash ::= insert n j' |>) = unnumbered d.
Proof.
  intros Hn Hs. assert (strip <$> <[n := j']> (_nodeIDHash d) = strip <$> _nodeIDHash d) as E.
  { rewrite fmap_insert, Hs. apply insert_id. by rewrite lookup_fmap, Hn. }
  unfold unnumbered, field_update. simpl. by rewrite E.
Qed.

Lemma mark_extends n j d : _nodeIDHash d !! n = Some j → _visited j = false →
  extends d (mark n j d) ∧ unvisited (mark n j d) = unvisited d - 1.
Proof.
  intros Hn Hv. assert (unvisited (mark n j d) = unvisited d - 1) as Hc.
  { unfold unvisited, mark; simpl. rewrite (cnt_insert _ n j) by done. simpl. rewrite Hv. simpl. lia. }
  split; [|done]. constructor; [by apply (insert_unnumbered n j)| |lia].
  intros m (jm & Hm & Hvm). unfold visited, mark; simpl. destruct (decide (m = n)) as [->|].
  - exists (j <| _visited := true |>). by rewrite lookup_insert_eq.
  - exists jm. by rewrite lookup_insert_ne.
Qed.

Lemma mark_ok G S n j d : dfs_ok G S d → _nodeIDHash d !! n = Some j → _visited j = false →
  dfs_ok G ({[n]} ∪ S) (mark n j d).
Proof.
  intros [HG HO HS HM HC] Hn Hv.
  assert (_dfsOrder j = -1) as Hj.
  { destruct (HM n j Hn) as [Hi|[[_ ?]|[? _]]]; [|done|congruence].
    destruct (HS n Hi) as (j' & ? & ? & ?). congruence. }
  constructor; simpl.
  - rewrite <- HG. by apply unnumbered_graph, (insert_unnumbered n j).
  - done.
  - intros m Hm. destruct (decide (m = n)) as [->|Hne].
    + exists (j <| _visited := true |>). by rewrite lookup_insert_eq.
    + rewrite lookup_insert_ne by done. apply HS. set_solver.
  - intros m jm Hm. destruct (decide (m = n)) as [->|Hne]; [left; set_solver|].
    rewrite lookup_insert_ne in Hm by done. destruct (HM m jm Hm) as [?|?]; [left; set_solver|by right].
  - intros m jm c Hm Ho Hc. destruct (decide (m = n)) as [->|Hne].
    + rewrite lookup_insert_eq in Hm. injection Hm as <-. simpl in Ho. lia.
    + rewrite lookup_insert_ne in Hm by done. destruct (HC m jm c Hm Ho Hc) as (jc & Hjc & Hvc & Hor).
      destruct (decide (c = n)) as [->|Hnc]; [congruence|]. exists jc. by rewrite lookup_insert_ne.
Qed.

Lemma number_ok G S n j d : dfs_ok G ({[n]} ∪ S) d → n ∉ S → _nodeIDHash d !! n = Some j →
  (∀ c, c ∈ Q_CHILDREN j → visited d c) → (∀ g, g ∈ {[n]} ∪ S → rtc (edge G) g n) →
  dfs_ok G S (number n j d) ∧ extends d (number n j d).
Proof.
  intros [HG HO HS HM HC] HnS Hn Hch Hreach.
  assert (_visited j = true) as Hv by (destruct (HS n) as (j' & ? & ? & ?); [set_solver|congruence]).
  assert (unnumbered (number n j d) = unnumbered d) as Hun.
  { by apply (insert_unnumbered n j (j <| _dfsOrder := DFS_ORDER d + 1 |>) d Hn). }
  assert (unvisited (number n j d) = unvisited d) as Hcnt.
  { unfold unvisited, number; simpl. rewrite (cnt_insert _ n j) by done. simpl. lia. }
  split.
  2: { constructor; [done| |lia]. intros m (jm & Hm & Hvm). unfold visited, number; simpl.
       destruct (decide (m = n)) as [->|]; [|exists jm; by rewrite lookup_insert_ne].
       exists (j <| _dfsOrder := DFS_ORDER d + 1 |>). rewrite lookup_insert_eq. split; [done|]. simpl. congruence. }
  constructor; simpl.
  - rewrite <- HG. by apply unnumbered_graph.
  - lia.
  - intros m Hm. destruct (decide (m = n)) as [->|Hne]; [done|]. rewrite lookup_insert_ne by done.
    apply HS. set_solver.
  - intros m jm Hm. destruct (decide (m = n)) as [->|Hne].
    + rewrite lookup_insert_eq in Hm. injection Hm as <-. right; right. simpl. split; [done|lia].
    + rewrite lookup_insert_ne in Hm by done. destruct (HM m jm Hm) as [Hi|[?|[? ?]]]; [|by right; left|].
      * left. set_solver.
      * right; right. split; [done|lia].
  - intros m jm c Hm Ho Hc. destruct (decide (m = n)) as [->|Hne].
    + rewrite lookup_insert_eq in Hm. injection Hm as <-. simpl in *.
      destruct (Hch c Hc) as (jc & Hjc & Hvc). destruct (decide (c = n)) as [->|Hnc].
      * exists (j <| _dfsOrder := DFS_ORDER d + 1 |>). rewrite lookup_insert_eq. split_and!; [done|done|]. by right.
      * exists jc. rewrite lookup_insert_ne by done. split_and!; [done|done|].
        destruct (HM c jc Hjc) as [Hi|[[? ?]|[? ?]]]; [right; by apply Hreach|congruence|left; lia].
    + rewrite lookup_insert_ne in Hm by done. destruct (HC m jm c Hm Ho Hc) as (jc & Hjc & Hvc & Hor).
      destruct (decide (c = n)) as [->|Hnc]; [|exists jc; by rewrite lookup_insert_ne].
      exists (j <| _dfsOrder := DFS_ORDER d + 1 |>). rewrite lookup_insert_eq. split_and!; [done|done|].
      destruct (HS n) as (j' & ? & ? & ?); [set_solver|]. simplify_eq. destruct Hor as [?|?]; [lia|by right].
Qed.

(** ** The search *)

(** The children of every node are nodes. *)
Definition closed (G : Graph) : Prop := ∀ n c, edge G n c → c ∈ dom G.

Lemma DFSVisit_ok G fuel : closed G → ∀ n S d,
  dfs_ok G S d → n ∈ dom G → (∀ g, g ∈ S → rtc (edge G) g n) → unvisited d < Z.of_nat fuel →
  wpd False (DFSVisit fuel n) d (fun _ d' => dfs_ok G S d' ∧ visited d' n ∧ extends d d').
Proof.
  intros Hclosed. induction fuel as [|fuel IH]; intros n S d Hok Hn HS Hf.
  { pose proof (cnt_nonneg (fun j => negb (_visited j)) (_nodeIDHash d)). unfold unvisited in Hf. lia. }
  cbn [DFSVisit]. wpd_steps.
  destruct (graph_node d G n (dfs_graph _ _ _ Hok) Hn) as (j & Hj & HGn). rewrite Hj.
  destruct (_visited j) eqn:Hv.
  { wpd_steps. split_and!; [done|by exists j|apply extends_refl]. }
  assert (n ∉ S) as HnS by (intros Hi; destruct (dfs_stack _ _ _ Hok n Hi) as (j' & ? & ? & ?); congruence).
  destruct (mark_extends n j d Hj Hv) as [Hext Hcount].
  wpd_steps. fold (mark n j d).
  eapply (wpd_for_each False (fun past d' => dfs_ok G ({[n]} ∪ S) d' ∧ extends (mark n j d) d' ∧
                                      ∀ c, c ∈ past → visited d' c)).
  - split_and!; [by apply mark_ok|apply extends_refl|]. intros c Hc. by apply not_elem_of_nil in Hc.
  - intros past c rest d' Hl (Hok' & Hext' & Hpast).
    assert (edge G n c) as He.
    { exists (Q_CHILDREN j). split; [done|]. apply elem_of_set_list. rewrite Hl. set_solver. }
    eapply wpd_mono; [apply (IH c ({[n]} ∪ S)); [done|by apply (Hclosed n)| |]|].
    + intros g Hg. apply rtc_r with n; [|done]. apply elem_of_union in Hg as [Hg|Hg]; [|by apply HS].
      apply elem_of_singleton in Hg as ->. apply rtc_refl.
    + pose proof (ext_count _ _ Hext'). lia.
    + intros _ d'' (Hok'' & Hvc & Hext''). split_and!; [done|by eapply extends_trans|].
      intros x Hx. apply elem_of_app in Hx as [Hx|Hx].
      * by apply (ext_visited _ _ Hext''), Hpast.
      * apply list_elem_of_singleton in Hx as ->. done.
  - intros d' (Hok' & Hext' & Hpast). wpd_steps. simpl.
    assert (n ∈ {[n]} ∪ S) as Hin by set_solver.
    destruct (dfs_stack _ _ _ Hok' n Hin) as (j' & Hj' & Hv' & _).
    assert (Q_CHILDREN j' = Q_CHILDREN j) as Hcs.
    { pose proof (graph_node d' G n (dfs_graph _ _ _ Hok') Hn) as (j2 & ? & ?). simplify_eq. congruence. }
    eapply wpd_modJob; [exact Hj'|]. change (Z.succ (DFS_ORDER d')) with (DFS_ORDER d' + 1).
    fold (number n j' d').
    destruct (number_ok G S n j' d' Hok' HnS Hj') as [Hok'' Hext''].
    + intros c Hc. apply Hpast. apply elem_of_set_list. congruence.
    + intros g Hg. apply elem_of_union in Hg as [Hg|Hg]; [|by apply HS].
      apply elem_of_singleton in Hg as ->. apply rtc_refl.
    + split_and!; [done| |by eapply extends_trans; [|eapply extends_trans]].
      apply (ext_visited _ _ Hext''). by exists j'.
Qed.

(** ** [isCycle] *)

(** [_jobs] lists the nodes, and parents and children mirror each other. *)
Record graph_wf (d : Dag) : Prop := {
  wf_jobs n : n ∈ _jobs d ↔ n ∈ dom (_nodeIDHash d);
  wf_closed : closed (graph_of d);
  wf_parents n j p : _nodeIDHash d !! n = Some j → p ∈ Q_PARENTS j ↔ edge (graph_of d) p n;
}.

(** Before the first search, and after a search: the nodes without parents and
    those that they reach are numbered. *)
Definition fresh (d : Dag) : Prop :=
  ∀ n j, _nodeIDHash d !! n = Some j → _visited j = false ∧ _dfsOrder j = -1.
Record numbered (d : Dag) : Prop := {
  num_mark n j : _nodeIDHash d !! n = Some j →
    (_visited j = false ∧ _dfsOrder j = -1) ∨ (_visited j = true ∧ 1 ≤ _dfsOrder j);
  num_child n j c : _nodeIDHash d !! n = Some j → _visited j = true → c ∈ Q_CHILDREN j →
    ∃ jc, _nodeIDHash d !! c = Some jc ∧ _visited jc = true ∧
          (_dfsOrder jc < _dfsOrder j ∨ rtc (edge (graph_of d)) c n);
  num_root n j : _nodeIDHash d !! n = Some j → Q_PARENTS j = ∅ → _visited j = true;
}.

Lemma unnumbered_jobs d d' : unnumbered d' = unnumbered d → _jobs d' = _jobs d.
Proof. intros E. by apply (f_equal _jobs) in E. Qed.

Lemma strip_parents j j' : strip j' = strip j → Q_PARENTS j' = Q_PARENTS j.
Proof. intros E. by apply (f_equal Q_PARENTS) in E. Qed.

Lemma number_roots_fresh d : graph_wf d → fresh d → DFS_ORDER d = 0 →
  wpd False (for_each (_jobs d) number_root) d (fun _ d' => numbered d' ∧ unnumbered d' = unnumbered d).
Proof.
  intros Hwf Hf HO. set (G := graph_of d).
  assert (dfs_ok G ∅ d) as Hok.
  { constructor; [done|lia| | |].
    - intros n Hn. set_solver.
    - intros n j Hn. right; left. by apply (Hf n).
    - intros n j c Hn Ho _. destruct (Hf n j Hn). lia. }
  eapply (wpd_for_each False (fun past d' => dfs_ok G ∅ d' ∧ extends d d' ∧
    ∀ n j, n ∈ past → _nodeIDHash d' !! n = Some j → Q_PARENTS j = ∅ → _visited j = true)).
  - split_and!; [done|apply extends_refl|]. intros n j Hn. by apply not_elem_of_nil in Hn.
  - intros past n rest d' Hl (Hok' & Hext & Hpast). unfold number_root.
    assert (n ∈ dom (_nodeIDHash d)) as Hn by (apply (wf_jobs _ Hwf); rewrite Hl; set_solver).
    apply elem_of_dom in Hn as [j0 Hj0]. destruct (unnumbered_nodes d d' n j0 (ext_same _ _ Hext) Hj0) as (j & Hj & _).
    wpd_steps. apply wpd_when.
    + intros Hc. split_bools. eapply wpd_mono; [apply (DFSVisit_ok G); [apply Hwf|done| | |]|].
      * unfold G, graph_of. rewrite dom_fmap. by apply elem_of_dom.
      * set_solver.
      * unfold unvisited. pose proof (cnt_size (fun j => negb (_visited j)) (_nodeIDHash d')). lia.
      * intros _ d'' (Hok'' & (jv & Hjv & Hvv) & Hext'). split_and!; [done|by eapply extends_trans|].
        intros m jm Hm Hjm Hp. apply elem_of_app in Hm as [Hm|Hm]; [|by apply list_elem_of_singleton in Hm; simplify_eq].
        destruct (unnumbered_nodes d'' d' m jm (eq_sym (ext_same _ _ Hext')) Hjm) as (j1 & Hj1 & Hs).
        destruct (ext_visited _ _ Hext' m) as (j2 & ? & ?); [|congruence].
        exists j1. split; [done|]. eapply Hpast; [done|done|]. by rewrite (strip_parents jm j1).
    + intros Hc. split_and!; [done|done|]. intros m jm Hm Hjm Hp.
      apply elem_of_app in Hm as [Hm|Hm]; [by eapply Hpast|]. apply list_elem_of_singleton in Hm; simplify_eq.
      rewrite (bool_decide_eq_true_2 _ Hp), andb_true_r in Hc. by apply negb_false_iff in Hc.
  - intros d' (Hok' & Hext & Hpast). split; [|apply Hext].
    assert (graph_of d' = G) as HG by apply Hok'. constructor.
    + intros n j Hn. destruct (dfs_mark _ _ _ Hok' n j Hn) as [?|[?|[? ?]]]; [set_solver|by left|right; split; [done|lia]].
    + intros n j c Hn Hv Hc.
      assert (1 ≤ _dfsOrder j) as Ho.
      { destruct (dfs_mark _ _ _ Hok' n j Hn) as [?|[[? ?]|[? ?]]]; [set_solver|congruence|lia]. }
      destruct (dfs_child _ _ _ Hok' n j c Hn Ho Hc) as (jc & ? & ? & Hor). exists jc.
      rewrite HG. split_and!; [done|done|]. destruct Hor as [?|?]; [left; lia|by right].
    + intros n j Hn. apply (Hpast n); [|done]. apply (wf_jobs _ Hwf). destruct (unnumbered_nodes d' d n j) as (j0 & ? & _);
        [symmetry; apply Hext|done|]. apply elem_of_dom. eauto.
Qed.

Lemma number_roots_again d : graph_wf d → numbered d →
  wpd False (for_each (_jobs d) number_root) d (fun _ d' => d' = d).
Proof.
  intros Hwf Hn. apply (wpd_for_each_inv False (fun d' => d' = d)); [done| |done].
  intros n ? Hi ->. apply (wf_jobs _ Hwf), elem_of_dom in Hi as [j Hj]. unfold number_root. wpd_steps.
  apply wpd_when; [|done]. intros Hc. split_bools. apply bool_decide_eq_true in H0.
  pose proof (num_root _ Hn n j Hj H0). congruence.
Qed.

Lemma back_edge_ok d j cs : (∀ c, c ∈ cs → c ∈ dom (_nodeIDHash d)) →
  wpd False (back_edge j cs) d (fun b d' => d' = d ∧
    (b = true ↔ ∃ c jc, c ∈ cs ∧ _nodeIDHash d !! c = Some jc ∧ _dfsOrder j ≤ _dfsOrder jc)).
Proof.
  induction cs as [|c cs IH]; intros Hcs; simpl.
  - wpd_steps. split; [done|]. split; [done|]. intros (c & ? & Hc & _). by apply not_elem_of_nil in Hc.
  - pose proof (Hcs c ltac:(left)) as [jc Hjc]%elem_of_dom. wpd_steps.
    eapply wpd_mono; [apply IH; intros; apply Hcs; by right|]. intros b d' [-> Hb]. wpd_steps. split; [done|].
    rewrite orb_true_iff, Z.leb_le, Hb. split.
    + intros [Ho|(x & jx & Hx & ?)]; [exists c, jc; split; [left|done]|exists x, jx; split; [by right|done]].
    + intros (x & jx & Hx & Hjx & Ho). apply elem_of_cons in Hx as [->|Hx]; [left; congruence|right; eauto].
Qed.

Lemma back_edges_ok d ns : closed (graph_of d) → (∀ n, n ∈ ns → n ∈ dom (_nodeIDHash d)) →
  wpd False (back_edges ns) d (fun b d' => d' = d ∧
    (b = true ↔ ∃ n j c jc, n ∈ ns ∧ _nodeIDHash d !! n = Some j ∧ c ∈ Q_CHILDREN j ∧
                            _nodeIDHash d !! c = Some jc ∧ _dfsOrder j ≤ _dfsOrder jc)).
Proof.
  intros Hcl. induction ns as [|n ns IH]; intros Hns; simpl.
  - wpd_steps. split; [done|]. split; [done|]. intros (n & ? & ? & ? & Hn & _). by apply not_elem_of_nil in Hn.
  - pose proof (Hns n ltac:(left)) as [j Hj]%elem_of_dom. wpd_steps.
    eapply wpd_mono; [apply back_edge_ok|].
    + intros c Hc%elem_of_set_list. rewrite <- (dom_fmap_L Q_CHILDREN). apply (Hcl n).
      exists (Q_CHILDREN j). unfold graph_of. by rewrite lookup_fmap, Hj.
    + intros b d' [-> Hb]. wpd_steps. eapply wpd_mono; [apply IH; intros; apply Hns; by right|].
      intros b' d' [-> Hb']. wpd_steps. split; [done|]. rewrite orb_true_iff, Hb, Hb'. split.
      * intros [(c & jc & Hc%elem_of_set_list & ? & ?)|(m & jm & c & jc & ? & ?)].
        -- exists n, j, c, jc. split; [left|done].
        -- exists m, jm, c, jc. split; [by right|done].
      * intros (m & jm & c & jc & Hm & Hjm & Hc & Hjc & Ho). apply elem_of_cons in Hm as [->|Hm].
        -- left. simplify_eq. exists c, jc. by rewrite elem_of_set_list.
        -- right. exists m, jm, c, jc. done.
Qed.

(** A finite set of nodes that all have a parent in the set has a cycle: a path
    backwards cannot go on without meeting itself. *)
Lemma backward_path (G : Graph) (U : gset JobID_t) n0 k :
  n0 ∈ U → (∀ n, n ∈ U → ∃ p, p ∈ U ∧ edge G p n) →
  cyclic G ∨ ∃ x l, length l = k ∧ NoDup (x :: l) ∧ (∀ y, y ∈ x :: l → y ∈ U ∧ rtc (edge G) x y).
Proof.
  intros Hn0 Hp. induction k as [|k [IH|(x & l & Hk & Hnd & Hl)]]; [right|by left|].
  { exists n0, []. split_and!; [done|apply NoDup_singleton|]. intros y Hy.
    apply list_elem_of_singleton in Hy as ->. split; [done|apply rtc_refl]. }
  destruct (Hp x) as (p & HpU & He); [apply Hl; left|]. destruct (decide (p ∈ x :: l)) as [Hi|Hn].
  - left. exists p. eapply tc_rtc_r; [by apply tc_once|]. by apply Hl.
  - right. exists p, (x :: l). split_and!; [simpl; congruence|by constructor|]. intros y Hy.
    apply elem_of_cons in Hy as [->|Hy]; [split; [done|apply rtc_refl]|].
    destruct (Hl y Hy). split; [done|]. by eapply rtc_l.
Qed.

Lemma no_source_cyclic (G : Graph) (U : gset JobID_t) n0 :
  n0 ∈ U → (∀ n, n ∈ U → ∃ p, p ∈ U ∧ edge G p n) → cyclic G.
Proof.
  intros Hn0 Hp. destruct (backward_path G U n0 (size U) Hn0 Hp) as [?|(x & l & Hk & Hnd & Hl)]; [done|].
  exfalso. assert (x :: l ⊆ elements U) as Hsub by (intros y Hy; apply elem_of_elements; by apply Hl).
  pose proof (submseteq_length _ _ (NoDup_submseteq _ _ Hnd Hsub)) as Hlen.
  unfold size, set_size in Hk. simpl in *. lia.
Qed.

(** Numbers decrease along every edge of a path. *)
Lemma decreasing_path (G : Graph) (f : JobID_t → Z) n m :
  (∀ x y, edge G x y → f y < f x) → tc (edge G) n m → f m < f n.
Proof. intros Hf. induction 1 as [x y He|x y z He _ IH]; [by apply Hf|]. pose proof (Hf x y He). lia. Qed.

Lemma edge_node d n c : edge (graph_of d) n c ↔ ∃ j, _nodeIDHash d !! n = Some j ∧ c ∈ Q_CHILDREN j.
Proof.
  unfold edge, graph_of. split.
  - intros (cs & Hn & Hc). rewrite lookup_fmap in Hn. apply fmap_Some in Hn as (j & ? & ->). eauto.
  - intros (j & Hn & Hc). exists (Q_CHILDREN j). by rewrite lookup_fmap, Hn.
Qed.

(** A numbered DAG has a cycle exactly when an edge does not lead to a smaller
    number. *)
Lemma numbered_cyclic d : graph_wf d → numbered d →
  (∃ n j c jc, n ∈ _jobs d ∧ _nodeIDHash d !! n = Some j ∧ c ∈ Q_CHILDREN j ∧
               _nodeIDHash d !! c = Some jc ∧ _dfsOrder j ≤ _dfsOrder jc) ↔ cyclic (graph_of d).
Proof.
  intros Hwf Hnum. split.
  - intros (n & j & c & jc & _ & Hn & Hc & Hjc & Ho).
    assert (edge (graph_of d) n c) as He by (apply edge_node; eauto).
    destruct (num_mark _ Hnum n j Hn) as [[Hv _]|[Hv _]].
    + apply (no_source_cyclic _ (dom (filter (fun kv => _visited kv.2 = false) (_nodeIDHash d))) n).
      { apply elem_of_dom. exists j. by apply map_lookup_filter_Some. }
      intros m [jm [Hm Hvm]%map_lookup_filter_Some]%elem_of_dom. simpl in Hvm.
      destruct (set_choose_or_empty (Q_PARENTS jm)) as [[p Hp]|Hemp].
      2: { pose proof (num_root _ Hnum m jm Hm ltac:(by apply leibniz_equiv)). congruence. }
      apply (wf_parents _ Hwf m jm p Hm) in Hp. exists p. split; [|done].
      apply edge_node in Hp as (jp & Hjp & Hmp). apply elem_of_dom. exists jp. apply map_lookup_filter_Some.
      split; [done|]. simpl. destruct (num_mark _ Hnum p jp Hjp) as [[? _]|[Hvp _]]; [done|].
      destruct (num_child _ Hnum p jp m Hjp Hvp Hmp) as (jm' & ? & ? & _). congruence.
    + destruct (num_child _ Hnum n j c Hn Hv Hc) as (jc' & Hjc' & _ & Hor). simplify_eq.
      destruct Hor as [?|Hr]; [lia|]. exists n. by eapply tc_rtc_r; [apply tc_once|].
  - intros [n Hcyc].
    destruct (wpd_inv _ _ _ (back_edges_ok d (_jobs d) (wf_closed _ Hwf) (fun m => proj1 (wf_jobs _ Hwf m))))
      as ([] & d' & _ & _ & Hb); [by apply Hb|].
    exfalso. set (f := fun n => match _nodeIDHash d !! n with Some j => _dfsOrder j | None => 0 end).
    apply (Z.lt_irrefl (f n)). apply (decreasing_path (graph_of d) f n n); [|done].
    intros x y Hxy. pose proof (wf_closed _ Hwf x y Hxy) as Hy. apply edge_node in Hxy as (j & Hj & Hc).
    unfold graph_of in Hy. rewrite dom_fmap in Hy. apply elem_of_dom in Hy as [jy Hjy].
    unfold f. rewrite Hj, Hjy. apply Z.nle_gt. intros Hle.
    assert (false = true); [|done]. apply Hb. exists x, j, y, jy. split_and!; [|done..].
    apply (wf_jobs _ Hwf), elem_of_dom. eauto.
Qed.

Lemma unnumbered_wf d d' : unnumbered d' = unnumbered d → graph_wf d → graph_wf d'.
Proof.
  intros Hs Hwf. pose proof (unnumbered_graph d d' Hs) as HG. constructor.
  - intros n. rewrite (unnumbered_jobs _ _ Hs), (wf_jobs _ Hwf), !elem_of_dom.
    split; intros [j Hj]; [destruct (unnumbered_nodes d d' n j Hs Hj) as (? & ? & _)
                          |destruct (unnumbered_nodes d' d n j (eq_sym Hs) Hj) as (? & ? & _)]; eauto.
  - rewrite HG. apply Hwf.
  - intros n j p Hj. rewrite HG. destruct (unnumbered_nodes d' d n j (eq_sym Hs) Hj) as (j0 & Hj0 & Hst).
    rewrite <- (strip_parents j j0) by done. by apply (wf_parents _ Hwf n).
Qed.

Lemma isCycle_ok d : graph_wf d → fresh d ∨ numbered d →
  wpd False isCycle d (fun b d' => (b = true ↔ cyclic (graph_of d)) ∧ numbered d' ∧ unnumbered d' = unnumbered d).
Proof.
  intros Hwf Hstart. unfold isCycle. wpd_steps. simpl. set (d0 := d <| DFS_ORDER := 0 |>).
  assert (wpd False (for_each (_jobs d) number_root) d0 (fun _ d' => numbered d' ∧ unnumbered d' = unnumbered d)) as Hnum.
  { assert (graph_wf d0) as Hwf0 by (by destruct Hwf). destruct Hstart as [Hf|Hn].
    - by apply (number_roots_fresh d0).
    - eapply wpd_mono; [apply (number_roots_again d0); [done|by destruct Hn]|].
      intros _ d' ->. split; [by destruct Hn|done]. }
  eapply wpd_mono; [exact Hnum|]. intros _ d' [Hn Hsame].
  assert (graph_of d' = graph_of d) as HG by (by apply unnumbered_graph).
  assert (graph_wf d') as Hwf' by (by apply (unnumbered_wf d)).
  eapply wpd_mono; [apply (back_edges_ok d' (_jobs d))|].
  - apply Hwf'.
  - intros n. rewrite <- (unnumbered_jobs _ _ Hsame). apply (wf_jobs _ Hwf').
  - intros b d'' [-> Hb]. split; [|done]. rewrite Hb, <- (unnumbered_jobs _ _ Hsame), numbered_cyclic by done.
    by rewrite HG.
Qed.

(** ** Theorems *)

(** C24. [isCycle] terminates and is right on every DAG whose dependencies are
    symmetric: it answers [true] exactly when a node can be reached from itself,
    also through nodes that no node without parents reaches, which it does not
    number.  It changes only the marks and numbers of the search, and a later
    call, which finds them set, gives the same answer. *)
Theorem isCycle_correct d : graph_wf d → fresh d →
  ∃ b d', isCycle d = Done b d' ∧ (b = true ↔ cyclic (graph_of d)) ∧ unnumbered d' = unnumbered d ∧
  ∃ d'', isCycle d' = Done b d'' ∧ unnumbered d'' = unnumbered d.
Proof.
  intros Hwf Hf. destruct (wpd_inv _ _ _ (isCycle_ok d Hwf (or_introl Hf))) as (b & d' & E & Hb & Hn & Hs).
  exists b, d'. split_and!; [done|done|done|].
  assert (graph_of d' = graph_of d) as HG by (by apply unnumbered_graph).
  assert (graph_wf d') as Hwf' by (by apply (unnumbered_wf d)).
  destruct (wpd_inv _ _ _ (isCycle_ok d' Hwf' (or_intror Hn))) as (b' & d'' & E' & Hb' & _ & Hs').
  exists d''. split; [|congruence]. rewrite E'. f_equal. rewrite HG in Hb'. destruct b, b'; naive_solver.
Qed.
