(* ===== verification/DagInv.v ===== *)
(** * DagInv

    The invariant of a running DAG: every node is in exactly one of the places
    that its status stands for, the counters count the nodes, a node waits for
    its unfinished parents and for nothing else, and a node that was started
    waits for none.

    A handler takes a node out of the place it is in, works on it and puts it
    into another place.  The invariant is therefore stated for a set of nodes
    that may lack one, the node in hand. *)
From stdpp Require Import base gmap list sorting relations sets.
From Stdlib Require Import ZArith Lia.
From S2P Require Import Prelude PriorityList Dag DagCycle.
Open Scope Z_scope.
Open Scope condor_scope.

(** ** The ready queue as a set *)

Lemma InsertAt_items {A} i (x : A) p l :
  list_ok l → items (InsertAt i x p l) ≡ₚ x :: items l ∧ list_ok (InsertAt i x p l).
Proof.
  intros (Hl & Hm & Hn). unfold InsertAt, list_ok, Number in *.
  assert (∀ (B : Type) k (y : B) ys, take k ys ++ y :: drop k ys ≡ₚ y :: ys) as Hp.
  { intros B k y ys. rewrite <- Permutation_middle, take_drop. done. }
  assert (∀ (B : Type) k (y : B) ys, length (take k ys ++ y :: drop k ys) = S (length ys)) as Hlen.
  { intros B k y ys. by rewrite Hp. }
  destruct (Z.leb_spec (maximum_size l) (Z.of_nat (length (items l)))).
  - assert (Z.to_nat (Z.min (Z.of_nat (length (items l))) (2 * maximum_size l - 1)) = length (items l)) as Hsz by lia.
    unfold resize, Number. simpl. rewrite Hsz, (firstn_all (items l)), <- Hl, firstn_all, !Hlen, Hp.
    split; [done|]. split_and!; lia.
  - simpl. rewrite !Hlen, Hp. split; [done|]. split_and!; lia.
Qed.

Lemma Append_items {A} (x : A) p l : list_ok l → items (Append x p l) ≡ₚ x :: items l ∧ list_ok (Append x p l).
Proof. apply InsertAt_items. Qed.
Lemma Prepend_items {A} (x : A) p l : list_ok l → items (Prepend x p l) ≡ₚ x :: items l ∧ list_ok (Prepend x p l).
Proof. apply InsertAt_items. Qed.

Lemma remove_nth_perm {A} (xs : list A) i x : xs !! i = Some x → x :: remove_nth i xs ≡ₚ xs.
Proof.
  intros Hi. unfold remove_nth. rewrite Permutation_middle.
  rewrite <- (take_drop_middle xs i x Hi) at 3. done.
Qed.

(** One step of a scan of the list. *)
Lemma Next_Some {A} (l l' : PrioritySimpleList A) x : Next l = (Some x, l') → -1 ≤ current l →
  items l !! Z.to_nat (current l') = Some x ∧ items l' = items l ∧ priorities l' = priorities l ∧
  maximum_size l' = maximum_size l ∧ current l' = current l + 1.
Proof.
  unfold Next. destruct (Number l - 1 <=? current l); [done|]. intros [= Hx <-] Hc. simpl.
  split_and!; [by rewrite Z.add_comm|done..|lia].
Qed.

Lemma Next_None {A} (l l' : PrioritySimpleList A) : Next l = (None, l') → -1 ≤ current l → list_ok l →
  l' = l ∧ Number l - 1 ≤ current l.
Proof.
  unfold Next. destruct (Z.leb_spec (Number l - 1) (current l)); [intros [= <-]; done|].
  intros [= Hx <-] Hc _. apply lookup_ge_None in Hx. unfold Number in *. lia.
Qed.

Lemma DeleteCurrent_items {A} (l : PrioritySimpleList A) x :
  list_ok l → 0 ≤ current l → items l !! Z.to_nat (current l) = Some x →
  x :: items (DeleteCurrent l) ≡ₚ items l ∧ list_ok (DeleteCurrent l) ∧ current (DeleteCurrent l) = current l - 1.
Proof.
  intros (Hl & Hm & Hn) Hc Hx. pose proof (lookup_lt_Some _ _ _ Hx) as Hlt. unfold DeleteCurrent, list_ok, Number in *.
  destruct (Z.leb_spec (Z.of_nat (length (items l))) (current l)); [lia|].
  destruct (Z.ltb_spec (current l) 0); [lia|]. simpl.
  split; [by apply remove_nth_perm|]. split; [|lia].
  pose proof (Permutation_length (remove_nth_perm _ _ _ Hx)) as H1.
  assert (∃ p, priorities l !! Z.to_nat (current l) = Some p) as [p Hp] by (apply lookup_lt_is_Some; lia).
  pose proof (Permutation_length (remove_nth_perm _ _ _ Hp)) as H2. simpl in *. split_and!; lia.
Qed.

(** ** Places *)

Definition is_st (s : status_t) (j : Job) : bool := bool_decide (_Status j = s).
Definition in_cat (c : cstr) (j : Job) : bool := is_st STATUS_SUBMITTED j && bool_decide (_throttleInfo j = Some c).

Definition running (q : ScriptQ) : list JobID_t := (map_to_list (_scriptPidTable q)).*2.
Definition skipped (l : list (JobID_t * ULogEvent)) : list JobID_t :=
  (filter (fun e => e.2 = PreSkipEvent) l).*1.
Definition posted (l : list (JobID_t * ULogEvent)) : list JobID_t :=
  (filter (fun e => e.2 ≠ PreSkipEvent) l).*1.

(** Where a node with its PRE script, or its POST script, is: its script waits, runs,
    or has left an event in the log. *)
Definition pre_place (d : Dag) : list JobID_t :=
  _waitingQueue (_preScriptQ d) ++ running (_preScriptQ d) ++ skipped (userlog d).
Definition post_place (d : Dag) : list JobID_t :=
  _waitingQueue (_postScriptQ d) ++ running (_postScriptQ d) ++ posted (userlog d).

Definition script_of (post : bool) (j : Job) : option Script := if post then _scriptPost j else _scriptPre j.

(** The conditions on a node by its status. *)
Record local_ok (j : Job) : Prop := {
  l_done : countedAsDone j = is_st STATUS_DONE j;
  l_queued : 0 ≤ _queuedNodeJobProcs j ≤ 1;
  l_queued_st : _queuedNodeJobProcs j = 1 → _Status j = STATUS_SUBMITTED;
  l_idle : _isIdle j = true → _Status j = STATUS_SUBMITTED;
  l_pre : _Status j = STATUS_PRERUN → is_Some (_scriptPre j);
  l_post : _Status j = STATUS_POSTRUN → is_Some (_scriptPost j);
  l_waiting : _Status j ≠ STATUS_READY → _Status j ≠ STATUS_DONE → Q_WAITING j = ∅;
}.

(** What is still to be done in a state: the nodes that are ready but not yet
    started, and the skipped nodes that have been terminated and are still counted
    with the PRE scripts. *)
Record pending := mkPending { unstarted : gset JobID_t; uncounted : Z }.
#[export] Instance pending_elem_of : ElemOf JobID_t pending := fun n X => n ∈ unstarted X.
Definition nothing : pending := mkPending ∅ 0.

(** [m] are the nodes in their places. *)
Record core_ok (m : gmap JobID_t Job) (X : pending) (d : Dag) : Prop := {
  c_local n j : m !! n = Some j → local_ok j;
  c_ready_nd : NoDup (items (_readyQ d));
  c_ready n : n ∈ items (_readyQ d) ↔
    ∃ j, m !! n = Some j ∧ _Status j = STATUS_READY ∧ Q_WAITING j = ∅ ∧ n ∉ X;
  c_pre_nd : NoDup (pre_place d);
  c_pre n : n ∈ pre_place d ↔ ∃ j, m !! n = Some j ∧ _Status j = STATUS_PRERUN;
  c_post_nd : NoDup (post_place d);
  c_post n : n ∈ post_place d ↔ ∃ j, m !! n = Some j ∧ _Status j = STATUS_POSTRUN;
  c_pid post pid n : _scriptPidTable (scriptQ post d) !! pid = Some n →
    ∃ j, m !! n = Some j ∧ _pid <$> script_of post j = Some pid;
  c_numDone : _numNodesDone d = cnt (is_st STATUS_DONE) m;
  c_numFailed : _numNodesFailed d = cnt (is_st STATUS_ERROR) m;
  c_numSubmitted : _numJobsSubmitted d = cnt (is_st STATUS_SUBMITTED) m;
  c_numPre : _preRunNodeCount d = cnt (is_st STATUS_PRERUN) m + uncounted X;
  c_numPost : _postRunNodeCount d = cnt (is_st STATUS_POSTRUN) m;
  c_numIdle : _numIdleJobProcs d = cnt _isIdle m;
  c_cat c t : _throttles d !! c = Some t → _currentJobs t = cnt (in_cat c) m;
}.

(** What does not depend on the node in hand.  A parent that is done and has not
    yet been removed from the waiting set of a child is a pair of [W]. *)
Definition undone (d : Dag) (p : JobID_t) : Prop := ∃ jp, _nodeIDHash d !! p = Some jp ∧ _Status jp ≠ STATUS_DONE.
Record static_ok (d : Dag) (n : JobID_t) (j : Job) : Prop := {
  s_retries : 0 ≤ retries j ≤ retry_max j;
  s_final : _final j = true ↔ _final_job d = Some n;
  s_final_graph : _final j = true → Q_PARENTS j = ∅ ∧ Q_CHILDREN j = ∅;
  s_cat c : _throttleInfo j = Some c → is_Some (_throttles d !! c);
  s_pending : _Status j = STATUS_NOT_READY → is_Some (_final_job d);
  s_id : _cluster j ≠ -1 → _condorIDHash d !! _cluster j = Some n;
}.
Section Inv.
Variable cfg : DagConfig.

Record frame_ok (W : JobID_t → JobID_t → Prop) (d : Dag) : Prop := {
  f_graph : graph_wf d;
  f_search : fresh d ∨ numbered d;
  f_jobs : NoDup (_jobs d);
  f_waits c jc p : _nodeIDHash d !! c = Some jc → p ∈ Q_WAITING jc ↔ p ∈ Q_PARENTS jc ∧ (undone d p ∨ W p c);
  f_static n j : _nodeIDHash d !! n = Some j → static_ok d n j;
  f_final f : _final_job d = Some f → is_Some (_nodeIDHash d !! f);
  f_readyQ : list_ok (_readyQ d);
  f_log e : e ∈ userlog d → e.2 = PreSkipEvent ∨ ∃ nm rv sig, e.2 = PostScriptTerminatedEvent nm rv sig;
  f_running post : _numScriptsRunning (scriptQ post d) = Z.of_nat (size (_scriptPidTable (scriptQ post d)));
  f_max_jobs : _maxJobsSubmitted cfg ≠ 0 → _numJobsSubmitted d ≤ Z.max 0 (_maxJobsSubmitted cfg);
  f_max_cat c t : _throttles d !! c = Some t → isSet t = true → _currentJobs t ≤ Z.max 0 (_maxJobs t);
  f_max_scripts (post : bool) : (if post then _maxPostScripts cfg else _maxPreScripts cfg) ≠ 0 →
    _numScriptsRunning (scriptQ post d) ≤ Z.max 0 (if post then _maxPostScripts cfg else _maxPreScripts cfg);
}.

Definition live (hand : option JobID_t) (d : Dag) : gmap JobID_t Job :=
  match hand with Some n => delete n (_nodeIDHash d) | None => _nodeIDHash d end.
Definition inv (hand : option JobID_t) (X : pending) (W : JobID_t → JobID_t → Prop) (d : Dag) : Prop :=
  frame_ok W d ∧ core_ok (live hand d) X d ∧
  (∀ n, n ∈ X → ∃ j, live hand d !! n = Some j ∧ _Status j = STATUS_READY ∧ Q_WAITING j = ∅).
End Inv.

(** ** Updates that keep the frame *)

(** The fields that the invariant speaks of. *)
Definition core_of (d : Dag) :=
  (_jobs d, _nodeIDHash d, _final_job d, _readyQ d, _throttles d, _preScriptQ d, _postScriptQ d, userlog d,
   (_numNodesDone d, _numNodesFailed d, _numJobsSubmitted d, _numIdleJobProcs d, _preRunNodeCount d,
    _postRunNodeCount d, _condorIDHash d)).

Lemma graph_wf_ext d d' : _jobs d' = _jobs d → _nodeIDHash d' = _nodeIDHash d → graph_wf d → graph_wf d'.
Proof. intros Ej En []. constructor; unfold graph_of in *; rewrite ?Ej, ?En; done. Qed.
Lemma search_ext d d' : _nodeIDHash d' = _nodeIDHash d → fresh d ∨ numbered d → fresh d' ∨ numbered d'.
Proof.
  intros En [Hf|[]]; [left|right]; [unfold fresh; by rewrite En|].
  constructor; unfold graph_of in *; rewrite ?En; done.
Qed.
Lemma static_ext d d' n j : _final_job d' = _final_job d → dom (_throttles d') = dom (_throttles d) →
  _condorIDHash d' = _condorIDHash d → static_ok d n j → static_ok d' n j.
Proof.
  intros Ef Et Ei []. constructor; [done|by rewrite Ef|done| |by rewrite Ef|by rewrite Ei]. intros c Hc.
  apply elem_of_dom. rewrite Et. apply elem_of_dom. eauto.
Qed.

(** The two parts of the invariant, from the fields they use. *)
Lemma frame_ext cfg W d d' : core_of d' = core_of d → frame_ok cfg W d → frame_ok cfg W d'.
Proof.
  intros E []. unfold core_of in E. injection E as E1 E2 E3 E4 E5 E6 E7 E8 E9 E10 E11 E12 E13 E14 E15.
  constructor; unfold undone, scriptQ in *; rewrite ?E1, ?E2, ?E3, ?E4, ?E5, ?E6, ?E7, ?E8, ?E11; try done.
  - by apply (graph_wf_ext d).
  - by apply (search_ext d).
  - intros n j Hn. apply (static_ext d); [done|by rewrite E5|done|by apply f_static0].
Qed.
Lemma core_ext m X d d' : core_of d' = core_of d → core_ok m X d → core_ok m X d'.
Proof.
  intros E []. unfold core_of in E. injection E as E1 E2 E3 E4 E5 E6 E7 E8 E9 E10 E11 E12 E13 E14 E15.
  constructor; unfold pre_place, post_place, scriptQ in *;
    rewrite ?E4, ?E5, ?E6, ?E7, ?E8, ?E9, ?E10, ?E11, ?E12, ?E13, ?E14; done.
Qed.
Lemma inv_core cfg h X W d d' : core_of d' = core_of d → inv cfg h X W d → inv cfg h X W d'.
Proof.
  intros E (F & C & I). pose proof E as E'. unfold core_of in E'. injection E' as _ E2 _ _ _ _ _ _ _ _ _ _ _ _ _.
  assert (live h d' = live h d) as El by (unfold live; by rewrite E2).
  split_and!; [by apply (frame_ext cfg W d)|rewrite El; by apply (core_ext _ _ d)|by rewrite El].
Qed.

(** What a change of a node leaves as it was. *)
Record same_static (j j' : Job) : Prop := {
  ss_parents : Q_PARENTS j' = Q_PARENTS j;
  ss_waiting : Q_WAITING j' = Q_WAITING j;
  ss_children : Q_CHILDREN j' = Q_CHILDREN j;
  ss_final : _final j' = _final j;
  ss_cat : _throttleInfo j' = _throttleInfo j;
  ss_visited : _visited j' = _visited j;
  ss_order : _dfsOrder j' = _dfsOrder j;
  ss_cluster : _cluster j' = _cluster j;
  ss_retries : 0 ≤ retries j' ≤ retry_max j';
}.

Ltac lookup_case n m :=
  destruct (decide (m = n)) as [->|];
  [rewrite ?lookup_insert_eq in * |rewrite ?lookup_insert_ne in * by congruence].

Lemma graph_of_insert d n j j' : _nodeIDHash d !! n = Some j → Q_CHILDREN j' = Q_CHILDREN j →
  graph_of (d <| _nodeIDHash ::= insert n j' |>) = graph_of d.
Proof.
  intros Hn Hc. unfold graph_of; simpl. rewrite fmap_insert, Hc. apply insert_id. by rewrite lookup_fmap, Hn.
Qed.

Lemma graph_wf_insert d n j j' : _nodeIDHash d !! n = Some j → Q_CHILDREN j' = Q_CHILDREN j →
  Q_PARENTS j' = Q_PARENTS j → graph_wf d → graph_wf (d <| _nodeIDHash ::= insert n j' |>).
Proof.
  intros Hn Hc Hp [H1 H2 H3]. pose proof (graph_of_insert d n j j' Hn Hc) as HG. constructor.
  - intros m. simpl. rewrite H1, dom_insert_lookup; [done|eauto].
  - by rewrite HG.
  - intros m jm p Hm. rewrite HG. simpl in Hm. lookup_case n m; [|by apply H3].
    injection Hm as <-. rewrite Hp. by apply H3.
Qed.

Lemma search_insert d n j j' : _nodeIDHash d !! n = Some j → Q_CHILDREN j' = Q_CHILDREN j →
  Q_PARENTS j' = Q_PARENTS j → _visited j' = _visited j → _dfsOrder j' = _dfsOrder j →
  fresh d ∨ numbered d →
  fresh (d <| _nodeIDHash ::= insert n j' |>) ∨ numbered (d <| _nodeIDHash ::= insert n j' |>).
Proof.
  intros Hn Hc Hp Hv Ho [Hf|[N1 N2 N3]]; [left|right].
  - intros m jm Hm. simpl in Hm. lookup_case n m; [|by eapply Hf]. injection Hm as <-. rewrite Hv, Ho. by eapply Hf.
  - constructor.
    + intros m jm Hm. simpl in Hm. lookup_case n m; [|by eapply N1]. injection Hm as <-. rewrite Hv, Ho. by eapply N1.
    + intros m jm c Hm Hvm Hcm. rewrite (graph_of_insert d n j j') by done. simpl in *.
      assert (∃ jm0, _nodeIDHash d !! m = Some jm0 ∧ _visited jm0 = true ∧ c ∈ Q_CHILDREN jm0 ∧
                     _dfsOrder jm0 = _dfsOrder jm) as (jm0 & Hm0 & Hv0 & Hc0 & Ho0).
      { lookup_case n m; [injection Hm as <-; exists j; rewrite <- Hv, <- Hc; done|eauto]. }
      destruct (N2 m jm0 c Hm0 Hv0 Hc0) as (jc & Hjc & Hvc & Hor). rewrite <- Ho0.
      lookup_case n c; [|by exists jc]. exists j'. simplify_eq. by rewrite Hv, Ho.
    + intros m jm Hm Hpm. simpl in Hm. lookup_case n m; [|by eapply N3]. injection Hm as <-.
      rewrite Hv. eapply N3; [done|congruence].
Qed.

Lemma undone_insert d n j j' p : _nodeIDHash d !! n = Some j →
  (_Status j' = STATUS_DONE ↔ _Status j = STATUS_DONE) →
  undone (d <| _nodeIDHash ::= insert n j' |>) p ↔ undone d p.
Proof.
  intros Hn Hs. unfold undone; simpl. lookup_case n p; [|done].
  split; intros (jp & ? & Hd); simplify_eq; eexists; (split; [done|]); tauto.
Qed.

(** A change of a node that may change what it waits for, or be its end. *)
Lemma frame_insert_gen cfg W W' d n j j' : _nodeIDHash d !! n = Some j →
  same_static (j <| Q_WAITING := Q_WAITING j' |>) j' →
  (_Status j' = STATUS_NOT_READY → _Status j = STATUS_NOT_READY ∨ is_Some (_final_job d)) →
  (∀ c jc p, <[n := j']> (_nodeIDHash d) !! c = Some jc →
     p ∈ Q_WAITING jc ↔ p ∈ Q_PARENTS jc ∧ (undone (d <| _nodeIDHash ::= insert n j' |>) p ∨ W' p c)) →
  frame_ok cfg W d → frame_ok cfg W' (d <| _nodeIDHash ::= insert n j' |>).
Proof.
  intros Hn [] Hnr Hwt []. constructor; try done.
  - by apply (graph_wf_insert d n j).
  - by apply (search_insert d n j).
  - intros m jm Hm. simpl in Hm. lookup_case n m.
    + injection Hm as <-. destruct (f_static0 n j Hn). simpl in *. constructor; [done|..]; simpl.
      * by rewrite ss_final0.
      * by rewrite ss_final0, ss_parents0, ss_children0.
      * by rewrite ss_cat0.
      * intros Hr. destruct (Hnr Hr); auto.
      * by rewrite ss_cluster0.
    + destruct (f_static0 m jm Hm). by constructor.
  - intros f Hf. simpl in *. destruct (f_final0 f Hf). lookup_case n f; eauto.
Qed.

Lemma frame_insert cfg W d n j j' : _nodeIDHash d !! n = Some j → same_static j j' →
  (_Status j' = STATUS_DONE ↔ _Status j = STATUS_DONE) →
  (_Status j' = STATUS_NOT_READY → _Status j = STATUS_NOT_READY ∨ is_Some (_final_job d)) →
  frame_ok cfg W d → frame_ok cfg W (d <| _nodeIDHash ::= insert n j' |>).
Proof.
  intros Hn Hss Hs Hnr F. apply (frame_insert_gen cfg W W d n j j'); [done|by destruct Hss|done| |done].
  intros c jc p Hc. rewrite (undone_insert d n j) by done. lookup_case n c; [|by apply (f_waits cfg W d F)].
  injection Hc as <-. rewrite (ss_waiting _ _ Hss), (ss_parents _ _ Hss). by apply (f_waits cfg W d F).
Qed.

(** Changing the node in hand. *)
Lemma inv_hand cfg n X W d j j' : _nodeIDHash d !! n = Some j → same_static j j' →
  (_Status j' = STATUS_DONE ↔ _Status j = STATUS_DONE) →
  (_Status j' = STATUS_NOT_READY → _Status j = STATUS_NOT_READY ∨ is_Some (_final_job d)) →
  inv cfg (Some n) X W d → inv cfg (Some n) X W (d <| _nodeIDHash ::= insert n j' |>).
Proof.
  intros Hn Hss Hs Hnr (F & C & I). split_and!; [by apply (frame_insert cfg W d n j)|..].
  - unfold live in *. simpl. rewrite delete_insert_eq. destruct C; by constructor.
  - unfold live in *. simpl. by rewrite delete_insert_eq.
Qed.

(** Changing the queues and counters, not the nodes. *)
Record frame_change (cfg : DagConfig) (d d' : Dag) : Prop := {
  fc_jobs : _jobs d' = _jobs d;
  fc_nodes : _nodeIDHash d' = _nodeIDHash d;
  fc_final : _final_job d' = _final_job d;
  fc_throttles : dom (_throttles d') = dom (_throttles d);
  fc_ids : _condorIDHash d' = _condorIDHash d;
  fc_readyQ : list_ok (_readyQ d) → list_ok (_readyQ d');
  fc_log e : e ∈ userlog d' → e ∈ userlog d ∨ e.2 = PreSkipEvent ∨ ∃ nm rv sig, e.2 = PostScriptTerminatedEvent nm rv sig;
  fc_running post : _numScriptsRunning (scriptQ post d) = Z.of_nat (size (_scriptPidTable (scriptQ post d))) →
    _numScriptsRunning (scriptQ post d') = Z.of_nat (size (_scriptPidTable (scriptQ post d')));
  fc_max_jobs : _maxJobsSubmitted cfg ≠ 0 → _numJobsSubmitted d ≤ Z.max 0 (_maxJobsSubmitted cfg) →
    _numJobsSubmitted d' ≤ Z.max 0 (_maxJobsSubmitted cfg);
  fc_max_cat c t' : _throttles d' !! c = Some t' → isSet t' = true →
    (∀ t, _throttles d !! c = Some t → isSet t = true → _currentJobs t ≤ Z.max 0 (_maxJobs t)) →
    _currentJobs t' ≤ Z.max 0 (_maxJobs t');
  fc_max_scripts (post : bool) : let lim := if post then _maxPostScripts cfg else _maxPreScripts cfg in lim ≠ 0 →
    _numScriptsRunning (scriptQ post d) ≤ Z.max 0 lim → _numScriptsRunning (scriptQ post d') ≤ Z.max 0 lim;
}.

Lemma frame_changed cfg W d d' : frame_change cfg d d' → frame_ok cfg W d → frame_ok cfg W d'.
Proof.
  intros [] []. constructor; unfold undone in *; rewrite ?fc_jobs0, ?fc_nodes0, ?fc_final0; try done; auto.
  - by apply (graph_wf_ext d).
  - by apply (search_ext d).
  - intros n j Hn. apply (static_ext d); [done..|by apply f_static0].
  - intros e He. destruct (fc_log0 e He); auto.
  - intros c t Ht Hs. apply (fc_max_cat0 c t Ht Hs). eauto.
Qed.

(** ** Taking a node and putting it back *)

(** [d'] is [d] with the node [n], which is [j], in its place. *)
Record placed (n : JobID_t) (j : Job) (d d' : Dag) : Prop := {
  p_nodes : _nodeIDHash d' = _nodeIDHash d;
  p_final : _final_job d' = _final_job d;
  p_ready : items (_readyQ d') ≡ₚ
    (if is_st STATUS_READY j && bool_decide (Q_WAITING j = ∅) then [n] else []) ++ items (_readyQ d);
  p_pre : pre_place d' ≡ₚ (if is_st STATUS_PRERUN j then [n] else []) ++ pre_place d;
  p_post : post_place d' ≡ₚ (if is_st STATUS_POSTRUN j then [n] else []) ++ post_place d;
  p_pid post pid m : _scriptPidTable (scriptQ post d') !! pid = Some m →
    _scriptPidTable (scriptQ post d) !! pid = Some m ∨ (m = n ∧ _pid <$> script_of post j = Some pid);
  p_pid' post pid m : _scriptPidTable (scriptQ post d) !! pid = Some m → _scriptPidTable (scriptQ post d') !! pid = Some m;
  p_numDone : _numNodesDone d' = _numNodesDone d + Z.b2z (is_st STATUS_DONE j);
  p_numFailed : _numNodesFailed d' = _numNodesFailed d + Z.b2z (is_st STATUS_ERROR j);
  p_numSubmitted : _numJobsSubmitted d' = _numJobsSubmitted d + Z.b2z (is_st STATUS_SUBMITTED j);
  p_numPre : _preRunNodeCount d' = _preRunNodeCount d + Z.b2z (is_st STATUS_PRERUN j);
  p_numPost : _postRunNodeCount d' = _postRunNodeCount d + Z.b2z (is_st STATUS_POSTRUN j);
  p_numIdle : _numIdleJobProcs d' = _numIdleJobProcs d + Z.b2z (_isIdle j);
  p_cat c : _currentJobs <$> _throttles d' !! c = (fun t => _currentJobs t + Z.b2z (in_cat c j)) <$> _throttles d !! c;
}.

(** A place that holds the nodes of [m] that satisfy [P], when [n] comes back. *)
Lemma place_put (P : JobID_t → Job → Prop) (m : gmap JobID_t Job) n j (l l' : list JobID_t) (b : bool) :
  m !! n = Some j → (b = true ↔ P n j) → l' ≡ₚ (if b then [n] else []) ++ l → NoDup l →
  (∀ x, x ∈ l ↔ ∃ jx, delete n m !! x = Some jx ∧ P x jx) →
  NoDup l' ∧ ∀ x, x ∈ l' ↔ ∃ jx, m !! x = Some jx ∧ P x jx.
Proof.
  intros Hn Hb Hp Hnd Hl. split.
  - rewrite Hp. destruct b; [|done]. simpl. constructor; [|done]. rewrite Hl. intros (jx & Hx & _).
    by rewrite lookup_delete_eq in Hx.
  - intros x. rewrite Hp, elem_of_app, Hl. destruct (decide (x = n)) as [->|Hne].
    + rewrite lookup_delete_eq. destruct b.
      * split; [intros _; exists j; tauto|]. intros _. left. set_solver.
      * split; [set_solver|]. intros (jx & Hx & HP). simplify_eq. destruct Hb as [_ Hb]. by specialize (Hb HP).
    + rewrite lookup_delete_ne by done. destruct b; set_solver.
Qed.

Lemma place_take (P : JobID_t → Job → Prop) (m : gmap JobID_t Job) n j (l l' : list JobID_t) (b : bool) :
  m !! n = Some j → (b = true ↔ P n j) → l' ≡ₚ (if b then [n] else []) ++ l → NoDup l' →
  (∀ x, x ∈ l' ↔ ∃ jx, m !! x = Some jx ∧ P x jx) →
  NoDup l ∧ ∀ x, x ∈ l ↔ ∃ jx, delete n m !! x = Some jx ∧ P x jx.
Proof.
  intros Hn Hb Hp Hnd Hl. rewrite Hp in Hnd. split; [by apply NoDup_app in Hnd as (_ & _ & ?)|].
  intros x. destruct (decide (x = n)) as [->|Hne].
  - rewrite lookup_delete_eq. split; [|set_solver]. intros Hx. exfalso.
    assert (n ∈ l') as Hn' by (rewrite Hp; set_solver). apply Hl in Hn' as (jx & Hx' & HP). simplify_eq.
    apply Hb in HP as ->. simpl in Hnd. by apply NoDup_cons in Hnd as [? _].
  - rewrite lookup_delete_ne, <- Hl, Hp, elem_of_app by done. destruct b; set_solver.
Qed.

Lemma cnt_put p (m : gmap JobID_t Job) n j : m !! n = Some j → cnt p m = cnt p (delete n m) + Z.b2z (p j).
Proof. intros Hn. rewrite (cnt_delete p n j m Hn). lia. Qed.

Lemma is_st_iff s j : is_st s j = true ↔ _Status j = s.
Proof. unfold is_st. by rewrite bool_decide_eq_true. Qed.

Lemma ready_iff j (n : JobID_t) (X : pending) : n ∉ X →
  is_st STATUS_READY j && bool_decide (Q_WAITING j = ∅) = true ↔
  _Status j = STATUS_READY ∧ Q_WAITING j = ∅ ∧ n ∉ X.
Proof. intros HX. rewrite andb_true_iff, is_st_iff, bool_decide_eq_true. tauto. Qed.

Lemma core_put n j X d d' :
  _nodeIDHash d !! n = Some j → n ∉ X → local_ok j → placed n j d d' →
  core_ok (delete n (_nodeIDHash d)) X d → core_ok (_nodeIDHash d) X d'.
Proof.
  intros Hn HX Hl [] [].
  destruct (place_put (fun x j => _Status j = STATUS_READY ∧ Q_WAITING j = ∅ ∧ x ∉ X) _ n j _ _ _ Hn
              (ready_iff j n X HX) p_ready0 c_ready_nd0 c_ready0).
  destruct (place_put (fun _ j => _Status j = STATUS_PRERUN) _ n j _ _ _ Hn (is_st_iff _ j) p_pre0 c_pre_nd0 c_pre0).
  destruct (place_put (fun _ j => _Status j = STATUS_POSTRUN) _ n j _ _ _ Hn (is_st_iff _ j) p_post0 c_post_nd0 c_post0).
  constructor; try done.
  - intros m jm Hm. destruct (decide (m = n)) as [->|]; [congruence|]. apply (c_local0 m). by rewrite lookup_delete_ne.
  - intros post pid m Hm. destruct (p_pid0 post pid m Hm) as [Hm'|[-> ?]]; [|eauto].
    destruct (c_pid0 post pid m Hm') as (jm & Hjm & ?). apply lookup_delete_Some in Hjm as [_ ?]. eauto.
  - rewrite (cnt_put _ _ n j Hn). lia.
  - rewrite (cnt_put _ _ n j Hn). lia.
  - rewrite (cnt_put _ _ n j Hn). lia.
  - rewrite (cnt_put _ _ n j Hn). lia.
  - rewrite (cnt_put _ _ n j Hn). lia.
  - rewrite (cnt_put _ _ n j Hn). lia.
  - intros c t Ht. pose proof (p_cat0 c) as Hc. rewrite Ht in Hc. symmetry in Hc.
    apply fmap_Some in Hc as (t0 & Ht0 & Heq). rewrite (cnt_put _ _ n j Hn), <- (c_cat0 c t0 Ht0). done.
Qed.

Lemma core_take n j X d d' :
  _nodeIDHash d' !! n = Some j → n ∉ X → placed n j d d' →
  core_ok (_nodeIDHash d') X d' → core_ok (delete n (_nodeIDHash d')) X d.
Proof.
  intros Hn HX [] [].
  destruct (place_take (fun x j => _Status j = STATUS_READY ∧ Q_WAITING j = ∅ ∧ x ∉ X) _ n j _ _ _ Hn
              (ready_iff j n X HX) p_ready0 c_ready_nd0 c_ready0).
  destruct (place_take (fun _ j => _Status j = STATUS_PRERUN) _ n j _ _ _ Hn (is_st_iff _ j) p_pre0 c_pre_nd0 c_pre0)
    as [Hpnd Hpre].
  destruct (place_take (fun _ j => _Status j = STATUS_POSTRUN) _ n j _ _ _ Hn (is_st_iff _ j) p_post0 c_post_nd0 c_post0)
    as [Hqnd Hpost].
  constructor; try done.
  - intros m jm Hm. apply lookup_delete_Some in Hm as [_ Hm]. by apply (c_local0 m).
  - intros post pid m Hm. destruct (c_pid0 post pid m (p_pid'0 post pid m Hm)) as (jm & Hjm & Hpid).
    exists jm. split; [|done]. rewrite lookup_delete_ne; [done|]. intros <-.
    assert (n ∈ running (scriptQ post d)) as Hr.
    { unfold running. apply list_elem_of_fmap. exists (pid, n). split; [done|]. by apply elem_of_map_to_list. }
    destruct post.
    + assert (n ∈ post_place d) as Hi by (unfold post_place; simpl in Hr; set_solver).
      apply Hpost in Hi as (? & Hd & _). by rewrite lookup_delete_eq in Hd.
    + assert (n ∈ pre_place d) as Hi by (unfold pre_place; simpl in Hr; set_solver).
      apply Hpre in Hi as (? & Hd & _). by rewrite lookup_delete_eq in Hd.
  - pose proof (cnt_put (is_st STATUS_DONE) _ n j Hn). lia.
  - pose proof (cnt_put (is_st STATUS_ERROR) _ n j Hn). lia.
  - pose proof (cnt_put (is_st STATUS_SUBMITTED) _ n j Hn). lia.
  - pose proof (cnt_put (is_st STATUS_PRERUN) _ n j Hn). lia.
  - pose proof (cnt_put (is_st STATUS_POSTRUN) _ n j Hn). lia.
  - pose proof (cnt_put _isIdle _ n j Hn). lia.
  - intros c t Ht. pose proof (p_cat0 c) as Hc. rewrite Ht in Hc. simpl in Hc.
    apply fmap_Some in Hc as (t0 & Ht0 & Heq). pose proof (c_cat0 c t0 Ht0) as Hcc.
    pose proof (cnt_put (in_cat c) _ n j Hn). lia.
Qed.

Section PutTake.
Variable cfg : DagConfig.

Lemma inv_put n j X W d d' :
  inv cfg (Some n) X W d → _nodeIDHash d !! n = Some j → n ∉ X → local_ok j → placed n j d d' →
  frame_change cfg d d' → inv cfg None X W d'.
Proof.
  intros (F & C & I) Hn HX Hl Hp Hf. split_and!; [by apply (frame_changed cfg W d)| |].
  - unfold live. rewrite (p_nodes _ _ _ _ Hp). by apply (core_put n j X d).
  - intros m Hm. destruct (I m Hm) as (jm & Hjm & ?). exists jm. split; [|done]. simpl in *. rewrite (p_nodes _ _ _ _ Hp).
    by apply lookup_delete_Some in Hjm as [_ ?].
Qed.

Lemma inv_take n j X W d d' :
  inv cfg None X W d' → _nodeIDHash d' !! n = Some j → n ∉ X → placed n j d d' →
  frame_change cfg d' d → inv cfg (Some n) X W d.
Proof.
  intros (F & C & I) Hn HX Hp Hf. split_and!; [by apply (frame_changed cfg W d')| |].
  - unfold live in *. rewrite <- (p_nodes _ _ _ _ Hp). by apply (core_take n j X d d').
  - intros m Hm. destruct (I m Hm) as (jm & Hjm & ?). exists jm. split; [|done]. simpl in *. rewrite <- (p_nodes _ _ _ _ Hp).
    rewrite lookup_delete_ne; [done|]. by intros <-.
Qed.
End PutTake.
