(* ===== verification/DagSafe.v ===== *)
(** * DagSafe

    The operations of a running DAG keep the invariant of [DagInv] and do not
    abort, in surroundings whose logs work. *)
From stdpp Require Import base gmap list sorting relations sets.
From Stdlib Require Import ZArith Lia.
From S2P Require Import Prelude PriorityList Dag DagCycle DagInv.
Open Scope Z_scope.
Open Scope condor_scope.

(** ** Surroundings *)

(** The log files can be monitored, one of three attempts to write to them succeeds,
    the process IDs of running scripts differ and the schedd gives a new cluster to
    every job.  Scripts and submissions may fail. *)
Record good_world (w : World) : Prop := {
  g_monitor d n : MonitorLogFile w d n = true;
  g_preskip d n : writePreSkipEvent w d n = true;
  g_rounds : (3 ≤ write_rounds w)%nat;
  g_write d n : ∃ k, (k < 3)%nat ∧ writeEvent w d n k = true;
  g_cluster d n c : condor_submit w d n = Some c → c ≠ -1 ∧ _condorIDHash d !! c = None;
  g_pid d n post pid : BackgroundRun w d n post = Created pid → pid ≠ 0 →
    _scriptPidTable (scriptQ post d) !! pid = None;
}.

(** ** Changes that a started node may cause *)

Definition no_aborts (d : Dag) : Prop := ∀ n j, _nodeIDHash d !! n = Some j → abort_dag_val j = None.

(** [n] is the node in hand; [A] says that no node aborts the DAG. *)
Record evolves (A : Prop) (n : JobID_t) (d d' : Dag) : Prop := {
  e_final : _final_job d' = _final_job d;
  e_jobs : _jobs d' = _jobs d;
  e_left m : (retries_left m d' ≤ retries_left m d)%nat;
  e_pending : final_status d' = Some STATUS_NOT_READY → final_status d = Some STATUS_NOT_READY;
  e_nodes m j' : _nodeIDHash d' !! m = Some j' → ∃ j, _nodeIDHash d !! m = Some j ∧
    abort_dag_val j' = abort_dag_val j ∧ Q_WAITING j' = Q_WAITING j ∧
    (_Status j' = STATUS_DONE ↔ _Status j = STATUS_DONE) ∧
    (m ≠ n → _Status j' = STATUS_READY → _Status j = STATUS_READY ∨ _final_job d = Some m);
  e_noabort : A → _final_job d ≠ Some n → final_status d' = final_status d;
}.

Lemma evolves_refl A n d : evolves A n d d.
Proof. constructor; auto. intros m j' Hm. exists j'. split_and!; auto. Qed.

Lemma evolves_trans A n d1 d2 d3 : evolves A n d1 d2 → evolves A n d2 d3 → evolves A n d1 d3.
Proof.
  intros [F1 J1 L1 P1 N1 B1] [F2 J2 L2 P2 N2 B2]. constructor; [congruence|congruence| |auto| |].
  - intros m. etrans; [apply L2|apply L1].
  - intros m j3 Hm. destruct (N2 m j3 Hm) as (j2 & Hm2 & A2 & W2 & D2 & S2).
    destruct (N1 m j2 Hm2) as (j1 & Hm1 & A1 & W1 & D1 & S1). exists j1. split_and!; [done|congruence|congruence|tauto..|].
    intros Hne Hs. destruct (S2 Hne Hs) as [Hs2|Hf]; [auto|]. right. congruence.
  - intros HA Hf. rewrite B2, B1; [done|done|done|done|congruence].
Qed.

Lemma evolves_nodes A n d d' : _nodeIDHash d' = _nodeIDHash d → _final_job d' = _final_job d → _jobs d' = _jobs d →
  evolves A n d d'.
Proof.
  intros E1 E2 E3. constructor; [done|done|..]; unfold retries_left, final_status; rewrite ?E1, ?E2; auto.
  intros m j' Hm. exists j'. split_and!; auto.
Qed.

(** A change of the node in hand. *)
Record hand_change (j j' : Job) : Prop := {
  h_static : same_static j j';
  h_done : _Status j' = STATUS_DONE ↔ _Status j = STATUS_DONE;
  h_abort : abort_dag_val j' = abort_dag_val j;
  h_max : retry_max j' = retry_max j;
  h_retries : retries j ≤ retries j';
  h_pending : _Status j' = STATUS_NOT_READY → _Status j = STATUS_NOT_READY;
}.

Lemma evolves_id A n d j j' : _nodeIDHash d !! n = Some j →
  hand_change (j <| _cluster := _cluster j' |>) j' → evolves A n d (d <| _nodeIDHash ::= insert n j' |>).
Proof.
  intros Hn [[] Hd Ha Hm Hr Hp]. simpl in *. constructor; [done|done|..].
  - intros m. unfold retries_left; simpl. lookup_case n m; [|done]. rewrite Hn, Hm. lia.
  - unfold final_status; simpl. destruct (_final_job d) as [f|]; [|done]; simpl. lookup_case n f; [|done].
    rewrite Hn; simpl. intros [= E]. f_equal. auto.
  - intros m jm Hjm. simpl in Hjm. lookup_case n m; [|exists jm; split_and!; auto]. injection Hjm as <-. exists j.
    split_and!; [done|done|done|apply Hd..|]. congruence.
  - intros _ Hf. unfold final_status; simpl. destruct (_final_job d) as [f|]; [|done]; simpl.
    by rewrite lookup_insert_ne by congruence.
Qed.

Lemma evolves_hand A n d j j' : _nodeIDHash d !! n = Some j → hand_change j j' →
  evolves A n d (d <| _nodeIDHash ::= insert n j' |>).
Proof. intros Hn [[]]. apply (evolves_id A n d j); [done|]. by constructor; [constructor|..]. Qed.

(** How many calls of [StartNode] may be nested. *)
Definition pending_cost (d : Dag) : nat :=
  match _final_job d with
  | Some f => if bool_decide (final_status d = Some STATUS_NOT_READY) then S (retries_left f d) else 0
  | None => 0
  end.
Definition measure (n : JobID_t) (d : Dag) : nat := retries_left n d + pending_cost d.

Lemma pending_cost_evolves A n d d' : evolves A n d d' → (pending_cost d' ≤ pending_cost d)%nat.
Proof.
  intros []. unfold pending_cost. rewrite e_final0. destruct (_final_job d) as [f|]; [|done].
  pose proof (e_left0 f). repeat case_bool_decide; auto; try lia. tauto.
Qed.

Lemma start_fuel_measure n d : (measure n d ≤ start_fuel n d)%nat.
Proof. unfold measure, pending_cost, start_fuel. destruct (_final_job d); [|lia]. case_bool_decide; lia. Qed.

(** ** The node in hand *)

Definition hand_ok (s : status_t) (j : Job) : Prop :=
  _Status j = s ∧ Q_WAITING j = ∅ ∧ _queuedNodeJobProcs j = 0 ∧ _isIdle j = false ∧ countedAsDone j = false.

Lemma hand_local s j : hand_ok s j → s ≠ STATUS_DONE → (s = STATUS_PRERUN → is_Some (_scriptPre j)) →
  (s = STATUS_POSTRUN → is_Some (_scriptPost j)) → local_ok j.
Proof.
  intros (Hs & Hw & Hq & Hi & Hc) Hd Hpre Hpost. constructor; try (rewrite ?Hq, ?Hi; done || lia).
  - rewrite Hc. unfold is_st. by rewrite bool_decide_eq_false_2 by congruence.
  - rewrite Hs. done.
  - rewrite Hs. done.
Qed.

Section Hand.
Variable cfg : DagConfig.

(** [n], which is [j] and has status [s], is in hand; [d0] is an earlier state. *)
Record holding (A : Prop) (n : JobID_t) (X : pending) (W : JobID_t → JobID_t → Prop) (d0 d : Dag) (j : Job)
    (s : status_t) : Prop := {
  hd_inv : inv cfg (Some n) X W d;
  hd_evolves : evolves A n d0 d;
  hd_node : _nodeIDHash d !! n = Some j;
  hd_hand : hand_ok s j;
  hd_X : n ∉ X;
}.

Lemma holding_core A n X W d0 d d' j s : core_of d' = core_of d →
  holding A n X W d0 d j s → holding A n X W d0 d' j s.
Proof.
  intros E [I V N H HX]. pose proof E as E'. unfold core_of in E'. injection E' as E1 E2 E3 _ _ _ _ _ _ _ _ _ _ _ _.
  constructor; [by apply (inv_core cfg _ _ _ d)| |by rewrite E2|done|done].
  eapply evolves_trans; [exact V|]. by apply evolves_nodes.
Qed.

Lemma holding_static A n X W d0 d j s : holding A n X W d0 d j s → static_ok d n j.
Proof. intros [(F & _ & _) _ N _ _]. by apply (f_static cfg W). Qed.

Lemma holding_upd A n X W d0 d j s j' s' : holding A n X W d0 d j s → hand_change j j' → hand_ok s' j' →
  holding A n X W d0 (d <| _nodeIDHash ::= insert n j' |>) j' s'.
Proof.
  intros [I V N H HX] Hc Hh. constructor; [|eapply evolves_trans; [exact V|]| |done|done].
  - apply (inv_hand cfg n X W d j); [done|apply Hc|apply Hc| |done]. intros Hs. left. by apply Hc.
  - by apply (evolves_hand A n d j).
  - simpl. apply lookup_insert_eq.
Qed.

(** The node gets another ID, and the table with it. *)
Lemma frame_cluster W d n j c ids : _nodeIDHash d !! n = Some j → (c ≠ -1 → ids !! c = Some n) →
  (∀ m jm, m ≠ n → _nodeIDHash d !! m = Some jm → _cluster jm ≠ -1 → ids !! _cluster jm = Some m) →
  frame_ok cfg W d → frame_ok cfg W (d <| _condorIDHash := ids |> <| _nodeIDHash ::= insert n (j <| _cluster := c |>) |>).
Proof.
  intros Hn Hc Ho F. set (j' := j <| _cluster := c |>). set (d1 := d <| _condorIDHash := ids |>).
  destruct F. constructor; try done.
  - by apply (graph_wf_insert d1 n j), (graph_wf_ext d).
  - by apply (search_insert d1 n j), (search_ext d).
  - intros x jx p Hx. rewrite (undone_insert d1 n j) by done. simpl in Hx. lookup_case n x; [|by apply f_waits].
    injection Hx as <-. by apply (f_waits n j).
  - intros m jm Hm. simpl in Hm. lookup_case n m.
    + injection Hm as <-. destruct (f_static n j Hn). by constructor.
    + destruct (f_static m jm Hm). constructor; try done. intros Hid. simpl. by apply Ho.
  - intros f Hf. simpl in *. destruct (f_final f Hf). lookup_case n f; eauto.
Qed.

Lemma holding_cluster A n X W d0 d j s c ids : holding A n X W d0 d j s → (c ≠ -1 → ids !! c = Some n) →
  (∀ m jm, m ≠ n → _nodeIDHash d !! m = Some jm → _cluster jm ≠ -1 → ids !! _cluster jm = Some m) →
  holding A n X W d0 (d <| _condorIDHash := ids |> <| _nodeIDHash ::= insert n (j <| _cluster := c |>) |>)
    (j <| _cluster := c |>) s.
Proof.
  intros [(F & C & I) V N H HX] Hc Ho. constructor; [split_and!| |apply lookup_insert_eq|exact H|done].
  - by apply frame_cluster.
  - unfold live in *. simpl. rewrite delete_insert_eq. destruct C; by constructor.
  - unfold live in *. simpl. by rewrite delete_insert_eq.
  - eapply evolves_trans; [exact V|]. apply (evolves_trans A n d (d <| _condorIDHash := ids |>)); [by apply evolves_nodes|].
    pose proof (s_retries _ _ _ (f_static _ _ _ F n j N)).
    apply (evolves_id A n _ j); [done|]. by constructor; [constructor|..].
Qed.

Lemma holding_put A n X W d0 d d' j s : holding A n X W d0 d j s → local_ok j → placed n j d d' →
  frame_change cfg d d' → inv cfg None X W d' ∧ evolves A n d0 d'.
Proof.
  intros [I V N H HX] Hl Hp Hf. split; [by apply (inv_put cfg n j X W d)|].
  eapply evolves_trans; [exact V|]. apply evolves_nodes; apply Hf.
Qed.

(** Changes of the fields that are neither static nor about the place. *)
Lemma hand_change_intro j j' : 0 ≤ retries j' ≤ retry_max j' → Q_PARENTS j' = Q_PARENTS j → Q_WAITING j' = Q_WAITING j →
  Q_CHILDREN j' = Q_CHILDREN j → _final j' = _final j → _throttleInfo j' = _throttleInfo j →
  _visited j' = _visited j → _dfsOrder j' = _dfsOrder j → _cluster j' = _cluster j → abort_dag_val j' = abort_dag_val j →
  retry_max j' = retry_max j → retries j ≤ retries j' →
  (_Status j' = STATUS_DONE ↔ _Status j = STATUS_DONE) → (_Status j' = STATUS_NOT_READY → _Status j = STATUS_NOT_READY) →
  hand_change j j'.
Proof. intros. constructor; [by constructor|done..]. Qed.
End Hand.

(** Prove a [hand_change] for an update of a node with a static_ok fact around. *)
Ltac hand_change_tac :=
  apply hand_change_intro; simpl; try reflexivity; try lia; try (intuition congruence).

(** Prove a [placed] or a [frame_change] by computation. *)
Ltac status_simpl :=
  unfold is_st, in_cat, is_st in *;
  repeat match goal with
  | H : _Status ?j = _ |- context [_Status ?j] => rewrite H
  | H : _isIdle ?j = _ |- context [_isIdle ?j] => rewrite H
  | H : Q_WAITING ?j = _ |- context [Q_WAITING ?j] => rewrite H
  end; simpl.
Ltac cat_tac := intros; match goal with |- _ <$> ?o = _ <$> ?o => destruct o; simpl; f_equal; lia end.
Ltac placed_tac :=
  constructor; try reflexivity; status_simpl; try done; try lia; try cat_tac; try solve [intros [] ? ? ?; simpl in *; eauto].
Ltac frame_tac :=
  constructor; simpl; intros; try done; eauto;
  try (match goal with post : bool |- _ => destruct post end; simpl in *; done || lia).

Section Places.
Variable cfg : DagConfig.
Implicit Types (A : Prop) (n : JobID_t) (X : pending) (W : JobID_t → JobID_t → Prop) (d : Dag) (j : Job).

Lemma placed_ready n j d q : hand_ok STATUS_READY j → list_ok (_readyQ d) →
  items q ≡ₚ n :: items (_readyQ d) → list_ok q →
  placed n j d (d <| _readyQ := q |>) ∧ frame_change cfg d (d <| _readyQ := q |>).
Proof. intros (Hs & Hw & _ & Hi & _) Hok Hq Hok'. split; [placed_tac|frame_tac]. Qed.

Lemma placed_error n j d : hand_ok STATUS_ERROR j →
  placed n j d (d <| _numNodesFailed ::= Z.succ |>) ∧ frame_change cfg d (d <| _numNodesFailed ::= Z.succ |>).
Proof. intros (Hs & _ & _ & Hi & _). split; [placed_tac|frame_tac]. Qed.

(** The queues of scripts, and the log. *)
Definition count_run (post : bool) (f : Z → Z) (d : Dag) : Dag :=
  if post then d <| _postRunNodeCount ::= f |> else d <| _preRunNodeCount ::= f |>.
Definition run_status (post : bool) : status_t := if post then STATUS_POSTRUN else STATUS_PRERUN.
Definition upd_queue (post : bool) (f : ScriptQ → ScriptQ) (d : Dag) : Dag :=
  if post then d <| _postScriptQ ::= f |> else d <| _preScriptQ ::= f |>.

Lemma placed_waiting post n j d : hand_ok (run_status post) j →
  let f q := q <| _scriptDeferredCount ::= Z.succ |> <| _waitingQueue ::= fun l => l ++ [n] |> in
  placed n j (count_run post Z.pred d) (upd_queue post f d) ∧ frame_change cfg (count_run post Z.pred d) (upd_queue post f d).
Proof.
  intros (Hs & _ & _ & Hi & _). destruct post; simpl in *.
  - split; [|frame_tac]. placed_tac. unfold post_place; simpl. rewrite <- app_assoc; simpl. by rewrite <- Permutation_middle.
  - split; [|frame_tac]. placed_tac. unfold pre_place; simpl. rewrite <- app_assoc; simpl. by rewrite <- Permutation_middle.
Qed.

Lemma running_insert q pid n : _scriptPidTable q !! pid = None →
  running (q <| _numScriptsRunning ::= Z.succ |> <| _scriptPidTable ::= insert pid n |>) ≡ₚ n :: running q.
Proof. intros Hp. unfold running; simpl. by rewrite map_to_list_insert. Qed.

Lemma placed_running post n j d pid : hand_ok (run_status post) j → _pid <$> script_of post j = Some pid →
  _scriptPidTable (scriptQ post d) !! pid = None →
  let lim := if post then _maxPostScripts cfg else _maxPreScripts cfg in
  (lim ≠ 0 → _numScriptsRunning (scriptQ post d) < lim) →
  let f q := q <| _numScriptsRunning ::= Z.succ |> <| _scriptPidTable ::= insert pid n |> in
  placed n j (count_run post Z.pred d) (upd_queue post f d) ∧ frame_change cfg (count_run post Z.pred d) (upd_queue post f d).
Proof.
  intros (Hs & _ & _ & Hi & _) Hpid Hfree lim Hlim f. subst lim f. destruct post; simpl in *.
  - split.
    + placed_tac.
      * unfold post_place; simpl. rewrite running_insert by done. simpl. by rewrite <- Permutation_middle.
      * intros [] pid' m Hm; simpl in *; [|by left]. apply lookup_insert_Some in Hm as [[<- <-]|[? ?]]; auto.
      * intros [] pid' m Hm; simpl in *; [|done]. rewrite lookup_insert_ne; [done|congruence].
    + frame_tac.
      destruct post; simpl in *; [|done]. rewrite map_size_insert_None by done. lia.
  - split.
    + placed_tac.
      * unfold pre_place; simpl. rewrite running_insert by done. simpl. by rewrite <- Permutation_middle.
      * intros [] pid' m Hm; simpl in *; [by left|]. apply lookup_insert_Some in Hm as [[<- <-]|[? ?]]; auto.
      * intros [] pid' m Hm; simpl in *; [done|]. rewrite lookup_insert_ne; [done|congruence].
    + frame_tac.
      destruct post; simpl in *; [done|]. rewrite map_size_insert_None by done. lia.
Qed.

Lemma placed_posted n j d nm rv sig : hand_ok STATUS_POSTRUN j →
  let d' := d <| userlog ::= fun l => l ++ [(n, PostScriptTerminatedEvent nm rv sig)] |> in
  placed n j (count_run true Z.pred d) d' ∧ frame_change cfg (count_run true Z.pred d) d'.
Proof.
  intros (Hs & _ & _ & Hi & _). split.
  - placed_tac.
    + unfold pre_place; simpl. unfold skipped. by rewrite filter_app, filter_cons_False, filter_nil, app_nil_r.
    + unfold post_place; simpl. unfold posted. rewrite filter_app, filter_cons_True by done.
      rewrite filter_nil, fmap_app; simpl. rewrite !app_assoc. by rewrite <- Permutation_cons_append.
  - frame_tac. simpl in *. apply elem_of_app in H as [?|H]; [by left|]. apply list_elem_of_singleton in H as ->. eauto 6.
Qed.

Lemma placed_skipped n j d : hand_ok STATUS_PRERUN j →
  let d' := d <| userlog ::= fun l => l ++ [(n, PreSkipEvent)] |> in
  placed n j (count_run false Z.pred d) d' ∧ frame_change cfg (count_run false Z.pred d) d'.
Proof.
  intros (Hs & _ & _ & Hi & _). split.
  - placed_tac.
    + unfold pre_place; simpl. unfold skipped. rewrite filter_app, filter_cons_True by done.
      rewrite filter_nil, fmap_app; simpl. rewrite !app_assoc. by rewrite <- Permutation_cons_append.
    + unfold post_place; simpl. unfold posted. rewrite filter_app, filter_cons_False by (intros Hn; by apply Hn).
      by rewrite filter_nil, app_nil_r.
  - frame_tac. simpl in *. apply elem_of_app in H as [?|H]; [by left|]. apply list_elem_of_singleton in H as ->. eauto.
Qed.
End Places.

(** ** Starting a node *)

Section Specs.
Variable cfg : DagConfig.
Variable w : World.
Hypothesis Hw : good_world w.
Implicit Types (n : JobID_t) (X : pending) (W : JobID_t → JobID_t → Prop) (d : Dag) (j : Job).
Abbreviation holding := (holding cfg).

(** The node in hand has been put back. *)
Definition settled (A : Prop) n X W d0 d : Prop := inv cfg None X W d ∧ evolves A n d0 d.

Lemma settled_core A n X W d0 d d' : core_of d' = core_of d → settled A n X W d0 d → settled A n X W d0 d'.
Proof.
  intros E [I V]. pose proof E as E'. unfold core_of in E'. injection E' as E1 E2 E3 _ _ _ _ _ _ _ _ _ _ _ _.
  split; [by apply (inv_core cfg _ _ _ d)|]. eapply evolves_trans; [exact V|]. by apply evolves_nodes.
Qed.

Lemma inv_readyQ h X W d : inv cfg h X W d → list_ok (_readyQ d).
Proof. intros (F & _). by apply (f_readyQ cfg W). Qed.

Lemma settle_ready A n X W d0 d j (q : PrioritySimpleList JobID_t) : holding A n X W d0 d j STATUS_READY →
  items q ≡ₚ n :: items (_readyQ d) → list_ok q → settled A n X W d0 (d <| _readyQ := q |>).
Proof.
  intros H Hq Hok. pose proof (inv_readyQ _ _ _ _ (hd_inv _ _ _ _ _ _ _ _ _ H)) as Hr.
  destruct (placed_ready cfg n j d q) as [Hp Hf]; [apply H|done..|].
  apply (holding_put cfg A n X W d0 d _ j STATUS_READY); [done| |done|done].
  apply (hand_local STATUS_READY); [apply H|done..].
Qed.

Lemma ready_first_spec A n X W d0 d j : holding A n X W d0 d j STATUS_READY →
  wpd True (ready_first n) d (fun _ => settled A n X W d0).
Proof.
  intros H. pose proof (hd_node _ _ _ _ _ _ _ _ _ H) as Hn. unfold ready_first. wpd_steps.
  destruct (Prepend_items n (- _nodePriority j) (_readyQ d)); [by eapply inv_readyQ, H|].
  by apply (settle_ready A n X W d0 d j).
Qed.
Lemma ready_last_spec A n X W d0 d j : holding A n X W d0 d j STATUS_READY →
  wpd True (ready_last n) d (fun _ => settled A n X W d0).
Proof.
  intros H. pose proof (hd_node _ _ _ _ _ _ _ _ _ H) as Hn. unfold ready_last. wpd_steps.
  destruct (Append_items n (- _nodePriority j) (_readyQ d)); [by eapply inv_readyQ, H|].
  by apply (settle_ready A n X W d0 d j).
Qed.

(** An update of the node in hand that keeps what its place needs. *)
Lemma wpd_hand A n X W d0 d j s f s' (Q : unit → Dag → Prop) : holding A n X W d0 d j s →
  hand_change j (f j) → hand_ok s' (f j) →
  (∀ d', holding A n X W d0 d' (f j) s' → core_of d' = core_of (d <| _nodeIDHash ::= insert n (f j) |>) → Q tt d') →
  wpd True (modJob n f) d Q.
Proof.
  intros H Hc Hh HQ. pose proof (hd_node _ _ _ _ _ _ _ _ _ H) as Hn. wpd_steps. apply HQ; [|done].
  by apply (holding_upd cfg A n X W d0 d j s).
Qed.

Lemma parent_exists h X W d n j p : inv cfg h X W d → _nodeIDHash d !! n = Some j → p ∈ Q_PARENTS j →
  ∃ jp, _nodeIDHash d !! p = Some jp.
Proof.
  intros (F & _) Hn Hp. pose proof (f_graph cfg W d F) as Hg.
  apply (wf_parents _ Hg n j p Hn) in Hp. apply edge_node in Hp as (jp & ? & _). eauto.
Qed.

Lemma FixPriority_spec A n X W d0 d j : holding A n X W d0 d j STATUS_READY →
  wpd True (FixPriority n) d (fun _ d' => ∃ j', holding A n X W d0 d' j' STATUS_READY).
Proof.
  intros H. pose proof (hd_node _ _ _ _ _ _ _ _ _ H) as Hn. unfold FixPriority. wpd_steps.
  eapply (wpd_for_each_inv True (fun d' => ∃ j', holding A n X W d0 d' j' STATUS_READY ∧ Q_PARENTS j' = Q_PARENTS j)).
  - eauto.
  - intros p d' Hp%elem_of_set_list (j' & H' & Hpar).
    pose proof (hd_node _ _ _ _ _ _ _ _ _ H') as Hn'. rewrite <- Hpar in Hp.
    destruct (parent_exists (Some n) X W d' n j' p) as [jp Hjp]; [apply H'|done|done|].
    apply wpd_bind, (wpd_getJob _ _ jp); [done|].
    pose proof (s_retries _ _ _ (holding_static cfg _ _ _ _ _ _ _ _ H')) as Hr.
    pose proof (hd_hand _ _ _ _ _ _ _ _ _ H') as Hh.
    eapply (wpd_hand A n X W d0 d' j'); [done| | |].
    + destruct (_ && _); hand_change_tac.
    + instantiate (1 := STATUS_READY). destruct (_ && _); done.
    + intros d'' H'' _. eexists. split; [exact H''|]. by destruct (_ && _).
  - intros d' (j' & H' & _). eauto.
Qed.
End Specs.
