(* ===== verification/DagStart.v ===== *)
(** * DagStart

    [StartNode] and what it may call, the scripts that cannot be started, the
    retries, the abort of the DAG and its final node, keep the invariant, do not
    abort and end: the fuel that [StartNode] gives itself is enough. *)
From stdpp Require Import base gmap list sorting relations sets.
From Stdlib Require Import ZArith Lia.
From S2P Require Import Prelude PriorityList Dag DagCycle DagInv DagSafe.
Open Scope Z_scope.
Open Scope condor_scope.

Section Start.
Variable cfg : DagConfig.
Variable w : World.
Hypothesis Hw : good_world w.
Implicit Types (A : Prop) (n : JobID_t) (X : pending) (W : JobID_t → JobID_t → Prop) (d : Dag) (j : Job).
Abbreviation holding := (holding cfg).
Abbreviation settled := (settled cfg).

(** ** The final node *)

Lemma local_hand h X W d n j : inv cfg h X W d → live h d !! n = Some j → local_ok j.
Proof. intros (_ & C & _). apply (c_local _ _ _ C). Qed.

(** A node that is not submitted or done has the fields that [hand_ok] asks for. *)
Lemma hand_of_local j s : local_ok j → _Status j = s → s ≠ STATUS_SUBMITTED → s ≠ STATUS_DONE →
  (s = STATUS_READY → Q_WAITING j = ∅) → hand_ok s j.
Proof.
  intros [] <- Hsub Hd Hr. unfold hand_ok, is_st in *. rewrite bool_decide_eq_false_2 in l_done by done.
  split_and!; [done| | | |done].
  - destruct (decide (_Status j = STATUS_READY)); auto.
  - destruct (decide (_queuedNodeJobProcs j = 1)); [|lia]. by apply l_queued_st in e.
  - destruct (_isIdle j); [|done]. by specialize (l_idle eq_refl).
Qed.

Lemma placed_nowhere n j d : _Status j = STATUS_NOT_READY ∨ (_Status j = STATUS_READY ∧ Q_WAITING j ≠ ∅) →
  _isIdle j = false → placed n j d d.
Proof.
  intros [Hs|[Hs Hne]] Hi; placed_tac.
  by rewrite bool_decide_eq_false_2.
Qed.
Lemma frame_change_refl d : frame_change cfg d d.
Proof. constructor; auto. Qed.

(** A node of the ready queue. *)
Lemma ready_node X W d n : inv cfg None X W d → n ∈ items (_readyQ d) →
  ∃ j, _nodeIDHash d !! n = Some j ∧ hand_ok STATUS_READY j ∧ n ∉ X.
Proof.
  intros I Hn. pose proof I as (_ & C & _). apply (c_ready _ _ _ C) in Hn as (j & Hj & Hs & Hwt & HX).
  exists j. split_and!; [done| |done]. apply hand_of_local; [|done..]. by apply (local_hand None X W d n).
Qed.

Lemma take_ready X W d n j q : inv cfg None X W d → _nodeIDHash d !! n = Some j → hand_ok STATUS_READY j → n ∉ X →
  n :: items q ≡ₚ items (_readyQ d) → list_ok q → inv cfg (Some n) X W (d <| _readyQ := q |>).
Proof.
  intros I Hj (Hs & Hwt & _ & Hi & _) HX Hp Hok.
  apply (inv_take cfg n j X W (d <| _readyQ := q |>) d); [done|done|done| |frame_tac].
  placed_tac.
Qed.

(** A discarded node. *)
Lemma evolves_discard A n0 d n j j' : _nodeIDHash d !! n = Some j → _final_job d ≠ Some n → _Status j = STATUS_READY →
  j' = j <| _Status := STATUS_NOT_READY |> → evolves A n0 d (d <| _nodeIDHash ::= insert n j' |>).
Proof.
  intros Hn Hf Hs ->.
  assert (∀ m, _final_job d = Some m → <[n:=j <| _Status := STATUS_NOT_READY |>]> (_nodeIDHash d) !! m = _nodeIDHash d !! m) as Hm.
  { intros m Hm. apply lookup_insert_ne. congruence. }
  constructor; simpl; [done|done|..].
  - intros m. unfold retries_left; simpl. lookup_case n m; [by rewrite Hn|done].
  - unfold final_status; simpl. destruct (_final_job d) as [f|]; [simpl|done]. by rewrite Hm.
  - intros m jm Hjm. lookup_case n m; [|exists jm; split_and!; auto]. injection Hjm as <-. exists j. simpl.
    rewrite Hs. split_and!; done.
  - intros _ _. unfold final_status; simpl. destruct (_final_job d) as [f|]; [simpl|done]. by rewrite Hm.
Qed.

Lemma final_status_hash d f j : _final_job d = Some f → _nodeIDHash d !! f = Some j → final_status d = Some (_Status j).
Proof. intros Hf Hj. unfold final_status. rewrite Hf; simpl. by rewrite Hj. Qed.

Lemma discard_loop_spec A n0 X W f fuel d0 d : (length (items (_readyQ d)) < fuel)%nat → current (_readyQ d) = -1 →
  settled A n0 X W d0 d → _final_job d = Some f → final_status d = Some STATUS_NOT_READY →
  wpd True (discard_loop fuel) d (fun _ d' => settled A n0 X W d0 d' ∧ final_status d' = Some STATUS_NOT_READY).
Proof.
  revert d. induction fuel as [|fuel IH]; intros d Hlen Hcur [I V] Hf Hfs; [lia|].
  simpl. apply wpd_bind, wpd_getDag. pose proof (inv_readyQ cfg _ _ _ _ I) as Hok.
  destruct (Next (_readyQ d)) as [[n|] q] eqn:HN; apply wpd_bind, wpd_modDag.
  - apply Next_Some in HN as (Hi & Eq & Ep & Em & Ec); [|lia].
    destruct (ready_node X W d n) as (j & Hj & Hh & HX); [done|by apply list_elem_of_lookup_2 in Hi|].
    assert (_final_job d ≠ Some n) as Hnf.
    { intros E. rewrite (final_status_hash d n j E Hj) in Hfs. destruct Hh as [Hs _]. congruence. }
    assert (_final j = false) as Hfin.
    { destruct (_final j) eqn:Ef; [|done]. destruct I as (F & _ & _). by apply (s_final _ _ _ (f_static cfg W d F n j Hj)) in Ef. }
    destruct (DeleteCurrent_items q n) as (Hp & Hok' & Hcd).
    { destruct Hok as (? & ? & ?). unfold list_ok, Number in *. rewrite Eq, Ep, Em. done. }
    { lia. }
    { by rewrite Eq. }
    apply wpd_bind, (wpd_getJob _ _ j); [done|]. rewrite Hfin; simpl. wpd_steps. eapply wpd_modJob; [done|].
    rewrite Eq in Hp. pose proof (take_ready X W d n j _ I Hj Hh HX Hp Hok') as I2.
    assert (same_static j (j <| _Status := STATUS_NOT_READY |>)) as Hss.
    { constructor; try done. destruct I as (F & _ & _). apply (f_static cfg W d F n j Hj). }
    apply (inv_hand cfg n X W _ j (j <| _Status := STATUS_NOT_READY |>)) in I2; [|done|done|by destruct Hh as [-> _]|right; simpl; eauto]. clear Hss.
    apply IH.
    + simpl. apply Permutation_length in Hp. simpl in Hp. lia.
    + simpl. lia.
    + split.
      * eapply (inv_put cfg n (j <| _Status := STATUS_NOT_READY |>) X W); [exact I2|simpl; apply lookup_insert_eq|done| |
          by apply placed_nowhere; [left|apply Hh]|apply frame_change_refl].
        apply (hand_local STATUS_NOT_READY); [|done..]. destruct Hh as (? & ? & ? & ? & ?). done.
      * eapply evolves_trans; [exact V|]. eapply evolves_trans; [|eapply (evolves_discard A n0 _ n j); [exact Hj|done|apply Hh|done]].
        by apply evolves_nodes.
    + done.
    + rewrite <- Hfs. unfold final_status; simpl. rewrite Hf; simpl. rewrite lookup_insert_ne; [done|congruence].
  - apply wpd_ret. apply Next_None in HN as [-> _]; [|lia|done]. split; [|done].
    by apply (settled_core cfg A n0 X W d0 d); [|split].
Qed.

(** [StartNode'] does what [StartNode] shall, for nodes whose measure is below [k]. *)
Definition starts (StartNode' : JobID_t → bool → D bool) (k : nat) : Prop :=
  ∀ A n X W d0 d j isRetry, holding A n X W d0 d j STATUS_READY → (A → no_aborts d) → (measure n d < k)%nat →
    wpd True (StartNode' n isRetry) d (fun b d' => b = true ∧ settled A n X W d0 d').

Lemma no_aborts_evolves A n d d' : evolves A n d d' → no_aborts d → no_aborts d'.
Proof. intros V H m j' Hm. destruct (e_nodes _ _ _ _ V m j' Hm) as (j & Hj & -> & _). eauto. Qed.

(** The final node is started on behalf of any other. *)
Lemma evolves_final A n d d' f : ¬A → _final_job d = Some f → evolves A f d d' → evolves A n d d'.
Proof.
  intros HA Hf []. constructor; try done. intros m j' Hm.
  destruct (e_nodes m j' Hm) as (j & Hj & Ha & Hwt & Hd & Hr). exists j.
  do 4 (split; [done|]). intros _ Hs. destruct (decide (m = f)) as [->|]; [by right|]. auto.
Qed.

Lemma settled_trans A n X W d0 d1 d2 : evolves A n d0 d1 → settled A n X W d1 d2 → settled A n X W d0 d2.
Proof. intros V [I V']. split; [done|]. by eapply evolves_trans. Qed.

Lemma inv_static h X W d n j : inv cfg h X W d → _nodeIDHash d !! n = Some j → static_ok d n j.
Proof. intros (F & _ & _) Hn. by apply (f_static cfg W d F). Qed.

Section Open.
Variable StartNode' : JobID_t → bool → D bool.
Variable k : nat.
Hypothesis HS : starts StartNode' k.

Lemma StartFinalNode_spec A n X W d0 d : ¬A → settled A n X W d0 d → (pending_cost d ≤ k)%nat →
  wpd True (StartFinalNode StartNode') d (fun _ => settled A n X W d0).
Proof.
  intros HA [I V] Hk. unfold StartFinalNode. wpd_steps. destruct (_final_job d) as [f|] eqn:Hf; [|by split].
  destruct (f_final cfg W d (proj1 I) f Hf) as [jf Hjf].
  apply wpd_bind, (wpd_getJob _ _ jf); [done|]. case_bool_decide as Hst; [by split|].
  assert (final_status d = Some STATUS_NOT_READY) as Hfs by (rewrite (final_status_hash d f jf); congruence).
  apply wpd_bind. unfold discard_ready. wpd_steps.
  eapply wpd_mono.
  { apply (discard_loop_spec A n X W f _ d); simpl; [lia|done| |done|done].
    split; [|by apply evolves_nodes].
    pose proof (inv_readyQ cfg _ _ _ _ I) as Hok. destruct I as (F & C & I). split_and!; [|by destruct C; constructor|done].
    apply (frame_changed cfg W d); [|done]. by frame_tac. }
  intros [] d1 [[I1 V1] Hfs1].
  assert (_final_job d1 = Some f) as Hf1 by (by rewrite (e_final _ _ _ _ V1)).
  destruct (f_final cfg W d1 (proj1 I1) f Hf1) as [j1 Hj1].
  assert (_Status j1 = STATUS_NOT_READY) as Hs1 by (rewrite (final_status_hash d1 f j1) in Hfs1 by done; congruence).
  assert (hand_ok STATUS_NOT_READY j1) as Hh1.
  { apply hand_of_local; [|done..]. by apply (local_hand None X W d1 f). }
  assert (f ∉ X) as HfX.
  { intros Hx. destruct I1 as (_ & _ & I1). destruct (I1 f Hx) as (? & ? & ? & _). simpl in *. congruence. }
  assert (holding A f X W d1 d1 j1 STATUS_NOT_READY) as H1.
  { constructor; [|apply evolves_refl|done|done|done].
    apply (inv_take cfg f j1 X W d1 d1); [done|done|done| |apply frame_change_refl].
    apply placed_nowhere; [by left|apply Hh1]. }
  apply wpd_bind.
  eapply (wpd_hand cfg A f X W d1 d1 j1 STATUS_NOT_READY _ STATUS_READY); [done| |by destruct Hh1 as (? & ? & ? & ? & ?)|].
  { pose proof (s_retries _ _ _ (inv_static _ _ _ _ _ _ I1 Hj1)). hand_change_tac. }
  intros d2 H2 Hd2. apply wpd_bind. eapply wpd_mono; [apply (HS A f X W d1 d2 _ false H2); [tauto|]|].
  - pose proof (e_left _ _ _ _ V1 f). pose proof (e_left _ _ _ _ (hd_evolves _ _ _ _ _ _ _ _ _ H2) f).
    unfold pending_cost in Hk. rewrite Hf, bool_decide_eq_true_2 in Hk by done.
    assert (_final_job d2 = Some f) as Hf2 by (by rewrite (e_final _ _ _ _ (hd_evolves _ _ _ _ _ _ _ _ _ H2))).
    unfold measure, pending_cost. rewrite Hf2, bool_decide_eq_false_2; [lia|].
    rewrite (final_status_hash d2 f _ Hf2 (hd_node _ _ _ _ _ _ _ _ _ H2)). simpl. done.
  - intros b d3 [-> [I3 V3]]. simpl. wpd_steps. apply (settled_core cfg A n X W d0 d3); [done|]. split; [done|].
    eapply evolves_trans; [exact V|]. eapply evolves_trans; [exact V1|]. by apply (evolves_final A n d1 d3 f).
Qed.

Lemma job_exists h X W d n : inv cfg h X W d → n ∈ _jobs d → ∃ j, _nodeIDHash d !! n = Some j.
Proof. intros (F & _ & _) Hn. apply elem_of_dom. by apply (wf_jobs _ (f_graph cfg W d F)). Qed.

Lemma RemoveRunningScripts_spec X W d : inv cfg None X W d → wpd True RemoveRunningScripts d (fun _ d' => d' = d).
Proof.
  intros I. unfold RemoveRunningScripts. wpd_steps.
  apply (wpd_for_each_inv True (fun d' => d' = d)); [done| |done]. intros n d' Hn ->.
  destruct (job_exists None X W d n I Hn) as [j Hj]. wpd_steps. pose proof (local_hand None X W d n j I Hj) as [].
  apply wpd_assert; [|done]. destruct (_Status j); try done; rewrite bool_decide_eq_true; auto.
Qed.

Lemma main_shutdown_spec A n X W d0 d v st : ¬A → settled A n X W d0 d → (pending_cost d ≤ k)%nat →
  wpd True (main_shutdown_rescue StartNode' v st) d (fun _ => settled A n X W d0).
Proof.
  intros HA Hd Hk. unfold main_shutdown_rescue. wpd_steps. destruct (inShutdownRescue d); [done|]. wpd_steps.
  set (d1 := d <| inShutdownRescue := true |> <| _dagStatus := st |>).
  assert (settled A n X W d0 d1) as Hd1 by by apply (settled_core cfg A n X W d0 d).
  assert (wpd True (when (0 <? NumScriptsRunning d) RemoveRunningScripts) d1 (fun _ d' => d' = d1)) as Hr.
  { apply wpd_when; [|done]. intros _. by apply (RemoveRunningScripts_spec X W), Hd1. }
  eapply wpd_mono; [exact Hr|]. intros [] d' ->. apply wpd_bind.
  eapply wpd_mono; [by apply (StartFinalNode_spec A n X W d0)|]. intros b d2 Hd2. wpd_steps.
  destruct b; wpd_steps; [|done]. by apply (settled_core cfg A n X W d0 d2).
Qed.

Lemma CheckForDagAbort_spec A n m X W d0 d j : _nodeIDHash d !! m = Some j → (A → no_aborts d) →
  settled A n X W d0 d → (pending_cost d ≤ k)%nat →
  wpd True (CheckForDagAbort StartNode' m) d (fun _ => settled A n X W d0).
Proof.
  intros Hm HA Hd Hk. unfold CheckForDagAbort. wpd_steps. destruct (abort_dag_val j) as [v|] eqn:Hv; [|done].
  assert (¬A) as HnA by (intros Ha; specialize (HA Ha m j Hm); congruence).
  destruct (negb _); [done|]. wpd_steps.
  set (d1 := d <| _dagIsAborted := true |>).
  assert (settled A n X W d0 d1) as Hd1 by by apply (settled_core cfg A n X W d0 d).
  destruct (abort_dag_return_val j); eapply wpd_mono; [by apply main_shutdown_spec| |by apply main_shutdown_spec|];
    intros [] d2 Hd2; by apply wpd_ret.
Qed.

(** ** Failure and retries *)

Lemma settle_error A n X W d0 d d' j : holding A n X W d0 d j STATUS_ERROR →
  core_of d' = core_of (d <| _numNodesFailed ::= Z.succ |>) → settled A n X W d0 d'.
Proof.
  intros H E. apply (settled_core cfg A n X W d0 (d <| _numNodesFailed ::= Z.succ |>)); [done|].
  destruct (placed_error cfg n j d) as [Hp Hf]; [apply H|].
  apply (holding_put cfg A n X W d0 d _ j STATUS_ERROR); [done| |done|done]. apply (hand_local STATUS_ERROR); [apply H|done..].
Qed.

(** Forget the earlier state. *)
Lemma holding_rebase A n X W d0 d j s : holding A n X W d0 d j s → holding A n X W d d j s.
Proof. intros []. constructor; [done|apply evolves_refl|done..]. Qed.

Lemma RestartNode_spec A n X W d0 d j : holding A n X W d0 d j STATUS_ERROR → retries j < retry_max j →
  (A → no_aborts d) → (measure n d ≤ k)%nat →
  wpd True (RestartNode StartNode' n false) d (fun _ => settled A n X W d0).
Proof.
  intros H0 Hr HA Hk. pose proof (holding_rebase _ _ _ _ _ _ _ _ H0) as H.
  pose proof (hd_node _ _ _ _ _ _ _ _ _ H) as Hn. pose proof (hd_hand _ _ _ _ _ _ _ _ _ H) as (Hs & Hwt & Hq & Hi & Hc).
  pose proof (s_retries _ _ _ (holding_static cfg _ _ _ _ _ _ _ _ H)) as Hr0.
  unfold RestartNode. wpd_steps. apply wpd_assert; [by rewrite Hs|].
  case_bool_decide as Hra; [unfold node_failed; wpd_steps; by eapply settle_error|].
  apply wpd_bind. eapply (wpd_hand cfg A n X W d d j _ _ STATUS_READY); [done|hand_change_tac|done|].
  intros d1 H1 _. apply wpd_bind.
  eapply (wpd_hand cfg A n X W d d1 _ _ _ STATUS_READY); [exact H1|hand_change_tac|done|].
  intros d2 H2 _. pose proof (hd_node _ _ _ _ _ _ _ _ _ H2) as Hn2. wpd_steps. apply wpd_assert; [apply Z.leb_le; simpl; lia|].
  apply wpd_bind. unfold modScript.
  eapply (wpd_hand cfg A n X W d d2 _ _ _ STATUS_READY); [exact H2|hand_change_tac|done|].
  intros d3 H3 _. pose proof (hd_evolves _ _ _ _ _ _ _ _ _ H3) as V3. apply wpd_bind.
  eapply wpd_mono; [apply (HS A n X W d d3 _ true H3)|].
  - intros Ha. eapply no_aborts_evolves; eauto.
  - pose proof (pending_cost_evolves _ _ _ _ V3). pose proof (hd_node _ _ _ _ _ _ _ _ _ H3) as Hn3.
    revert Hk. unfold measure, retries_left. rewrite Hn, Hn3. simpl. lia.
  - intros b d4 [_ Hd4]. apply wpd_ret. eapply settled_trans; [apply H0|done].
Qed.

(** ** Scripts *)

(** The run count of a script is taken when the script is started. *)
Lemma measure_count n post f d : measure n (count_run post f d) = measure n d.
Proof. by destruct post. Qed.
Lemma count_run_nodes post f d : _nodeIDHash (count_run post f d) = _nodeIDHash d.
Proof. by destruct post. Qed.

(** One of three attempts writes the event. *)
Lemma write_loop_spec n e d (Q : unit → Dag → Prop) : Q tt (d <| userlog ::= fun l => l ++ [(n, e)] |>) →
  wpd True (write_loop w StartNode' (write_rounds w) 0 n e) d Q.
Proof.
  intros HQ. pose proof (g_rounds w Hw) as Hr. destruct (write_rounds w) as [|[|[|r]]]; [lia..|].
  destruct (g_write w Hw d n) as (i & Hi & E). simpl.
  repeat (wpd_steps; match goal with |- context [writeEvent w d n ?i] => destruct (writeEvent w d n i) eqn:? end;
          [by wpd_steps|]; wpd_steps; simpl).
  destruct i as [|[|[|]]]; [congruence..|lia].
Qed.

Lemma PostScriptReaper_spec A n X W d0 d j status : holding A n X W d0 (count_run true Z.pred d) j STATUS_POSTRUN →
  is_Some (_scriptPost j) → wpd True (PostScriptReaper w StartNode' n status) d (fun _ => settled A n X W d0).
Proof.
  intros H Hp. pose proof (hd_node _ _ _ _ _ _ _ _ _ H) as Hn. simpl in Hn.
  unfold PostScriptReaper. wpd_steps. apply wpd_assert; [destruct (hd_hand _ _ _ _ _ _ _ _ _ H) as [-> _]; done|].
  apply write_loop_spec.
  assert (∀ nm rv sig, settled A n X W d0 (d <| userlog ::= fun l => l ++ [(n, PostScriptTerminatedEvent nm rv sig)] |>)) as Hall.
  { intros nm rv sig. destruct (placed_posted cfg n j d nm rv sig) as [Hpl Hf]; [apply H|].
    eapply (holding_put cfg); [exact H| |exact Hpl|exact Hf].
    apply (hand_local STATUS_POSTRUN); [apply H|done..]. }
  destruct (WIFSIGNALED status); apply Hall.
Qed.

Definition reaps (post : bool) (reaper : JobID_t → Z → D unit) : Prop :=
  ∀ A n X W d0 d j status, holding A n X W d0 (count_run post Z.pred d) j (run_status post) →
    is_Some (script_of post j) → (A → no_aborts d) → (measure n d ≤ k)%nat →
    wpd True (reaper n status) d (fun _ => settled A n X W d0).

Lemma run_local post j : hand_ok (run_status post) j → is_Some (script_of post j) → local_ok j.
Proof. intros Hh Hs. eapply hand_local; [exact Hh|..]; destruct post; done. Qed.

(** The node in hand keeps its place when only its script changes. *)
Lemma script_hand (post : bool) j f s : 0 ≤ retries j ≤ retry_max j → hand_ok s j →
  let j' := if post then j <| _scriptPost ::= fmap f |> else j <| _scriptPre ::= fmap f |> in
  hand_change j j' ∧ hand_ok s j' ∧ script_of post j' = f <$> script_of post j.
Proof. intros Hr Hh. destruct post; simpl; (split; [hand_change_tac|done]). Qed.

Lemma upd_queue_mod post f d : modScriptQ post f d = Done tt (upd_queue post f d).
Proof. by destruct post. Qed.
Lemma wpd_scriptQ (P : Prop) post f d (Q : unit → Dag → Prop) : Q tt (upd_queue post f d) → wpd P (modScriptQ post f) d Q.
Proof. unfold wpd. by rewrite upd_queue_mod. Qed.

Lemma count_run_upd post f n j d : count_run post f (d <| _nodeIDHash ::= insert n j |>)
  = count_run post f d <| _nodeIDHash ::= insert n j |>.
Proof. by destruct post. Qed.

Lemma Run_spec post reaper A n X W d0 d j : reaps post reaper →
  holding A n X W d0 (count_run post Z.pred d) j (run_status post) → is_Some (script_of post j) →
  (A → no_aborts d) → (measure n d ≤ k)%nat →
  wpd True (Run_ cfg w post reaper n) d (fun _ => settled A n X W d0).
Proof.
  intros Hreap H Hs HA Hk. pose proof (hd_node _ _ _ _ _ _ _ _ _ H) as Hn. rewrite count_run_nodes in Hn.
  pose proof (hd_hand _ _ _ _ _ _ _ _ _ H) as Hh. unfold Run_. wpd_steps. destruct (_ || _) eqn:Hc.
  { apply wpd_bind, wpd_scriptQ. apply wpd_ret. destruct (placed_waiting cfg post n j d Hh) as [Hp Hf].
    eapply (holding_put cfg); [exact H|by apply (run_local post)|exact Hp|exact Hf]. }
  apply orb_false_iff in Hc as [_ Hlim].
  destruct (BackgroundRun w d n post) as [|pid] eqn:Hpid.
  { wpd_steps. simpl. wpd_steps. eapply wpd_mono; [by eapply Hreap|]. intros [] d' Hd'. by apply wpd_ret. }
  pose proof (s_retries _ _ _ (holding_static cfg _ _ _ _ _ _ _ _ H)) as Hr.
  destruct (script_hand post j (fun s => s <| _pid := pid |>) _ Hr Hh) as (Hch & Hh' & Hsc).
  pose proof (holding_upd cfg _ _ _ _ _ _ _ _ _ _ H Hch Hh') as H'. rewrite <- count_run_upd in H'.
  unfold modScript. wpd_steps.
  set (j' := if post then j <| _scriptPost ::= fmap (fun s => s <| _pid := pid |>) |>
             else j <| _scriptPre ::= fmap (fun s => s <| _pid := pid |>) |>) in *.
  destruct Hs as [s Hs]. rewrite Hs in Hsc. simpl in Hsc. destruct (Z.eqb_spec pid 0) as [->|Hne]; simpl.
  - wpd_steps. eapply wpd_mono; [eapply Hreap; [exact H'|by rewrite Hsc| |]|].
    + intros Ha. pose proof (HA Ha) as Hna. intros m jm Hm. simpl in Hm. lookup_case n m; [|by eapply Hna].
      injection Hm as <-. rewrite (h_abort _ _ Hch). by eapply Hna.
    + pose proof (evolves_hand A n d j j' Hn Hch) as V. pose proof (pending_cost_evolves _ _ _ _ V).
      pose proof (e_left _ _ _ _ V n). unfold measure in *. lia.
    + intros [] d' Hd'. by apply wpd_ret.
  - apply wpd_bind, wpd_scriptQ. apply wpd_ret.
    destruct (placed_running cfg post n j' (d <| _nodeIDHash ::= insert n j' |>) pid) as [Hp Hf].
    + done.
    + by rewrite Hsc.
    + pose proof (g_pid w Hw d n post pid Hpid Hne). by destruct post.
    + intros Hl. apply andb_false_iff in Hlim as [Hz|Hz].
      * apply negb_false_iff, Z.eqb_eq in Hz. done.
      * apply Z.leb_gt in Hz. by destruct post.
    + eapply (holding_put cfg); [exact H'| |exact Hp|exact Hf]. apply (run_local post); [done|by rewrite Hsc].
Qed.

Lemma no_aborts_count A post f d : (A → no_aborts d) → A → no_aborts (count_run post f d).
Proof. unfold no_aborts. by rewrite count_run_nodes. Qed.

(** The state after updates of the node in hand. *)
Lemma holding_measure A n X W d d' j s : holding A n X W d d' j s → (measure n d ≤ k)%nat → (measure n d' ≤ k)%nat.
Proof.
  intros H Hk. pose proof (pending_cost_evolves _ _ _ _ (hd_evolves _ _ _ _ _ _ _ _ _ H)).
  pose proof (e_left _ _ _ _ (hd_evolves _ _ _ _ _ _ _ _ _ H) n). unfold measure in *. lia.
Qed.
Lemma holding_no_aborts A n X W d d' j s : holding A n X W d d' j s → (A → no_aborts d) → A → no_aborts d'.
Proof. intros H HA Ha. eapply no_aborts_evolves; [apply H|auto]. Qed.
Lemma holding_retries A n X W d0 d j s : holding A n X W d0 d j s → 0 ≤ retries j ≤ retry_max j.
Proof. intros H. apply (s_retries _ _ _ (holding_static cfg _ _ _ _ _ _ _ _ H)). Qed.

Lemma count_succ_pred post d : core_of (count_run post Z.pred (count_run post Z.succ d)) = core_of d.
Proof. destruct post; unfold core_of; simpl; by rewrite Z.pred_succ. Qed.

Lemma PostScriptReaper_reaps : reaps true (PostScriptReaper w StartNode').
Proof. intros A n X W d0 d j status H Hs _ _. by eapply PostScriptReaper_spec. Qed.

Lemma RunPostScript_spec A n X W d0 d j s ignore_status status : holding A n X W d0 d j s → s ≠ STATUS_DONE →
  is_Some (_scriptPost j) → ignore_status = true ∨ status = 0 → (A → no_aborts d) → (measure n d ≤ k)%nat →
  wpd True (RunPostScript cfg w StartNode' n ignore_status status true) d (fun _ => settled A n X W d0).
Proof.
  intros H0 Hsd Hp Hi HA Hk. pose proof (holding_rebase _ _ _ _ _ _ _ _ H0) as H.
  pose proof (hd_node _ _ _ _ _ _ _ _ _ H) as Hn. pose proof (hd_hand _ _ _ _ _ _ _ _ _ H) as (Hs & Hwt & Hq & Hid & Hc).
  pose proof (holding_retries _ _ _ _ _ _ _ _ H) as Hr. unfold RunPostScript. wpd_steps.
  assert ((negb ignore_status && negb (status =? 0)) || bool_decide (_scriptPost j = None) = false) as ->.
  { rewrite bool_decide_eq_false_2 by (destruct Hp; congruence). destruct Hi as [-> | ->]; [done|]. by destruct ignore_status. }
  apply wpd_bind. eapply (wpd_hand cfg A n X W d d j _ _ STATUS_POSTRUN); [done|hand_change_tac|done|].
  intros d1 H1 _. wpd_steps. rewrite (g_monitor w Hw). simpl. wpd_steps.
  eapply wpd_mono; [eapply (Run_spec true); [apply PostScriptReaper_reaps|..]|].
  - eapply (holding_core cfg); [|exact H1]. apply (count_succ_pred true).
  - done.
  - apply (no_aborts_count _ true). eapply holding_no_aborts; eassumption.
  - eapply (holding_measure A n X W d d1); eassumption.
  - intros z d2 Hd2. apply wpd_ret. eapply settled_trans; [apply H0|done].
Qed.

Lemma settle_skipped A n X W d0 d d' j : holding A n X W d0 d j STATUS_PRERUN → is_Some (_scriptPre j) →
  core_of d' = core_of (d <| _preRunNodeCount ::= Z.succ |> <| userlog ::= fun l => l ++ [(n, PreSkipEvent)] |>) →
  settled A n X W d0 d'.
Proof.
  intros H Hs E. eapply (settled_core cfg); [exact E|].
  destruct (placed_skipped cfg n j (d <| _preRunNodeCount ::= Z.succ |>)) as [Hp Hf]; [apply H|].
  eapply (holding_put cfg); [eapply (holding_core cfg); [apply (count_succ_pred false)|exact H]| |exact Hp|exact Hf].
  by apply (run_local false); [apply H|].
Qed.

Lemma pre_failed_spec A n X W d j : holding A n X W d d j STATUS_PRERUN → is_Some (_scriptPre j) →
  (A → no_aborts d) → (measure n d ≤ k)%nat →
  wpd True (pre_failed cfg w StartNode' n) d (fun _ => settled A n X W d).
Proof.
  intros H Hp HA Hk. pose proof (hd_node _ _ _ _ _ _ _ _ _ H) as Hn.
  pose proof (hd_hand _ _ _ _ _ _ _ _ _ H) as (Hs & Hwt & Hq & Hid & Hc).
  pose proof (holding_retries _ _ _ _ _ _ _ _ H) as Hr.
  unfold pre_failed. wpd_steps. case_bool_decide as Hskip.
  { wpd_steps. rewrite (g_monitor w Hw). simpl. wpd_steps. rewrite (g_preskip w Hw). simpl. wpd_steps.
    unfold modScript. wpd_steps. eapply wpd_modJob; [simpl; apply lookup_insert_eq|]. apply wpd_ret.
    set (j' := j <| _scriptPre ::= fmap (fun s => s <| _done := true |>) |> <| retval := 0 |>).
    apply (settle_skipped A n X W d (d <| _nodeIDHash ::= insert n j' |>) _ j').
    - eapply (holding_upd cfg); [exact H|hand_change_tac|done].
    - by apply fmap_is_Some.
    - unfold core_of; simpl. by rewrite insert_insert_eq. }
  assert (holding A n X W d (d <| _nodeIDHash ::= insert n (TerminateFailure j) |>) (TerminateFailure j) STATUS_ERROR) as He.
  { eapply (holding_upd cfg); [exact H|hand_change_tac|done]. }
  destruct (_alwaysRunPost cfg && bool_decide (is_Some (_scriptPost j))) eqn:Ha.
  - apply andb_true_iff in Ha as [Ha Hps%bool_decide_eq_true]. unfold modScript. apply wpd_bind.
    eapply (wpd_hand cfg A n X W d d j _ _ STATUS_PRERUN); [done|hand_change_tac|done|]. intros d1 H1 _. apply wpd_bind.
    eapply wpd_mono; [eapply RunPostScript_spec; [exact H1|done|by apply fmap_is_Some|by left| |]|].
    + eapply holding_no_aborts; eassumption.
    + eapply holding_measure; eassumption.
    + intros b d2 Hd2. by apply wpd_ret.
  - destruct (Z.ltb_spec (retries j) (retry_max j)); wpd_steps.
    + eapply wpd_mono; [eapply RestartNode_spec; [exact He|done|eapply holding_no_aborts; eassumption|eapply holding_measure; eassumption]|].
      intros [] d2 Hd2. by apply wpd_ret.
    + unfold node_failed. wpd_steps. by eapply settle_error.
Qed.

(** What is known once the node that was in hand is back in its place. *)
Lemma settled_node A n X W d d1 d' j s : holding A n X W d d1 j s → settled A n X W d1 d' →
  ∃ j', _nodeIDHash d' !! n = Some j'.
Proof.
  intros H [I V]. apply elem_of_dom, (wf_jobs _ (f_graph cfg W d' (proj1 I))). rewrite (e_jobs _ _ _ _ V).
  apply (wf_jobs _ (f_graph cfg W d1 (proj1 (hd_inv _ _ _ _ _ _ _ _ _ H)))), elem_of_dom. eexists. apply H.
Qed.

Lemma ready_spec A n X W d0 d j (b : bool) : holding A n X W d0 d j STATUS_READY →
  wpd True (if b then ready_first n else ready_last n) d (fun _ => settled A n X W d0).
Proof. intros H. destruct b; [by eapply ready_first_spec|by eapply ready_last_spec]. Qed.

Lemma PreScriptReaper_reaps : reaps false (PreScriptReaper cfg w StartNode').
Proof.
  intros A n X W d0 d j status H0 Hp HA Hk. simpl in H0, Hp.
  set (d1 := d <| _preRunNodeCount ::= Z.pred |>) in *. pose proof (holding_rebase _ _ _ _ _ _ _ _ H0) as H.
  pose proof (hd_node _ _ _ _ _ _ _ _ _ H) as Hn. pose proof (hd_hand _ _ _ _ _ _ _ _ _ H) as (Hs & Hwt & Hq & Hid & Hc).
  pose proof (holding_retries _ _ _ _ _ _ _ _ H) as Hr.
  unfold PreScriptReaper. apply wpd_bind, (wpd_getJob _ _ j); [done|]. apply wpd_bind, wpd_assert; [by rewrite Hs|]. apply wpd_bind, wpd_modDag.
  fold d1. apply wpd_bind. eapply (wpd_hand cfg A n X W d1 d1 j _ _ STATUS_PRERUN); [done|hand_change_tac|done|].
  intros d2 H2 _. apply wpd_bind.
  assert (A → no_aborts d2) as HA2 by (eapply holding_no_aborts; [exact H2|exact HA]).
  assert (measure n d2 ≤ k)%nat as Hk2 by (eapply holding_measure; [exact H2|exact Hk]).
  assert (∀ (b : bool) d', settled A n X W d2 d' →
            wpd True (when b (CheckForDagAbort StartNode' n;; mret ())) d' (fun _ => settled A n X W d0)) as Hend.
  { intros b d' Hd'. apply wpd_when; intros _.
    - destruct (settled_node A n X W d1 d2 d' _ _ H2 Hd') as [j' Hj']. pose proof (pending_cost_evolves _ _ _ _ (proj2 Hd')).
      apply wpd_bind. eapply wpd_mono; [eapply CheckForDagAbort_spec; [exact Hj'| |exact Hd'|]|].
      + intros Ha. eapply no_aborts_evolves; [apply Hd'|auto].
      + unfold measure in Hk2. lia.
      + intros b' d3 Hd3. apply wpd_ret. eapply settled_trans; [apply H0|]. eapply settled_trans; [apply H2|done].
    - eapply settled_trans; [apply H0|]. eapply settled_trans; [apply H2|done]. }
  pose proof (holding_rebase _ _ _ _ _ _ _ _ H2) as H2'.
  destruct (WIFSIGNALED status || negb (WEXITSTATUS status =? 0)).
  - eapply wpd_mono; [by eapply pre_failed_spec|]. intros b d' Hd'. by apply Hend.
  - unfold modScript. apply wpd_bind. eapply (wpd_hand cfg A n X W d2 d2 _ _ _ STATUS_PRERUN); [exact H2'|hand_change_tac|done|].
    intros d3 H3 _. apply wpd_bind. eapply (wpd_hand cfg A n X W d2 d3 _ _ _ STATUS_READY); [exact H3|hand_change_tac|done|].
    intros d4 H4 _. apply wpd_bind. eapply wpd_mono; [by eapply ready_spec|]. intros [] d' Hd'. apply wpd_ret. by apply Hend.
Qed.

Lemma Run_reaps post A n X W d0 d j :
  holding A n X W d0 (count_run post Z.pred d) j (run_status post) → is_Some (script_of post j) →
  (A → no_aborts d) → (measure n d ≤ k)%nat →
  wpd True (Run cfg w StartNode' post n) d (fun _ => settled A n X W d0).
Proof.
  intros H Hs HA Hk. unfold Run. apply (Run_spec post _ A n X W d0 d j); [|done..].
  destruct post; [apply PostScriptReaper_reaps|apply PreScriptReaper_reaps].
Qed.
End Open.

(** ** StartNode *)

Lemma StartNode_fuel fuel : starts (StartNode_ cfg w fuel) fuel.
Proof.
  induction fuel as [|fuel IH]; [intros A n X W d0 d j r H HA Hk; lia|].
  intros A n X W d0 d j isRetry H0 HA Hk. pose proof (holding_rebase _ _ _ _ _ _ _ _ H0) as H.
  pose proof (hd_node _ _ _ _ _ _ _ _ _ H) as Hn. pose proof (hd_hand _ _ _ _ _ _ _ _ _ H) as (Hs & Hwt & Hq & Hid & Hc).
  pose proof (holding_retries _ _ _ _ _ _ _ _ H) as Hr.
  simpl. wpd_steps. apply wpd_assert. { unfold CanSubmit. by rewrite Hs, Hwt. }
  destruct (match _scriptPre j with Some s => negb (_done s) | None => false end) eqn:Hp.
  { assert (is_Some (_scriptPre j)) as Hpre by (destruct (_scriptPre j); [eauto|done]).
    apply wpd_bind. eapply (wpd_hand cfg A n X W d d j _ _ STATUS_PRERUN); [done|hand_change_tac|done|].
    intros d1 H1 _. wpd_steps.
    eapply wpd_mono; [eapply (Run_reaps (StartNode_ cfg w fuel) fuel IH false)|].
    - eapply (holding_core cfg); [|exact H1]. apply (count_succ_pred false).
    - done.
    - apply (no_aborts_count _ false). eapply holding_no_aborts; eassumption.
    - eapply (holding_measure fuel A n X W d d1); [exact H1|lia].
    - intros z d2 Hd2. apply wpd_ret. split; [done|]. eapply settled_trans; [apply H0|done]. }
  wpd_steps. eapply wpd_mono; [eapply FixPriority_spec; exact H0|]. intros [] d1 [j1 H1]. apply wpd_bind.
  assert (∀ d2, settled A n X W d0 d2 → wpd True (mret true) d2 (fun b d' => b = true ∧ settled A n X W d0 d')) as Hret by done.
  destruct (isRetry && m_retryNodeFirst cfg).
  { eapply wpd_mono; [eapply ready_first_spec; exact H1|]. intros [] d2 Hd2. by apply Hret. }
  apply wpd_bind. pose proof (holding_retries _ _ _ _ _ _ _ _ H1) as Hr1.
  pose proof (hd_hand _ _ _ _ _ _ _ _ _ H1) as (Hs1 & Hwt1 & Hq1 & Hid1 & Hc1).
  eapply (wpd_hand cfg A n X W d0 d1 j1 _ _ STATUS_READY); [done|destruct (_hasNodePriority j1); hand_change_tac|
    by destruct (_hasNodePriority j1)|].
  intros d2 H2 _. eapply wpd_mono; [by eapply ready_spec|]. intros [] d3 Hd3. by apply Hret.
Qed.

Lemma StartNode_eq n isRetry d : StartNode cfg w n isRetry d = StartNode_ cfg w (S (start_fuel n d)) n isRetry d.
Proof. reflexivity. Qed.
Lemma wpd_eq (P : Prop) {B} (m m' : D B) d Q : m d = m' d → wpd P m' d Q → wpd P m d Q.
Proof. unfold wpd. by intros ->. Qed.

Lemma StartNode_spec A n X W d0 d j isRetry : holding A n X W d0 d j STATUS_READY → (A → no_aborts d) →
  wpd True (StartNode cfg w n isRetry) d (fun b d' => b = true ∧ settled A n X W d0 d').
Proof.
  intros H HA. pose proof (start_fuel_measure n d) as Hm.
  assert (measure n d < S (start_fuel n d))%nat as Hk by lia. clear Hm.
  eapply wpd_eq; [apply StartNode_eq|]. revert Hk. generalize (S (start_fuel n d)) as fuel. intros fuel Hk.
  by apply (StartNode_fuel fuel A n X W d0 d j).
Qed.

(** The specifications of what is inside [StartNode], with [StartNode] itself. *)
Lemma StartNode_starts k : starts (StartNode cfg w) k.
Proof. intros A n X W d0 d j isRetry H HA _. by eapply StartNode_spec. Qed.
End Start.
