(* ===== verification/DagRun.v ===== *)
(** * DagRun

    The handlers of DAGMan, the events of the log, the end of a script, the
    submission of ready nodes and the end of the timer, keep the invariant of
    [DagInv] and do not abort. *)
From stdpp Require Import base gmap list sorting relations sets.
From Stdlib Require Import ZArith Lia.
From S2P Require Import Prelude PriorityList Dag DagCycle DagInv DagSafe DagStart.
Open Scope Z_scope.
Open Scope condor_scope.

Definition no_wait (p c : JobID_t) : Prop := False.

Lemma dag_inv_ext cfg h X W W' d : (∀ p c, W p c ↔ W' p c) → inv cfg h X W d → inv cfg h X W' d.
Proof.
  intros E ([] & C & I). split_and!; [|done|done]. constructor; try done.
  intros c jc p Hc. rewrite <- E. by apply f_waits.
Qed.

(** The nodes that are not yet started, when another node changes. *)
Lemma unstarted_insert (m : gmap JobID_t Job) n j' (P : Job → Prop) (X : pending) :
  (∀ x, x ∈ X → ∃ j, delete n m !! x = Some j ∧ P j) → ∀ x, x ∈ X → ∃ j, <[n := j']> m !! x = Some j ∧ P j.
Proof.
  intros H x Hx. destruct (H x Hx) as (j & Hj & HP). apply lookup_delete_Some in Hj as [? ?].
  exists j. by rewrite lookup_insert_ne.
Qed.

Section Run.
Variable cfg : DagConfig.
Variable w : World.
Hypothesis Hw : good_world w.
Implicit Types (A : Prop) (n c p : JobID_t) (X : pending) (W : JobID_t → JobID_t → Prop) (d : Dag) (j : Job).
Abbreviation holding := (holding cfg).
Abbreviation settled := (settled cfg).
Abbreviation StartNode := (StartNode cfg w).

(** ** The end of a node *)

Lemma inv_done_le X W d : inv cfg None X W d → _numNodesDone d ≤ Z.of_nat (length (_jobs d)).
Proof.
  intros (F & C & _). rewrite (c_numDone _ _ _ C). etrans; [apply cnt_size|]. apply inj_le.
  simpl. rewrite <- size_dom, <- (size_list_to_set (C := gset JobID_t) (_jobs d)) by apply F. apply subseteq_size.
  intros x Hx. apply elem_of_list_to_set. by apply (wf_jobs _ (f_graph cfg W d F)).
Qed.

Lemma placed_done n j d : _Status j = STATUS_DONE → _isIdle j = false →
  placed n j d (d <| _numNodesDone ::= Z.succ |>) ∧ placed n j (d <| _numNodesDone ::= Z.pred |>) d.
Proof. intros Hs Hi. split; placed_tac. Qed.

(** A node is done: its children still have to be told. *)
Lemma inv_done A n X d0 d j s j' : holding A n X no_wait d0 d j s → s ≠ STATUS_DONE →
  j' = TerminateSuccess j <| countedAsDone := true |> →
  inv cfg None X (fun p c => p = n ∧ c ∈ Q_CHILDREN j)
    (d <| _nodeIDHash ::= insert n j' |> <| _numNodesDone ::= Z.succ |>).
Proof.
  intros H Hsd ->. destruct H as [(F & C & I) V Hn (Hs & Hwt & Hq & Hi & Hc) HX].
  set (j' := TerminateSuccess j <| countedAsDone := true |>). set (d' := d <| _nodeIDHash ::= insert n j' |>).
  assert (_nodeIDHash d' !! n = Some j') as Hn' by apply lookup_insert_eq.
  assert (frame_ok cfg (fun p c => p = n ∧ c ∈ Q_CHILDREN j) d') as F'.
  { apply (frame_insert_gen cfg no_wait _ d n j); [done| | | |done].
    - constructor; try done. apply (f_static cfg no_wait d F n j Hn).
    - done.
    - intros c jc p Hc'.
      assert (∃ jc0, _nodeIDHash d !! c = Some jc0 ∧ Q_WAITING jc = Q_WAITING jc0 ∧ Q_PARENTS jc = Q_PARENTS jc0)
        as (jc0 & Hc0 & -> & Hpar).
      { lookup_case n c; [injection Hc' as <-; by exists j|by exists jc]. }
      rewrite (f_waits cfg no_wait d F c jc0 p Hc0), Hpar. pose proof (wf_parents _ (f_graph cfg no_wait d F) c jc0 p Hc0) as Hp.
      rewrite edge_node in Hp. unfold undone; simpl. destruct (decide (p = n)) as [->|Hne].
      + rewrite lookup_insert_eq. split.
        * intros [Hpc _]. split; [done|]. right. split; [done|]. apply Hp in Hpc as (? & ? & ?). simplify_eq. done.
        * intros [Hpc _]. split; [done|]. left. exists j. split; [done|congruence].
      + rewrite lookup_insert_ne by congruence. unfold no_wait. naive_solver. }
  split_and!; [apply (frame_changed cfg _ d'); [|done]; frame_tac| |by apply unstarted_insert].
  apply (core_put n j' X d'); [done|done| |by apply placed_done; [|done]|].
  - constructor; simpl; try done; try (intros; lia || congruence).
  - unfold d'; simpl. rewrite delete_insert_eq. destruct C; by constructor.
Qed.

(** A child hears of the end of its parent [n]. *)
Definition delivered (n c : JobID_t) W : JobID_t → JobID_t → Prop := fun p c' => W p c' ∧ ¬(p = n ∧ c' = c).

Lemma frame_delivered n c W d jc jc' : frame_ok cfg W d → _nodeIDHash d !! c = Some jc → ¬undone d n →
  jc' = jc <| Q_WAITING ::= fun s => s ∖ {[n]} |> → frame_ok cfg (delivered n c W) (d <| _nodeIDHash ::= insert c jc' |>).
Proof.
  intros F Hc Hn ->. apply (frame_insert_gen cfg W _ d c jc); [done| |by left| |done].
  - constructor; try done. apply (f_static cfg W d F c jc Hc).
  - intros x jx p Hx. rewrite (undone_insert d c jc) by done. unfold delivered. lookup_case c x.
    + injection Hx as <-. simpl. rewrite elem_of_difference, elem_of_singleton, (f_waits cfg W d F c jc p Hc).
      destruct (decide (p = n)) as [->|]; [|tauto]. split; [tauto|]. intros [_ [?|[_ []]]]; [done|done].
    + rewrite (f_waits cfg W d F x jx p Hx). naive_solver.
Qed.

Lemma inv_delivered n c X W d jc jc' : inv cfg None X W d → _nodeIDHash d !! c = Some jc → n ∈ Q_WAITING jc →
  ¬undone d n → c ∉ X → jc' = jc <| Q_WAITING ::= fun s => s ∖ {[n]} |> →
  let d' := d <| _nodeIDHash ::= insert c jc' |> in
  (CanSubmit jc' = true → holding False c X (delivered n c W) d' d' jc' STATUS_READY) ∧
  (CanSubmit jc' = false → inv cfg None X (delivered n c W) d').
Proof.
  intros I Hc Hin Hn HX Hjc'. pose proof (local_hand cfg None X W d c jc I Hc) as Hl.
  pose proof (frame_delivered n c W d jc jc' (proj1 I) Hc Hn Hjc') as F'. intros d'.
  assert (_nodeIDHash d' !! c = Some jc') as Hc' by apply lookup_insert_eq.
  assert (Q_WAITING jc ≠ ∅) as Hne by set_solver.
  assert (_isIdle jc = false) as Hi.
  { destruct (_isIdle jc) eqn:E; [|done]. apply (l_idle _ Hl) in E. destruct Hne. apply (l_waiting _ Hl); congruence. }
  destruct (decide (_Status jc = STATUS_READY)) as [Hs|Hs].
  - assert (inv cfg (Some c) X (delivered n c W) d') as I'.
    { destruct (inv_take cfg c jc X W d d) as (_ & C & I0); [done|done|done|apply placed_nowhere; auto|apply frame_change_refl|].
      split_and!; [done|simpl in *; rewrite delete_insert_eq; destruct C; by constructor|]. simpl in *. by rewrite delete_insert_eq. }
    assert (Q_WAITING jc' = ∅ → hand_ok STATUS_READY jc') as Hh.
    { intros E. subst jc'. apply hand_of_local; [|done..]. destruct Hl. by constructor. }
    split; unfold CanSubmit.
    + intros [E%bool_decide_eq_true _]%andb_true_iff. constructor; [done|apply evolves_refl|done|auto|done].
    + intros Hcs. apply (inv_put cfg c jc' X _ d' d'); [done|done|done| | |apply frame_change_refl].
      * subst jc'. destruct Hl. by constructor.
      * apply placed_nowhere; [|by subst jc']. right. split; [by subst jc'|]. intros E. rewrite E in Hcs. subst jc'.
        simpl in Hcs. rewrite Hs in Hcs. done.
  - assert (_Status jc = STATUS_DONE) as Hd.
    { destruct (decide (_Status jc = STATUS_DONE)); [done|]. destruct Hne. by apply (l_waiting _ Hl). }
    split; [unfold CanSubmit; subst jc'; simpl; rewrite Hd; by rewrite andb_false_r|]. intros _.
    destruct (inv_take cfg c jc X W (d <| _numNodesDone ::= Z.pred |>) d) as (_ & C & I0);
      [done|done|done|by apply placed_done|frame_tac|].
    split_and!; [done| |by apply unstarted_insert]. change (core_ok (_nodeIDHash (d' <| _numNodesDone ::= Z.pred |>)) X d').
    eapply (core_put c jc' X (d' <| _numNodesDone ::= Z.pred |>));
      [done|done|subst jc'; destruct Hl; by constructor|apply placed_done; by subst jc'|].
    simpl in *. rewrite delete_insert_eq. destruct C; by constructor.
Qed.

(** What a later state keeps of a node. *)
Lemma evolves_node A n X W d d' m j : graph_wf d → inv cfg None X W d' → evolves A n d d' → _nodeIDHash d !! m = Some j →
  ∃ j', _nodeIDHash d' !! m = Some j' ∧ Q_WAITING j' = Q_WAITING j ∧ (_Status j' = STATUS_DONE ↔ _Status j = STATUS_DONE).
Proof.
  intros Hg (F & _ & _) V Hm.
  assert (m ∈ dom (_nodeIDHash d')) as [j' Hj']%elem_of_dom.
  { apply (wf_jobs _ (f_graph cfg W d' F)). rewrite (e_jobs _ _ _ _ V). apply (wf_jobs _ Hg), elem_of_dom. eauto. }
  exists j'. split; [done|]. destruct (e_nodes _ _ _ _ V m j' Hj') as (j0 & Hj0 & _ & Hwt & Hd & _). by simplify_eq.
Qed.

(** The loop over the children. *)
Record telling (n : JobID_t) (l : list JobID_t) X (js past : list JobID_t) d : Prop := {
  t_inv : inv cfg None X (fun p c => p = n ∧ c ∈ l ∧ c ∉ past) d;
  t_jobs : _jobs d = js;
  t_node : ∃ j, _nodeIDHash d !! n = Some j ∧ _Status j = STATUS_DONE;
  t_children c : c ∈ l → c ∉ past → ∃ jc, _nodeIDHash d !! c = Some jc ∧ n ∈ Q_WAITING jc;
}.

Lemma telling_step n l X js past c rest d : l = past ++ c :: rest → NoDup l → n ∉ l → unstarted X = ∅ → telling n l X js past d →
  wpd True (modJob c (fun jc => jc <| Q_WAITING ::= fun s => s ∖ {[n]} |>);;
            jc ← getJob c; when (CanSubmit jc && negb false && negb false) (StartNode c false;; mret tt)) d
    (fun _ => telling n l X js (past ++ [c])).
Proof.
  intros Hl Hnd Hnl HX [I Hjs [jn [Hjn Hsn]] Hch].
  assert (c ∈ l ∧ c ∉ past) as [Hcl Hcp]. { subst l. apply NoDup_app in Hnd as (_ & Hnd & _). set_solver. }
  destruct (Hch c Hcl Hcp) as (jc & Hc & Hin). wpd_steps.
  set (jc' := jc <| Q_WAITING ::= fun s => s ∖ {[n]} |>). set (d1 := d <| _nodeIDHash ::= insert c jc' |>).
  apply (wpd_getJob _ c jc'); [apply lookup_insert_eq|]. rewrite !andb_true_r.
  destruct (inv_delivered n c X _ d jc jc' I Hc Hin) as [Hyes Hno]; [|unfold elem_of, pending_elem_of; set_solver|done|].
  { intros (j & Hj & Hu). simplify_eq. }
  assert (∀ d2, inv cfg None X (delivered n c (fun p c0 => p = n ∧ c0 ∈ l ∧ c0 ∉ past)) d2 → _jobs d2 = js →
            (∀ m j, m = n ∨ m ∈ l → _nodeIDHash d !! m = Some j → m ≠ c → ∃ j', _nodeIDHash d2 !! m = Some j' ∧ Q_WAITING j' = Q_WAITING j ∧
               (_Status j' = STATUS_DONE ↔ _Status j = STATUS_DONE)) → telling n l X js (past ++ [c]) d2) as Hend.
  { intros d2 I2 Hj2 Hk. constructor.
    - eapply dag_inv_ext; [|exact I2]. intros p x. unfold delivered. rewrite elem_of_app, list_elem_of_singleton. naive_solver.
    - done.
    - destruct (Hk n jn) as (j' & ? & _ & ?); [by left|done|by intros ->|]. exists j'. naive_solver.
    - intros x Hx Hxp. rewrite elem_of_app, list_elem_of_singleton in Hxp. destruct (Hch x) as (jx & Hjx & Hwx); [done|tauto|].
      destruct (Hk x jx) as (j' & ? & E & _); [by right|done|tauto|]. exists j'. by rewrite E. }
  assert (∀ m j, _nodeIDHash d !! m = Some j → m ≠ c → _nodeIDHash d1 !! m = Some j) as Hd1.
  { intros m j Hm Hne. unfold d1; simpl. by rewrite lookup_insert_ne. }
  destruct (CanSubmit jc') eqn:Hcs; simpl; wpd_steps.
  - pose proof (Hyes eq_refl) as H. eapply wpd_mono; [eapply (StartNode_spec cfg w Hw); [exact H|done]|].
    intros b d2 [_ [I2 V2]]. apply wpd_ret, Hend; [done|by rewrite (e_jobs _ _ _ _ V2)|].
    intros m j _ Hm Hne. eapply (evolves_node False c X _ d1 d2); [apply (f_graph cfg _ d1 (proj1 (hd_inv _ _ _ _ _ _ _ _ _ H)))|done|done|auto].
  - apply Hend; [by apply Hno|done|]. intros m j _ Hm Hne. exists j. auto.
Qed.

Lemma TerminateJob_spec A n X d0 d j s : holding A n X no_wait d0 d j s → s ≠ STATUS_DONE → unstarted X = ∅ →
  wpd True (TerminateJob cfg w n false false) d (fun _ d' => inv cfg None X no_wait d' ∧ _jobs d' = _jobs d).
Proof.
  intros H Hsd HX. pose proof (hd_node _ _ _ _ _ _ _ _ _ H) as Hn.
  pose proof (hd_hand _ _ _ _ _ _ _ _ _ H) as (Hs & Hwt & Hq & Hid & Hc).
  unfold TerminateJob. apply wpd_bind, wpd_assert; [done|]. wpd_steps.
  apply (wpd_getJob _ n (TerminateSuccess j)); [apply lookup_insert_eq|]. simpl. rewrite Hc. simpl. wpd_steps.
  eapply wpd_modJob; [apply lookup_insert_eq|]. wpd_steps.
  set (j' := TerminateSuccess j <| countedAsDone := true |>).
  pose proof (inv_done A n X d0 d j s j' H Hsd eq_refl) as I1.
  set (d1 := d <| _nodeIDHash ::= insert n (TerminateSuccess j) |> <| _numNodesDone ::= Z.succ |>
               <| _nodeIDHash ::= insert n j' |>).
  assert (inv cfg None X (fun p c => p = n ∧ c ∈ Q_CHILDREN j) d1) as I.
  { eapply (inv_core cfg); [|exact I1]. unfold core_of; simpl. by rewrite insert_insert_eq. }
  apply wpd_assert; [apply Z.leb_le, (inv_done_le _ _ _ I)|].
  set (l := set_list (Q_CHILDREN j)).
  assert (∀ c, c ∈ l ↔ c ∈ Q_CHILDREN j) as Hl by (intros c; apply elem_of_set_list).
  assert (n ∉ l) as Hnl.
  { rewrite Hl. intros Hin. destruct H as [(F & _ & _) _ _ _ _]. assert (n ∈ Q_WAITING j) as Hw'; [|set_solver].
    apply (f_waits cfg no_wait d F n j n Hn). split; [|left; exists j; split; congruence].
    apply (wf_parents _ (f_graph cfg no_wait d F) n j n Hn), edge_node. eauto. }
  apply (wpd_for_each True (fun past d => telling n l X (_jobs d1) past d)).
  - constructor.
    + eapply dag_inv_ext; [|exact I]. intros p c. rewrite Hl. set_solver.
    + done.
    + exists j'. split; [apply lookup_insert_eq|done].
    + intros c Hc' _. apply Hl in Hc'. assert (edge (graph_of d1) n c) as He.
      { apply edge_node. exists j'. split; [apply lookup_insert_eq|done]. }
      pose proof (wf_closed _ (f_graph _ _ _ (proj1 I)) n c He) as Hcd.
      unfold graph_of in Hcd. rewrite dom_fmap in Hcd. apply elem_of_dom in Hcd as [jc Hjc]. exists jc. split; [done|].
      apply (f_waits _ _ _ (proj1 I) c jc n Hjc). split; [|right; done]. by apply (wf_parents _ (f_graph _ _ _ (proj1 I)) c jc n Hjc).
  - intros past c rest d2 El Ht. eapply telling_step; [exact El| |done|done|done].
    unfold l, set_list. rewrite merge_sort_Permutation. apply NoDup_elements.
  - intros d2 []. split; [|done]. eapply dag_inv_ext; [|exact t_inv0]. unfold no_wait. naive_solver.
Qed.

(** ** Changes of a node in its place *)

Record touched (j j' : Job) : Prop := {
  to_static : same_static j j';
  to_status : _Status j' = _Status j;
  to_pid post : _pid <$> script_of post j' = _pid <$> script_of post j;
}.

Lemma place_touch (P : JobID_t → Job → Prop) (m : gmap JobID_t Job) n j j' (l : list JobID_t) : m !! n = Some j →
  (P n j ↔ P n j') → (∀ x, x ∈ l ↔ ∃ jx, m !! x = Some jx ∧ P x jx) →
  ∀ x, x ∈ l ↔ ∃ jx, <[n := j']> m !! x = Some jx ∧ P x jx.
Proof. intros Hn HP Hl x. rewrite Hl. lookup_case n x; [|done]. naive_solver. Qed.

Lemma core_touch n j j' (m : gmap JobID_t Job) X d i : m !! n = Some j → touched j j' → local_ok j' →
  i = _numIdleJobProcs d - Z.b2z (_isIdle j) + Z.b2z (_isIdle j') → core_ok m X d →
  core_ok (<[n := j']> m) X (d <| _numIdleJobProcs := i |>).
Proof.
  intros Hn [[] Hs Hpid] Hl -> [].
  assert (∀ p : Job → bool, p j' = p j → cnt p (<[n := j']> m) = cnt p m) as Hcnt.
  { intros p E. rewrite (cnt_insert p n j j' m Hn), E. lia. }
  constructor; simpl; try done; unfold pre_place, post_place in *; simpl.
  - intros x jx Hx. lookup_case n x; [by injection Hx as <-|eauto].
  - apply (place_touch (fun x j => _Status j = STATUS_READY ∧ Q_WAITING j = ∅ ∧ x ∉ X) m n j); [done| |done]. by rewrite Hs, ss_waiting.
  - apply (place_touch (fun x j => _Status j = STATUS_PRERUN) m n j); [done| |done]. by rewrite Hs.
  - apply (place_touch (fun x j => _Status j = STATUS_POSTRUN) m n j); [done| |done]. by rewrite Hs.
  - intros post pid x Hx. destruct (c_pid post pid x Hx) as (jx & Hjx & E). lookup_case n x; [|eauto].
    exists j'. simplify_eq. by rewrite Hpid.
  - rewrite Hcnt; [done|]. unfold is_st. by rewrite Hs.
  - rewrite Hcnt; [done|]. unfold is_st. by rewrite Hs.
  - rewrite Hcnt; [done|]. unfold is_st. by rewrite Hs.
  - rewrite Hcnt; [done|]. unfold is_st. by rewrite Hs.
  - rewrite Hcnt; [done|]. unfold is_st. by rewrite Hs.
  - rewrite (cnt_insert _isIdle n j j' m Hn). lia.
  - intros c t Ht. rewrite Hcnt; [eauto|]. unfold in_cat, is_st. by rewrite Hs, ss_cat.
Qed.

Lemma inv_touch n j j' X W d i : inv cfg None X W d → _nodeIDHash d !! n = Some j → touched j j' → local_ok j' →
  i = _numIdleJobProcs d - Z.b2z (_isIdle j) + Z.b2z (_isIdle j') →
  inv cfg None X W (d <| _nodeIDHash ::= insert n j' |> <| _numIdleJobProcs := i |>).
Proof.
  intros (F & C & I) Hn Ht Hl Hi. pose proof Ht as [Hss Hs _]. split_and!.
  - apply (frame_changed cfg W (d <| _nodeIDHash ::= insert n j' |>)); [frame_tac|].
    apply (frame_insert cfg W d n j); [done|done|by rewrite Hs|left; congruence|done].
  - pose proof (core_touch n j j' (_nodeIDHash d) X d i Hn Ht Hl Hi C) as []. by constructor.
  - intros x Hx. destruct (I x Hx) as (jx & Hjx & ? & ?). simpl in *. lookup_case n x; [|eauto]. exists j'. simplify_eq.
    split; [done|]. by rewrite Hs, (ss_waiting _ _ Hss).
Qed.

(** The fields that do not matter. *)
Lemma inv_touch_same n j j' X W d : inv cfg None X W d → _nodeIDHash d !! n = Some j → touched j j' →
  _isIdle j' = _isIdle j → _queuedNodeJobProcs j' = _queuedNodeJobProcs j → countedAsDone j' = countedAsDone j →
  inv cfg None X W (d <| _nodeIDHash ::= insert n j' |>).
Proof.
  intros I Hn Ht Hi Hq Hc. pose proof (local_hand cfg None X W d n j I Hn) as [].
  apply (inv_core cfg _ _ _ (d <| _nodeIDHash ::= insert n j' |> <| _numIdleJobProcs := _numIdleJobProcs d |>)); [done|].
  eapply inv_touch; [exact I|exact Hn|done| |rewrite Hi; lia]. destruct Ht as [[] Hs Hp].
  constructor; unfold is_st in *; rewrite ?Hs, ?Hi, ?Hq, ?Hc, ?ss_waiting; try done.
  - intros Hs'. specialize (Hp false). simpl in Hp. destruct (l_pre Hs') as [s Hsc]. rewrite Hsc in Hp.
    apply fmap_Some in Hp as (? & ? & _). eauto.
  - intros Hs'. specialize (Hp true). simpl in Hp. destruct (l_post Hs') as [s Hsc]. rewrite Hsc in Hp.
    apply fmap_Some in Hp as (? & ? & _). eauto.
Qed.

(** ** Idle, held and submitted *)

Ltac touched_tac :=
  constructor; [constructor; simpl; try reflexivity; try lia; done|simpl; congruence || done|intros []; reflexivity].

Lemma inv_retries h X W d n j : inv cfg h X W d → _nodeIDHash d !! n = Some j → 0 ≤ retries j ≤ retry_max j.
Proof. intros I Hn. apply (s_retries _ _ _ (inv_static cfg _ _ _ _ _ _ I Hn)). Qed.

(** No more nodes are idle than submitted. *)
Lemma idle_submitted X W d : inv cfg None X W d → 0 ≤ _numIdleJobProcs d ≤ _numJobsSubmitted d.
Proof.
  intros (_ & C & _). rewrite (c_numIdle _ _ _ C), (c_numSubmitted _ _ _ C). split; [apply cnt_nonneg|].
  apply cnt_le. intros n j Hn Hi. apply is_st_iff. by apply (l_idle _ (c_local _ _ _ C n j Hn)).
Qed.
Lemma too_many_idle_spec X W d : inv cfg None X W d → wpd True too_many_idle d (fun _ d' => core_of d' = core_of d).
Proof.
  intros I. pose proof (idle_submitted X W d I). unfold too_many_idle. wpd_steps.
  assert ((0 <? _numIdleJobProcs d) && (_numJobsSubmitted d <? 1) = false) as E.
  { apply andb_false_iff. rewrite !Z.ltb_ge. lia. }
  unfold core_of; simpl. by rewrite E.
Qed.

(** The idle flag of a submitted node is [b]. *)
Definition idled (n : JobID_t) (b : bool) X W d d' : Prop :=
  inv cfg None X W d' ∧ _jobs d' = _jobs d ∧ ∃ j j', _nodeIDHash d !! n = Some j ∧ _nodeIDHash d' !! n = Some j' ∧
    _Status j' = _Status j ∧ _queuedNodeJobProcs j' = _queuedNodeJobProcs j ∧ (_Status j = STATUS_SUBMITTED → _isIdle j' = b).

Lemma set_idle n j (b : bool) X W d f : inv cfg None X W d → _nodeIDHash d !! n = Some j → _isIdle j = negb b →
  _Status j = STATUS_SUBMITTED → f = (if b then Z.succ else Z.pred) →
  wpd True (modJob n (fun j => j <| _isIdle := b |>);; modDag (fun d => d <| _numIdleJobProcs ::= f |>)) d
    (fun _ => idled n b X W d).
Proof.
  intros I Hn Hi Hs ->. wpd_steps. pose proof (inv_retries _ _ _ _ _ _ I Hn) as Hr. split.
  - eapply (inv_touch n j (j <| _isIdle := b |>)); [exact I|exact Hn|touched_tac| |destruct b; rewrite Hi; simpl; lia].
    pose proof (local_hand cfg None X W d n j I Hn) as []. by constructor.
  - split; [done|]. exists j, (j <| _isIdle := b |>). split_and!; [done|apply lookup_insert_eq|done..].
Qed.

Lemma set_idle_event n j (b : bool) X W d f : inv cfg None X W d → _nodeIDHash d !! n = Some j →
  f = (if b then Z.succ else Z.pred) →
  wpd True (when ((if b then negb (_isIdle j) else _isIdle j) && bool_decide (_Status j = STATUS_SUBMITTED))
              (modJob n (fun j => j <| _isIdle := b |>);; modDag (fun d => d <| _numIdleJobProcs ::= f |>));;
            too_many_idle) d (fun _ => idled n b X W d).
Proof.
  intros I Hn ->. apply wpd_bind.
  eapply (wpd_mono _ _ _ (fun _ => idled n b X W d)).
  - apply wpd_when; [intros [Hi Hs%bool_decide_eq_true]%andb_true_iff|intros Hf].
    + eapply set_idle; [done|done| |done|done]. destruct b, (_isIdle j); done.
    + split; [done|]. split; [done|]. exists j, j. split_and!; [done..|]. intros Hs. rewrite bool_decide_eq_true_2 in Hf by done.
      rewrite andb_true_r in Hf. destruct b, (_isIdle j); done.
  - intros [] d1 (I1 & E1 & Hj). eapply wpd_mono; [by eapply too_many_idle_spec|]. intros [] d2 E2.
    split; [by eapply (inv_core cfg); [exact E2|]|]. unfold core_of in E2. injection E2 as E2 E3 _ _ _ _ _ _ _ _ _ _ _ _.
    rewrite E2, E3. done.
Qed.

Lemma ProcessIsIdleEvent_spec n j X W d : inv cfg None X W d → _nodeIDHash d !! n = Some j →
  wpd True (ProcessIsIdleEvent n) d (fun _ => idled n true X W d).
Proof. intros I Hn. unfold ProcessIsIdleEvent. wpd_step. wpd_step. by apply (set_idle_event n j true). Qed.
Lemma ProcessNotIdleEvent_spec n j X W d : inv cfg None X W d → _nodeIDHash d !! n = Some j →
  wpd True (ProcessNotIdleEvent n) d (fun _ => idled n false X W d).
Proof. intros I Hn. unfold ProcessNotIdleEvent. wpd_step. wpd_step. by apply (set_idle_event n j false). Qed.

(** Held and released procs. *)
Lemma Hold_touched proc j : 0 ≤ retries j ≤ retry_max j → let j' := (Hold proc j).2 in touched j j' ∧
  _isIdle j' = _isIdle j ∧ _queuedNodeJobProcs j' = _queuedNodeJobProcs j ∧ countedAsDone j' = countedAsDone j.
Proof. intros Hr. unfold Hold. destruct (default _ _); simpl; (split; [touched_tac|done]). Qed.
Lemma Release_touched proc j : 0 ≤ retries j ≤ retry_max j → let j' := (Release proc j).2 in touched j j' ∧
  _isIdle j' = _isIdle j ∧ _queuedNodeJobProcs j' = _queuedNodeJobProcs j ∧ countedAsDone j' = countedAsDone j.
Proof.
  intros Hr. unfold Release. destruct (_ <=? _); simpl; [split; [touched_tac|done]|].
  destruct (default _ _); simpl; (split; [touched_tac|done]).
Qed.

Lemma ProcessHeldEvent_spec n j proc X W d : inv cfg None X W d → _nodeIDHash d !! n = Some j → 0 ≤ proc →
  wpd True (ProcessHeldEvent n proc) d (fun _ d' => inv cfg None X W d' ∧ is_Some (_nodeIDHash d' !! n)).
Proof.
  intros I Hn Hp. unfold ProcessHeldEvent. apply wpd_bind, wpd_assert; [by apply Z.leb_le|]. wpd_steps.
  destruct (Hold_touched proc j) as (Ht & ? & ? & ?); [by eapply inv_retries|]. destruct (Hold proc j) as [ok j'].
  wpd_steps. pose proof (inv_touch_same n j j' X W d I Hn Ht) as I'.
  apply wpd_when; intros _; wpd_steps; (split; [|simpl; rewrite lookup_insert_eq; eauto]).
  - eapply (inv_core cfg); [|by apply I']. done.
  - by apply I'.
Qed.
Lemma ProcessReleasedEvent_spec n j proc X W d : inv cfg None X W d → _nodeIDHash d !! n = Some j → 0 ≤ proc →
  wpd True (ProcessReleasedEvent n proc) d (fun _ => inv cfg None X W).
Proof.
  intros I Hn Hp. unfold ProcessReleasedEvent. apply wpd_bind, wpd_assert; [by apply Z.leb_le|]. wpd_steps.
  destruct (Release_touched proc j) as (Ht & ? & ? & ?); [by eapply inv_retries|]. destruct (Release proc j) as [ok j'].
  wpd_steps. pose proof (inv_touch_same n j j' X W d I Hn Ht) as I'.
  apply wpd_when; intros _; wpd_steps.
  - eapply (inv_core cfg); [|by apply I']. done.
  - by apply I'.
Qed.

Lemma ProcessSubmitEvent_spec n j sane X W d : inv cfg None X W d → _nodeIDHash d !! n = Some j →
  _Status j = STATUS_SUBMITTED → _queuedNodeJobProcs j = 0 →
  wpd True (ProcessSubmitEvent w n false sane) d (fun _ d' => inv cfg None X W d' ∧ is_Some (_nodeIDHash d' !! n)).
Proof.
  intros I Hn Hs Hq. pose proof (local_hand cfg None X W d n j I Hn) as Hl. pose proof (inv_retries _ _ _ _ _ _ I Hn) as Hr.
  unfold ProcessSubmitEvent. wpd_steps. rewrite bool_decide_eq_false_2 by (intros Hx; apply Hx, (l_waiting _ Hl); congruence).
  simpl. wpd_steps. eapply wpd_getJob; [apply lookup_insert_eq|].
  assert (∀ (b : bool), inv cfg None X W (d <| _nodeIDHash ::= insert n (if b then j <| _queuedNodeJobProcs ::= Z.succ |> else j) |>)) as I'.
  { intros b. apply (inv_core cfg _ _ _ (d <| _nodeIDHash ::= insert n (if b then j <| _queuedNodeJobProcs ::= Z.succ |> else j) |>
      <| _numIdleJobProcs := _numIdleJobProcs d |>)); [done|].
    eapply inv_touch; [exact I|exact Hn|destruct b; touched_tac| |destruct b; simpl; lia].
    destruct b; [|done]. destruct Hl. constructor; simpl; try done; rewrite ?Hq; lia. }
  apply wpd_when; intros _; wpd_steps; (split; [|simpl; rewrite lookup_insert_eq; eauto]).
  - eapply (inv_core cfg); [|apply (I' (sane || bool_decide (_Status j ≠ STATUS_SUBMITTED)))]. done.
  - apply I'.
Qed.

(** ** The end of a job *)

Definition counted (change : Z) (j : Job) (d : Dag) : Dag :=
  d <| _numJobsSubmitted ::= Z.add change |>
    <| _throttles :=
         match _throttleInfo j with
         | Some c => match _throttles d !! c with
                     | Some t => <[c := t <| _currentJobs ::= Z.add change |>]> (_throttles d)
                     | None => _throttles d
                     end
         | None => _throttles d
         end |>.

Lemma UpdateJobCounts_spec n j change d (P : Prop) (Q : unit → Dag → Prop) : _nodeIDHash d !! n = Some j →
  0 ≤ change + _numJobsSubmitted d →
  (∀ c : cstr, _throttleInfo j = Some c → ∃ t, _throttles d !! c = Some t ∧ 0 ≤ change + _currentJobs t) →
  Q tt (counted change j d) → wpd P (UpdateJobCounts n change) d Q.
Proof.
  intros Hn Hc Ht HQ. unfold UpdateJobCounts. wpd_steps. apply wpd_assert; [by apply Z.leb_le|]. wpd_steps.
  destruct (_throttleInfo j) as [c|] eqn:Hcat; [|apply wpd_ret; unfold counted in HQ; by rewrite Hcat in HQ].
  destruct (Ht c eq_refl) as (t & Hct & Hge). simpl. rewrite Hct. wpd_steps. apply wpd_assert; [by apply Z.leb_le|].
  unfold counted in HQ. by rewrite Hcat, Hct in HQ.
Qed.

Lemma counted_cat change j d (c : cstr) : _currentJobs <$> _throttles (counted change j d) !! c =
  (fun t => _currentJobs t + (if bool_decide (_throttleInfo j = Some c) then change else 0)) <$> _throttles d !! c.
Proof.
  unfold counted; simpl. destruct (_throttleInfo j) as [x|] eqn:Hx.
  - destruct (_throttles d !! x) as [t|] eqn:Ht.
    + lookup_case x c; [rewrite bool_decide_eq_true_2, Ht by done|rewrite bool_decide_eq_false_2 by congruence;
        destruct (_throttles d !! c)]; simpl; f_equal; lia.
    + destruct (decide (x = c)) as [->|]; [by rewrite Ht|]. rewrite bool_decide_eq_false_2 by congruence.
      destruct (_throttles d !! c); simpl; f_equal; lia.
  - rewrite bool_decide_eq_false_2 by done. destruct (_throttles d !! c); simpl; f_equal; lia.
Qed.

Lemma placed_counted n j d : _Status j = STATUS_SUBMITTED → _isIdle j = false →
  placed n j d (counted 1 j d) ∧ placed n j (counted (-1) j d) d.
Proof.
  intros Hs Hi. split; constructor; try reflexivity; status_simpl; try done; try lia; try solve [intros [] ? ? ?; simpl in *; eauto].
  - intros c. etrans; [apply (counted_cat 1 j d c)|]. destruct (_throttles d !! c); simpl; [f_equal|done].
  - intros c. pose proof (counted_cat (-1) j d c) as E. revert E. unfold counted; simpl.
    destruct (_throttles d !! c), (_ !! c); simpl; try done. intros [= E]. f_equal. rewrite E. case_bool_decide; simpl; lia.
Qed.

Lemma counted_lookup change j d (c : cstr) t' : _throttles (counted change j d) !! c = Some t' →
  ∃ t, _throttles d !! c = Some t ∧ _maxJobs t' = _maxJobs t ∧
       _currentJobs t' = _currentJobs t + (if bool_decide (_throttleInfo j = Some c) then change else 0).
Proof.
  intros H. pose proof (counted_cat change j d c) as E. rewrite H in E. symmetry in E. apply fmap_Some in E as (t & Ht & E).
  exists t. split_and!; [done| |done]. unfold counted in H; simpl in H. destruct (_throttleInfo j) as [x|]; [|by simplify_eq].
  destruct (_throttles d !! x) as [t0|] eqn:Hx; [|by simplify_eq]. lookup_case x c; by simplify_eq.
Qed.

Lemma frame_counted change j d :
  (0 < change → _maxJobsSubmitted cfg ≠ 0 → change + _numJobsSubmitted d ≤ Z.max 0 (_maxJobsSubmitted cfg)) →
  (0 < change → ∀ (c : cstr) t, _throttleInfo j = Some c → _throttles d !! c = Some t → isSet t = true →
     change + _currentJobs t ≤ Z.max 0 (_maxJobs t)) →
  frame_change cfg d (counted change j d).
Proof.
  intros Hm Ht. constructor; try done; try (intros []; done).
  - unfold counted; simpl. destruct (_throttleInfo j) as [c|]; [|done].
    destruct (_throttles d !! c) eqn:Hc; [|done]. apply dom_insert_lookup_L. eauto.
  - auto.
  - simpl. intros Hne. specialize (Hm). destruct (decide (0 < change)); [auto|lia].
  - intros c t' Ht' Hset Hold. destruct (counted_lookup _ _ _ _ _ Ht') as (t & Hct & Em & Ec).
    assert (isSet t = true) as Hset' by (unfold isSet in *; by rewrite <- Em). specialize (Hold t Hct Hset').
    rewrite Em, Ec. case_bool_decide as Hcat; [|lia]. destruct (decide (0 < change)); [|lia].
    specialize (Ht l c t Hcat Hct Hset'). lia.
Qed.

(** The last proc of the node [n] has left the queue: the node is in hand. *)
Lemma DecrementJobCounts_spec n j X d : inv cfg None X no_wait d → n ∉ X → _nodeIDHash d !! n = Some j →
  _Status j = STATUS_SUBMITTED → _isIdle j = false → _queuedNodeJobProcs j = 1 →
  wpd True (DecrementJobCounts n) d (fun _ d' =>
    _jobs d' = _jobs d ∧ holding False n X no_wait d' d' (j <| _queuedNodeJobProcs ::= Z.pred |>) STATUS_SUBMITTED).
Proof.
  intros I HX Hn Hs Hi Hq. unfold DecrementJobCounts. wpd_steps.
  eapply wpd_getJob; [apply lookup_insert_eq|]. simpl. rewrite Hq. simpl. wpd_steps.
  pose proof (local_hand cfg None X no_wait d n j I Hn) as Hl.
  pose proof (inv_retries _ _ _ _ _ _ I Hn) as Hr.
  set (j' := j <| _queuedNodeJobProcs ::= Z.pred |>).
  assert (1 ≤ cnt (is_st STATUS_SUBMITTED) (_nodeIDHash d)) as Hsub.
  { rewrite (cnt_put _ _ n j Hn). unfold is_st at 2. rewrite Hs. simpl. pose proof (cnt_nonneg (is_st STATUS_SUBMITTED) (delete n (_nodeIDHash d))). lia. }
  pose proof I as (F & C & _). eapply (UpdateJobCounts_spec n j'); [apply lookup_insert_eq| | |].
  - simpl. rewrite (c_numSubmitted _ _ _ C). simpl. lia.
  - intros c Hc. simpl in Hc. destruct (s_cat _ _ _ (f_static cfg _ d F n j Hn) c Hc) as [t Ht]. exists t. split; [done|].
    rewrite (c_cat _ _ _ C c t Ht). simpl. rewrite (cnt_put _ _ n j Hn). unfold in_cat at 2, is_st.
    rewrite Hs, bool_decide_eq_true_2 by done. simpl. rewrite bool_decide_eq_true_2 by done. simpl.
    pose proof (cnt_nonneg (in_cat c) (delete n (_nodeIDHash d))). lia.
  - split; [done|]. assert (hand_ok STATUS_SUBMITTED j') as Hh.
    { unfold hand_ok; simpl. rewrite Hq. split_and!; [done| |done|done|]. { apply (l_waiting _ Hl); congruence. }
      rewrite (l_done _ Hl). unfold is_st. by rewrite Hs. }
    constructor; [|apply evolves_refl|apply lookup_insert_eq|done|done].
    assert (inv cfg (Some n) X no_wait (counted (-1) j d)) as I1.
    { apply (inv_take cfg n j X no_wait _ d); [done|done|done|by apply placed_counted|].
      apply frame_counted; lia. }
    eapply (inv_hand cfg n X no_wait (counted (-1) j d) j j') in I1; [exact I1|done| |done|by left].
    by constructor.
Qed.

(** A handler is done: the invariant holds, and the nodes are the same. *)
Definition finished X d d' : Prop := inv cfg None X no_wait d' ∧ _jobs d' = _jobs d.

Lemma settled_finished A n X d d' : settled A n X no_wait d d' → finished X d d'.
Proof. intros [I V]. split; [done|apply V]. Qed.
Lemma finished_trans X d1 d2 d3 : _jobs d2 = _jobs d1 → finished X d2 d3 → finished X d1 d3.
Proof. intros E [I E']. split; [done|congruence]. Qed.
Lemma finished_node X W d d' h n j : inv cfg h X W d → _nodeIDHash d !! n = Some j → finished X d d' →
  ∃ j', _nodeIDHash d' !! n = Some j'.
Proof.
  intros (F & _ & _) Hn [I E]. apply (job_exists cfg None X no_wait d' n I). rewrite E.
  apply (wf_jobs _ (f_graph cfg W d F)), elem_of_dom. eauto.
Qed.

Lemma check_abort_spec n j X d : inv cfg None X no_wait d → _nodeIDHash d !! n = Some j →
  wpd True (CheckForDagAbort StartNode n;; mret tt) d (fun _ => finished X d).
Proof.
  intros I Hn. apply wpd_bind.
  eapply wpd_mono; [eapply (CheckForDagAbort_spec cfg StartNode (pending_cost d) (StartNode_starts cfg w Hw _) False n n X no_wait d)|].
  - exact Hn.
  - done.
  - split; [done|apply evolves_refl].
  - done.
  - intros b d' Hd'. apply wpd_ret. exact (settled_finished _ _ _ _ _ Hd').
Qed.

Lemma restart_spec n j X d : holding False n X no_wait d d j STATUS_ERROR → retries j < retry_max j →
  wpd True (RestartNode StartNode n false) d (fun _ => finished X d).
Proof.
  intros H Hr. eapply wpd_mono; [by apply (RestartNode_spec cfg StartNode (measure n d) (StartNode_starts cfg w Hw _) False n X no_wait d d j)|].
  intros [] d' Hd'. exact (settled_finished _ _ _ _ _ Hd').
Qed.

Lemma post_spec n j X d s b : holding False n X no_wait d d j s → s ≠ STATUS_DONE → is_Some (_scriptPost j) →
  wpd True (RunPostScript cfg w StartNode n b 0 true;; mret tt) d (fun _ => finished X d).
Proof.
  intros H Hs Hp. apply wpd_bind.
  eapply wpd_mono; [eapply (RunPostScript_spec cfg w Hw StartNode (measure n d)); [exact H|done|done|by right|done|done]|].
  intros r d' Hd'. apply wpd_ret. exact (settled_finished _ _ _ _ _ Hd').
Qed.

Lemma ProcessJobProcEnd_spec n j X d (failed : bool) s : holding False n X no_wait d d j s → unstarted X = ∅ →
  s = (if failed then STATUS_ERROR else STATUS_SUBMITTED) →
  wpd True (ProcessJobProcEnd cfg w n false failed) d (fun _ => finished X d).
Proof.
  intros H HX ->. pose proof (hd_node _ _ _ _ _ _ _ _ _ H) as Hn.
  pose proof (hd_hand _ _ _ _ _ _ _ _ _ H) as (Hs & Hwt & Hq & Hid & Hc).
  unfold ProcessJobProcEnd. wpd_steps. rewrite Hq. simpl. destruct (decide (_scriptPost j = None)) as [Hnp|Hp].
  - rewrite (bool_decide_eq_true_2 _ Hnp), (bool_decide_eq_false_2 (is_Some _)) by (rewrite Hnp; apply is_Some_None).
    destruct failed; simpl.
    + destruct (Z.ltb_spec (retries j) (retry_max j)); [by eapply restart_spec|].
      unfold node_failed. wpd_steps. eapply settled_finished; eapply settle_error; [exact H|done].
    + rewrite Hs. simpl. by eapply TerminateJob_spec.
  - rewrite (bool_decide_eq_false_2 _ Hp), andb_false_r. rewrite bool_decide_eq_true_2 by (by apply not_eq_None_Some).
    simpl. eapply post_spec; [exact H|by destruct failed|by apply not_eq_None_Some].
Qed.

Lemma Release_hand proc j s : 0 ≤ retries j ≤ retry_max j → hand_ok s j →
  let j' := (Release proc j).2 in hand_change j j' ∧ hand_ok s j' ∧ _scriptPost j' = _scriptPost j.
Proof.
  intros Hr Hh. unfold Release. destruct (_ <=? _); simpl; [split; [hand_change_tac|done]|].
  destruct (default _ _); simpl; (split; [hand_change_tac|done]).
Qed.

Lemma set_retval_spec A n X d0 d j s v : holding A n X no_wait d0 d j s →
  wpd True (set_retval n v) d (fun _ d' => ∃ j', holding A n X no_wait d0 d' j' s).
Proof.
  intros H. pose proof (hd_hand _ _ _ _ _ _ _ _ _ H) as (Hs & Hwt & Hq & Hid & Hc).
  pose proof (holding_retries cfg _ _ _ _ _ _ _ _ H) as Hr. unfold set_retval, modScript. apply wpd_bind.
  eapply (wpd_hand cfg A n X no_wait d0 d j _ _ s); [done|hand_change_tac|done|]. intros d1 H1 _.
  eapply (wpd_hand cfg A n X no_wait d0 d1 _ _ _ s); [exact H1|hand_change_tac|done|]. intros d2 H2 _. eauto.
Qed.

Lemma fail_spec A n X d0 d j s : holding A n X no_wait d0 d j s → s ≠ STATUS_DONE →
  wpd True (modJob n TerminateFailure) d (fun _ d' => ∃ j', holding A n X no_wait d0 d' j' STATUS_ERROR ∧
    retries j' = retries j ∧ retry_max j' = retry_max j).
Proof.
  intros H Hsd. pose proof (hd_hand _ _ _ _ _ _ _ _ _ H) as (Hs & Hwt & Hq & Hid & Hc).
  pose proof (holding_retries cfg _ _ _ _ _ _ _ _ H) as Hr.
  eapply (wpd_hand cfg A n X no_wait d0 d j _ _ STATUS_ERROR); [done|hand_change_tac|done|]. eauto.
Qed.

(** The events of a submitted node: it is no longer idle, and its last proc ends. *)
Definition queued n d : Prop := ∃ j, _nodeIDHash d !! n = Some j ∧ _Status j = STATUS_SUBMITTED ∧ _queuedNodeJobProcs j = 1.

Lemma last_proc_spec n X d (k : D unit) Q : inv cfg None X no_wait d → n ∉ X → queued n d →
  (∀ j d', _jobs d' = _jobs d → holding False n X no_wait d' d' j STATUS_SUBMITTED → wpd True k d' Q) →
  wpd True (ProcessNotIdleEvent n;; DecrementJobCounts n;; k) d Q.
Proof.
  intros I HX (j & Hn & Hs & Hq) Hk. apply wpd_bind. eapply wpd_mono; [by eapply ProcessNotIdleEvent_spec|].
  intros [] d1 (I1 & E1 & j0 & j1 & Hj0 & Hj1 & Hs1 & Hq1 & Hi1). simplify_eq. apply wpd_bind.
  eapply wpd_mono; [eapply DecrementJobCounts_spec; [exact I1|done|exact Hj1|congruence|auto|congruence]|].
  intros [] d2 [E2 H2]. eapply Hk; [congruence|exact H2].
Qed.

Lemma ProcessAbortEvent_spec n X d proc : inv cfg None X no_wait d → n ∉ X → unstarted X = ∅ → queued n d → 0 ≤ proc →
  wpd True (ProcessNotIdleEvent n;; ProcessAbortEvent cfg w n proc false) d (fun _ => finished X d).
Proof.
  intros I HX HX0 Hq Hp. unfold ProcessAbortEvent. apply (last_proc_spec n X); [done..|]. intros j d1 E1 H1.
  pose proof (hd_node _ _ _ _ _ _ _ _ _ H1) as Hn1. wpd_steps.
  apply wpd_assert; [apply orb_true_iff; right; by apply Z.leb_le|]. wpd_steps.
  assert (∀ d2 j2, holding False n X no_wait d1 d2 j2 STATUS_SUBMITTED →
    wpd True (j ← getJob n; when (bool_decide (_Status j ≠ STATUS_ERROR))
                (modJob n TerminateFailure;; set_retval n DAG_ERROR_CONDOR_JOB_ABORTED);;
              ProcessJobProcEnd cfg w n false true) d2 (fun _ => finished X d)) as Hend.
  { intros d2 j2 H2. pose proof (hd_node _ _ _ _ _ _ _ _ _ H2) as Hn2. wpd_steps.
    destruct (hd_hand _ _ _ _ _ _ _ _ _ H2) as (Hs2 & _). rewrite Hs2. simpl. apply wpd_bind.
    eapply wpd_mono; [by eapply fail_spec|]. intros [] d3 (j3 & H3 & _).
    eapply wpd_mono; [by eapply set_retval_spec|]. intros [] d4 [j4 H4].
    eapply wpd_mono; [eapply ProcessJobProcEnd_spec; [eapply holding_rebase; exact H4|done|done]|].
    intros [] d5 Hd5. eapply finished_trans; [|exact Hd5]. rewrite (e_jobs _ _ _ _ (hd_evolves _ _ _ _ _ _ _ _ _ H4)). done. }
  destruct (Release_hand proc j STATUS_SUBMITTED) as (Hc & Hh & _); [by eapply holding_retries|apply H1|].
  destruct (Release proc j) as [ok j']. simpl in *. apply wpd_when; intros _.
  - apply wpd_bind, (wpd_modJob _ _ _ j); [done|]. apply wpd_modDag. eapply Hend. eapply (holding_core cfg); [|eapply (holding_upd cfg); [exact H1|exact Hc|exact Hh]]. done.
  - by eapply Hend.
Qed.

Lemma ProcessTerminatedEvent_spec n X d normal rv sig : inv cfg None X no_wait d → n ∉ X → unstarted X = ∅ → queued n d →
  wpd True (ProcessNotIdleEvent n;; ProcessTerminatedEvent cfg w n normal rv sig false) d (fun _ => finished X d).
Proof.
  intros I HX HX0 Hq. unfold ProcessTerminatedEvent. apply (last_proc_spec n X); [done..|]. intros j d1 E1 H1.
  pose proof (hd_node _ _ _ _ _ _ _ _ _ H1) as Hn1. wpd_steps.
  destruct (hd_hand _ _ _ _ _ _ _ _ _ H1) as (Hs1 & _). rewrite Hs1. simpl. wpd_steps.
  eapply wpd_mono; [by eapply set_retval_spec|]. intros [] d2 [j2 H2].
  assert (wpd True (when (negb (normal && (rv =? 0))) (modJob n TerminateFailure)) d2 (fun _ d' => ∃ j',
            holding False n X no_wait d1 d' j' (if negb (normal && (rv =? 0)) then STATUS_ERROR else STATUS_SUBMITTED))) as Hfail.
  { apply wpd_when; intros ->; [|eauto]. eapply wpd_mono; [by eapply fail_spec|]. intros [] d' (j' & H' & _). eauto. }
  eapply wpd_mono; [exact Hfail|]. intros [] d3 [j3 H3].
  pose proof (e_jobs _ _ _ _ (hd_evolves _ _ _ _ _ _ _ _ _ H3)) as E3. wpd_steps.
  eapply wpd_mono; [eapply ProcessJobProcEnd_spec; [eapply holding_rebase; exact H3|done|done]|]. intros [] d4 Hd4.
  apply wpd_when; intros _; [|eapply finished_trans; [|exact Hd4]; congruence].
  destruct (finished_node X no_wait d3 d4 (Some n) n j3) as [j4 Hj4]; [apply H3|apply H3|done|].
  eapply wpd_mono; [eapply check_abort_spec; [apply Hd4|done]|]. intros [] d5 Hd5.
  eapply finished_trans; [|exact Hd5]. destruct Hd4 as [_ E4]. congruence.
Qed.

(** ** The events that DAGMan wrote to the log *)

Lemma take_logged n e l X d : inv cfg None X no_wait d → userlog d = (n, e) :: l → n ∉ X →
  let post := bool_decide (e ≠ PreSkipEvent) in
  ∃ j, _nodeIDHash d !! n = Some j ∧ is_Some (script_of post j) ∧
    holding False n X no_wait d (count_run post Z.pred d <| userlog := l |>) j (run_status post).
Proof.
  intros I Hl HX post. pose proof I as (F & C & _).
  assert (∃ j, _nodeIDHash d !! n = Some j ∧ _Status j = run_status post) as (j & Hn & Hs).
  { unfold post. case_bool_decide as He.
    - apply (c_post _ _ _ C n). unfold post_place, posted. rewrite Hl, filter_cons_True by done. set_solver.
    - apply (c_pre _ _ _ C n). unfold pre_place, skipped. rewrite Hl, filter_cons_True by done. set_solver. }
  pose proof (local_hand cfg None X no_wait d n j I Hn) as Hloc.
  assert (hand_ok (run_status post) j) as Hh by (apply hand_of_local; by destruct post).
  exists j. split; [done|]. split.
  { destruct post; [by apply (l_post _ Hloc)|by apply (l_pre _ Hloc)]. }
  constructor; [|by destruct post; apply evolves_nodes|by destruct post|done|done].
  apply (inv_take cfg n j X no_wait _ d); [done|done|done| |].
  - destruct Hh as (_ & _ & _ & Hi & _). unfold post in *. case_bool_decide as He; simpl in *.
    + placed_tac.
      * unfold pre_place, skipped; simpl. by rewrite Hl, filter_cons_False by done.
      * unfold post_place, posted; simpl. rewrite Hl, filter_cons_True by done. simpl.
        by rewrite !app_assoc, <- Permutation_middle.
    + subst e. placed_tac.
      * unfold pre_place, skipped; simpl. rewrite Hl, filter_cons_True by done. simpl. by rewrite !app_assoc, <- Permutation_middle.
      * unfold post_place, posted; simpl. rewrite Hl, filter_cons_False by (intros Hx; by apply Hx). done.
  - destruct post; frame_tac; simpl in *; left; rewrite Hl; by right.
Qed.

Lemma ProcessPostTermEvent_spec n X d l normal rv sig : inv cfg None X no_wait d → n ∉ X → unstarted X = ∅ →
  userlog d = (n, PostScriptTerminatedEvent normal rv sig) :: l →
  wpd True (ProcessPostTermEvent cfg w n normal rv sig false) (d <| userlog := l |>) (fun _ => finished X d).
Proof.
  intros I HX HX0 Hl. destruct (take_logged n _ l X d I Hl HX) as (j & Hn & Hp & H). rewrite bool_decide_eq_true_2 in H, Hp by done.
  simpl in H, Hp. pose proof (hd_hand _ _ _ _ _ _ _ _ _ H) as (Hs & Hwt & Hq & Hid & Hc).
  pose proof (holding_retries cfg _ _ _ _ _ _ _ _ H) as Hr.
  unfold ProcessPostTermEvent. apply wpd_bind, (wpd_getJob _ _ j); [done|]. rewrite Hs. simpl. wpd_steps.
  set (d1 := d <| userlog := l |> <| _postRunNodeCount ::= Z.pred |>).
  assert (holding False n X no_wait d1 d1 j STATUS_POSTRUN) as H1 by (eapply holding_rebase; exact H).
  eapply (wpd_mono _ _ _ (fun _ => finished X d1)).
  - destruct (negb _).
    + apply wpd_bind. eapply (wpd_hand cfg False n X no_wait d1 d1 j _ _ STATUS_ERROR); [done|hand_change_tac|done|]. intros d2 H2 _.
      apply wpd_bind. eapply (wpd_hand cfg False n X no_wait d1 d2 _ _ _ STATUS_ERROR); [exact H2|hand_change_tac|done|]. intros d3 H3 _.
      pose proof (e_jobs _ _ _ _ (hd_evolves _ _ _ _ _ _ _ _ _ H3)) as E3.
      destruct (Z.ltb_spec (retries j) (retry_max j)).
      * eapply wpd_mono; [eapply restart_spec; [eapply holding_rebase; exact H3|done]|]. intros [] d4 Hd4. by eapply finished_trans.
      * unfold node_failed. wpd_steps. eapply settled_finished. eapply settle_error; [exact H3|done].
    + apply wpd_bind. eapply (wpd_hand cfg False n X no_wait d1 d1 j _ _ STATUS_POSTRUN); [done|hand_change_tac|done|]. intros d2 H2 _.
      pose proof (e_jobs _ _ _ _ (hd_evolves _ _ _ _ _ _ _ _ _ H2)) as E2.
      eapply wpd_mono; [eapply TerminateJob_spec; [exact H2|done|done]|]. intros [] d3 Hd3. by eapply finished_trans.
  - intros [] d2 Hd2. destruct (finished_node X no_wait d1 d2 (Some n) n j) as [j2 Hj2]; [apply H1|apply H1|done|].
    eapply wpd_mono; [eapply check_abort_spec; [apply Hd2|done]|]. intros [] d3 Hd3.
    eapply finished_trans; [|exact Hd3]. by destruct Hd2 as [_ ->].
Qed.

(** A skipped node is terminated before it leaves the count of PRE scripts. *)
Lemma inv_uncounted h X W d : inv cfg h X W d → ∀ k, inv cfg h (mkPending (unstarted X) (uncounted X + k)) W
  (d <| _preRunNodeCount ::= fun c => c + k |>).
Proof.
  intros (F & C & I) k. split_and!; [apply (frame_changed cfg W d); [frame_tac|done]| |done].
  destruct C. constructor; try done. simpl in *. rewrite c_numPre. unfold live in *. destruct h; simpl; lia.
Qed.

Lemma PreSkipEvent_spec n X d l : inv cfg None X no_wait d → n ∉ X → unstarted X = ∅ → userlog d = (n, PreSkipEvent) :: l →
  wpd True (ProcessOneEvent cfg w false n PreSkipEvent) (d <| userlog := l |>) (fun _ => finished X d).
Proof.
  intros I HX HX0 Hl. destruct (take_logged n _ l X d I Hl HX) as (j & Hn & Hp & H). rewrite bool_decide_eq_false_2 in H, Hp by (intros Hx; by apply Hx).
  simpl in H, Hp. simpl. apply wpd_bind.
  set (X1 := mkPending (unstarted X) (uncounted X + 1)).
  assert (holding False n X1 no_wait (d <| userlog := l |>) (d <| userlog := l |>) j STATUS_PRERUN) as H1.
  { destruct H as [I1 V1 N1 Hh HX1]. constructor; [|apply evolves_refl|done|done|done].
    eapply (inv_core cfg); [|apply (inv_uncounted _ _ _ _ I1 1)]. unfold core_of; simpl. repeat f_equal. lia. }
  eapply wpd_mono; [eapply TerminateJob_spec; [exact H1|done|done]|]. intros [] d2 [I2 E2]. wpd_steps. split; [|done].
  pose proof (inv_uncounted _ _ _ _ I2 (-1)) as I3. simpl in I3. replace (uncounted X + 1 + -1) with (uncounted X) in I3 by lia.
  destruct X; exact I3.
Qed.
End Run.
