(* ===== verification/DagMain.v ===== *)
(** * DagMain

    The loops of DAGMan, the waiting scripts, the submission of the ready nodes,
    the end of the timer and the start, and the theorems about every state that
    DAGMan reaches. *)
From stdpp Require Import base gmap list sorting relations sets.
From Stdlib Require Import ZArith Lia.
From S2P Require Import Prelude PriorityList Dag DagCycle DagInv DagSafe DagStart DagRun.
Open Scope Z_scope.
Open Scope condor_scope.

Lemma wpd_and (P : Prop) {A} (m : D A) d (Q R : A → Dag → Prop) :
  wpd P m d Q → (∀ a d', m d = Done a d' → R a d') → wpd P m d (fun a d' => Q a d' ∧ R a d').
Proof. unfold wpd. destruct (m d); auto. Qed.

(** The nodes set aside. *)
Definition deferring (X : pending) (n : JobID_t) : pending := mkPending ({[n]} ∪ unstarted X) (uncounted X).
Definition starting (X : pending) (n : JobID_t) : pending := mkPending (unstarted X ∖ {[n]}) (uncounted X).

Lemma elem_of_deferring (n m : JobID_t) (X : pending) : m ∈ deferring X n ↔ m = n ∨ m ∈ X.
Proof. unfold deferring, elem_of, pending_elem_of. simpl. set_solver. Qed.
Lemma elem_of_starting (n m : JobID_t) (X : pending) : m ∈ starting X n ↔ m ∈ X ∧ m ≠ n.
Proof. unfold starting, elem_of, pending_elem_of. simpl. set_solver. Qed.

Section Aside.
Variable cfg : DagConfig.
Implicit Types (A : Prop) (n c p : JobID_t) (X : pending) (d : Dag) (j : Job).
Abbreviation holding := (holding cfg).

(** A ready node is set aside, or taken up again: it is in no place. *)
Lemma core_aside n j (m : gmap JobID_t Job) X X' d : m !! n = Some j → hand_ok STATUS_READY j → n ∉ X → n ∈ X' →
  (∀ x, x ≠ n → x ∈ X' ↔ x ∈ X) → uncounted X' = uncounted X → core_ok (delete n m) X d ↔ core_ok m X' d.
Proof.
  intros Hn Hh HX HX' Hx Hu. pose proof (hand_local STATUS_READY j Hh) as Hl. destruct Hh as (Hs & Hwt & Hq & Hi & Hc).
  assert (∀ p : Job → bool, p j = false → cnt p (delete n m) = cnt p m) as Hcnt.
  { intros p E. rewrite (cnt_put p m n j Hn), E. simpl. lia. }
  assert (∀ (P Q : JobID_t → Job → Prop) x, ¬Q n j → (x ≠ n → ∀ j, P x j ↔ Q x j) →
            (∃ jx, delete n m !! x = Some jx ∧ P x jx) ↔ (∃ jx, m !! x = Some jx ∧ Q x jx)) as Hplace.
  { intros P Q x HQ HPQ. destruct (decide (x = n)) as [->|Hne]; [rewrite lookup_delete_eq; naive_solver|].
    rewrite lookup_delete_ne by done. naive_solver. }
  assert (∀ x, (∃ j, delete n m !! x = Some j ∧ _Status j = STATUS_READY ∧ Q_WAITING j = ∅ ∧ x ∉ X) ↔
               (∃ j, m !! x = Some j ∧ _Status j = STATUS_READY ∧ Q_WAITING j = ∅ ∧ x ∉ X')) as Hready.
  { intros x. apply (Hplace (fun x j => _Status j = STATUS_READY ∧ Q_WAITING j = ∅ ∧ x ∉ X)
      (fun x j => _Status j = STATUS_READY ∧ Q_WAITING j = ∅ ∧ x ∉ X')); [tauto|]. intros Hne j0. by rewrite Hx. }
  assert (∀ s x, s ≠ STATUS_READY → (∃ j, delete n m !! x = Some j ∧ _Status j = s) ↔ (∃ j, m !! x = Some j ∧ _Status j = s)) as Hst.
  { intros s x Hne. apply (Hplace (fun _ j => _Status j = s) (fun _ j => _Status j = s)); [congruence|done]. }
  assert (∀ s, s ≠ STATUS_READY → cnt (is_st s) (delete n m) = cnt (is_st s) m) as Hcs.
  { intros s Hne. apply Hcnt. unfold is_st. rewrite Hs. by apply bool_decide_eq_false_2. }
  assert (∀ c : cstr, cnt (in_cat c) (delete n m) = cnt (in_cat c) m) as Hcc by (intros c; apply Hcnt; unfold in_cat, is_st; by rewrite Hs).
  split; intros []; constructor; try done;
    try (intros x; by first [rewrite <- Hready | rewrite Hready | rewrite <- Hst | rewrite Hst]);
    try (by rewrite ?Hu; first [rewrite <- Hcs | rewrite Hcs | rewrite <- (Hcnt _ Hi) | rewrite (Hcnt _ Hi)]).
  - intros x jx Hjx. destruct (decide (x = n)) as [->|]; [simplify_eq; by apply Hl|]. apply (c_local x). by rewrite lookup_delete_ne.
  - intros post pid x Hpid. destruct (c_pid post pid x Hpid) as (jx & Hjx & ?). apply lookup_delete_Some in Hjx as [_ ?]. eauto.
  - intros c t Ht. rewrite <- Hcc. eauto.
  - intros x jx Hjx. apply lookup_delete_Some in Hjx as [_ ?]. eauto.
  - intros post pid x Hpid. destruct (c_pid post pid x Hpid) as (jx & Hjx & ?). exists jx. split; [|done].
    rewrite lookup_delete_ne; [done|]. intros <-.
    assert (n ∈ running (scriptQ post d)) as Hr.
    { unfold running. apply list_elem_of_fmap. exists (pid, n). split; [done|]. by apply elem_of_map_to_list. }
    destruct post.
    + destruct (proj1 (c_post n)) as (? & ? & ?); [unfold post_place; simpl in Hr; set_solver|congruence].
    + destruct (proj1 (c_pre n)) as (? & ? & ?); [unfold pre_place; simpl in Hr; set_solver|congruence].
  - rewrite Hcs, <- Hu; done.
  - intros c t Ht. rewrite Hcc. eauto.
Qed.

Lemma inv_defer n j X d : inv cfg (Some n) X no_wait d → n ∉ X → _nodeIDHash d !! n = Some j → hand_ok STATUS_READY j →
  inv cfg None (deferring X n) no_wait d.
Proof.
  intros (F & C & I) HX Hn Hh. split_and!; [done| |].
  - apply (core_aside n j (_nodeIDHash d) X); [done|done|done|by apply elem_of_deferring; left| |done|done].
    intros x Hne. rewrite elem_of_deferring. tauto.
  - intros x Hx. apply elem_of_deferring in Hx as [->|Hx]; [destruct Hh as (? & ? & _); eauto|].
    destruct (I x Hx) as (jx & Hjx & ?). simpl in Hjx. apply lookup_delete_Some in Hjx as [_ ?]. eauto.
Qed.

Lemma inv_undefer A n X d : inv cfg None X no_wait d → n ∈ X → ∃ j, holding A n (starting X n) no_wait d d j STATUS_READY.
Proof.
  intros (F & C & I) HX. destruct (I n HX) as (j & Hn & Hs & Hwt). simpl in *.
  assert (hand_ok STATUS_READY j) as Hh by (apply hand_of_local; [by apply (c_local _ _ _ C n)|done..]).
  assert (n ∉ starting X n) as HX' by (rewrite elem_of_starting; tauto).
  exists j. constructor; [|apply evolves_refl|done|done|done]. split_and!; [done| |].
  - apply (core_aside n j (_nodeIDHash d) (starting X n) X); [done|done|done|done| |done|done].
    intros x Hne. rewrite elem_of_starting. tauto.
  - intros x Hx. apply elem_of_starting in Hx as [Hx Hne]. destruct (I x Hx) as (jx & Hjx & ?). exists jx.
    simpl in *. by rewrite lookup_delete_ne.
Qed.

End Aside.

Section Main.
Variable cfg : DagConfig.
Variable w : World.
Hypothesis Hw : good_world w.
Implicit Types (A : Prop) (n c p : JobID_t) (X : pending) (W : JobID_t → JobID_t → Prop) (d : Dag) (j : Job).
Abbreviation holding := (holding cfg).
Abbreviation settled := (settled cfg).
Abbreviation finished := (finished cfg).
Abbreviation StartNode := (StartNode cfg w).

(** ** Scripts *)

(** A node whose script waits or runs. *)
Lemma script_node post n X d : inv cfg None X no_wait d →
  n ∈ _waitingQueue (scriptQ post d) ∨ n ∈ running (scriptQ post d) →
  ∃ j, _nodeIDHash d !! n = Some j ∧ hand_ok (run_status post) j ∧ is_Some (script_of post j).
Proof.
  intros I Hin. pose proof I as (_ & C & _).
  assert (∃ j, _nodeIDHash d !! n = Some j ∧ _Status j = run_status post) as (j & Hn & Hs).
  { destruct post; [apply (c_post _ _ _ C n); unfold post_place|apply (c_pre _ _ _ C n); unfold pre_place]; simpl in Hin; set_solver. }
  pose proof (local_hand cfg None X no_wait d n j I Hn) as Hl. exists j. split; [done|].
  split; [apply hand_of_local; by destruct post|]. destruct post; [by apply (l_post _ Hl)|by apply (l_pre _ Hl)].
Qed.

Lemma take_script post n j X d f : inv cfg None X no_wait d → n ∉ X → _nodeIDHash d !! n = Some j → hand_ok (run_status post) j →
  let q := scriptQ post d in
  n :: _waitingQueue (f q) ++ running (f q) ≡ₚ _waitingQueue q ++ running q →
  (∀ pid m, _scriptPidTable (f q) !! pid = Some m → _scriptPidTable q !! pid = Some m) →
  (∀ pid m, _scriptPidTable q !! pid = Some m → _scriptPidTable (f q) !! pid = Some m ∨ (m = n ∧ _pid <$> script_of post j = Some pid)) →
  (_numScriptsRunning q = Z.of_nat (size (_scriptPidTable q)) → _numScriptsRunning (f q) = Z.of_nat (size (_scriptPidTable (f q)))) →
  _numScriptsRunning (f q) ≤ _numScriptsRunning q →
  holding False n X no_wait (upd_queue post f d) (count_run post Z.pred (upd_queue post f d)) j (run_status post).
Proof.
  intros I HX Hn Hh q Hq Hp1 Hp2 Hr Hle.
  constructor; [|by destruct post; apply evolves_nodes|by destruct post|done|done].
  apply (inv_take cfg n j X no_wait _ d); [done|by destruct post|done| |].
  - destruct Hh as (Hs & _ & _ & Hi & _). destruct post; simpl in *; subst q.
    + placed_tac.
      unfold post_place; simpl. rewrite !app_assoc, <- Hq. done.
    + placed_tac.
      unfold pre_place; simpl. rewrite !app_assoc, <- Hq. done.
  - destruct post; subst q; simpl in *; constructor; simpl; intros; try done; eauto.
    + destruct post; simpl in *; auto.
    + destruct post; simpl in *; lia.
    + destruct post; simpl in *; auto.
    + destruct post; simpl in *; lia.
Qed.

(** A script was started, or nothing is known of the queue. *)
Lemma Run_result S' post n d r d' : Run cfg w S' post n d = Done r d' →
  0 < r → _waitingQueue (scriptQ post d') = _waitingQueue (scriptQ post d).
Proof.
  unfold Run, Run_, getJob, modScriptQ, modScript, modJob, modDag, getDag, getJob, mbind, D_bind, mret, D_ret; simpl. intros H Hr.
  destruct (_nodeIDHash d !! n) as [j|] eqn:Hn; [|done].
  destruct (_ || _); [injection H as <- <-; lia|].
  destruct (BackgroundRun w d n post) as [|pid].
  - simpl in H. case_match; [injection H as <- <-; lia|done..].
  - rewrite Hn in H. destruct (negb (pid =? 0)).
    + injection H as <- <-. by destruct post.
    + case_match; [injection H as <- <-; lia|done..].
Qed.

Lemma RunWaitingScript_spec post X d : inv cfg None X no_wait d → unstarted X = ∅ →
  wpd True (RunWaitingScript cfg w post) d (fun r d' => finished X d d' ∧
    (0 < r → length (_waitingQueue (scriptQ post d)) = S (length (_waitingQueue (scriptQ post d')))%nat)).
Proof.
  intros I HX. unfold RunWaitingScript. wpd_steps. destruct (_waitingQueue (scriptQ post d)) as [|n l] eqn:Hq.
  { wpd_steps. split; [done|lia]. }
  destruct (script_node post n X d) as (j & Hn & Hh & Hs); [done|rewrite Hq; left; left|].
  assert (n ∉ X) as HnX by (unfold elem_of, pending_elem_of; set_solver).
  set (f := fun q => q <| _waitingQueue := l |>).
  assert (holding False n X no_wait (upd_queue post f d) (count_run post Z.pred (upd_queue post f d)) j (run_status post)) as H.
  { apply (take_script post n j X d f); [done|done|done|done|simpl; by rewrite Hq|done|simpl; auto|done|done]. }
  apply wpd_bind, wpd_scriptQ. fold f. set (d1 := upd_queue post f d) in *.
  eapply wpd_mono; [eapply (wpd_and _ _ _ _ (fun r d' => 0 < r → _waitingQueue (scriptQ post d') = _waitingQueue (scriptQ post d1)))|].
  - eapply (Run_reaps cfg w Hw StartNode (measure n d1) (StartNode_starts cfg w Hw _)); [exact H|done|done|done].
  - intros r d' Hr Hr0. exact (Run_result _ _ _ _ _ _ Hr Hr0).
  - intros r d' [Hd' Hr]. split.
    + eapply finished_trans; [|exact (settled_finished _ _ _ _ _ _ Hd')]. by destruct post.
    + intros Hr0. rewrite Hr by done. by destruct post.
Qed.

Lemma RunAllWaitingScripts_spec post X d : inv cfg None X no_wait d → unstarted X = ∅ →
  wpd True (RunAllWaitingScripts cfg w post) d (fun _ => finished X d).
Proof.
  intros I HX. unfold RunAllWaitingScripts. wpd_steps.
  assert (∀ fuel d1, (length (_waitingQueue (scriptQ post d1)) < fuel)%nat → finished X d d1 →
            wpd True (run_all_loop cfg w fuel post) d1 (fun _ => finished X d)) as Hloop; [|by apply Hloop; [lia|]].
  intros fuel. induction fuel as [|fuel IH]; intros d1 Hf [I1 E1]; [lia|]. simpl. apply wpd_bind.
  eapply wpd_mono; [by apply (RunWaitingScript_spec post X)|]. intros r d2 [Hd2 Hr].
  apply wpd_when; intros Hlt; [|by eapply finished_trans]. apply Z.ltb_lt in Hlt. specialize (Hr Hlt).
  apply IH; [lia|]. by eapply finished_trans.
Qed.

Lemma ScriptReaper_spec post pid status n X d : inv cfg None X no_wait d → unstarted X = ∅ →
  _scriptPidTable (scriptQ post d) !! pid = Some n →
  wpd True (ScriptReaper cfg w post pid status) d (fun _ => finished X d).
Proof.
  intros I HX Hpid. pose proof I as (F & C & _). unfold ScriptReaper. wpd_steps. rewrite Hpid.
  assert (n ∈ running (scriptQ post d)) as Hrun.
  { unfold running. apply list_elem_of_fmap. exists (pid, n). split; [done|]. by apply elem_of_map_to_list. }
  destruct (script_node post n X d) as (j & Hn & Hh & Hs); [done|by right|].
  assert (n ∉ X) as HnX by (unfold elem_of, pending_elem_of; set_solver).
  assert (_pid <$> script_of post j = Some pid) as Hsp.
  { destruct (c_pid _ _ _ C post pid n Hpid) as (j' & Hj' & E). simpl in Hj'. congruence. }
  set (f := fun q => q <| _scriptPidTable ::= delete pid |> <| _numScriptsRunning ::= Z.pred |>).
  assert (holding False n X no_wait (upd_queue post f d) (count_run post Z.pred (upd_queue post f d)) j (run_status post)) as H.
  { apply (take_script post n j X d f); [done..| | | | |]; simpl.
    - unfold running; simpl. rewrite Permutation_middle. f_equiv. rewrite <- (insert_delete_id _ pid n Hpid) at 2.
      rewrite map_to_list_insert by apply lookup_delete_eq. done.
    - intros pid' m Hm. by apply lookup_delete_Some in Hm as [_ ?].
    - intros pid' m Hm. destruct (decide (pid' = pid)) as [->|]; [right; split; congruence|left; by rewrite lookup_delete_ne].
    - intros E. rewrite map_size_delete_Some by eauto. rewrite E.
      assert (size (_scriptPidTable (scriptQ post d)) ≠ 0%nat) by (apply map_size_non_empty_iff; intros E0; by rewrite E0 in Hpid). lia.
    - lia. }
  wpd_step. apply wpd_scriptQ. fold f. set (d1 := upd_queue post f d) in *.
  pose proof (hd_node _ _ _ _ _ _ _ _ _ H) as Hn1. rewrite count_run_nodes in Hn1. wpd_steps.
  apply wpd_assert; [apply bool_decide_eq_true; by destruct post|].
  destruct (script_hand post j (fun s => s <| _done := true |>) _ (holding_retries cfg _ _ _ _ _ _ _ _ H) Hh) as (Hch & Hh' & Hsc).
  pose proof (holding_upd cfg _ _ _ _ _ _ _ _ _ _ H Hch Hh') as H'. rewrite <- count_run_upd in H'.
  unfold modScript. wpd_steps.
  set (j' := if post then j <| _scriptPost ::= fmap (fun s => s <| _done := true |>) |>
             else j <| _scriptPre ::= fmap (fun s => s <| _done := true |>) |>) in *.
  set (d2 := d1 <| _nodeIDHash ::= insert n j' |>) in *.
  assert (reaps cfg (measure n d2) post (if post then PostScriptReaper w StartNode else PreScriptReaper cfg w StartNode)) as Hre.
  { destruct post; [by apply PostScriptReaper_reaps|apply PreScriptReaper_reaps; [done|apply (StartNode_starts cfg w Hw)]]. }
  assert (wpd True (if post then PostScriptReaper w StartNode n status else PreScriptReaper cfg w StartNode n status) d2
            (fun _ => settled False n X no_wait d1)) as Hr.
  { specialize (Hre False n X no_wait d1 d2 j' status H'). destruct post; apply Hre; rewrite ?Hsc, ?fmap_is_Some; done. }
  eapply wpd_mono; [exact Hr|]. intros [] d3 Hd3%settled_finished. wpd_steps.
  eapply wpd_mono; [by apply (RunWaitingScript_spec post X), HX; apply Hd3|]. intros r d4 [Hd4 _]. apply wpd_ret.
  eapply finished_trans; [|exact Hd4]. destruct Hd3 as [_ ->]. by destruct post.
Qed.

(** ** Submission *)

(** The IDs of the nodes. *)
Lemma holding_ids A n X W d0 d j s m jm : holding A n X W d0 d j s → _nodeIDHash d !! m = Some jm → _cluster jm ≠ -1 →
  _condorIDHash d !! _cluster jm = Some m.
Proof. intros [(F & _) _ _ _ _] Hm. apply (f_static _ _ _ F m jm Hm). Qed.

(** The old ID leaves the table. *)
Lemma drop_id A n X W d0 d j s : holding A n X W d0 d j s →
  holding A n X W d0 (d <| _condorIDHash ::= (if _cluster j =? -1 then id else delete (_cluster j)) |>
                        <| _nodeIDHash ::= insert n (j <| _cluster := -1 |>) |>) (j <| _cluster := -1 |>) s.
Proof.
  intros H. eapply (holding_cluster cfg) with (ids := (if _cluster j =? -1 then id else delete (_cluster j)) (_condorIDHash d));
    [exact H|done|].
  intros m jm Hne Hm Hid. pose proof (holding_ids _ _ _ _ _ _ _ _ _ _ H Hm Hid) as E.
  destruct (Z.eqb_spec (_cluster j) (-1)) as [|Hj]; [done|].
  rewrite lookup_delete_ne; [done|]. intros Ej. pose proof (hd_node _ _ _ _ _ _ _ _ _ H) as Hn.
  pose proof (holding_ids _ _ _ _ _ _ _ _ _ _ H Hn Hj) as E'. rewrite Ej in E'. congruence.
Qed.

Lemma take_id A n X W d0 d j s c : holding A n X W d0 d j s → _cluster j = -1 → _condorIDHash d !! c = None →
  holding A n X W d0 (d <| _condorIDHash ::= insert c n |> <| _nodeIDHash ::= insert n (j <| _cluster := c |>) |>)
    (j <| _cluster := c |>) s.
Proof.
  intros H Hj Hc. eapply (holding_cluster cfg) with (ids := <[c := n]> (_condorIDHash d)); [exact H|..].
  - intros _. apply lookup_insert_eq.
  - intros m jm Hne Hm Hid. pose proof (holding_ids _ _ _ _ _ _ _ _ _ _ H Hm Hid). rewrite lookup_insert_ne; congruence.
Qed.

(** The submission of one node. *)
Definition apart_from_ids d d' : Prop :=
  core_of d' = core_of (d <| _nodeIDHash := _nodeIDHash d' |> <| _condorIDHash := _condorIDHash d' |>).
Definition submitted_id (r : submit_result_t * Z) j d : Prop :=
  r.1 = SUBMIT_RESULT_OK → _cluster j = -1 ∧ _condorIDHash d !! r.2 = None.
Lemma SubmitNodeJob_spec A n X d0 d j : holding A n X no_wait d0 d j STATUS_READY →
  wpd True (SubmitNodeJob w n) d (fun r d' => apart_from_ids d d' ∧
    ∃ j', holding A n X no_wait d0 d' j' STATUS_READY ∧ _throttleInfo j' = _throttleInfo j ∧ submitted_id r j' d').
Proof.
  intros H. pose proof (hd_node _ _ _ _ _ _ _ _ _ H) as Hn. pose proof (hd_hand _ _ _ _ _ _ _ _ _ H) as (Hs & Hwt & Hq & Hi & Hc).
  pose proof (holding_retries cfg _ _ _ _ _ _ _ _ H) as Hr. pose proof (drop_id _ _ _ _ _ _ _ _ H) as H1.
  unfold SubmitNodeJob. do 2 (wpd_step; wpd_step). apply wpd_bind.
  set (d1 := d <| _condorIDHash ::= (if _cluster j =? -1 then id else delete (_cluster j)) |>) in *.
  apply (wpd_mono _ _ _ (fun _ d' => d' = d1)).
  { apply wpd_when; unfold d1; destruct (Z.eqb_spec (_cluster j) (-1)) as [|Hj]; try done; [|by destruct d].
    intros _. apply wpd_bind, wpd_assert; [|by apply wpd_modDag].
    apply bool_decide_eq_true. eexists. by apply (holding_ids _ _ _ _ _ _ _ _ _ _ H). }
  intros [] ? ->. apply wpd_bind. eapply wpd_modJob; [exact Hn|]. apply wpd_bind, wpd_getDag.
  set (d2 := d1 <| _nodeIDHash ::= _ |>) in *.
  set (j2 := j <| _cluster := -1 |>) in *.
  assert (_nodeIDHash d2 !! n = Some j2) as Hn2 by apply lookup_insert_eq.
  assert (holding A n X no_wait d0 (d2 <| _nodeIDHash ::= insert n (j2 <| _submitTries ::= Z.succ |>) |>) (j2 <| _submitTries ::= Z.succ |>) STATUS_READY) as H'.
  { eapply (holding_upd cfg); [exact H1|hand_change_tac|done]. }
  destruct (negb (runSubmitDag w d2 n)); [wpd_steps; split; [done|]; by eexists|].
  destruct (negb (MonitorLogFile w d2 n)); wpd_steps; (split; [done|]); [by exists j2|].
  eexists. split_and!; [exact H'|done|]. destruct (condor_submit _ _ _) as [c|] eqn:E; [|done].
  intros _. split; [done|]. by apply (g_cluster w Hw _ _ _ E).
Qed.

Lemma ProcessSuccessfulSubmit_spec n c X d0 d j : holding False n X no_wait d0 d j STATUS_READY →
  (_maxJobsSubmitted cfg ≠ 0 → _numJobsSubmitted d < _maxJobsSubmitted cfg) → throttled j d = false →
  _cluster j = -1 → _condorIDHash d !! c = None →
  wpd True (ProcessSuccessfulSubmit n c) d (fun _ d' => inv cfg None X no_wait d' ∧ _readyQ d' = _readyQ d ∧ _jobs d' = _jobs d).
Proof.
  intros H Hm Ht Hj Hid. pose proof (hd_node _ _ _ _ _ _ _ _ _ H) as Hn. pose proof (hd_hand _ _ _ _ _ _ _ _ _ H) as (Hs & Hwt & Hq & Hi & Hc).
  pose proof (holding_retries cfg _ _ _ _ _ _ _ _ H) as Hr. pose proof (holding_static cfg _ _ _ _ _ _ _ _ H) as Hst.
  unfold ProcessSuccessfulSubmit, SetStatus. wpd_steps.
  set (j' := j <| _Status := STATUS_SUBMITTED |>).
  set (d1 := d <| _nextSubmitTime := 0 |> <| _nextSubmitDelay := 1 |> <| _submitQ ::= fun q => q ++ [n] |> <| _nodeIDHash ::= insert n j' |>).
  assert (holding False n X no_wait d0 d1 j' STATUS_SUBMITTED) as H1.
  { eapply (holding_core cfg); [|eapply (holding_upd cfg _ _ _ _ _ _ _ _ j'); [exact H|hand_change_tac|done]]. done. }
  pose proof (hd_inv _ _ _ _ _ _ _ _ _ H1) as (F1 & C1 & _).
  apply (UpdateJobCounts_spec n j'); [apply lookup_insert_eq| | |].
  - simpl. pose proof (c_numSubmitted _ _ _ C1) as E. simpl in E. rewrite E. pose proof (cnt_nonneg (is_st STATUS_SUBMITTED) (delete n (<[n:=j']> (_nodeIDHash d)))). lia.
  - intros x Hc'. destruct (s_cat _ _ _ Hst x Hc') as [t Hct]. exists t. split; [done|].
    rewrite (c_cat _ _ _ C1 x t Hct). pose proof (cnt_nonneg (in_cat x) (live (Some n) d1)). lia.
  - apply wpd_bind. eapply wpd_modJob; [apply lookup_insert_eq|]. wpd_steps.
    apply wpd_assert; [by apply bool_decide_eq_true|]. wpd_steps. split; [|done].
    pose proof (take_id _ _ _ _ _ _ _ _ c H1 Hj Hid) as H2.
    eapply (inv_core cfg); [|eapply (holding_put cfg); [exact H2| |by apply placed_counted|apply frame_counted]].
    + done.
    + apply (hand_local STATUS_SUBMITTED); done.
    + intros _ Hne. specialize (Hm Hne). simpl. lia.
    + intros _ x t Hc' Hct Hset. simpl in Hc', Hct. unfold throttled in Ht. rewrite Hc', Hct, Hset in Ht. simpl in Ht. apply Z.leb_gt in Ht. lia.
Qed.

Lemma ProcessFailedSubmit_spec n X d0 d j : holding False n X no_wait d0 d j STATUS_READY →
  wpd True (ProcessFailedSubmit cfg w n) d (fun _ => finished X d0).
Proof.
  intros H. pose proof (hd_node _ _ _ _ _ _ _ _ _ H) as Hn. pose proof (hd_hand _ _ _ _ _ _ _ _ _ H) as (Hs & Hwt & Hq & Hi & Hc).
  pose proof (holding_retries cfg _ _ _ _ _ _ _ _ H) as Hr. pose proof (e_jobs _ _ _ _ (hd_evolves _ _ _ _ _ _ _ _ _ H)) as E0.
  unfold ProcessFailedSubmit. apply wpd_bind, wpd_modDag.
  match goal with |- wpd _ _ ?x _ => set (d1 := x) end.
  apply wpd_bind, (wpd_getJob _ n j); [done|]. destruct (_ <=? _).
  - apply wpd_bind, wpd_modDag. set (d2 := d1 <| _nextSubmitTime := 0 |> <| _nextSubmitDelay := 1 |>).
    assert (holding False n X no_wait d0 d2 j STATUS_READY) as H2 by (eapply (holding_core cfg); [|exact H]; done).
    apply wpd_bind. eapply (wpd_hand cfg False n X no_wait d0 d2 j _ _ STATUS_READY); [done|hand_change_tac|done|].
    intros d3 H3 _. case_bool_decide as Hp.
    + apply wpd_bind. unfold modScript. eapply (wpd_hand cfg False n X no_wait d0 d3 _ _ _ STATUS_READY); [exact H3|hand_change_tac|done|].
      intros d4 H4 _. pose proof (e_jobs _ _ _ _ (hd_evolves _ _ _ _ _ _ _ _ _ H4)) as E4.
      eapply wpd_mono; [eapply (post_spec cfg w Hw); [eapply holding_rebase; exact H4|done|by apply fmap_is_Some]|].
      intros [] d5 Hd5. by eapply finished_trans.
    + apply wpd_bind. eapply wpd_mono; [by eapply fail_spec|]. intros [] d4 (j4 & H4 & _).
      unfold node_failed. wpd_steps. eapply settled_finished. eapply settle_error; [exact H4|done].
  - assert (holding False n X no_wait d0 d1 j STATUS_READY) as H1 by (eapply (holding_core cfg); [|exact H]; done).
    eapply wpd_mono; [by eapply ready_spec|]. intros [] d2 Hd2. by eapply settled_finished.
Qed.

Definition aside (l : PrioritySimpleList JobID_t) : pending := mkPending (list_to_set (items l)) 0.

Lemma submit_loop_spec fuel d0 d numSubmits deferred : (length (items (_readyQ d)) < fuel)%nat → list_ok deferred →
  NoDup (items deferred) → finished (aside deferred) d0 d →
  wpd True (submit_loop cfg w fuel numSubmits deferred) d (fun r d' => NoDup (items r.2) ∧ finished (aside r.2) d0 d').
Proof.
  revert d numSubmits deferred. induction fuel as [|fuel IH]; intros d num def Hf Hok Hnd [I E]; [lia|]. simpl. wpd_steps.
  destruct (negb (num <? _) || IsEmpty (_readyQ d)) eqn:Hc; [done|]. apply orb_false_iff in Hc as [_ Hne].
  destruct (negb (_maxJobsSubmitted cfg =? 0) && _) eqn:Hmax.
  { wpd_steps. simpl. split; [done|]. split; [by eapply (inv_core cfg); [|exact I]|done]. }
  destruct (negb (_maxIdleJobProcs cfg =? 0) && _).
  { wpd_steps. simpl. split; [done|]. split; [by eapply (inv_core cfg); [|exact I]|done]. }
  destruct (Next (Rewind (_readyQ d))) as [o q] eqn:HN. pose proof (inv_readyQ cfg _ _ _ _ I) as Hq.
  assert (list_ok (Rewind (_readyQ d))) as Hq' by done.
  destruct o as [n|].
  2:{ apply Next_None in HN as [_ HN]; [|simpl; lia|done]. exfalso. unfold IsEmpty in Hne. simpl in HN. unfold Number in *. simpl in *.
      apply Z.eqb_neq in Hne. lia. }
  apply Next_Some in HN as (Hi & Eq & Ep & Em & Ec); [|simpl; lia]. simpl in Hi, Eq, Ep, Em, Ec.
  destruct (ready_node cfg (aside def) no_wait d n I) as (j & Hj & Hh & HX); [by eapply list_elem_of_lookup_2|].
  destruct (DeleteCurrent_items q n) as (Hp & Hok' & Hcd).
  { unfold list_ok, Number in *. rewrite Eq, Ep, Em. done. }
  { lia. }
  { by rewrite Eq. }
  rewrite Eq in Hp. pose proof (take_ready cfg _ _ d n j _ I Hj Hh HX Hp Hok') as I2.
  set (d2 := d <| _readyQ := DeleteCurrent q |>) in *.
  assert (length (items (_readyQ d2)) < fuel)%nat as Hf2.
  { simpl. apply Permutation_length in Hp. simpl in Hp. lia. }
  assert (holding False n (aside def) no_wait d2 d2 j STATUS_READY) as H2 by (constructor; [done|apply evolves_refl|done..]).
  apply wpd_bind, wpd_modDag. fold d2. apply wpd_bind, (wpd_getJob _ n j); [done|].
  apply wpd_bind, wpd_assert; [destruct Hh as [-> _]; done|]. wpd_steps.
  destruct (throttled j d2) eqn:Ht.
  - wpd_steps. pose proof (inv_defer cfg n j _ d2 I2 HX Hj Hh) as I3.
    destruct (Prepend_items n (- _nodePriority j) def Hok) as [Hpp Hpo].
    assert (aside (Prepend n (- _nodePriority j) def) = deferring (aside def) n) as HXX.
    { unfold aside, deferring; simpl. f_equal. by rewrite Hpp. }
    apply IH; [done|done| |split; [|done]].
    + rewrite Hpp. constructor; [|done]. intros Hin. apply HX. unfold aside, elem_of, pending_elem_of; simpl. by apply elem_of_list_to_set.
    + rewrite HXX. by eapply (inv_core cfg); [|exact I3].
  - wpd_steps. eapply wpd_mono; [by eapply SubmitNodeJob_spec|]. intros [r c] d3 (E3 & j3 & H3 & Ecat & Hids).
    unfold apart_from_ids, core_of in E3. injection E3 as E3 E4 E5 E6 E7 E8 E9 E10 E11 E12 E13. simpl.
    assert (wpd True (ProcessFailedSubmit cfg w n;; mret (num, def)) d3
              (fun r d' => NoDup (items r.2) ∧ finished (aside r.2) d0 d')) as Hfail.
    { apply wpd_bind. eapply wpd_mono; [eapply ProcessFailedSubmit_spec; exact H3|]. intros [] d4 Hd4. apply wpd_ret.
      simpl. split; [done|]. by eapply finished_trans; [|exact Hd4]. }
    destruct r; [|done..]. apply wpd_bind.
    eapply wpd_mono; [eapply ProcessSuccessfulSubmit_spec; [exact H3| | |by apply Hids|by apply Hids]|].
    + intros Hne0. rewrite E12. simpl. apply andb_false_iff in Hmax as [Hz|Hz].
      * apply negb_false_iff, Z.eqb_eq in Hz. done.
      * by apply Z.leb_gt in Hz.
    + unfold throttled in *. rewrite Ecat, E6. done.
    + intros [] d4 (I4 & E4' & Ej4). apply IH; [rewrite E4', E5; done|done|done|]. split; [done|]. simpl in *. congruence.
Qed.

(** The deferred nodes go back to the queue. *)
Lemma ready_deferred_spec l X d : inv cfg None X no_wait d → NoDup l → unstarted X = list_to_set l →
  wpd True (for_each l ready_first) d (fun _ d' => finished (mkPending ∅ (uncounted X)) d d').
Proof.
  revert X d. induction l as [|n l IH]; intros X d I Hnd HX; simpl.
  { apply wpd_ret. split; [|done]. destruct X; simpl in *. by subst. }
  apply NoDup_cons in Hnd as [Hn Hnd].
  destruct (inv_undefer cfg False n X d I) as [j H]; [unfold elem_of, pending_elem_of; set_solver|].
  apply wpd_bind. eapply wpd_mono; [by eapply ready_first_spec|]. intros [] d1 [I1 E1]%settled_finished.
  eapply wpd_mono; [apply (IH _ d1 I1 Hnd)|].
  - simpl. rewrite HX. simpl. apply leibniz_equiv. set_solver.
  - intros [] d2 Hd2. by eapply finished_trans.
Qed.

Lemma SubmitReadyJobs_spec d : inv cfg None nothing no_wait d →
  wpd True (SubmitReadyJobs cfg w) d (fun _ => finished nothing d).
Proof.
  intros I. unfold SubmitReadyJobs. wpd_steps. destruct (_ && _); [done|]. wpd_steps.
  set (d1 := d <| _dagIsHalted := haltFile w |>).
  assert (inv cfg None nothing no_wait d1) as I1 by (by eapply (inv_core cfg); [|exact I]).
  destruct (haltFile w && _); [done|]. apply wpd_bind.
  eapply (wpd_mono _ _ _ (fun _ => finished nothing d1)); [apply wpd_when; intros _; [|done]; by apply RunAllWaitingScripts_spec|].
  intros [] d2 [I2 E2]. wpd_steps.
  eapply wpd_mono; [apply (submit_loop_spec _ d2); [lia|done|apply NoDup_nil_2|done]|].
  intros [num def] d3 [Hnd [I3 E3]]. simpl in *. wpd_steps.
  eapply wpd_mono; [by apply (ready_deferred_spec _ (aside def))|]. intros [] d4 [I4 E4]. apply wpd_ret. split; [done|].
  simpl in *. congruence.
Qed.

(** ** The end of the timer *)

(** The search for cycles changes nothing that the invariant speaks of. *)
Lemma cnt_strip (p : Job → bool) (m : gmap JobID_t Job) : (∀ j, p (strip j) = p j) → cnt p (strip <$> m) = cnt p m.
Proof.
  intros Hp. unfold cnt. f_equal. induction m as [|n j m Hn IH] using map_ind; [done|]. rewrite fmap_insert.
  destruct (p j) eqn:E.
  - rewrite !map_filter_insert_True by (simpl; rewrite ?Hp; done).
    rewrite !map_size_insert_None by (apply map_lookup_filter_None; left; rewrite ?lookup_fmap, ?Hn; done). by rewrite IH.
  - rewrite !map_filter_insert_not' by (simpl; rewrite ?Hp, ?lookup_fmap, ?Hn, ?E; done). done.
Qed.

Lemma local_strip j : local_ok j → local_ok (strip j).
Proof. intros []. by constructor. Qed.
Lemma local_unstrip j : local_ok (strip j) → local_ok j.
Proof. intros []. by constructor. Qed.

Lemma core_strip (m m' : gmap JobID_t Job) X d : strip <$> m' = strip <$> m → core_ok m X d → core_ok m' X d.
Proof.
  intros E [].
  assert (∀ n j', m' !! n = Some j' → ∃ j, m !! n = Some j ∧ strip j' = strip j) as H1.
  { intros n j' Hn. apply (f_equal (lookup n)) in E. rewrite !lookup_fmap, Hn in E. symmetry in E. apply fmap_Some in E as (j & ? & ?). eauto. }
  assert (∀ n j, m !! n = Some j → ∃ j', m' !! n = Some j' ∧ strip j' = strip j) as H2.
  { intros n j Hn. apply (f_equal (lookup n)) in E. rewrite !lookup_fmap, Hn in E. apply fmap_Some in E as (j' & ? & ?). eauto. }
  assert (∀ P : JobID_t → Job → Prop, (∀ n j, P n (strip j) ↔ P n j) → ∀ n,
            (∃ j, m' !! n = Some j ∧ P n j) ↔ (∃ j, m !! n = Some j ∧ P n j)) as HP.
  { intros P HP n. split; intros (j & Hn & Hj).
    - destruct (H1 n j Hn) as (j0 & Hj0 & Es). exists j0. split; [done|]. apply HP. rewrite <- Es. by apply HP.
    - destruct (H2 n j Hn) as (j0 & Hj0 & Es). exists j0. split; [done|]. apply HP. rewrite Es. by apply HP. }
  assert (∀ p : Job → bool, (∀ j, p (strip j) = p j) → cnt p m' = cnt p m) as Hcnt.
  { intros p Hp. rewrite <- (cnt_strip p m'), <- (cnt_strip p m), E by done. done. }
  constructor; try done.
  - intros n j' Hn. destruct (H1 n j' Hn) as (j & Hj & Es). apply local_unstrip. rewrite Es. apply local_strip. eauto.
  - intros n. rewrite c_ready. symmetry. by apply (HP (fun n j => _Status j = STATUS_READY ∧ Q_WAITING j = ∅ ∧ n ∉ X)).
  - intros n. rewrite c_pre. symmetry. by apply (HP (fun _ j => _Status j = STATUS_PRERUN)).
  - intros n. rewrite c_post. symmetry. by apply (HP (fun _ j => _Status j = STATUS_POSTRUN)).
  - intros post pid n Hn. apply (HP (fun _ j => _pid <$> script_of post j = Some pid)); [by destruct post|eauto].
  - by rewrite Hcnt.
  - by rewrite Hcnt.
  - by rewrite Hcnt.
  - by rewrite Hcnt.
  - by rewrite Hcnt.
  - by rewrite Hcnt.
  - intros x t Ht. rewrite Hcnt; [eauto|done].
Qed.

Lemma inv_unnumbered X d d' : unnumbered d' = unnumbered d → numbered d' → inv cfg None X no_wait d → inv cfg None X no_wait d'.
Proof.
  intros E Hnum (F & C & I).
  assert (core_of (d' <| _nodeIDHash := _nodeIDHash d |>) = core_of d) as Ec.
  { unfold unnumbered in E. injection E as E1 _ E3 E4 _ E6 E7 E8 E9 E10 E11 E12 E13 _ E15 E16. unfold core_of; simpl. congruence. }
  pose proof (f_equal _nodeIDHash E) as Eh. simpl in Eh.
  assert (∀ n j', _nodeIDHash d' !! n = Some j' → ∃ j, _nodeIDHash d !! n = Some j ∧ strip j' = strip j) as H1.
  { intros n j' Hn. destruct (unnumbered_nodes d' d n j' (eq_sym E) Hn) as (j & ? & ?). eauto. }
  split_and!.
  - pose proof (frame_ext cfg no_wait d _ Ec F) as []. constructor; try done; simpl in *.
    + by apply (unnumbered_wf d), F.
    + by right.
    + intros c jc' p Hc. destruct (H1 c jc' Hc) as (jc & Hjc & Es). specialize (f_waits c jc p Hjc).
      replace (Q_WAITING jc') with (Q_WAITING jc) by exact (f_equal Q_WAITING (eq_sym Es)).
      replace (Q_PARENTS jc') with (Q_PARENTS jc) by exact (f_equal Q_PARENTS (eq_sym Es)).
      rewrite f_waits. unfold undone; simpl. f_equiv. f_equiv. split; intros (jp & Hjp & Hd).
      * destruct (unnumbered_nodes d d' p jp E Hjp) as (jp' & ? & Ep). exists jp'. split; [done|].
        by replace (_Status jp') with (_Status jp) by exact (f_equal _Status (eq_sym Ep)).
      * destruct (H1 p jp Hjp) as (jp0 & ? & Ep). exists jp0. split; [done|].
        by replace (_Status jp0) with (_Status jp) by exact (f_equal _Status Ep).
    + intros n j' Hn. destruct (H1 n j' Hn) as (j & Hj & Es). destruct (f_static n j Hj). simpl in *.
      assert (retries j' = retries j ∧ retry_max j' = retry_max j ∧ _final j' = _final j ∧ Q_PARENTS j' = Q_PARENTS j ∧
              Q_CHILDREN j' = Q_CHILDREN j ∧ _throttleInfo j' = _throttleInfo j ∧ _Status j' = _Status j ∧ _cluster j' = _cluster j)
        as (Er & Em & Ef & Ep & Ech & Et & Est & Eid).
      { unfold strip in Es. by injection Es. }
      constructor; rewrite ?Er, ?Em, ?Ef, ?Ep, ?Ech, ?Et, ?Est, ?Eid; done.
    + intros f Hf. destruct (f_final f Hf) as [j Hj]. destruct (unnumbered_nodes d d' f j E Hj) as (j' & ? & _). eauto.
  - pose proof (core_ext _ X d _ Ec (core_strip _ _ X d Eh C)) as []. by constructor.
  - intros n Hn. destruct (I n Hn) as (j & Hj & Hs & Hwt). simpl in *. destruct (unnumbered_nodes d d' n j E Hj) as (j' & ? & Es).
    exists j'. split_and!; [done|etrans; [exact (f_equal _Status Es)|done]|etrans; [exact (f_equal Q_WAITING Es)|done]].
Qed.

Lemma cnt_disjoint (p q : Job → bool) (m : gmap JobID_t Job) : (∀ j, p j && q j = false) → cnt p m + cnt q m ≤ Z.of_nat (size m).
Proof.
  intros Hpq. induction m as [|n j m Hn IH] using map_ind; [done|].
  rewrite !cnt_insert_new, map_size_insert_None by done. specialize (Hpq j). destruct (p j), (q j); simpl in *; lia || done.
Qed.

Lemma nodes_size X d : inv cfg None X no_wait d → Z.of_nat (length (_jobs d)) = Z.of_nat (size (_nodeIDHash d)).
Proof.
  intros (F & _ & _). f_equal. rewrite <- size_dom, <- (size_list_to_set (C := gset JobID_t) (_jobs d)) by apply F. f_equal.
  apply leibniz_equiv. intros x. rewrite elem_of_list_to_set. apply (wf_jobs _ (f_graph _ _ _ F)).
Qed.

Lemma timer_end_spec d : inv cfg None nothing no_wait d → wpd True (timer_end cfg w) d (fun _ => finished nothing d).
Proof.
  intros I. pose proof I as (F & C & _).
  assert (∀ v st d', finished nothing d d' → wpd True (main_shutdown_rescue StartNode v st) d' (fun _ => finished nothing d)) as Hmain.
  { intros v st d' [I' E']. eapply wpd_mono; [eapply (main_shutdown_spec cfg StartNode (pending_cost d') (StartNode_starts cfg w Hw _) False 0);
      [tauto|split; [exact I'|apply evolves_refl]|done]|].
    intros [] d2 Hd2%settled_finished. by eapply finished_trans. }
  unfold timer_end. wpd_steps. apply wpd_assert.
  { apply Z.leb_le. unfold NumNodesDone, NumNodes. simpl. rewrite (nodes_size nothing d I), (c_numDone _ _ _ C), (c_numFailed _ _ _ C).
    pose proof (cnt_disjoint (is_st STATUS_DONE) (is_st STATUS_ERROR) (_nodeIDHash d)) as Hd.
    assert (∀ j, is_st STATUS_DONE j && is_st STATUS_ERROR j = false) as Hd0 by (intros j; unfold is_st; by destruct (_Status j)).
    specialize (Hd Hd0). simpl. lia. }
  destruct (DoneSuccess true d) eqn:Hds.
  { apply wpd_bind, wpd_assert; [|by apply wpd_exit]. unfold DoneSuccess in Hds. destruct (FinishedRunning true d) eqn:Hfr; [|done].
    unfold FinishedRunning in Hfr. destruct (_ && _ && _); [done|]. destruct (_dagIsHalted d); by repeat (apply andb_true_iff in Hfr as [Hfr ?]). }
  destruct (DoneFailed true d); [by apply Hmain|]. destruct (DoneSuccess false d).
  { apply wpd_bind. eapply wpd_mono; [eapply (StartFinalNode_spec cfg StartNode (pending_cost d) (StartNode_starts cfg w Hw _) False 0);
      [tauto|split; [exact I|apply evolves_refl]|done]|].
    intros b d2 Hd2%settled_finished. by apply wpd_ret. }
  destruct (_ && _ && _ && _); [by apply Hmain|]. destruct (FinishedRunning false d); [|done]. apply wpd_bind.
  destruct (DoneFailed false d); [apply wpd_ret; by apply Hmain|]. apply wpd_bind.
  eapply wpd_mono; [eapply (wpd_weaken False True); [done|apply isCycle_ok; apply F]|].
  intros b d2 (_ & Hnum & Es). apply wpd_ret. apply Hmain. split; [by apply (inv_unnumbered nothing d)|by apply unnumbered_jobs].
Qed.
End Main.
