(* ===== verification/DagBuild.v ===== *)
(** * DagBuild

    The DAG that the lines of a file build, and [Bootstrap]: it tells the children
    of the nodes that are done, and starts the nodes that wait for none.  After it
    the invariant of [DagInv] holds. *)
From stdpp Require Import base gmap list sorting relations sets.
From Stdlib Require Import ZArith Lia.
From S2P Require Import Prelude PriorityList Dag DagCycle DagInv DagSafe DagStart DagRun DagMain.
Open Scope Z_scope.
Open Scope condor_scope.

Implicit Types (n c p : JobID_t) (d : Dag) (j : Job) (told : JobID_t → JobID_t → Prop) (S : gset JobID_t).

(** ** The state before the start *)

Record boot_node d S n j : Prop := {
  bn_status : _Status j = STATUS_READY ∨ _Status j = STATUS_DONE ∨ _Status j = STATUS_NOT_READY;
  bn_counted : countedAsDone j = bool_decide (n ∈ S);
  bn_done : n ∈ S → _Status j = STATUS_DONE;
  bn_queued : _queuedNodeJobProcs j = 0;
  bn_idle : _isIdle j = false;
  bn_fresh : _visited j = false ∧ _dfsOrder j = -1;
  bn_retries : 0 ≤ retries j ≤ retry_max j;
  bn_final : _final j = true ↔ _final_job d = Some n;
  bn_pending : _Status j = STATUS_NOT_READY ↔ _final j = true;
  bn_final_graph : _final j = true → Q_PARENTS j = ∅ ∧ Q_CHILDREN j = ∅;
  bn_cat (x : cstr) : _throttleInfo j = Some x → is_Some (_throttles d !! x);
  bn_id : _cluster j = -1;
}.

(** [S] are the nodes that are done and counted; [told p c] says that [c] knows that
    [p] is done. *)
Record booting told S d : Prop := {
  b_graph : graph_wf d;
  b_jobs : NoDup (_jobs d);
  b_nodes n j : _nodeIDHash d !! n = Some j → boot_node d S n j;
  b_waits c jc p : _nodeIDHash d !! c = Some jc → p ∈ Q_WAITING jc → p ∈ Q_PARENTS jc ∧ ¬told p c;
  b_undone c jc p : _nodeIDHash d !! c = Some jc → p ∈ Q_PARENTS jc → undone d p → p ∈ Q_WAITING jc;
  b_final f : _final_job d = Some f → is_Some (_nodeIDHash d !! f);
  b_counted : S ⊆ dom (_nodeIDHash d);
  b_empty : _readyQ d = PSL_new ∧ _preScriptQ d = ScriptQ_new ∧ _postScriptQ d = ScriptQ_new ∧ userlog d = [];
  b_zero : _numNodesFailed d = 0 ∧ _numJobsSubmitted d = 0 ∧ _numIdleJobProcs d = 0 ∧ _preRunNodeCount d = 0 ∧
    _postRunNodeCount d = 0 ∧ _numNodesDone d = Z.of_nat (size S);
  b_throttles (x : cstr) t : _throttles d !! x = Some t → _currentJobs t = 0;
}.
Definition built (d : Dag) : Prop := booting (fun _ _ => False) ∅ d.

(** A node as the constructor and the other lines of the file leave it. *)
Definition new_job (j : Job) : Prop :=
  (_Status j = STATUS_READY ∨ (_Status j = STATUS_DONE ∧ _final j = false)) ∧ Q_PARENTS j = ∅ ∧ Q_WAITING j = ∅ ∧ Q_CHILDREN j = ∅ ∧
  countedAsDone j = false ∧ _queuedNodeJobProcs j = 0 ∧ _isIdle j = false ∧ _visited j = false ∧ _dfsOrder j = -1 ∧
  0 ≤ retries j ≤ retry_max j ∧ _throttleInfo j = None ∧ _cluster j = -1.

Lemma built_new : built Dag_new.
Proof.
  constructor; try done; simpl; [|apply NoDup_nil_2]. constructor; [|by intros n c (cs & H & _)|done].
  intros n. simpl. rewrite dom_empty. set_solver.
Qed.

(** A new node has no edges. *)
Lemma graph_new n j d d' : graph_wf d → _nodeIDHash d !! n = None → Q_PARENTS j = ∅ → Q_CHILDREN j = ∅ →
  _nodeIDHash d' = <[n := j]> (_nodeIDHash d) → _jobs d' = _jobs d ++ [n] → graph_wf d'.
Proof.
  intros [G1 G2 G3] Hn Hp Hc Eh Ej.
  assert (∀ p c, edge (graph_of d') p c ↔ edge (graph_of d) p c) as He.
  { intros p c. rewrite !edge_node, Eh. lookup_case n p; [|done]. rewrite Hn. set_solver. }
  constructor.
  - intros m. rewrite Ej, Eh, elem_of_app, dom_insert, G1, list_elem_of_singleton. set_solver.
  - intros p c Hpc%He%G2. unfold graph_of in *. rewrite dom_fmap in *. rewrite Eh, dom_insert. set_solver.
  - intros m jm p Hm. rewrite He. rewrite Eh in Hm. lookup_case n m; [|by apply G3]. simplify_eq. rewrite Hp. split; [set_solver|].
    intros Hpc%G2. unfold graph_of in Hpc. rewrite dom_fmap in Hpc. apply elem_of_dom in Hpc as [? ?]. congruence.
Qed.

Lemma boot_node_ext d d' S n j : _final_job d' = _final_job d → _throttles d' = _throttles d → boot_node d S n j → boot_node d' S n j.
Proof. intros E1 E2 []. constructor; rewrite ?E1, ?E2; done. Qed.

Lemma Add_built n j d : built d → new_job j → _nodeIDHash d !! n = None →
  wpd False (Add n j) d (fun b d' => b = true → built d').
Proof.
  intros B (Hst & Hp & Hwt & Hch & Hc & Hq & Hi & (Hv & Ho & Hr & Ht & Hid)) Hn. unfold Add. wpd_steps.
  apply wpd_assert; [by apply bool_decide_eq_true|]. destruct (_final j && _) eqn:Hf; wpd_steps; [done|]. intros _.
  set (j' := if _final j then j <| _Status := STATUS_NOT_READY |> else j).
  assert (_final j = true → _final_job d = None) as Hnf.
  { intros E. rewrite E in Hf. simpl in Hf. apply bool_decide_eq_false in Hf. by apply dec_stable. }
  assert (Q_PARENTS j' = ∅ ∧ Q_WAITING j' = ∅ ∧ Q_CHILDREN j' = ∅ ∧ _final j' = _final j) as (Hp' & Hwt' & Hch' & Hfj).
  { unfold j'. by destruct (_final j) eqn:E. }
  assert (∀ m jm p, _nodeIDHash d !! m = Some jm → p ∈ Q_PARENTS jm → p ≠ n) as Hpn.
  { intros m jm p Hm Hpm ->. apply (wf_parents _ (b_graph _ _ _ B) m jm n Hm) in Hpm. apply edge_node in Hpm as (? & ? & _). congruence. }
  rewrite Hfj. destruct B. constructor; simpl; try done.
  - by apply (graph_new n j' d).
  - apply NoDup_app. split_and!; [done| |apply NoDup_singleton]. intros x Hx ->%list_elem_of_singleton.
    apply (wf_jobs _ b_graph0) in Hx. apply elem_of_dom in Hx as [? ?]. congruence.
  - intros m jm Hm. lookup_case n m.
    + injection Hm as <-. constructor; simpl; unfold j'; try (by destruct (_final j) eqn:E; simpl; rewrite ?E).
      * destruct (_final j); simpl; tauto.
      * destruct (_final j) eqn:E; simpl; [by rewrite E|]. rewrite E. split; [done|]. intros Hfd.
        destruct (b_final0 n Hfd). congruence.
      * destruct (_final j) eqn:E; simpl; rewrite ?E; [done|]. split; [|done]. intros Hs. rewrite Hs in Hst. naive_solver.
      * destruct (_final j); simpl; congruence.
    + destruct (b_nodes0 m jm Hm). constructor; simpl; try done. destruct (_final j) eqn:E; [|done].
      rewrite (Hnf eq_refl) in bn_final0. rewrite bn_final0. split; [done|congruence].
  - intros c jc p Hc'. lookup_case n c; [simplify_eq; rewrite Hwt'; set_solver|intros Hpc; by apply (b_waits0 c jc p)].
  - intros c jc p Hc' Hpc Hu. lookup_case n c; [simplify_eq; rewrite Hp' in Hpc; set_solver|].
    apply (b_undone0 c jc p Hc' Hpc). destruct Hu as (jp & Hjp & Hd). simpl in Hjp. exists jp. split; [|done].
    rewrite lookup_insert_ne in Hjp; [done|]. intros <-. by eapply Hpn.
  - intros f. destruct (_final j); [intros [= <-]; rewrite lookup_insert_eq; eauto|]. intros Hfd. destruct (b_final0 f Hfd) as [jf Hjf].
    lookup_case n f; eauto.
Qed.

(** A new edge. *)
Definition bare (j : Job) : Job := j <| Q_CHILDREN := ∅ |> <| Q_PARENTS := ∅ |> <| Q_WAITING := ∅ |>.
Record edge_added p c (u : Prop) x j j' : Prop := {
  ea_bare : bare j' = bare j;
  ea_children y : y ∈ Q_CHILDREN j' ↔ y ∈ Q_CHILDREN j ∨ (x = p ∧ y = c);
  ea_parents y : y ∈ Q_PARENTS j' ↔ y ∈ Q_PARENTS j ∨ (x = c ∧ y = p);
  ea_waiting y : y ∈ Q_WAITING j' ↔ y ∈ Q_WAITING j ∨ (x = c ∧ y = p ∧ u);
}.

Lemma built_edge p c m' d jp jc : built d → _nodeIDHash d !! p = Some jp → _nodeIDHash d !! c = Some jc →
  _final jp = false → _final jc = false → (∀ x, x ∈ dom m' ↔ x ∈ dom (_nodeIDHash d)) →
  (∀ x j', m' !! x = Some j' → ∃ j, _nodeIDHash d !! x = Some j ∧ edge_added p c (undone d p) x j j') →
  built (d <| _nodeIDHash := m' |>).
Proof.
  intros B Hp Hc Hfp Hfc Hdom Hrel. destruct B. set (d' := d <| _nodeIDHash := m' |>).
  assert (∀ x j, _nodeIDHash d !! x = Some j → ∃ j', m' !! x = Some j' ∧ edge_added p c (undone d p) x j j') as Hrel'.
  { intros x j Hx. assert (x ∈ dom m') as [j' Hj']%elem_of_dom by (apply Hdom, elem_of_dom; eauto).
    destruct (Hrel x j' Hj') as (j0 & Hj0 & ?). simplify_eq. eauto. }
  assert (∀ x, undone d' x ↔ undone d x) as Hu.
  { intros x. split; intros (j & Hj & Hd).
    - destruct (Hrel x j Hj) as (j0 & ? & []). exists j0. split; [done|]. pose proof (f_equal _Status ea_bare0). simpl in *. congruence.
    - destruct (Hrel' x j Hj) as (j0 & ? & []). exists j0. split; [done|]. pose proof (f_equal _Status ea_bare0). simpl in *. congruence. }
  assert (∀ x y, edge (graph_of d') x y ↔ edge (graph_of d) x y ∨ (x = p ∧ y = c)) as He.
  { intros x y. rewrite !edge_node. split.
    - intros (j' & Hj' & Hy). destruct (Hrel x j' Hj') as (j & Hj & []). apply ea_children0 in Hy. naive_solver.
    - intros [(j & Hj & Hy)|[-> ->]]; [destruct (Hrel' x j Hj) as (j' & ? & [])|destruct (Hrel' p jp Hp) as (j' & ? & [])];
        exists j'; (split; [done|]); apply ea_children0; auto. }
  constructor; try done.
  - destruct b_graph0 as [G1 G2 G3]. constructor.
    + intros x. simpl. by rewrite G1, Hdom.
    + intros x y Hxy. unfold graph_of. rewrite dom_fmap. simpl. apply Hdom. apply He in Hxy as [Hxy|[_ ->]]; [|apply elem_of_dom; eauto].
      specialize (G2 x y Hxy). unfold graph_of in G2. by rewrite dom_fmap in G2.
    + intros y jy x Hy. destruct (Hrel y jy Hy) as (j & Hj & []). rewrite ea_parents0, He, (G3 y j x Hj). tauto.
  - intros x j' Hx. destruct (Hrel x j' Hx) as (j & Hj & [Eb Ec Ep Ew]). destruct (b_nodes0 x j Hj).
    unfold bare in Eb. injection Eb as Es Ef _ _ _ Em Er _ _ _ _ _ Eco Evi Eo _ Eq _ _ Et Ei _ _ _ Eid.
    assert (_final j = true → x ≠ p ∧ x ≠ c) as Hne by (intros Hf; split; intros ->; congruence).
    constructor; rewrite ?Es, ?Ef, ?Em, ?Er, ?Eco, ?Evi, ?Eo, ?Eq, ?Et, ?Ei, ?Eid; try done.
    intros Hf. destruct (bn_final_graph0 Hf). destruct (Hne Hf). split; apply leibniz_equiv; intros y; rewrite ?Ep, ?Ec; set_solver.
  - intros y jy x Hy Hxy. destruct (Hrel y jy Hy) as (j & Hj & []). apply ea_waiting0 in Hxy. rewrite ea_parents0. split; [|tauto].
    destruct Hxy as [Hxy|(? & ? & _)]; [|tauto]. left. by apply (b_waits0 y j x Hj).
  - intros y jy x Hy Hxy Hux. destruct (Hrel y jy Hy) as (j & Hj & []). rewrite Hu in Hux. apply ea_waiting0.
    apply ea_parents0 in Hxy as [Hxy|[-> ->]]; [left; by apply (b_undone0 y j x)|auto].
  - intros f Hf. destruct (b_final0 f Hf) as [j Hj]. destruct (Hrel' f j Hj) as (j' & ? & _). simpl. eauto.
Qed.

Lemma AddDependency_built p c d jp jc : built d → _nodeIDHash d !! p = Some jp → _nodeIDHash d !! c = Some jc →
  wpd False (AddDependency p c) d (fun b d' => b = true → built d').
Proof.
  intros B Hp Hc. unfold AddDependency, AddChild. wpd_steps. destruct (_final jp) eqn:Hfp; simpl; [by wpd_steps|]. wpd_steps. simpl.
  set (jp1 := jp <| Q_CHILDREN ::= union {[c]} |>). set (m1 := <[p := jp1]> (_nodeIDHash d)). set (d1 := d <| _nodeIDHash ::= insert p jp1 |>).
  assert (m1 !! p = Some jp1) as Hp1 by apply lookup_insert_eq.
  assert (∃ jc1, m1 !! c = Some jc1 ∧ bare jc1 = bare jc ∧ Q_PARENTS jc1 = Q_PARENTS jc ∧ Q_WAITING jc1 = Q_WAITING jc)
    as (jc1 & Hc1 & Eb1 & Ep1 & Ew1).
  { unfold m1. lookup_case p c; [|eauto]. simplify_eq. by exists jp1. }
  assert (_Status jc1 = _Status jc ∧ _final jc1 = _final jc) as [Es1 Ef1] by (unfold bare in Eb1; by injection Eb1).
  assert (wpd False (ok ← RemoveChild p c; ASSERT ok;; mret false) d1 (fun b _ => b = false)) as Hfail.
  { unfold RemoveChild. wpd_step. wpd_step. apply (wpd_getJob _ _ jp1); [done|]. rewrite bool_decide_eq_true_2 by (simpl; set_solver).
    wpd_step. eapply wpd_modJob; [done|]. wpd_steps. by apply wpd_assert. }
  unfold AddParent. wpd_step. wpd_step. apply (wpd_getJob _ _ jc1); [done|]. wpd_step. apply (wpd_getJob _ _ jp1); [done|]. simpl.
  rewrite Ef1, Es1. destruct (_final jc) eqn:Hfc; [apply wpd_ret; simpl; eapply wpd_mono; [exact Hfail|by intros b d' ->]|].
  destruct (_ && _); [apply wpd_ret; simpl; eapply wpd_mono; [exact Hfail|by intros b d' ->]|].
  assert (∀ y, y ∈ Q_PARENTS jc1 ↔ y ∈ Q_PARENTS jc) as Epc by (intros y; by rewrite Ep1).
  assert (undone d p ↔ _Status jp ≠ STATUS_DONE) as Hup by (unfold undone; rewrite Hp; naive_solver).
  assert (∀ jc2 : Job, bare jc2 = bare jc1 → Q_CHILDREN jc2 = Q_CHILDREN jc1 →
            (∀ y, y ∈ Q_PARENTS jc2 ↔ y ∈ Q_PARENTS jc1 ∨ y = p) →
            (∀ y, y ∈ Q_WAITING jc2 ↔ y ∈ Q_WAITING jc1 ∨ (y = p ∧ undone d p)) →
            built (d <| _nodeIDHash := <[c := jc2]> m1 |>)) as Hend.
  { intros jc2 Eb2 Ec2 Ep2 Ew2. apply (built_edge p c _ d jp jc B Hp Hc Hfp Hfc).
    - intros x. unfold m1. rewrite !dom_insert, !elem_of_union, !elem_of_singleton, !elem_of_dom. split; [|tauto].
      intros [->|[->|?]]; eauto.
    - intros x j' Hx. lookup_case c x.
      + injection Hx as <-. exists jc. split; [done|]. constructor; [congruence| | |].
        * intros y. rewrite Ec2. unfold m1 in Hc1. lookup_case p c; [|assert (jc1 = jc) as -> by congruence; naive_solver].
          assert (jc1 = jp1) as -> by congruence. assert (jc = jp) as -> by congruence. simpl. set_solver.
        * intros y. rewrite Ep2, Ep1. naive_solver.
        * intros y. rewrite Ew2, Ew1. naive_solver.
      + unfold m1 in Hx. lookup_case p x.
        * injection Hx as <-. exists jp. split; [done|]. constructor; simpl; [done|..]; intros y; simpl; set_solver.
        * exists j'. split; [done|]. constructor; naive_solver. }
  case_bool_decide as Hin.
  - apply wpd_ret. simpl. apply wpd_ret. intros _. replace d1 with (d <| _nodeIDHash := <[c := jc1]> m1 |>).
    + apply Hend; [done|done|..]; intros y; [set_solver|]. rewrite Ew1. split; [tauto|]. intros [?|[-> Hu]]; [done|].
      apply (b_undone _ _ _ B c jc p Hc); [by apply Epc|done].
    + unfold d1. rewrite insert_id by done. done.
  - wpd_step. eapply wpd_modJob; [done|]. wpd_step. destruct (bool_decide_reflect (_Status jp ≠ STATUS_DONE)) as [Hd|Hd].
    + wpd_step. eapply wpd_getJob; [apply lookup_insert_eq|]. wpd_step. apply wpd_assert.
      { apply bool_decide_eq_true. simpl. rewrite Ew1. intros Hpw. apply Hin, Epc. by apply (b_waits _ _ _ B c jc p Hc). }
      eapply wpd_modJob; [apply lookup_insert_eq|]. wpd_steps. simpl. apply wpd_ret. intros _.
      set (jc2 := jc1 <| Q_PARENTS ::= union {[p]} |> <| Q_WAITING ::= union {[p]} |>).
      match goal with |- built ?x => replace x with (d <| _nodeIDHash := <[c := jc2]> m1 |>) end.
      * apply Hend; [done|done|..]; intros y; subst jc2; simpl; set_solver.
      * by rewrite <- (insert_insert_eq m1 c jc2 (jc1 <| Q_PARENTS ::= union {[p]} |>)).
    + wpd_steps. simpl. apply wpd_ret. intros _.
      apply (Hend (jc1 <| Q_PARENTS ::= union {[p]} |>)); [done|done|..]; intros y; simpl; set_solver.
Qed.

(** Other changes of a node, and the categories. *)
Lemma booting_node told told' S S' n j j' d ts k : booting told S d → _nodeIDHash d !! n = Some j →
  Q_PARENTS j' = Q_PARENTS j → Q_CHILDREN j' = Q_CHILDREN j →
  (∀ p, p ∈ Q_WAITING j' → p ∈ Q_WAITING j ∧ ¬told' p n) → (∀ p, p ∈ Q_WAITING j → undone d p → p ∈ Q_WAITING j') →
  (_Status j' = STATUS_DONE ∨ _Status j' = _Status j) → boot_node (d <| _throttles := ts |>) S' n j' →
  (∀ m, m ≠ n → m ∈ S' ↔ m ∈ S) → (∀ p c, c ≠ n → told' p c → told p c) →
  (∀ x t, ts !! x = Some t → _currentJobs t = 0) → (∀ x : cstr, is_Some (_throttles d !! x) → is_Some (ts !! x)) →
  S' ⊆ dom (_nodeIDHash d) → k = Z.of_nat (size S') →
  booting told' S' (d <| _throttles := ts |> <| _nodeIDHash ::= insert n j' |> <| _numNodesDone := k |>).
Proof.
  intros B Hn Hp Hc Hwt Hwt' Hs Hb HS Htold Hts Hdom HSd ->. destruct B. constructor; simpl; try done.
  - apply (graph_wf_ext (d <| _nodeIDHash ::= insert n j' |>)); [done|done|]. by apply (graph_wf_insert d n j).
  - intros m jm Hm. lookup_case n m; [injection Hm as <-; by destruct Hb; constructor|].
    destruct (b_nodes0 m jm Hm). constructor; try done.
    + rewrite bn_counted0. apply bool_decide_ext. by rewrite HS.
    + rewrite HS by done. done.
    + intros x Hx. apply Hdom. auto.
  - intros c jc p Hc' Hpc. lookup_case n c.
    + injection Hc' as <-. apply Hwt in Hpc as [Hpc ?]. rewrite Hp. split; [by apply (b_waits0 n j p)|done].
    + destruct (b_waits0 c jc p Hc' Hpc) as [? Ht]. split; [done|]. intros Ht'. by apply Ht, Htold.
  - intros c jc p Hc' Hpc Hu.
    assert (undone d p) as Hu'.
    { destruct Hu as (jp & Hjp & Hd). simpl in Hjp. lookup_case n p; [|by exists jp]. injection Hjp as <-. exists j.
      split; [done|]. destruct Hs; congruence. }
    lookup_case n c; [|by apply (b_undone0 c jc p)]. injection Hc' as <-. rewrite Hp in Hpc. apply Hwt'; [by apply (b_undone0 n j p)|done].
  - intros f Hf. destruct (b_final0 f Hf). lookup_case n f; eauto.
  - rewrite dom_insert. set_solver.
  - tauto.
Qed.

Lemma booting_done told S d k : k = _numNodesDone d → booting told S (d <| _numNodesDone := k |>) → booting told S d.
Proof.
  intros -> []. constructor; try done.
  - by apply (graph_wf_ext (d <| _numNodesDone := _numNodesDone d |>)).
  - intros n j Hn. by destruct (b_nodes0 n j Hn); constructor.
Qed.

Lemma built_node n j j' d ts : built d → _nodeIDHash d !! n = Some j →
  Q_PARENTS j' = Q_PARENTS j → Q_CHILDREN j' = Q_CHILDREN j → Q_WAITING j' = Q_WAITING j →
  (_Status j' = STATUS_DONE ∨ _Status j' = _Status j) → boot_node (d <| _throttles := ts |>) ∅ n j' →
  (∀ x t, ts !! x = Some t → _currentJobs t = 0) → (∀ x : cstr, is_Some (_throttles d !! x) → is_Some (ts !! x)) →
  built (d <| _throttles := ts |> <| _nodeIDHash ::= insert n j' |>).
Proof.
  intros B Hn Hp Hc Hwt Hs Hb Hts Hdom. apply (booting_done _ _ _ 0); [symmetry; apply B|].
  eapply (booting_node _ _ ∅ ∅ n j j'); try done; rewrite Hwt; auto.
Qed.

Lemma SetThrottle_built x v d d' : built d → SetThrottle x v d = Done tt d' → built d'.
Proof.
  intros B [= <-]. destruct B. constructor; simpl; try done.
  - by apply (graph_wf_ext d).
  - intros n j Hn. destruct (b_nodes0 n j Hn). constructor; try done. simpl. intros y Hy. destruct (bn_cat0 y Hy).
    lookup_case x y; eauto.
  - intros y t Hy. lookup_case x y; [|eauto]. injection Hy as <-. destruct (_throttles d !! x) as [t|] eqn:Ht; [|done]. simpl. eauto.
Qed.

Lemma parse_done_built n d d' : built d → parse_done n d = Done true d' → built d'.
Proof.
  intros B. unfold parse_done, SetStatus, modJob, getJob, mbind, D_bind, modDag. simpl.
  destruct (_nodeIDHash d !! n) as [j|] eqn:Hn; [|done]. destruct (_final j) eqn:Hf; simpl; [by intros [= <-]|].
  rewrite Hn. intros [= <-]. destruct (b_nodes _ _ _ B n j Hn).
  eapply (built_node n j (j <| _Status := STATUS_DONE |>) d (_throttles d)); try done; [by left| |apply (b_throttles _ _ _ B)].
  constructor; simpl; try done; [tauto|]. by rewrite Hf.
Qed.

Lemma SetCategory_built n x d d' : built d → SetCategory n x d = Done true d' → built d'.
Proof.
  intros B. unfold SetCategory, modJob, getJob, getDag, mbind, D_bind, modDag. simpl.
  destruct (_nodeIDHash d !! n) as [j|] eqn:Hn; [|done]. destruct (_final j) eqn:Hf; [done|].
  destruct (b_nodes _ _ _ B n j Hn). pose proof (b_throttles _ _ _ B) as Ht.
  destruct (bool_decide_reflect (_throttles d !! x = None)) as [Hx|Hx]; simpl; rewrite Hn; intros [= <-].
  - eapply (built_node n j (j <| _throttleInfo := Some x |>) d (<[x := mkThrottle noThrottleSetting 0]> (_throttles d)));
      try done; [by right| | |].
    + constructor; simpl; try done. intros y [= <-]. rewrite lookup_insert_eq. eauto.
    + intros y t Hy. lookup_case x y; [by simplify_eq|eauto].
    + intros y [t Hy]. lookup_case x y; eauto.
  - eapply (built_node n j (j <| _throttleInfo := Some x |>) d (_throttles d)); try done; [by right|].
    constructor; simpl; try done. intros y [= <-]. by apply not_eq_None_Some.
Qed.

Lemma parse_built ls d d' : (∀ n j, JOB n j ∈ ls → new_job j) → built d → parse ls d = Done true d' → built d'.
Proof.
  revert d. induction ls as [|l ls IH]; intros d Hls B; simpl; [by intros [= <-]|].
  unfold mbind, D_bind. destruct (parse_line l d) as [b d1| | |] eqn:Hl; [|done..]. destruct b; [|done].
  apply IH; [intros n j Hj; apply (Hls n); by right|]. destruct l as [n j|p c|n|n x|x v]; simpl in Hl.
  - destruct (_nodeIDHash d !! n) as [j0|] eqn:Hn.
    { unfold Add, mbind, D_bind, getDag in Hl. by rewrite Hn in Hl. }
    pose proof (Add_built n j d B (Hls n j ltac:(left)) Hn) as Hw. unfold wpd in Hw. rewrite Hl in Hw. auto.
  - destruct (_nodeIDHash d !! p) as [jp|] eqn:Hp.
    2:{ unfold AddDependency, AddChild, mbind, D_bind, getJob in Hl. by rewrite Hp in Hl. }
    destruct (_nodeIDHash d !! c) as [jc|] eqn:Hc.
    + pose proof (AddDependency_built p c d jp jc B Hp Hc) as Hw. unfold wpd in Hw. rewrite Hl in Hw. auto.
    + exfalso. unfold AddDependency, AddChild, AddParent, modJob, mbind, D_bind, getJob, modDag in Hl. rewrite Hp in Hl.
      destruct (_final jp); [done|]. rewrite Hp in Hl. simpl in Hl. rewrite lookup_insert_ne in Hl by congruence. by rewrite Hc in Hl.
  - by apply (parse_done_built n d).
  - by apply (SetCategory_built n x d).
  - destruct (v <? 0); [done|]. injection Hl as <-. by eapply SetThrottle_built.
Qed.

(** ** The nodes that are done *)

Lemma boot_node_nodes d d' S n j : _final_job d' = _final_job d → _throttles d' = _throttles d → boot_node d S n j → boot_node d' S n j.
Proof. intros E1 E2 []. constructor; rewrite ?E1, ?E2; done. Qed.

Lemma booting_told n c jc told S d : booting told S d → n ∈ S → _nodeIDHash d !! c = Some jc →
  booting (fun p c' => told p c' ∨ (p = n ∧ c' = c)) S (d <| _nodeIDHash ::= insert c (jc <| Q_WAITING ::= fun s => s ∖ {[n]} |>) |>).
Proof.
  intros B HnS Hc. apply (booting_done _ _ _ (_numNodesDone d)); [done|].
  eapply (booting_node told _ S S c jc _ d (_throttles d)); try done; simpl.
  - intros p [Hp Hpn]%elem_of_difference. split; [done|]. destruct (b_waits _ _ _ B c jc p Hc Hp). set_solver.
  - intros p Hp (jp & Hjp & Hu). apply elem_of_difference. split; [done|]. intros ->%elem_of_singleton.
    destruct Hu. by apply (bn_done _ _ _ _ (b_nodes _ _ _ B n jp Hjp)).
  - by right.
  - destruct (b_nodes _ _ _ B c jc Hc). by constructor.
  - naive_solver.
  - apply B.
  - apply B.
  - apply B.
Qed.

Lemma booting_ext told told' S d : booting told S d → (∀ p c, told' p c → edge (graph_of d) p c → told p c) → booting told' S d.
Proof.
  intros B Ht. pose proof B as []. constructor; try done. intros c jc p Hc Hp. destruct (b_waits0 c jc p Hc Hp) as [Hpar Hn].
  split; [done|]. intros Ht'. apply Hn, Ht; [done|]. by apply (wf_parents _ b_graph0 c jc p Hc).
Qed.

(** The nodes and their statuses stay. *)
Definition same_nodes d d' : Prop :=
  (_jobs d' = _jobs d ∧ _final_job d' = _final_job d) ∧
  ∀ m j', _nodeIDHash d' !! m = Some j' → ∃ j, _nodeIDHash d !! m = Some j ∧ _Status j' = _Status j ∧ abort_dag_val j' = abort_dag_val j.
Lemma same_nodes_refl d : same_nodes d d.
Proof. split; [done|]. eauto. Qed.
Lemma same_nodes_trans d1 d2 d3 : same_nodes d1 d2 → same_nodes d2 d3 → same_nodes d1 d3.
Proof.
  intros [[E1 F1] H1] [[E2 F2] H2]. split; [split; congruence|]. intros m j3 Hj3. destruct (H2 m j3 Hj3) as (j2 & Hj2 & E & E').
  destruct (H1 m j2 Hj2) as (j1 & Hj1 & E0 & E0'). exists j1. split_and!; [done|congruence|congruence].
Qed.
Lemma same_nodes_insert d d' n j j' : _nodeIDHash d !! n = Some j → _Status j' = _Status j → abort_dag_val j' = abort_dag_val j →
  _jobs d' = _jobs d → _final_job d' = _final_job d → _nodeIDHash d' = <[n := j']> (_nodeIDHash d) → same_nodes d d'.
Proof.
  intros Hn Hs Ha Ej Ef Eh. split; [done|]. intros m jm Hm. rewrite Eh in Hm. lookup_case n m; [|by exists jm]. injection Hm as <-. by exists j.
Qed.

Section Boot.
Variable cfg : DagConfig.
Variable w : World.

Lemma tell_done n c told S d : booting told S d → n ∈ S → c ∈ dom (_nodeIDHash d) →
  wpd False (modJob c (fun jc => jc <| Q_WAITING ::= fun s => s ∖ {[n]} |>);;
             jc ← getJob c; when (CanSubmit jc && negb true && negb false) (StartNode cfg w c false;; mret tt)) d
    (fun _ d' => booting (fun p c' => told p c' ∨ (p = n ∧ c' = c)) S d' ∧ same_nodes d d' ∧ graph_of d' = graph_of d).
Proof.
  intros B HnS [jc Hc]%elem_of_dom. wpd_steps. eapply wpd_getJob; [apply lookup_insert_eq|]. rewrite andb_false_r. simpl. apply wpd_ret.
  split_and!; [by apply booting_told|by apply (same_nodes_insert d _ c jc (jc <| Q_WAITING ::= fun s => s ∖ {[n]} |>))|by apply (graph_of_insert d c jc)].
Qed.

Lemma boot_terminate n j S d : booting (fun p _ => p ∈ S) S d → _nodeIDHash d !! n = Some j → _Status j = STATUS_DONE → n ∉ S →
  wpd False (TerminateJob cfg w n false true) d
    (fun _ d' => booting (fun p _ => p ∈ {[n]} ∪ S) ({[n]} ∪ S) d' ∧ same_nodes d d').
Proof.
  intros B Hn Hs HnS. pose proof (b_nodes _ _ _ B n j Hn) as Hbn.
  assert (countedAsDone j = false) as Hc by (rewrite (bn_counted _ _ _ _ Hbn); by apply bool_decide_eq_false_2).
  unfold TerminateJob. apply wpd_bind, wpd_assert; [done|]. wpd_steps.
  apply (wpd_getJob _ n (TerminateSuccess j)); [apply lookup_insert_eq|]. simpl. rewrite Hc. simpl. wpd_steps.
  eapply wpd_modJob; [apply lookup_insert_eq|]. wpd_steps.
  set (j' := TerminateSuccess j <| countedAsDone := true |>).
  set (d1 := d <| _nodeIDHash ::= insert n (TerminateSuccess j) |> <| _numNodesDone ::= Z.succ |> <| _nodeIDHash ::= insert n j' |>).
  assert (d1 = d <| _throttles := _throttles d |> <| _nodeIDHash := <[n := j']> (<[n := TerminateSuccess j]> (_nodeIDHash d)) |>
                 <| _numNodesDone := Z.succ (_numNodesDone d) |>) as Ed1 by done.
  rewrite insert_insert_eq in Ed1.
  assert (booting (fun p _ => p ∈ S) ({[n]} ∪ S) d1) as B1.
  { rewrite Ed1. eapply (booting_node (fun p _ => p ∈ S) _ S ({[n]} ∪ S) n j j'); try done; simpl.
    - intros p Hp. split; [done|]. by destruct (b_waits _ _ _ B n j p Hn Hp).
    - by left.
    - destruct Hbn. constructor; simpl; try done; [tauto|symmetry; apply bool_decide_eq_true_2; set_solver|].
      rewrite <- bn_pending0, Hs. done.
    - set_solver.
    - apply B.
    - apply union_subseteq. split; [|apply B]. apply singleton_subseteq_l, elem_of_dom. eauto.
    - destruct (b_zero _ _ _ B) as (_ & _ & _ & _ & _ & ->). rewrite size_union by set_solver. rewrite size_singleton. lia. }
  assert (same_nodes d d1) as Hsame.
  { rewrite Ed1. by eapply (same_nodes_insert d _ n j j'). }
  apply wpd_assert.
  { apply Z.leb_le. destruct (b_zero _ _ _ B1) as (_ & _ & _ & _ & _ & ->).
    rewrite <- (size_list_to_set (C := gset JobID_t) (_jobs d1)) by apply B1. apply inj_le, subseteq_size.
    intros x Hx. apply elem_of_list_to_set, (wf_jobs _ (b_graph _ _ _ B1)). by apply (b_counted _ _ _ B1). }
  apply (wpd_for_each False (fun past d => booting (fun p c => p ∈ S ∨ (p = n ∧ c ∈ past)) ({[n]} ∪ S) d ∧ same_nodes d1 d ∧ graph_of d = graph_of d1)).
  - split_and!; [|apply same_nodes_refl|done]. eapply booting_ext; [exact B1|]. set_solver.
  - intros past c rest d2 El (B2 & Hs2 & Hg2). eapply wpd_mono; [apply (tell_done n c _ _ d2 B2); [set_solver|]|].
    + apply (wf_jobs _ (b_graph _ _ _ B2)). rewrite (proj1 (proj1 Hs2)). apply (wf_jobs _ (b_graph _ _ _ B1)).
      pose proof (wf_closed _ (b_graph _ _ _ B1) n c) as Hcl. unfold graph_of at 2 in Hcl. rewrite dom_fmap in Hcl. apply Hcl.
      apply edge_node. exists j'. split; [apply lookup_insert_eq|]. change (c ∈ Q_CHILDREN j). apply elem_of_set_list. rewrite El. set_solver.
    + intros [] d3 (B3 & Hs3 & Hg3). split_and!; [|by eapply same_nodes_trans|congruence].
      eapply booting_ext; [exact B3|]. intros p x. rewrite elem_of_app, list_elem_of_singleton. naive_solver.
  - intros d2 (B2 & Hs2 & Hg2). split; [|by eapply same_nodes_trans]. eapply booting_ext; [exact B2|].
    intros p c Hp He. rewrite Hg2 in He. apply edge_node in He as (jp & Hjp & Hcp). apply elem_of_union in Hp as [->%elem_of_singleton|?]; [|by left].
    right. split; [done|]. apply elem_of_set_list. unfold d1 in Hjp; simpl in Hjp. rewrite lookup_insert_eq in Hjp. by injection Hjp as <-.
Qed.

(** ** The first nodes *)

Definition startable d : gset JobID_t := dom (filter (fun kv => CanSubmit kv.2 = true) (_nodeIDHash d)).
Lemma elem_of_startable n d : n ∈ startable d ↔ ∃ j, _nodeIDHash d !! n = Some j ∧ _Status j = STATUS_READY ∧ Q_WAITING j = ∅.
Proof.
  unfold startable. rewrite elem_of_dom. unfold is_Some. setoid_rewrite map_lookup_filter_Some. simpl.
  unfold CanSubmit. setoid_rewrite andb_true_iff. setoid_rewrite bool_decide_eq_true. naive_solver.
Qed.

Lemma cnt_none (p : Job → bool) (m : gmap JobID_t Job) : (∀ n j, m !! n = Some j → p j = false) → cnt p m = 0.
Proof.
  intros H. unfold cnt. apply Z2Nat.inj_iff; [lia|done|]. rewrite Nat2Z.id. apply map_size_empty_iff, map_empty. intros n.
  apply map_lookup_filter_None. right. intros j Hj. simpl. rewrite (H n j Hj). done.
Qed.

Lemma booted S d : booting (fun p _ => p ∈ S) S d → (∀ n j, _nodeIDHash d !! n = Some j → _Status j = STATUS_DONE → n ∈ S) →
  inv cfg None (mkPending (startable d) 0) no_wait d.
Proof.
  intros B HS. pose proof B as [].
  destruct b_empty0 as (E1 & E2 & E3 & E4). destruct b_zero0 as (Z1 & Z2 & Z3 & Z4 & Z5 & Z6).
  assert (∀ n j s, _nodeIDHash d !! n = Some j → s ≠ STATUS_READY → s ≠ STATUS_DONE → s ≠ STATUS_NOT_READY → _Status j ≠ s) as Hst.
  { intros n j s Hn ? ? ? <-. destruct (bn_status _ _ _ _ (b_nodes0 n j Hn)) as [?|[?|?]]; congruence. }
  assert (∀ s, s ≠ STATUS_READY → s ≠ STATUS_DONE → s ≠ STATUS_NOT_READY → cnt (is_st s) (_nodeIDHash d) = 0) as Hcnt.
  { intros s ? ? ?. apply cnt_none. intros n j Hn. apply bool_decide_eq_false_2. eauto. }
  split_and!.
  - constructor; try done; rewrite ?E1, ?E4; try (intros []; rewrite ?E2, ?E3; done); try done.
    + left. intros n j Hn. apply (b_nodes0 n j Hn).
    + intros c jc p Hc. unfold no_wait. split.
      * intros Hp. destruct (b_waits0 c jc p Hc Hp) as [Hpar HpS]. split; [done|]. left.
        pose proof (proj1 (wf_parents _ b_graph0 c jc p Hc) Hpar) as He. apply edge_node in He as (jp & Hjp & _). exists jp. naive_solver.
      * intros [Hp [Hu|[]]]. eauto.
    + intros n j Hn. destruct (b_nodes0 n j Hn). constructor; try done. intros Hs. apply bn_pending0, bn_final0 in Hs. eauto.
    + set_solver.
    + intros post. destruct post; simpl; by rewrite ?E2, ?E3.
    + rewrite Z2. lia.
    + intros x t Ht _. rewrite (b_throttles0 x t Ht). lia.
    + intros post _. destruct post; simpl; rewrite ?E2, ?E3; simpl; lia.
  - constructor; simpl; unfold pre_place, post_place, running, skipped, posted; rewrite ?E1, ?E2, ?E3, ?E4; simpl.
    + intros n j Hn. pose proof (b_nodes0 n j Hn) as Hb. destruct Hb. constructor.
      * rewrite bn_counted0. unfold is_st. apply bool_decide_ext. split; eauto.
      * lia.
      * lia.
      * congruence.
      * intros Hs. by destruct (Hst n j STATUS_PRERUN Hn).
      * intros Hs. by destruct (Hst n j STATUS_POSTRUN Hn).
      * intros Hr Hd. destruct bn_status0 as [?|[?|Hs]]; [done|done|]. apply bn_pending0, bn_final_graph0 in Hs as [Hs _].
        apply leibniz_equiv. intros p. split; [|set_solver]. intros Hp. apply (b_waits0 n j p Hn) in Hp as [Hp _]. set_solver.
    + apply NoDup_nil_2.
    + intros n. split; [set_solver|]. intros (j & Hn & Hs & Hwt & HX). destruct HX. apply elem_of_startable. eauto.
    + apply NoDup_nil_2.
    + intros n. split; [set_solver|]. intros (j & Hn & Hs). by destruct (Hst n j STATUS_PRERUN Hn).
    + apply NoDup_nil_2.
    + intros n. split; [set_solver|]. intros (j & Hn & Hs). by destruct (Hst n j STATUS_POSTRUN Hn).
    + intros post pid n Hp. destruct post; simpl in Hp; rewrite ?E2, ?E3 in Hp; done.
    + rewrite Z6. unfold cnt. f_equal. rewrite <- (size_dom (filter _ _)). f_equal. apply leibniz_equiv. intros n. rewrite elem_of_dom. unfold is_Some.
      setoid_rewrite map_lookup_filter_Some. simpl. setoid_rewrite is_st_iff. split; [|naive_solver].
      intros Hn. pose proof (b_counted0 n Hn) as [j Hj]%elem_of_dom. exists j. split; [done|]. by apply (bn_done _ _ _ _ (b_nodes0 n j Hj)).
    + by rewrite Z1, Hcnt.
    + by rewrite Z2, Hcnt.
    + by rewrite Z4, Hcnt.
    + by rewrite Z5, Hcnt.
    + rewrite Z3, cnt_none; [done|]. intros n j Hn. apply (b_nodes0 n j Hn).
    + intros x t Ht. rewrite (b_throttles0 x t Ht), cnt_none; [done|]. intros n j Hn. unfold in_cat.
      replace (is_st STATUS_SUBMITTED j) with false; [done|]. symmetry. apply bool_decide_eq_false_2. eauto.
  - intros n Hn. by apply elem_of_startable.
Qed.

(** The loop that starts them: the nodes that are neither started nor passed are
    still those that can be. *)
Record started (past : list JobID_t) (js : list JobID_t) (f : option JobID_t) d : Prop := {
  sd_inv : ∃ X, inv cfg None X no_wait d ∧ uncounted X = 0 ∧ ∀ n, n ∈ X ↔ n ∉ past ∧ n ∈ startable d;
  sd_jobs : _jobs d = js;
  sd_final : _final_job d = f;
  sd_aborts : f = None ∨ no_aborts d;
}.

Lemma started_skip past n js f d : started past js f d → n ∉ past → n ∉ startable d → started (past ++ [n]) js f d.
Proof.
  intros [(X & I & HX0 & HX)] Hn Hs. constructor; try done. exists X. split_and!; [done|done|]. intros m. rewrite HX, elem_of_app, list_elem_of_singleton.
  naive_solver.
Qed.

Hypothesis Hw : good_world w.

Lemma started_step past n rest js f d : started past js f d → js = past ++ n :: rest → NoDup js →
  wpd True (j ← getJob n; when (CanSubmit j) (StartNode cfg w n false;; mret tt)) d (fun _ => started (past ++ [n]) js f).
Proof.
  intros Hsd Hjs Hnd. pose proof Hsd as [(X & I & HX0 & HX) Ej Ef Ha].
  assert (n ∉ past) as Hnp by (subst js; apply NoDup_app in Hnd as (_ & Hnd & _); intros Hin; by apply (Hnd n Hin); left).
  destruct (job_exists cfg None X no_wait d n I) as [j Hj]; [rewrite Ej, Hjs; set_solver|]. wpd_steps.
  apply wpd_when; intros Hcs.
  2:{ apply started_skip; [done|done|]. intros (j0 & ? & Hs & Hwt)%elem_of_startable. simplify_eq. unfold CanSubmit in Hcs.
      by rewrite Hs, Hwt in Hcs. }
  assert (n ∈ X) as HnX.
  { apply HX. split; [done|]. apply elem_of_startable. exists j. unfold CanSubmit in Hcs. apply andb_true_iff in Hcs as [H1 H2].
    by apply bool_decide_eq_true in H1, H2. }
  set (A := f ≠ None).
  destruct (inv_undefer cfg A n X d I HnX) as [j0 H]. apply wpd_bind.
  eapply wpd_mono; [eapply (StartNode_spec cfg w Hw); [exact H|intros HA; by destruct Ha]|].
  intros b d' [_ [I' V]]. apply wpd_ret. constructor.
  - exists (starting X n). split_and!; [done|done|]. intros m. rewrite elem_of_starting, HX, elem_of_app, list_elem_of_singleton.
    split.
    + intros [[Hmp Hms] Hne]. split; [tauto|]. destruct I' as (_ & _ & I'). apply elem_of_startable, (I' m).
      rewrite elem_of_starting, HX. tauto.
    + intros [Hmp (jm & Hjm & Hs & Hwt)%elem_of_startable]. assert (m ≠ n) as Hne by tauto. split; [|done]. split; [tauto|].
      destruct (e_nodes _ _ _ _ V m jm Hjm) as (j1 & Hj1 & _ & Hwt1 & _ & Hr). apply elem_of_startable. exists j1.
      split_and!; [done| |congruence]. destruct (Hr Hne Hs) as [?|Hf]; [done|].
      assert (final_status d' = final_status d) as Efs by (apply V; [unfold A; congruence|congruence]).
      rewrite (final_status_hash d' m jm), (final_status_hash d m j1) in Efs; [congruence|done|done|by rewrite (e_final _ _ _ _ V)|done].
  - by rewrite (e_jobs _ _ _ _ V).
  - by rewrite (e_final _ _ _ _ V).
  - destruct Ha as [?|Ha]; [by left|]. right. by eapply no_aborts_evolves.
Qed.

(** The loop over the nodes that are done. *)
Lemma boot_done d : built d →
  wpd True (for_each (_jobs d) (fun n => j ← getJob n; when (bool_decide (_Status j = STATUS_DONE)) (TerminateJob cfg w n false true))) d
    (fun _ d' => same_nodes d d' ∧ ∃ S, booting (fun p _ => p ∈ S) S d' ∧
       ∀ n j, _nodeIDHash d' !! n = Some j → _Status j = STATUS_DONE → n ∈ S).
Proof.
  intros B. apply (wpd_for_each True (fun past d' => same_nodes d d' ∧ ∃ S, booting (fun p _ => p ∈ S) S d' ∧
    (∀ n, n ∈ S → n ∈ past) ∧ ∀ n j, n ∈ past → _nodeIDHash d' !! n = Some j → _Status j = STATUS_DONE → n ∈ S)).
  - split; [apply same_nodes_refl|]. exists ∅. split_and!; [|set_solver|set_solver]. eapply booting_ext; [exact B|set_solver].
  - intros past n rest d1 El (Hsame & S & B1 & HSp & HS).
    assert (n ∉ past) as Hnp.
    { pose proof (b_jobs _ _ _ B) as Hnd. rewrite El in Hnd. apply NoDup_app in Hnd as (_ & Hnd & _). intros Hin. by apply (Hnd n Hin); left. }
    assert (n ∈ dom (_nodeIDHash d1)) as [j Hj]%elem_of_dom.
    { apply (wf_jobs _ (b_graph _ _ _ B1)). rewrite (proj1 (proj1 Hsame)), El. set_solver. }
    wpd_steps. apply wpd_when; intros Hs; [apply bool_decide_eq_true in Hs|apply bool_decide_eq_false in Hs].
    + eapply (wpd_weaken False); [done|]. eapply wpd_mono; [apply (boot_terminate n j S); [done|done|done|auto]|].
      intros [] d2 [B2 Hs2]. split; [by eapply same_nodes_trans|]. exists ({[n]} ∪ S). split_and!; [done|set_solver|].
      intros m jm Hm Hjm Hd. destruct (proj2 Hs2 m jm Hjm) as (jm0 & Hjm0 & E & _).
      apply elem_of_app in Hm as [Hm|Hm]; [|set_solver]. apply elem_of_union. right. apply (HS m jm0); [done|done|congruence].
    + split; [done|]. exists S. split_and!; [done|set_solver|]. intros m jm Hm Hjm Hd.
      apply elem_of_app in Hm as [Hm|Hm]; [by apply (HS m jm)|]. apply list_elem_of_singleton in Hm as ->. congruence.
  - intros d1 (Hsame & S & B1 & HSp & HS). split; [done|]. exists S. split; [done|]. intros n j Hn Hd. apply (HS n j); [|done|done].
    rewrite <- (proj1 (proj1 Hsame)). apply (wf_jobs _ (b_graph _ _ _ B1)), elem_of_dom. eauto.
Qed.

Lemma Bootstrap_spec events d : built d → _final_job d = None ∨ no_aborts d →
  wpd True (Bootstrap cfg w false events) d (fun b d' => b = true ∧ inv cfg None nothing no_wait d').
Proof.
  intros B Ha. unfold Bootstrap. wpd_steps.
  eapply (wpd_mono _ _ _ (fun _ d' => same_nodes d d' ∧ ∃ S, booting (fun p _ => p ∈ S) S d' ∧
    ∀ n j, _nodeIDHash d' !! n = Some j → _Status j = STATUS_DONE → n ∈ S)).
  - by apply boot_done.
  - intros [] d1 (Hsame & S & B1 & HS). wpd_steps. simpl. wpd_steps. simpl. wpd_steps.
    pose proof (booted S d1 B1 HS) as I1.
    apply (wpd_for_each True (fun past => started past (_jobs d1) (_final_job d1))).
    + constructor; [|done|done|].
      * exists (mkPending (startable d1) 0). split_and!; [done|done|]. set_solver.
      * rewrite (proj2 (proj1 Hsame)). destruct Ha as [?|Ha]; [by left|]. right. intros n j Hn. destruct (proj2 Hsame n j Hn) as (j0 & Hj0 & _ & ->). eauto.
    + intros past n rest d2 El Hsd. by eapply started_step; [|exact El|apply B1].
    + intros d2 [(X & I & HX0 & HX) Ej Ef _]. apply wpd_ret. split; [done|]. replace nothing with X; [done|].
      destruct X as [U k]. simpl in HX0. subst k. unfold nothing. f_equal. apply leibniz_equiv. intros n. split; [|set_solver].
      intros Hn. assert (n ∈ mkPending U 0) as [Hnj Hn']%HX by done. destruct Hnj. rewrite <- Ej.
      apply elem_of_startable in Hn' as (j & Hj & _). apply (wf_jobs _ (f_graph _ _ _ (proj1 I))), elem_of_dom. eauto.
Qed.
End Boot.
