(* ===== verification/DagSteps.v ===== *)
(** * DagSteps

    DAGMan as a state machine: the lines of the DAG file build the state,
    [Bootstrap] starts it, and the timer, the events of the log and the ends of
    scripts move it.  The theorems hold in every state that is reached. *)
From stdpp Require Import base gmap list sorting relations sets.
From Stdlib Require Import ZArith Lia.
From S2P Require Import Prelude PriorityList Dag DagCycle DagInv DagSafe DagStart DagRun DagMain DagBuild.
Open Scope Z_scope.
Open Scope condor_scope.

(** ** Steps

    [condor_event_timer] is [Submit], the events of the log and [End], in this
    order; scripts end between its runs.  Here they may come in any order. *)
Inductive action :=
| Submit
| JobEvent (n : JobID_t) (e : ULogEvent)
| LogEvent
| ScriptEnd (post : bool) (pid status : Z)
| End_.

Definition perform (cfg : DagConfig) (w : World) (a : action) : D unit :=
  match a with
  | Submit => SubmitReadyJobs cfg w;; mret tt
  | JobEvent n e => ProcessOneEvent cfg w false n e
  | LogEvent =>
      d ← getDag;
      match userlog d with
      | [] => mret tt
      | (n, e) :: l => modDag (fun d => d <| userlog := l |>);; ProcessOneEvent cfg w false n e
      end
  | ScriptEnd post pid status => ScriptReaper cfg w post pid status
  | End_ => timer_end cfg w
  end.

(** The events of a node with one proc, as [CheckEvents] accepts them: a submit
    event comes once after the submission, the end of the job once after it.  The
    events that DAGMan writes itself come from the log. *)
Definition job_event (d : Dag) (n : JobID_t) (e : ULogEvent) : Prop :=
  match e with
  | SubmitEvent _ => ∃ j, _nodeIDHash d !! n = Some j ∧ _Status j = STATUS_SUBMITTED ∧ _queuedNodeJobProcs j = 0
  | JobAbortedEvent proc => queued n d ∧ 0 ≤ proc
  | JobTerminatedEvent _ _ _ _ => queued n d
  | JobHeldEvent proc | JobReleasedEvent proc => is_Some (_nodeIDHash d !! n) ∧ 0 ≤ proc
  | JobIdleEvent | JobRunEvent | ExecutableErrorEvent | OtherEvent => is_Some (_nodeIDHash d !! n)
  | PostScriptTerminatedEvent _ _ _ | PreSkipEvent => False
  end.
Definition enabled (a : action) (d : Dag) : Prop :=
  match a with
  | JobEvent n e => job_event d n e
  | ScriptEnd post pid _ => is_Some (_scriptPidTable (scriptQ post d) !! pid)
  | Submit | LogEvent | End_ => True
  end.

(** The states that are reached.  The conditions are: the lines of the DAG file are parsed
    without an error, its nodes are new, and it has no FINAL node or no ABORT-DAG-ON
    line; DAGMan starts without recovery; the world is good ([good_world]), which may
    be another one in each step; and each step is enabled, in particular nodes have jobs
    with one proc. *)
Inductive reachable (cfg : DagConfig) : Dag → Prop :=
| reach_start w ls d d1 :
    good_world w → (∀ n j, JOB n j ∈ ls → new_job j) → parse ls Dag_new = Done true d →
    _final_job d = None ∨ no_aborts d → Bootstrap cfg w false [] d = Done true d1 → reachable cfg d1
| reach_step w a d d' :
    reachable cfg d → good_world w → enabled a d → perform cfg w a d = Done tt d' → reachable cfg d'.

Lemma perform_spec cfg w a d : good_world w → inv cfg None nothing no_wait d → enabled a d →
  wpd True (perform cfg w a) d (fun _ => inv cfg None nothing no_wait).
Proof.
  intros Hw I He.
  assert (∀ n, n ∉ nothing) as Hn0 by (intros n; unfold elem_of, pending_elem_of; set_solver).
  assert (∀ (m : D unit) d1, wpd True m d1 (fun _ => finished cfg nothing d) → wpd True m d1 (fun _ => inv cfg None nothing no_wait)) as Hfin.
  { intros m d1 Hm. eapply wpd_mono; [exact Hm|]. by intros [] d' [? _]. }
  destruct a as [|n e| |post pid status|]; simpl in *.
  - apply wpd_bind. eapply wpd_mono; [by apply SubmitReadyJobs_spec|]. intros z d' [? _]. by apply wpd_ret.
  - destruct e; simpl in He; simpl; try done.
    + destruct He as (j & Hn & Hs & Hq). apply wpd_bind.
      eapply wpd_mono; [by apply (ProcessSubmitEvent_spec cfg w n j)|]. intros [] d' [I' [j' Hj']].
      eapply wpd_mono; [by eapply ProcessIsIdleEvent_spec|]. by intros [] d2 [? _].
    + destruct He. by apply Hfin, ProcessAbortEvent_spec.
    + by apply Hfin, ProcessTerminatedEvent_spec.
    + destruct He as [j Hn]. eapply wpd_mono; [by eapply ProcessIsIdleEvent_spec|]. by intros [] d2 [? _].
    + destruct He as [j Hn]. eapply wpd_mono; [by eapply ProcessNotIdleEvent_spec|]. by intros [] d2 [? _].
    + destruct He as [[j Hn] Hp]. apply wpd_bind. eapply wpd_mono; [by eapply ProcessHeldEvent_spec|]. intros [] d' [I' [j' Hj']].
      eapply wpd_mono; [by eapply ProcessIsIdleEvent_spec|]. by intros [] d2 [? _].
    + destruct He as [[j Hn] Hp]. by eapply ProcessReleasedEvent_spec.
  - wpd_steps. destruct (userlog d) as [|[n e] l] eqn:Hl; [done|]. wpd_steps.
    destruct (f_log _ _ _ (proj1 I) (n, e)) as [E|(nm & rv & sig & E)]; [rewrite Hl; left|..]; simpl in E; subst e.
    + by apply Hfin, (PreSkipEvent_spec cfg w Hw).
    + by apply Hfin, (ProcessPostTermEvent_spec cfg w Hw).
  - destruct He as [n Hn]. by apply Hfin, (ScriptReaper_spec cfg w Hw post pid status n).
  - by apply Hfin, timer_end_spec.
Qed.

Lemma reachable_inv cfg d : reachable cfg d → inv cfg None nothing no_wait d.
Proof.
  induction 1 as [w ls d d1 Hw Hls Hp Ha Hb|w a d d' Hr IH Hw He Hs].
  - pose proof (Bootstrap_spec cfg w Hw [] d (parse_built ls Dag_new d Hls built_new Hp) Ha) as H.
    unfold wpd in H. rewrite Hb in H. apply H.
  - pose proof (perform_spec cfg w a d Hw IH He) as H. unfold wpd in H. by rewrite Hs in H.
Qed.

(** A node that waits for nothing has parents that are done. *)
Lemma parents_done cfg X d n j p : inv cfg None X no_wait d → _nodeIDHash d !! n = Some j → Q_WAITING j = ∅ → p ∈ Q_PARENTS j →
  ∃ jp, _nodeIDHash d !! p = Some jp ∧ _Status jp = STATUS_DONE.
Proof.
  intros I Hn Hwt Hp. destruct (parent_exists cfg None X no_wait d n j p I Hn Hp) as [jp Hjp]. exists jp. split; [done|].
  destruct (decide (_Status jp = STATUS_DONE)); [done|]. exfalso.
  assert (p ∈ Q_WAITING j) as Hin; [|rewrite Hwt in Hin; set_solver].
  apply (f_waits _ _ _ (proj1 I) n j p Hn). split; [done|]. left. by exists jp.
Qed.




(** ** Theorems *)

(** C1. DAGMan does not abort and every handler terminates.  In a state that is
    reached from a parsed DAG file, the submission of ready nodes, an event of a
    node, an event of the log, the end of a script and the end of the timer end
    normally, in a state that is reached again, or leave the process through
    [DC_Exit]: no ASSERT fails, those of the table of node IDs included, no EXCEPT is
    raised, and no recursion goes on for ever, although scripts and submissions may fail
    and be retried and the DAG may be aborted or halted at any time.

    The conditions, which [reachable], [good_world] and [enabled] state: the nodes of the
    file are new and it does not have both a FINAL node and an ABORT-DAG-ON line (with
    both, DAGMan can abort); there is no recovery; log files can be monitored, a POST
    script event is written at the latest in the third attempt and a PRE_SKIP event always;
    a new script gets a process ID that no running script has, and a new job a cluster
    that is not -1 and not in the table of node IDs; jobs have one proc: the submit event
    of a node comes once after its submission, and its end (terminated or
    aborted) once after that, while other events are for nodes of the DAG; only a
    script that runs ends.  The node of an event has been looked up, and its event
    checked, before. *)
Theorem dagman_safe cfg w a d : reachable cfg d → good_world w → enabled a d →
  (∃ d', perform cfg w a d = Done tt d' ∧ reachable cfg d') ∨ (∃ code d', perform cfg w a d = Exit code d').
Proof.
  intros Hr Hw He. pose proof (perform_spec cfg w a d Hw (reachable_inv cfg d Hr) He) as H. unfold wpd in H.
  destruct (perform cfg w a d) as [[] d'|code d'| |] eqn:E; [left|right; eauto|done..].
  exists d'. split; [done|]. by eapply reach_step.
Qed.

(** C23. [Bootstrap] without recovery either ends with success in a state that is
    [reachable], or leaves the process through [DC_Exit]; it does not abort, and it
    terminates.  The DAG is parsed without an error from lines with new nodes, and has no
    FINAL node or no ABORT-DAG-ON line (with both it can fail); log files can be
    monitored, events are written at the latest in the third attempt (PRE_SKIP always),
    a new script gets a process ID that no running script has, and a new job a cluster
    that is not -1 and not in the table of node IDs. *)
Theorem bootstrap_safe cfg w ls d : good_world w → (∀ n j, JOB n j ∈ ls → new_job j) → parse ls Dag_new = Done true d →
  _final_job d = None ∨ no_aborts d →
  (∃ d', Bootstrap cfg w false [] d = Done true d' ∧ reachable cfg d') ∨ (∃ code d', Bootstrap cfg w false [] d = Exit code d').
Proof.
  intros Hw Hls Hp Ha. pose proof (Bootstrap_spec cfg w Hw [] d (parse_built ls Dag_new d Hls built_new Hp) Ha) as H.
  unfold wpd in H. destruct (Bootstrap cfg w false [] d) as [b d'|code d'| |] eqn:E; [left|right; eauto|done..].
  destruct H as [-> _]. exists d'. split; [done|]. by eapply (reach_start cfg w ls d).
Qed.

(** C4. No node is lost and no counter drifts.  In every state that is reached the
    counters count the nodes by their statuses, the ready queue holds each node that
    is ready and waits for nothing once, and no other, and each node whose PRE or
    POST script is to run is once in one place: the queue of waiting scripts, the
    table of running ones, or the log.  The states are those that are reached under the
    conditions of [dagman_safe]: a DAG file with new nodes and without both a FINAL
    node and an ABORT-DAG-ON line, no recovery, a good world, jobs with one proc with one
    submit event and one end, and ends of running scripts only.  (For jobs with two
    procs it does not hold: [two_procs_failure_lost].) *)
Theorem dagman_counters cfg d : reachable cfg d →
  let num s := Z.of_nat (size (filter (fun kv => _Status kv.2 = s) (_nodeIDHash d))) in
  let place s (l : list JobID_t) := NoDup l ∧ ∀ n, n ∈ l ↔ ∃ j, _nodeIDHash d !! n = Some j ∧ _Status j = s in
  (_numNodesDone d = num STATUS_DONE ∧ _numNodesFailed d = num STATUS_ERROR ∧ _numJobsSubmitted d = num STATUS_SUBMITTED ∧
   _preRunNodeCount d = num STATUS_PRERUN ∧ _postRunNodeCount d = num STATUS_POSTRUN) ∧
  NoDup (items (_readyQ d)) ∧
  (∀ n, n ∈ items (_readyQ d) ↔ ∃ j, _nodeIDHash d !! n = Some j ∧ _Status j = STATUS_READY ∧ Q_WAITING j = ∅) ∧
  place STATUS_PRERUN (pre_place d) ∧ place STATUS_POSTRUN (post_place d).
Proof.
  intros Hr num place. pose proof (reachable_inv cfg d Hr) as (_ & C & _). destruct C. simpl in *.
  assert (∀ s, num s = cnt (is_st s) (_nodeIDHash d)) as Hnum.
  { intros s. unfold num, cnt. do 2 f_equal. apply map_filter_ext. intros n j _. simpl. by rewrite is_st_iff. }
  split_and!; rewrite ?Hnum; try done; [lia|..]. intros n. rewrite c_ready. split; [naive_solver|]. intros (j & ? & ? & ?).
  exists j. split_and!; [done..|]. unfold elem_of, pending_elem_of. set_solver.
Qed.

(** C5. The order of the DAG is kept: a node that is in the ready queue, runs its PRE
    script, is submitted, runs its POST script or has failed has only parents that
    are done. *)
Theorem dagman_order cfg d n j p : reachable cfg d → _nodeIDHash d !! n = Some j → p ∈ Q_PARENTS j →
  n ∈ items (_readyQ d) ∨ _Status j ∈ [STATUS_PRERUN; STATUS_SUBMITTED; STATUS_POSTRUN; STATUS_ERROR] →
  ∃ jp, _nodeIDHash d !! p = Some jp ∧ _Status jp = STATUS_DONE.
Proof.
  intros Hr Hn Hp Hs. pose proof (reachable_inv cfg d Hr) as I. apply (parents_done cfg nothing d n j p I Hn); [|done].
  destruct Hs as [Hs|Hs].
  - apply (c_ready _ _ _ (proj1 (proj2 I))) in Hs as (j' & Hj' & _ & Hwt & _). simpl in *. congruence.
  - apply (l_waiting _ (local_hand cfg None nothing no_wait d n j I Hn)); intros E; rewrite E in Hs; set_solver.
Qed.

(** C18. The limits hold: in every state that is reached there are at most [-maxjobs]
    submitted nodes, at most [MAXJOBS] of a category, at most [-maxpre] and
    [-maxpost] running scripts, and no node has been retried more often than its
    RETRY line says. *)
Theorem dagman_limits cfg d : reachable cfg d →
  (0 < _maxJobsSubmitted cfg → _numJobsSubmitted d ≤ _maxJobsSubmitted cfg) ∧
  (∀ c t, _throttles d !! c = Some t → 0 ≤ _maxJobs t →
     Z.of_nat (size (filter (fun kv => _Status kv.2 = STATUS_SUBMITTED ∧ _throttleInfo kv.2 = Some c) (_nodeIDHash d))) ≤ _maxJobs t) ∧
  (0 < _maxPreScripts cfg → Z.of_nat (size (_scriptPidTable (_preScriptQ d))) ≤ _maxPreScripts cfg) ∧
  (0 < _maxPostScripts cfg → Z.of_nat (size (_scriptPidTable (_postScriptQ d))) ≤ _maxPostScripts cfg) ∧
  (∀ n j, _nodeIDHash d !! n = Some j → 0 ≤ retries j ≤ retry_max j).
Proof.
  intros Hr. pose proof (reachable_inv cfg d Hr) as I. pose proof I as (F & C & _). destruct F. split_and!.
  - intros H. pose proof (f_max_jobs ltac:(lia)). lia.
  - intros c t Ht Hm. assert (isSet t = true) as Hset by (unfold isSet, noThrottleSetting; apply negb_true_iff, Z.eqb_neq; lia).
    pose proof (f_max_cat c t Ht Hset) as Hle. rewrite (c_cat _ _ _ C c t Ht) in Hle. unfold cnt in Hle.
    replace (filter (fun kv => _Status kv.2 = STATUS_SUBMITTED ∧ _throttleInfo kv.2 = Some c) (_nodeIDHash d))
      with (filter (fun kv => in_cat c kv.2 = true) (_nodeIDHash d)); [simpl in *; lia|].
    apply map_filter_ext. intros n j _. simpl. unfold in_cat. by rewrite andb_true_iff, is_st_iff, bool_decide_eq_true.
  - intros H. pose proof (f_running false). pose proof (f_max_scripts false ltac:(simpl; lia)). simpl in *. lia.
  - intros H. pose proof (f_running true). pose proof (f_max_scripts true ltac:(simpl; lia)). simpl in *. lia.
  - intros n j Hn. by apply (inv_retries cfg None nothing no_wait d n).
Qed.

