(* ===== verification/DagExamples.v ===== *)
(** * DagExamples

    A DAG of two nodes, from its file to its end, in which the hypotheses of the
    theorems of [DagCycle] and [DagSteps] hold, and runs in which DAGMan goes
    wrong: nodes with several procs, and a script that cannot be started. *)
From stdpp Require Import base gmap list sorting relations sets strings.
From Stdlib Require Import ZArith Lia.
From S2P Require Import Prelude PriorityList Dag DagCycle DagInv DagSafe DagStart DagRun DagMain DagBuild DagSteps.
Open Scope Z_scope.
Open Scope condor_scope.

(** The first attempt to write to a log fails, and a node is not submitted again
    while its cluster is in the table. *)
Definition new_cluster (d : Dag) (n : JobID_t) : option Z :=
  match _condorIDHash d !! (500 + n) with None => if n =? -501 then None else Some (500 + n) | Some _ => None end.
Lemma new_cluster_new d n c : new_cluster d n = Some c → c ≠ -1 ∧ _condorIDHash d !! c = None.
Proof. unfold new_cluster. destruct (_ !! _) eqn:E; [done|]. destruct (Z.eqb_spec n (-501)); [done|]. intros [= <-]. split; [lia|done]. Qed.

(** Two PRE and POST scripts at a time, three submitted nodes. *)
Definition ex_cfg : DagConfig := mkConfig 3 0 2 2 100 false false true false 5 6.
Definition ex_world : World :=
  mkWorld (fun d n post => match _scriptPidTable (scriptQ post d) !! (100 + n) with None => Created (100 + n) | Some _ => NoDirectory end)
    (fun _ _ => true) (fun _ _ => true) new_cluster (fun _ _ => true) (fun _ _ k => (0 <? k)%nat) 3 0 false 1.
Lemma ex_world_good : good_world ex_world.
Proof.
  constructor; try done.
  - intros d n. exists 1%nat. split; [lia|done].
  - apply new_cluster_new.
  - intros d n post pid. simpl. destruct (_ !! _) eqn:E; [done|]. by intros [= <-].
Qed.

(** A PRE script, then a node with a POST script, a retry and a category. *)
Definition ex_pre : Job := Job_new <| _scriptPre := Some Script_new |>.
Definition ex_post : Job := Job_new <| _scriptPost := Some Script_new |> <| retry_max := 1 |>.
Definition ex_lines : list line :=
  [JOB 0 ex_pre; JOB 1 ex_post; PARENT_CHILD 0 1; CATEGORY 1 (L "small"); MAXJOBS (L "small") 1].
Lemma ex_new n j : JOB n j ∈ ex_lines → new_job j.
Proof.
  intros H. repeat (apply elem_of_cons in H as [H|H]; [try done; injection H as -> ->; unfold new_job; simpl; split_and!; auto; lia|]).
  by apply not_elem_of_nil in H.
Qed.

Definition state {A} (o : outcome A) : Dag := match o with Done _ d => d | _ => Dag_new end.
Definition ex_step (d : Dag) (a : action) : Dag := state (perform ex_cfg ex_world a d).
Definition ex_built : Dag := state (parse ex_lines Dag_new).
Definition ex_booted : Dag := state (Bootstrap ex_cfg ex_world false [] ex_built).
(** The PRE script of node 0 ends, the node is submitted and its job ends: node 1 is
    ready. *)
Definition ex_first : list action :=
  [ScriptEnd false 100 0; Submit; JobEvent 0 (SubmitEvent true); JobEvent 0 (JobTerminatedEvent 0 true 0 0)].
Definition ex_half : Dag := foldl ex_step ex_booted ex_first.
Definition ex_submitted : Dag := ex_step ex_half Submit.

Lemma ex_booted_reachable : reachable ex_cfg ex_booted.
Proof.
  apply (reach_start ex_cfg ex_world ex_lines ex_built); [apply ex_world_good|apply ex_new|by vm_compute|left; by vm_compute|by vm_compute].
Qed.
Lemma ex_reach d a : reachable ex_cfg d → enabled a d → perform ex_cfg ex_world a d = Done tt (ex_step d a) → reachable ex_cfg (ex_step d a).
Proof. intros Hr He Hs. by apply (reach_step ex_cfg ex_world a d); [|apply ex_world_good|..]. Qed.
Ltac ex_run := repeat (apply ex_reach; [|vm_compute; eauto 10|vm_compute; reflexivity]).
Lemma ex_half_reachable : reachable ex_cfg ex_half.
Proof. unfold ex_half, ex_first, foldl. ex_run. apply ex_booted_reachable. Qed.
Lemma ex_submitted_reachable : reachable ex_cfg ex_submitted.
Proof. unfold ex_submitted. ex_run. apply ex_booted_reachable. Qed.

(** ** Witnesses *)

Lemma dagman_safe_witness :
  (∃ d', perform ex_cfg ex_world (ScriptEnd false 100 256) ex_booted = Done tt d' ∧ reachable ex_cfg d') ∨
  (∃ code d', perform ex_cfg ex_world (ScriptEnd false 100 256) ex_booted = Exit code d').
Proof.
  apply (dagman_safe ex_cfg ex_world (ScriptEnd false 100 256) ex_booted);
    [apply ex_booted_reachable|apply ex_world_good|vm_compute; eauto].
Defined.

Lemma bootstrap_safe_witness :
  (∃ d', Bootstrap ex_cfg ex_world false [] ex_built = Done true d' ∧ reachable ex_cfg d') ∨
  (∃ code d', Bootstrap ex_cfg ex_world false [] ex_built = Exit code d').
Proof.
  apply (bootstrap_safe ex_cfg ex_world ex_lines ex_built); [apply ex_world_good|apply ex_new|by vm_compute|left; by vm_compute].
Defined.

Lemma dagman_counters_witness :
  _numNodesDone ex_half = 1 ∧ Z.of_nat (size (filter (fun kv => _Status kv.2 = STATUS_DONE) (_nodeIDHash ex_half))) = 1.
Proof.
  pose proof (dagman_counters ex_cfg ex_half ex_half_reachable) as [[H _] _]. split; [by vm_compute|]. rewrite <- H. by vm_compute.
Defined.

Lemma dagman_order_witness : ∃ jp, _nodeIDHash ex_submitted !! 0 = Some jp ∧ _Status jp = STATUS_DONE.
Proof.
  destruct (_nodeIDHash ex_submitted !! 1) as [j|] eqn:Hj; [|by vm_compute in Hj].
  apply (dagman_order ex_cfg ex_submitted 1 j 0); [apply ex_submitted_reachable|done|..]; vm_compute in Hj; injection Hj as <-.
  - by apply (bool_decide_unpack _); vm_compute.
  - right. by apply (bool_decide_unpack _); vm_compute.
Defined.

Lemma dagman_limits_witness : _numJobsSubmitted ex_submitted ≤ _maxJobsSubmitted ex_cfg.
Proof. destruct (dagman_limits ex_cfg ex_submitted ex_submitted_reachable) as [H _]. exact (H eq_refl). Defined.


(** A cycle that no node without parents reaches. *)
Definition ex_cycle : Dag :=
  state (parse [JOB 0 Job_new; JOB 1 Job_new; JOB 2 Job_new; PARENT_CHILD 1 2; PARENT_CHILD 2 1] Dag_new).
Lemma ex_cycle_built : built ex_cycle.
Proof.
  apply (parse_built [JOB 0 Job_new; JOB 1 Job_new; JOB 2 Job_new; PARENT_CHILD 1 2; PARENT_CHILD 2 1] Dag_new);
    [|apply built_new|by vm_compute].
  intros n j H. repeat (apply elem_of_cons in H as [H|H]; [try done; injection H as -> ->; unfold new_job; simpl; split_and!; auto; lia|]).
  by apply not_elem_of_nil in H.
Qed.
Lemma isCycle_correct_witness : ∃ b d', isCycle ex_cycle = Done b d' ∧ (b = true ↔ cyclic (graph_of ex_cycle)).
Proof.
  destruct (isCycle_correct ex_cycle) as (b & d' & H1 & H2 & _); [apply ex_cycle_built| |eauto].
  intros n j Hn. apply (b_nodes _ _ _ ex_cycle_built n j Hn).
Defined.

(** ** Runs that go wrong *)

(** A node with two procs, its retries, and a job that fails before one that
    succeeds. *)
Definition two_procs (retry : Z) (last : ULogEvent) : D unit :=
  parse [JOB 0 (Job_new <| retry_max := retry |>)] ≫= fun _ =>
  Bootstrap ex_cfg ex_world false [];; SubmitReadyJobs ex_cfg ex_world;;
  for_each [SubmitEvent true; SubmitEvent true; JobTerminatedEvent 0 true 1 0; last] (ProcessOneEvent ex_cfg ex_world false 0).

(** A failure is not counted.  When the first proc of a node with two procs fails
    and the last one ends with success, the node has failed, and nothing is left to
    run, but [_numNodesFailed] is 0: [DoneFailed] does not hold, and [DoneCycle] holds
    for a DAG of one node that has no cycle, so that DAGMan looks for a cycle and
    ends with an error instead of a failed node. *)
Theorem two_procs_failure_lost : ∃ d j, two_procs 0 (JobTerminatedEvent 1 true 0 0) Dag_new = Done tt d ∧
  _nodeIDHash d !! 0 = Some j ∧ _Status j = STATUS_ERROR ∧ _numNodesFailed d = 0 ∧ FinishedRunning true d = true ∧
  DoneFailed true d = false ∧ DoneCycle true d = true ∧ ∃ d', isCycle d = Done false d'.
Proof. eexists _, _. split; [vm_compute; reflexivity|]. split; [vm_compute; reflexivity|]. split_and!; [by vm_compute..|]. eexists. vm_compute. reflexivity. Qed.

(** A retry while procs are queued.  When the first proc of a node with retries
    fails, the node is restarted although its other proc is still in the queue; when
    this one is removed the node is restarted again and is twice in the ready queue,
    and the next [SubmitReadyJobs] finds a node that is not ready and aborts. *)
Theorem two_procs_retry_aborts : ∃ d, two_procs 3 (JobAbortedEvent 1) Dag_new = Done tt d ∧
  items (_readyQ d) = [0; 0] ∧ SubmitReadyJobs ex_cfg ex_world d = Abort.
Proof. eexists. split; [vm_compute; reflexivity|]. split; by vm_compute. Qed.

(** One PRE script at a time; the script of node 1 cannot be started. *)
Definition one_script : DagConfig := mkConfig 3 0 1 1 100 false false true false 5 6.
Definition no_script : World :=
  mkWorld (fun d n post => if decide (n = 1) then NoDirectory else BackgroundRun ex_world d n post)
    (fun _ _ => true) (fun _ _ => true) new_cluster (fun _ _ => true) (fun _ _ k => (0 <? k)%nat) 3 0 false 1.
Lemma no_script_good : good_world no_script.
Proof.
  constructor; try done; try apply ex_world_good. intros d n post pid. simpl. case_decide; [done|]. apply (g_pid _ ex_world_good).
Qed.
Definition three_lines : list line := [JOB 0 ex_pre; JOB 1 ex_pre; JOB 2 ex_pre].
Definition three_built : Dag := state (parse three_lines Dag_new).
Definition three_booted : Dag := state (Bootstrap one_script no_script false [] three_built).
Definition stuck : Dag := state (perform one_script no_script (ScriptEnd false 100 256) three_booted).

(** A script that cannot be started stops the others.  When a PRE script ends and
    the next waiting one cannot be started, the one after it is not tried: no script
    runs, one waits, nothing is submitted, ready or in the log, no script will end,
    and neither the timer nor the log changes the state any more.  DAGMan is not
    finished and waits for ever. *)
Theorem waiting_scripts_stuck : reachable one_script stuck ∧
  _waitingQueue (_preScriptQ stuck) = [2] ∧ _scriptPidTable (_preScriptQ stuck) = ∅ ∧ _scriptPidTable (_postScriptQ stuck) = ∅ ∧
  _numJobsSubmitted stuck = 0 ∧ FinishedRunning true stuck = false ∧
  (∀ a, a ∈ [Submit; LogEvent; End_] → perform one_script no_script a stuck = Done tt stuck).
Proof.
  split.
  - apply (reach_step one_script no_script (ScriptEnd false 100 256) three_booted); [|apply no_script_good|vm_compute; eauto|by vm_compute].
    apply (reach_start one_script no_script three_lines three_built); [apply no_script_good| |by vm_compute|left; by vm_compute|by vm_compute].
    intros n j H. repeat (apply elem_of_cons in H as [H|H]; [try done; injection H as -> ->; unfold new_job; simpl; split_and!; auto; lia|]).
    by apply not_elem_of_nil in H.
  - split_and!; [by vm_compute..|]. intros a Ha. repeat (apply elem_of_cons in Ha as [->|Ha]; [by vm_compute|]). by apply not_elem_of_nil in Ha.
Qed.
